(* ===== verification/_CoqProject ===== *)
-Q . S2P
Prelude.v
Buffer.v
Timestamp.v
Poller.v
Logging.v
TimerQueue.v
EventLoop.v
ChannelApi.v
SharedLoop.v
LoopLife.v
TcpConnection.v
ConnEvent.v
Socket.v
Acceptor.v
TcpServer.v
ServerSystem.v
EchoServer.v
EventLoopThread.v
Regions.v
FixedBlockPool.v
SlabAllocator.v
CoroutinePool.v
MemPool.v
TaggedPointer.v
HazardPointer.v
LFMemoryPool.v
MPMCQueue.v
MPMCQueueV2.v
Thread.v
LockFreeThreadPool.v
ThreadPool.v
DynamicThreadPool.v
Generator.v
Task.v
TaskTypes.v
CoroScheduler.v
CoroChannel.v
CoroTcpConnection.v
CoroTcpServer.v
Awaitables.v
UringPoller.v
UringEventLoop.v
UringWakeup.v
UringTcpConnection.v
UringTcpServer.v
