(* ===== verification/Prelude.v ===== *)
(** * Verification of the my_new_muduo network library

    The program is a C++ library of reactors: an event loop over epoll with
    timers, buffered TCP connections and a multi-threaded TCP server ([net/]),
    the threads, pools, queues and lock-free structures it offers ([base/]),
    allocators ([pool/]), coroutines over the event loop ([coro/]) and a second
    back end over io_uring ([io_uring/]).  All paths below are under [src/].

    ** How the parts interact

    A thread runs one [EventLoop]: it polls, calls the handlers of the active
    channels, then runs the functors other threads queued.  A [Channel] is
    registered with the [EPollPoller] of its loop.  A [TcpServer] accepts on
    the base loop ([Acceptor]) and gives every [TcpConnection] to a loop of its
    [EventLoopThreadPool]; the connection tells the server of its end by
    queueing a functor on the base loop.  [TimerQueue] is a channel of its loop.
    The pools, queues and allocators stand alone, except that
    [LockFreeThreadPool] runs on [MPMCQueue] and [LFMemoryPool] on tagged
    pointers and the hazard-pointer domain.

    A coroutine is a [Task] or a [Generator]; a [CoroScheduler], which an event
    loop calls after its handlers, resumes the coroutines that became ready.  A
    [CoroChannel] makes and destroys a [Channel] of the loop and schedules the
    coroutine that waits on it, or calls its owner; a [CoroTcpConnection] is such
    an owner, and runs its handler as a task; a [CoroTcpServer] accepts the
    clients and keeps their connections in a table.  The awaiters of
    [coro/Awaitables.h] put a coroutine to sleep on a descriptor or on a timer of
    the loop.

    [UringPoller] makes requests to the kernel for coroutines that wait and resumes
    them with the results; a [UringEventLoop] is an [EventLoop] that polls it.  A
    [UringTcpServer] accepts with it and gives every [UringTcpConnection], whose
    [read] and [send] are coroutines, to a loop of its own thread pool.

    ** Files and the code they model

    - this file: machine integers ([wrap64], [int64_of]), the result type
      [outcome] of the whole development (a value, or the way the code fails:
      an assertion, an abort, undefined behaviour, an exception), its state
      monad, and the lemmas on lists and integers shared by all files;
    - Buffer.v: [net/Buffer.h], [net/Buffer.cpp];
    - Timestamp.v: [base/Timestamp.h], [base/Timestamp.cpp];
    - Poller.v: [net/Channel.*], [net/Poller.*], [net/EpollPoller.*] and the
      channel management of [net/Eventloop.cpp];
    - Logging.v: [base/Logging.h], [base/Logging.cpp];
    - TimerQueue.v: [net/Timer.*], [net/Timerld.h], [net/TimerQueue.*];
    - EventLoop.v: [net/EventLoop.h], [net/Eventloop.cpp]; its record [LoopThread]
      is what this loop and the one of UringEventLoop.v have in common;
    - SharedLoop.v: several users of ChannelApi.v on one poller;
    - LoopLife.v: the constructors and destructors of the loop, its [TimerQueue]
      and its [EPollPoller], over Poller.v and TimerQueue.v;
    - ChannelApi.v: the class through which a connection or an acceptor uses its
      channel, with its laws, and its implementation by Poller.v;
    - TcpConnection.v: [net/TcpConnection.*]; ConnEvent.v: [Channel::handleEvent]
      with the callbacks of a connection;
    - Socket.v: [net/Socket.*], [net/InetAddress.h]; Acceptor.v:
      [net/Acceptor.*];
    - TcpServer.v: [net/TcpServer.*] with the [EventLoopThreadPool] it uses;
      EventLoopThread.v: the class of this name in [net/TcpServer.cpp], of which
      [io_uring/UringEventLoopThread.h] has a copy;
    - ServerSystem.v: TcpServer.v and TcpConnection.v composed, the connections
      being the objects that the server's functors call; each of the two
      discharges what the other assumes; EchoServer.v: the callbacks of
      [examples/echo_server.cpp], as the user of a connection and of the system;
    - Regions.v (shared), FixedBlockPool.v, SlabAllocator.v, CoroutinePool.v,
      MemPool.v: the headers of the same names in [pool/];
    - TaggedPointer.v, HazardPointer.v, LFMemoryPool.v, MPMCQueue.v,
      MPMCQueueV2.v, Thread.v, LockFreeThreadPool.v, ThreadPool.v,
      DynamicThreadPool.v: the headers of the same names in [base/];
    - Generator.v, Task.v: the headers of the same names in [coro/]; the body of a
      coroutine is a function from its resume point and the world to the way it
      leaves that point; TaskTypes.v: a type system for these bodies;
    - CoroScheduler.v: [coro/CoroScheduler.*] and [coro/CoroEventLoop.*];
    - CoroChannel.v: [coro/CoroChannel.*], over Poller.v;
    - CoroTcpConnection.v: [coro/CoroTcpConnection.*], over CoroChannel.v, Buffer.v
      and Task.v, with the callbacks of [examples/coro_echo_server.cpp];
    - CoroTcpServer.v: [coro/CoroTcpServer.*], over Socket.v, ChannelApi.v and a
      class of connections, of which CoroTcpConnection.v gives an instance; who owns
      a connection is explicit;
    - Awaitables.v: [coro/Awaitables.*], over Poller.v and TimerQueue.v;
    - UringPoller.v: [io_uring/uring_poller.*], [io_uring/awaiter.*];
    - UringEventLoop.v: [io_uring/UringEventLoop.*], over EventLoop.v; UringWakeup.v:
      the map from the rings of UringPoller.v to the wake-up request of the loop;
    - UringTcpConnection.v: [io_uring/UringCoroTcpConnection.*], over Task.v;
      UringTcpServer.v: [io_uring/UringCoroTcpServer.*], over UringTcpConnection.v
      and the pool of TcpServer.v, of which [io_uring/UringEventLoopThreadPool.h]
      is a copy.

    State is kept as the classes keep it, one Record per class, and every
    operation is a definition of the name it has in the code.  Sequential
    components are executable functions in the error monad; components that
    several threads share are transition systems, executable too: a step
    function takes the thread and the scheduler's choices, one step is the code
    between two points where another thread can interfere, and the theorems
    hold in every reachable state.  The theorems that a witness applies have it
    in the Module [Demo] of the file.

    ** What the theorems show

    - Event loop: no wake-up is lost, although the eventfd is edge-triggered
      (functors that the loop's own thread queues before [loop()] are the one
      exception), functors run first in first out and each once, and every queued functor
      runs ([EventLoop.no_lost_wakeup], [functors_fifo],
      [queued_functors_run]).  A thread that is started hands over a live loop;
      its destructor can hang or come too early (EventLoopThread.v).  A loop gives
      back what its constructor took, in a release build
      ([LoopLife.loop_construct_destroy], [loop_destructor]).
    - Poller: the two pointer tables, the kernel's interest list and the indices
      in the channels agree, so [poll] reports only live channels with the
      events they asked for; in a release build any interleaving of operations on
      different channels is as good as a poller for each
      ([SharedLoop.shared_loop_is_separate_loops]), unless one is removed right after
      it was added, which leaks a registration ([unordered_remove_leaks]);
      [disableAll] before [remove], which is what the
      destructors do, breaks the assertions of [remove].
    - Timers: due timers run in order, cancelled ones do not, a repeating timer
      is inserted again unless it was cancelled from its own callback.
    - Connections: the bytes on the wire are a prefix of the bytes sent, in
      order; [shutdown] closes the write side after everything was written; the
      states follow their life cycle; the kernel watches a connection while it wants
      something, and not after its end unless reading was stopped
      ([TcpConnection.connection_watched]).  One event of the channel, with
      everything epoll reported at once, is a run of the handlers that were due, but
      for a hang-up without EPOLLIN that comes with EPOLLPRI or EPOLLRDHUP
      ([ConnEvent.event_is_a_run_of_handlers]).  What the echo server puts on the
      wire is the reference echo of what it read, up to [quit]
      ([EchoServer.echoes_until_quit]).
    - Server: the two-loop hand-shakes keep every connection object alive while
      a functor of it is queued, and the server's table is the set of the open
      connections.  Over a poller without assertions server and connections together
      never fail, and what their own assertions ask for holds
      ([ServerSystem.server_system_safe]); they refine their models
      ([server_system_refines]), agree on who is up
      ([server_table_is_the_live_connections]), and an idle server takes all of its
      connections down ([server_shuts_down]); every connection of a running echo
      server echoes ([EchoServer.server_echoes]).
    - Buffer: the buffer is a byte queue (refinement), also through [readFd].
    - Logging: what a log statement writes (which is not what its author meant)
      and the decimal conversion.
    - Queues and pools: [MPMCQueue] hands out every item at most once and only
      items that were put in; [MPMCQueueV2] is simulated by it; the thread
      pools run every task at most once and their counters count, while [stop]
      can hang or drop tasks.
    - Lock-free structures: a protected node is never deleted, the ABA tag of
      [LFMemoryPool] keeps its free lists sound as long as no [pop] is overtaken by
      exactly 65536 others, and [LFStack::pop] does not
      return on a non-empty stack.
    - Allocators: blocks handed out are disjoint and inside the memory that
      [operator new] gave, the free lists hold the rest; [MemPool] keeps that when
      [operator new] throws only if no part of a chunk was left over.
    - Coroutines: loops over a generator see what its body yields; tasks that
      await tasks compute what blocking calls compute and leak no frame
      ([Task.tasks_are_calls]), and well-typed ones do not go wrong
      ([TaskTypes.tasks_type_safe]); scheduled coroutines are resumed first in first
      out; a CoroChannel is, in a release build, the pair of flags and waiters its
      interface promises, except when it is removed after its events were switched
      off; the echo server echoes; but every end of a
      connection breaks an assertion or uses a destroyed channel.  The coroutine
      server's table is the set of the connections that have not ended, and no end
      is handled well; a sleep resumes its coroutine once, while a read or write
      that is awaited breaks an assertion when it is over, or uses a destroyed
      channel.
    - io_uring: a coroutine that awaits makes one request, the newest, and is
      resumed once with its own result - if the submission queue has room, which
      the code does not check.  The poller treats its wake-up request as the model
      of the loop says ([UringWakeup.uring_wakeup_refines]).  No wake-up of the loop is lost until the queue is
      full once, and none arrives from then on; even so every functor runs.  [read]
      and [send] of a connection move the right bytes in order, the server keeps
      every connection alive that a functor needs, and a handler can outlive its
      connection.

    ** Bounds and fuel

    Most loops of the code are recursions on their data.  Where fuel appears a
    theorem shows that it is enough: the size class of [LFMemoryPool] (64 steps,
    one per bit; above 2^63 the loop of the code does not end, and that is
    proved), the digits of [formatInteger] (20 for a 64-bit number), the
    start of more workers in [ThreadPool] (the maximum less the current number),
    the nested call of [MemPool::chunkAlloc] after [operator new] (the answers
    of [operator new]; it never nests twice).  The progress of the event loop,
    of hazard-pointer reclamation and of the timers is stated with an explicit
    number of steps.
    The fuel of the coroutine machine ([Task.drive]) is shown to suffice whenever
    the reference evaluation ends, and conversely; [processPendingResumes] ends
    within a bound on what is still scheduled ([CoroScheduler.resumes_end]) and
    does not end in general ([resumes_livelock]).  The fuel of the tasks is a
    parameter of the connection instance of CoroTcpServer.v.  The reachable states
    of an [EventLoopThread] are finitely many: their set is computed and checked to
    be closed under steps.  The positions of [MPMCQueue] wrap at 64 bits; its
    theorems assume fewer than 2^63 enqueued items.  The 64-bit counters of the
    pools are kept with their wrap-around, and [TaggedPointer] has 16 bits of
    version, which wrap.

    ** Builds

    The class [Build] says whether assertions are compiled in.  Channel.cpp and
    EpollPoller.cpp do not survive them: [remove] after [disableAll], which is how
    every channel is taken down, aborts ([Poller.disableAll_remove_asserts]).  The
    theorems about whole connections and servers are therefore over a poller
    without assertions (ChannelApi.v), and say of the assertions in the other files
    that their conditions hold.

    ** Not modelled

    - When epoll reports a descriptor: which events come is chosen by the
      surroundings in all transition systems, so nothing is said about an event that
      an edge-triggered registration does not repeat.

    - The memory orders of atomics: interleavings are sequentially consistent.
    - Declarations ([base/noncopyable.h], [net/Callbacks.h]) and the programs in
      [examples/], except for the callbacks of the echo servers.
    - The copies of [EventLoopThread] and its pool in [io_uring/], which are the
      same code, have no definitions of their own.
    - A loop that several connections of CoroTcpServer.v or of ServerSystem.v share:
      each has the state of a poller of its own, because channels meet only in the
      tables of the poller, where they do not disturb each other (SharedLoop.v).
    - The completions of UringPoller.v in UringEventLoop.v, apart from the wake-up:
      which coroutines a poll resumes is an argument there.
    - Strings made for log lines only ([Channel::eventsToString],
      [EPollPoller::operationToString]), getters, and the socket options that
      [UringTcpServer::start] sets by hand. *)

From Stdlib Require Import ZArith Lia.
From stdpp Require Export base gmap sets list strings relations sorting.

#[global] Set Default Goal Selector "!".
Local Open Scope Z_scope.

(** ** Notation scope *)

Declare Scope muduo_scope.
Delimit Scope muduo_scope with muduo.

(** ** Machine integers

    A [size_t] is kept as the [Z] in [[0, 2^64)] it denotes; arithmetic of the
    source is written on [Z] and wrapped where the source could wrap. *)

Definition size_mod : Z := 18446744073709551616.
Definition wrap64 (z : Z) : Z := z mod size_mod.

(** Conversion of a 64-bit pattern to [int64_t] / [intptr_t]. *)
Definition int64_of (z : Z) : Z :=
  let u := wrap64 z in if u <? 9223372036854775808 then u else u - size_mod.

(** [std::vector<char>::max_size()]. *)
Definition max_vector_size : Z := 9223372036854775807.

Create HintDb muduo.
Create Rewrite HintDb muduo.

(** Goals about [wrap64] are linear once the modulus is unfolded. *)
Ltac zlia := unfold wrap64, size_mod, max_vector_size in *; Z.div_mod_to_equations; lia.

Lemma wrap64_small z : 0 <= z < size_mod -> wrap64 z = z.
Proof. zlia. Qed.

Lemma wrap64_range z : 0 <= wrap64 z < size_mod.
Proof. zlia. Qed.

Lemma wrap64_idemp z : wrap64 (wrap64 z) = wrap64 z.
Proof. zlia. Qed.

Lemma int64_of_small z : 0 <= z <= max_vector_size -> int64_of z = z.
Proof. unfold int64_of. intros. case_match eqn:E; zlia. Qed.

#[export] Hint Rewrite wrap64_idemp : muduo.
#[export] Hint Resolve wrap64_range : muduo.

(** ** Failures and the state-and-failure monad

    The ways a run of the modelled C++ can leave its normal course. *)
Inductive failure :=
  | AssertFailed        (* assert(...) with NDEBUG not defined *)
  | Aborted             (* a FATAL log line: Logger::~Logger calls abort() *)
  | UndefinedBehaviour  (* out-of-bounds or dangling access *)
  | LengthError         (* std::length_error / std::bad_alloc *)
  | OutOfRange          (* std::out_of_range *)
  | BadFunctionCall.    (* an empty std::function is invoked *)

#[export] Instance failure_eq_dec : EqDecision failure.
Proof. solve_decision. Defined.

Inductive outcome (A : Type) :=
  | Done (a : A)
  | Fail (f : failure).
Arguments Done {A} a.
Arguments Fail {A} f.

(** A computation over the state [S]: threads the state, may fail. *)
Definition ST (S A : Type) : Type := S -> outcome (A * S).

#[export] Instance ST_ret S : MRet (ST S) := fun A a s => Done (a, s).
#[export] Instance ST_bind S : MBind (ST S) := fun A B k m s =>
  match m s with
  | Done (a, s') => k a s'
  | Fail f => Fail f
  end.

Definition get {S} : ST S S := fun s => Done (s, s).
Definition put {S} (s : S) : ST S unit := fun _ => Done (tt, s).
Definition modify {S} (f : S -> S) : ST S unit := fun s => Done (tt, f s).
Definition gets {S A} (f : S -> A) : ST S A := fun s => Done (f s, s).
Definition fail {S A} (f : failure) : ST S A := fun _ => Fail f.
Definition when {S} (b : bool) (m : ST S unit) : ST S unit :=
  if b then m else mret tt.

(** Dereferencing: a missing object is undefined behaviour. *)
Definition deref {S A} (o : option A) : ST S A :=
  match o with Some a => mret a | None => fail UndefinedBehaviour end.

(** Run [m] for every element, left to right. *)
Fixpoint for_each {S A} (l : list A) (m : A -> ST S unit) : ST S unit :=
  match l with
  | [] => mret tt
  | a :: l' => _ ← m a; for_each l' m
  end.

(** The build: [assert] is compiled out when [NDEBUG] is defined. *)
Class Build := { asserts_enabled : bool }.
Definition debug_build : Build := {| asserts_enabled := true |}.
Definition release_build : Build := {| asserts_enabled := false |}.

Definition cassert {S} `{Build} (b : bool) : ST S unit :=
  if asserts_enabled && negb b then fail AssertFailed else mret tt.

Section Monad.
Context {S : Type}.
Implicit Types (s : S).

Lemma bind_ret_l {A B} (a : A) (k : A -> ST S B) s : (x ← mret a; k x) s = k a s.
Proof. reflexivity. Qed.

Lemma bind_get {B} (k : S -> ST S B) s : (x ← get; k x) s = k s s.
Proof. reflexivity. Qed.

Lemma bind_modify {B} (f : S -> S) (k : unit -> ST S B) s :
  (u ← modify f; k u) s = k tt (f s).
Proof. reflexivity. Qed.

Lemma bind_done {A B} (m : ST S A) (k : A -> ST S B) s a s' :
  m s = Done (a, s') -> (x ← m; k x) s = k a s'.
Proof. intros E. unfold mbind, ST_bind. now rewrite E. Qed.

Lemma bind_fail {A B} (m : ST S A) (k : A -> ST S B) s f :
  m s = Fail f -> (x ← m; k x) s = Fail f.
Proof. intros E. unfold mbind, ST_bind. now rewrite E. Qed.

Lemma bind_assoc {A B C} (m : ST S A) (k : A -> ST S B) (h : B -> ST S C) s :
  (y ← (x ← m; k x); h y) s = (x ← m; y ← k x; h y) s.
Proof. unfold mbind, ST_bind. now destruct (m s) as [[]|]. Qed.

Lemma bind_assoc3 {A B C D} (m : ST S A) (n : ST S B) (k : ST S C) (h : ST S D) s :
  (_ ← (_ ← m; _ ← n; k); h) s = (_ ← m; _ ← n; _ ← k; h) s.
Proof.
  unfold mbind, ST_bind. destruct (m s) as [[? s1]|]; [|reflexivity]. now destruct (n s1) as [[]|].
Qed.

(** A sequence that does not fail with [f] has no part that does. *)
Lemma bind_nofail_l {A B} (m : ST S A) (k : A -> ST S B) s f :
  (x ← m; k x) s <> Fail f -> m s <> Fail f.
Proof. intros Hn E. apply Hn. now apply bind_fail. Qed.

Lemma bind_nofail_r {A B} (m : ST S A) (k : A -> ST S B) s f a s' :
  m s = Done (a, s') -> (x ← m; k x) s <> Fail f -> k a s' <> Fail f.
Proof. intros E. now rewrite (bind_done _ _ _ _ _ E). Qed.

Lemma bind_inv {A B} (m : ST S A) (k : A -> ST S B) s r :
  (x ← m; k x) s = Done r -> exists a s', m s = Done (a, s') /\ k a s' = Done r.
Proof.
  unfold mbind, ST_bind. destruct (m s) as [[a s']|f]; [|discriminate].
  intros E. eauto.
Qed.

Lemma cassert_true `{Build} (b : bool) s : b = true -> cassert b s = Done (tt, s).
Proof. intros ->. unfold cassert. now rewrite andb_false_r. Qed.

Lemma cassert_release `{Build} (b : bool) s :
  asserts_enabled = false -> cassert b s = Done (tt, s).
Proof. intros E. unfold cassert. now rewrite E. Qed.

Lemma cassert_false `{Build} (b : bool) s :
  asserts_enabled = true -> b = false -> cassert b s = Fail AssertFailed.
Proof. intros E ->. unfold cassert. now rewrite E. Qed.

Lemma cassert_inv `{Build} (b : bool) s u s' : cassert b s = Done (u, s') -> s' = s.
Proof. unfold cassert, fail. destruct (_ && _); [discriminate|]. now intros [= _ <-]. Qed.

Lemma for_each_cons {A} (a : A) l (m : A -> ST S unit) s s' :
  m a s = Done (tt, s') -> for_each (a :: l) m s = for_each l m s'.
Proof. intros E. exact (bind_done _ _ _ _ _ E). Qed.

Lemma for_each_app {A} (l1 l2 : list A) (m : A -> ST S unit) s s' :
  for_each l1 m s = Done (tt, s') -> for_each (l1 ++ l2) m s = for_each l2 m s'.
Proof.
  revert s; induction l1 as [|a l1 IH]; intros s.
  - intros [= ->]. reflexivity.
  - intros (u & s1 & E1 & E2)%bind_inv. destruct u. cbn [app].
    rewrite (for_each_cons _ _ _ _ _ E1). now apply IH.
Qed.

(** An invariant kept by the body (which also succeeds) is kept by the loop. *)
Lemma for_each_inv {A} (I : list A -> S -> Prop) (l : list A) (m : A -> ST S unit) s :
  I l s ->
  (forall a l' s1, I (a :: l') s1 -> exists s2, m a s1 = Done (tt, s2) /\ I l' s2) ->
  exists s', for_each l m s = Done (tt, s') /\ I [] s'.
Proof.
  intros HI Hstep. revert s HI; induction l as [|a l IH]; intros s HI.
  - exists s. auto.
  - destruct (Hstep _ _ _ HI) as (s2 & E & HI2).
    destruct (IH _ HI2) as (s' & E' & HI').
    exists s'. rewrite (for_each_cons _ _ _ _ _ E). auto.
Qed.
End Monad.

#[export] Hint Rewrite @bind_ret_l : muduo.

(** Execute the next statement of a monadic body whose result is known. *)
Ltac st_step E := rewrite (bind_done _ _ _ _ _ E); cbv beta.
Ltac st_get := rewrite bind_get; cbv beta.
Ltac st_modify := rewrite bind_modify; cbv beta.
(** Unfold the plumbing of the monad. *)
Ltac st_simpl :=
  unfold gets, modify, get, put, when, fail, deref; unfold mbind, ST_bind, mret, ST_ret; cbn.

(** ** Runs that succeed or exhaust memory *)

Definition runs {S A} (m : ST S A) (s : S) (P : A -> S -> Prop) : Prop :=
  (exists a s', m s = Done (a, s') /\ P a s') \/ m s = Fail LengthError.

Section Runs.
Context {S A B : Type}.
Implicit Types (s : S).

Lemma runs_ret (a : A) s (P : A -> S -> Prop) : P a s -> runs (mret a) s P.
Proof. intros Hp. left. eexists _, _. split; [reflexivity|exact Hp]. Qed.

Lemma runs_done (m : ST S A) s a s' (P : A -> S -> Prop) : m s = Done (a, s') -> P a s' -> runs m s P.
Proof. intros E Hp. left. eauto. Qed.

Lemma runs_bind (m : ST S A) (k : A -> ST S B) s (P : A -> S -> Prop) (Q : B -> S -> Prop) :
  runs m s P -> (forall a s', P a s' -> runs (k a) s' Q) -> runs (m ≫= k) s Q.
Proof.
  intros [(a & s' & E & Hp)|E] Hk.
  - destruct (Hk a s' Hp) as [(b & s2 & E2 & Hq)|E2].
    + left. exists b, s2. now rewrite (bind_done _ _ _ _ _ E).
    + right. now rewrite (bind_done _ _ _ _ _ E).
  - right. now apply bind_fail.
Qed.

Lemma runs_step (m : ST S A) (k : A -> ST S B) s a s' (Q : B -> S -> Prop) :
  m s = Done (a, s') -> runs (k a) s' Q -> runs (m ≫= k) s Q.
Proof. intros E Hk. unfold runs in *. now rewrite (bind_done _ _ _ _ _ E). Qed.

Lemma runs_weaken (m : ST S A) s (P Q : A -> S -> Prop) :
  runs m s P -> (forall a s', P a s' -> Q a s') -> runs m s Q.
Proof. intros [(a & s' & E & Hp)|E] Hw; [left; eauto|now right]. Qed.

Lemma runs_when b (m : ST S unit) s (P : unit -> S -> Prop) :
  (b = true -> runs m s P) -> (b = false -> P tt s) -> runs (when b m) s P.
Proof. destruct b; cbn [when]; intros Ht Hf; [auto|left; eexists _, _; split; [reflexivity|auto]]. Qed.
End Runs.

(** Execute the next statement of the body under [runs]. *)
Ltac r_step E := refine (runs_step _ _ _ _ _ _ E _); cbv beta.
Ltac r_get := refine (runs_step _ _ _ _ _ _ (eq_refl : get _ = Done (_, _)) _); cbv beta.
Ltac r_modify := refine (runs_step _ _ _ _ _ _ (eq_refl : modify _ _ = Done (tt, _)) _); cbv beta.

(** ** Lists *)

Lemma filter_all {A} (P : A -> Prop) `{!forall x, Decision (P x)} (l : list A) :
  Forall P l -> base.filter P l = l.
Proof. induction 1; [reflexivity|]. rewrite list.filter_cons_True by done. congruence. Qed.

Lemma filter_none {A} (P : A -> Prop) `{!forall x, Decision (P x)} (l : list A) :
  Forall (fun x => ~ P x) l -> base.filter P l = [].
Proof. induction 1; [reflexivity|]. now rewrite list.filter_cons_False by done. Qed.

Lemma Forall2_choice {A B} (P : A -> B -> Prop) (l : list A) :
  (forall x, x ∈ l -> exists y, P x y) -> exists k, Forall2 P l k.
Proof.
  induction l as [|x l IH]; intros H; [eauto|].
  destruct (H x) as [y Hy]; [left|]. destruct IH as [k Hk]; [intros z Hz; apply H; now right|].
  exists (y :: k). now constructor.
Qed.

(** ** Flat memory: slices of a list and in-place overwriting *)

(** The elements with index in [[i, j)]. *)
Definition slice {A} (i j : Z) (l : list A) : list A :=
  take (Z.to_nat (j - i)) (drop (Z.to_nat i) l).

(** [std::copy(d, d + n, begin + i)] into [l]; out of range it would write past
    the end of the array, which the callers turn into [UndefinedBehaviour]. *)
Definition overwrite {A} (i : Z) (d l : list A) : list A :=
  take (Z.to_nat i) l ++ d ++ drop (Z.to_nat i + length d) l.

Section Flat.
Context {A : Type}.
Implicit Types (l d : list A).

Lemma length_slice i j l :
  0 <= i -> i <= j -> j <= Z.of_nat (length l) -> Z.of_nat (length (slice i j l)) = j - i.
Proof. intros. unfold slice. rewrite length_take, length_drop. lia. Qed.

Lemma slice_nil i l : slice i i l = [].
Proof. unfold slice. now rewrite Z.sub_diag. Qed.

Lemma slice_app_split i j k l :
  0 <= i -> i <= j -> j <= k -> slice i k l = slice i j l ++ slice j k l.
Proof.
  intros. unfold slice.
  replace (Z.to_nat (k - i)) with (Z.to_nat (j - i) + Z.to_nat (k - j))%nat by lia.
  rewrite <-take_take_drop, drop_drop. do 3 f_equal. lia.
Qed.

Lemma length_overwrite i d l :
  0 <= i -> i + Z.of_nat (length d) <= Z.of_nat (length l) ->
  length (overwrite i d l) = length l.
Proof.
  intros. unfold overwrite. rewrite !length_app, length_take, length_drop. lia.
Qed.

Lemma slice_overwrite_eq i d l :
  0 <= i -> i + Z.of_nat (length d) <= Z.of_nat (length l) ->
  slice i (i + Z.of_nat (length d)) (overwrite i d l) = d.
Proof.
  intros. unfold slice, overwrite.
  rewrite drop_app_length' by (rewrite length_take; lia).
  rewrite take_app_length' by lia. reflexivity.
Qed.

Lemma slice_overwrite_before i j k d l :
  0 <= i -> j <= k -> k + Z.of_nat (length d) <= Z.of_nat (length l) ->
  slice i j (overwrite k d l) = slice i j l.
Proof.
  intros. unfold slice, overwrite.
  destruct (decide (j <= i)).
  { replace (Z.to_nat (j - i)) with 0%nat by lia. now rewrite !take_0. }
  rewrite drop_app_le by (rewrite length_take; lia).
  rewrite take_app_le by (rewrite length_drop, length_take; lia).
  rewrite skipn_firstn_comm, take_take. f_equal. lia.
Qed.

Lemma slice_overwrite_after i j k d l :
  0 <= k -> k + Z.of_nat (length d) <= i -> k + Z.of_nat (length d) <= Z.of_nat (length l) ->
  slice i j (overwrite k d l) = slice i j l.
Proof.
  intros. unfold slice, overwrite. rewrite app_assoc.
  rewrite drop_app_ge by (rewrite length_app, length_take; lia).
  rewrite drop_drop, length_app, length_take. do 2 f_equal. lia.
Qed.

Lemma slice_app_l i j l d :
  0 <= i -> j <= Z.of_nat (length l) -> slice i j (l ++ d) = slice i j l.
Proof.
  intros. unfold slice. destruct (decide (j <= i)).
  { replace (Z.to_nat (j - i)) with 0%nat by lia. now rewrite !take_0. }
  rewrite drop_app_le by lia. rewrite take_app_le by (rewrite length_drop; lia).
  reflexivity.
Qed.

Lemma take_slice n i j l :
  0 <= i -> 0 <= n -> n <= j - i -> take (Z.to_nat n) (slice i j l) = slice i (i + n) l.
Proof. intros. unfold slice. rewrite take_take. f_equal. lia. Qed.

Lemma drop_slice n i j l :
  0 <= i -> 0 <= n -> n <= j - i -> drop (Z.to_nat n) (slice i j l) = slice (i + n) j l.
Proof.
  intros. unfold slice. rewrite skipn_firstn_comm, drop_drop. f_equal; [lia|].
  f_equal. lia.
Qed.
End Flat.
