(* ===== verification/Buffer.v ===== *)
(** Buffer: the growable byte buffer of [net/Buffer.h] and [net/Buffer.cpp].

    The vector, the reader index and the writer index are kept as the class
    keeps them; a [const char*] into the buffer is the offset it has from
    [begin()], and a null pointer is [None].  Contents and indices satisfy the
    invariant [Wf]; [content] is the abstraction to a byte queue. *)

From Stdlib Require Import ZArith Lia.
From Stdlib Require Import Strings.Byte.
From S2P Require Import Prelude.

Local Open Scope Z_scope.

Definition kCheapPrepend : Z := 8.
Definition kInitialSize : Z := 1024.
Definition extrabuf_size : Z := 65536.

Record Buffer := mkBuffer {
  buffer_ : list byte;
  readerIndex_ : Z;
  writerIndex_ : Z;
}.

Definition CR : byte := x0d.
Definition LF : byte := x0a.
Definition kCRLF : list byte := [CR; LF].

#[export] Instance byte_eq_dec' : EqDecision byte := byte_eq_dec.

(** ** Integers in memory (little-endian host, [htobe*] swaps the bytes) *)

Definition byte_of_Z (z : Z) : byte := default x00 (Byte.of_N (Z.to_N (z mod 256))).
Definition Z_of_byte (b : byte) : Z := Z.of_N (Byte.to_N b).

(** The object representation of an [n]-byte integer. *)
Fixpoint le_bytes (n : nat) (x : Z) : list byte :=
  match n with
  | O => []
  | S n' => byte_of_Z x :: le_bytes n' (x / 256)
  end.

Fixpoint le_value (l : list byte) : Z :=
  match l with
  | [] => 0
  | b :: l' => Z_of_byte b + 256 * le_value l'
  end.

(** [htobe16], [htobe32], [htobe64]: byte [i] of the result is byte [n-1-i]. *)
Definition htobe (n : nat) (x : Z) : Z := le_value (reverse (le_bytes n x)).

(** What the peer reads: network byte order. *)
Definition be_value (l : list byte) : Z := le_value (reverse l).

Section Operations.
Context `{Build}.

Definition size (b : Buffer) : Z := Z.of_nat (length (buffer_ b)).
Definition readableBytes (b : Buffer) : Z := wrap64 (writerIndex_ b - readerIndex_ b).
Definition writableBytes (b : Buffer) : Z := wrap64 (size b - writerIndex_ b).
Definition prependableBytes (b : Buffer) : Z := readerIndex_ b.
Definition peek (b : Buffer) : Z := readerIndex_ b.
Definition beginWrite (b : Buffer) : Z := writerIndex_ b.

Definition set_reader (r : Z) (b : Buffer) := mkBuffer (buffer_ b) r (writerIndex_ b).
Definition set_writer (w : Z) (b : Buffer) := mkBuffer (buffer_ b) (readerIndex_ b) w.
Definition set_data (d : list byte) (b : Buffer) := mkBuffer d (readerIndex_ b) (writerIndex_ b).

(** [explicit Buffer(size_t initialSize)]: a zero-filled vector. *)
Definition new (initialSize : Z) : outcome Buffer :=
  if max_vector_size <? wrap64 (kCheapPrepend + initialSize) then Fail LengthError else
  let b := mkBuffer (replicate (Z.to_nat (wrap64 (kCheapPrepend + initialSize))) x00)
                    kCheapPrepend kCheapPrepend in
  match (_ ← cassert (readableBytes b =? 0);
         _ ← cassert (writableBytes b =? initialSize);
         cassert (prependableBytes b =? kCheapPrepend)) b with
  | Done (_, b') => Done b'
  | Fail f => Fail f
  end.

Definition swap (b rhs : Buffer) : Buffer * Buffer :=
  (mkBuffer (buffer_ rhs) (readerIndex_ rhs) (writerIndex_ rhs),
   mkBuffer (buffer_ b) (readerIndex_ b) (writerIndex_ b)).

(** [std::copy(d, d + len, begin() + i)]. *)
Definition copy_in (i : Z) (d : list byte) : ST Buffer unit := fun b =>
  if (0 <=? i) && (i + Z.of_nat (length d) <=? size b)
  then Done (tt, set_data (overwrite i d (buffer_ b)) b)
  else Fail UndefinedBehaviour.

(** Reading the bytes at offsets [[i, i + len)]. *)
Definition read_range (i len : Z) : ST Buffer (list byte) := fun b =>
  if (0 <=? i) && (0 <=? len) && (i + len <=? size b)
  then Done (slice i (i + len) (buffer_ b), b)
  else Fail UndefinedBehaviour.

(** [buffer_.resize(n)]. *)
Definition resize_vec (n : Z) : ST Buffer unit := fun b =>
  if max_vector_size <? n then Fail LengthError
  else Done (tt, set_data (take (Z.to_nat n) (buffer_ b) ++
                           replicate (Z.to_nat n - length (buffer_ b)) x00) b).

(** [std::search(first, last, kCRLF, kCRLF + 2)] as the number of bytes
    skipped, the length of the range when there is no match. *)
Fixpoint search (pat l : list byte) : nat :=
  match l with
  | [] => 0
  | _ :: l' => if decide (take (length pat) l = pat) then 0%nat else S (search pat l')
  end.

(** [memchr(p, c, n)]. *)
Fixpoint memchr (c : byte) (l : list byte) : option nat :=
  match l with
  | [] => None
  | x :: l' => if decide (x = c) then Some 0%nat else S <$> memchr c l'
  end.

Definition findCRLF_from (start : Z) : ST Buffer (option Z) :=
  b ← get;
  _ ← cassert (peek b <=? start);
  _ ← cassert (start <=? beginWrite b);
  l ← read_range start (beginWrite b - start);
  let crlf := start + Z.of_nat (search kCRLF l) in
  mret (if crlf =? beginWrite b then None else Some crlf).

Definition findCRLF : ST Buffer (option Z) :=
  b ← get;
  l ← read_range (peek b) (beginWrite b - peek b);
  let crlf := peek b + Z.of_nat (search kCRLF l) in
  mret (if crlf =? beginWrite b then None else Some crlf).

Definition findEOL : ST Buffer (option Z) :=
  b ← get;
  l ← read_range (peek b) (readableBytes b);
  mret ((fun n => peek b + Z.of_nat n) <$> memchr LF l).

Definition findEOL_from (start : Z) : ST Buffer (option Z) :=
  b ← get;
  _ ← cassert (peek b <=? start);
  _ ← cassert (start <=? beginWrite b);
  l ← read_range start (beginWrite b - start);
  mret ((fun n => start + Z.of_nat n) <$> memchr LF l).

Definition retrieveAll : ST Buffer unit :=
  modify (fun b => set_writer kCheapPrepend (set_reader kCheapPrepend b)).

Definition retrieve (len : Z) : ST Buffer unit :=
  b ← get;
  _ ← cassert (len <=? readableBytes b);
  if len <? readableBytes b
  then modify (fun b => set_reader (wrap64 (readerIndex_ b + len)) b)
  else retrieveAll.

Definition retrieveUntil (end_ : Z) : ST Buffer unit :=
  b ← get;
  _ ← cassert (peek b <=? end_);
  _ ← cassert (end_ <=? beginWrite b);
  retrieve (wrap64 (end_ - peek b)).

Definition retrieveInt64 : ST Buffer unit := retrieve 8.
Definition retrieveInt32 : ST Buffer unit := retrieve 4.
Definition retrieveInt16 : ST Buffer unit := retrieve 2.
Definition retrieveInt8 : ST Buffer unit := retrieve 1.

Definition retrieveAsString (len : Z) : ST Buffer (list byte) :=
  b ← get;
  _ ← cassert (len <=? readableBytes b);
  result ← read_range (peek b) len;
  _ ← retrieve len;
  mret result.

Definition retrieveAllAsString : ST Buffer (list byte) :=
  b ← get; retrieveAsString (readableBytes b).

(** Room for [len] more bytes: grow the vector, or move the readable bytes to
    the front when the free space at both ends suffices. *)
Definition makeSpace (len : Z) : ST Buffer unit :=
  b ← get;
  if wrap64 (writableBytes b + prependableBytes b) <? wrap64 (len + kCheapPrepend)
  then resize_vec (wrap64 (writerIndex_ b + len))
  else
    _ ← cassert (kCheapPrepend <? readerIndex_ b);
    let readable := readableBytes b in
    d ← read_range (readerIndex_ b) (writerIndex_ b - readerIndex_ b);
    _ ← copy_in kCheapPrepend d;
    _ ← modify (set_reader kCheapPrepend);
    _ ← modify (fun b => set_writer (wrap64 (readerIndex_ b + readable)) b);
    b' ← get;
    cassert (readable =? readableBytes b').

Definition ensureWritableBytes (len : Z) : ST Buffer unit :=
  b ← get;
  _ ← when (writableBytes b <? len) (makeSpace len);
  b' ← get;
  cassert (len <=? writableBytes b').

Definition hasWritten (len : Z) : ST Buffer unit :=
  b ← get;
  _ ← cassert (len <=? writableBytes b);
  modify (fun b => set_writer (wrap64 (writerIndex_ b + len)) b).

Definition unwrite (len : Z) : ST Buffer unit :=
  b ← get;
  _ ← cassert (len <=? readableBytes b);
  modify (fun b => set_writer (wrap64 (writerIndex_ b - len)) b).

(** [append(const char* data, size_t len)], [data] the [len] bytes given. *)
Definition append (data : list byte) : ST Buffer unit :=
  let len := Z.of_nat (length data) in
  _ ← ensureWritableBytes len;
  b ← get;
  _ ← copy_in (beginWrite b) data;
  hasWritten len.

Definition prepend (data : list byte) : ST Buffer unit :=
  let len := Z.of_nat (length data) in
  b ← get;
  _ ← cassert (len <=? prependableBytes b);
  _ ← modify (fun b => set_reader (wrap64 (readerIndex_ b - len)) b);
  b' ← get;
  copy_in (readerIndex_ b') data.

Definition prependInt64 (x : Z) : ST Buffer unit := prepend (le_bytes 8 (htobe 8 x)).
Definition prependInt32 (x : Z) : ST Buffer unit := prepend (le_bytes 4 (htobe 4 x)).
Definition prependInt16 (x : Z) : ST Buffer unit := prepend (le_bytes 2 (htobe 2 x)).
Definition prependInt8 (x : Z) : ST Buffer unit := prepend (le_bytes 1 x).

Definition shrink (reserve : Z) : ST Buffer unit :=
  b ← get;
  d ← read_range (peek b) (readableBytes b);
  match new kInitialSize with
  | Fail f => fail f
  | Done other =>
      match (_ ← ensureWritableBytes (wrap64 (readableBytes b + reserve)); append d) other with
      | Fail f => fail f
      | Done (_, other') => put (fst (swap b other'))
      end
  end.

(** The result of [readv]: an error number, or the bytes the kernel stored in
    the scatter list, in order. *)
Inductive readv_result :=
  | ReadvError (err : Z)
  | ReadvBytes (l : list byte).

(** [readFd]: [readv] is given the lengths of the io vectors; the result is
    the return value and the value stored in [*savedErrno], if any. *)
Definition readFd (readv : list Z -> readv_result) : ST Buffer (Z * option Z) :=
  b ← get;
  let writable := writableBytes b in
  let iov := if writable <? extrabuf_size then [writable; extrabuf_size] else [writable] in
  match readv iov with
  | ReadvError err => mret (-1, Some err)
  | ReadvBytes l =>
      let n := Z.of_nat (length l) in
      (* the kernel fills the tail of the vector first, then extrabuf *)
      _ ← copy_in (writerIndex_ b) (take (Z.to_nat writable) l);
      let extrabuf := drop (Z.to_nat writable) l in
      _ ← (if n <=? writable
           then modify (fun b => set_writer (wrap64 (writerIndex_ b + n)) b)
           else _ ← modify (fun b => set_writer (size b) b); append extrabuf);
      mret (n, None)
  end.
End Operations.

(** ** The invariant and the abstraction *)

Record Wf (b : Buffer) : Prop := {
  wf_reader : 0 <= readerIndex_ b;
  wf_order : readerIndex_ b <= writerIndex_ b;
  wf_writer : writerIndex_ b <= size b;
  wf_prepend : kCheapPrepend <= size b;
  wf_max : size b <= max_vector_size;
}.

(** The readable bytes, oldest first: what the buffer means as a byte queue. *)
Definition content (b : Buffer) : list byte :=
  slice (readerIndex_ b) (writerIndex_ b) (buffer_ b).

(** Commands of a client of the buffer and their meaning on the byte queue; the
    second component is the number of bytes free in front of the content. *)
Inductive command :=
  | CAppend (d : list byte)
  | CRetrieve (n : Z)
  | CRetrieveAll
  | CUnwrite (n : Z)
  | CEnsure (n : Z)
  | CPrepend (d : list byte).

Definition exec `{Build} (c : command) : ST Buffer unit :=
  match c with
  | CAppend d => append d
  | CRetrieve n => retrieve n
  | CRetrieveAll => retrieveAll
  | CUnwrite n => unwrite n
  | CEnsure n => ensureWritableBytes n
  | CPrepend d => prepend d
  end.

(** The queue after a command that its precondition allows. *)
Definition queue_step (c : command) (q : list byte) : option (list byte) :=
  match c with
  | CAppend d => Some (q ++ d)
  | CRetrieve n => if (0 <=? n) && (n <=? Z.of_nat (length q)) then Some (drop (Z.to_nat n) q) else None
  | CRetrieveAll => Some []
  | CUnwrite n => if (0 <=? n) && (n <=? Z.of_nat (length q))
                  then Some (take (length q - Z.to_nat n) q) else None
  | CEnsure n => if 0 <=? n then Some q else None
  | CPrepend d => Some (d ++ q)
  end.

(** Bytes of vector a command may need at most. *)
Definition demand (c : command) : Z :=
  match c with
  | CAppend d => Z.of_nat (length d)
  | CEnsure n => n
  | _ => 0
  end.

Fixpoint exec_all `{Build} (cs : list command) : ST Buffer unit :=
  match cs with
  | [] => mret tt
  | c :: cs' => _ ← exec c; exec_all cs'
  end.

(** The queue and the free space in front of it after a command sequence that
    keeps its preconditions; [prepend] only fits into the space that earlier
    reads freed, so the sequence tracks a lower bound of it. *)
Fixpoint queue_run (cs : list command) (front : Z) (q : list byte) : option (list byte) :=
  match cs with
  | [] => Some q
  | c :: cs' =>
      match queue_step c q with
      | None => None
      | Some q' =>
          match c with
          | CPrepend d => if Z.of_nat (length d) <=? front
                          then queue_run cs' (front - Z.of_nat (length d)) q' else None
          | _ => queue_run cs' (Z.min front kCheapPrepend) q'
          end
      end
  end.

Definition total_demand (cs : list command) : Z := foldr (fun c n => demand c + n) 0 cs.

(** ** Lemmas on the invariant *)

Ltac buf_unfold :=
  unfold readableBytes, writableBytes, prependableBytes, peek, beginWrite, set_reader,
    set_writer, set_data in *; unfold size, kCheapPrepend in *; cbn [buffer_ readerIndex_ writerIndex_] in *.

Section Lemmas.
Context `{Build}.
Implicit Types b : Buffer.

Lemma readable_wf b : Wf b -> readableBytes b = writerIndex_ b - readerIndex_ b.
Proof. intros []. buf_unfold. zlia. Qed.

Lemma writable_wf b : Wf b -> writableBytes b = size b - writerIndex_ b.
Proof. intros []. buf_unfold. zlia. Qed.

Lemma length_content b : Wf b -> Z.of_nat (length (content b)) = readableBytes b.
Proof.
  intros W. rewrite (readable_wf _ W). destruct W. unfold content, size in *.
  rewrite length_slice; lia.
Qed.

Lemma copy_in_ok i d b :
  0 <= i -> i + Z.of_nat (length d) <= size b ->
  copy_in i d b = Done (tt, set_data (overwrite i d (buffer_ b)) b).
Proof.
  intros. unfold copy_in.
  now rewrite (proj2 (Z.leb_le _ _)), (proj2 (Z.leb_le (_ + _) _)) by lia.
Qed.

Lemma read_range_ok i len b :
  0 <= i -> 0 <= len -> i + len <= size b ->
  read_range i len b = Done (slice i (i + len) (buffer_ b), b).
Proof.
  intros. unfold read_range.
  now rewrite (proj2 (Z.leb_le 0 i)), (proj2 (Z.leb_le 0 len)), (proj2 (Z.leb_le (_ + _) _)) by lia.
Qed.

Lemma read_content b : Wf b ->
  read_range (readerIndex_ b) (writerIndex_ b - readerIndex_ b) b = Done (content b, b).
Proof.
  intros []. rewrite read_range_ok by lia. unfold content. do 3 f_equal. lia.
Qed.

Lemma retrieveAll_spec b : Wf b ->
  exists b', retrieveAll b = Done (tt, b') /\ Wf b' /\ content b' = [] /\
    readerIndex_ b' = kCheapPrepend /\ size b' = size b.
Proof.
  intros []. eexists. split; [reflexivity|].
  split; [constructor; buf_unfold; lia|].
  split; [unfold content; buf_unfold; apply slice_nil|auto].
Qed.

Lemma retrieve_spec len b : Wf b -> 0 <= len -> len <= readableBytes b ->
  exists b', retrieve len b = Done (tt, b') /\ Wf b' /\
    content b' = drop (Z.to_nat len) (content b) /\ size b' = size b /\
    Z.min (readerIndex_ b) kCheapPrepend <= readerIndex_ b' /\
    writerIndex_ b' <= Z.max (writerIndex_ b) kCheapPrepend.
Proof.
  intros W Hlen Hle. pose proof (readable_wf _ W) as Hr.
  unfold retrieve. st_get.
  st_step (cassert_true (len <=? readableBytes b) b ltac:(lia)).
  destruct (Z.ltb_spec len (readableBytes b)) as [Hlt|Hge].
  - eexists. split; [reflexivity|]. destruct W. unfold content; buf_unfold.
    split; [constructor; buf_unfold; zlia|]. rewrite wrap64_small by zlia.
    rewrite drop_slice by lia. split; [reflexivity|]. lia.
  - destruct (retrieveAll_spec b W) as (b' & E & W' & C & R & Z0).
    injection E as <-. eexists. split; [reflexivity|]. rewrite C, R.
    repeat split; auto; try apply W'; cbn; [|lia|lia].
    rewrite drop_ge; [reflexivity|]. pose proof (length_content b W). lia.
Qed.

Lemma hasWritten_ok len b : Wf b -> 0 <= len -> len <= size b - writerIndex_ b ->
  hasWritten len b = Done (tt, set_writer (writerIndex_ b + len) b).
Proof.
  intros W ??. pose proof (writable_wf _ W) as Hw.
  unfold hasWritten. st_get.
  st_step (cassert_true (len <=? writableBytes b) b ltac:(lia)).
  st_simpl. rewrite wrap64_small by (destruct W; zlia). reflexivity.
Qed.

(** [makeSpace] on a full buffer: grows, or moves the content to the front. *)
Lemma makeSpace_spec len b : Wf b -> size b - writerIndex_ b < len ->
  writerIndex_ b + len <= max_vector_size \/ len + kCheapPrepend <= size b - readableBytes b ->
  exists b', makeSpace len b = Done (tt, b') /\ Wf b' /\ content b' = content b /\
    len <= size b' - writerIndex_ b' /\
    (readerIndex_ b' = readerIndex_ b /\ size b' = writerIndex_ b + len /\
       size b - readableBytes b < len + kCheapPrepend
     \/ readerIndex_ b' = kCheapPrepend /\ size b' = size b /\
       len + kCheapPrepend <= size b - readableBytes b).
Proof.
  intros W Hfull Hmax. pose proof W as [].
  pose proof (readable_wf _ W) as Hr; pose proof (writable_wf _ W) as Hw.
  unfold makeSpace. st_get.
  rewrite (wrap64_small (_ + _)) by (buf_unfold; zlia).
  rewrite (wrap64_small (len + _)) by (buf_unfold; zlia).
  destruct (Z.ltb_spec (writableBytes b + prependableBytes b) (len + kCheapPrepend)) as [Hlt|Hge].
  - assert (writerIndex_ b + len <= max_vector_size) by (destruct Hmax; [done|buf_unfold; lia]).
    rewrite wrap64_small by zlia. unfold resize_vec.
    rewrite (proj2 (Z.ltb_ge _ _)) by lia. eexists. split; [reflexivity|].
    assert (size (set_data (take (Z.to_nat (writerIndex_ b + len)) (buffer_ b) ++
      replicate (Z.to_nat (writerIndex_ b + len) - length (buffer_ b)) x00) b)
      = writerIndex_ b + len) as Hsz.
    { buf_unfold. rewrite length_app, length_take, length_replicate. lia. }
    rewrite take_ge in * by (unfold size in *; lia).
    split; [constructor; rewrite ?Hsz; buf_unfold; lia|].
    split; [unfold content; buf_unfold; apply slice_app_l; lia|].
    rewrite Hsz. buf_unfold. split; [lia|]. left. lia.
  - assert (kCheapPrepend < readerIndex_ b) as Hpos by (buf_unfold; lia).
    st_step (cassert_true (kCheapPrepend <? readerIndex_ b) b ltac:(lia)).
    st_step (read_content b W). pose proof (length_content b W) as Hl.
    st_step (copy_in_ok kCheapPrepend (content b) b ltac:(buf_unfold; lia) ltac:(buf_unfold; lia)).
    set (b1 := mkBuffer (overwrite kCheapPrepend (content b) (buffer_ b)) kCheapPrepend
                 (kCheapPrepend + readableBytes b)).
    assert (size b1 = size b) as Hsz.
    { unfold b1. buf_unfold. rewrite length_overwrite; lia. }
    assert (Wf b1) as W1.
    { constructor; rewrite ?Hsz; unfold b1; buf_unfold; lia. }
    exists b1. split.
    { do 2 st_modify. st_get. cbn [readerIndex_ set_reader set_data].
      rewrite (wrap64_small (kCheapPrepend + _)) by (buf_unfold; zlia).
      apply (cassert_true (readableBytes b =? readableBytes b1) b1).
      rewrite (readable_wf _ W1). unfold b1; cbn. lia. }
    split; [exact W1|]. split.
    { unfold content at 1. unfold b1. cbn [buffer_ readerIndex_ writerIndex_].
      rewrite <-Hl. apply slice_overwrite_eq; buf_unfold; lia. }
    rewrite Hsz. unfold b1. cbn. buf_unfold. split; [lia|]. right. lia.
Qed.

Lemma ensureWritableBytes_spec len b : Wf b -> 0 <= len ->
  writerIndex_ b + len <= max_vector_size ->
  exists b', ensureWritableBytes len b = Done (tt, b') /\ Wf b' /\ content b' = content b /\
    len <= size b' - writerIndex_ b' /\
    size b' <= Z.max (size b) (writerIndex_ b + len) /\
    Z.min (readerIndex_ b) kCheapPrepend <= readerIndex_ b' /\
    writerIndex_ b' <= writerIndex_ b.
Proof.
  intros W Hlen Hmax. pose proof (writable_wf _ W) as Hw.
  unfold ensureWritableBytes. st_get.
  destruct (Z.ltb_spec (writableBytes b) len) as [Hlt|Hge].
  - destruct (makeSpace_spec len b W ltac:(lia) (or_introl Hmax)) as (b' & E & W' & C & L & D).
    exists b'. cbn [when]. st_step E. split.
    { apply cassert_true. rewrite (writable_wf _ W'). lia. }
    do 3 (split; [assumption|]). pose proof (length_content b W) as H1.
    pose proof (length_content b' W') as H2. rewrite C in H2.
    rewrite (readable_wf _ W) in H1, D. rewrite (readable_wf _ W') in H2.
    destruct W. buf_unfold. lia.
  - exists b. split; [|destruct W; repeat split; auto; lia].
    cbn [when]. apply cassert_true. lia.
Qed.

(** The store that [append] performs once there is room. *)
Lemma store_spec d b : Wf b -> Z.of_nat (length d) <= size b - writerIndex_ b ->
  exists b', (b0 ← get; _ ← copy_in (beginWrite b0) d; hasWritten (Z.of_nat (length d))) b
      = Done (tt, b') /\ Wf b' /\ content b' = content b ++ d /\ size b' = size b /\
    readerIndex_ b' = readerIndex_ b /\ writerIndex_ b' = writerIndex_ b + Z.of_nat (length d).
Proof.
  intros W L. pose proof W as []. st_get. unfold size in *.
  st_step (copy_in_ok (beginWrite b) d b ltac:(buf_unfold; lia) ltac:(buf_unfold; lia)).
  set (b2 := set_data _ b).
  assert (size b2 = size b) as Hs by (unfold b2; buf_unfold; rewrite length_overwrite; lia).
  assert (Wf b2) as W2 by (constructor; rewrite ?Hs; unfold b2; buf_unfold; lia).
  rewrite hasWritten_ok by (rewrite ?Hs; unfold b2; buf_unfold; lia || assumption).
  eexists. split; [reflexivity|].
  split; [constructor; unfold b2 in *; buf_unfold; lia|].
  split; [|unfold b2 in *; buf_unfold; auto].
  unfold content, b2. cbn. unfold beginWrite. rewrite (slice_app_split _ (writerIndex_ b)) by lia.
  f_equal; [apply slice_overwrite_before|apply slice_overwrite_eq]; lia.
Qed.

Lemma ensure_noop len b : Wf b -> len <= size b - writerIndex_ b ->
  ensureWritableBytes len b = Done (tt, b).
Proof.
  intros W L. unfold ensureWritableBytes. st_get.
  rewrite (proj2 (Z.ltb_ge _ _)) by (rewrite (writable_wf b W); lia).
  cbn [when]. apply cassert_true. rewrite (writable_wf b W). lia.
Qed.

Lemma append_inplace d b : Wf b -> Z.of_nat (length d) <= size b - writerIndex_ b ->
  exists b', append d b = Done (tt, b') /\ Wf b' /\ content b' = content b ++ d /\
    size b' = size b /\ readerIndex_ b' = readerIndex_ b /\
    writerIndex_ b' = writerIndex_ b + Z.of_nat (length d).
Proof. intros W L. unfold append. st_step (ensure_noop _ b W L). now apply store_spec. Qed.

Lemma append_step d b : Wf b -> writerIndex_ b + Z.of_nat (length d) <= max_vector_size ->
  exists b', append d b = Done (tt, b') /\ Wf b' /\ content b' = content b ++ d /\
    size b' <= Z.max (size b) (writerIndex_ b + Z.of_nat (length d)) /\
    Z.min (readerIndex_ b) kCheapPrepend <= readerIndex_ b' /\
    writerIndex_ b' <= writerIndex_ b + Z.of_nat (length d).
Proof.
  intros W Hmax. unfold append.
  destruct (ensureWritableBytes_spec _ b W (Nat2Z.is_nonneg (length d)) Hmax)
    as (b1 & E & W1 & C & L & S1 & R1 & Wr). st_step E.
  destruct (store_spec d b1 W1 L) as (b2 & E2 & W2 & C2 & S2 & R2 & Wr2).
  exists b2. rewrite <-C. repeat split; auto; try apply W2; lia.
Qed.

(** [append] of any string keeps the queue, or throws [std::length_error]. *)
Lemma append_total d b : Wf b -> Z.of_nat (length d) <= max_vector_size ->
  (exists b', append d b = Done (tt, b') /\ Wf b' /\ content b' = content b ++ d) \/
  append d b = Fail LengthError.
Proof.
  intros W Hd. pose proof W as []. pose proof (readable_wf _ W) as Hr. pose proof (writable_wf _ W) as Hw.
  destruct (Z.leb_spec (writerIndex_ b + Z.of_nat (length d)) max_vector_size) as [Hmax|Hmax].
  { left. destruct (append_step d b W Hmax) as (b' & ? & ? & ? & _). eauto. }
  assert (Hfull : (writableBytes b <? Z.of_nat (length d)) = true) by (buf_unfold; lia).
  destruct (Z.leb_spec (Z.of_nat (length d) + kCheapPrepend) (size b - readableBytes b)) as [Hfit|Hfit].
  - left. destruct (makeSpace_spec (Z.of_nat (length d)) b W ltac:(lia) (or_intror Hfit))
      as (b1 & E & W1 & C & L & _).
    assert (Ee : ensureWritableBytes (Z.of_nat (length d)) b = Done (tt, b1)).
    { unfold ensureWritableBytes. st_get. rewrite Hfull. cbn [when]. st_step E. st_get.
      apply cassert_true. rewrite (writable_wf _ W1). lia. }
    destruct (store_spec d b1 W1 L) as (b2 & E2 & W2 & C2 & _).
    exists b2. unfold append. st_step Ee. rewrite <-C. auto.
  - right. unfold append. apply bind_fail. unfold ensureWritableBytes. st_get. rewrite Hfull.
    cbn [when]. apply bind_fail. unfold makeSpace. st_get.
    rewrite !wrap64_small by (buf_unfold; zlia).
    rewrite (proj2 (Z.ltb_lt _ _)) by (buf_unfold; lia). unfold resize_vec.
    now rewrite (proj2 (Z.ltb_lt _ _)) by lia.
Qed.

Lemma prepend_step d b : Wf b -> Z.of_nat (length d) <= readerIndex_ b ->
  exists b', prepend d b = Done (tt, b') /\ Wf b' /\ content b' = d ++ content b /\
    readerIndex_ b' = readerIndex_ b - Z.of_nat (length d) /\
    writerIndex_ b' = writerIndex_ b /\ size b' = size b.
Proof.
  intros W Hfit. pose proof W as []. unfold prepend.
  st_get.
  st_step (cassert_true (Z.of_nat (length d) <=? prependableBytes b) b
             ltac:(unfold prependableBytes; lia)).
  st_simpl. rewrite wrap64_small by zlia. unfold size in *.
  rewrite copy_in_ok by (buf_unfold; lia). eexists. split; [reflexivity|].
  split; [constructor; buf_unfold; rewrite ?length_overwrite; lia|].
  unfold content. buf_unfold. rewrite length_overwrite by lia.
  split; [|auto]. rewrite (slice_app_split _ (readerIndex_ b)) by lia. f_equal.
  - replace (readerIndex_ b) with (readerIndex_ b - Z.of_nat (length d) + Z.of_nat (length d)) at 2 by lia.
    apply slice_overwrite_eq; lia.
  - apply slice_overwrite_after; lia.
Qed.

Lemma unwrite_spec len b : Wf b -> 0 <= len -> len <= readableBytes b ->
  exists b', unwrite len b = Done (tt, b') /\ Wf b' /\
    content b' = take (length (content b) - Z.to_nat len) (content b) /\
    readerIndex_ b' = readerIndex_ b /\ writerIndex_ b' <= writerIndex_ b /\ size b' = size b.
Proof.
  intros W ? Hle. pose proof (readable_wf _ W) as Hr. pose proof (length_content b W) as Hl.
  pose proof W as []. unfold unwrite. st_get.
  st_step (cassert_true (len <=? readableBytes b) b ltac:(lia)). st_simpl.
  rewrite wrap64_small by zlia. eexists. split; [reflexivity|].
  split; [constructor; buf_unfold; lia|]. cbn. repeat split; try lia.
  unfold content at 1. cbn.
  replace (length (content b) - Z.to_nat len)%nat with
    (Z.to_nat (writerIndex_ b - len - readerIndex_ b)) by lia.
  unfold content. rewrite take_slice by lia. f_equal. lia.
Qed.
End Lemmas.

(** ** Refinement: the buffer is a byte queue *)

Section Refinement.
Context `{Build}.

(** One command: the precondition of the queue makes the buffer succeed. *)
Lemma exec_refines c b front q' : Wf b ->
  queue_step c (content b) = Some q' ->
  front <= readerIndex_ b ->
  (forall d, c = CPrepend d -> Z.of_nat (length d) <= front) ->
  Z.max (writerIndex_ b) kCheapPrepend + demand c <= max_vector_size ->
  exists b', exec c b = Done (tt, b') /\ Wf b' /\ content b' = q' /\
    (match c with CPrepend d => front - Z.of_nat (length d) | _ => Z.min front kCheapPrepend end)
      <= readerIndex_ b' /\
    Z.max (writerIndex_ b') kCheapPrepend <= Z.max (writerIndex_ b) kCheapPrepend + Z.max 0 (demand c).
Proof.
  intros W Hq Hf Hp Hm. pose proof (length_content b W) as Hl. destruct c; cbn in *;
    repeat case_match; simplify_eq;
    repeat match goal with E : _ && _ = true |- _ => apply andb_prop in E as [] end.
  - destruct (append_step d b W ltac:(lia)) as (b' & E & W' & C & ? & ? & ?).
    exists b'. repeat split; auto; try apply W'; lia.
  - destruct (retrieve_spec n b W ltac:(lia) ltac:(lia)) as (b' & E & W' & C & ? & ? & ?).
    exists b'. repeat split; auto; try apply W'; lia.
  - destruct (retrieveAll_spec b W) as (b' & E & W' & C & R & ?).
    exists b'. injection E as <-. repeat split; auto; try apply W'; cbn in *; lia.
  - destruct (unwrite_spec n b W ltac:(lia) ltac:(lia)) as (b' & E & W' & C & ? & ? & ?).
    exists b'. repeat split; auto; try apply W'; lia.
  - destruct (ensureWritableBytes_spec n b W ltac:(lia) ltac:(lia)) as (b' & E & W' & C & ? & ? & ? & ?).
    exists b'. repeat split; auto; try apply W'; lia.
  - destruct (prepend_step d b W ltac:(specialize (Hp d eq_refl); lia)) as (b' & E & W' & C & ? & ? & ?).
    exists b'. repeat split; auto; try apply W'; lia.
Qed.
End Refinement.

Lemma total_demand_cons c cs : total_demand (c :: cs) = demand c + total_demand cs.
Proof. reflexivity. Qed.

(** C33: the buffer refines a byte queue.  Any sequence of append / retrieve /
    retrieveAll / unwrite / ensureWritableBytes / prepend commands whose
    preconditions hold of the abstract queue runs on a well-formed buffer
    without assertion failure, out-of-bounds access or exception, in a debug
    and in a release build alike, keeps the invariant, and leaves exactly the
    bytes of the abstract queue readable. *)
Theorem buffer_refines_queue `{Build} (cs : list command) (b : Buffer) (front : Z) (q : list byte) :
  Wf b ->
  front <= readerIndex_ b ->
  Forall (fun c => 0 <= demand c) cs ->
  queue_run cs front (content b) = Some q ->
  Z.max (writerIndex_ b) kCheapPrepend + total_demand cs <= max_vector_size ->
  exists b', exec_all cs b = Done (tt, b') /\ Wf b' /\ content b' = q.
Proof.
  intros W Hf HF. revert b front W Hf. induction HF as [|c cs Hd HF IH]; intros b front W Hf Hq Hm.
  { injection Hq as <-. exists b. auto. }
  cbn in Hq. rewrite total_demand_cons in Hm. destruct (queue_step c (content b)) as [q'|] eqn:Hs; [|discriminate].
  assert (0 <= total_demand cs) as Ht.
  { clear -HF. induction HF; [reflexivity|rewrite total_demand_cons; lia]. }
  assert (forall d, c = CPrepend d -> Z.of_nat (length d) <= front) as Hp.
  { intros d ->. cbn in Hq. destruct (Z.leb_spec (Z.of_nat (length d)) front); [lia|discriminate]. }
  destruct (exec_refines c b front q' W Hs Hf Hp ltac:(lia)) as (b' & E & W' & C & R & M).
  cbn [exec_all]. st_step E. eapply IH; [exact W'|exact R| |lia].
  rewrite C. destruct c; auto. cbn in Hq. case_match; [exact Hq|discriminate].
Qed.

(** Splitting an integer into bytes and reading it back. *)
Lemma Z_of_byte_of_Z z : Z_of_byte (byte_of_Z z) = z mod 256.
Proof.
  unfold Z_of_byte, byte_of_Z.
  assert (0 <= z mod 256 < 256) as Hz by (apply Z.mod_pos_bound; lia).
  destruct (Byte.of_N (Z.to_N (z mod 256))) as [b|] eqn:E; cbn.
  - apply Byte.to_of_N in E. rewrite E, Z2N.id; lia.
  - apply Byte.of_N_None_iff in E. zify. lia.
Qed.

Lemma length_le_bytes n x : length (le_bytes n x) = n.
Proof. revert x; induction n; intros; cbn; auto. Qed.

Lemma le_value_le_bytes n x : le_value (le_bytes n x) = x mod 256 ^ Z.of_nat n.
Proof.
  revert x; induction n as [|n IH]; intros x.
  { cbn. now rewrite Z.mod_1_r. }
  cbn [le_bytes le_value]. rewrite IH, Z_of_byte_of_Z, Nat2Z.inj_succ, Z.pow_succ_r by lia.
  rewrite Z.rem_mul_r by lia. reflexivity.
Qed.

Lemma byte_of_Z_of_byte b : byte_of_Z (Z_of_byte b) = b.
Proof. destruct b; reflexivity. Qed.

Lemma le_bytes_le_value l : le_bytes (length l) (le_value l) = l.
Proof.
  induction l as [|b l IH]; [reflexivity|]. cbn [length le_bytes le_value].
  assert (0 <= Z_of_byte b < 256) as Hb by (destruct b; vm_compute; split; congruence).
  assert ((Z_of_byte b + 256 * le_value l) / 256 = le_value l) as ->.
  { rewrite Z.mul_comm, Z.div_add, Z.div_small by lia. lia. }
  rewrite IH. f_equal. rewrite <-(byte_of_Z_of_byte b) at 2. unfold byte_of_Z.
  do 3 f_equal. rewrite Z.mul_comm, Z.mod_add by lia. reflexivity.
Qed.

(** The memory image of [htobe x] is [x] with its bytes in network order. *)
Lemma le_bytes_htobe n x : le_bytes n (htobe n x) = reverse (le_bytes n x).
Proof.
  unfold htobe. rewrite <-(length_le_bytes n x) at 1. rewrite <-length_reverse.
  apply le_bytes_le_value.
Qed.

(** a length header written with prependInt32 arrives: on a well-formed
    buffer with four bytes free in front, the call succeeds, the readable bytes
    are four header bytes followed by the old content, and the header read as a
    big-endian integer is the argument modulo 2^32. *)
Theorem prependInt32_roundtrip `{Build} (b : Buffer) (x : Z) :
  Wf b -> 4 <= readerIndex_ b ->
  exists b' hdr, prependInt32 x b = Done (tt, b') /\ Wf b' /\
    content b' = hdr ++ content b /\ length hdr = 4%nat /\ be_value hdr = x mod 2 ^ 32.
Proof.
  intros W Hr. unfold prependInt32. rewrite le_bytes_htobe.
  destruct (prepend_step (reverse (le_bytes 4 x)) b W) as (b' & E & W' & C & _).
  { rewrite length_reverse, length_le_bytes. lia. }
  exists b', (reverse (le_bytes 4 x)). repeat split; auto; try apply W'.
  unfold be_value. rewrite reverse_involutive. apply (le_value_le_bytes 4).
Qed.

Lemma readFd_run `{Build} (readv : list Z -> readv_result) (b : Buffer) :
  Wf b ->
  size b + extrabuf_size <= max_vector_size ->
  (forall iov l, Forall (Z.le 0) iov -> readv iov = ReadvBytes l ->
    Z.of_nat (length l) <= foldr Z.add 0 iov) ->
  exists n saved b', readFd readv b = Done ((n, saved), b') /\ Wf b' /\
    match readv (if writableBytes b <? extrabuf_size then [writableBytes b; extrabuf_size]
                 else [writableBytes b]) with
    | ReadvError err => n = -1 /\ saved = Some err /\ b' = b
    | ReadvBytes l => n = Z.of_nat (length l) /\ saved = None /\ content b' = content b ++ l
    end.
Proof.
  intros W Hm Hk. pose proof (writable_wf _ W) as Hw. unfold readFd. st_get.
  set (iov := if writableBytes b <? extrabuf_size then _ else _). specialize (Hk iov).
  assert (Forall (Z.le 0) iov) as Hiov0.
  { pose proof (wrap64_range (size b - writerIndex_ b)). unfold iov, writableBytes.
    case_match; repeat constructor; unfold extrabuf_size; lia. }
  destruct (readv iov) as [err|l]; [now exists (-1), (Some err), b|]. specialize (Hk l Hiov0 eq_refl).
  pose proof W as []. set (w := writableBytes b) in *.
  assert (Z.of_nat (length (take (Z.to_nat w) l)) <= w) as Ht by (rewrite length_take; lia).
  st_step (copy_in_ok (writerIndex_ b) (take (Z.to_nat w) l) b ltac:(lia) ltac:(lia)).
  set (b1 := set_data _ b).
  assert (size b1 = size b) as Hs by (unfold b1; buf_unfold; rewrite length_overwrite; lia).
  set (b2 := set_writer (writerIndex_ b + Z.of_nat (length (take (Z.to_nat w) l))) b1).
  assert (Wf b2 /\ content b2 = content b ++ take (Z.to_nat w) l) as [W2 C2].
  { split; [constructor; change (size b2) with (size b1); rewrite ?Hs; unfold b2, b1; cbn; lia|].
    unfold content, b2, b1. cbn. rewrite (slice_app_split _ (writerIndex_ b)) by lia. f_equal.
    - apply slice_overwrite_before; unfold size in *; lia.
    - apply slice_overwrite_eq; unfold size in *; lia. }
  exists (Z.of_nat (length l)), None.
  destruct (Z.leb_spec (Z.of_nat (length l)) w) as [Hle|Hgt].
  - exists b2. split; [|rewrite C2, take_ge by lia; auto]. st_modify.
    change (writerIndex_ b1) with (writerIndex_ b). rewrite wrap64_small by zlia. unfold b2. rewrite take_ge by lia. reflexivity.
  - assert (extrabuf_size > w) as Hx.
    { unfold iov in Hk. destruct (Z.ltb_spec w extrabuf_size); cbn in Hk; lia. }
    assert (iov = [w; extrabuf_size]) as Hiov.
    { unfold iov. rewrite (proj2 (Z.ltb_lt _ _)) by lia. reflexivity. }
    rewrite Hiov in Hk; cbn in Hk.
    assert (set_writer (size b1) b1 = b2) as Eb2.
    { unfold b2. f_equal. rewrite Hs, length_take. lia. }
    destruct (append_step (drop (Z.to_nat w) l) b2 W2) as (b' & E & W' & C & _).
    { unfold b2; cbn. rewrite length_take, length_drop. unfold extrabuf_size in *. lia. }
    exists b'. rewrite C, C2, <-app_assoc, take_drop. split; [|auto].
    unfold mbind at 1, ST_bind at 1. rewrite bind_modify, Eb2, E. reflexivity.
Qed.

(** reading from a descriptor appends what the kernel delivered.  When
    [readv] respects the capacity of the io vectors it is given, [readFd] on a
    well-formed buffer never fails, returns the byte count, and the delivered
    bytes are appended to the content whether they fitted the vector or spilled
    into the 64 KiB stack buffer; on an error the buffer is unchanged and the
    error number is saved. *)
Theorem readFd_correct `{Build} (readv : list Z -> readv_result) (b : Buffer) :
  Wf b ->
  size b + extrabuf_size <= max_vector_size ->
  (forall iov l, Forall (Z.le 0) iov -> readv iov = ReadvBytes l ->
    Z.of_nat (length l) <= foldr Z.add 0 iov) ->
  exists n saved b', readFd readv b = Done ((n, saved), b') /\ Wf b' /\
    match readv (if writableBytes b <? extrabuf_size then [writableBytes b; extrabuf_size]
                 else [writableBytes b]) with
    | ReadvError err => n = -1 /\ saved = Some err /\ b' = b
    | ReadvBytes l => n = Z.of_nat (length l) /\ saved = None /\ content b' = content b ++ l
    end.
Proof. apply readFd_run. Qed.

(** [search] is the first occurrence of the pattern, or the length. *)
Lemma search_spec pat l : pat <> [] ->
  (search pat l <= length l)%nat /\
  (forall j, (j < search pat l)%nat -> take (length pat) (drop j l) <> pat) /\
  ((search pat l < length l)%nat -> take (length pat) (drop (search pat l) l) = pat).
Proof.
  intros Hp. induction l as [|x l IH]; [cbn; repeat split; intros; lia|].
  cbn [search]. destruct (decide _) as [E|E].
  { repeat split; [lia|intros; lia|intros; exact E]. }
  destruct IH as (I1 & I2 & I3). cbn [length]. repeat split; [lia| |].
  - intros [|j] Hj; [exact E|]. apply I2. lia.
  - intros Hlt. apply I3. lia.
Qed.

Lemma occurs_iff (pat l : list byte) j :
  take (length pat) (drop j l) = pat <-> exists l1 l2, l = l1 ++ pat ++ l2 /\
    (length l1 = j \/ pat = [] /\ (length l1 <= j)%nat).
Proof.
  split.
  - intros E. destruct (decide (j <= length l)%nat).
    + exists (take j l), (drop (length pat) (drop j l)). rewrite length_take.
      split; [|left; lia]. rewrite <-(take_drop j l) at 1. f_equal.
      rewrite <-(take_drop (length pat) (drop j l)) at 1. now rewrite E.
    + rewrite drop_ge, take_nil in E by lia. subst. exists l, []. cbn.
      rewrite app_nil_r. split; [reflexivity|right; split; [reflexivity|lia]].
  - intros (l1 & l2 & -> & [<-|[-> _]]); [|now rewrite take_0].
    rewrite drop_app_length. now rewrite take_app_length.
Qed.

(** [findCRLF] finds the first line end.  On a well-formed buffer it never
    fails and does not change the buffer; a non-null result is the offset of the
    first CR LF pair of the readable bytes, and null means there is none. *)
Theorem findCRLF_correct (b : Buffer) :
  Wf b ->
  exists r, findCRLF b = Done (r, b) /\
    match r with
    | Some p => exists l1 l2, content b = l1 ++ kCRLF ++ l2 /\
        p = readerIndex_ b + Z.of_nat (length l1) /\
        forall m1 m2, content b = m1 ++ kCRLF ++ m2 -> (length l1 <= length m1)%nat
    | None => forall l1 l2, content b <> l1 ++ kCRLF ++ l2
    end.
Proof.
  intros W. unfold findCRLF. st_get. unfold beginWrite, peek. st_step (read_content b W).
  destruct (search_spec kCRLF (content b)) as (S1 & S2 & S3); [discriminate|].
  pose proof (length_content b W) as Hl. rewrite (readable_wf b W) in Hl.
  set (k := search kCRLF (content b)) in *.
  assert (forall m1 m2, content b = m1 ++ kCRLF ++ m2 -> (k <= length m1)%nat) as Hmin.
  { intros m1 m2 E. destruct (decide (k <= length m1)%nat); [assumption|]. exfalso.
    apply (S2 (length m1)); [lia|]. apply occurs_iff. eauto. }
  eexists. split; [reflexivity|].
  destruct (Z.eqb_spec (readerIndex_ b + Z.of_nat k) (writerIndex_ b)) as [E|E].
  - intros l1 l2 E2. specialize (Hmin _ _ E2). apply (f_equal length) in E2.
    rewrite !length_app in E2. cbn in E2. lia.
  - destruct (proj1 (occurs_iff kCRLF (content b) k) (S3 ltac:(lia)))
      as (l1 & l2 & E2 & [Hk|[Hx _]]); [|discriminate].
    exists l1, l2. split; [exact E2|]. split; [lia|]. intros m1 m2 E3. rewrite Hk. eauto.
Qed.

Lemma new_spec `{Build} n : 0 <= n -> n + kCheapPrepend <= max_vector_size ->
  exists b, new n = Done b /\ Wf b /\ content b = [] /\ size b = n + kCheapPrepend /\
    readerIndex_ b = kCheapPrepend /\ writerIndex_ b = kCheapPrepend.
Proof.
  intros Hn Hm. unfold new. rewrite wrap64_small by (unfold kCheapPrepend in *; zlia).
  rewrite (proj2 (Z.ltb_ge _ _)) by lia.
  set (b := mkBuffer _ _ _).
  assert (size b = n + kCheapPrepend) as Hs.
  { unfold b; buf_unfold. rewrite length_replicate. lia. }
  assert (Wf b) as W by (constructor; rewrite ?Hs; unfold b, kCheapPrepend in *; cbn; lia).
  st_step (cassert_true (readableBytes b =? 0) b
    ltac:(rewrite (readable_wf b W); unfold b; reflexivity)).
  st_step (cassert_true (writableBytes b =? n) b
    ltac:(rewrite (writable_wf b W), Hs; unfold b; cbn; lia)).
  rewrite cassert_true by reflexivity.
  exists b. repeat split; auto; try apply W; apply slice_nil.
Qed.

(** Making room in an empty buffer whose indices are at their initial place. *)
Lemma ensure_empty `{Build} len o : Wf o -> content o = [] -> readerIndex_ o = kCheapPrepend ->
  kCheapPrepend + len <= max_vector_size ->
  exists o1, ensureWritableBytes len o = Done (tt, o1) /\ Wf o1 /\ content o1 = [] /\
    readerIndex_ o1 = kCheapPrepend /\ writerIndex_ o1 = kCheapPrepend /\
    size o1 = Z.max (size o) (kCheapPrepend + len).
Proof.
  intros W C R Hm. pose proof (length_content o W) as H0. rewrite C, (readable_wf o W) in H0.
  cbn in H0. destruct (decide (len <= size o - writerIndex_ o)) as [L|L].
  { exists o. rewrite ensure_noop by auto. repeat split; auto; try apply W; lia. }
  destruct (makeSpace_spec len o W ltac:(lia) ltac:(lia)) as (o1 & E & W' & C' & L' & D).
  exists o1. rewrite (readable_wf o W) in D. pose proof (length_content o1 W') as H1.
  rewrite C', C, (readable_wf o1 W') in H1. cbn in H1.
  assert (readerIndex_ o1 = kCheapPrepend /\ writerIndex_ o1 = kCheapPrepend /\
    size o1 = Z.max (size o) (kCheapPrepend + len)) as (R1 & Wr1 & S1) by (destruct W; lia).
  split; [|rewrite C'; auto]. unfold ensureWritableBytes. st_get.
  rewrite (proj2 (Z.ltb_lt _ _)) by (rewrite (writable_wf o W); lia). cbn [when]. st_step E.
  apply cassert_true. rewrite (writable_wf o1 W'). lia.
Qed.

Lemma retrieveAsString_spec `{Build} len b : Wf b -> 0 <= len -> len <= readableBytes b ->
  exists b', retrieveAsString len b = Done (take (Z.to_nat len) (content b), b') /\ Wf b' /\
    content b' = drop (Z.to_nat len) (content b) /\ writerIndex_ b' <= Z.max (writerIndex_ b) kCheapPrepend.
Proof.
  intros W ? Hle. unfold retrieveAsString. st_get.
  st_step (cassert_true (len <=? readableBytes b) b ltac:(lia)).
  destruct (retrieve_spec len b W ltac:(lia) Hle) as (b' & E & W' & C & ? & ? & ?).
  rewrite (readable_wf b W) in Hle. pose proof W as [].
  st_step (read_range_ok (peek b) len b ltac:(unfold peek; lia) ltac:(lia) ltac:(unfold peek; lia)).
  st_step E. exists b'. unfold content at 1. rewrite take_slice by lia. auto.
Qed.

(** bytes come out in the order they went in.  Appending [d] to a
    well-formed buffer and then calling retrieveAllAsString returns the bytes
    that were readable before followed by [d], and leaves the buffer empty. *)
Theorem append_retrieveAllAsString `{Build} (b : Buffer) (d : list byte) :
  Wf b -> writerIndex_ b + Z.of_nat (length d) <= max_vector_size ->
  exists b', (_ ← append d; retrieveAllAsString) b = Done (content b ++ d, b') /\
    Wf b' /\ content b' = [].
Proof.
  intros W Hm. destruct (append_step d b W Hm) as (b1 & E1 & W1 & C1 & _).
  st_step E1. unfold retrieveAllAsString. st_get.
  pose proof (length_content b1 W1) as Hl.
  destruct (retrieveAsString_spec (readableBytes b1) b1 W1 ltac:(lia) ltac:(lia))
    as (b' & E & W' & C & _).
  exists b'. rewrite E, C, take_ge, drop_ge, C1 by lia. auto.
Qed.

(** [shrink] keeps the content and gives the vector the size the content
    and the reserve ask for, at least that of a fresh buffer; it does not fail. *)
Theorem shrink_correct `{Build} (b : Buffer) (reserve : Z) :
  Wf b -> 0 <= reserve ->
  kCheapPrepend + kInitialSize + readableBytes b + reserve <= max_vector_size ->
  exists b', shrink reserve b = Done (tt, b') /\ Wf b' /\ content b' = content b /\
    readerIndex_ b' = kCheapPrepend /\
    size b' = kCheapPrepend + Z.max kInitialSize (readableBytes b + reserve).
Proof.
  intros W Hr Hm. pose proof (length_content b W) as Hl. pose proof (readable_wf b W) as Hrd.
  pose proof W as []. unfold shrink. st_get. unfold peek.
  assert (read_range (readerIndex_ b) (readableBytes b) b = Done (content b, b)) as Er
    by (rewrite Hrd; apply read_content, W).
  st_step Er.
  destruct (new_spec kInitialSize ltac:(easy) ltac:(easy)) as (o & En & Wo & Co & So & Ro & Wwo).
  rewrite En, wrap64_small by (unfold kCheapPrepend, kInitialSize in *; zlia).
  remember (readableBytes b + reserve) as len eqn:Hlen.
  destruct (ensure_empty len o Wo Co ltac:(lia) ltac:(unfold kCheapPrepend, kInitialSize in *; lia))
    as (o1 & E1 & W1 & C1 & R1 & Wr1 & S1).
  destruct (append_inplace (content b) o1 W1) as (o2 & E2 & W2 & C2 & S2 & R2 & Wr2); [lia|].
  exists o2. rewrite (bind_done _ _ _ _ _ E1), E2. rewrite C1 in C2.
  split; [destruct o2; reflexivity|]. repeat split; auto; try apply W2; lia.
Qed.

(** ** Witnesses *)

(** A 40-byte vector holding "ab" after two bytes were consumed. *)
Definition sample : Buffer := mkBuffer (replicate 10 x00 ++ [x61; x62] ++ replicate 28 x00) 10 12.

Lemma sample_wf : Wf sample.
Proof. constructor; vm_compute; congruence. Defined.

Lemma buffer_refines_queue_witness :
  exists b', @exec_all debug_build
    [CAppend [x63]; CRetrieve 1; CPrepend [x00]; CEnsure 2000; CUnwrite 1; CRetrieveAll; CAppend [x7a]]
    sample = Done (tt, b') /\ Wf b' /\ content b' = [x7a].
Proof.
  apply (@buffer_refines_queue debug_build _ sample 10);
    [exact sample_wf|vm_compute; congruence
    |repeat constructor; vm_compute; congruence|reflexivity|vm_compute; congruence].
Defined.

Lemma prependInt32_roundtrip_witness :
  exists b' hdr, @prependInt32 debug_build (-2) sample = Done (tt, b') /\ Wf b' /\
    content b' = hdr ++ content sample /\ length hdr = 4%nat /\ be_value hdr = -2 mod 2 ^ 32.
Proof.
  apply (@prependInt32_roundtrip debug_build sample); [exact sample_wf|vm_compute; congruence].
Defined.

(** A kernel with three bytes to deliver. *)
Definition three_bytes (iov : list Z) : readv_result :=
  ReadvBytes (take (Z.to_nat (foldr Z.add 0 iov)) [x0d; x0a; x00]).

Lemma readFd_correct_witness :
  exists n saved b', @readFd debug_build three_bytes sample = Done ((n, saved), b') /\ Wf b' /\
    n = 3 /\ saved = None /\ content b' = content sample ++ [x0d; x0a; x00].
Proof.
  apply (@readFd_correct debug_build three_bytes sample);
    [exact sample_wf|vm_compute; congruence|].
  intros iov l Hiov [= <-]. rewrite length_take.
  assert (0 <= foldr Z.add 0 iov) by (induction Hiov; cbn; lia). lia.
Defined.

Lemma findCRLF_correct_witness :
  exists r, @findCRLF sample = Done (r, sample) /\
    match r with
    | Some p => exists l1 l2, content sample = l1 ++ kCRLF ++ l2 /\
        p = readerIndex_ sample + Z.of_nat (length l1) /\
        forall m1 m2, content sample = m1 ++ kCRLF ++ m2 -> (length l1 <= length m1)%nat
    | None => forall l1 l2, content sample <> l1 ++ kCRLF ++ l2
    end.
Proof. apply findCRLF_correct. exact sample_wf. Defined.

Lemma append_retrieveAllAsString_witness :
  exists b', (_ ← @append debug_build [x63]; @retrieveAllAsString debug_build) sample
      = Done ([x61; x62; x63], b') /\ Wf b' /\ content b' = [].
Proof.
  apply (@append_retrieveAllAsString debug_build sample [x63]);
    [exact sample_wf|vm_compute; congruence].
Defined.

Lemma shrink_correct_witness :
  exists b', @shrink debug_build 100 sample = Done (tt, b') /\ Wf b' /\ content b' = [x61; x62] /\
    readerIndex_ b' = kCheapPrepend /\ size b' = kCheapPrepend + Z.max kInitialSize (2 + 100).
Proof.
  apply (@shrink_correct debug_build sample 100);
    [exact sample_wf|vm_compute; congruence|vm_compute; congruence].
Defined.
