(* ===== verification/Timestamp.v ===== *)
(** Timestamp: [base/Timestamp.h] and [base/Timestamp.cpp].

    A time is the [int64_t] number of microseconds.  Delays are C++ [double]s;
    they are kept as IEEE-754 binary64 values of the Standard Library's
    executable [SpecFloat], so that [seconds * kMicroSecondsPerSecond] and the
    cast to [int64_t] round as the hardware does. *)

From Stdlib Require Import ZArith Lia.
From Stdlib Require Import Floats.SpecFloat.
From stdpp Require Import pretty.
From S2P Require Import Prelude.

Local Open Scope Z_scope.

(** ** C++ [double] *)

Definition double := spec_float.
Definition fmul : double -> double -> double := SFmul 53 1024.
Definition fdiv : double -> double -> double := SFdiv 53 1024.
(** Conversion of an integer to [double], rounding to nearest. *)
Definition double_of_Z (z : Z) : double := binary_normalize 53 1024 z 0 false.
(** [a > b]; false when an argument is not a number. *)
Definition fgt (a b : double) : bool := SFltb b a.

Definition int64_min : Z := -9223372036854775808.
Definition int64_max : Z := 9223372036854775807.
Definition in_int64 (z : Z) : bool := (int64_min <=? z) && (z <=? int64_max).

(** [static_cast<int64_t>(d)]: truncation; [None] where it is undefined. *)
Definition int64_of_double (d : double) : option Z :=
  match d with
  | S754_zero _ => Some 0
  | S754_finite sgn m e =>
      let a := if 0 <=? e then Z.pos m * 2 ^ e else Z.pos m / 2 ^ (- e) in
      let v := if sgn then - a else a in
      if in_int64 v then Some v else None
  | S754_infinity _ | S754_nan => None
  end.

(** ** The class *)

Definition kMicroSecondsPerSecond : Z := 1000000.

Definition before (a b : Z) : bool := a <? b.
Definition same_time (a b : Z) : bool := a =? b.
Definition invaild : Z := 0.
Definition valid (t : Z) : bool := 0 <? t.

(** [operator+(double seconds)]; signed overflow is undefined. *)
Definition plus_seconds (t : Z) (seconds : double) : option Z :=
  match int64_of_double (fmul seconds (double_of_Z kMicroSecondsPerSecond)) with
  | Some d => if in_int64 (t + d) then Some (t + d) else None
  | None => None
  end.

Definition addTime (t : Z) (seconds : double) : option Z := plus_seconds t seconds.

(** [operator-(Timestamp)]: the difference in seconds. *)
Definition minus_time (a b : Z) : double :=
  fdiv (double_of_Z (a - b)) (double_of_Z kMicroSecondsPerSecond).

(** [printf]'s [%0<width>lld]: zeros after the sign. *)
Definition zero_padded (width : nat) (z : Z) : string :=
  let body := pretty (Z.abs_N z) in
  let sign := if z <? 0 then "-"%string else ""%string in
  let missing := (width - String.length body - String.length sign)%nat in
  (sign ++ String.concat "" (replicate missing "0"%string) ++ body)%string.

(** [toString]: C division truncates, the remainder has the dividend's sign. *)
Definition toString (t : Z) : string :=
  let seconds := Z.quot t kMicroSecondsPerSecond in
  let microseconds := Z.rem t kMicroSecondsPerSecond in
  (pretty seconds ++ "." ++ zero_padded 6 microseconds)%string.

(** [struct tm]; [localtime_r] is the C library's and an argument. *)
Record tm := mkTm { tm_year : Z; tm_mon : Z; tm_mday : Z; tm_hour : Z; tm_min : Z; tm_sec : Z }.

Definition toFormattedString (localtime : Z -> tm) (t : Z) (showMicroseconds : bool) : string :=
  let seconds := Z.quot t kMicroSecondsPerSecond in
  let tm_time := localtime seconds in
  let date :=
    (zero_padded 4 (tm_year tm_time + 1900) ++ zero_padded 2 (tm_mon tm_time + 1) ++
     zero_padded 2 (tm_mday tm_time) ++ " " ++ zero_padded 2 (tm_hour tm_time) ++ ":" ++
     zero_padded 2 (tm_min tm_time) ++ ":" ++ zero_padded 2 (tm_sec tm_time))%string in
  if showMicroseconds
  then (date ++ "." ++ zero_padded 6 (Z.rem t kMicroSecondsPerSecond))%string
  else date.

(** ** Facts *)

Example tenth_of_a_second : addTime 0 (fdiv (double_of_Z 1) (double_of_Z 10)) = Some 100000.
Proof. vm_compute. reflexivity. Qed.

Example toString_example : toString 1700000000000042 = "1700000000.000042"%string.
Proof. vm_compute. reflexivity. Qed.

Lemma int64_of_double_range d z : int64_of_double d = Some z -> int64_min <= z <= int64_max.
Proof.
  unfold int64_of_double, in_int64. intros H. repeat case_match; simplify_eq;
    unfold int64_min, int64_max in *; lia.
Qed.

Lemma addTime_range t d t' : addTime t d = Some t' -> int64_min <= t' <= int64_max.
Proof.
  unfold addTime, plus_seconds, in_int64. intros H. repeat case_match; simplify_eq. lia.
Qed.

Lemma kMicro_double : double_of_Z kMicroSecondsPerSecond = S754_finite false 8589934592000000 (-33).
Proof. vm_compute. reflexivity. Qed.
