(* ===== verification/Poller.v ===== *)
(** Channel and poller: [net/Channel.h], [net/Channel.cpp], [net/Poller.h],
    [net/Poller.cpp], [net/EpollPoller.h], [net/EpollPoller.cpp] and the channel
    management of [net/Eventloop.cpp].

    Channels are objects of a heap, named by their address, because the poller
    keeps pointers to them both in [channels_] and, as [epoll_event.data.ptr],
    in the kernel.  The kernel's interest list is an interface ([EpollKernel]
    with [EpollLaws]); [Inv] says that the two pointer tables and the indices
    stored in the channels agree. *)

From Stdlib Require Import ZArith Lia.
From S2P Require Import Prelude.

Local Open Scope Z_scope.

(** Addresses and object names. *)
Definition ptr := Z.

Definition EPOLLIN : Z := 1.
Definition EPOLLPRI : Z := 2.
Definition EPOLLOUT : Z := 4.
Definition EPOLLERR : Z := 8.
Definition EPOLLHUP : Z := 16.
Definition EPOLLRDHUP : Z := 8192.
Definition EPOLLET : Z := 2147483648.

Definition kNoneEvent : Z := 0.
Definition kReadEvent : Z := Z.lor EPOLLIN EPOLLPRI.
Definition kWriteEvent : Z := EPOLLOUT.
Definition kInitEventListSize : Z := 16.

(** [x & mask] used as a condition. *)
Definition flag (x mask : Z) : bool := negb (Z.land x mask =? 0).

(** The kinds of callback a channel holds; a [std::function] member is [Some]
    of the closure stored in it, or [None] when it is empty. *)
Record Channel (CB : Type) := mkChannel {
  loop_ : ptr;
  fd_ : Z;
  events_ : Z;
  revents_ : Z;
  index_ : Z;
  et_ : bool;
  logHup_ : bool;
  tied_ : bool;
  eventHandling_ : bool;
  addedToLoop_ : bool;
  tie_ : option ptr;
  readCallback_ : option CB;
  writeCallback_ : option CB;
  closeCallback_ : option CB;
  errorCallback_ : option CB;
}.
Arguments mkChannel {CB}.
Arguments loop_ {CB}. Arguments fd_ {CB}. Arguments events_ {CB}. Arguments revents_ {CB}.
Arguments index_ {CB}. Arguments et_ {CB}. Arguments logHup_ {CB}. Arguments tied_ {CB}.
Arguments eventHandling_ {CB}. Arguments addedToLoop_ {CB}. Arguments tie_ {CB}.
Arguments readCallback_ {CB}. Arguments writeCallback_ {CB}. Arguments closeCallback_ {CB}.
Arguments errorCallback_ {CB}.

Section Setters.
Context {CB : Type}.
Implicit Types c : Channel CB.

(** [Channel::Channel(loop, fd)]. *)
Definition newChannel (loop : ptr) (fd : Z) : Channel CB :=
  mkChannel loop fd 0 0 (-1) true true false false false None None None None None.

Definition set_events (e : Z) c : Channel CB :=
  mkChannel (loop_ c) (fd_ c) e (revents_ c) (index_ c) (et_ c) (logHup_ c) (tied_ c)
    (eventHandling_ c) (addedToLoop_ c) (tie_ c) (readCallback_ c) (writeCallback_ c)
    (closeCallback_ c) (errorCallback_ c).
Definition setRevents (r : Z) c : Channel CB :=
  mkChannel (loop_ c) (fd_ c) (events_ c) r (index_ c) (et_ c) (logHup_ c) (tied_ c)
    (eventHandling_ c) (addedToLoop_ c) (tie_ c) (readCallback_ c) (writeCallback_ c)
    (closeCallback_ c) (errorCallback_ c).
Definition setIndex (i : Z) c : Channel CB :=
  mkChannel (loop_ c) (fd_ c) (events_ c) (revents_ c) i (et_ c) (logHup_ c) (tied_ c)
    (eventHandling_ c) (addedToLoop_ c) (tie_ c) (readCallback_ c) (writeCallback_ c)
    (closeCallback_ c) (errorCallback_ c).
Definition set_et (b : bool) c : Channel CB :=
  mkChannel (loop_ c) (fd_ c) (events_ c) (revents_ c) (index_ c) b (logHup_ c) (tied_ c)
    (eventHandling_ c) (addedToLoop_ c) (tie_ c) (readCallback_ c) (writeCallback_ c)
    (closeCallback_ c) (errorCallback_ c).
(** [tie(obj)] stores a weak pointer to the owner. *)
Definition tie (obj : ptr) c : Channel CB :=
  mkChannel (loop_ c) (fd_ c) (events_ c) (revents_ c) (index_ c) (et_ c) (logHup_ c) true
    (eventHandling_ c) (addedToLoop_ c) (Some obj) (readCallback_ c) (writeCallback_ c)
    (closeCallback_ c) (errorCallback_ c).
Definition set_eventHandling (b : bool) c : Channel CB :=
  mkChannel (loop_ c) (fd_ c) (events_ c) (revents_ c) (index_ c) (et_ c) (logHup_ c) (tied_ c)
    b (addedToLoop_ c) (tie_ c) (readCallback_ c) (writeCallback_ c)
    (closeCallback_ c) (errorCallback_ c).
Definition set_addedToLoop (b : bool) c : Channel CB :=
  mkChannel (loop_ c) (fd_ c) (events_ c) (revents_ c) (index_ c) (et_ c) (logHup_ c) (tied_ c)
    (eventHandling_ c) b (tie_ c) (readCallback_ c) (writeCallback_ c)
    (closeCallback_ c) (errorCallback_ c).
Definition set_callbacks (r w cl e : option CB) c : Channel CB :=
  mkChannel (loop_ c) (fd_ c) (events_ c) (revents_ c) (index_ c) (et_ c) (logHup_ c) (tied_ c)
    (eventHandling_ c) (addedToLoop_ c) (tie_ c) r w cl e.

Definition isNoneEvent c : bool := events_ c =? kNoneEvent.
Definition isReading c : bool := flag (events_ c) kReadEvent.
Definition isWriting c : bool := flag (events_ c) kWriteEvent.
End Setters.

(** ** The kernel side *)

Inductive ctl_op := EPOLL_CTL_ADD | EPOLL_CTL_DEL | EPOLL_CTL_MOD.

#[export] Instance ctl_op_eq_dec : EqDecision ctl_op.
Proof. solve_decision. Defined.

Record epoll_event := mkEvent { ev_events : Z; ev_ptr : ptr }.

(** The documented effect of a successful [epoll_ctl] on the interest list. *)
Definition ctl_effect (op : ctl_op) (fd : Z) (ev : epoll_event)
    (m : gmap Z epoll_event) : gmap Z epoll_event :=
  match op with EPOLL_CTL_DEL => delete fd m | _ => <[fd := ev]> m end.

(** The registration state an operation needs: EEXIST and ENOENT otherwise. *)
Definition ctl_pre (op : ctl_op) (fd : Z) (m : gmap Z epoll_event) : Prop :=
  match op with EPOLL_CTL_ADD => m !! fd = None | _ => is_Some (m !! fd) end.

Class EpollKernel (K : Type) := {
  interest : K -> gmap Z epoll_event;
  epoll_ctl : K -> ctl_op -> Z -> epoll_event -> K * bool;
}.

Class EpollLaws (K : Type) `{EpollKernel K} := {
  (* open descriptors that the kernel accepts in its interest list *)
  watchable : K -> Z -> Prop;
  ctl_success k op fd ev k' : epoll_ctl k op fd ev = (k', true) ->
    ctl_pre op fd (interest k) /\ interest k' = ctl_effect op fd ev (interest k) /\
    (forall f, watchable k f -> watchable k' f);
  ctl_failure k op fd ev k' : epoll_ctl k op fd ev = (k', false) ->
    interest k' = interest k /\ (ctl_pre op fd (interest k) -> op = EPOLL_CTL_ADD /\ ~ watchable k fd);
}.

(** ** The event loop's view: channels, poller, dispatch state *)

Record loop_state (K CB : Type) := mkLoop {
  self : ptr;
  threadId_ : Z;
  heap : gmap ptr (Channel CB);
  channels_ : gmap Z ptr;
  epoll : K;
  events_size : Z;
  eventHandling : bool;
  currentActiveChannel_ : option ptr;
  activeChannels_ : list ptr;
  (* objects some shared_ptr still owns: what weak_ptr::lock can return *)
  alive : gset ptr;
}.
Arguments mkLoop {K CB}.
Arguments self {K CB}. Arguments threadId_ {K CB}. Arguments heap {K CB}.
Arguments channels_ {K CB}. Arguments epoll {K CB}. Arguments events_size {K CB}.
Arguments eventHandling {K CB}. Arguments currentActiveChannel_ {K CB}.
Arguments activeChannels_ {K CB}. Arguments alive {K CB}.

Section Poller.
Context {K CB : Type} `{EpollKernel K} `{Build}.
(* the thread that executes the call *)
Context (tid : Z).
Abbreviation loop := (loop_state K CB).
Implicit Types (s : loop) (p : ptr).

Definition set_heap (h : gmap ptr (Channel CB)) s : loop :=
  mkLoop (self s) (threadId_ s) h (channels_ s) (epoll s) (events_size s) (eventHandling s)
    (currentActiveChannel_ s) (activeChannels_ s) (alive s).
Definition set_channels (m : gmap Z ptr) s : loop :=
  mkLoop (self s) (threadId_ s) (heap s) m (epoll s) (events_size s) (eventHandling s)
    (currentActiveChannel_ s) (activeChannels_ s) (alive s).
Definition set_epoll (k : K) s : loop :=
  mkLoop (self s) (threadId_ s) (heap s) (channels_ s) k (events_size s) (eventHandling s)
    (currentActiveChannel_ s) (activeChannels_ s) (alive s).
Definition set_events_size (n : Z) s : loop :=
  mkLoop (self s) (threadId_ s) (heap s) (channels_ s) (epoll s) n (eventHandling s)
    (currentActiveChannel_ s) (activeChannels_ s) (alive s).
Definition set_dispatch (h : bool) (cur : option ptr) s : loop :=
  mkLoop (self s) (threadId_ s) (heap s) (channels_ s) (epoll s) (events_size s) h
    cur (activeChannels_ s) (alive s).
Definition set_active (l : list ptr) s : loop :=
  mkLoop (self s) (threadId_ s) (heap s) (channels_ s) (epoll s) (events_size s)
    (eventHandling s) (currentActiveChannel_ s) l (alive s).
Definition set_alive (a : gset ptr) s : loop :=
  mkLoop (self s) (threadId_ s) (heap s) (channels_ s) (epoll s) (events_size s)
    (eventHandling s) (currentActiveChannel_ s) (activeChannels_ s) a.

(** Access to the channel object at [p]. *)
Definition chan p : ST loop (Channel CB) := s ← get; deref (heap s !! p).
Definition upd p (f : Channel CB -> Channel CB) : ST loop unit :=
  c ← chan p; modify (fun s => set_heap (<[p := f c]> (heap s)) s).

Definition isInLoopThread s : bool := threadId_ s =? tid.
(** [abortNotInLoopThread] logs at FATAL, which aborts. *)
Definition assertInLoopThread : ST loop unit :=
  s ← get; if isInLoopThread s then mret tt else fail Aborted.

(** The event set given to the kernel. *)
Definition kernel_events (c : Channel CB) : Z :=
  if et_ c then Z.lor (events_ c) EPOLLET else events_ c.

(** [EPollPoller::update]. *)
Definition update (op : ctl_op) p : ST loop unit :=
  c ← chan p;
  s ← get;
  let '(k', ok) := epoll_ctl (epoll s) op (fd_ c) (mkEvent (kernel_events c) p) in
  _ ← modify (set_epoll k');
  _ ← (if ok then mret tt
       else match op with EPOLL_CTL_DEL => mret tt | _ => fail Aborted end);
  upd p (setIndex (match op with
                   | EPOLL_CTL_ADD => 1
                   | EPOLL_CTL_DEL => -1
                   | EPOLL_CTL_MOD => 2
                   end)).

(** [EPollPoller::updateChannel]. *)
Definition poller_updateChannel p : ST loop unit :=
  _ ← assertInLoopThread;
  c ← chan p;
  s ← get;
  if index_ c <? 0 then
    _ ← cassert (bool_decide (channels_ s !! fd_ c = None));
    _ ← modify (set_channels (<[fd_ c := p]> (channels_ s)));
    update EPOLL_CTL_ADD p
  else
    _ ← cassert (bool_decide (is_Some (channels_ s !! fd_ c)));
    _ ← cassert (bool_decide (channels_ s !! fd_ c = Some p));
    if isNoneEvent c
    then _ ← update EPOLL_CTL_DEL p; upd p (setIndex (-1))
    else update EPOLL_CTL_MOD p.

(** [EPollPoller::removeChannel]. *)
Definition poller_removeChannel p : ST loop unit :=
  _ ← assertInLoopThread;
  c ← chan p;
  s ← get;
  _ ← cassert (bool_decide (is_Some (channels_ s !! fd_ c)));
  _ ← cassert (bool_decide (channels_ s !! fd_ c = Some p));
  _ ← cassert (isNoneEvent c);
  let index := index_ c in
  _ ← cassert ((index =? 1) || (index =? 2));
  let n := if channels_ s !! fd_ c is Some _ then 1 else 0 in
  _ ← modify (set_channels (delete (fd_ c) (channels_ s)));
  _ ← cassert (n =? 1);
  _ ← when (index =? 2) (update EPOLL_CTL_DEL p);
  upd p (setIndex (-1)).

(** [Poller::hasChannel]. *)
Definition poller_hasChannel p : ST loop bool :=
  _ ← assertInLoopThread;
  c ← chan p; s ← get;
  mret (bool_decide (channels_ s !! fd_ c = Some p)).

(** [EventLoop::updateChannel], [removeChannel], [hasChannel]. *)
Definition updateChannel p : ST loop unit :=
  c ← chan p; s ← get;
  _ ← cassert (loop_ c =? self s);
  _ ← assertInLoopThread;
  poller_updateChannel p.

Definition removeChannel p : ST loop unit :=
  c ← chan p; s ← get;
  _ ← cassert (loop_ c =? self s);
  _ ← assertInLoopThread;
  _ ← when (eventHandling s)
        (cassert (bool_decide (currentActiveChannel_ s = Some p) ||
                  bool_decide (p ∉ activeChannels_ s)));
  poller_removeChannel p.

Definition hasChannel p : ST loop bool :=
  c ← chan p; s ← get;
  _ ← cassert (loop_ c =? self s);
  _ ← assertInLoopThread;
  poller_hasChannel p.

(** [Channel::update], [Channel::remove] and the event switches. *)
Definition channel_update p : ST loop unit :=
  _ ← upd p (set_addedToLoop true); updateChannel p.

Definition enableReading p : ST loop unit :=
  _ ← upd p (fun c => set_events (Z.lor (events_ c) kReadEvent) c); channel_update p.
Definition disableReading p : ST loop unit :=
  _ ← upd p (fun c => set_events (Z.land (events_ c) (Z.lnot kReadEvent)) c); channel_update p.
Definition enableWriting p : ST loop unit :=
  _ ← upd p (fun c => set_events (Z.lor (events_ c) kWriteEvent) c); channel_update p.
Definition disableWriting p : ST loop unit :=
  _ ← upd p (fun c => set_events (Z.land (events_ c) (Z.lnot kWriteEvent)) c); channel_update p.
Definition disableAll p : ST loop unit :=
  _ ← upd p (set_events kNoneEvent); channel_update p.

Definition remove p : ST loop unit :=
  c ← chan p;
  _ ← cassert (isNoneEvent c);
  _ ← upd p (set_addedToLoop false);
  removeChannel p.

(** [Channel::~Channel]: the object leaves the heap. *)
Definition destroyChannel p : ST loop unit :=
  c ← chan p;
  _ ← cassert (negb (eventHandling_ c));
  _ ← cassert (negb (addedToLoop_ c));
  modify (fun s => set_heap (delete p (heap s)) s).

(** *** Polling *)

(** What [epoll_wait] returned: an error number or the ready events, each with
    the pointer registered for it. *)
Inductive wait_result :=
  | WaitError (err : Z)
  | WaitEvents (l : list (ptr * Z)).

(** One round of [fillActiveChannels]: the debug checks, then record and list. *)
Definition fillActive (e : ptr * Z) : ST loop unit :=
  c ← chan (fst e);
  s ← get;
  _ ← cassert (bool_decide (is_Some (channels_ s !! fd_ c)));
  _ ← cassert (bool_decide (channels_ s !! fd_ c = Some (fst e)));
  _ ← upd (fst e) (setRevents (snd e));
  modify (fun s => set_active (activeChannels_ s ++ [fst e]) s).

Definition fillActiveChannels (l : list (ptr * Z)) : ST loop unit :=
  s ← get;
  _ ← cassert (Z.of_nat (length l) <=? events_size s);
  for_each l fillActive.

(** [EPollPoller::poll]; [wait] is [epoll_wait] on the current kernel state and
    event array size.  The wall-clock time it returns is read by the caller. *)
Definition poll (wait : K -> Z -> wait_result) : ST loop unit :=
  s ← get;
  match wait (epoll s) (events_size s) with
  | WaitError _ => mret tt
  | WaitEvents [] => mret tt
  | WaitEvents l =>
      _ ← fillActiveChannels l;
      s' ← get;
      when (Z.of_nat (length l) =? events_size s')
        (modify (set_events_size (events_size s' * 2)))
  end.

(** *** Dispatch *)

Context (invoke : CB -> ST loop unit).

Definition call (cb : option CB) : ST loop unit :=
  match cb with Some f => invoke f | None => mret tt end.

(** [Channel::handleEventWithGuard]; the mask is read again before each test. *)
Definition handleEventWithGuard p : ST loop unit :=
  _ ← upd p (set_eventHandling true);
  c ← chan p;
  _ ← when (flag (revents_ c) EPOLLHUP && negb (flag (revents_ c) EPOLLIN))
        (call (closeCallback_ c));
  c ← chan p;
  _ ← when (flag (revents_ c) EPOLLERR) (call (errorCallback_ c));
  c ← chan p;
  _ ← when (flag (revents_ c) (Z.lor (Z.lor EPOLLIN EPOLLPRI) EPOLLRDHUP))
        (call (readCallback_ c));
  c ← chan p;
  _ ← when (flag (revents_ c) EPOLLOUT) (call (writeCallback_ c));
  upd p (set_eventHandling false).

(** [Channel::handleEvent]: a tied channel is served only while its owner is
    alive. *)
Definition handleEvent p : ST loop unit :=
  c ← chan p;
  if tied_ c then
    s ← get;
    when (match tie_ c with Some o => bool_decide (o ∈ alive s) | None => false end)
      (handleEventWithGuard p)
  else handleEventWithGuard p.

(** The [for] over [activeChannels_] in [EventLoop::loop], between the two
    assignments of [eventHandling_]. *)
Definition handleActive : ST loop unit :=
  _ ← modify (fun s => set_dispatch true (currentActiveChannel_ s) s);
  s ← get;
  _ ← for_each (activeChannels_ s) (fun p =>
        _ ← modify (fun s => set_dispatch (eventHandling s) (Some p) s);
        handleEvent p);
  modify (set_dispatch false None).
End Poller.

(** ** The invariant *)

(** The channels' indices, [channels_] and the kernel's interest list agree.
    [but] names the one channel, if any, whose requested events have just been
    changed and not been passed to the kernel yet. *)
Record Inv_but {K CB} `{EpollKernel K} (but : option ptr) (s : loop_state K CB) : Prop := {
  inv_fd p q c d : heap s !! p = Some c -> heap s !! q = Some d -> fd_ c = fd_ d -> p = q;
  inv_index p c : heap s !! p = Some c ->
    index_ c = -1 \/
    (index_ c = 1 \/ index_ c = 2) /\ channels_ s !! fd_ c = Some p /\
    exists ev, interest (epoll s) !! fd_ c = Some ev /\ ev_ptr ev = p /\
      (but <> Some p -> ev_events ev = kernel_events c);
  inv_map fd p : channels_ s !! fd = Some p -> exists c, heap s !! p = Some c /\ fd_ c = fd;
  inv_interest fd ev : interest (epoll s) !! fd = Some ev ->
    exists c, heap s !! ev_ptr ev = Some c /\ fd_ c = fd /\ index_ c <> -1;
}.

Definition Inv {K CB} `{EpollKernel K} (s : loop_state K CB) : Prop := Inv_but None s.

(** A registration of the kernel that points to a channel which the poller does
    not know: the pointer that [epoll_wait] would hand back dangles once the
    channel is destroyed. *)
Definition dangling {K CB} `{EpollKernel K} (fd : Z) (p : ptr) (s : loop_state K CB) : Prop :=
  (exists e, interest (epoll s) !! fd = Some (mkEvent e p)) /\ channels_ s !! fd = None.

Section Lemmas.
Context {K CB : Type} `{HK : EpollKernel K} `{HL : !EpollLaws K}.
Context (tid : Z).
Implicit Types (s : loop_state K CB) (p : ptr) (c : Channel CB).

Lemma chan_ok p s c : heap s !! p = Some c -> chan p s = Done (c, s).
Proof. intros E. unfold chan. st_get. now rewrite E. Qed.

Lemma upd_ok p f s c : heap s !! p = Some c ->
  upd p f s = Done (tt, set_heap (<[p := f c]> (heap s)) s).
Proof. intros E. unfold upd. st_step (chan_ok p s c E). reflexivity. Qed.

Lemma assertInLoopThread_ok s : threadId_ s = tid -> assertInLoopThread tid s = Done (tt, s).
Proof. intros E. unfold assertInLoopThread, isInLoopThread. st_get. now rewrite E, Z.eqb_refl. Qed.

(** [update] with an operation the registration state allows. *)
Lemma update_ok op p s c : heap s !! p = Some c ->
  ctl_pre op (fd_ c) (interest (epoll s)) ->
  (op = EPOLL_CTL_ADD -> watchable (epoll s) (fd_ c)) ->
  exists k', update op p s = Done (tt, set_heap (<[p := setIndex (match op with
                   | EPOLL_CTL_ADD => 1 | EPOLL_CTL_DEL => -1 | EPOLL_CTL_MOD => 2 end) c]> (heap s))
                     (set_epoll k' s)) /\
    interest k' = ctl_effect op (fd_ c) (mkEvent (kernel_events c) p) (interest (epoll s)) /\
    (forall f, watchable (epoll s) f -> watchable k' f).
Proof.
  intros E Hpre Hw. unfold update. st_step (chan_ok p s c E). st_get.
  destruct (epoll_ctl _ _ _ _) as [k' []] eqn:Ek.
  - destruct (ctl_success _ _ _ _ _ Ek) as (_ & Hi & Hm).
    exists k'. split; [|auto]. st_modify. rewrite bind_ret_l. exact (upd_ok p _ (set_epoll k' s) c E).
  - destruct (ctl_failure _ _ _ _ _ Ek) as [_ Hf]. destruct (Hf Hpre) as [-> Hn].
    destruct (Hn (Hw eq_refl)).
Qed.

(** Replacing a channel by one with the same descriptor keeps descriptors
    unique and every pointer to a channel of that descriptor valid. *)
Lemma unique_fd_insert (h : gmap ptr (Channel CB)) p c c' :
  (forall p q c d, h !! p = Some c -> h !! q = Some d -> fd_ c = fd_ d -> p = q) ->
  h !! p = Some c -> fd_ c' = fd_ c ->
  forall p1 p2 c1 c2, <[p := c']> h !! p1 = Some c1 -> <[p := c']> h !! p2 = Some c2 ->
    fd_ c1 = fd_ c2 -> p1 = p2.
Proof.
  intros U E Hfd p1 p2 c1 c2 [[<- <-]|[? E1]]%lookup_insert_Some
    [[<- <-]|[? E2]]%lookup_insert_Some Heq; [reflexivity| | |]; eapply U; eauto; congruence.
Qed.

Lemma owner_insert (h : gmap ptr (Channel CB)) p c c' q fd : h !! p = Some c -> fd_ c' = fd_ c ->
  (exists d, h !! q = Some d /\ fd_ d = fd) ->
  exists d, <[p := c']> h !! q = Some d /\ fd_ d = fd.
Proof.
  intros E Hfd (d & Ed & <-). destruct (decide (q = p)) as [->|].
  - exists c'. rewrite lookup_insert_eq. split; congruence.
  - exists d. now rewrite lookup_insert_ne.
Qed.

(** Changing a channel's requested events suspends the invariant only for it. *)
Lemma Inv_set_events p s c e : Inv s -> heap s !! p = Some c ->
  Inv_but (Some p) (set_heap (<[p := set_addedToLoop true (set_events e c)]> (heap s)) s).
Proof.
  intros I E. constructor; cbn.
  - eapply unique_fd_insert; eauto; apply I.
  - intros q d [[<- <-]|[? Eq]]%lookup_insert_Some.
    + destruct (inv_index _ _ I _ _ E) as [?|(? & ? & ev & ? & ? & _)]; [now left|right].
      repeat split; auto. exists ev. repeat split; auto. congruence.
    + destruct (inv_index _ _ I _ _ Eq) as [?|(? & ? & ev & ? & ? & He)]; [now left|right].
      repeat split; auto. exists ev. repeat split; auto.
  - intros fd q Hq. eapply owner_insert; eauto. exact (inv_map _ _ I _ _ Hq).
  - intros fd ev Hev. destruct (inv_interest _ _ I _ _ Hev) as (d & Ed & <- & ?).
    destruct (decide (ev_ptr ev = p)) as [Eq|].
    + rewrite Eq in *. rewrite lookup_insert_eq. simplify_eq. eauto.
    + rewrite lookup_insert_ne by auto. eauto.
Qed.

(** Which slot of the kernel a channel's next [updateChannel] touches. *)
Definition next_index (c : Channel CB) : Z :=
  if index_ c <? 0 then 1 else if isNoneEvent c then -1 else 2.

Definition next_interest (p : ptr) (c : Channel CB) (m : gmap Z epoll_event) :=
  if index_ c <? 0 then <[fd_ c := mkEvent (kernel_events c) p]> m
  else if isNoneEvent c then delete (fd_ c) m
  else <[fd_ c := mkEvent (kernel_events c) p]> m.

Lemma poller_updateChannel_run `{Build} p s c : Inv_but (Some p) s -> heap s !! p = Some c ->
  threadId_ s = tid -> watchable (epoll s) (fd_ c) ->
  (asserts_enabled = true -> index_ c = -1 -> channels_ s !! fd_ c = None) ->
  exists k', poller_updateChannel tid p s =
      Done (tt, set_heap (<[p := setIndex (next_index c) c]> (heap s))
                  (set_epoll k' (set_channels (if index_ c <? 0 then <[fd_ c := p]> (channels_ s)
                                               else channels_ s) s))) /\
    interest k' = next_interest p c (interest (epoll s)) /\
    (forall f, watchable (epoll s) f -> watchable k' f).
Proof.
  intros I E Ht Hw Ha. unfold poller_updateChannel, next_index, next_interest.
  st_step (assertInLoopThread_ok s Ht). st_step (chan_ok p s c E). st_get.
  destruct (inv_index _ _ I p c E) as [Hi|(Hi & Hc & ev & Hev & Hp & _)].
  - rewrite Hi in *. cbn. assert (cassert (bool_decide (channels_ s !! fd_ c = None)) s
      = Done (tt, s)) as Hassert.
    { unfold cassert. destruct asserts_enabled; [|reflexivity].
      now rewrite bool_decide_true by auto. }
    st_step Hassert. st_modify.
    destruct (update_ok EPOLL_CTL_ADD p (set_channels (<[fd_ c := p]> (channels_ s)) s) c E)
      as (k' & Ek & Hint & Hmono); cbn; auto.
    { destruct (interest (epoll s) !! fd_ c) as [ev|] eqn:Ei; [exfalso|reflexivity].
      destruct (inv_interest _ _ I _ _ Ei) as (d & Ed & Hfd & Hd).
      rewrite (inv_fd _ _ I _ _ _ _ Ed E Hfd) in Ed. congruence. }
    exists k'. rewrite Ek. auto.
  - assert ((index_ c <? 0) = false) as -> by lia.
    st_step (cassert_true (bool_decide (is_Some (channels_ s !! fd_ c))) s
      ltac:(now apply bool_decide_true; eauto)).
    st_step (cassert_true (bool_decide (channels_ s !! fd_ c = Some p)) s
      ltac:(now apply bool_decide_true)).
    destruct (isNoneEvent c).
    + destruct (update_ok EPOLL_CTL_DEL p s c E) as (k' & Ek & Hint & Hmono);
        [cbn; eauto|discriminate|].
      exists k'. split; [|auto]. st_step Ek.
      rewrite (upd_ok p _ _ (setIndex (-1) c)) by (cbn; apply lookup_insert_eq).
      do 2 f_equal. unfold set_heap; cbn. rewrite insert_insert_eq. destruct s; reflexivity.
    + destruct (update_ok EPOLL_CTL_MOD p s c E) as (k' & Ek & Hint & Hmono);
        [cbn; eauto|discriminate|].
      exists k'. split; [|auto]. rewrite Ek. destruct s; reflexivity.
Qed.

(** The state after a channel handed its events to the kernel. *)
Definition updated (p : ptr) (c : Channel CB) (k' : K) (s : loop_state K CB) : loop_state K CB :=
  set_heap (<[p := setIndex (next_index c) c]> (heap s))
    (set_epoll k' (set_channels (if index_ c <? 0 then <[fd_ c := p]> (channels_ s)
                                 else channels_ s) s)).

Lemma Inv_updated p s c k' : Inv_but (Some p) s -> heap s !! p = Some c ->
  interest k' = next_interest p c (interest (epoll s)) -> Inv (updated p c k' s).
Proof.
  intros I E Hk. pose proof (inv_fd _ _ I) as U.
  assert (index_ c < 0 \/ channels_ s !! fd_ c = Some p /\ 0 <= index_ c) as Hc.
  { destruct (inv_index _ _ I _ _ E) as [?|(? & ? & _)]; [left; lia|right; split; [auto|lia]]. }
  assert (forall q d, heap s !! q = Some d -> fd_ d = fd_ c -> q = p /\ d = c) as Uc.
  { intros q d Eq Hfd. assert (q = p) as -> by eauto. split; congruence. }
  constructor; cbn.
  - eapply unique_fd_insert; eauto.
  - intros q d [[<- <-]|[Hne Eq]]%lookup_insert_Some; cbn.
    + rewrite Hk. unfold next_index, next_interest.
      destruct (Z.ltb_spec (index_ c) 0).
      * right. split; [auto|]. split; [apply lookup_insert_eq|].
        eexists. split; [apply lookup_insert_eq|]. now split.
      * destruct (isNoneEvent c); [now left|right]. split; [auto|].
        split; [destruct Hc as [?|[? _]]; [lia|assumption]|].
        eexists. split; [apply lookup_insert_eq|]. now split.
    + destruct (inv_index _ _ I _ _ Eq) as [?|(? & Hch & ev & Hev & ? & He)]; [now left|right].
      assert (fd_ d <> fd_ c) as Hfd by (intros X; destruct (Uc _ _ Eq X); congruence).
      repeat split; auto.
      * case_match; [rewrite lookup_insert_ne by auto|]; auto.
      * exists ev. repeat split; auto; [|intros _; apply He; congruence].
        rewrite Hk. unfold next_interest.
        repeat case_match; rewrite ?lookup_insert_ne, ?lookup_delete_ne by auto; auto.
  - intros fd q Hq. eapply owner_insert; eauto.
    case_match; [apply lookup_insert_Some in Hq as [[<- <-]|[_ Hq]]|]; eauto; apply (inv_map _ _ I _ _ Hq).
  - intros fd ev. rewrite Hk. intros Hev.
    assert (fd = fd_ c /\ ev_ptr ev = p /\ next_index c <> -1 \/
      fd <> fd_ c /\ interest (epoll s) !! fd = Some ev) as [(-> & Hp & Hn)|(Hfd & Hev')].
    { unfold next_interest, next_index in *.
      repeat case_match; try (apply lookup_insert_Some in Hev as [[<- <-]|[? Hev]]); auto;
        apply lookup_delete_Some in Hev as []; auto. }
    + rewrite Hp. exists (setIndex (next_index c) c). rewrite lookup_insert_eq. auto.
    + destruct (inv_interest _ _ I _ _ Hev') as (d & Ed & <- & ?).
      rewrite lookup_insert_ne; [eauto|]. intros Hx. rewrite <-Hx in Ed. congruence.
Qed.

Lemma updated_set_heap p c k' s :
  updated p c k' (set_heap (<[p := c]> (heap s)) s) = updated p c k' s.
Proof.
  unfold updated, set_heap, set_epoll, set_channels; cbn. now rewrite insert_insert_eq.
Qed.

(** The full effect of a switch keeps the invariant. *)
Lemma Inv_switched p s c e k' : Inv s -> heap s !! p = Some c ->
  let c1 := set_addedToLoop true (set_events e c) in
  interest k' = next_interest p c1 (interest (epoll s)) -> Inv (updated p c1 k' s).
Proof.
  intros I E c1 Hk. rewrite <-updated_set_heap.
  apply Inv_updated; [now apply Inv_set_events|apply lookup_insert_eq|exact Hk].
Qed.

(** A switch of requested events: [g] computes the new mask. *)
Definition switch `{Build} (g : Z -> Z) (p : ptr) : ST (loop_state K CB) unit :=
  _ ← upd p (fun c => set_events (g (events_ c)) c); channel_update tid p.

(** The preconditions a caller has to meet: right thread, registered owner, a
    descriptor the kernel can watch, and in a debug build no stale entry of
    the descriptor table left by [disableAll]. *)
Record can_switch `{Build} (p : ptr) (c : Channel CB) (s : loop_state K CB) : Prop := {
  cs_heap : heap s !! p = Some c;
  cs_thread : threadId_ s = tid;
  cs_owner : loop_ c = self s;
  cs_watch : watchable (epoll s) (fd_ c);
  cs_fresh : asserts_enabled = true -> index_ c = -1 -> channels_ s !! fd_ c = None;
}.

Lemma switch_run `{Build} g p s c : Inv s -> can_switch p c s ->
  let c1 := set_addedToLoop true (set_events (g (events_ c)) c) in
  exists k', switch g p s = Done (tt, updated p c1 k' s) /\
    interest k' = next_interest p c1 (interest (epoll s)) /\
    (forall f, watchable (epoll s) f -> watchable k' f).
Proof.
  intros I [E Ht Ho Hw Hf] c1.
  unfold switch. st_step (upd_ok p (fun c => set_events (g (events_ c)) c) s c E).
  unfold channel_update.
  set (s0 := set_heap _ s).
  st_step (upd_ok p (set_addedToLoop true) s0 _ (lookup_insert_eq (heap s) p _)).
  set (s1 := set_heap (<[p := c1]> (heap s)) s).
  assert (set_heap (<[p := set_addedToLoop true (set_events (g (events_ c)) c)]> (heap s0)) s0 = s1) as ->.
  { unfold s1, s0, set_heap; cbn. now rewrite insert_insert_eq. }
  assert (heap s1 !! p = Some c1) as E1 by apply lookup_insert_eq.
  unfold updateChannel. st_step (chan_ok p s1 c1 E1). st_get.
  st_step (cassert_true (loop_ c1 =? self s1) s1 ltac:(cbn; lia)).
  st_step (assertInLoopThread_ok s1 Ht).
  destruct (poller_updateChannel_run p s1 c1 (Inv_set_events p s c _ I E) E1 Ht Hw Hf)
    as (k' & Ek & Hk & Hm).
  exists k'. rewrite Ek. split; [|auto]. now rewrite <-(updated_set_heap p c1 k' s).
Qed.
End Lemmas.

(** ** What the event switches do *)

Inductive event_op := OEnableReading | ODisableReading | OEnableWriting | ODisableWriting | ODisableAll.

Definition run_op {K CB} `{EpollKernel K} `{Build} (tid : Z) (o : event_op) (p : ptr)
    : ST (loop_state K CB) unit :=
  match o with
  | OEnableReading => enableReading tid p
  | ODisableReading => disableReading tid p
  | OEnableWriting => enableWriting tid p
  | ODisableWriting => disableWriting tid p
  | ODisableAll => disableAll tid p
  end.

(** Bit [i] of the requested events afterwards. *)
Definition op_bit (o : event_op) (e i : Z) : bool :=
  match o with
  | OEnableReading => Z.testbit e i || (i =? 0) || (i =? 1)
  | ODisableReading => Z.testbit e i && negb (i =? 0) && negb (i =? 1)
  | OEnableWriting => Z.testbit e i || (i =? 2)
  | ODisableWriting => Z.testbit e i && negb (i =? 2)
  | ODisableAll => false
  end.

Definition op_mask (o : event_op) (e : Z) : Z :=
  match o with
  | OEnableReading => Z.lor e kReadEvent
  | ODisableReading => Z.land e (Z.lnot kReadEvent)
  | OEnableWriting => Z.lor e kWriteEvent
  | ODisableWriting => Z.land e (Z.lnot kWriteEvent)
  | ODisableAll => kNoneEvent
  end.

Lemma run_op_switch {K CB} `{EpollKernel K} `{Build} tid o p :
  @run_op K CB _ _ tid o p = switch tid (op_mask o) p.
Proof. destruct o; reflexivity. Qed.

Lemma kReadEvent_bit i : 0 <= i -> Z.testbit kReadEvent i = (i =? 0) || (i =? 1).
Proof.
  intros Hi. destruct (decide (i < 2)) as [Hlt|Hge].
  - assert (i = 0 \/ i = 1) as [-> | ->] by lia; reflexivity.
  - change kReadEvent with 3. rewrite (Z.bits_above_log2 3 i); [lia|lia|].
    change (Z.log2 3) with 1. lia.
Qed.

Lemma kWriteEvent_bit i : 0 <= i -> Z.testbit kWriteEvent i = (i =? 2).
Proof.
  intros Hi. change kWriteEvent with (2 ^ 2). rewrite Z.pow2_bits_eqb by lia. lia.
Qed.

Lemma op_mask_bit o e i : 0 <= i -> Z.testbit (op_mask o e) i = op_bit o e i.
Proof.
  intros Hi. destruct o; unfold op_mask, op_bit;
    rewrite ?Z.lor_spec, ?Z.land_spec, ?Z.lnot_spec, ?kReadEvent_bit, ?kWriteEvent_bit by lia.
  - apply orb_assoc.
  - rewrite negb_orb. apply andb_assoc.
  - reflexivity.
  - reflexivity.
  - apply Z.testbit_0_l.
Qed.

(** ** Theorems *)

Section Theorems.
Context {K CB : Type} `{HK : EpollKernel K} `{HL : !EpollLaws K}.
Context (tid : Z).
Implicit Types (s : loop_state K CB) (p : ptr) (c : Channel CB).


(** One ready event of a consistent state is recorded and listed. *)
Lemma fillActive_run `{Build} p r s c : heap s !! p = Some c -> channels_ s !! fd_ c = Some p ->
  fillActive (p, r) s = Done (tt, set_active (activeChannels_ s ++ [p])
                                   (set_heap (<[p := setRevents r c]> (heap s)) s)).
Proof.
  intros E Hc. unfold fillActive; cbn [fst snd]. st_step (chan_ok p s c E). st_get.
  st_step (cassert_true (bool_decide (is_Some (channels_ s !! fd_ c))) s
    ltac:(apply bool_decide_true; eauto)).
  st_step (cassert_true (bool_decide (channels_ s !! fd_ c = Some p)) s
    ltac:(now apply bool_decide_true)).
  st_step (upd_ok p (setRevents r) s c E). reflexivity.
Qed.

Lemma Inv_fillActive p r s c : Inv s -> heap s !! p = Some c ->
  Inv (set_active (activeChannels_ s ++ [p]) (set_heap (<[p := setRevents r c]> (heap s)) s)).
Proof.
  intros I E. constructor; cbn.
  - eapply unique_fd_insert; eauto; apply I.
  - intros q d [[<- <-]|[_ Eq]]%lookup_insert_Some; [exact (inv_index _ _ I _ _ E)|].
    exact (inv_index _ _ I _ _ Eq).
  - intros fd q Hq. eapply owner_insert; eauto. exact (inv_map _ _ I _ _ Hq).
  - intros fd ev Hev. destruct (inv_interest _ _ I _ _ Hev) as (d & Ed & <- & ?).
    destruct (decide (ev_ptr ev = p)) as [Eq|].
    + rewrite Eq in *. rewrite lookup_insert_eq. simplify_eq. eauto.
    + rewrite lookup_insert_ne by auto. eauto.
Qed.

(** A pointer that the poller knows: registered with the kernel. *)
Definition registered p s : Prop :=
  exists fd ev, interest (epoll s) !! fd = Some ev /\ ev_ptr ev = p.

Lemma registered_known p s : Inv s -> registered p s ->
  exists c, heap s !! p = Some c /\ channels_ s !! fd_ c = Some p.
Proof.
  intros I (fd & ev & Hev & <-). destruct (inv_interest _ _ I _ _ Hev) as (c & E & <- & Hi).
  exists c. split; [exact E|]. destruct (inv_index _ _ I _ _ E) as [?|(_ & ? & _)]; [lia|auto].
Qed.

(** The whole list: nothing fails, the invariant stays, the list is appended. *)
Lemma fill_list `{Build} l s : Inv s -> Forall (fun e => registered (fst e) s) l ->
  exists s', for_each l fillActive s = Done (tt, s') /\ Inv s' /\
    activeChannels_ s' = activeChannels_ s ++ l.*1 /\ events_size s' = events_size s /\
    (NoDup l.*1 -> forall p r, (p, r) ∈ l -> exists c, heap s' !! p = Some c /\ revents_ c = r) /\
    (forall p, p ∉ l.*1 -> heap s' !! p = heap s !! p) /\
    (forall p c, heap s !! p = Some c -> exists r, heap s' !! p = Some (setRevents r c)).
Proof.
  revert s; induction l as [|[p r] l IH]; intros s I HF.
  { exists s. cbn. rewrite app_nil_r. split_and!; auto; [intros _ q r' Hq%not_elem_of_nil; destruct Hq|].
    intros p c E. exists (revents_ c). rewrite E. destruct c; reflexivity. }
  apply Forall_cons in HF as [Hp HF]. cbn [fst] in Hp.
  destruct (registered_known p s I Hp) as (c & E & Hc).
  rewrite (for_each_cons _ _ _ _ _ (fillActive_run p r s c E Hc)).
  set (s1 := set_active _ _).
  destruct (IH s1) as (s' & E' & I' & Ha & Hz & Hr & Hf & Hg); [now apply Inv_fillActive| |].
  { eapply Forall_impl; [exact HF|]. intros e (fd & ev & H1 & H2). now exists fd, ev. }
  exists s'. split; [exact E'|]. split; [exact I'|]. cbn [fmap list_fmap fst].
  split; [rewrite Ha; cbn; now rewrite <-app_assoc|]. split; [exact Hz|].
  split; [|split].
  - intros Hnd q r' Hq. apply NoDup_cons in Hnd as [Hp' Hnd].
    apply elem_of_cons in Hq as [[= -> ->]|Hq]; [|now apply Hr].
    exists (setRevents r c). split; [|reflexivity]. rewrite (Hf p Hp'). apply lookup_insert_eq.
  - intros q [Hne Hq]%not_elem_of_cons. rewrite (Hf q Hq). now apply lookup_insert_ne.
  - intros q d Eq. destruct (decide (q = p)) as [->|Hne].
    + rewrite E in Eq. injection Eq as <-.
      destruct (Hg p (setRevents r c)) as [r' Er']; [apply lookup_insert_eq|].
      exists r'. rewrite Er'. destruct c; reflexivity.
    + apply Hg. cbn. now rewrite lookup_insert_ne.
Qed.

(** What the manual promises of epoll_wait: at most [maxevents] events, and
    each carries the pointer of a current registration. *)
Definition wait_ok (wait : K -> Z -> wait_result) : Prop :=
  forall k n l, wait k n = WaitEvents l ->
    Z.of_nat (length l) <= n /\
    Forall (fun e => exists fd ev, interest k !! fd = Some ev /\ ev_ptr ev = fst e) l.

(** C16: polling never touches a dead channel.  In a consistent state, and with
    a kernel that reports registered pointers only, [poll] succeeds in a debug
    and in a release build, appends exactly the ready channels to the active
    list in the kernel's order, stores the reported mask in each of them,
    doubles the event array exactly when it came back full, and keeps the
    state consistent. *)
Theorem poll_correct `{Build} (wait : K -> Z -> wait_result) s l :
  Inv s -> wait_ok wait -> wait (epoll s) (events_size s) = WaitEvents l ->
  exists s', poll wait s = Done (tt, s') /\ Inv s' /\
    activeChannels_ s' = activeChannels_ s ++ l.*1 /\
    (NoDup l.*1 -> forall p r, (p, r) ∈ l -> exists c, heap s' !! p = Some c /\ revents_ c = r) /\
    (forall p, p ∉ l.*1 -> heap s' !! p = heap s !! p) /\
    events_size s' = (if negb (bool_decide (l = [])) && (Z.of_nat (length l) =? events_size s)
                      then events_size s * 2 else events_size s).
Proof.
  intros I Hw El. destruct (Hw _ _ _ El) as [Hlen HF]. unfold poll. st_get. rewrite El.
  destruct (fill_list l s I HF) as (s' & E & I' & Ha & Hz & Hr & Hf & _).
  destruct l as [|e l].
  { injection E as <-. exists s. cbn. rewrite app_nil_r. split_and!; auto. }
  assert (fillActiveChannels (e :: l) s = Done (tt, s')) as E2.
  { unfold fillActiveChannels. st_get.
    st_step (cassert_true (Z.of_nat (length (e :: l)) <=? events_size s) s ltac:(lia)). exact E. }
  st_step E2. st_get. rewrite Hz. rewrite bool_decide_false by discriminate. cbn [negb andb].
  destruct (_ =? _); cbn [when]; eexists; (split; [reflexivity|]); cbn; split_and!; auto.
  destruct I'; constructor; assumption.
Qed.

(** [remove] of a channel that wants no event, in a release build, by the value
    of its index. *)
Lemma remove_release `{Build} p s c : asserts_enabled = false ->
  heap s !! p = Some c -> threadId_ s = tid -> index_ c <> 2 ->
  remove tid p s = Done (tt, set_heap (<[p := setIndex (-1) (set_addedToLoop false c)]> (heap s))
                               (set_channels (delete (fd_ c) (channels_ s)) s)).
Proof.
  intros R E Ht Hi. unfold remove. st_step (chan_ok p s c E).
  st_step (cassert_release (isNoneEvent c) s R). st_step (upd_ok p (set_addedToLoop false) s c E).
  set (c1 := set_addedToLoop false c). set (s1 := set_heap _ s).
  assert (heap s1 !! p = Some c1) as E1 by apply lookup_insert_eq.
  unfold removeChannel. st_step (chan_ok p s1 c1 E1). st_get.
  st_step (cassert_release (loop_ c1 =? self s1) s1 R). st_step (assertInLoopThread_ok tid s1 Ht).
  assert (when (eventHandling s1) (cassert (bool_decide (currentActiveChannel_ s1 = Some p) ||
    bool_decide (p ∉ activeChannels_ s1))) s1 = Done (tt, s1)) as Ew.
  { destruct (eventHandling s1); [apply cassert_release, R|reflexivity]. }
  st_step Ew. unfold poller_removeChannel. st_step (assertInLoopThread_ok tid s1 Ht).
  st_step (chan_ok p s1 c1 E1). st_get.
  do 4 match goal with |- context [(cassert ?b ≫= ?k) ?x] =>
    rewrite (bind_done _ _ _ _ _ (cassert_release b x R)) end.
  st_modify. rewrite (bind_done _ _ _ _ _ (cassert_release _ _ R)).
  change (index_ c1) with (index_ c). rewrite (proj2 (Z.eqb_neq _ _) Hi). cbn [when].
  rewrite bind_ret_l. erewrite upd_ok by exact E1.
  unfold s1, set_heap, set_channels; cbn. now rewrite insert_insert_eq.
Qed.

Lemma disableAll_run `{Build} p s c : Inv s -> can_switch tid p c s ->
  let c1 := set_addedToLoop true (set_events kNoneEvent c) in
  exists k', disableAll tid p s = Done (tt, updated p c1 k' s) /\
    interest k' = next_interest p c1 (interest (epoll s)) /\
    (forall f, watchable (epoll s) f -> watchable k' f).
Proof. exact (switch_run tid (fun _ => kNoneEvent) p s c). Qed.

(** The index that [disableAll] leaves is not one that [remove] accepts. *)
Lemma disableAll_remove_fails `{Build} p s c :
  asserts_enabled = true -> Inv s -> can_switch tid p c s -> index_ c <> -1 ->
  (_ ← disableAll tid p; remove tid p) s = Fail AssertFailed.
Proof.
  intros A I C Hi. destruct (disableAll_run p s c I C) as (k' & E & _).
  st_step E.
  set (c1 := set_addedToLoop true (set_events kNoneEvent c)).
  assert (next_index c1 = -1) as Hn.
  { unfold next_index. change (index_ c1) with (index_ c).
    destruct (inv_index _ _ I _ _ (cs_heap _ _ _ _ C)) as [?|([Hx|Hx] & _)]; [lia| |]; now rewrite Hx. }
  set (s1 := updated p c1 k' s). set (c2 := setIndex (next_index c1) c1).
  assert (heap s1 !! p = Some c2) as E1 by apply lookup_insert_eq.
  unfold remove. st_step (chan_ok p s1 c2 E1). st_step (cassert_true (isNoneEvent c2) s1 eq_refl).
  st_step (upd_ok p (set_addedToLoop false) s1 c2 E1).
  set (c3 := set_addedToLoop false c2). set (s2 := set_heap _ s1).
  assert (heap s2 !! p = Some c3) as E2 by apply lookup_insert_eq.
  assert (threadId_ s2 = tid) as Ht by apply (cs_thread _ _ _ _ C).
  assert (channels_ s2 !! fd_ c3 = Some p) as Hc.
  { cbn. change (index_ c1) with (index_ c).
    destruct (inv_index _ _ I _ _ (cs_heap _ _ _ _ C)) as [?|(Hx & Hch & _)]; [lia|].
    rewrite (proj2 (Z.ltb_ge _ _)) by lia. exact Hch. }
  unfold removeChannel. st_step (chan_ok p s2 c3 E2). st_get.
  st_step (cassert_true (loop_ c3 =? self s2) s2
    ltac:(cbn; rewrite (cs_owner _ _ _ _ C); apply Z.eqb_refl)).
  st_step (assertInLoopThread_ok tid s2 Ht).
  assert (poller_removeChannel tid p s2 = Fail AssertFailed) as Ef.
  { unfold poller_removeChannel. st_step (assertInLoopThread_ok tid s2 Ht).
    st_step (chan_ok p s2 c3 E2). st_get.
    st_step (cassert_true (bool_decide (is_Some (channels_ s2 !! fd_ c3))) s2
      ltac:(apply bool_decide_true; eauto)).
    st_step (cassert_true (bool_decide (channels_ s2 !! fd_ c3 = Some p)) s2
      ltac:(now apply bool_decide_true)).
    st_step (cassert_true (isNoneEvent c3) s2 eq_refl).
    apply bind_fail, cassert_false; [exact A|]. cbn. now rewrite Hn. }
  destruct (eventHandling s2); cbn [when]; [|now rewrite bind_ret_l].
  unfold mbind, ST_bind. unfold cassert at 1.
  destruct (asserts_enabled && _); [reflexivity|exact Ef].
Qed.

(** in a debug build no registered channel can be taken down.  For every
    channel that the poller has registered, [disableAll] followed by [remove]
    -- the sequence of ~EventLoop, ~Acceptor, ~TimerQueue, TcpConnection's
    close path and the awaitables -- ends in a failed assertion, because
    [disableAll] resets the index to -1 and [removeChannel] asserts that it is
    1 or 2. *)
Theorem disableAll_remove_asserts `{Build} p s c :
  asserts_enabled = true -> Inv s -> can_switch tid p c s -> index_ c <> -1 ->
  (_ ← disableAll tid p; remove tid p) s = Fail AssertFailed.
Proof. exact (disableAll_remove_fails p s c). Qed.

(** in a release build the same sequence is clean.  [disableAll] followed
    by [remove] on a registered channel removes the descriptor from the poller's
    table and from the kernel's interest list, touches no other descriptor and
    keeps the state consistent. *)
Theorem disableAll_remove_release `{Build} p s c :
  asserts_enabled = false -> Inv s -> can_switch tid p c s -> index_ c <> -1 ->
  exists s', (_ ← disableAll tid p; remove tid p) s = Done (tt, s') /\ Inv s' /\
    channels_ s' = delete (fd_ c) (channels_ s) /\
    interest (epoll s') = delete (fd_ c) (interest (epoll s)) /\
    exists c', heap s' = <[p := c']> (heap s) /\ index_ c' = -1 /\ addedToLoop_ c' = false.
Proof.
  intros R I C Hi. destruct (disableAll_run p s c I C) as (k' & E & Hk & _).
 
  set (c1 := set_addedToLoop true (set_events kNoneEvent c)) in *.
  pose proof (cs_heap _ _ _ _ C) as Eh.
  assert (0 <= index_ c) as Hpos by (destruct (inv_index _ _ I _ _ Eh) as [?|([?|?] & _)]; lia).
  pose proof (Inv_switched p s c kNoneEvent k' I Eh Hk) as I1. fold c1 in I1.
  set (s1 := updated p c1 k' s) in *. set (c2 := setIndex (next_index c1) c1).
  assert (index_ c2 = -1) as Hn.
  { cbn. unfold next_index. change (index_ c1) with (index_ c).
    now rewrite (proj2 (Z.ltb_ge _ _)) by lia. }
  assert (heap s1 !! p = Some c2) as E1 by apply lookup_insert_eq.
  st_step E. rewrite (remove_release p s1 c2 R E1 (cs_thread _ _ _ _ C) ltac:(lia)).
  assert (channels_ s1 = channels_ s) as Hch.
  { cbn. now rewrite (proj2 (Z.ltb_ge _ _)) by lia. }
  assert (interest (epoll s1) = delete (fd_ c) (interest (epoll s))) as Hint.
  { unfold s1, updated. cbn. rewrite Hk. unfold next_interest. change (index_ c1) with (index_ c).
    now rewrite (proj2 (Z.ltb_ge _ _)) by lia. }
  eexists. split; [reflexivity|]. cbn [epoll channels_ heap set_heap set_channels].
  rewrite Hch, Hint. change (fd_ c2) with (fd_ c). split_and!; auto.
  - constructor; cbn [epoll channels_ heap set_heap set_channels].
    + eapply unique_fd_insert; eauto; apply I1.
    + intros q d [[<- <-]|[Hne Eq]]%lookup_insert_Some; [now left|].
      destruct (inv_index _ _ I1 _ _ Eq) as [?|(? & Hq & ?)]; [now left|right].
      split; [auto|]. split; [|auto]. rewrite lookup_delete_ne; [now rewrite <-?Hch|].
      intros Hfd. apply Hne. eapply (inv_fd _ _ I1); eauto.
    + intros fd q [Hne Hq]%lookup_delete_Some. eapply owner_insert; eauto.
      rewrite <-?Hch in Hq. exact (inv_map _ _ I1 _ _ Hq).
    + intros fd ev Hev. destruct (inv_interest _ _ I1 _ _ Hev) as (d & Ed & <- & Hd).
      assert (ev_ptr ev <> p) as Hne by (intros Hx; rewrite Hx in *; congruence).
      rewrite lookup_insert_ne by auto. eauto.
  - exists (setIndex (-1) (set_addedToLoop false c2)). split_and!; auto.
    cbn. now rewrite insert_insert_eq.
Qed.

(** in a release build a second [disableAll] before [remove] leaves a
    dangling registration.  CoroTcpConnection::handleClose calls disableAll and
    then CoroChannel::remove, which calls disableAll again, removes the channel
    and destroys it: the second disableAll adds the descriptor to the kernel
    anew with index 1, [remove] deletes from the kernel only for index 2, so
    after the destruction the kernel still holds the freed channel's address. *)
Theorem double_disableAll_dangles `{Build} p s c :
  asserts_enabled = false -> Inv s -> can_switch tid p c s -> index_ c <> -1 ->
  exists s', (_ ← disableAll tid p; _ ← disableAll tid p; _ ← remove tid p; destroyChannel p) s
      = Done (tt, s') /\ heap s' !! p = None /\ dangling (fd_ c) p s'.
Proof.
  intros R I C Hi. destruct (disableAll_run p s c I C) as (k' & E & Hk & Hm).
  st_step E.
  set (c1 := set_addedToLoop true (set_events kNoneEvent c)) in *.
  pose proof (cs_heap _ _ _ _ C) as Eh.
  assert (0 <= index_ c) as Hpos by (destruct (inv_index _ _ I _ _ Eh) as [?|([?|?] & _)]; lia).
  pose proof (Inv_switched p s c kNoneEvent k' I Eh Hk) as I1. fold c1 in I1.
  set (s1 := updated p c1 k' s) in *. set (c2 := setIndex (next_index c1) c1).
  assert (index_ c2 = -1) as Hn.
  { cbn. unfold next_index. change (index_ c1) with (index_ c).
    now rewrite (proj2 (Z.ltb_ge _ _)) by lia. }
  assert (heap s1 !! p = Some c2) as E1 by apply lookup_insert_eq.
  assert (can_switch tid p c2 s1) as C2.
  { constructor; [exact E1|apply C|apply C|apply Hm, C|congruence]. }
  destruct (disableAll_run p s1 c2 I1 C2) as (k2 & E2 & Hk2 & _).
  st_step E2.
  set (c3 := set_addedToLoop true (set_events kNoneEvent c2)) in *.
  set (s2 := updated p c3 k2 s1). set (c4 := setIndex (next_index c3) c3).
  assert (heap s2 !! p = Some c4) as E4 by apply lookup_insert_eq.
  assert (next_index c3 = 1) as Hn3 by (unfold next_index; change (index_ c3) with (index_ c2); now rewrite Hn).
  assert (index_ c4 <> 2) as Hi4 by (cbn; lia).
  rewrite (bind_done _ _ _ _ _ (remove_release p s2 c4 R E4 (cs_thread _ _ _ _ C) Hi4)).
  set (s3 := set_heap _ _). set (c5 := setIndex (-1) (set_addedToLoop false c4)).
  assert (heap s3 !! p = Some c5) as E5 by apply lookup_insert_eq.
  unfold destroyChannel. st_step (chan_ok p s3 c5 E5).
  do 2 rewrite (bind_done _ _ _ _ _ (cassert_release _ _ R)).
  eexists. split; [reflexivity|]. split; [apply lookup_delete_eq|].
  split; [|apply lookup_delete_eq]. exists (kernel_events c3). cbn. rewrite Hk2. unfold next_interest.
  change (index_ c3) with (index_ c2). rewrite Hn. apply lookup_insert_eq.
Qed.
End Theorems.

(** ** Dispatch of ready events *)

Lemma flag_pow2 x n : 0 <= n -> flag x (2 ^ n) = Z.testbit x n.
Proof.
  intros Hn. unfold flag. destruct (Z.testbit x n) eqn:E.
  - apply negb_true_iff, Z.eqb_neq. intros H0. apply (f_equal (fun z => Z.testbit z n)) in H0.
    rewrite Z.land_spec, E, Z.pow2_bits_true, Z.testbit_0_l in H0 by lia. discriminate.
  - apply negb_false_iff, Z.eqb_eq, Z.bits_inj'. intros i Hi.
    rewrite Z.land_spec, Z.testbit_0_l, Z.pow2_bits_eqb by lia.
    destruct (Z.eqb_spec n i) as [<-|]; [now rewrite E|apply andb_false_r].
Qed.

Lemma flag_lor x a b : flag x (Z.lor a b) = flag x a || flag x b.
Proof.
  unfold flag. rewrite Z.land_lor_distr_r.
  destruct (Z.eqb_spec (Z.land x a) 0) as [->|Ha]; cbn.
  - now rewrite Z.lor_0_l.
  - apply negb_true_iff, Z.eqb_neq. intros H0%Z.lor_eq_0_iff. tauto.
Qed.

(** The callbacks a mask calls for, in order: close on HUP without IN, error on
    ERR, read on IN, PRI or RDHUP, write on OUT (bits 4, 0, 3, 1, 13 and 2). *)
Definition to_list {CB} (b : bool) (cb : option CB) : list CB :=
  if b then match cb with Some f => [f] | None => [] end else [].

Definition dispatch {CB} (c : Channel CB) : list CB :=
  let bit := Z.testbit (revents_ c) in
  to_list (bit 4 && negb (bit 0)) (closeCallback_ c) ++
  to_list (bit 3) (errorCallback_ c) ++
  to_list (bit 0 || bit 1 || bit 13) (readCallback_ c) ++
  to_list (bit 2) (writeCallback_ c).

(** Two versions of a channel that dispatch alike. *)
Definition same_dispatch {CB} (c d : Channel CB) : Prop :=
  revents_ d = revents_ c /\ readCallback_ d = readCallback_ c /\
  writeCallback_ d = writeCallback_ c /\ closeCallback_ d = closeCallback_ c /\
  errorCallback_ d = errorCallback_ c.

Section Dispatch.
Context {K CB : Type} (invoke : CB -> ST (loop_state K CB) unit) (p : ptr).
Implicit Types (s : loop_state K CB) (c : Channel CB).

(* a callback may change anything but this channel's mask and closures *)
Hypothesis invoke_ok : forall cb s c, heap s !! p = Some c ->
  exists s' c', invoke cb s = Done (tt, s') /\ heap s' !! p = Some c' /\ same_dispatch c c'.

Lemma when_call b cb s c (f : Channel CB -> option CB) :
  heap s !! p = Some c -> cb = f c ->
  exists s' c', for_each (to_list b cb) invoke s = Done (tt, s') /\
    when b (call invoke cb) s = Done (tt, s') /\ heap s' !! p = Some c' /\ same_dispatch c c'.
Proof.
  intros E ->. destruct b; [destruct (f c) as [g|]|]; cbn;
    [|exists s, c; repeat split; auto..].
  destruct (invoke_ok g s c E) as (s' & c' & Ei & E' & Hs). exists s', c'.
  split; [|auto]. st_step Ei. reflexivity.
Qed.

(** a ready channel runs exactly the callbacks its mask calls for.  When
    the owner of a tied channel is alive, or the channel is not tied,
    [handleEvent] runs the callbacks of [dispatch] in that order, between
    setting and clearing [eventHandling_]; when the owner of a tied channel is
    gone it does nothing at all. *)
Theorem handleEvent_dispatch s c :
  heap s !! p = Some c ->
  handleEvent invoke p s =
    if tied_ c && negb (match tie_ c with Some o => bool_decide (o ∈ alive s) | None => false end)
    then Done (tt, s)
    else (_ ← upd p (set_eventHandling true);
          _ ← for_each (dispatch c) invoke;
          upd p (set_eventHandling false)) s.
Proof.
  intros E. unfold handleEvent. st_step (chan_ok p s c E).
  assert (handleEventWithGuard invoke p s = (_ ← upd p (set_eventHandling true);
          _ ← for_each (dispatch c) invoke; upd p (set_eventHandling false)) s) as Hg.
  2:{ destruct (tied_ c); [|exact Hg]. st_get.
      destruct (match tie_ c with Some _ => _ | None => _ end); cbn; [exact Hg|reflexivity]. }
  unfold handleEventWithGuard, dispatch.
  rewrite !(bind_done _ _ _ _ _ (upd_ok p (set_eventHandling true) s c E)).
  set (c0 := set_eventHandling true c). set (s0 := set_heap _ s).
  assert (heap s0 !! p = Some c0) as E0 by apply lookup_insert_eq.
  rewrite (bind_done _ _ _ _ _ (chan_ok p s0 c0 E0)).
  change EPOLLHUP with (2 ^ 4); change EPOLLIN with (2 ^ 0); change EPOLLERR with (2 ^ 3);
    change EPOLLPRI with (2 ^ 1); change EPOLLRDHUP with (2 ^ 13); change EPOLLOUT with (2 ^ 2).
  set (r := revents_ c).
  destruct (when_call (flag r (2 ^ 4) && negb (flag r (2 ^ 0))) _ s0 c0 closeCallback_ E0 eq_refl)
    as (s1 & c1 & F1 & W1 & E1 & (R1 & ? & ? & ? & H1)).
  st_step W1. st_step (chan_ok p s1 c1 E1).
  destruct (when_call (flag r (2 ^ 3)) _ s1 c1 errorCallback_ E1 eq_refl)
    as (s2 & c2 & F2 & W2 & E2 & (R2 & ? & ? & ? & ?)).
  rewrite R1. st_step W2. st_step (chan_ok p s2 c2 E2).
  destruct (when_call (flag r (Z.lor (Z.lor (2 ^ 0) (2 ^ 1)) (2 ^ 13))) _ s2 c2 readCallback_ E2 eq_refl)
    as (s3 & c3 & F3 & W3 & E3 & (R3 & ? & ? & ? & ?)).
  rewrite R2, R1. st_step W3. st_step (chan_ok p s3 c3 E3).
  destruct (when_call (flag r (2 ^ 2)) _ s3 c3 writeCallback_ E3 eq_refl)
    as (s4 & c4 & F4 & W4 & E4 & (R4 & ? & ? & ? & ?)).
  rewrite R3, R2, R1. st_step W4.
  rewrite !flag_pow2 in F1 by lia. rewrite flag_pow2 in F2 by lia.
  rewrite !flag_lor, !flag_pow2 in F3 by lia. rewrite flag_pow2 in F4 by lia.
  change (closeCallback_ c0) with (closeCallback_ c) in F1.
  replace (errorCallback_ c1) with (errorCallback_ c) in F2 by (symmetry; exact H1).
  replace (readCallback_ c2) with (readCallback_ c) in F3 by (cbn in *; congruence).
  replace (writeCallback_ c3) with (writeCallback_ c) in F4 by (cbn in *; congruence).
  assert (for_each (dispatch c) invoke s0 = Done (tt, s4)) as Hd.
  { unfold dispatch. fold r. rewrite (for_each_app _ _ _ _ _ F1), (for_each_app _ _ _ _ _ F2),
      (for_each_app _ _ _ _ _ F3). exact F4. }
  unfold dispatch in Hd. now rewrite (bind_done _ _ _ _ _ Hd).
Qed.
End Dispatch.

(** ** A concrete kernel and a concrete loop, for the witnesses *)

Definition map_ctl (m : gmap Z epoll_event) (op : ctl_op) (fd : Z) (ev : epoll_event) :=
  match op with
  | EPOLL_CTL_ADD =>
      if fd <? 0 then (m, false)
      else match m !! fd with None => (<[fd := ev]> m, true) | Some _ => (m, false) end
  | EPOLL_CTL_DEL => match m !! fd with Some _ => (delete fd m, true) | None => (m, false) end
  | EPOLL_CTL_MOD => match m !! fd with Some _ => (<[fd := ev]> m, true) | None => (m, false) end
  end.

#[export] Instance map_kernel : EpollKernel (gmap Z epoll_event) :=
  {| interest m := m; epoll_ctl := map_ctl |}.

#[export] Program Instance map_kernel_laws : EpollLaws (gmap Z epoll_event) :=
  {| watchable _ fd := 0 <= fd |}.
Next Obligation.
  intros k op fd ev k'. cbn. destruct op; cbn; repeat case_match; intros [= <-]; cbn; eauto.
Qed.
Next Obligation.
  intros k op fd ev k'. cbn. destruct op; cbn; repeat case_match; intros [= <-]; cbn;
    (split; [reflexivity|]); intros Hpre.
  - split; [reflexivity|lia].
  - congruence.
  - destruct Hpre; congruence.
  - destruct Hpre; congruence.
Qed.

(** One channel at address 10, descriptor 5, reading, registered; its closures
    are named by numbers. *)
Definition sample_channel : Channel nat :=
  mkChannel 77 5 kReadEvent 0 1 true true true false true (Some 30)
    (Some 1%nat) (Some 2%nat) (Some 3%nat) (Some 4%nat).

Definition sample_loop : loop_state (gmap Z epoll_event) nat :=
  mkLoop 77 1 {[10 := sample_channel]} {[5 := 10]}
    {[5 := mkEvent (kernel_events sample_channel) 10]} 16 false None [] {[30]}.

Lemma sample_loop_inv : Inv sample_loop.
Proof.
  constructor; cbn.
  - intros p q c d [<- <-]%lookup_singleton_Some [<- <-]%lookup_singleton_Some. auto.
  - intros p c [<- <-]%lookup_singleton_Some. right. split; [auto|]. split; [reflexivity|].
    eexists. split; [reflexivity|auto].
  - intros fd p [<- <-]%lookup_singleton_Some. exists sample_channel. auto.
  - intros fd ev [<- <-]%lookup_singleton_Some. exists sample_channel. split_and!; auto; discriminate.
Qed.

Lemma sample_can_switch `{Build} : can_switch 1 10 sample_channel sample_loop.
Proof. constructor; try reflexivity; cbn; [lia|discriminate]. Qed.


(** A kernel that reports descriptor 5 hung up, if it is registered. *)
Definition sample_wait (k : gmap Z epoll_event) (n : Z) : wait_result :=
  match k !! 5 with
  | Some ev => if 1 <=? n then WaitEvents [(ev_ptr ev, EPOLLHUP)] else WaitError 22
  | None => WaitError 4
  end.

Lemma sample_wait_ok : wait_ok sample_wait.
Proof.
  intros k n l. unfold sample_wait. destruct (k !! 5) as [ev|] eqn:E; [|discriminate].
  destruct (Z.leb_spec 1 n); intros [= <-]. split; [cbn; lia|].
  repeat constructor. exists 5, ev. auto.
Qed.

Lemma poll_correct_witness :
  exists s', @poll _ _ debug_build sample_wait sample_loop = Done (tt, s') /\ Inv s' /\
    activeChannels_ s' = [10] /\
    (NoDup [10] -> forall p r, (p, r) ∈ [(10, EPOLLHUP)] ->
       exists c, heap s' !! p = Some c /\ revents_ c = r) /\
    (forall p, p ∉ [10] -> heap s' !! p = heap sample_loop !! p) /\ events_size s' = 16.
Proof.
  apply (@poll_correct _ _ _ debug_build sample_wait sample_loop [(10, EPOLLHUP)]);
    [exact sample_loop_inv|exact sample_wait_ok|reflexivity].
Defined.

Lemma disableAll_remove_asserts_witness :
  (_ ← @disableAll _ _ _ debug_build 1 10; @remove _ _ _ debug_build 1 10) sample_loop
    = Fail AssertFailed.
Proof.
  apply (@disableAll_remove_asserts _ _ _ _ 1 debug_build 10 sample_loop sample_channel);
    [reflexivity|exact sample_loop_inv|exact sample_can_switch|discriminate].
Defined.

Lemma disableAll_remove_release_witness :
  exists s', (_ ← @disableAll _ _ _ release_build 1 10; @remove _ _ _ release_build 1 10) sample_loop
      = Done (tt, s') /\ Inv s' /\
    channels_ s' = delete 5 (channels_ sample_loop) /\
    interest (epoll s') = delete 5 (interest (epoll sample_loop)) /\
    exists c', heap s' = <[10 := c']> (heap sample_loop) /\ index_ c' = -1 /\ addedToLoop_ c' = false.
Proof.
  apply (@disableAll_remove_release _ _ _ _ 1 release_build 10 sample_loop sample_channel);
    [reflexivity|exact sample_loop_inv|exact sample_can_switch|discriminate].
Defined.

Lemma double_disableAll_dangles_witness :
  exists s', (_ ← @disableAll _ _ _ release_build 1 10; _ ← @disableAll _ _ _ release_build 1 10;
              _ ← @remove _ _ _ release_build 1 10; @destroyChannel _ _ release_build 10) sample_loop
      = Done (tt, s') /\ heap s' !! 10 = None /\ dangling 5 10 s'.
Proof.
  apply (@double_disableAll_dangles _ _ _ _ 1 release_build 10 sample_loop sample_channel);
    [reflexivity|exact sample_loop_inv|exact sample_can_switch|discriminate].
Defined.

(** Closures that disable the channel's events, as the close path does. *)
Definition sample_invoke (cb : nat) : ST (loop_state (gmap Z epoll_event) nat) unit :=
  upd 10 (set_events kNoneEvent).

Definition hup_channel : Channel nat := setRevents (Z.lor EPOLLHUP EPOLLOUT) sample_channel.

Lemma handleEvent_dispatch_witness :
  handleEvent sample_invoke 10 (set_heap {[10 := hup_channel]} sample_loop) =
    (_ ← upd 10 (set_eventHandling true);
     _ ← for_each [3%nat; 2%nat] sample_invoke;
     upd 10 (set_eventHandling false)) (set_heap {[10 := hup_channel]} sample_loop).
Proof.
  apply (handleEvent_dispatch sample_invoke 10) with (c := hup_channel); [|reflexivity].
  intros cb s c E. exists (set_heap (<[10 := set_events kNoneEvent c]> (heap s)) s),
    (set_events kNoneEvent c).
  split; [exact (upd_ok 10 _ s c E)|]. split; [apply lookup_insert_eq|].
  repeat split; reflexivity.
Defined.
