(* ===== verification/Logging.v ===== *)
(** Logging: [base/Logging.h], [base/Logging.cpp].

    A [LogStream] is its buffer; its operations run in the monad over that string.
    The logger runs over the globals of the file and of the calling thread.  The
    conversions done by the C library ([localtime_r], [strerror], [%p] and
    [std::to_string] of floating-point numbers) are parameters. *)

From Stdlib Require Import ZArith Lia Ascii.
From stdpp Require Import pretty.
From S2P Require Import Prelude Timestamp.

Local Open Scope string_scope.
Local Open Scope Z_scope.

(** ** LogStream *)

Abbreviation LogStream := string.

(** The integer types [operator<<] is overloaded for. *)
Inductive int_type := Short | UShort | Int | UInt | Long | ULong | LongLong | ULongLong.
Definition is_signed (ty : int_type) : bool := match ty with Short | Int | Long | LongLong => true | _ => false end.
Definition width (ty : int_type) : Z := match ty with Short | UShort => 16 | Int | UInt => 32 | _ => 64 end.
Definition min_value (ty : int_type) : Z := if is_signed ty then - 2 ^ (width ty - 1) else 0.
Definition max_value (ty : int_type) : Z := if is_signed ty then 2 ^ (width ty - 1) - 1 else 2 ^ width ty - 1.

Definition kMaxNumericSize : Z := 48.

Definition append (t : string) : ST LogStream unit := modify (fun b => b +:+ t).

(** [0123456789[d]], where [d] is out of range for a negative remainder. *)
Definition digit (d : Z) : option ascii :=
  if (0 <=? d) && (d <? 10) then String.get (Z.to_nat d) "0123456789" else None.

(** The [do] loop: [p] is the position in [buf], [acc] the characters from there. *)
Fixpoint digits (fuel : nat) (v p : Z) (acc : string) : ST LogStream (Z * string) :=
  match fuel with
  | O => mret (p, acc)
  | S fuel' =>
      c ← deref (digit (Z.rem v 10));
      if p <=? 0 then fail UndefinedBehaviour else
      let acc := String c acc in
      let v := Z.quot v 10 in
      if 0 <? v then digits fuel' v (p - 1) acc else mret (p - 1, acc)
  end.

(** [v = -v] in the type of [v]: overflows for the smallest [int] and [long], and
    comes back unchanged for the smallest [short], which is promoted to [int]. *)
Definition negate (ty : int_type) (v : Z) : option Z :=
  if v =? min_value ty then (match ty with Short => Some v | _ => None end) else Some (- v).

(** At most 20 digits: the fuel of [digits]. *)
Definition formatInteger (ty : int_type) (v : Z) : ST LogStream unit :=
  let neg := is_signed ty && (v <? 0) in
  v ← deref (if neg then negate ty v else Some v);
  r ← digits 20 v kMaxNumericSize "";
  let '(p, acc) := r in
  if neg then (if p <=? 0 then fail UndefinedBehaviour else append (String "-" acc)) else append acc.

Section Logging.
Context (real : Type) (to_string : real -> string) (format_pointer : Z -> string).

(** What a log statement inserts, by the overload chosen. *)
Inductive piece :=
  | PBool (v : bool)
  | PInteger (ty : int_type) (v : Z)
  | PReal (v : real)
  | PCString (v : option string)
  | PString (v : string)
  | PPointer (v : Z).

Definition insert_bool (v : bool) : ST LogStream unit := append (if v then "1" else "0").
Definition insert_real (v : real) : ST LogStream unit := append (to_string v).
Definition insert_cstring (v : option string) : ST LogStream unit := append (match v with Some t => t | None => "(null)" end).
Definition insert_string (v : string) : ST LogStream unit := append v.
Definition insert_pointer (v : Z) : ST LogStream unit := append (format_pointer v).

Definition insert (p : piece) : ST LogStream unit :=
  match p with
  | PBool v => insert_bool v
  | PInteger ty v => formatInteger ty v
  | PReal v => insert_real v
  | PCString v => insert_cstring v
  | PString v => insert_string v
  | PPointer v => insert_pointer v
  end.

(** A character has no overload of its own: it is promoted to [int]. *)
Definition insert_char (c : ascii) : ST LogStream unit := insert (PInteger Int (Z.of_nat (Ascii.nat_of_ascii c))).

(** ** Logger *)

Inductive LogLevel := TRACE | DEBUG | INFO | WARN | ERROR | FATAL.
Definition level_num (l : LogLevel) : Z :=
  match l with TRACE => 0 | DEBUG => 1 | INFO => 2 | WARN => 3 | ERROR => 4 | FATAL => 5 end.
Definition LogLevelName (l : LogLevel) : string :=
  match l with
  | TRACE => "TRACE " | DEBUG => "DEBUG " | INFO => "INFO  " | WARN => "WARN  " | ERROR => "ERROR " | FATAL => "FATAL "
  end.

Record tm := mkTm { tm_year : Z; tm_mon : Z; tm_mday : Z; tm_hour : Z; tm_min : Z; tm_sec : Z }.
Context (localtime : Z -> tm) (strerror : Z -> string) `{Build}.

(** The globals, the thread-locals and what was written and flushed so far.  An
    output or flush function is a number, 0 the default one, [None] an empty
    function. *)
Record process := mkProcess {
  g_logLevel : LogLevel;
  g_output : option nat;
  g_flush : option nat;
  t_time : string;
  t_lastSecond : Z;
  written : list (nat * string);
  flushed : list nat;
}.
Definition start : process := mkProcess INFO (Some 0%nat) (Some 0%nat) "" 0 [] [].
Definition setLogLevel (l : LogLevel) (s : process) : process :=
  mkProcess l (g_output s) (g_flush s) (t_time s) (t_lastSecond s) (written s) (flushed s).
Definition setOutput (f : option nat) (s : process) : process :=
  mkProcess (g_logLevel s) f (g_flush s) (t_time s) (t_lastSecond s) (written s) (flushed s).
Definition setFlush (f : option nat) (s : process) : process :=
  mkProcess (g_logLevel s) (g_output s) f (t_time s) (t_lastSecond s) (written s) (flushed s).
Definition set_time (t : string) (sec : Z) (s : process) : process :=
  mkProcess (g_logLevel s) (g_output s) (g_flush s) t sec (written s) (flushed s).
Definition add_written (f : nat) (t : string) (s : process) : process :=
  mkProcess (g_logLevel s) (g_output s) (g_flush s) (t_time s) (t_lastSecond s) ((written s ++ [(f, t)])%list) (flushed s).
Definition add_flushed (f : nat) (s : process) : process :=
  mkProcess (g_logLevel s) (g_output s) (g_flush s) (t_time s) (t_lastSecond s) (written s) ((flushed s ++ [f])%list).

Record Impl := mkImpl {
  time_ : Z;
  stream_ : LogStream;
  level_ : LogLevel;
  line_ : Z;
  fullname_ : string;
  basename_ : string;
}.

(** [s << T(str, len)]: [std::string::append(str, pos)] takes the rest of [str]
    from position [len] on. *)
Definition insert_T (str : string) (len : nat) : ST LogStream unit :=
  if bool_decide (String.length str < len)%nat then fail OutOfRange else append (String.substring len (String.length str - len) str).

(** [%Nd] and [%0Nd]. *)
Fixpoint pad (n : nat) (c : ascii) (t : string) : string := match n with O => t | S n' => String c (pad n' c t) end.
Definition format_d (zero : bool) (n : nat) (v : Z) : string :=
  let sign := if v <? 0 then "-" else "" in
  let body := pretty (Z.abs_N v) in
  let fill := (n - String.length sign - String.length body)%nat in
  if zero then sign +:+ pad fill "0" body else pad fill " " (sign +:+ body).
(** [snprintf] into [n] bytes. *)
Definition snprintf (n : nat) (t : string) : string := String.substring 0 (n - 1) t.

Definition time_text (tm_time : tm) : string :=
  format_d false 4 (tm_year tm_time + 1900) +:+ format_d true 2 (tm_mon tm_time + 1) +:+ format_d true 2 (tm_mday tm_time) +:+ " " +:+
  format_d true 2 (tm_hour tm_time) +:+ ":" +:+ format_d true 2 (tm_min tm_time) +:+ ":" +:+ format_d true 2 (tm_sec tm_time).

(** An operation on the stream of a logger. *)
Definition on_stream (op : ST LogStream unit) (i : Impl) : ST process Impl := fun s =>
  match op (stream_ i) with
  | Done (_, b) => Done (mkImpl (time_ i) b (level_ i) (line_ i) (fullname_ i) (basename_ i), s)
  | Fail f => Fail f
  end.

Definition formatTime (i : Impl) : ST process Impl :=
  let seconds := Z.quot (time_ i) kMicroSecondsPerSecond in
  let microseconds := Z.rem (time_ i) kMicroSecondsPerSecond in
  s ← get;
  _ ← when (negb (seconds =? t_lastSecond s)) (
        let text := time_text (localtime seconds) in
        _ ← modify (set_time (snprintf 64 text) seconds);
        cassert (Z.of_nat (String.length text) =? 17));
  let buf := snprintf 32 ("." +:+ format_d true 6 microseconds +:+ " ") in
  s ← get;
  on_stream (_ ← insert_T (t_time s) 17; insert_T buf 8) i.

(** What follows the last slash. *)
Fixpoint after_slash (t : string) : option string :=
  match t with
  | EmptyString => None
  | String c t' => match after_slash t' with Some r => Some r | None => if Ascii.eqb c "/" then Some t' else None end
  end.
Definition basename (file : string) : string := default file (after_slash file).

(** The constructor of [Impl]; [now] is what [Timestamp::now] answers. *)
Definition new_impl (now : Z) (level : LogLevel) (savedErrno : Z) (file : string) (line : Z) : ST process Impl :=
  i ← formatTime (mkImpl now "" level line file "");
  i ← on_stream (insert_T (LogLevelName level) 6) i;
  let i := mkImpl (time_ i) (stream_ i) (level_ i) (line_ i) (fullname_ i) (basename (fullname_ i)) in
  if negb (savedErrno =? 0) then
    on_stream (_ ← insert (PCString (Some (strerror savedErrno))); _ ← insert (PCString (Some " (errno="));
               _ ← insert (PInteger Int savedErrno); insert (PCString (Some ") "))) i
  else mret i.

Definition finish (i : Impl) : ST process Impl :=
  on_stream (_ ← insert (PCString (Some " - ")); _ ← insert (PCString (Some (basename_ i))); _ ← insert_char ":";
             _ ← insert (PInteger Int (line_ i)); insert_char (Ascii.ascii_of_nat 10)) i.

(** The two constructors of [Logger]. *)
Definition new_logger (now : Z) (file : string) (line : Z) (level : LogLevel) : ST process Impl := new_impl now level 0 file line.
Definition new_logger_func (now : Z) (file : string) (line : Z) (level : LogLevel) (func : string) : ST process Impl :=
  i ← new_impl now level 0 file line;
  on_stream (_ ← insert (PCString (Some func)); insert_char " ") i.

(** The destructor. *)
Definition destroy (i : Impl) : ST process unit :=
  i ← finish i;
  s ← get;
  match g_output s with
  | None => fail BadFunctionCall
  | Some f =>
      _ ← modify (add_written f (stream_ i));
      match level_ i with
      | FATAL => match g_flush s with None => fail BadFunctionCall | Some g => _ ← modify (add_flushed g); fail Aborted end
      | _ => mret tt
      end
  end.

Fixpoint insert_all (l : list piece) : ST LogStream unit :=
  match l with [] => mret tt | p :: l' => _ ← insert p; insert_all l' end.

(** A log statement [LOG_X << ...]: nothing is evaluated below the level; LOG_WARN
    and up do not look at it. *)
Definition log (now : Z) (level : LogLevel) (file : string) (line : Z) (func : string) (l : list piece) : ST process unit :=
  s ← get;
  let enabled := level_num (g_logLevel s) <=? level_num level in
  match level with
  | TRACE | DEBUG => when enabled (i ← new_logger_func now file line level func; i ← on_stream (insert_all l) i; destroy i)
  | INFO => when enabled (i ← new_logger now file line level; i ← on_stream (insert_all l) i; destroy i)
  | WARN | ERROR | FATAL => i ← new_logger now file line level; i ← on_stream (insert_all l) i; destroy i
  end.
End Logging.

(** ** Numbers: the digits of [formatInteger] are the decimal representation *)

Lemma str_app_assoc (a b c : string) : (a +:+ b) +:+ c = a +:+ (b +:+ c).
Proof. induction a as [|x a IH]; [reflexivity|]. exact (f_equal (String x) IH). Qed.

Lemma str_app_nil (a : string) : a +:+ "" = a.
Proof. induction a as [|x a IH]; [reflexivity|]. exact (f_equal (String x) IH). Qed.

Lemma digit_char d : 0 <= d < 10 -> digit d = Some (pretty_N_char (Z.to_N d)).
Proof.
  intros Hd. assert (H : d = 0 \/ d = 1 \/ d = 2 \/ d = 3 \/ d = 4 \/ d = 5 \/ d = 6 \/ d = 7 \/ d = 8 \/ d = 9) by lia.
  now repeat destruct H as [->|H]; [..|subst d].
Qed.

Lemma digits_pretty fuel v p acc b : 0 < v < 10 ^ Z.of_nat fuel -> Z.of_nat fuel <= p ->
  exists q, digits fuel v p acc b = Done ((q, pretty_N_go (Z.to_N v) acc), b) /\ p - Z.of_nat fuel <= q.
Proof.
  revert v p acc. induction fuel as [|fuel IH]; intros v p acc Hv Hp; [cbn in Hv; lia|].
  cbn [digits]. rewrite Z.rem_mod_nonneg, Z.quot_div_nonneg by lia.
  pose proof (Z.mod_pos_bound v 10 ltac:(lia)) as Hm. rewrite (digit_char _ Hm). cbn [deref]. rewrite bind_ret_l.
  rewrite (proj2 (Z.leb_gt p 0)) by lia. rewrite (pretty_N_go_step (Z.to_N v) acc) by lia.
  replace (Z.to_N v `mod` 10)%N with (Z.to_N (v mod 10)) by (rewrite Z2N.inj_mod by lia; reflexivity).
  replace (Z.to_N v `div` 10)%N with (Z.to_N (v / 10)) by (rewrite Z2N.inj_div by lia; reflexivity).
  destruct (Z.ltb_spec 0 (v / 10)) as [Hlt|Hge].
  - destruct (IH (v / 10) (p - 1) (String (pretty_N_char (Z.to_N (v mod 10))) acc)) as (q & E & Hq).
    + split; [lia|]. apply Z.div_lt_upper_bound; [lia|]. replace (Z.of_nat (S fuel)) with (Z.of_nat fuel + 1) in Hv by lia.
      rewrite Z.pow_add_r in Hv by lia. lia.
    + lia.
    + exists q. split; [exact E|lia].
  - assert (E0 : v / 10 = 0) by (apply Z.le_antisymm; [exact Hge|apply Z.div_pos; lia]). rewrite E0, pretty_N_go_0.
    exists (p - 1). split; [reflexivity|lia].
Qed.

Lemma digits_decimal v acc b : 0 <= v < 10 ^ 20 ->
  exists q, digits 20 v kMaxNumericSize acc b = Done ((q, pretty (Z.to_N v) +:+ acc), b) /\ 0 < q.
Proof.
  intros Hv. assert (Hgo : forall x t, pretty_N_go x t = pretty_N_go x "" +:+ t).
  { intros x. induction (N.lt_wf_0 x) as [x _ IH]. intros t. destruct (decide (x = 0)%N) as [->|Hx]; [now rewrite !pretty_N_go_0|].
    rewrite (pretty_N_go_step x t), (pretty_N_go_step x "") by lia. assert (x `div` 10 < x)%N as Hlt by (apply N.div_lt; lia).
    rewrite (IH _ Hlt), (IH _ Hlt (String _ "")). rewrite str_app_assoc. reflexivity. }
  destruct (Z.eq_dec v 0) as [->|Hne].
  - exists 47. split; [reflexivity|lia].
  - destruct (digits_pretty 20 v kMaxNumericSize acc b) as (q & E & Hq); [lia|unfold kMaxNumericSize; lia|]. exists q. split; [|unfold kMaxNumericSize in Hq; lia].
    rewrite E, Hgo. unfold pretty, pretty_N. now rewrite decide_False by lia.
Qed.

Definition in_range (ty : int_type) (v : Z) : Prop := min_value ty <= v <= max_value ty.

Lemma range_20 ty v : in_range ty v -> Z.abs v < 10 ^ 20.
Proof. unfold in_range, min_value, max_value. destruct ty; cbn; lia. Qed.

(** every overload of [operator<<] for integers appends the decimal
    representation, except for the smallest value of a signed type, where the
    negation overflows or the digit lookup runs out of the string. *)
Theorem formatInteger_decimal ty v b : in_range ty v ->
  formatInteger ty v b = if is_signed ty && (v =? min_value ty) then Fail UndefinedBehaviour else Done (tt, b +:+ pretty v).
Proof.
  intros Hr. pose proof (range_20 ty v Hr) as H20. unfold formatInteger. destruct (Z.eqb_spec v (min_value ty)) as [->|Hne].
  - destruct ty; cbn [is_signed andb]; [reflexivity| |reflexivity| |reflexivity| |reflexivity|]; reflexivity.
  - rewrite andb_false_r. destruct (Z.ltb_spec v 0) as [Hneg|Hpos].
    + assert (Es : is_signed ty = true) by (destruct (is_signed ty) eqn:E; [done|]; unfold in_range, min_value in Hr; rewrite E in Hr; lia).
      rewrite Es. cbn [andb]. unfold negate. rewrite (proj2 (Z.eqb_neq _ _) Hne). cbn [deref]. rewrite bind_ret_l.
      destruct (digits_decimal (- v) "" b ltac:(lia)) as (q & E & Hq). rewrite (bind_done _ _ _ _ _ E). rewrite (proj2 (Z.leb_gt q 0)) by lia.
      unfold append, modify. destruct v as [|v|v]; [lia|lia|]. rewrite str_app_nil. reflexivity.
    + rewrite andb_false_r. cbn [deref]. rewrite bind_ret_l. destruct (digits_decimal v "" b ltac:(lia)) as (q & E & Hq). rewrite (bind_done _ _ _ _ _ E).
      unfold append, modify. rewrite str_app_nil. destruct v; [reflexivity|reflexivity|lia].
Qed.

(** ** A log statement *)

Section LogLine.
Context (real : Type) (to_string : real -> string) (format_pointer : Z -> string) (localtime : Z -> tm) (strerror : Z -> string) `{Build}.

Abbreviation insert := (insert real to_string format_pointer).
Abbreviation insert_all := (insert_all real to_string format_pointer).
Abbreviation log := (log real to_string format_pointer localtime strerror).

(** The text of a piece; none where [formatInteger] is undefined. *)
Definition piece_text (p : piece real) : option string :=
  match p with
  | PBool _ v => Some (if v then "1" else "0")
  | PInteger _ ty v => if is_signed ty && (v =? min_value ty) then None else Some (pretty v)
  | PReal _ v => Some (to_string v)
  | PCString _ v => Some (default "(null)" v)
  | PString _ v => Some v
  | PPointer _ v => Some (format_pointer v)
  end.
Definition piece_ok (p : piece real) : Prop := match p with PInteger _ ty v => in_range ty v | _ => True end.
Fixpoint text_of (l : list (piece real)) : option string :=
  match l with [] => Some "" | p :: l' => t ← piece_text p; t' ← text_of l'; Some (t +:+ t') end.

Lemma insert_text p b : piece_ok p -> insert p b = match piece_text p with Some t => Done (tt, b +:+ t) | None => Fail UndefinedBehaviour end.
Proof.
  destruct p as [v|ty v|v|[v|]|v|v]; cbn; intros Hp; try reflexivity. rewrite (formatInteger_decimal ty v b Hp). now destruct (_ && _).
Qed.

Lemma insert_all_text l b t : Forall piece_ok l -> text_of l = Some t -> insert_all l b = Done (tt, b +:+ t).
Proof.
  intros Hl. revert b t. induction Hl as [|p l Hp _ IH]; intros b t Ht; cbn [Logging.insert_all text_of] in *.
  - injection Ht as <-. now rewrite str_app_nil.
  - destruct (piece_text p) as [t1|] eqn:E1; [|discriminate]. destruct (text_of l) as [t2|] eqn:E2; [|discriminate]. cbn in Ht. injection Ht as <-.
    assert (Ep : insert p b = Done (tt, b +:+ t1)) by now rewrite (insert_text p b Hp), E1.
    rewrite (bind_done _ _ _ _ _ Ep), (IH (b +:+ t1) t2 eq_refl). now rewrite str_app_assoc.
Qed.

(** *** The header that is never there *)

Lemma substring_none n (t : string) : String.substring n 0 t = "".
Proof. revert n. induction t as [|c t IH]; intros [|n]; cbn; auto. Qed.

Lemma substring_all n (t : string) : (String.length t <= n)%nat -> String.substring 0 n t = t.
Proof. revert n. induction t as [|c t IH]; intros [|n] Hn; cbn in *; try reflexivity; [lia|]. now rewrite IH by lia. Qed.

Lemma insert_T_empty t b : insert_T t (String.length t) b = Done (tt, b).
Proof.
  unfold insert_T. rewrite bool_decide_false by lia. rewrite Nat.sub_diag, substring_none. unfold append, modify. now rewrite str_app_nil.
Qed.

Lemma insert_T_exact t n b : String.length t = n -> insert_T t n b = Done (tt, b).
Proof. intros <-. apply insert_T_empty. Qed.

Lemma length_pad n c t : String.length (pad n c t) = (n + String.length t)%nat.
Proof. induction n as [|n IH]; cbn; congruence. Qed.

Lemma length_app_str a b : String.length (a +:+ b) = (String.length a + String.length b)%nat.
Proof. induction a as [|c a IH]; [reflexivity|]. exact (f_equal S IH). Qed.

Lemma length_pretty_go k x t : (x < 10 ^ N.of_nat k)%N -> (String.length (pretty_N_go x t) <= k + String.length t)%nat.
Proof.
  revert x t. induction k as [|k IH]; intros x t Hx.
  - assert (x = 0)%N as -> by (cbn in Hx; lia). now rewrite pretty_N_go_0.
  - destruct (decide (x = 0)%N) as [->|Hne]; [rewrite pretty_N_go_0; lia|]. rewrite pretty_N_go_step by lia.
    etransitivity; [apply IH|cbn; lia]. apply N.Div0.div_lt_upper_bound. replace (N.of_nat (S k)) with (N.of_nat k + 1)%N in Hx by lia.
    rewrite N.pow_add_r in Hx. lia.
Qed.

Lemma length_micros v : 0 <= v < 1000000 -> String.length (format_d true 6 v) = 6%nat.
Proof.
  intros Hv. unfold format_d. rewrite (proj2 (Z.ltb_ge v 0)) by lia. cbn [String.length]. rewrite length_app_str, length_pad. cbn [String.length].
  assert (Hl : (String.length (pretty (Z.abs_N v)) <= 6)%nat); [|lia].
  unfold pretty, pretty_N. case_decide; [cbn; lia|]. etransitivity; [apply (length_pretty_go 6); cbn; lia|cbn; lia].
Qed.

(** Timestamps after the epoch, four-digit years, a time text from this thread. *)
Definition time_ok (now : Z) (s : process) : Prop :=
  0 <= now /\
  if Z.quot now kMicroSecondsPerSecond =? t_lastSecond s then String.length (t_time s) = 17%nat
  else String.length (time_text (localtime (Z.quot now kMicroSecondsPerSecond))) = 17%nat.

(** Nothing but the remembered time differs. *)
Definition same_sinks (s s' : process) : Prop :=
  g_logLevel s' = g_logLevel s /\ g_output s' = g_output s /\ g_flush s' = g_flush s /\ written s' = written s /\ flushed s' = flushed s.

Lemma on_stream_done op i s b : op (stream_ i) = Done (tt, b) ->
  on_stream op i s = Done (mkImpl (time_ i) b (level_ i) (line_ i) (fullname_ i) (basename_ i), s).
Proof. intros E. unfold on_stream. now rewrite E. Qed.

Lemma formatTime_empty i s : time_ok (time_ i) s -> exists s', formatTime localtime i s = Done (i, s') /\ same_sinks s s'.
Proof.
  intros [H0 Ht]. unfold formatTime. set (sec := Z.quot (time_ i) kMicroSecondsPerSecond) in *. set (us := Z.rem (time_ i) kMicroSecondsPerSecond).
  assert (Hus : 0 <= us < 1000000) by (unfold us, kMicroSecondsPerSecond; apply Z.rem_bound_pos; lia).
  assert (Ebuf : String.length (snprintf 32 ("." +:+ format_d true 6 us +:+ " ")) = 8%nat).
  { unfold snprintf. rewrite substring_all; rewrite !length_app_str, length_micros by exact Hus; cbn; lia. }
  rewrite bind_get. destruct (Z.eqb_spec sec (t_lastSecond s)) as [E|E]; cbn [negb when].
  - exists s. split; [|repeat split]. rewrite bind_ret_l, bind_get. rewrite (on_stream_done _ i s (stream_ i)); [now destruct i|].
    rewrite (bind_done _ _ _ _ _ (insert_T_exact (t_time s) 17 (stream_ i) Ht)). exact (insert_T_exact _ 8 _ Ebuf).
  - assert (Ec : (Z.of_nat (String.length (time_text (localtime sec))) =? 17) = true) by (rewrite Ht; reflexivity).
    exists (set_time (snprintf 64 (time_text (localtime sec))) sec s). split; [|repeat split]. rewrite bind_assoc, bind_modify.
    rewrite (bind_done _ _ _ _ _ (cassert_true _ _ Ec)), bind_get.
    rewrite (on_stream_done _ i _ (stream_ i)); [now destruct i|]. cbn [set_time t_time].
    assert (E17 : String.length (snprintf 64 (time_text (localtime sec))) = 17%nat) by (unfold snprintf; rewrite substring_all; [exact Ht|rewrite Ht; lia]).
    rewrite (bind_done _ _ _ _ _ (insert_T_exact _ 17 (stream_ i) E17)). exact (insert_T_exact _ 8 _ Ebuf).
Qed.

Lemma new_impl_empty now level file line s : time_ok now s ->
  exists s', new_impl real to_string format_pointer localtime strerror now level 0 file line s = Done (mkImpl now "" level line file (basename file), s') /\ same_sinks s s'.
Proof.
  intros Ht. unfold new_impl. destruct (formatTime_empty (mkImpl now "" level line file "") s Ht) as (s' & E & Hs). exists s'. split; [|exact Hs].
  rewrite (bind_done _ _ _ _ _ E). assert (Ei : insert_T (LogLevelName level) 6 "" = Done (tt, "")) by now destruct level.
  rewrite (bind_done _ _ _ _ _ (on_stream_done _ (mkImpl now "" level line file "") s' _ Ei)). reflexivity.
Qed.

Lemma insert_char_text c b : insert_char real to_string format_pointer c b = Done (tt, b +:+ pretty (Z.of_nat (Ascii.nat_of_ascii c))).
Proof.
  unfold insert_char. assert (Hr : in_range Int (Z.of_nat (Ascii.nat_of_ascii c))).
  { pose proof (Ascii.nat_ascii_bounded c). unfold in_range, min_value, max_value. cbn. lia. }
  rewrite (insert_text (PInteger real Int _) b Hr). cbn [piece_text]. rewrite (proj2 (Z.eqb_neq _ (min_value Int))) by (cbn; lia). now rewrite andb_false_r.
Qed.

(** The end of a line: the number 58 for the colon, 10 for the line break. *)
Definition ending (file : string) (line : Z) : string := " - " +:+ basename file +:+ "58" +:+ pretty line +:+ "10".

Lemma finish_text i s : in_range Int (line_ i) -> line_ i <> min_value Int -> basename_ i = basename (fullname_ i) ->
  finish real to_string format_pointer i s =
    Done (mkImpl (time_ i) (stream_ i +:+ ending (fullname_ i) (line_ i)) (level_ i) (line_ i) (fullname_ i) (basename_ i), s).
Proof.
  intros Hr Hne Eb. unfold finish. apply on_stream_done. unfold Logging.insert, insert_cstring, append. rewrite !bind_modify.
  rewrite (bind_done _ _ _ _ _ (insert_char_text ":" _)).
  assert (El : forall b, formatInteger Int (line_ i) b = Done (tt, b +:+ pretty (line_ i))).
  { intros b. rewrite (formatInteger_decimal Int _ b Hr), (proj2 (Z.eqb_neq _ _) Hne), andb_false_r. reflexivity. }
  rewrite (bind_done _ _ _ _ _ (El _)), insert_char_text, Eb. unfold ending. rewrite !str_app_assoc. reflexivity.
Qed.

(** What [LOG_TRACE] and [LOG_DEBUG] put in front. *)
Definition beginning (level : LogLevel) (func : string) : string := match level with TRACE | DEBUG => func +:+ "32" | _ => "" end.

Definition checks_level (level : LogLevel) : bool := match level with TRACE | DEBUG | INFO => true | _ => false end.

Lemma new_logger_text now level file line func s : time_ok now s ->
  exists s', (match level with TRACE | DEBUG => new_logger_func real to_string format_pointer localtime strerror now file line level func
              | _ => new_logger real to_string format_pointer localtime strerror now file line level end) s =
    Done (mkImpl now (beginning level func) level line file (basename file), s') /\ same_sinks s s'.
Proof.
  intros Ht. destruct (new_impl_empty now level file line s Ht) as (s' & E & Hs). exists s'. split; [|exact Hs].
  destruct level; unfold new_logger_func, new_logger; rewrite ?(bind_done _ _ _ _ _ E); try exact E.
  all: apply on_stream_done; unfold Logging.insert, insert_cstring, append; rewrite bind_modify, insert_char_text; reflexivity.
Qed.

(** a log statement below the level does nothing; any other one writes, in one
    call of the output function, the inserted pieces followed by a dash, the base
    name of the file, the number 58, the line and the number 10 - the time, the
    level and the line break the code means to write are not there -, and a FATAL
    one then flushes and aborts. *)
Theorem log_writes now level file line func l t s f g :
  time_ok now s -> Forall piece_ok l -> text_of l = Some t -> in_range Int line -> line <> min_value Int ->
  g_output s = Some f -> g_flush s = Some g ->
  if checks_level level && (level_num level <? level_num (g_logLevel s)) then log now level file line func l s = Done (tt, s)
  else match level with
  | FATAL => log now level file line func l s = Fail Aborted
  | _ => exists s', log now level file line func l s = Done (tt, s') /\
      written s' = (written s ++ [(f, beginning level func +:+ t +:+ ending file line)])%list /\ flushed s' = flushed s
  end.
Proof.
  intros Htime Hok Ht Hr Hne Hf Hg. destruct (new_logger_text now level file line func s Htime) as (s1 & E1 & (_ & Eo & Ef & Ew & Efl)).
  set (i1 := mkImpl now (beginning level func) level line file (basename file)) in *.
  set (i2 := mkImpl now (beginning level func +:+ t) level line file (basename file)).
  assert (E2 : on_stream (insert_all l) i1 s1 = Done (i2, s1)) by (apply on_stream_done; exact (insert_all_text l _ t Hok Ht)).
  pose proof (finish_text i2 s1 Hr Hne eq_refl) as E3. set (i3 := mkImpl _ _ _ _ _ _) in E3.
  assert (E4 : destroy real to_string format_pointer i2 s1 = match level with FATAL => Fail Aborted | _ => Done (tt, add_written f (stream_ i3) s1) end).
  { unfold destroy. rewrite (bind_done _ _ _ _ _ E3), bind_get, Eo, Hf, bind_modify. destruct level; cbn [level_ i3 i2]; try reflexivity.
    rewrite Ef, Hg. reflexivity. }
  assert (Hrun : forall m, m s = Done (i1, s1) ->
    (i ← m; i ← on_stream (insert_all l) i; destroy real to_string format_pointer i) s = destroy real to_string format_pointer i2 s1).
  { intros m Em. now rewrite (bind_done _ _ _ _ _ Em), (bind_done _ _ _ _ _ E2). }
  assert (Hw : written (add_written f (stream_ i3) s1) = (written s ++ [(f, beginning level func +:+ t +:+ ending file line)])%list).
  { cbn. rewrite Ew, str_app_assoc. reflexivity. }
  unfold log, Logging.log. rewrite bind_get. destruct level; cbn [checks_level andb level_num] in *; rewrite ?Z.ltb_antisym; cbn [negb].
  all: try (destruct (_ <=? _); cbn [negb when]; [|reflexivity]).
  all: try (exists (add_written f (stream_ i3) s1); split; [rewrite (Hrun _ E1); exact E4|split; [exact Hw|exact Efl]]).
  rewrite (Hrun _ E1). exact E4.
Qed.
End LogLine.

(** ** Runs *)

Module Demo.
Definition some_day (_ : Z) : tm := mkTm 124 1 29 12 30 5.
Definition hi : list (piece unit) := [PCString unit (Some "hi "); PInteger unit Int (-7)].
Definition log_demo (now : Z) : ST process unit :=
  @log unit (fun _ => "1.000000") (fun _ => "(nil)") some_day (fun _ => "Success") debug_build now INFO "/src/net/a.cc" 42 "f" hi.

(** The line ends in "58", the line number and "10"; there is no time and no level. *)
Example line_text : match log_demo 1700000000123456 start with Done (_, s) => written s = [(0%nat, "hi -7 - a.cc584210")] | Fail _ => False end.
Proof. vm_compute. reflexivity. Qed.

(** In the first second of the epoch a new thread has no time text yet. *)
Example first_second : log_demo 5 start = Fail OutOfRange.
Proof. vm_compute. reflexivity. Qed.

Lemma formatInteger_decimal_witness :
  formatInteger Short (-32768) "x" = Fail UndefinedBehaviour /\ formatInteger Int (-45) "x" = Done (tt, "x" +:+ pretty (-45)).
Proof.
  split.
  - apply (formatInteger_decimal Short (-32768) "x"). vm_compute. split; discriminate.
  - apply (formatInteger_decimal Int (-45) "x"). vm_compute. split; discriminate.
Defined.

Lemma log_writes_witness : exists s', log_demo 1700000000123456 start = Done (tt, s') /\
  written s' = [(0%nat, "hi -7" +:+ ending "/src/net/a.cc" 42)] /\ flushed s' = [].
Proof.
  refine (@log_writes unit (fun _ => "1.000000") (fun _ => "(nil)") some_day (fun _ => "Success") debug_build
    1700000000123456 INFO "/src/net/a.cc" 42 "f" hi "hi -7" start 0 0 _ _ _ _ _ _ _).
  - split; [lia|]. vm_compute. reflexivity.
  - repeat constructor; vm_compute; discriminate.
  - vm_compute. reflexivity.
  - vm_compute. split; discriminate.
  - vm_compute. discriminate.
  - reflexivity.
  - reflexivity.
Defined.
End Demo.
