(* ===== verification/TimerQueue.v ===== *)
(** TimerQueue: [net/Timer.h], [net/Timer.cpp], [net/Timerld.h],
    [net/TimerQueue.h] and [net/TimerQueue.cpp].

    Timers are heap objects named by their address.  [timers_] is the
    [std::set<pair<Timestamp, Timer*>>], kept as the list of its elements in the
    set's order; [activeTimers_] and [cancelingTimers_] are finite sets of
    (address, sequence) pairs.  The wall clock, the allocator and the effect of
    user callbacks are parameters. *)

From Stdlib Require Import ZArith Lia.
From S2P Require Import Prelude Timestamp.

Local Open Scope Z_scope.

Definition ptr := Z.
Definition UINTPTR_MAX : Z := 18446744073709551615.

(** ** Timer *)

Record Timer (CB : Type) := mkTimer {
  callback_ : CB;
  expiration_ : Z;
  interval_ : double;
  repeat_ : bool;
  sequence_ : Z;
}.
Arguments mkTimer {CB}. Arguments callback_ {CB}. Arguments expiration_ {CB}.
Arguments interval_ {CB}. Arguments repeat_ {CB}. Arguments sequence_ {CB}.

(** [TimerId]: the address and the sequence number. *)
Definition TimerId : Type := ptr * Z.

(** The set order on [pair<Timestamp, Timer*>] and ordered-set operations. *)
Definition Entry : Type := Z * ptr.
Definition entry_lt (a b : Entry) : bool :=
  (fst a <? fst b) || (negb (fst b <? fst a) && (snd a <? snd b)).

Fixpoint set_insert (e : Entry) (l : list Entry) : list Entry :=
  match l with
  | [] => [e]
  | x :: l' => if entry_lt e x then e :: x :: l'
               else if entry_lt x e then x :: set_insert e l' else l
  end.

(** Erasing by key: the element that is not smaller and not greater. *)
Fixpoint set_erase (e : Entry) (l : list Entry) : list Entry :=
  match l with
  | [] => []
  | x :: l' => if entry_lt x e then x :: set_erase e l'
               else if entry_lt e x then l else l'
  end.

(** [begin() .. lower_bound(e)] and the rest. *)
Fixpoint lower_bound (e : Entry) (l : list Entry) : list Entry * list Entry :=
  match l with
  | [] => ([], [])
  | x :: l' => if entry_lt x e then let '(a, b) := lower_bound e l' in (x :: a, b) else ([], l)
  end.

(** ** The queue *)

Record tq_state (CB : Type) := mkTQ {
  theap : gmap ptr (Timer CB);
  timers_ : list Entry;
  activeTimers_ : gset (ptr * Z);
  callingExpiredTimers_ : bool;
  cancelingTimers_ : gset (ptr * Z);
  s_numCreated_ : Z;
  (* the last timerfd_settime not yet consumed by a read: expiration asked for
     and the (tv_sec, tv_nsec) given to the kernel *)
  armed : option (Z * (Z * Z));
  (* number of clock readings so far *)
  clock_reads : nat;
  (* callbacks run, oldest first *)
  fired : list CB;
}.
Arguments mkTQ {CB}. Arguments theap {CB}. Arguments timers_ {CB}. Arguments activeTimers_ {CB}.
Arguments callingExpiredTimers_ {CB}. Arguments cancelingTimers_ {CB}. Arguments s_numCreated_ {CB}.
Arguments armed {CB}. Arguments clock_reads {CB}. Arguments fired {CB}.

(** [new Timer]: an address that no live timer has, inside the address space;
    [None] when memory is exhausted and [std::bad_alloc] is thrown. *)
Class Allocator (CB : Type) := alloc : gmap ptr (Timer CB) -> option ptr.
Class AllocatorLaw (CB : Type) `{Allocator CB} :=
  alloc_fresh h p : alloc h = Some p -> h !! p = None /\ 0 < p < UINTPTR_MAX.

Section TimerQueue.
Context {CB : Type} `{Allocator CB}.
(* the n-th reading of the system clock, in microseconds *)
Context (clock : nat -> Z).
Abbreviation tq := (tq_state CB).
Implicit Types (s : tq) (p : ptr).

Definition set_theap (h : gmap ptr (Timer CB)) s : tq :=
  mkTQ h (timers_ s) (activeTimers_ s) (callingExpiredTimers_ s) (cancelingTimers_ s)
    (s_numCreated_ s) (armed s) (clock_reads s) (fired s).
Definition set_timers (l : list Entry) s : tq :=
  mkTQ (theap s) l (activeTimers_ s) (callingExpiredTimers_ s) (cancelingTimers_ s)
    (s_numCreated_ s) (armed s) (clock_reads s) (fired s).
Definition set_activeTimers (a : gset (ptr * Z)) s : tq :=
  mkTQ (theap s) (timers_ s) a (callingExpiredTimers_ s) (cancelingTimers_ s)
    (s_numCreated_ s) (armed s) (clock_reads s) (fired s).
Definition set_calling (b : bool) s : tq :=
  mkTQ (theap s) (timers_ s) (activeTimers_ s) b (cancelingTimers_ s)
    (s_numCreated_ s) (armed s) (clock_reads s) (fired s).
Definition set_canceling (c : gset (ptr * Z)) s : tq :=
  mkTQ (theap s) (timers_ s) (activeTimers_ s) (callingExpiredTimers_ s) c
    (s_numCreated_ s) (armed s) (clock_reads s) (fired s).
Definition set_numCreated (n : Z) s : tq :=
  mkTQ (theap s) (timers_ s) (activeTimers_ s) (callingExpiredTimers_ s) (cancelingTimers_ s)
    n (armed s) (clock_reads s) (fired s).
Definition set_armed (a : option (Z * (Z * Z))) s : tq :=
  mkTQ (theap s) (timers_ s) (activeTimers_ s) (callingExpiredTimers_ s) (cancelingTimers_ s)
    (s_numCreated_ s) a (clock_reads s) (fired s).
Definition set_clock_reads (n : nat) s : tq :=
  mkTQ (theap s) (timers_ s) (activeTimers_ s) (callingExpiredTimers_ s) (cancelingTimers_ s)
    (s_numCreated_ s) (armed s) n (fired s).
Definition set_fired (l : list CB) s : tq :=
  mkTQ (theap s) (timers_ s) (activeTimers_ s) (callingExpiredTimers_ s) (cancelingTimers_ s)
    (s_numCreated_ s) (armed s) (clock_reads s) l.

Definition timer p : ST tq (Timer CB) := s ← get; deref (theap s !! p).
Definition free p : ST tq unit := modify (fun s => set_theap (delete p (theap s)) s).

(** [Timestamp::now()]. *)
Definition now : ST tq Z :=
  s ← get; _ ← put (set_clock_reads (S (clock_reads s)) s); mret (clock (clock_reads s)).

(** [Timer::Timer]: the sequence number is the counter before the increment. *)
Definition newTimer (cb : CB) (when_ : Z) (interval : double) : ST tq ptr :=
  s ← get;
  match alloc (theap s) with
  | None => fail LengthError
  | Some p =>
      let t := mkTimer cb when_ interval (fgt interval (double_of_Z 0)) (s_numCreated_ s) in
      _ ← put (set_numCreated (s_numCreated_ s + 1) (set_theap (<[p := t]> (theap s)) s));
      mret p
  end.

(** [Timer::restart]; the argument [now] is not used. *)
Definition restart p (_now : Z) : ST tq unit :=
  t ← timer p;
  e ← (if repeat_ t then
         match addTime (expiration_ t) (interval_ t) with
         | Some e => mret e
         | None => fail UndefinedBehaviour
         end
       else mret invaild);
  modify (fun s => set_theap (<[p := mkTimer (callback_ t) e (interval_ t) (repeat_ t) (sequence_ t)]>
                                (theap s)) s).

(** [howMuchTimeFromNow]: at least 100 microseconds, as a timespec. *)
Definition howMuchTimeFromNow (when_ : Z) : ST tq (Z * Z) :=
  t ← now;
  let d := when_ - t in
  let microseconds := if d <? 100 then 100 else d in
  mret (Z.quot microseconds kMicroSecondsPerSecond,
        Z.rem microseconds kMicroSecondsPerSecond * 1000).

Definition resetTimerfd (expiration : Z) : ST tq unit :=
  ts ← howMuchTimeFromNow expiration;
  modify (set_armed (Some (expiration, ts))).

(** [readTimerfd]: the expiration is consumed. *)
Definition readTimerfd : ST tq unit := modify (set_armed None).

Definition insert_timer p : ST tq bool :=
  t ← timer p;
  s ← get;
  let when_ := expiration_ t in
  let is_change := match timers_ s with
                   | [] => true
                   | it :: _ => before when_ (fst it)
                   end in
  _ ← modify (set_timers (set_insert (when_, p) (timers_ s)));
  _ ← modify (set_activeTimers ({[(p, sequence_ t)]} ∪ activeTimers_ s));
  mret is_change.

Definition addTimerInLoop p : ST tq unit :=
  is_change ← insert_timer p;
  when is_change (t ← timer p; resetTimerfd (expiration_ t)).

Definition cancelInLoop (id : TimerId) : ST tq unit :=
  s ← get;
  if bool_decide (id ∈ activeTimers_ s) then
    t ← timer (fst id);
    _ ← modify (set_timers (set_erase (expiration_ t, fst id) (timers_ s)));
    _ ← modify (set_activeTimers (activeTimers_ s ∖ {[id]}));
    free (fst id)
  else if callingExpiredTimers_ s
  then modify (set_canceling ({[id]} ∪ cancelingTimers_ s))
  else mret tt.

(** The body of the loop of [getExpired]. *)
Definition erase_active (it : Entry) : ST tq unit :=
  tm ← timer (snd it);
  modify (fun s => set_activeTimers (activeTimers_ s ∖ {[(snd it, sequence_ tm)]}) s).

Definition getExpired (t : Z) : ST tq (list Entry) :=
  s ← get;
  let '(expired, rest) := lower_bound (t, UINTPTR_MAX) (timers_ s) in
  _ ← modify (set_timers rest);
  _ ← for_each expired erase_active;
  mret expired.

(** One round of the loop of [reset]. *)
Definition reset_one (t : Z) (cur : Entry) : ST tq unit :=
  tm ← timer (snd cur);
  s ← get;
  if repeat_ tm && negb (bool_decide ((snd cur, sequence_ tm) ∈ cancelingTimers_ s)) then
    _ ← restart (snd cur) t;
    _ ← insert_timer (snd cur);
    mret tt
  else free (snd cur).

Definition reset (expired : list Entry) (t : Z) : ST tq unit :=
  _ ← for_each expired (reset_one t);
  s ← get;
  nextExpire ← match timers_ s with
               | [] => mret invaild
               | it :: _ => tm ← timer (snd it); mret (expiration_ tm)
               end;
  when (valid nextExpire) (resetTimerfd nextExpire).

(** What a user callback may do to the queue from inside the loop thread. *)
Inductive action :=
  | AddTimer (cb : CB) (when_ : Z) (interval : double)
  | Cancel (id : TimerId).

(** [addTimer] and [cancel] on the loop thread, where [runInLoop] runs at once. *)
Definition addTimer (cb : CB) (when_ : Z) (interval : double) : ST tq TimerId :=
  p ← newTimer cb when_ interval;
  tm ← timer p;
  let seq := sequence_ tm in
  _ ← addTimerInLoop p;
  mret (p, seq).

Definition cancel (id : TimerId) : ST tq unit := cancelInLoop id.

Definition run_action (a : action) : ST tq unit :=
  match a with
  | AddTimer cb w i => _ ← addTimer cb w i; mret tt
  | Cancel id => cancel id
  end.

(* the queue operations each callback performs, given the state it sees *)
Context (behaviour : CB -> tq -> list action).

(** [Timer::run]. *)
Definition run_timer (it : Entry) : ST tq unit :=
  tm ← timer (snd it);
  s ← get;
  _ ← modify (fun s => set_fired (fired s ++ [callback_ tm]) s);
  for_each (behaviour (callback_ tm) s) run_action.

Definition handleRead : ST tq unit :=
  t ← now;
  _ ← readTimerfd;
  expired ← getExpired t;
  _ ← modify (set_calling true);
  _ ← modify (set_canceling ∅);
  _ ← for_each expired run_timer;
  _ ← modify (set_calling false);
  reset expired t.

(** The loop of [~TimerQueue]. *)
Definition delete_timers : ST tq unit :=
  s ← get; for_each (timers_ s) (fun timer => free (snd timer)).
End TimerQueue.

(** ** Ordered sets *)

Definition entry_ltP (a b : Entry) : Prop := entry_lt a b = true.

Lemma entry_lt_spec a b : entry_lt a b = true <-> fst a < fst b \/ fst a = fst b /\ snd a < snd b.
Proof. unfold entry_lt. lia. Qed.

Lemma entry_lt_trans a b c : entry_ltP a b -> entry_ltP b c -> entry_ltP a c.
Proof. unfold entry_ltP. rewrite !entry_lt_spec. lia. Qed.

Lemma entry_lt_irrefl a : ~ entry_ltP a a.
Proof. unfold entry_ltP. rewrite entry_lt_spec. lia. Qed.

Lemma entry_lt_total a b : entry_lt a b = false -> entry_lt b a = false -> a = b.
Proof.
  destruct a, b. rewrite <-!not_true_iff_false, !entry_lt_spec. cbn. intros. f_equal; lia.
Qed.

Abbreviation sorted := (StronglySorted entry_ltP).

Lemma elem_of_set_insert e l x : x ∈ set_insert e l <-> x = e \/ x ∈ l.
Proof.
  induction l as [|y l IH]; cbn; [rewrite elem_of_cons; tauto|].
  destruct (entry_lt e y) eqn:E1; [now rewrite elem_of_cons|].
  destruct (entry_lt y e) eqn:E2; [rewrite !elem_of_cons; tauto|].
  rewrite (entry_lt_total _ _ E1 E2), elem_of_cons. tauto.
Qed.

Lemma set_insert_sorted e l : sorted l -> sorted (set_insert e l).
Proof.
  induction 1 as [|y l Hs IH Hf]; cbn; [repeat constructor|].
  destruct (entry_lt e y) eqn:E1.
  { constructor; [now constructor|]. constructor; [exact E1|].
    eapply Forall_impl; [exact Hf|]. intros z. now apply entry_lt_trans. }
  destruct (entry_lt y e) eqn:E2; [|now constructor].
  constructor; [exact IH|]. rewrite Forall_forall in *. intros z [->|Hz]%elem_of_set_insert; auto.
Qed.

Lemma elem_of_set_erase e l x : sorted l -> x ∈ set_erase e l <-> x ∈ l /\ x <> e.
Proof.
  induction 1 as [|y l Hs IH Hf]; cbn; [split; [intros []%not_elem_of_nil|intros [[]%not_elem_of_nil _]]|].
  rewrite Forall_forall in Hf.
  destruct (entry_lt y e) eqn:E1.
  { rewrite !elem_of_cons, IH. split; [intros [->|[]]; split; auto|tauto].
    intros ->. now apply (entry_lt_irrefl e). }
  destruct (entry_lt e y) eqn:E2.
  - split; [|tauto]. intros Hx. split; [exact Hx|]. intros ->.
    apply elem_of_cons in Hx as [->|Hx]; [now apply (entry_lt_irrefl y)|].
    specialize (Hf _ Hx). unfold entry_ltP in Hf. congruence.
  - rewrite (entry_lt_total _ _ E1 E2), elem_of_cons. split.
    + intros Hx. split; [auto|]. intros ->. specialize (Hf _ Hx).
      rewrite (entry_lt_total _ _ E1 E2) in Hf. now apply (entry_lt_irrefl e).
    + intros [[->|] ?]; [congruence|auto].
Qed.

Lemma set_erase_sorted e l : sorted l -> sorted (set_erase e l).
Proof.
  induction 1 as [|y l Hs IH Hf]; cbn; [constructor|].
  destruct (entry_lt y e) eqn:E1; [|destruct (entry_lt e y); [now constructor|exact Hs]].
  constructor; [exact IH|]. rewrite Forall_forall in *.
  intros z [Hz _]%elem_of_set_erase; auto.
Qed.

Lemma lower_bound_spec e l a b : lower_bound e l = (a, b) ->
  l = a ++ b /\ Forall (fun x => entry_ltP x e) a /\
  (sorted l -> Forall (fun x => ~ entry_ltP x e) b).
Proof.
  revert a b; induction l as [|y l IH]; cbn; intros a b.
  { intros [= <- <-]. split_and!; auto. }
  destruct (entry_lt y e) eqn:E.
  - destruct (lower_bound e l) as [a' b'] eqn:El. intros [= <- <-].
    destruct (IH _ _ eq_refl) as (-> & Ha & Hb). split_and!; auto.
    intros Hs. apply Hb. now apply StronglySorted_inv in Hs.
  - intros [= <- <-]. split_and!; auto. intros [Hs Hf]%StronglySorted_inv.
    unfold entry_ltP in *. constructor; [congruence|].
    rewrite Forall_forall in *. intros x Hx Hlt.
    specialize (Hf x Hx). pose proof (entry_lt_trans _ _ _ Hf Hlt). unfold entry_ltP in *. congruence.
Qed.

Lemma sorted_app_l a b : sorted (a ++ b) -> sorted a.
Proof.
  induction a as [|x a IH]; [constructor|]. cbn. intros [Hs Hf]%StronglySorted_inv.
  constructor; [auto|]. now apply Forall_app in Hf as [].
Qed.

Lemma sorted_app_r a b : sorted (a ++ b) -> sorted b.
Proof. induction a as [|x a IH]; [auto|]. cbn. intros [Hs _]%StronglySorted_inv. auto. Qed.

Lemma sorted_app_disjoint a b x : sorted (a ++ b) -> x ∈ a -> x ∉ b.
Proof.
  induction a as [|y a IH]; [set_solver|]. cbn. intros [Hs Hf]%StronglySorted_inv.
  rewrite Forall_forall in Hf. intros [->|Hx]%elem_of_cons Hb; [|now apply IH].
  apply (entry_lt_irrefl y), Hf. set_solver.
Qed.

#[export] Hint Resolve set_insert_sorted set_erase_sorted sorted_app_l sorted_app_r : muduo.

(** ** The invariant *)

(** Both sets hold exactly the same timers, all of them allocated; sequence
    numbers come from the counter. *)
Record TInv {CB} (s : tq_state CB) : Prop := {
  ti_sorted : sorted (timers_ s);
  ti_timers w p : (w, p) ∈ timers_ s <->
    exists t, theap s !! p = Some t /\ expiration_ t = w /\ (p, sequence_ t) ∈ activeTimers_ s;
  ti_active p q : (p, q) ∈ activeTimers_ s -> exists t, theap s !! p = Some t /\ sequence_ t = q;
  ti_heap p t : theap s !! p = Some t -> 0 < p < UINTPTR_MAX /\ sequence_ t < s_numCreated_ s;
}.

(** A live timer that is in neither set: expired, or not added yet. *)
Definition outside {CB} (s : tq_state CB) (p : ptr) (t : Timer CB) : Prop :=
  theap s !! p = Some t /\ (p, sequence_ t) ∉ activeTimers_ s.

(** What callbacks must not disturb. *)
Record keeps {CB} (s s' : tq_state CB) : Prop := {
  keeps_outside p t : outside s p t -> outside s' p t;
  keeps_canceling : cancelingTimers_ s ⊆ cancelingTimers_ s';
  keeps_calling : callingExpiredTimers_ s' = callingExpiredTimers_ s;
  keeps_fired : fired s' = fired s;
}.

Lemma keeps_refl {CB} (s : tq_state CB) : keeps s s.
Proof. constructor; auto. Qed.

Lemma keeps_trans {CB} (s1 s2 s3 : tq_state CB) : keeps s1 s2 -> keeps s2 s3 -> keeps s1 s3.
Proof.
  intros [] []. constructor; auto; [etransitivity; eauto|congruence..].
Qed.

(** The earliest timer, if any, has the descriptor armed for it or earlier. *)
Definition armed_ok {CB} (s : tq_state CB) : Prop :=
  match timers_ s with
  | [] => True
  | it :: _ => exists e ts, armed s = Some (e, ts) /\ e <= fst it
  end.

Section Lemmas.
Context {CB : Type} `{HA : Allocator CB} `{HL : !AllocatorLaw CB}.
Context (clock : nat -> Z).
Implicit Types (s : tq_state CB) (p : ptr) (t : Timer CB).

Lemma timer_ok p s t : theap s !! p = Some t -> timer p s = Done (t, s).
Proof. intros E. unfold timer. st_get. now rewrite E. Qed.

(** Only the armed descriptor and the clock change. *)
Lemma resetTimerfd_run e s : exists ts,
  resetTimerfd clock e s = Done (tt, set_armed (Some (e, ts)) (set_clock_reads (S (clock_reads s)) s)).
Proof. eexists. reflexivity. Qed.

Definition same_queue s s' : Prop :=
  theap s' = theap s /\ timers_ s' = timers_ s /\ activeTimers_ s' = activeTimers_ s /\
  s_numCreated_ s' = s_numCreated_ s.

Lemma TInv_same s s' : same_queue s s' -> TInv s -> TInv s'.
Proof. intros (H1 & H2 & H3 & H4) []. constructor; rewrite ?H1, ?H2, ?H3, ?H4; auto. Qed.

(** Inserting a live timer that is in neither set. *)
Lemma insert_run p s t : outside s p t ->
  exists b, insert_timer p s = Done (b, set_activeTimers ({[(p, sequence_ t)]} ∪ activeTimers_ s)
      (set_timers (set_insert (expiration_ t, p) (timers_ s)) s)) /\
    (b = true <-> match timers_ s with [] => True | it :: _ => expiration_ t < fst it end).
Proof.
  intros [E _]. unfold insert_timer. st_step (timer_ok p s t E). st_get.
  eexists. split; [reflexivity|]. unfold before. case_match; lia || tauto.
Qed.

Lemma TInv_insert p s t : TInv s -> outside s p t ->
  TInv (set_activeTimers ({[(p, sequence_ t)]} ∪ activeTimers_ s)
    (set_timers (set_insert (expiration_ t, p) (timers_ s)) s)).
Proof.
  intros I [E Hn]. constructor; cbn.
  - apply set_insert_sorted, I.
  - intros w q. rewrite elem_of_set_insert, (ti_timers _ I). split.
    + intros [[= -> ->]|(t' & Et & Hw & Ha)]; [exists t|exists t']; set_solver.
    + intros (t' & Et & Hw & [Heq|Ha]%elem_of_union); [left|right; eauto].
      apply elem_of_singleton in Heq. simplify_eq. reflexivity.
  - intros q n [Heq|Ha]%elem_of_union; [|exact (ti_active _ I _ _ Ha)].
    apply elem_of_singleton in Heq. simplify_eq. eauto.
  - apply (ti_heap _ I).
Qed.

(** The heads of the ordered set after an insertion. *)
Lemma armed_insert p s t : sorted (timers_ s) ->
  match set_insert (expiration_ t, p) (timers_ s) with
  | [] => False
  | it :: _ => fst it = expiration_ t \/
      exists it' l', timers_ s = it' :: l' /\ it = it' /\ fst it' <= expiration_ t
  end.
Proof.
  intros _. destruct (timers_ s) as [|x l]; cbn; [auto|].
  destruct (entry_lt _ x) eqn:E; [now left|].
  assert (fst x <= expiration_ t) by (rewrite <-not_true_iff_false, entry_lt_spec in E; cbn in E; lia).
  destruct (entry_lt x _); right; eauto.
Qed.

(** [addTimerInLoop] for a live timer in neither set. *)
Lemma addTimerInLoop_run p s t : TInv s -> outside s p t ->
  exists s', addTimerInLoop clock p s = Done (tt, s') /\ TInv s' /\
    theap s' = theap s /\ (p, sequence_ t) ∈ activeTimers_ s' /\
    activeTimers_ s' = {[(p, sequence_ t)]} ∪ activeTimers_ s /\
    timers_ s' = set_insert (expiration_ t, p) (timers_ s) /\
    cancelingTimers_ s' = cancelingTimers_ s /\ callingExpiredTimers_ s' = callingExpiredTimers_ s /\
    fired s' = fired s /\ s_numCreated_ s' = s_numCreated_ s /\
    (armed_ok s -> armed_ok s').
Proof.
  intros I O. destruct (insert_run p s t O) as (b & E & Hb). unfold addTimerInLoop. st_step E.
  pose proof (TInv_insert p s t I O) as I1. set (s1 := set_activeTimers _ _) in *.
  destruct O as [Eh _]. pose proof (armed_insert p s t (ti_sorted _ I)) as Har.
  destruct b; cbn [when].
  - st_step (timer_ok p s1 t Eh). destruct (resetTimerfd_run (expiration_ t) s1) as [ts Er].
    rewrite Er. eexists. split; [reflexivity|]. cbn. split_and!; auto; [|set_solver|].
    + eapply TInv_same; [|exact I1]. now repeat split.
    + intros _. unfold armed_ok; cbn. destruct (set_insert _ _) as [|it l]; [auto|].
      exists (expiration_ t), ts. split; [reflexivity|].
      destruct Har as [->|(it' & l' & El & -> & ?)]; [lia|]. rewrite El in Hb. tauto || lia.
  - exists s1. split; [reflexivity|]. cbn. split_and!; auto; [set_solver|].
    intros Ha. unfold armed_ok in *; cbn. destruct (set_insert _ _) as [|it l]; [auto|].
    destruct (timers_ s) as [|x l']; [now destruct Hb as [_ Hb]; discriminate (Hb Logic.I)|].
    destruct Ha as (e & ts & Hs & Hle). exists e, ts. split; [exact Hs|].
    destruct Har as [->|(it' & l'' & [= <- <-] & -> & ?)]; [|lia].
    assert (~ expiration_ t < fst x) by (intros Hlt; destruct Hb as [_ Hb]; discriminate (Hb Hlt)). lia.
Qed.

(** Changing or removing a timer that is in neither set. *)
Lemma TInv_update_outside p s t t' : TInv s -> outside s p t -> sequence_ t' = sequence_ t ->
  TInv (set_theap (<[p := t']> (theap s)) s) /\ outside (set_theap (<[p := t']> (theap s)) s) p t'.
Proof.
  intros I [E Hn] Hq. split; [|split; cbn; [apply lookup_insert_eq|congruence]].
  constructor; cbn.
  - apply I.
  - intros w q. rewrite (ti_timers _ I). split; intros (u & Hu & Hw & Ha).
    + exists u. rewrite lookup_insert_ne by congruence. auto.
    + apply lookup_insert_Some in Hu as [[<- <-]|[? ?]]; [congruence|eauto].
  - intros q n Ha. destruct (decide (q = p)) as [->|].
    + destruct (ti_active _ I _ _ Ha) as (u & Hu & <-). congruence.
    + rewrite lookup_insert_ne by congruence. now apply (ti_active _ I).
  - intros q u [[<- <-]|[? Hu]]%lookup_insert_Some; [|eauto using ti_heap].
    rewrite Hq. now apply (ti_heap _ I).
Qed.

Lemma TInv_free p s t : TInv s -> outside s p t -> TInv (set_theap (delete p (theap s)) s).
Proof.
  intros I [E Hn]. constructor; cbn.
  - apply I.
  - intros w q. rewrite (ti_timers _ I). split; intros (u & Hu & Hw & Ha).
    + exists u. rewrite lookup_delete_ne by congruence. auto.
    + apply lookup_delete_Some in Hu as [? ?]. eauto.
  - intros q n Ha. destruct (ti_active _ I _ _ Ha) as (u & Hu & <-).
    exists u. rewrite lookup_delete_ne by congruence. auto.
  - intros q u [? Hu]%lookup_delete_Some. eauto using ti_heap.
Qed.

(** [cancelInLoop] always succeeds; what it does depends on the id alone. *)
Definition canceled s (id : TimerId) s' : Prop :=
  if bool_decide (id ∈ activeTimers_ s) then
    theap s' = delete (fst id) (theap s) /\ activeTimers_ s' = activeTimers_ s ∖ {[id]} /\
    cancelingTimers_ s' = cancelingTimers_ s
  else
    theap s' = theap s /\ timers_ s' = timers_ s /\ activeTimers_ s' = activeTimers_ s /\
    cancelingTimers_ s' = if callingExpiredTimers_ s then {[id]} ∪ cancelingTimers_ s
                          else cancelingTimers_ s.

Lemma cancelInLoop_run id s : TInv s ->
  exists s', cancelInLoop id s = Done (tt, s') /\ TInv s' /\ keeps s s' /\ canceled s id s' /\
    s_numCreated_ s' = s_numCreated_ s /\ (armed_ok s -> armed_ok s').
Proof.
  intros I. destruct id as [p q]. unfold cancelInLoop, canceled. st_get. case_bool_decide as Ha; cbn.
  2: { destruct (callingExpiredTimers_ s) eqn:Ec; eexists; (split; [reflexivity|]);
       (split_and!; [eapply TInv_same; [|exact I]; now repeat split
                    |constructor; cbn; auto; set_solver|auto..]). }
  destruct (ti_active _ I _ _ Ha) as (t & Et & Hq). st_step (timer_ok p s t Et).
  eexists. split; [reflexivity|]. cbn. split_and!; auto.
  - constructor; cbn.
    + apply set_erase_sorted, I.
    + intros w r. rewrite elem_of_set_erase, (ti_timers _ I) by apply I. split.
      * intros [(u & Hu & Hw & Hr) Hne]. exists u.
        assert (r <> p) by (intros ->; apply Hne; congruence).
        rewrite lookup_delete_ne by congruence. split_and!; auto. set_solver.
      * intros (u & [? Hu]%lookup_delete_Some & Hw & [Hr _]%elem_of_difference).
        split; [eauto|congruence].
    + intros r n [Hr Hne]%elem_of_difference.
      destruct (ti_active _ I _ _ Hr) as (u & Hu & Hn). exists u.
      rewrite lookup_delete_ne; [auto|]. intros ->. apply Hne. set_solver.
    + intros r u [? Hu]%lookup_delete_Some. eauto using ti_heap.
  - constructor; cbn; auto. intros r u [Hu Hn]. split; cbn; [|set_solver].
    rewrite lookup_delete_ne; [auto|]. intros ->. congruence.
  - unfold armed_ok; cbn. pose proof (ti_sorted _ I) as Hs.
    destruct (timers_ s) as [|x l]; cbn; [auto|]. intros (e & ts & Hs1 & Hle).
    apply StronglySorted_inv in Hs as [_ Hf].
    destruct (entry_lt x _); [eauto|]. destruct (entry_lt _ x); [eauto|].
    destruct l as [|y l]; [auto|]. apply Forall_cons in Hf as [Hf _].
    unfold entry_ltP in Hf. rewrite entry_lt_spec in Hf. exists e, ts. split; [auto|lia].
Qed.

(** [addTimer]: the new timer gets a fresh address and the next sequence number. *)
Lemma addTimer_run cb w i s : TInv s -> addTimer clock cb w i s <> Fail LengthError ->
  exists p s', addTimer clock cb w i s = Done ((p, s_numCreated_ s), s') /\ TInv s' /\ keeps s s' /\
    theap s !! p = None /\ timers_ s' = set_insert (w, p) (timers_ s) /\
    cancelingTimers_ s' = cancelingTimers_ s /\
    theap s' = <[p := mkTimer cb w i (fgt i (double_of_Z 0)) (s_numCreated_ s)]> (theap s) /\
    activeTimers_ s' = {[(p, s_numCreated_ s)]} ∪ activeTimers_ s /\
    (w, p) ∈ timers_ s' /\
    s_numCreated_ s' = s_numCreated_ s + 1 /\ (armed_ok s -> armed_ok s').
Proof.
  intros I Hok. destruct (alloc (theap s)) as [p|] eqn:Ep; cycle 1.
  { destruct Hok. unfold addTimer, newTimer, mbind, ST_bind; cbn. now rewrite Ep. }
  destruct (alloc_fresh (theap s) p Ep) as [Hfr Hrg]. clear Hok.
  unfold addTimer. set (t := mkTimer cb w i (fgt i (double_of_Z 0)) (s_numCreated_ s)).
  set (s1 := set_numCreated (s_numCreated_ s + 1) (set_theap (<[p := t]> (theap s)) s)).
  assert (En : newTimer cb w i s = Done (p, s1)) by (unfold newTimer; st_get; now rewrite Ep).
  st_step En.
  assert (Hna : forall n, (p, n) ∉ activeTimers_ s).
  { intros n Hn. destruct (ti_active _ I _ _ Hn) as (u & Hu & _). congruence. }
  assert (I1 : TInv s1).
  { constructor; cbn.
    - apply I.
    - intros w' r. rewrite (ti_timers _ I). split; intros (u & Hu & Hw & Hr).
      + exists u. rewrite lookup_insert_ne by congruence. auto.
      + apply lookup_insert_Some in Hu as [[<- _]|[? ?]]; [now apply Hna in Hr|eauto].
    - intros r n Hr. destruct (ti_active _ I _ _ Hr) as (u & Hu & Hn). exists u.
      rewrite lookup_insert_ne by congruence. auto.
    - intros r u [[<- <-]|[? Hu]]%lookup_insert_Some; [cbn; split; lia|].
      destruct (ti_heap _ I _ _ Hu). split; lia. }
  assert (O1 : outside s1 p t) by (split; [apply lookup_insert_eq|apply Hna]).
  st_step (timer_ok p s1 t (proj1 O1)).
  destruct (addTimerInLoop_run p s1 t I1 O1)
    as (s' & E & I' & Hh & Hin & Ha & Ht & Hc & Hcall & Hf & Hn & Har). st_step E.
  exists p, s'. split; [reflexivity|]. split_and!; auto.
  - constructor; [|rewrite Hc; cbn; set_solver|now rewrite Hcall|now rewrite Hf].
    intros r u [Hu Hnr]. assert (r <> p) by congruence. split.
    + rewrite Hh. cbn. now rewrite lookup_insert_ne by congruence.
    + rewrite Ha. cbn. set_solver.
  - rewrite Ht, elem_of_set_insert. now left.
Qed.

(** ** Callbacks *)

Context (behaviour : CB -> tq_state CB -> list (action (CB := CB))).

Lemma run_action_run a s : TInv s -> run_action clock a s <> Fail LengthError ->
  exists s', run_action clock a s = Done (tt, s') /\ TInv s' /\ keeps s s' /\ (armed_ok s -> armed_ok s').
Proof.
  intros I Hok. destruct a as [cb w i|id]; cbn [run_action] in *.
  - apply bind_nofail_l in Hok. destruct (addTimer_run cb w i s I Hok)
      as (p & s' & E & I' & K & _ & _ & _ & _ & _ & _ & _ & Har). st_step E. eauto.
  - destruct (cancelInLoop_run id s I) as (s' & E & I' & K & _ & _ & Har). eauto.
Qed.

Lemma run_actions_run l s : TInv s -> for_each l (run_action clock) s <> Fail LengthError ->
  exists s', for_each l (run_action clock) s = Done (tt, s') /\ TInv s' /\ keeps s s' /\
    (armed_ok s -> armed_ok s').
Proof.
  revert s; induction l as [|a l IH]; intros s I Hok.
  { exists s. split_and!; auto using keeps_refl. }
  destruct (run_action_run a s I) as (s1 & E1 & I1 & K1 & A1); [exact (bind_nofail_l _ _ _ _ Hok)|].
  destruct (IH s1 I1 (bind_nofail_r _ _ _ _ _ _ E1 Hok)) as (s2 & E2 & I2 & K2 & A2).
  exists s2. rewrite (for_each_cons _ _ _ _ _ E1). split_and!; eauto using keeps_trans.
Qed.

(** A callback that cancels a timer now in neither set leaves its id in
    [cancelingTimers_]. *)
Lemma run_actions_cancel l s s' p t : TInv s -> callingExpiredTimers_ s = true ->
  outside s p t -> Cancel (p, sequence_ t) ∈ l ->
  for_each l (run_action clock) s = Done (tt, s') -> (p, sequence_ t) ∈ cancelingTimers_ s'.
Proof.
  revert s; induction l as [|a l IH]; intros s I Hc O Hin Hd; [now apply not_elem_of_nil in Hin|].
  assert (Hok : for_each (a :: l) (run_action clock) s <> Fail LengthError) by congruence.
  destruct (run_action_run a s I) as (s1 & E1 & I1 & K1 & _); [exact (bind_nofail_l _ _ _ _ Hok)|].
  pose proof (bind_nofail_r _ _ _ _ _ _ E1 Hok) as Hok1. revert Hd.
  rewrite (for_each_cons _ _ _ _ _ E1).
  apply elem_of_cons in Hin as [Heq|Hin].
  - subst a. cbn in E1. destruct (cancelInLoop_run (p, sequence_ t) s I) as (s1' & E1' & _ & _ & C & _).
    unfold cancel in E1. assert (s1' = s1) by congruence. subst s1'.
    unfold canceled in C. rewrite bool_decide_eq_false_2 in C by apply O. rewrite Hc in C.
    destruct (run_actions_run l s1 I1 Hok1) as (s2 & E2 & _ & K2 & _). rewrite E2. intros [= <-].
    apply (keeps_canceling _ _ K2). set_solver.
  - intros Hd. apply (IH s1); auto; [now rewrite (keeps_calling _ _ K1)|now apply K1].
Qed.

Lemma outside_run_timer it s t : TInv s -> outside s (snd it) t ->
  run_timer clock behaviour it s <> Fail LengthError ->
  exists s', run_timer clock behaviour it s = Done (tt, s') /\ TInv s' /\
    (forall p u, outside s p u -> outside s' p u) /\ cancelingTimers_ s ⊆ cancelingTimers_ s' /\
    callingExpiredTimers_ s' = callingExpiredTimers_ s /\
    fired s' = fired s ++ [callback_ t] /\
    (callingExpiredTimers_ s = true -> Cancel (snd it, sequence_ t) ∈ behaviour (callback_ t) s ->
     (snd it, sequence_ t) ∈ cancelingTimers_ s').
Proof.
  intros I O. unfold run_timer. st_step (timer_ok _ s t (proj1 O)). st_get. st_modify. intros Hok.
  set (s1 := set_fired _ s). assert (I1 : TInv s1) by (eapply TInv_same; [|exact I]; now repeat split).
  destruct (run_actions_run (behaviour (callback_ t) s) s1 I1 Hok) as (s' & E & I' & K & _).
  exists s'. split; [exact E|]. split_and!; auto.
  - intros p u Hu. now apply (keeps_outside _ _ K).
  - exact (keeps_canceling _ _ K).
  - exact (keeps_calling _ _ K).
  - exact (keeps_fired _ _ K).
  - intros Hc Hb. exact (run_actions_cancel _ s1 s' _ t I1 Hc O Hb E).
Qed.

(** The expired timers with their objects. *)
Abbreviation expired_with s := (Forall2 (fun it t => outside s (snd it) t)).

Lemma expired_with_mono (l : list Entry) ts s s' :
  (forall p u, outside s p u -> outside s' p u) -> expired_with s l ts -> expired_with s' l ts.
Proof. intros Hm. induction 1; constructor; auto. Qed.

Lemma run_timers_run l ts s : TInv s -> callingExpiredTimers_ s = true -> expired_with s l ts ->
  for_each l (run_timer clock behaviour) s <> Fail LengthError ->
  exists s', for_each l (run_timer clock behaviour) s = Done (tt, s') /\ TInv s' /\
    (forall p u, outside s p u -> outside s' p u) /\ callingExpiredTimers_ s' = true /\
    cancelingTimers_ s ⊆ cancelingTimers_ s' /\
    fired s' = fired s ++ map callback_ ts /\
    (forall it t, (it, t) ∈ zip l ts ->
       (forall s0, Cancel (snd it, sequence_ t) ∈ behaviour (callback_ t) s0) ->
       (snd it, sequence_ t) ∈ cancelingTimers_ s').
Proof.
  revert ts s; induction l as [|it l IH]; intros ts s I Hc Hf Hok.
  { apply Forall2_nil_inv_l in Hf as ->. exists s. rewrite app_nil_r. split_and!; auto.
    intros it t Hi. now apply not_elem_of_nil in Hi. }
  apply Forall2_cons_inv_l in Hf as (t & ts' & O & Hf & ->).
  destruct (outside_run_timer it s t I O) as (s1 & E1 & I1 & M1 & C1 & Hc1 & F1 & X1);
    [exact (bind_nofail_l _ _ _ _ Hok)|].
  destruct (IH ts' s1) as (s2 & E2 & I2 & M2 & Hc2 & C2 & F2 & X2);
    [auto|congruence|eauto using expired_with_mono|exact (bind_nofail_r _ _ _ _ _ _ E1 Hok)|].
  exists s2. rewrite (for_each_cons _ _ _ _ _ E1). split_and!; auto.
  - etransitivity; eauto.
  - rewrite F2, F1, <-app_assoc. reflexivity.
  - cbn. intros it' t' [[= -> ->]|Hin]%elem_of_cons Hb; [|eauto]. apply C2, X1; auto.
Qed.

(** ** [getExpired] *)

(** The timers whose time has come, and the others. *)
Definition due (t : Z) s : list Entry := base.filter (fun it : Entry => fst it <= t) (timers_ s).
Definition remaining (t : Z) s : list Entry := base.filter (fun it : Entry => ~ fst it <= t) (timers_ s).

Lemma lower_bound_due (t : Z) s : TInv s ->
  lower_bound (t, UINTPTR_MAX) (timers_ s) = (due t s, remaining t s) /\
  timers_ s = due t s ++ remaining t s.
Proof.
  intros I. destruct (lower_bound _ _) as [a b] eqn:E.
  destruct (lower_bound_spec _ _ _ _ E) as (El & Ha & Hb). specialize (Hb (ti_sorted _ I)).
  rewrite Forall_forall in Ha, Hb.
  assert (Hp : forall w p, (w, p) ∈ timers_ s -> p < UINTPTR_MAX).
  { intros w p Hi. apply (ti_timers _ I) in Hi as (u & Hu & _). now apply (ti_heap _ I) in Hu. }
  assert (Ha' : Forall (fun it : Entry => fst it <= t) a).
  { rewrite Forall_forall. intros [w p] Hi. specialize (Ha _ Hi). unfold entry_ltP in Ha.
    rewrite entry_lt_spec in Ha. cbn in *. lia. }
  assert (Hb' : Forall (fun it : Entry => ~ fst it <= t) b).
  { rewrite Forall_forall. intros [w p] Hi Hle. apply (Hb _ Hi). unfold entry_ltP.
    rewrite entry_lt_spec. cbn in *.
    assert (p < UINTPTR_MAX) by (apply (Hp w); rewrite El; set_solver). lia. }
  unfold due, remaining. rewrite El, !list.filter_app.
  rewrite (filter_all (fun it : Entry => fst it <= t) a Ha'), (filter_none _ b Hb').
  rewrite (filter_all _ b Hb'), (filter_none _ a), app_nil_r; [split; reflexivity|].
  eapply Forall_impl; [exact Ha'|]. cbn. tauto.
Qed.

Lemma due_spec (t : Z) s w p : (w, p) ∈ due t s <-> (w, p) ∈ timers_ s /\ w <= t.
Proof. unfold due. rewrite list_elem_of_filter. cbn. tauto. Qed.

Lemma remaining_spec (t : Z) s w p : (w, p) ∈ remaining t s <-> (w, p) ∈ timers_ s /\ t < w.
Proof. unfold remaining. rewrite list_elem_of_filter. cbn. intuition lia. Qed.

Lemma timers_NoDup s : TInv s -> NoDup (map snd (timers_ s)).
Proof.
  intros I. pose proof (ti_sorted _ I) as Hs.
  assert (Hu : forall w w' p, (w, p) ∈ timers_ s -> (w', p) ∈ timers_ s -> w = w').
  { intros w w' p (u & Hu & ? & _)%(ti_timers _ I) (u' & Hu' & ? & _)%(ti_timers _ I). congruence. }
  revert Hu Hs. induction (timers_ s) as [|[w p] l IH]; cbn; intros Hu Hs; [constructor|].
  apply StronglySorted_inv in Hs as [Hs Hf]. rewrite Forall_forall in Hf. constructor.
  - intros ([w' p'] & Hp & Hi)%list_elem_of_fmap. cbn in Hp. subst p'.
    assert (w = w') by (apply (Hu _ _ p); [now left|now right]). subst w'.
    now apply (entry_lt_irrefl (w, p)), Hf.
  - apply IH; [|exact Hs]. intros w1 w2 q H1 H2. apply (Hu _ _ q); now right.
Qed.

Lemma erase_active_run l s : (forall it, it ∈ l -> is_Some (theap s !! snd it)) ->
  exists A, for_each l erase_active s = Done (tt, set_activeTimers A s) /\
    forall p q, (p, q) ∈ A <-> (p, q) ∈ activeTimers_ s /\
      ~ exists w t, (w, p) ∈ l /\ theap s !! p = Some t /\ sequence_ t = q.
Proof.
  revert s; induction l as [|[w p] l IH]; intros s Hl.
  { exists (activeTimers_ s). split; [now destruct s|]. intros p q. split; [|tauto].
    intros Ha. split; [exact Ha|]. intros (w & t & Hi & _). now apply not_elem_of_nil in Hi. }
  destruct (Hl (w, p)) as [t Et]; [left|]. cbn in Et.
  set (s1 := set_activeTimers (activeTimers_ s ∖ {[(p, sequence_ t)]}) s).
  assert (E1 : erase_active (w, p) s = Done (tt, s1)).
  { unfold erase_active. cbn [snd]. now st_step (timer_ok p s t Et). }
  destruct (IH s1) as (A & EA & HA1); [intros it Hi; apply (Hl it); now right|].
  exists A. split; [rewrite (for_each_cons _ _ _ _ _ E1); exact EA|].
  intros p' q. rewrite HA1. cbn. rewrite elem_of_difference, elem_of_singleton. split.
  - intros [[Ha Hne] Hno]. split; [exact Ha|]. intros (w' & t' & [Hi|Hi]%elem_of_cons & Ht' & Hq);
      [|eauto 10]. injection Hi as -> ->. congruence.
  - intros [Ha Hno]. split_and!; [exact Ha| |].
    + intros [= -> ->]. apply Hno. exists w, t. split_and!; auto. now left.
    + intros (w' & t' & Hi & Ht' & Hq). apply Hno. exists w', t'. split_and!; auto. now right.
Qed.

Lemma getExpired_run (t : Z) s : TInv s ->
  exists s' ts, getExpired t s = Done (due t s, s') /\ TInv s' /\ expired_with s' (due t s) ts /\
    Forall2 (fun it u => theap s !! snd it = Some u /\ expiration_ u = fst it /\
                         (snd it, sequence_ u) ∈ activeTimers_ s) (due t s) ts /\
    timers_ s' = remaining t s /\ theap s' = theap s /\
    cancelingTimers_ s' = cancelingTimers_ s /\ fired s' = fired s.
Proof.
  intros I. destruct (lower_bound_due t s I) as [El Esplit].
  assert (Hd : forall it, it ∈ due t s -> exists u, theap s !! snd it = Some u /\
            expiration_ u = fst it /\ (snd it, sequence_ u) ∈ activeTimers_ s).
  { intros [w p] [Hi _]%due_spec. exact (proj1 (ti_timers _ I w p) Hi). }
  destruct (Forall2_choice (fun it u => it ∈ due t s /\ theap s !! snd it = Some u /\
      expiration_ u = fst it /\ (snd it, sequence_ u) ∈ activeTimers_ s) (due t s)) as [ts Hts].
  { intros it Hi. destruct (Hd it Hi) as (u & ?). eauto. }
  set (s1 := set_timers (remaining t s) s).
  destruct (erase_active_run (due t s) s1) as (A & EA & HA1).
  { intros it Hi. destruct (Hd it Hi) as (u & Hu & _). cbn. eauto. }
  exists (set_activeTimers A s1), ts. unfold getExpired. st_get. rewrite El. st_modify.
  fold s1. st_step EA. split_and!; auto.
  - pose proof (timers_NoDup s I) as Hnd. constructor; cbn.
    + eapply sorted_app_r. rewrite <-Esplit. apply I.
    + intros w p. rewrite remaining_spec, (ti_timers _ I). split.
      * intros [(u & Hu & Hw & Ha) Hlt]. exists u. split_and!; auto. apply HA1. split; [exact Ha|].
        intros (w' & u' & Hi & Hu' & _). cbn in Hu'. apply due_spec in Hi as [Hi Hle].
        apply (ti_timers _ I) in Hi as (u2 & Hu2 & Hw2 & _). assert (u2 = u) by congruence. subst. lia.
      * intros (u & Hu & Hw & [Ha Hno]%HA1). split; [eauto|].
        destruct (decide (t < w)); [auto|]. exfalso. apply Hno. exists w, u.
        split_and!; auto. apply due_spec. split; [apply (ti_timers _ I); eauto|lia].
    + intros p q [Ha _]%HA1. now apply (ti_active _ I).
    + apply (ti_heap _ I).
  - eapply Forall2_impl; [exact Hts|].
    intros [w p] u (Hi & Hu & Hw & Ha). split; [exact Hu|]. cbn. intros [_ Hno]%HA1.
    apply Hno. eauto.
  - eapply Forall2_impl; [exact Hts|]. cbn. tauto.
Qed.

(** ** [reset] *)

(** The repetition of a timer stays in the range of [int64_t]. *)
Definition restartable (u : Timer CB) : Prop :=
  repeat_ u = true -> is_Some (addTime (expiration_ u) (interval_ u)).

(** What becomes of a timer that expired. *)
Definition rescheduled s (p : ptr) (u : Timer CB) : Prop :=
  if repeat_ u && negb (bool_decide ((p, sequence_ u) ∈ cancelingTimers_ s)) then
    exists e, addTime (expiration_ u) (interval_ u) = Some e /\ (e, p) ∈ timers_ s /\
      theap s !! p = Some (mkTimer (callback_ u) e (interval_ u) (repeat_ u) (sequence_ u))
  else theap s !! p = None.

Lemma reset_one_run (t : Z) it s u : TInv s -> outside s (snd it) u -> restartable u ->
  exists s', reset_one t it s = Done (tt, s') /\ TInv s' /\ rescheduled s' (snd it) u /\
    cancelingTimers_ s' = cancelingTimers_ s /\ fired s' = fired s /\
    callingExpiredTimers_ s' = callingExpiredTimers_ s /\
    (forall p v, p <> snd it -> outside s p v -> outside s' p v) /\
    (forall p, p <> snd it -> theap s' !! p = theap s !! p) /\
    (forall x, x ∈ timers_ s -> x ∈ timers_ s').
Proof.
  intros I O Hr. unfold reset_one. st_step (timer_ok _ s u (proj1 O)). st_get.
  unfold rescheduled. destruct (repeat_ u && _) eqn:Eb.
  - apply andb_prop in Eb as [Erep Eneg]. destruct (Hr Erep) as [e Ee].
    set (u' := mkTimer (callback_ u) e (interval_ u) (repeat_ u) (sequence_ u)).
    destruct (TInv_update_outside _ s u u' I O eq_refl) as [I1 O1].
    set (s1 := set_theap _ s) in *.
    assert (E1 : restart (snd it) t s = Done (tt, s1)).
    { unfold restart. st_step (timer_ok _ s u (proj1 O)). rewrite Erep, Ee, bind_ret_l.
      unfold s1, u'. now rewrite Erep. }
    st_step E1. destruct (insert_run _ s1 u' O1) as (b & E2 & _). st_step E2.
    eexists. split; [reflexivity|]. cbn. split_and!; auto.
    + exact (TInv_insert _ s1 u' I1 O1).
    + rewrite Erep, Eneg. cbn. exists e. rewrite lookup_insert_eq, elem_of_set_insert, Ee.
      split_and!; auto. unfold u'. now rewrite Erep.
    + intros p v Hne [Hv Hn]. split; cbn; [now rewrite lookup_insert_ne by congruence|set_solver].
    + intros p Hne. now rewrite lookup_insert_ne by congruence.
    + intros x Hx. rewrite elem_of_set_insert. now right.
  - eexists. split; [reflexivity|]. cbn. rewrite Eb. split_and!; auto.
    + exact (TInv_free _ s u I O).
    + apply lookup_delete_eq.
    + intros p v Hne [Hv Hn]. split; cbn; [now rewrite lookup_delete_ne by congruence|exact Hn].
    + intros p Hne. now rewrite lookup_delete_ne by congruence.
Qed.

Lemma rescheduled_frame s s' p u : rescheduled s p u ->
  cancelingTimers_ s' = cancelingTimers_ s -> theap s' !! p = theap s !! p ->
  (forall x, x ∈ timers_ s -> x ∈ timers_ s') -> rescheduled s' p u.
Proof.
  unfold rescheduled. intros Hr Hc Hh Ht. rewrite Hc, Hh. destruct (_ && _); [|exact Hr].
  destruct Hr as (e & ? & ? & ?). eauto.
Qed.

Lemma reset_loop_run (t : Z) l us s : TInv s -> expired_with s l us -> NoDup (map snd l) ->
  Forall restartable us ->
  exists s', for_each l (reset_one t) s = Done (tt, s') /\ TInv s' /\
    Forall2 (fun it u => rescheduled s' (snd it) u) l us /\
    cancelingTimers_ s' = cancelingTimers_ s /\ fired s' = fired s /\
    callingExpiredTimers_ s' = callingExpiredTimers_ s /\
    (forall p, p ∉ map snd l -> theap s' !! p = theap s !! p) /\
    (forall x, x ∈ timers_ s -> x ∈ timers_ s').
Proof.
  revert us s; induction l as [|it l IH]; intros us s I Hf Hnd Hr.
  { apply Forall2_nil_inv_l in Hf as ->. exists s. split_and!; auto. }
  apply Forall2_cons_inv_l in Hf as (u & us' & O & Hf & ->). cbn in Hnd.
  apply NoDup_cons in Hnd as [Hni Hnd]. apply Forall_cons in Hr as [Hru Hr].
  destruct (reset_one_run t it s u I O Hru)
    as (s1 & E1 & I1 & R1 & C1 & F1 & B1 & O1 & H1 & T1).
  destruct (IH us' s1) as (s2 & E2 & I2 & R2 & C2 & F2 & B2 & H2 & T2); auto.
  { clear -Hf Hni O1. induction Hf as [|x v l us Hx Hf IH]; constructor.
    - apply O1; [|exact Hx]. intros E. apply Hni. rewrite <-E. now left.
    - apply IH. intros Hi. apply Hni. now right. }
  exists s2. rewrite (for_each_cons _ _ _ _ _ E1). split_and!; auto; try congruence.
  - constructor; [|exact R2]. eapply rescheduled_frame; eauto.
  - cbn. intros p Hp. rewrite H2, H1; set_solver.
Qed.

Lemma reset_run (t : Z) l us s : TInv s -> expired_with s l us -> NoDup (map snd l) ->
  Forall restartable us ->
  exists s', reset clock l t s = Done (tt, s') /\ TInv s' /\
    Forall2 (fun it u => rescheduled s' (snd it) u) l us /\
    cancelingTimers_ s' = cancelingTimers_ s /\ fired s' = fired s /\
    callingExpiredTimers_ s' = callingExpiredTimers_ s /\
    (forall x, x ∈ timers_ s -> x ∈ timers_ s') /\
    match timers_ s' with
    | [] => True
    | it :: _ => 0 < fst it -> exists ts, armed s' = Some (fst it, ts)
    end.
Proof.
  intros I Hf Hnd Hr. destruct (reset_loop_run t l us s I Hf Hnd Hr)
    as (s1 & E1 & I1 & R1 & C1 & F1 & B1 & _ & T1).
  unfold reset. st_step E1. st_get. pose proof (ti_timers _ I1) as Ht.
  destruct (timers_ s1) as [|[w p] rest] eqn:Es.
  - rewrite bind_ret_l. exists s1. rewrite Es. split_and!; auto.
  - destruct (proj1 (Ht w p)) as (u & Hu & Hw & _); [now left|].
    assert (Ek : (tm ← timer (snd (w, p)); mret (expiration_ tm)) s1 = Done (w, s1)).
    { st_step (timer_ok p s1 u Hu). now rewrite Hw. }
    st_step Ek. unfold valid. destruct (0 <? w) eqn:Ew; cbn [when].
    + destruct (resetTimerfd_run w s1) as [ts Er]. rewrite Er. eexists. split; [reflexivity|].
      cbn. rewrite Es. split_and!; eauto.
      eapply TInv_same; [|exact I1]. now repeat split.
    + exists s1. rewrite Es. split_and!; auto. cbn. lia.
Qed.

(** ** [handleRead] *)

(** The wall-clock time [handleRead] reads first. *)
Definition now_of s : Z := clock (clock_reads s).

Lemma handleRead_run s : TInv s ->
  (forall p u, theap s !! p = Some u -> restartable u) ->
  handleRead clock behaviour s <> Fail LengthError ->
  exists s' us, handleRead clock behaviour s = Done (tt, s') /\ TInv s' /\
    Forall2 (fun it u => theap s !! snd it = Some u /\ expiration_ u = fst it) (due (now_of s) s) us /\
    fired s' = fired s ++ map callback_ us /\
    Forall2 (fun it u => rescheduled s' (snd it) u) (due (now_of s) s) us /\
    callingExpiredTimers_ s' = false /\
    (forall it u, (it, u) ∈ zip (due (now_of s) s) us ->
       (forall s0, Cancel (snd it, sequence_ u) ∈ behaviour (callback_ u) s0) ->
       (snd it, sequence_ u) ∈ cancelingTimers_ s') /\
    match timers_ s' with
    | [] => True
    | it :: _ => 0 < fst it -> exists ts, armed s' = Some (fst it, ts)
    end.
Proof.
  intros I Hr Hok. unfold handleRead in *. set (s1 := set_clock_reads (S (clock_reads s)) s).
  assert (E1 : now clock s = Done (now_of s, s1)) by reflexivity. revert Hok. st_step E1.
  unfold readTimerfd. st_modify. set (s2 := set_armed None s1).
  assert (I2 : TInv s2) by (eapply TInv_same; [|exact I]; now repeat split).
  destruct (getExpired_run (now_of s) s2 I2) as (s3 & us & E3 & I3 & X3 & D3 & T3 & H3 & C3 & F3).
  st_step E3. st_modify. st_modify. intros Hok. set (s4 := set_canceling ∅ _).
  assert (I4 : TInv s4) by (eapply TInv_same; [|exact I3]; now repeat split).
  assert (X4 : expired_with s4 (due (now_of s) s2) us) by exact X3.
  destruct (run_timers_run _ us s4 I4 eq_refl X4 (bind_nofail_l _ _ _ _ Hok)) as (s5 & E5 & I5 & M5 & B5 & C5 & F5 & K5).
  clear Hok. st_step E5. st_modify. set (s6 := set_calling false s5).
  assert (I6 : TInv s6) by (eapply TInv_same; [|exact I5]; now repeat split).
  assert (X6 : expired_with s6 (due (now_of s) s2) us).
  { exact (expired_with_mono _ _ s4 s5 M5 X4). }
  assert (Hnd : NoDup (map snd (due (now_of s) s2))).
  { pose proof (timers_NoDup s2 I2) as Hn. rewrite (proj2 (lower_bound_due (now_of s) s2 I2)), map_app in Hn.
    now apply NoDup_app in Hn as [? _]. }
  assert (Hru : Forall restartable us).
  { apply Forall_forall. intros u Hu. apply list_elem_of_lookup in Hu as [k Hk].
    destruct (Forall2_lookup_r _ _ _ _ _ D3 Hk) as (it & _ & Hh & _). exact (Hr _ _ Hh). }
  destruct (reset_run (now_of s) _ us s6 I6 X6 Hnd Hru)
    as (s7 & E7 & I7 & R7 & C7 & F7 & B7 & _ & A7).
  exists s7, us. rewrite E7. split_and!; auto.
  - eapply Forall2_impl; [exact D3|]. cbn. tauto.
  - rewrite F7. change (fired s6) with (fired s5). rewrite F5.
    change (fired s4) with (fired s3). now rewrite F3.
  - intros it u Hz Hb. rewrite C7. exact (K5 it u Hz Hb).
Qed.
End Lemmas.

(** ** Properties *)

(** An identifier that was issued and whose timer no longer exists. *)
Definition dead {CB} (id : TimerId) (s : tq_state CB) : Prop :=
  snd id < s_numCreated_ s /\ forall t, theap s !! fst id = Some t -> sequence_ t <> snd id.

Lemma set_erase_insert e l : sorted l -> e ∉ l -> set_erase e (set_insert e l) = l.
Proof.
  assert (Hirr : entry_lt e e = false).
  { destruct (entry_lt e e) eqn:E; [|reflexivity]. now destruct (entry_lt_irrefl e). }
  induction 1 as [|x l Hs IH Hf]; intros Hn; cbn; [now rewrite Hirr|].
  rewrite not_elem_of_cons in Hn. destruct Hn as [Hne Hn].
  destruct (entry_lt e x) eqn:E1; cbn; [now rewrite Hirr|].
  destruct (entry_lt x e) eqn:E2; cbn; [rewrite E2; now rewrite IH|].
  now destruct (entry_lt_total _ _ E1 E2).
Qed.

Section Properties.
Context {CB : Type} `{HA : Allocator CB} `{HL : !AllocatorLaw CB}.
Context (clock : nat -> Z).
Implicit Types (s : tq_state CB).

(** adding a timer and cancelling it with the returned identifier gives
    back the timers there were, and no memory is leaked. *)
Theorem addTimer_cancel_roundtrip cb w i s id s1 :
  TInv s -> addTimer clock cb w i s = Done (id, s1) ->
  exists s2, cancel id s1 = Done (tt, s2) /\ TInv s2 /\
    theap s2 = theap s /\ timers_ s2 = timers_ s /\ activeTimers_ s2 = activeTimers_ s.
Proof.
  intros I E. destruct (addTimer_run clock cb w i s I)
    as (p & s1' & E1 & I1 & K & Hfr & Ht & _ & Hh & Ha & _ & _); [congruence|].
  rewrite E in E1. injection E1 as -> <-.
  assert (Hna : forall n, (p, n) ∉ activeTimers_ s).
  { intros n Hn. destruct (ti_active _ I _ _ Hn) as (u & Hu & _). congruence. }
  assert (Hin : (p, s_numCreated_ s) ∈ activeTimers_ s1) by (rewrite Ha; set_solver).
  set (t := mkTimer cb w i (fgt i (double_of_Z 0)) (s_numCreated_ s)) in *.
  assert (Et : theap s1 !! p = Some t) by (rewrite Hh; apply lookup_insert_eq).
  destruct (cancelInLoop_run (p, s_numCreated_ s) s1 I1) as (s2 & E2 & I2 & _ & C & _).
  exists s2. split; [exact E2|]. split; [exact I2|]. unfold canceled in C.
  rewrite bool_decide_eq_true_2 in C by exact Hin. destruct C as (C1 & C2 & _).
  revert E2. unfold cancelInLoop. st_get. rewrite bool_decide_eq_true_2 by exact Hin.
  st_step (timer_ok p s1 t Et). intros [= <-]. cbn in *. split_and!.
  - rewrite Hh. apply delete_insert_id. exact Hfr.
  - rewrite Ht. apply set_erase_insert; [apply I|].
    intros (u & Hu & _)%(ti_timers _ I). congruence.
  - rewrite Ha. apply set_eq. intros x. specialize (Hna (s_numCreated_ s)).
    set_solver +Hna.
Qed.

Lemma dead_action a id s s' : TInv s -> dead id s ->
  run_action clock a s = Done (tt, s') -> dead id s' /\ s_numCreated_ s <= s_numCreated_ s'.
Proof.
  intros I [Hq Hd] E. destruct a as [cb w i|id']; cbn [run_action] in E.
  - apply bind_inv in E as ([p q] & s1 & E & [= ->]).
    destruct (addTimer_run clock cb w i s I) as (p' & s1 & E1 & _ & _ & _ & _ & _ & Hh & _ & _ & Hn & _);
      [congruence|]. rewrite E in E1. simplify_eq.
    split; [|lia]. split; [lia|]. rewrite Hh.
    intros t [[_ <-]|[? Ht]]%lookup_insert_Some; [cbn; lia|eauto].
  - destruct (cancelInLoop_run id' s I) as (s1 & E1 & _ & _ & C & Hn & _).
    unfold cancel in E. assert (s1 = s') by congruence. subst s1. split; [|lia].
    split; [lia|]. unfold canceled in C. case_bool_decide.
    + destruct C as [-> _]. intros t [_ Ht]%lookup_delete_Some. eauto.
    + destruct C as [-> _]. eauto.
Qed.

(** an identifier whose timer is gone never denotes another timer, even
    when the allocator reuses the address: after any further additions and
    cancellations, cancelling it changes neither the timers nor the memory. *)
Theorem stale_id_harmless id l s s1 :
  TInv s -> dead id s -> for_each l (run_action clock) s = Done (tt, s1) ->
  dead id s1 /\ exists s2, cancel id s1 = Done (tt, s2) /\
    theap s2 = theap s1 /\ timers_ s2 = timers_ s1 /\ activeTimers_ s2 = activeTimers_ s1.
Proof.
  revert s; induction l as [|a l IH]; intros s I Hd.
  - intros [= <-]. split; [exact Hd|].
    destruct (cancelInLoop_run id s I) as (s2 & E2 & _ & _ & C & _).
    exists s2. split; [exact E2|]. unfold canceled in C.
    rewrite bool_decide_eq_false_2 in C; [tauto|]. destruct id as [p q].
    intros Ha. destruct (ti_active _ I _ _ Ha) as (t & Ht & Hq). now apply (proj2 Hd t).
  - intros ([] & s2 & E2 & E)%bind_inv. destruct (dead_action a id s s2 I Hd E2) as [Hd2 _].
    destruct (run_action_run clock a s I) as (s2' & E2' & I2 & _); [congruence|].
    assert (s2' = s2) by congruence. subst. eauto.
Qed.
Context (behaviour : CB -> tq_state CB -> list (action (CB := CB))).

(** C22: a tick of the timer descriptor, whatever the callbacks add or cancel
    meanwhile: no freed timer is touched, both sets of timers stay consistent,
    exactly the callbacks of the timers whose time has come run, earliest first
    and once each, every one of these timers is put back at its next time if it
    repeats and was not cancelled and is freed otherwise, and the descriptor is
    armed for the earliest timer left. *)
Theorem handleRead_correct s :
  TInv s -> (forall p u, theap s !! p = Some u -> restartable u) ->
  handleRead clock behaviour s <> Fail LengthError ->
  exists s' us, handleRead clock behaviour s = Done (tt, s') /\ TInv s' /\
    Forall2 (fun it u => theap s !! snd it = Some u) (due (now_of clock s) s) us /\
    fired s' = fired s ++ map callback_ us /\
    Forall2 (fun it u => rescheduled s' (snd it) u) (due (now_of clock s) s) us /\
    match timers_ s' with
    | [] => True
    | it :: _ => 0 < fst it -> exists ts, armed s' = Some (fst it, ts)
    end.
Proof.
  intros I Hr Hok. destruct (handleRead_run clock behaviour s I Hr Hok)
    as (s' & us & E & I' & D & F & R & _ & _ & A).
  exists s', us. split_and!; auto. eapply Forall2_impl; [exact D|]. cbn. tauto.
Qed.

(** a repeating timer whose callback cancels the timer itself does not run
    again: after the tick it is in no set and its memory is freed. *)
Theorem self_cancel_stops s s' w p u :
  TInv s -> (forall q v, theap s !! q = Some v -> restartable v) ->
  (w, p) ∈ due (now_of clock s) s -> theap s !! p = Some u ->
  (forall s0, Cancel (p, sequence_ u) ∈ behaviour (callback_ u) s0) ->
  handleRead clock behaviour s = Done (tt, s') ->
  theap s' !! p = None /\ forall w', (w', p) ∉ timers_ s'.
Proof.
  intros I Hr Hd Hu Hb E.
  destruct (handleRead_run clock behaviour s I Hr) as (s2 & us & E2 & I' & D & _ & R & _ & K & _);
    [congruence|]. assert (s2 = s') by congruence. subst s2.
  apply list_elem_of_lookup in Hd as [k Hk].
  destruct (Forall2_lookup_l _ _ _ _ _ D Hk) as (u' & Hk' & Hh & _). cbn in Hh.
  assert (u' = u) by congruence. subst u'.
  assert (Hc : (p, sequence_ u) ∈ cancelingTimers_ s').
  { apply (K (w, p) u); [|exact Hb]. apply list_elem_of_lookup. exists k.
    apply lookup_zip_Some. auto. }
  pose proof (Forall2_lookup_lr _ _ _ _ _ _ R Hk Hk') as Hres. unfold rescheduled in Hres. cbn in Hres.
  rewrite bool_decide_eq_true_2, andb_false_r in Hres by exact Hc.
  split; [exact Hres|]. intros w' (v & Hv & _)%(ti_timers _ I'). congruence.
Qed.

End Properties.

(** ** Concrete inputs *)

Module Demo.
(** Eight addresses, the lowest free one first: addresses are reused. *)
#[local] Instance arena : Allocator nat := fun h =>
  head (base.filter (fun p => h !! p = None) [1; 2; 3; 4; 5; 6; 7; 8]).

#[local] Instance arena_law : AllocatorLaw nat.
Proof.
  intros h p Hp. unfold alloc, arena in Hp. apply head_Some_elem_of, list_elem_of_filter in Hp as [Hn Hp].
  split; [exact Hn|]. unfold UINTPTR_MAX. repeat (apply elem_of_cons in Hp as [->|Hp]; [lia|]).
  now apply not_elem_of_nil in Hp.
Qed.

(** Callback 7 cancels the first timer, callback 8 adds a timer, 9 does nothing. *)
Definition behaviour (cb : nat) (s : tq_state nat) : list (action (CB := nat)) :=
  match cb with
  | 7%nat => [Cancel (1, 0)]
  | 8%nat => [AddTimer 9%nat 700 (double_of_Z 0)]
  | _ => []
  end.
Definition clock (n : nat) : Z := 200 + 10 * Z.of_nat n.

Definition empty : tq_state nat := mkTQ ∅ [] ∅ false ∅ 0 None 0 [].
(** A repeating timer at 150 and two one-shot timers at 100 and 5000. *)
Definition setup : ST (tq_state nat) unit :=
  _ ← addTimer clock 7%nat 150 (double_of_Z 1);
  _ ← addTimer clock 8%nat 100 (double_of_Z 0);
  _ ← addTimer clock 9%nat 5000 (double_of_Z 0);
  mret tt.
Definition state : tq_state nat :=
  match setup empty with Done (_, s) => s | Fail _ => empty end.

Lemma TInv_empty : TInv empty.
Proof.
  constructor; cbn; [constructor| | |].
  - intros w p. split; [now intros Hx%not_elem_of_nil|]. now intros (t & Ht & _).
  - now intros p q Hx%not_elem_of_empty.
  - now intros p t Ht.
Qed.

Lemma setup_ok : setup empty = Done (tt, state).
Proof. vm_compute. reflexivity. Qed.

Lemma TInv_state : TInv state.
Proof.
  pose proof TInv_empty as I0. pose proof setup_ok as E. unfold setup in E.
  assert (Hstep : forall cb w i s a s1, TInv s -> addTimer clock cb w i s = Done (a, s1) -> TInv s1).
  { intros cb w i s a s1 I Ea. destruct (addTimer_run clock cb w i s I) as (? & ? & E1 & ? & _);
      [congruence|]. congruence. }
  apply bind_inv in E as (a1 & s1 & E1 & E). apply bind_inv in E as (a2 & s2 & E2 & E).
  apply bind_inv in E as (a3 & s3 & E3 & [= <-]). eauto 10.
Qed.

Lemma restartable_state p u : theap state !! p = Some u -> restartable u.
Proof.
  assert (H : map_Forall (fun _ u => restartable u) (theap state)).
  { replace (theap state) with (list_to_map (map_to_list (theap state)) : gmap ptr (Timer nat))
      by apply list_to_map_to_list.
    intros q v Hv. apply elem_of_list_to_map_2 in Hv. revert Hv.
    set (l := map_to_list _). vm_compute in l. subst l.
    intros Hv. repeat (apply elem_of_cons in Hv as [Hv|Hv]; [injection Hv as -> ->; vm_compute; eauto|]).
    now apply not_elem_of_nil in Hv. }
  apply H.
Qed.

Lemma fired_in_order :
  match handleRead clock behaviour state with
  | Done (_, s) => (fired s, timers_ s) = ([8%nat; 7%nat], [(700, 4); (5000, 3)])
  | Fail _ => False
  end.
Proof. vm_compute. reflexivity. Qed.

Lemma handleRead_correct_witness :
  TInv state /\ exists s', handleRead clock behaviour state = Done (tt, s') /\ TInv s'.
Proof.
  split; [exact TInv_state|].
  destruct (handleRead_correct clock behaviour state TInv_state restartable_state)
    as (s' & us & E & I & _); [vm_compute; discriminate|]. eauto.
Defined.

Lemma self_cancel_stops_witness :
  exists s', handleRead clock behaviour state = Done (tt, s') /\ theap s' !! 1 = None.
Proof.
  destruct (handleRead clock behaviour state) as [[[] s']|f] eqn:E; [|vm_compute in E; discriminate].
  exists s'. split; [reflexivity|].
  refine (proj1 (self_cancel_stops clock behaviour state s' 150 1
    (mkTimer 7%nat 150 (double_of_Z 1) true 0) TInv_state restartable_state _ _ _ E)).
  - apply due_spec. vm_compute. split; [right; left|discriminate].
  - vm_compute. reflexivity.
  - intros s0. left.
Defined.

Lemma addTimer_cancel_roundtrip_witness : exists id s1 s2,
  addTimer clock 9%nat 40 (double_of_Z 0) state = Done (id, s1) /\ cancel id s1 = Done (tt, s2) /\
  timers_ s2 = timers_ state.
Proof.
  destruct (addTimer clock 9%nat 40 (double_of_Z 0) state) as [[id s1]|f] eqn:E;
    [|vm_compute in E; discriminate].
  destruct (addTimer_cancel_roundtrip clock 9%nat 40 (double_of_Z 0) state id s1 TInv_state E)
    as (s2 & E2 & _ & _ & Ht & _).
  exists id, s1, s2. auto.
Defined.

(** Address 1 is freed and given to a new timer; the old identifier is dead. *)
Lemma stale_id_harmless_witness : exists s s1,
  cancel (1, 0) state = Done (tt, s) /\
  for_each [AddTimer 9%nat 300 (double_of_Z 0)] (run_action clock) s = Done (tt, s1) /\
  (exists t, theap s1 !! 1 = Some t) /\ dead (1, 0) s1.
Proof.
  destruct (cancel (1, 0) state) as [[[] s]|f] eqn:E; [|vm_compute in E; discriminate].
  assert (I : TInv s).
  { destruct (cancelInLoop_run (1, 0) state TInv_state) as (s' & E' & I' & _).
    unfold cancel in E. congruence. }
  assert (Hd : dead (1, 0) s).
  { revert E. vm_compute. intros [= <-]. split; [reflexivity|discriminate]. }
  destruct (for_each [AddTimer 9%nat 300 (double_of_Z 0)] (run_action clock) s) as [[[] s1]|f] eqn:E1.
  - exists s, s1. split_and!; auto.
    + revert E E1. vm_compute. intros [= <-] [= <-]. vm_compute. eauto.
    + exact (proj1 (stale_id_harmless clock (1, 0) _ s s1 I Hd E1)).
  - exfalso. revert E E1. vm_compute. intros [= <-]. vm_compute. discriminate.
Defined.
End Demo.
