(* ===== verification/EventLoop.v ===== *)
(** EventLoop: [net/EventLoop.h] and [net/Eventloop.cpp].

    The loop thread and the threads that queue work for it, as an interleaving
    of atomic steps.  What a step does is the code between two points where
    another thread can interfere: taking the mutex, touching [quit_], writing or
    reading the eventfd.  The eventfd is registered edge-triggered, as
    [Channel] does by default: a write makes one edge, [epoll_wait] reports it
    once, and only while the counter is not zero. *)

From Stdlib Require Import ZArith Lia.
From S2P Require Import Prelude Timestamp TimerQueue.

Local Open Scope Z_scope.

Definition kPollTimeMs : Z := 10000.
(** The largest value the counter of an eventfd takes. *)
Definition eventfd_max : Z := 18446744073709551614.

Section EventLoop.
(* functors, and what each does to the loop when it runs on the loop thread *)
Context {F : Type}.

Inductive cmd :=
  | QueueInLoop (f : F)
  | RunInLoop (f : F)
  | Quit
  (* the second half of [queueInLoop], after the mutex is released *)
  | MaybeWakeup.

(** Where the loop thread is inside [loop()]. *)
Inductive phase :=
  | Handling (todo : list (option F))  (* the active channels; None: wakeupChannel_ *)
  | Resuming (todo : list F)           (* processPendingResumes *)
  | Calling (todo : list F).           (* the for loop of doPendingFunctors *)

Inductive pc :=
  | LInit                              (* before loop() *)
  | LCheck                             (* while (!quit_) *)
  | LPoll                              (* inside epoll_wait *)
  | LRunning (ph : phase) (cmds : list cmd)
  | LSwap                              (* doPendingFunctors, before the lock *)
  | LDone.

(** A thread other than the loop's: idle, or between its update and [wakeup()]. *)
Inductive remote := Idle | NeedWakeup.

Record state := mkState {
  looping_ : bool;
  quit_ : bool;
  eventHandling_ : bool;
  callingPendingFunctors_ : bool;
  iteration_ : Z;
  pendingFunctors_ : list F;
  counter : Z;                         (* of the eventfd *)
  edge : bool;                         (* the kernel has an unreported edge *)
  at_ : pc;
  threads : Z -> remote;
  queued : list F;                     (* every functor ever queued *)
  executed : list F;                   (* queued functors called so far *)
}.
Implicit Types (s : state).

Definition set_pc (p : pc) s : state :=
  mkState (looping_ s) (quit_ s) (eventHandling_ s) (callingPendingFunctors_ s) (iteration_ s)
    (pendingFunctors_ s) (counter s) (edge s) p (threads s) (queued s) (executed s).
Definition set_thread (t : Z) (r : remote) s : state :=
  mkState (looping_ s) (quit_ s) (eventHandling_ s) (callingPendingFunctors_ s) (iteration_ s)
    (pendingFunctors_ s) (counter s) (edge s) (at_ s)
    (fun t' => if t' =? t then r else threads s t') (queued s) (executed s).
Definition set_quit (b : bool) s : state :=
  mkState (looping_ s) b (eventHandling_ s) (callingPendingFunctors_ s) (iteration_ s)
    (pendingFunctors_ s) (counter s) (edge s) (at_ s) (threads s) (queued s) (executed s).
Definition set_looping (b : bool) s : state :=
  mkState b (quit_ s) (eventHandling_ s) (callingPendingFunctors_ s) (iteration_ s)
    (pendingFunctors_ s) (counter s) (edge s) (at_ s) (threads s) (queued s) (executed s).
Definition set_handling (b : bool) s : state :=
  mkState (looping_ s) (quit_ s) b (callingPendingFunctors_ s) (iteration_ s)
    (pendingFunctors_ s) (counter s) (edge s) (at_ s) (threads s) (queued s) (executed s).
Definition set_eventfd (n : Z) (e : bool) s : state :=
  mkState (looping_ s) (quit_ s) (eventHandling_ s) (callingPendingFunctors_ s) (iteration_ s)
    (pendingFunctors_ s) n e (at_ s) (threads s) (queued s) (executed s).
Definition set_iteration (n : Z) s : state :=
  mkState (looping_ s) (quit_ s) (eventHandling_ s) (callingPendingFunctors_ s) n
    (pendingFunctors_ s) (counter s) (edge s) (at_ s) (threads s) (queued s) (executed s).
Definition set_pending (calling : bool) (l : list F) s : state :=
  mkState (looping_ s) (quit_ s) (eventHandling_ s) calling (iteration_ s)
    l (counter s) (edge s) (at_ s) (threads s) (queued s) (executed s).
Definition set_history (q e : list F) s : state :=
  mkState (looping_ s) (quit_ s) (eventHandling_ s) (callingPendingFunctors_ s) (iteration_ s)
    (pendingFunctors_ s) (counter s) (edge s) (at_ s) (threads s) q e.

(** The constructor; [early] are functors the loop's own thread queued before
    it called [loop()]. *)
Definition init (early : list F) : state :=
  mkState false false false false 0 early 0 false LInit (fun _ => Idle) early [].

(** [wakeup]: [write] fails with EAGAIN, and is only logged, on a full counter. *)
Definition wakeup s : state :=
  if counter s <? eventfd_max then set_eventfd (counter s + 1) true s else s.

(** [handleRead]: reading an eventfd that is not zero resets it. *)
Definition handleRead s : state := if 0 <? counter s then set_eventfd 0 (edge s) s else s.

(** The eventfd is reported by [epoll_wait]. *)
Definition awake s : bool := edge s && (0 <? counter s).

(** The locked part of [queueInLoop]. *)
Definition push (f : F) s : state :=
  set_pending (callingPendingFunctors_ s) (pendingFunctors_ s ++ [f])
    (set_history (queued s ++ [f]) (executed s) s).

Definition queueSize s : nat := length (pendingFunctors_ s).

Context (body : F -> list cmd).

(** One command of a functor, on the loop thread. *)
Definition run_cmd (c : cmd) (rest : list cmd) s : list cmd * state :=
  match c with
  | QueueInLoop f => (MaybeWakeup :: rest, push f s)
  | MaybeWakeup => (rest, if callingPendingFunctors_ s then wakeup s else s)
  | RunInLoop f => (body f ++ rest, s)
  | Quit => (rest, set_quit true s)
  end.

(** Start the next callback of a phase, or leave the phase. *)
Definition next_in_phase (resumes : list F) (ph : phase) s : state :=
  match ph with
  | Handling [] => set_pc (LRunning (Resuming resumes) []) (set_handling false s)
  | Handling (Some f :: todo) => set_pc (LRunning (Handling todo) (body f)) s
  | Handling (None :: todo) => set_pc (LRunning (Handling todo) []) (handleRead s)
  | Resuming [] => set_pc LSwap s
  | Resuming (f :: todo) => set_pc (LRunning (Resuming todo) (body f)) s
  | Calling [] => set_pc LCheck (set_pending false (pendingFunctors_ s) s)
  | Calling (f :: todo) =>
      set_pc (LRunning (Calling todo) (body f)) (set_history (queued s) (executed s ++ [f]) s)
  end.

(** [epoll_wait] returns the active channels [act]. *)
Definition poll_return (act : list (option F)) s : state :=
  set_pc (LRunning (Handling act) []) (set_handling true (set_iteration (iteration_ s + 1) s)).

(** A step of the loop thread, when the kernel has the callbacks [io] ready
    around the wakeup channel and [resumes] coroutines are to be resumed;
    [None] when the thread is blocked or has left [loop()]. *)
Definition loop_step (io : list F * list F) (resumes : list F) s : option state :=
  match at_ s with
  | LInit => Some (set_pc LCheck (set_quit false (set_looping true s)))
  | LCheck => Some (if quit_ s then set_pc LDone (set_looping false s) else set_pc LPoll s)
  | LPoll =>
      if awake s then
        Some (poll_return (map Some (fst io) ++ None :: map Some (snd io))
                (set_eventfd (counter s) false s))
      else match fst io ++ snd io with
           | [] => None
           | l => Some (poll_return (map Some l) s)
           end
  | LRunning ph [] => Some (next_in_phase resumes ph s)
  | LRunning ph (c :: rest) =>
      let '(cmds, s') := run_cmd c rest s in Some (set_pc (LRunning ph cmds) s')
  | LSwap => Some (set_pc (LRunning (Calling (pendingFunctors_ s)) []) (set_pending true [] s))
  | LDone => None
  end.

(** Steps of the whole program. *)
Inductive step : state -> state -> Prop :=
  | step_loop io resumes s s' : loop_step io resumes s = Some s' -> step s s'
  (* the poll times out, or the event array has no room for the eventfd *)
  | step_poll_other l s : at_ s = LPoll -> step s (poll_return (map Some l) s)
  (* queueInLoop (and runInLoop) on another thread *)
  | step_remote_queue t f s : threads s t = Idle ->
      step s (set_thread t NeedWakeup (push f s))
  (* quit on another thread *)
  | step_remote_quit t s : threads s t = Idle ->
      step s (set_thread t NeedWakeup (set_quit true s))
  | step_remote_wakeup t s : threads s t = NeedWakeup ->
      step s (set_thread t Idle (wakeup s)).

Definition reachable (early : list F) s : Prop := rtc step (init early) s.

(** ** The invariant *)

(** Functors swapped out of the queue and not called yet. *)
Definition batch s : list F :=
  match at_ s with LRunning (Calling todo) _ => todo | _ => [] end.

(** The loop thread reaches the swap of [doPendingFunctors] before it polls. *)
Definition before_swap s : Prop :=
  match at_ s with
  | LRunning (Handling _) _ | LRunning (Resuming _) _ | LSwap => True
  | _ => False
  end.

Definition wakeup_coming s : Prop := exists t, threads s t = NeedWakeup.

(** The wakeup channel is active in this iteration and not read yet. *)
Definition unread s : Prop :=
  match at_ s with LRunning (Handling todo) _ => None ∈ todo | _ => False end.

(** The running functor is inside [queueInLoop]. *)
Definition own_wakeup s : Prop :=
  match at_ s with LRunning (Calling _) cmds => MaybeWakeup ∈ cmds | _ => False end.

Record Inv s : Prop := {
  inv_fifo : queued s = executed s ++ batch s ++ pendingFunctors_ s;
  inv_calling : callingPendingFunctors_ s = true <->
    match at_ s with LRunning (Calling _) _ => True | _ => False end;
  inv_counter : 0 <= counter s;
  inv_edge : 0 < counter s -> edge s = true \/ unread s;
  inv_pending : pendingFunctors_ s <> [] ->
    before_swap s \/ awake s = true \/ wakeup_coming s \/ own_wakeup s;
  inv_quit : quit_ s = true -> at_ s = LPoll -> awake s = true \/ wakeup_coming s;
}.

Lemma Inv_init : Inv (init []).
Proof. constructor; cbn; try done; try tauto; lia. Qed.

Lemma awake_spec s : awake s = true <-> edge s = true /\ 0 < counter s.
Proof. unfold awake. rewrite andb_true_iff, Z.ltb_lt. tauto. Qed.

Lemma awake_wakeup s : Inv s -> ~ unread s -> awake (wakeup s) = true.
Proof.
  intros I Hu. apply awake_spec. unfold wakeup. pose proof (inv_counter _ I).
  destruct (Z.ltb_spec (counter s) eventfd_max) as [|Hge]; cbn; [split; [done|lia]|].
  assert (0 < counter s) as Hc by (unfold eventfd_max in *; lia).
  destruct (inv_edge _ I Hc); tauto.
Qed.

Lemma awake_mono s : awake s = true -> awake (wakeup s) = true.
Proof. rewrite !awake_spec. unfold wakeup. case_match; cbn; intuition lia. Qed.

(** [wakeup] on behalf of any thread. *)
Lemma wakeup_fields s : at_ (wakeup s) = at_ s /\ threads (wakeup s) = threads s /\
  pendingFunctors_ (wakeup s) = pendingFunctors_ s /\ quit_ (wakeup s) = quit_ s /\
  queued (wakeup s) = queued s /\ executed (wakeup s) = executed s /\
  callingPendingFunctors_ (wakeup s) = callingPendingFunctors_ s.
Proof. unfold wakeup. case_match; auto 10. Qed.

Lemma wakeup_counter s : 0 <= counter s ->
  0 <= counter (wakeup s) /\ (counter (wakeup s) = counter s /\ edge (wakeup s) = edge s \/ edge (wakeup s) = true).
Proof. unfold wakeup. case_match; cbn; lia || auto. Qed.

Lemma wakeup_coming_set t r s :
  r = NeedWakeup \/ (wakeup_coming s /\ threads s t <> NeedWakeup) -> wakeup_coming (set_thread t r s).
Proof.
  intros [->|[[t' Ht'] Hne]].
  - exists t. cbn. now rewrite Z.eqb_refl.
  - exists t'. cbn. destruct (Z.eqb_spec t' t); congruence.
Qed.

(** Steps of other threads. *)
Lemma Inv_remote_queue t f s : Inv s -> Inv (set_thread t NeedWakeup (push f s)).
Proof.
  intros []. constructor; cbn; auto.
  - rewrite inv_fifo0, <-!app_assoc. reflexivity.
  - intros _. do 2 right. left. apply wakeup_coming_set. now left.
  - intros _ _. right. apply wakeup_coming_set. now left.
Qed.

Lemma Inv_remote_quit t s : Inv s -> Inv (set_thread t NeedWakeup (set_quit true s)).
Proof.
  intros []. constructor; cbn; auto.
  - intros _. do 2 right. left. apply wakeup_coming_set. now left.
  - intros _ _. right. apply wakeup_coming_set. now left.
Qed.

Lemma none_listed (l : list (option F)) : None ∈ l \/ None ∉ l.
Proof.
  induction l as [|[f|] l IH]; [right; apply not_elem_of_nil| |left; left].
  destruct IH; [left; now right|right]. now rewrite not_elem_of_cons.
Qed.

Lemma Inv_remote_wakeup t s : Inv s -> Inv (set_thread t Idle (wakeup s)).
Proof.
  intros I. destruct (wakeup_fields s) as (Ha & Ht & Hp & Hq & Hqu & He & Hc).
  assert (Hpoll : unread s \/ awake (wakeup s) = true).
  { unfold unread. destruct (at_ s) as [| | |[todo|todo|todo] cmds| |] eqn:Epc; try (right; apply awake_wakeup; auto; unfold unread; rewrite Epc; tauto).
    destruct (none_listed todo); [now left|right]. apply awake_wakeup; auto. unfold unread. now rewrite Epc. }
  destruct I. destruct (wakeup_counter s inv_counter0) as [Hn He'].
  constructor; cbn.
  - unfold batch; cbn. now rewrite Ha, Hqu, He, Hp.
  - now rewrite Hc, Ha.
  - exact Hn.
  - unfold unread; cbn. rewrite Ha. destruct He' as [[-> ->]| ->]; auto.
  - rewrite Hp. intros Hne. destruct Hpoll as [Hu|Hw]; [|auto].
    left. unfold before_swap, unread in *; cbn. rewrite Ha. repeat case_match; tauto.
  - rewrite Hq, Ha. intros _ Epc. destruct Hpoll as [Hu|Hw]; [|auto].
    unfold unread in Hu. now rewrite Epc in Hu.
Qed.

Lemma Inv_poll_other l s : Inv s -> at_ s = LPoll -> Inv (poll_return (map Some l) s).
Proof.
  intros [] Epc. unfold batch, unread in *. rewrite Epc in *. constructor; cbn; auto; try tauto.
Qed.

(** A command of the loop thread. *)
Lemma Inv_cmd ph c rest s cmds s' : Inv s -> at_ s = LRunning ph (c :: rest) ->
  run_cmd c rest s = (cmds, s') -> Inv (set_pc (LRunning ph cmds) s').
Proof.
  intros I Epc. pose proof I as []. unfold batch, unread, before_swap, own_wakeup in *. rewrite Epc in *.
  destruct c as [f|f| |]; cbn; intros [= <- <-].
  - constructor; cbn; auto; try discriminate.
    + rewrite inv_fifo0, <-!app_assoc. reflexivity.
    + intros _. destruct ph; cbn; auto. do 3 right. now left.
  - constructor; cbn; auto; try discriminate. intros Hne. destruct ph; cbn; auto.
    destruct (inv_pending0 Hne) as [?|[?|[?|Hin]]]; auto. apply elem_of_cons in Hin as [|Hin]; [done|].
    do 3 right. apply elem_of_app. now right.
  - constructor; cbn; auto; try discriminate. intros Hne. destruct ph; cbn; auto.
    destruct (inv_pending0 Hne) as [?|[?|[?|Hin]]]; auto. apply elem_of_cons in Hin as [|Hin]; [done|].
    auto.
  - destruct (callingPendingFunctors_ s) eqn:Ecall.
    + destruct ph as [todo|todo|todo]; [now destruct inv_calling0 as [Hx _]; destruct (Hx eq_refl)..|].
      destruct (wakeup_fields s) as (Ha & Ht & Hp & Hq & Hqu & He & Hc).
      assert (Haw : awake (wakeup s) = true) by (apply awake_wakeup; [exact I|unfold unread; now rewrite Epc]).
      destruct (wakeup_counter s inv_counter0) as [Hn He'].
      constructor; cbn; try rewrite Hc, Ecall; try tauto; try discriminate.
      * unfold batch; cbn. now rewrite Hqu, He, Hp.
      * left. now apply awake_spec in Haw.
    + destruct ph as [todo|todo|todo]; [| |now destruct inv_calling0 as [_ Hx]; discriminate Hx];
        constructor; cbn; auto; try rewrite Ecall; try tauto; try discriminate.
Qed.

Lemma Inv_next resumes ph s : Inv s -> at_ s = LRunning ph [] -> Inv (next_in_phase resumes ph s).
Proof.
  intros I Epc. pose proof I as []. unfold batch, unread, before_swap, own_wakeup in *. rewrite Epc in *.
  destruct ph as [[|[f|] todo]|[|f todo]|[|f todo]]; cbn.
  - constructor; cbn; auto; try tauto; try discriminate.
    intros Hc. destruct (inv_edge0 Hc) as [|Hu]; [auto|now apply not_elem_of_nil in Hu].
  - constructor; cbn; auto; try discriminate.
    intros Hc. destruct (inv_edge0 Hc) as [|Hu]; [auto|]. right. unfold unread; cbn.
    now apply elem_of_cons in Hu as [|].
  - unfold handleRead. constructor; cbn; repeat case_match; cbn; auto; try tauto; try discriminate; try lia.
  - constructor; cbn; auto; try tauto; try discriminate.
  - constructor; cbn; auto; try tauto; try discriminate.
  - constructor; cbn; auto; try tauto; try discriminate.
    + split; [discriminate|tauto].
    + intros Hne. destruct (inv_pending0 Hne) as [Hx|[Hx|[Hx|Hin]]]; [tauto|auto|auto|now apply not_elem_of_nil in Hin].
  - constructor; cbn; auto; try tauto; try discriminate.
    + rewrite inv_fifo0, <-!app_assoc. reflexivity.
    + intros Hne. destruct (inv_pending0 Hne) as [Hx|[Hx|[Hx|Hin]]]; [tauto|auto|auto|now apply not_elem_of_nil in Hin].
Qed.

Lemma Inv_loop_step io resumes s s' : Inv s -> loop_step io resumes s = Some s' -> Inv s'.
Proof.
  intros I. unfold loop_step. destruct (at_ s) as [| | |ph [|c rest]| |] eqn:Epc.
  - intros [= <-]. pose proof I as []. unfold batch, unread, before_swap, own_wakeup in *. rewrite Epc in *.
    constructor; cbn; auto; discriminate.
  - destruct (quit_ s) eqn:Eq; intros [= <-]; pose proof I as [];
      unfold batch, unread, before_swap, own_wakeup in *; rewrite Epc in *; constructor; cbn; auto; congruence.
  - pose proof I as []. destruct (awake s) eqn:Ew.
    + intros [= <-]. unfold batch, unread, before_swap, own_wakeup in *. rewrite Epc in *.
      constructor; cbn; auto; try tauto; try discriminate.
      intros _. right. unfold unread; cbn. apply elem_of_app. right. now left.
    + destruct (fst io ++ snd io) as [|x l] eqn:El; [discriminate|]. intros [= <-].
      now apply (Inv_poll_other (x :: l)).
  - intros [= <-]. now apply Inv_next.
  - destruct (run_cmd c rest s) as [cmds s1] eqn:Ec. intros [= <-]. eapply Inv_cmd; eauto.
  - intros [= <-]. pose proof I as []. unfold batch, unread, before_swap, own_wakeup in *. rewrite Epc in *.
    constructor; cbn; auto; try tauto; try discriminate. now rewrite app_nil_r.
  - discriminate.
Qed.

Lemma Inv_step s s' : Inv s -> step s s' -> Inv s'.
Proof.
  intros I Hs. revert I. destruct Hs; intros I; eauto using Inv_loop_step, Inv_poll_other, Inv_remote_queue, Inv_remote_quit, Inv_remote_wakeup.
Qed.

(** The one exception: functors that the loop's own thread queued before [loop()]
    are not announced, until something makes the loop run for the first time. *)
Definition unannounced (early : list F) s : Prop :=
  iteration_ s = 0 /\ queued s = early /\ pendingFunctors_ s = early /\ executed s = [] /\ quit_ s = false.

(** The states before that: constructed, in [loop()], and asleep. *)
Definition entered (early : list F) : state := set_pc LCheck (set_quit false (set_looping true (init early))).
Definition sleeping (early : list F) : state := set_pc LPoll (entered early).
Definition starting (early : list F) s : Prop := s = init early \/ s = entered early \/ s = sleeping early.

Lemma starting_unannounced early s : starting early s -> unannounced early s /\ batch s = [].
Proof. intros [->|[->| ->]]; by split_and!. Qed.

(** A functor or a quit request of another thread announces what is queued. *)
Lemma Inv_announced early f q t s : starting early s ->
  Inv (set_thread t NeedWakeup (set_quit q (if f is Some g then push g s else s))).
Proof.
  intros Hs. assert (Hc : wakeup_coming (set_thread t NeedWakeup (set_quit q (if f is Some g then push g s else s)))).
  { apply wakeup_coming_set. now left. }
  destruct Hs as [->|[->| ->]], f as [g|]; constructor; cbn; try done; try tauto; try lia.
Qed.

Lemma step_starting early s s' : starting early s -> step s s' -> starting early s' \/ Inv s'.
Proof.
  intros Hs Hst. destruct Hst as [io resumes s s' E|l s Epc|t f s _|t s _|t s Et].
  - destruct Hs as [->|[->| ->]]; cbn in E.
    + left. right. left. now injection E as <-.
    + left. right. right. now injection E as <-.
    + right. unfold loop_step in E. cbn in E. destruct (fst io ++ snd io) as [|x l] eqn:El; [discriminate|].
      injection E as <-. constructor; cbn; try done; try tauto; lia.
  - right. destruct Hs as [->|[->| ->]]; try discriminate. constructor; cbn; try done; try tauto; lia.
  - right. exact (Inv_announced early (Some f) (quit_ s) t s Hs).
  - right. exact (Inv_announced early None true t s Hs).
  - destruct Hs as [->|[->| ->]]; discriminate.
Qed.

Lemma reachable_cases early s : reachable early s -> Inv s \/ starting early s.
Proof.
  revert s. apply rtc_ind_r; [right; now left|]. intros s s' _ Hst [I|Hs]; [left; eauto using Inv_step|].
  destruct (step_starting early s s' Hs Hst); auto.
Qed.

Lemma Inv_starting s : starting [] s -> Inv s.
Proof. intros [->|[->| ->]]; [exact Inv_init|constructor; cbn; try done; try tauto; lia..]. Qed.

Lemma Inv_reachable early s : reachable early s -> early = [] \/ ~ unannounced early s -> Inv s.
Proof.
  intros [I|Hs]%reachable_cases; [done|]. intros [->|Hn]; [now apply Inv_starting|].
  destruct Hn. now apply starting_unannounced.
Qed.

(** Work is only added, and the other threads do nothing. *)
Definition grows (l : list F) s s' : Prop :=
  executed s' = executed s ++ l /\ (exists x, pendingFunctors_ s' = pendingFunctors_ s ++ x) /\
  threads s' = threads s.

Lemma grows_refl s : grows [] s s.
Proof. split_and!; auto; [now rewrite app_nil_r|]. exists []. now rewrite app_nil_r. Qed.

Lemma grows_same s s' : executed s' = executed s -> pendingFunctors_ s' = pendingFunctors_ s ->
  threads s' = threads s -> grows [] s s'.
Proof. intros E P T. split_and!; [now rewrite E, app_nil_r|exists []; now rewrite P, app_nil_r|exact T]. Qed.

Lemma grows_wakeup p s :
  grows [] s (set_pc p (if callingPendingFunctors_ s then wakeup s else s)).
Proof.
  destruct (wakeup_fields s) as (_ & Ht & Hp & _ & _ & He & _). case_match; now apply grows_same.
Qed.

Lemma grows_trans l l' s1 s2 s3 : grows l s1 s2 -> grows l' s2 s3 -> grows (l ++ l') s1 s3.
Proof.
  intros (E1 & [x Ex] & T1) (E2 & [y Ey] & T2). split_and!; [|exists (x ++ y)|congruence].
  - now rewrite E2, E1, app_assoc.
  - now rewrite Ey, Ex, app_assoc.
Qed.

(** ** A loop thread on its own

    What [EventLoop::loop] and the loops of the classes derived from it have in
    common: the functors, and [doPendingFunctors].  [base] is the part of the
    state that is the base class's. *)

Section LoopThread.
Context {T : Type} (base : T -> state) (lstep : T -> option T).
Implicit Types (x y : T).

Record LoopThread : Prop := {
  lt_cmd x ph c rest cmds s' : at_ (base x) = LRunning ph (c :: rest) -> run_cmd c rest (base x) = (cmds, s') ->
    exists x', lstep x = Some x' /\ base x' = set_pc (LRunning ph cmds) s';
  lt_calling x todo : at_ (base x) = LRunning (Calling todo) [] ->
    exists x', lstep x = Some x' /\ base x' = next_in_phase [] (Calling todo) (base x);
  lt_swap x : at_ (base x) = LSwap -> exists x', lstep x = Some x' /\
    base x' = set_pc (LRunning (Calling (pendingFunctors_ (base x))) []) (set_pending true [] (base x));
}.

(** The loop thread takes [n] steps, or as many as it can. *)
Fixpoint run_loop (n : nat) x : T :=
  match n with
  | O => x
  | S n => match lstep x with Some x' => run_loop n x' | None => x end
  end.

Definition leads : relation T := rtc (fun x x' => lstep x = Some x').

Lemma leads_run x x' : leads x x' -> exists n, run_loop n x = x'.
Proof.
  induction 1 as [x|x x1 x' E _ [n Hn]]; [now exists O|]. exists (S n). cbn. now rewrite E.
Qed.

Definition goes_to (l : list F) x (p : pc) : Prop :=
  exists x', leads x x' /\ at_ (base x') = p /\ grows l (base x) (base x').

Lemma goes_here x p : at_ (base x) = p -> goes_to [] x p.
Proof. intros Ep. exists x. split_and!; [constructor|exact Ep|apply grows_refl]. Qed.

Lemma goes_trans l l' x p q :
  goes_to l x p -> (forall x', leads x x' -> at_ (base x') = p -> grows l (base x) (base x') -> goes_to l' x' q) ->
  goes_to (l ++ l') x q.
Proof.
  intros (x1 & L1 & P1 & G1) H. destruct (H x1 L1 P1 G1) as (x2 & L2 & P2 & G2).
  exists x2. split_and!; [unfold leads in *; etransitivity; eauto|auto|eapply grows_trans; eauto].
Qed.

Lemma goes_step l x x1 q : lstep x = Some x1 -> grows [] (base x) (base x1) -> goes_to l x1 q -> goes_to l x q.
Proof.
  intros E G (x2 & L2 & P2 & G2). exists x2.
  split_and!; [eapply rtc_l; eauto|auto|]. exact (grows_trans [] l _ _ _ G G2).
Qed.

(** Functor [g] is called directly by functor [f]. *)
Definition calls (g f : F) : Prop := RunInLoop g ∈ body f.

Definition finishes (c : list cmd) : Prop := forall x ph rest,
  at_ (base x) = LRunning ph (c ++ rest) -> goes_to [] x (LRunning ph rest).

Hypothesis thread : LoopThread.

Lemma finishes_cons c l : (forall g, c = RunInLoop g -> finishes (body g)) -> finishes l ->
  finishes (c :: l).
Proof.
  intros Hc Hl x ph rest Epc. cbn in Epc. destruct (run_cmd c (l ++ rest) (base x)) as [cmds s'] eqn:Ec.
  destruct (lt_cmd thread x ph c _ _ _ Epc Ec) as (x1 & E1 & B1).
  destruct c as [f|f| |]; injection Ec as <- <-; (eapply goes_step; [exact E1|rewrite B1|]).
  - split_and!; cbn; eauto using app_nil_r.
  - destruct (lt_cmd thread x1 ph MaybeWakeup (l ++ rest) _ _ ltac:(now rewrite B1) eq_refl) as (x2 & E2 & B2).
    eapply goes_step; [exact E2|rewrite B2; apply grows_wakeup|]. apply Hl. now rewrite B2.
  - now apply grows_same.
  - eapply (goes_trans [] []); [apply (Hc f eq_refl); now rewrite B1|]. intros x' _ Hx' _. now apply Hl.
  - now apply grows_same.
  - apply Hl. now rewrite B1.
  - apply grows_wakeup.
  - apply Hl. now rewrite B1.
Qed.

Lemma finishes_list c : (forall g, RunInLoop g ∈ c -> finishes (body g)) -> finishes c.
Proof.
  induction c as [|d c IH]; intros H.
  - intros x ph rest Epc. now apply goes_here.
  - apply finishes_cons; [intros g ->; apply H; left|apply IH; intros g Hg; apply H; now right].
Qed.

(** A functor whose direct calls are well founded returns. *)
Lemma finishes_body f : Acc calls f -> finishes (body f).
Proof. induction 1 as [f _ IH]. apply finishes_list. intros g Hg. now apply IH. Qed.

Hypothesis calls_wf : well_founded calls.

Lemma finishes_all c : finishes c.
Proof. apply finishes_list. intros g _. apply finishes_body, calls_wf. Qed.

Lemma goes_cmds x ph c : at_ (base x) = LRunning ph c -> goes_to [] x (LRunning ph []).
Proof. intros Epc. apply (finishes_all c). now rewrite app_nil_r. Qed.

Lemma calling_goes todo x : at_ (base x) = LRunning (Calling todo) [] -> goes_to todo x LCheck.
Proof.
  revert x; induction todo as [|f todo IH]; intros x Epc; destruct (lt_calling thread x _ Epc) as (x1 & E1 & B1).
  - eapply goes_step; [exact E1|rewrite B1; now apply grows_same|]. apply goes_here. now rewrite B1.
  - destruct (goes_cmds x1 (Calling todo) (body f)) as (x2 & L2 & P2 & G2); [now rewrite B1|].
    destruct (IH x2 P2) as (x3 & L3 & P3 & G3). exists x3. split_and!; [|exact P3|].
    + eapply rtc_l; [exact E1|]. unfold leads in *. etransitivity; eauto.
    + eapply (grows_trans [f] todo); [|exact G3]. eapply (grows_trans [f] []); [|exact G2].
      rewrite B1. split_and!; cbn; auto. exists []. now rewrite app_nil_r.
Qed.

(** From the swap on, everything queued before it is called. *)
Lemma swap_runs x : at_ (base x) = LSwap ->
  exists x', leads x x' /\ at_ (base x') = LCheck /\ executed (base x') = executed (base x) ++ pendingFunctors_ (base x).
Proof.
  intros Epc. destruct (lt_swap thread x Epc) as (x1 & E1 & B1).
  destruct (calling_goes (pendingFunctors_ (base x)) x1) as (x2 & L2 & P2 & G2 & _); [now rewrite B1|].
  exists x2. split_and!; [eapply rtc_l; eauto|exact P2|now rewrite G2, B1].
Qed.

(** The loop has ended, or has called every functor of [q]. *)
Definition served (q : list F) s : Prop := at_ s = LDone \/ q `prefix_of` executed s.

Lemma goes_swap_served x q : goes_to [] x LSwap -> q `prefix_of` executed (base x) ++ pendingFunctors_ (base x) ->
  exists x', leads x x' /\ served q (base x').
Proof.
  intros (x1 & L1 & P1 & E1 & [l El] & _) Hq. destruct (swap_runs x1 P1) as (x2 & L2 & _ & E2).
  exists x2. split; [unfold leads in *; etransitivity; eauto|]. right. rewrite E2, E1, El, app_nil_r.
  rewrite app_assoc. now apply prefix_app_r.
Qed.
End LoopThread.

(** ** The loop thread of an EventLoop *)

(** What the kernel and the coroutine scheduler have ready in each iteration. *)
Context (env : Z -> (list F * list F) * list F).

Definition lstep s : option state :=
  loop_step (fst (env (iteration_ s))) (snd (env (iteration_ s))) s.

Lemma loop_thread : LoopThread (fun s => s) lstep.
Proof.
  constructor.
  - intros s ph c rest cmds s' Epc Ec. eexists. split; [|reflexivity]. unfold lstep, loop_step. now rewrite Epc, Ec.
  - intros s todo Epc. eexists. split; [unfold lstep, loop_step; now rewrite Epc|]. now destruct todo.
  - intros s Epc. eexists. split; [unfold lstep, loop_step; now rewrite Epc|reflexivity].
Qed.

Lemma leads_Inv s s' : Inv s -> leads lstep s s' -> Inv s'.
Proof. intros I. induction 1 as [|s s1 s' E _ IH]; [auto|]. eapply IH, Inv_loop_step; eassumption. Qed.

Hypothesis calls_wf : well_founded calls.
Abbreviation goes := (goes_to (fun s => s) lstep).

(** Leave a phase whose callbacks have returned. *)
Lemma lstep_next s ph : at_ s = LRunning ph [] ->
  lstep s = Some (next_in_phase (snd (env (iteration_ s))) ph s).
Proof. intros Epc. unfold lstep, loop_step. now rewrite Epc. Qed.

Lemma resuming_goes todo s : at_ s = LRunning (Resuming todo) [] -> goes [] s LSwap.
Proof.
  revert s; induction todo as [|f todo IH]; intros s Epc;
    (eapply goes_step; [exact (lstep_next _ _ Epc)|now apply grows_same|]).
  - now apply goes_here.
  - eapply (goes_trans _ _ [] []); [eapply (goes_cmds _ _ loop_thread calls_wf); reflexivity|]. intros s' _ Hs' _. now apply IH.
Qed.

Lemma handling_goes todo s : at_ s = LRunning (Handling todo) [] -> goes [] s LSwap.
Proof.
  revert s; induction todo as [|[f|] todo IH]; intros s Epc.
  - eapply goes_step; [exact (lstep_next _ _ Epc)|now apply grows_same|]. now eapply resuming_goes.
  - eapply goes_step; [exact (lstep_next _ _ Epc)|now apply grows_same|].
    eapply (goes_trans _ _ [] []); [eapply (goes_cmds _ _ loop_thread calls_wf); reflexivity|]. intros s' _ Hs' _. now apply IH.
  - eapply goes_step; [exact (lstep_next _ _ Epc)| |now apply IH].
    cbn. unfold handleRead. case_match; now apply grows_same.
Qed.

Lemma poll_served s : Inv s -> at_ s = LPoll -> (forall t, threads s t = Idle) ->
  exists s', leads lstep s s' /\ served (queued s) s'.
Proof.
  intros I Epc Hidle. pose proof (inv_fifo _ I) as Hf. unfold batch in Hf. rewrite Epc in Hf.
  destruct (pendingFunctors_ s) as [|f l] eqn:Ep.
  { exists s. split; [constructor|]. right. rewrite Hf, app_nil_r. reflexivity. }
  assert (Ew : awake s = true).
  { destruct (inv_pending _ I) as [Hb|[?|[[t Ht]|Ho]]]; [congruence| |auto| |].
    - unfold before_swap in Hb. now rewrite Epc in Hb.
    - specialize (Hidle t). congruence.
    - unfold own_wakeup in Ho. now rewrite Epc in Ho. }
  apply (goes_swap_served _ _ loop_thread calls_wf); [|rewrite Hf, Ep; reflexivity].
  set (io := fst (env (iteration_ s))).
  assert (E1 : lstep s = Some (poll_return (map Some (fst io) ++ None :: map Some (snd io))
                (set_eventfd (counter s) false s))).
  { unfold lstep, loop_step. now rewrite Epc, Ew. }
  eapply goes_step; [exact E1|now apply grows_same|]. now eapply handling_goes.
Qed.

Lemma check_served s : Inv s -> at_ s = LCheck -> (forall t, threads s t = Idle) ->
  exists s', leads lstep s s' /\ served (queued s) s'.
Proof.
  intros I Epc Hidle. destruct (quit_ s) eqn:Eq.
  - eexists. split; [eapply rtc_once; unfold lstep, loop_step; rewrite Epc, Eq; reflexivity|now left].
  - assert (E1 : lstep s = Some (set_pc LPoll s)) by (unfold lstep, loop_step; now rewrite Epc, Eq).
    destruct (poll_served (set_pc LPoll s)) as (s' & L & Hs); [eapply Inv_loop_step; eauto|done|done|].
    exists s'. split; [eapply rtc_l; eauto|exact Hs].
Qed.

(** From anywhere the loop thread serves what is queued. *)
Lemma loop_serves s : Inv s -> (forall t, threads s t = Idle) -> exists s', leads lstep s s' /\ served (queued s) s'.
Proof.
  intros I Hidle. pose proof (inv_fifo _ I) as Hf. unfold batch in Hf.
  assert (Hswap : goes [] s LSwap -> batch s = [] -> exists s', leads lstep s s' /\ served (queued s) s').
  { intros Hg Hb. apply (goes_swap_served _ _ loop_thread calls_wf); [exact Hg|]. rewrite (inv_fifo _ I), Hb. reflexivity. }
  destruct (at_ s) as [| | |ph c| |] eqn:Epc.
  - set (s1 := set_pc LCheck (set_quit false (set_looping true s))).
    assert (E1 : lstep s = Some s1) by (unfold lstep, loop_step; now rewrite Epc).
    destruct (check_served s1) as (s' & L & Hs); [eapply Inv_loop_step; eauto|done|done|].
    exists s'. split; [eapply rtc_l; eauto|exact Hs].
  - now apply check_served.
  - now apply poll_served.
  - pose proof (goes_cmds _ _ loop_thread calls_wf s ph c Epc) as Hc. destruct ph as [todo|todo|todo].
    + apply Hswap; [|unfold batch; now rewrite Epc]. eapply (goes_trans _ _ [] []); [exact Hc|]. intros; eapply handling_goes; eauto.
    + apply Hswap; [|unfold batch; now rewrite Epc]. eapply (goes_trans _ _ [] []); [exact Hc|]. intros; eapply resuming_goes; eauto.
    + destruct (goes_trans _ _ [] todo s _ LCheck Hc) as (s2 & L2 & P2 & E2 & [x Ex] & T2);
        [intros; eapply (calling_goes _ _ loop_thread calls_wf); eauto|].
      assert (I2 : Inv s2) by eauto using leads_Inv.
      destruct (check_served s2 I2 P2) as (s' & L' & Hs); [congruence|].
      exists s'. split; [unfold leads in *; etransitivity; eauto|]. destruct Hs as [Hd|Hs]; [now left|right].
      etransitivity; [|exact Hs]. pose proof (inv_fifo _ I2) as Hf2. unfold batch in Hf2. rewrite P2 in Hf2.
      rewrite Hf, Hf2, E2, Ex, <-!app_assoc. exists x. now rewrite <-!app_assoc.
  - apply Hswap; [now apply goes_here|unfold batch; now rewrite Epc].
  - exists s. split; [constructor|now left].
Qed.
End EventLoop.

(** ** Timers of the loop *)

Section Timers.
Context {CB : Type} `{Allocator CB} (clock : nat -> Z).
Abbreviation tq := (tq_state CB).

Definition cancel (timerId : TimerId) : ST tq unit := TimerQueue.cancel timerId.

Definition runAt (time : Z) (cb : CB) : ST tq unit :=
  _ ← addTimer clock cb time (double_of_Z 0); mret tt.

(** [addTime(Timestamp::now(), delay)]. *)
Definition time_after (delay : double) : ST tq Z :=
  t ← now clock;
  match addTime t delay with Some e => mret e | None => fail UndefinedBehaviour end.

Definition runAfter (delay : double) (cb : CB) : ST tq unit :=
  time ← time_after delay; runAt time cb.

Definition runEvery (interval : double) (cb : CB) : ST tq unit :=
  time ← time_after interval; _ ← addTimer clock cb time interval; mret tt.
End Timers.

(** ** Properties *)

(** C1: work handed to the loop is not lost to sleep.  Whenever the loop thread
    is inside [epoll_wait] with functors queued, or told to quit, the eventfd is
    about to be reported or another thread is between its update and its
    [wakeup()], whatever the interleaving; with a single exception: before its
    first iteration the loop can sleep with exactly the functors [early] that its
    own thread queued before it called [loop()]. *)
Theorem no_lost_wakeup {F} (body : F -> list cmd) (early : list F) (s : state (F := F)) :
  reachable body early s -> at_ s = LPoll -> pendingFunctors_ s <> [] \/ quit_ s = true ->
  awake s = true \/ wakeup_coming s \/ early <> [] /\ unannounced early s.
Proof.
  intros Hr Epc Hpq. destruct (reachable_cases body early s Hr) as [I|Hs].
  - destruct Hpq as [Hp|Hq]; [|destruct (inv_quit _ I Hq Epc); auto].
    destruct (inv_pending _ I Hp) as [Hb|[?|[?|Ho]]]; auto.
    + unfold before_swap in Hb. now rewrite Epc in Hb.
    + unfold own_wakeup in Ho. now rewrite Epc in Ho.
  - apply starting_unannounced in Hs as [Hu _]. right. right. split; [|exact Hu].
    destruct Hu as (_ & _ & Ep & _ & Eq). intros ->. destruct Hpq; congruence.
Qed.

(** functors run in the order they were queued and each exactly once:
    those called so far, those swapped out and those still in the queue are
    together the functors queued, under every interleaving. *)
Theorem functors_fifo {F} (body : F -> list cmd) (early : list F) (s : state (F := F)) :
  reachable body early s -> queued s = executed s ++ batch s ++ pendingFunctors_ s.
Proof.
  intros [I|Hs]%reachable_cases; [apply I|]. apply starting_unannounced in Hs as [(_ & -> & -> & -> & _) ->]. reflexivity.
Qed.

(** C23: when the other threads are idle, the loop thread on its own, whatever
    else is ready meanwhile, calls every functor queued so far or leaves the
    loop because it was told to quit; it does not sleep before.  The exception of
    [no_lost_wakeup] aside: functors queued before [loop()] and not announced. *)
Theorem queued_functors_run {F} (body : F -> list cmd) (env : Z -> (list F * list F) * list F)
    (early : list F) (s : state (F := F)) :
  well_founded (calls body) -> reachable body early s -> early = [] \/ ~ unannounced early s ->
  (forall t, threads s t = Idle) ->
  exists n, served (queued s) (run_loop (lstep body env) n s).
Proof.
  intros Hwf Hr He Hidle. pose proof (Inv_reachable body early s Hr He) as I.
  destruct (loop_serves body env Hwf s I Hidle) as (s' & L & Hs).
  destruct (leads_run _ _ _ L) as [n <-]. eauto.
Qed.

(** a functor that the loop's own thread queues before it calls [loop()]
    is not announced: the loop goes to sleep with the functor in the queue and
    nothing on its way to wake it before the poll times out. *)
Theorem queue_before_loop_sleeps {F} (body : F -> list cmd) (f : F) :
  exists s : state (F := F), reachable body [f] s /\ at_ s = LPoll /\ pendingFunctors_ s = [f] /\
    awake s = false /\ ~ wakeup_coming s.
Proof.
  exists (sleeping [f]). split_and!; try reflexivity; [|intros [t Ht]; discriminate].
  eapply rtc_l; [apply (step_loop body ([], []) []); reflexivity|].
  eapply rtc_l; [apply (step_loop body ([], []) []); reflexivity|constructor].
Qed.

(** ** Concrete inputs *)

Module Demo.
(** Functor 1 queues functor 2, functor 2 quits the loop. *)
Definition body (f : nat) : list (cmd (F := nat)) :=
  match f with 1%nat => [QueueInLoop 2%nat] | 2%nat => [Quit] | _ => [] end.
Definition env (_ : Z) : (list nat * list nat) * list nat := (([], []), []).

(** Thread 7 queues functor 1 while the loop sleeps, and has not written yet. *)
Definition asleep : state (F := nat) := set_pc LPoll (set_pc LCheck (set_quit false (set_looping true (init [])))).
Definition pushed : state (F := nat) := set_thread 7 NeedWakeup (push 1%nat asleep).
Definition woken : state (F := nat) := set_thread 7 Idle (wakeup pushed).

Lemma asleep_reachable : reachable body [] asleep.
Proof.
  eapply rtc_l; [apply (step_loop body ([], []) []); reflexivity|].
  eapply rtc_l; [apply (step_loop body ([], []) []); reflexivity|constructor].
Qed.

Lemma pushed_reachable : reachable body [] pushed.
Proof. eapply rtc_r; [apply asleep_reachable|]. now constructor. Qed.

Lemma woken_reachable : reachable body [] woken.
Proof. eapply rtc_r; [apply pushed_reachable|]. now constructor. Qed.

Lemma calls_wf : well_founded (calls body).
Proof.
  intros f. constructor. intros g Hg. exfalso. unfold calls in Hg.
  destruct f as [|[|[|f]]]; cbn in Hg; repeat (apply elem_of_cons in Hg as [Hg|Hg]; [discriminate|]);
    now apply not_elem_of_nil in Hg.
Qed.

(** Functor 1 queued by the loop's own thread, and not before thread 7 queues functor
    2 a wakeup on its way. *)
Lemma early_reachable : reachable body [1%nat] (set_thread 7 NeedWakeup (push 2%nat (sleeping [1%nat]))).
Proof.
  eapply rtc_l; [apply (step_loop body ([], []) []); reflexivity|].
  eapply rtc_l; [apply (step_loop body ([], []) []); reflexivity|].
  eapply rtc_l; [|constructor]. now apply (step_remote_queue body 7 2%nat (sleeping [1%nat])).
Qed.

Lemma no_lost_wakeup_witness :
  (awake pushed = true \/ wakeup_coming pushed \/ ([] : list nat) <> [] /\ unannounced [] pushed) /\
  (awake woken = true \/ wakeup_coming woken \/ ([] : list nat) <> [] /\ unannounced [] woken) /\
  let s := set_thread 7 NeedWakeup (push 2%nat (sleeping [1%nat])) in
  awake s = true \/ wakeup_coming s \/ [1%nat] <> [] /\ unannounced [1%nat] s.
Proof.
  split_and!.
  - apply (no_lost_wakeup body [] pushed pushed_reachable); [reflexivity|left; discriminate].
  - apply (no_lost_wakeup body [] woken woken_reachable); [reflexivity|left; discriminate].
  - apply (no_lost_wakeup body [1%nat] _ early_reachable); [reflexivity|left; discriminate].
Defined.

Lemma functors_fifo_witness : queued pushed = [1%nat] /\
  queued pushed = executed pushed ++ batch pushed ++ pendingFunctors_ pushed.
Proof. split; [reflexivity|]. exact (functors_fifo body [] pushed pushed_reachable). Defined.

Lemma queued_functors_run_witness : exists n, served [1%nat] (run_loop (lstep body env) n woken).
Proof.
  apply (queued_functors_run body env [] woken calls_wf woken_reachable); [now left|].
  intros t. cbn. now destruct (t =? 7).
Defined.

(** Both functors run, the second one in the next iteration, and the loop ends. *)
Lemma woken_runs : let s := run_loop (lstep body env) 30 woken in
  at_ s = LDone /\ executed s = [1%nat; 2%nat] /\ iteration_ s = 2.
Proof. vm_compute. auto. Qed.
End Demo.
