(* ===== verification/ChannelApi.v ===== *)
(** The interface between connections and their channel.

    [ChannelApi] is what a connection or an acceptor calls on its [Channel];
    [ChannelLaws] is what it may rely on.  Channel.cpp, Eventloop.cpp and
    EpollPoller.cpp meet the laws when they are built with [NDEBUG].  With their
    assertions enabled the tear-down itself aborts
    ([Poller.disableAll_remove_asserts]), and there is no instance.  Whether the
    users of a channel are built with assertions is a parameter of their own
    ([Build]): their theorems say that the conditions which they assert hold. *)

From Stdlib Require Import ZArith Lia.
From S2P Require Import Prelude Poller.

Local Open Scope Z_scope.

(** The event switches, [remove], [tie] and the two queries, on a state that holds one
    channel. *)
Class ChannelApi (L : Type) := {
  ch_switch : event_op -> ST L unit;
  ch_remove : ST L unit;
  ch_tie : ST L unit;             (* tie(shared_from_this()) *)
  ch_isReading : L -> bool;
  ch_isWriting : L -> bool;
  ch_watched : L -> bool;         (* the descriptor is in the kernel's interest list *)
}.

Definition op_reading (o : event_op) (b : bool) : bool :=
  match o with OEnableReading => true | ODisableReading | ODisableAll => false | _ => b end.
Definition op_writing (o : event_op) (b : bool) : bool :=
  match o with OEnableWriting => true | ODisableWriting | ODisableAll => false | _ => b end.

(** [usable]: the channel is alive, its owner registered and the caller is on
    the loop thread.  A switch to no event takes the descriptor out of the kernel's
    list, but puts it there when it was not in it; [remove] leaves the list alone. *)
Class ChannelLaws (L : Type) `{ChannelApi L} := {
  usable : L -> Prop;
  switch_ok o l : usable l -> exists l', ch_switch o l = Done (tt, l') /\ usable l' /\
    ch_isReading l' = op_reading o (ch_isReading l) /\
    ch_isWriting l' = op_writing o (ch_isWriting l) /\
    ch_watched l' = negb (ch_watched l) || ch_isReading l' || ch_isWriting l';
  tie_ok l : usable l -> exists l', ch_tie l = Done (tt, l') /\ usable l' /\
    ch_isReading l' = ch_isReading l /\ ch_isWriting l' = ch_isWriting l /\ ch_watched l' = ch_watched l;
  remove_ok l : usable l -> ch_isReading l = false -> ch_isWriting l = false ->
    exists l', ch_remove l = Done (tt, l') /\ ch_watched l' = ch_watched l;
}.

(** [Channel::handleEventWithGuard] of the channel at [p], for callbacks that work on
    a larger state than the loop's; every access to the channel object is one, also
    after a callback has destroyed it. *)
Section Dispatch.
Context {K CB W : Type} `{EpollKernel K} (lift : forall A, ST (loop_state K CB) A -> ST W A) (run : option CB -> ST W unit).

Definition dispatch_event (p : ptr) : ST W unit :=
  _ ← lift _ (upd p (set_eventHandling true));
  c ← lift _ (chan p);
  _ ← when (flag (revents_ c) EPOLLHUP && negb (flag (revents_ c) EPOLLIN)) (run (closeCallback_ c));
  c ← lift _ (chan p);
  _ ← when (flag (revents_ c) EPOLLERR) (run (errorCallback_ c));
  c ← lift _ (chan p);
  _ ← when (flag (revents_ c) (Z.lor (Z.lor EPOLLIN EPOLLPRI) EPOLLRDHUP)) (run (readCallback_ c));
  c ← lift _ (chan p);
  _ ← when (flag (revents_ c) EPOLLOUT) (run (writeCallback_ c));
  lift _ (upd p (set_eventHandling false)).
End Dispatch.

(** Without assertions a channel can always be destroyed. *)
Lemma destroy_release {K CB} `{Build} p (d : Channel CB) (l : loop_state K CB) : asserts_enabled = false -> heap l !! p = Some d ->
  destroyChannel p l = Done (tt, set_heap (delete p (heap l)) l).
Proof.
  intros R E. unfold destroyChannel. st_step (chan_ok p l d E).
  do 2 rewrite (bind_done _ _ _ _ _ (cassert_release _ _ R)). reflexivity.
Qed.

(** ** Event masks *)

Lemma flag_bits x m : 0 <= m -> flag x m = false <->
  forall i, 0 <= i -> Z.testbit m i = true -> Z.testbit x i = false.
Proof.
  intros Hm. unfold flag. rewrite negb_false_iff, Z.eqb_eq. split.
  - intros E i Hi Hb. pose proof (f_equal (fun z => Z.testbit z i) E) as Hx. cbn in Hx.
    rewrite Z.land_spec, Hb, Z.testbit_0_l, andb_true_r in Hx. exact Hx.
  - intros Hx. apply Z.bits_inj'. intros i Hi. rewrite Z.land_spec, Z.testbit_0_l.
    destruct (Z.testbit m i) eqn:Eb; [rewrite (Hx i Hi Eb); reflexivity|apply andb_false_r].
Qed.

Lemma flag_read e : flag e kReadEvent = Z.testbit e 0 || Z.testbit e 1.
Proof.
  destruct (Z.testbit e 0 || Z.testbit e 1) eqn:E.
  - apply not_false_is_true. rewrite flag_bits by (vm_compute; discriminate). intros H.
    rewrite !H in E by (vm_compute; congruence). discriminate.
  - apply orb_false_iff in E as [E0 E1]. apply flag_bits; [vm_compute; discriminate|].
    intros i Hi. rewrite kReadEvent_bit by exact Hi. intros Hb.
    assert (i = 0 \/ i = 1) as [-> | ->] by lia; assumption.
Qed.

Lemma flag_write e : flag e kWriteEvent = Z.testbit e 2.
Proof.
  destruct (Z.testbit e 2) eqn:E.
  - apply not_false_is_true. rewrite flag_bits by (vm_compute; discriminate). intros H.
    rewrite H in E by (vm_compute; congruence). discriminate.
  - apply flag_bits; [vm_compute; discriminate|]. intros i Hi.
    rewrite kWriteEvent_bit by exact Hi. intros Hb. now assert (i = 2) as -> by lia.
Qed.

Lemma op_mask_reading o e : flag (op_mask o e) kReadEvent = op_reading o (flag e kReadEvent).
Proof.
  rewrite !flag_read, !op_mask_bit by lia. unfold op_bit;
    destruct (Z.testbit e 0), (Z.testbit e 1), o; reflexivity.
Qed.

Lemma op_mask_writing o e : flag (op_mask o e) kWriteEvent = op_writing o (flag e kWriteEvent).
Proof. rewrite !flag_write, !op_mask_bit by lia. unfold op_bit; destruct (Z.testbit e 2), o; reflexivity. Qed.

(** ** The Poller component implements the interface *)

Section Instances.
Context {K CB : Type} `{HK : EpollKernel K} `{HL : !EpollLaws K}.
Context (tid : Z) (p : ptr) (owner : ptr).
#[local] Existing Instance release_build.

Definition of_heap (f : Channel CB -> bool) (s : loop_state K CB) : bool :=
  match heap s !! p with Some c => f c | None => false end.

Definition kernel_watches (s : loop_state K CB) : bool :=
  match heap s !! p with Some c => bool_decide (is_Some (interest (epoll s) !! fd_ c)) | None => false end.

#[local] Instance poller_channel : ChannelApi (loop_state K CB) := {
  ch_switch o := run_op tid o p;
  ch_remove := remove tid p;
  ch_tie := upd p (tie owner);
  ch_isReading := of_heap isReading;
  ch_isWriting := of_heap isWriting;
  ch_watched := kernel_watches;
}.

(** Only the three interest bits are ever set. *)
Definition small (e : Z) : Prop := In e [0; 1; 2; 3; 4; 5; 6; 7].

Record poller_usable (s : loop_state K CB) : Prop := {
  pu_inv : Inv s;
  pu_chan : exists c, can_switch tid p c s /\ small (events_ c) /\
    (isNoneEvent c = true -> index_ c <> 2);
}.

Lemma small_mask o e : small e -> small (op_mask o e).
Proof.
  unfold small. intros H. cbn in H.
  repeat (destruct H as [<-|H]; [destruct o; vm_compute; tauto|]). destruct H.
Qed.

Lemma small_none e : small e -> flag e kReadEvent = false -> flag e kWriteEvent = false -> e = 0.
Proof.
  unfold small. intros H. cbn in H.
  repeat (destruct H as [<-|H]; [vm_compute; congruence|]). destruct H.
Qed.

(** Changing fields that neither the poller nor the kernel looks at. *)
Lemma Inv_same_registration q (s : loop_state K CB) c c' : Inv s -> heap s !! q = Some c ->
  fd_ c' = fd_ c -> index_ c' = index_ c -> kernel_events c' = kernel_events c ->
  Inv (set_heap (<[q := c']> (heap s)) s).
Proof.
  intros I E Hf Hi Hk. constructor; cbn.
  - eapply unique_fd_insert; eauto; apply I.
  - intros r d [[<- <-]|[_ Eq]]%lookup_insert_Some; [|exact (inv_index _ _ I _ _ Eq)].
    rewrite Hf, Hi, Hk. exact (inv_index _ _ I _ _ E).
  - intros fd r Hr. eapply owner_insert; eauto. exact (inv_map _ _ I _ _ Hr).
  - intros fd ev Hev. destruct (inv_interest _ _ I _ _ Hev) as (d & Ed & <- & ?).
    destruct (decide (ev_ptr ev = q)) as [Eq|].
    + rewrite Eq in *. rewrite lookup_insert_eq. assert (d = c) by congruence. subst d.
      exists c'. split_and!; congruence.
    + rewrite lookup_insert_ne by auto. eauto.
Qed.

(** A new channel, for a descriptor that no other channel has. *)
Lemma Inv_new_channel q d (s : loop_state K CB) : Inv s -> heap s !! q = None -> index_ d = -1 ->
  (forall r d', heap s !! r = Some d' -> fd_ d' <> fd_ d) -> Inv (set_heap (<[q := d]> (heap s)) s).
Proof.
  intros I Hq Hi Hf. constructor; cbn.
  - intros q1 q2 d1 d2 [[<- <-]|[N1 E1]]%lookup_insert_Some [[<- <-]|[N2 E2]]%lookup_insert_Some Hfd; try done.
    + destruct (Hf _ _ E2). now rewrite <-Hfd.
    + destruct (Hf _ _ E1). now rewrite Hfd.
    + exact (inv_fd _ _ I _ _ _ _ E1 E2 Hfd).
  - intros r d1 [[<- <-]|[N1 E1]]%lookup_insert_Some; [now left|exact (inv_index _ _ I _ _ E1)].
  - intros fd r Hr. destruct (inv_map _ _ I _ _ Hr) as (d1 & E1 & Hfd). exists d1. split; [|done].
    rewrite lookup_insert_ne by congruence. exact E1.
  - intros fd ev Hev. destruct (inv_interest _ _ I _ _ Hev) as (d1 & E1 & Hfd & Hx). exists d1. split_and!; [|done..].
    rewrite lookup_insert_ne by congruence. exact E1.
Qed.

(** A channel that the kernel does not watch leaves the table of the poller. *)
Lemma Inv_forget q0 c c' (s : loop_state K CB) : Inv s -> heap s !! q0 = Some c -> index_ c = -1 -> index_ c' = -1 -> fd_ c' = fd_ c ->
  Inv (set_heap (<[q0 := c']> (heap s)) (set_channels (delete (fd_ c) (channels_ s)) s)).
Proof.
  intros I E Hi Hi' Hf. constructor; cbn.
  - eapply unique_fd_insert; eauto; apply I.
  - intros q d [[<- <-]|[Hne Eq]]%lookup_insert_Some; [now left|].
    destruct (inv_index _ _ I _ _ Eq) as [?|(? & Hq & ?)]; [now left|right]. split; [done|]. split; [|done].
    rewrite lookup_delete_ne; [exact Hq|]. intros Hfd. apply Hne. exact (inv_fd _ _ I _ _ _ _ E Eq Hfd).
  - intros fd q [Hne Hq]%lookup_delete_Some. eapply owner_insert; eauto. exact (inv_map _ _ I _ _ Hq).
  - intros fd ev Hev. destruct (inv_interest _ _ I _ _ Hev) as (d & Ed & <- & Hd).
    rewrite lookup_insert_ne; [eauto|]. intros Hx. rewrite <-Hx in Ed. congruence.
Qed.

(** A channel that is not registered can be destroyed. *)
Lemma Inv_delete q0 c (l : loop_state K CB) : Inv l -> heap l !! q0 = Some c -> index_ c = -1 -> channels_ l !! fd_ c = None ->
  Inv (set_heap (delete q0 (heap l)) l).
Proof.
  intros I E Hi Hc. constructor; cbn.
  - intros q1 q2 d1 d2 [_ E1]%lookup_delete_Some [_ E2]%lookup_delete_Some. exact (inv_fd _ _ I _ _ _ _ E1 E2).
  - intros q d [_ Eq]%lookup_delete_Some. exact (inv_index _ _ I _ _ Eq).
  - intros fd q Hq. destruct (inv_map _ _ I _ _ Hq) as (d & Ed & <-). exists d. split; [|done].
    rewrite lookup_delete_ne; [exact Ed|]. intros ->. congruence.
  - intros fd ev Hev. destruct (inv_interest _ _ I _ _ Hev) as (d & Ed & <- & Hx). exists d.
    rewrite lookup_delete_ne; [auto|]. intros Hp. rewrite <-Hp in Ed. congruence.
Qed.

(** Its descriptor is not in the table of the poller. *)
Lemma new_channel_unknown fd (s : loop_state K CB) : Inv s -> (forall r d', heap s !! r = Some d' -> fd_ d' <> fd) ->
  channels_ s !! fd = None.
Proof.
  intros I Hf. destruct (channels_ s !! fd) as [q|] eqn:Eq; [|done].
  destruct (inv_map _ _ I _ _ Eq) as (d' & Ed & Hx). destruct (Hf _ _ Ed Hx).
Qed.

(** In a consistent state the index of a channel says whether the kernel watches it. *)
Lemma watched_index q c (s : loop_state K CB) : Inv s -> heap s !! q = Some c ->
  bool_decide (is_Some (interest (epoll s) !! fd_ c)) = negb (index_ c =? -1).
Proof.
  intros I E. destruct (inv_index _ _ I _ _ E) as [Hi|(Hi & _ & ev & He & _)].
  - rewrite Hi. apply bool_decide_false. intros [ev Hev].
    destruct (inv_interest _ _ I _ _ Hev) as (d & Ed & Hfd & Hd). rewrite (inv_fd _ _ I _ _ _ _ Ed E Hfd) in Ed. congruence.
  - rewrite (proj2 (Z.eqb_neq _ _)) by lia. apply bool_decide_true. now rewrite He.
Qed.

Lemma isNoneEvent_flags (c : Channel CB) : small (events_ c) -> isNoneEvent c = negb (isReading c || isWriting c).
Proof.
  unfold small, isNoneEvent, isReading, isWriting. intros H. cbn in H. repeat (destruct H as [<-|H]; [reflexivity|]). destruct H.
Qed.

Lemma usable_switch o s : poller_usable s ->
  exists s', run_op tid o p s = Done (tt, s') /\ poller_usable s' /\
    of_heap isReading s' = op_reading o (of_heap isReading s) /\
    of_heap isWriting s' = op_writing o (of_heap isWriting s) /\
    kernel_watches s' = negb (kernel_watches s) || of_heap isReading s' || of_heap isWriting s'.
Proof.
  intros [I (c & C & Hs & Hn)]. pose proof (cs_heap _ _ _ _ C) as Eh.
  rewrite (run_op_switch tid o p). destruct (switch_run tid (op_mask o) p s c I C) as (k' & E & Hk & Hw).
  pose proof (Inv_switched p s c (op_mask o (events_ c)) k' I Eh Hk) as I1.
  set (c1 := set_addedToLoop true (set_events (op_mask o (events_ c)) c)) in *. set (c2 := setIndex (next_index c1) c1).
  assert (E1 : heap (updated p c1 k' s) !! p = Some c2) by apply lookup_insert_eq.
  eexists. split; [exact E|]. split_and!.
  - constructor; [exact I1|]. exists c2. split_and!.
    + constructor; [exact E1|apply C|apply C|apply Hw, C|discriminate].
    + now apply small_mask.
    + change (isNoneEvent c2) with (isNoneEvent c1). intros Hnone.
      cbn. unfold next_index. rewrite Hnone. case_match; lia.
  - unfold of_heap. rewrite E1, Eh. apply op_mask_reading.
  - unfold of_heap. rewrite E1, Eh. apply op_mask_writing.
  - unfold kernel_watches, of_heap. rewrite E1, Eh. rewrite (watched_index p c2 _ I1 E1), (watched_index p c s I Eh).
    pose proof (isNoneEvent_flags c2 (small_mask o _ Hs)) as Hnone. rewrite <-orb_assoc, <-(negb_involutive (isReading c2 || isWriting c2)), <-Hnone.
    change (isNoneEvent c2) with (isNoneEvent c1). cbn [c2 setIndex index_]. unfold next_index. change (index_ c1) with (index_ c).
    destruct (inv_index _ _ I _ _ Eh) as [Hi|([Hi|Hi] & _)]; rewrite Hi; cbn; now destruct (isNoneEvent c1).
Qed.

Lemma usable_remove s : poller_usable s -> of_heap isReading s = false -> of_heap isWriting s = false ->
  exists s', remove tid p s = Done (tt, s') /\ kernel_watches s' = kernel_watches s.
Proof.
  intros [I (c & C & Hs & Hn)] Hr Hw. pose proof (cs_heap _ _ _ _ C) as Eh.
  unfold of_heap in Hr, Hw. rewrite Eh in Hr, Hw.
  assert (R : @asserts_enabled release_build = false) by reflexivity.
  eexists. split.
  - apply (remove_release tid p s c R Eh (cs_thread _ _ _ _ C)).
    apply Hn. unfold isNoneEvent. rewrite (small_none _ Hs Hr Hw). reflexivity.
  - unfold kernel_watches. cbn [heap set_heap set_channels epoll]. now rewrite lookup_insert_eq, Eh.
Qed.

Lemma usable_tie s : poller_usable s ->
  exists s', upd p (tie owner) s = Done (tt, s') /\ poller_usable s' /\
    of_heap isReading s' = of_heap isReading s /\ of_heap isWriting s' = of_heap isWriting s /\
    kernel_watches s' = kernel_watches s.
Proof.
  intros [I (c & C & Hs & Hn)]. pose proof (cs_heap _ _ _ _ C) as Eh.
  eexists. split; [exact (upd_ok p (tie owner) s c Eh)|].
  assert (E1 : heap (set_heap (<[p := tie owner c]> (heap s)) s) !! p = Some (tie owner c))
    by apply lookup_insert_eq.
  split_and!.
  - constructor; [exact (Inv_same_registration p s c (tie owner c) I Eh eq_refl eq_refl eq_refl)|].
    exists (tie owner c). split_and!; [constructor; [exact E1|apply C..]|exact Hs|exact Hn].
  - unfold of_heap. now rewrite E1, Eh.
  - unfold of_heap. now rewrite E1, Eh.
  - unfold kernel_watches. cbn [heap set_heap epoll]. now rewrite lookup_insert_eq, Eh.
Qed.

#[local] Instance poller_channel_laws : ChannelLaws (loop_state K CB) := {
  usable := poller_usable;
  switch_ok := usable_switch;
  tie_ok := usable_tie;
  remove_ok := usable_remove;
}.
End Instances.
