(* ===== verification/SharedLoop.v ===== *)
(** SharedLoop: several channels on one loop.

    A connection, an acceptor or a coroutine uses one channel, and its file has a
    state of the poller of its own ([ChannelApi]).  In the program the channels of
    a loop share [channels_] and the interest list of one [EPollPoller]
    ([net/EpollPoller.cpp]).  Here any number of users interleave their operations on
    one poller, in a build without assertions, and each of them sees what it would
    see alone. *)

From Stdlib Require Import ZArith Lia.
From S2P Require Import Prelude Poller ChannelApi.

Local Open Scope Z_scope.

(** ** One channel alone *)

Inductive use := Switch (o : event_op) | Remove | Tie (owner : ptr).

(** What a channel knows by itself: the events asked for, and [index_]: -1 when the
    kernel does not watch it, 1 when it was added, 2 when it was modified since. *)
Record alone := { mask : Z; index : Z }.

Definition watched (a : alone) : bool := negb (index a =? -1).

(** [None]: the use is out of order.  [remove] takes the descriptor from the kernel
    when the index is 2 and has nothing to take when it is -1, but it forgets a
    channel that was only added. *)
Definition next (u : use) (a : alone) : option alone :=
  match u with
  | Switch o =>
      let m := op_mask o (mask a) in
      Some {| mask := m; index := if index a <? 0 then 1 else if m =? kNoneEvent then -1 else 2 |}
  | Remove => if index a =? 1 then None else Some {| mask := mask a; index := -1 |}
  | Tie _ => Some a
  end.

Fixpoint run_alone (l : list use) (a : alone) : option alone :=
  match l with [] => Some a | u :: l => a' ← next u a; run_alone l a' end.

(** The uses of the channel at [p]. *)
Definition uses_of (p : ptr) (l : list (ptr * use)) : list use := (base.filter (fun e => fst e = p) l).*2.

Lemma uses_of_cons p q u l : uses_of p ((q, u) :: l) = if decide (q = p) then u :: uses_of p l else uses_of p l.
Proof. unfold uses_of. rewrite filter_cons. cbn [fst]. now repeat case_decide. Qed.

(** ** The shared poller *)

Section Shared.
Context {K CB : Type} `{HK : EpollKernel K} `{HL : !EpollLaws K} `{HB : Build}.
Context (tid : Z).
Abbreviation loop := (loop_state K CB).
Implicit Types (s : loop) (p q : ptr) (c : Channel CB).

Definition run_use (e : ptr * use) : ST loop unit :=
  match snd e with
  | Switch o => run_op tid o (fst e)
  | Remove => remove tid (fst e)
  | Tie owner => upd (fst e) (tie owner)
  end.

Definition run_uses (l : list (ptr * use)) : ST loop unit := for_each l run_use.

Definition view_of c : alone := {| mask := events_ c; index := index_ c |}.
Definition sees s p (a : alone) : Prop := exists c, heap s !! p = Some c /\ view_of c = a.

(** The channels [ps] belong to the loop of this thread. *)
Record Shared (ps : gset ptr) s : Prop := {
  sh_inv : Inv s;
  sh_thread : threadId_ s = tid;
  sh_chan p : p ∈ ps -> exists c, heap s !! p = Some c /\ loop_ c = self s /\ watchable (epoll s) (fd_ c);
}.

(** The channel at [p], and nothing else, has changed. *)
Record changed p c' s s' : Prop := {
  ch_inv : Inv s';
  ch_heap : heap s' = <[p := c']> (heap s);
  ch_self : self s' = self s /\ threadId_ s' = threadId_ s;
  ch_watch f : watchable (epoll s) f -> watchable (epoll s') f;
}.

Lemma Shared_changed ps p c c' s s' : Shared ps s -> heap s !! p = Some c -> changed p c' s s' ->
  loop_ c' = loop_ c -> fd_ c' = fd_ c -> Shared ps s'.
Proof.
  intros [I Ht Hc] E [I' Hh [Hs Ht'] Hw] Hl Hf. constructor; [exact I'|congruence|]. intros q Hq. destruct (Hc q Hq) as (d & Ed & Hd & Hwd).
  rewrite Hh, Hs. destruct (decide (q = p)) as [->|Hne].
  - exists c'. rewrite lookup_insert_eq. assert (d = c) as -> by congruence. split_and!; [done|congruence|]. rewrite Hf. now apply Hw.
  - exists d. rewrite lookup_insert_ne by done. auto.
Qed.

Lemma sees_changed p c' s s' q a : changed p c' s s' -> sees s' q a <-> (if decide (q = p) then view_of c' = a else sees s q a).
Proof.
  intros [_ Hh _ _]. unfold sees. rewrite Hh. case_decide as Hd; [rewrite Hd|].
  - rewrite lookup_insert_eq. split; [intros (c & [= <-] & Hv); exact Hv|intros Hv; now exists c'].
  - now rewrite lookup_insert_ne by done.
Qed.

Hypothesis release : asserts_enabled = false.

(** [remove] of a channel whose events were modified takes the descriptor from the
    kernel. *)
Lemma remove_modified p s c : Inv s -> heap s !! p = Some c -> threadId_ s = tid -> index_ c = 2 ->
  let c' := setIndex (-1) (set_addedToLoop false c) in
  exists k', remove tid p s = Done (tt, set_heap (<[p := c']> (heap s)) (set_epoll k' (set_channels (delete (fd_ c) (channels_ s)) s))) /\
    Inv (set_heap (<[p := c']> (heap s)) (set_epoll k' (set_channels (delete (fd_ c) (channels_ s)) s))) /\
    (forall f, watchable (epoll s) f -> watchable k' f).
Proof.
  intros I E Ht Hi c'. pose proof (inv_index _ _ I _ _ E) as [?|(_ & Hch & ev & Hev & _)]; [congruence|].
  set (c1 := set_addedToLoop false c). set (s1 := set_channels (delete (fd_ c) (channels_ s)) (set_heap (<[p := c1]> (heap s)) s)).
  assert (E1 : heap s1 !! p = Some c1) by apply lookup_insert_eq.
  destruct (update_ok EPOLL_CTL_DEL p s1 c1 E1) as (k' & Eu & Hk & Hm); [cbn; eauto|done|]. exists k'. split_and!; [| |exact Hm].
  - unfold remove. st_step (chan_ok p s c E). st_step (cassert_release (isNoneEvent c) s release). st_step (upd_ok p (set_addedToLoop false) s c E).
    fold c1. set (s0 := set_heap (<[p := c1]> (heap s)) s). assert (E0 : heap s0 !! p = Some c1) by apply lookup_insert_eq.
    unfold removeChannel. st_step (chan_ok p s0 c1 E0). st_get.
    st_step (cassert_release (loop_ c1 =? self s0) s0 release). st_step (assertInLoopThread_ok tid s0 Ht).
    erewrite (bind_done (when _ _)) by (destruct (eventHandling s0); [apply cassert_release, release|reflexivity]).
    unfold poller_removeChannel. st_step (assertInLoopThread_ok tid s0 Ht). st_step (chan_ok p s0 c1 E0). st_get.
    do 4 match goal with |- context [(cassert ?b ≫= ?k) ?x] => rewrite (bind_done _ _ _ _ _ (cassert_release b x release)) end.
    st_modify. rewrite (bind_done _ _ _ _ _ (cassert_release _ _ release)). change (index_ c1) with (index_ c). rewrite Hi. cbn [when Z.eqb Z.compare Pos.eqb].
    change (set_channels (delete (fd_ c1) (channels_ s0)) s0) with s1. rewrite (bind_done _ _ _ _ _ Eu).
    erewrite upd_ok by apply lookup_insert_eq. unfold s1, set_heap, set_channels, set_epoll; cbn. now rewrite !insert_insert_eq.
  - constructor; cbn.
    + eapply unique_fd_insert; eauto; apply I.
    + intros q d [[<- <-]|[Hne Eq]]%lookup_insert_Some; [now left|].
      assert (Hfd : fd_ d <> fd_ c) by (intros Hfd; apply Hne; exact (inv_fd _ _ I _ _ _ _ E Eq (eq_sym Hfd))).
      destruct (inv_index _ _ I _ _ Eq) as [?|(? & Hq & Hx)]; [now left|right]. rewrite Hk. cbn. rewrite !lookup_delete_ne by congruence. auto.
    + intros fd q [Hne Hq]%lookup_delete_Some. eapply owner_insert; eauto. exact (inv_map _ _ I _ _ Hq).
    + intros fd ev'. rewrite Hk. cbn. intros [Hne Hev']%lookup_delete_Some. destruct (inv_interest _ _ I _ _ Hev') as (d & Ed & <- & Hd).
      rewrite lookup_insert_ne; [eauto|]. intros Hx. rewrite <-Hx in Ed. congruence.
Qed.

(** One use. *)
Lemma use_ok ps p u c s a : Shared ps s -> p ∈ ps -> heap s !! p = Some c -> next u (view_of c) = Some a ->
  exists s' c', run_use (p, u) s = Done (tt, s') /\ changed p c' s s' /\ view_of c' = a /\ loop_ c' = loop_ c /\ fd_ c' = fd_ c.
Proof.
  intros [I Ht Hc] Hp E. destruct (Hc p Hp) as (d & Ed & Hl & Hw). assert (d = c) as -> by congruence.
  destruct u as [o| |owner]; cbn [next run_use fst snd].
  - intros [= <-]. assert (C : can_switch tid p c s) by (constructor; auto; congruence).
    rewrite (run_op_switch tid o p). destruct (switch_run tid (op_mask o) p s c I C) as (k' & Es & Hk & Hm).
    set (c1 := set_addedToLoop true (set_events (op_mask o (events_ c)) c)) in *.
    exists (updated p c1 k' s), (setIndex (next_index c1) c1). split_and!; [exact Es| |reflexivity..].
    constructor; [now apply Inv_switched|reflexivity|now split|exact Hm].
  - cbn [index view_of]. destruct (Z.eqb_spec (index_ c) 1) as [|Hi1]; [discriminate|]. intros [= <-].
    set (c' := setIndex (-1) (set_addedToLoop false c)).
    destruct (inv_index _ _ I _ _ E) as [Hi|(Hi & _)]; [|assert (Hi2 : index_ c = 2) by lia; clear Hi].
    + exists (set_heap (<[p := c']> (heap s)) (set_channels (delete (fd_ c) (channels_ s)) s)), c'. split_and!; [| |reflexivity..].
      * apply remove_release; auto. lia.
      * constructor; [now apply (Inv_forget p c)|reflexivity|now split|done].
    + destruct (remove_modified p s c I E Ht Hi2) as (k' & Er & I' & Hm). eexists _, c'. split_and!; [exact Er| |reflexivity..].
      constructor; [exact I'|reflexivity|now split|exact Hm].
  - intros [= <-]. exists (set_heap (<[p := tie owner c]> (heap s)) s), (tie owner c). split_and!; [now apply upd_ok| |reflexivity..].
    constructor; [now apply (Inv_same_registration p s c)|reflexivity|now split|done].
Qed.

(** What the kernel watches for a channel. *)
Lemma watched_kernel p c s : Inv s -> heap s !! p = Some c ->
  interest (epoll s) !! fd_ c = if watched (view_of c) then Some (mkEvent (kernel_events c) p) else None.
Proof.
  intros I E. unfold watched, view_of. cbn. destruct (inv_index _ _ I _ _ E) as [Hi|(Hi & _ & [e q] & He & <- & Hev)].
  - rewrite Hi. cbn. destruct (interest (epoll s) !! fd_ c) as [ev|] eqn:Ev; [|done].
    destruct (inv_interest _ _ I _ _ Ev) as (d & Ed & Hfd & Hd). rewrite (inv_fd _ _ I _ _ _ _ Ed E Hfd) in Ed. congruence.
  - rewrite (proj2 (Z.eqb_neq _ _)) by lia. cbn in *. now rewrite He, Hev.
Qed.

(** What the theorem below excludes: [remove] of a channel that was added, and not
    modified since, leaves its descriptor with the kernel, unknown to the poller. *)
Theorem unordered_remove_leaks ps p c s : Shared ps s -> p ∈ ps -> heap s !! p = Some c -> next Remove (view_of c) = None ->
  exists s', run_use (p, Remove) s = Done (tt, s') /\ dangling (fd_ c) p s' /\ ~ Inv s'.
Proof.
  intros Sh Hp E Hn. unfold next, view_of in Hn. cbn in Hn. destruct (Z.eqb_spec (index_ c) 1) as [Hi|]; [|discriminate].
  pose proof (watched_kernel p c s (sh_inv _ _ Sh) E) as Hk. unfold watched, view_of in Hk. cbn in Hk. rewrite Hi in Hk. cbn in Hk.
  eexists. split; [apply remove_release; [exact release|exact E|apply Sh|lia]|]. split.
  - split; [exists (kernel_events c); exact Hk|apply lookup_delete_eq].
  - intros I. destruct (inv_interest _ _ I _ _ Hk) as (d & Ed & _ & Hd). cbn in Ed. rewrite lookup_insert_eq in Ed. injection Ed as <-. now apply Hd.
Qed.

(** C15: a loop shared by any number of channels, built without assertions, is as good
    as a loop for each.  If no channel, looked at by itself, is removed while it is
    added and not modified since, any interleaving of the uses on one poller succeeds
    and leaves each channel as its own uses alone do, and the kernel watches for
    each exactly what that says.  (A removal out of this order is not clean on a
    loop of its own either, see [unordered_remove_leaks].) *)
Theorem shared_loop_is_separate_loops ps l s : Shared ps s -> (forall e, e ∈ l -> fst e ∈ ps) ->
  (forall p c, p ∈ ps -> heap s !! p = Some c -> is_Some (run_alone (uses_of p l) (view_of c))) ->
  exists s', run_uses l s = Done (tt, s') /\ Shared ps s' /\
    forall p c, p ∈ ps -> heap s !! p = Some c -> exists c', heap s' !! p = Some c' /\
      run_alone (uses_of p l) (view_of c) = Some (view_of c') /\
      interest (epoll s') !! fd_ c' = if watched (view_of c') then Some (mkEvent (kernel_events c') p) else None.
Proof.
  revert s; induction l as [|[q u] l IH]; intros s Sh Hl Hal.
  - exists s. split; [reflexivity|]. split; [exact Sh|]. intros p c Hp E. exists c. split_and!; [exact E|reflexivity|].
    apply watched_kernel; [apply Sh|exact E].
  - assert (Hq : q ∈ ps) by (apply (Hl (q, u)); left). destruct (sh_chan _ _ Sh q Hq) as (c & E & _).
    pose proof (Hal q c Hq E) as Hn. rewrite uses_of_cons, decide_True in Hn by done. cbn in Hn.
    destruct (next u (view_of c)) as [a|] eqn:En; [|now destruct Hn].
    destruct (use_ok ps q u c s a Sh Hq E En) as (s1 & c1 & E1 & Ch & Hv & Hlp & Hfd).
    assert (Hone : forall p d, p ∈ ps -> heap s !! p = Some d -> exists d1, heap s1 !! p = Some d1 /\
      run_alone (uses_of p ((q, u) :: l)) (view_of d) = run_alone (uses_of p l) (view_of d1)).
    { intros p d Hp Ed. rewrite uses_of_cons, (ch_heap _ _ _ _ Ch). case_decide as Hd.
      - subst p. exists c1. rewrite lookup_insert_eq. assert (d = c) as -> by congruence. split; [done|]. cbn. now rewrite En, Hv.
      - exists d. now rewrite lookup_insert_ne by done. }
    destruct (IH s1) as (s' & E' & Sh' & Hx).
    + exact (Shared_changed ps q c c1 s s1 Sh E Ch Hlp Hfd).
    + intros e He. apply Hl. now right.
    + intros p d1 Hp Ed1. destruct (sh_chan _ _ Sh p Hp) as (d & Ed & _). destruct (Hone p d Hp Ed) as (d1' & Ed1' & Hr).
      assert (d1' = d1) as -> by congruence. rewrite <-Hr. now apply Hal.
    + exists s'. split; [unfold run_uses; now rewrite (for_each_cons _ _ _ _ _ E1)|]. split; [exact Sh'|]. intros p d Hp Ed.
      destruct (Hone p d Hp Ed) as (d1 & Ed1 & Hr). destruct (Hx p d1 Hp Ed1) as (c' & Ec' & Hr' & Hk).
      exists c'. split_and!; [exact Ec'|now rewrite Hr|exact Hk].
Qed.
End Shared.

(** A connection whose reading has been stopped is out of order when it is destroyed:
    [disableAll] registers its descriptor anew, and [remove] leaves it with the
    kernel. *)
Lemma stopped_then_destroyed :
  run_alone [Switch OEnableReading; Switch ODisableReading; Switch ODisableAll; Remove] {| mask := 0; index := -1 |} = None.
Proof. reflexivity. Qed.

(** ** Concrete inputs *)

Module Demo.
#[local] Existing Instance release_build.

(** The sample loop of Poller.v with a second, new channel. *)
Definition two_channels : loop_state (gmap Z epoll_event) nat := set_heap (<[20 := newChannel 77 6]> (heap sample_loop)) sample_loop.

Lemma two_channels_shared : Shared 1 {[10; 20]} two_channels.
Proof.
  constructor; [|reflexivity|].
  - apply Inv_new_channel; [exact sample_loop_inv|reflexivity|reflexivity|]. intros r d. cbn.
    intros [<- <-]%lookup_singleton_Some. discriminate.
  - intros p Hp. assert (p = 10 \/ p = 20) as [-> | ->] by set_solver.
    + exists sample_channel. split_and!; [reflexivity..|]. cbn. lia.
    + exists (newChannel 77 6). split_and!; [reflexivity..|]. cbn. lia.
Qed.

(** One channel is taken down while the other starts. *)
Definition interleaved : list (ptr * use) :=
  [(20, Switch OEnableReading); (10, Switch ODisableAll); (20, Switch OEnableWriting); (10, Remove); (20, Tie 30)].

Lemma shared_loop_is_separate_loops_witness : exists s', run_uses 1 interleaved two_channels = Done (tt, s') /\
  Shared 1 {[10; 20]} s' /\ (exists c, heap s' !! 20 = Some c /\ view_of c = {| mask := 7; index := 2 |}) /\
  exists c, heap s' !! 10 = Some c /\ view_of c = {| mask := 0; index := -1 |}.
Proof.
  destruct (shared_loop_is_separate_loops 1 (eq_refl : @asserts_enabled release_build = false) {[10; 20]} interleaved two_channels two_channels_shared) as (s' & E & Sh & Hx).
  - intros e He. unfold interleaved in He. set_solver.
  - intros p c Hp. assert (p = 10 \/ p = 20) as [-> | ->] by set_solver; intros [= <-]; vm_compute; eauto.
  - exists s'. split; [exact E|]. split; [exact Sh|]. split.
    + destruct (Hx 20 (newChannel 77 6)) as (c & Ec & Hr & _); [set_solver|reflexivity|]. exists c. split; [exact Ec|].
      assert (Hv : Some {| mask := 7; index := 2 |} = Some (view_of c)) by exact Hr. congruence.
    + destruct (Hx 10 sample_channel) as (c & Ec & Hr & _); [set_solver|reflexivity|]. exists c. split; [exact Ec|].
      assert (Hv : Some {| mask := 0; index := -1 |} = Some (view_of c)) by exact Hr. congruence.
Defined.
End Demo.
