(* ===== verification/LoopLife.v ===== *)
(** LoopLife: the constructors and destructors of [EventLoop] ([net/Eventloop.cpp]),
    [TimerQueue] ([net/TimerQueue.cpp]) and [EPollPoller] ([net/EpollPoller.cpp]).

    What a loop acquires when it is constructed, its two channels included, and what
    is left when it is destroyed.  The descriptors come from the kernel, an interface
    here; channels and poller are those of Poller.v, the timers those of
    TimerQueue.v. *)

From Stdlib Require Import ZArith Lia.
From S2P Require Import Prelude TimerQueue Poller ChannelApi.

Local Open Scope Z_scope.

(** ** Descriptors *)

(** A call that creates a descriptor fails with [None]. *)
Class LoopKernel (K : Type) `{EpollKernel K} := {
  fds : K -> gset Z;                       (* the open descriptors *)
  epoll_create1 : K -> K * option Z;
  sys_eventfd : K -> K * option Z;
  sys_timerfd_create : K -> K * option Z;
  close_fd : Z -> K -> K;
}.

Definition opens {K} `{LoopKernel K} (k k' : K) (fd : Z) : Prop := (fd ∉ fds k) /\ fds k' = {[fd]} ∪ fds k.

(** A new descriptor of a kind that epoll can watch. *)
Definition opens_watchable {K} `{LoopKernel K} `{!EpollLaws K} (k k' : K) (fd : Z) : Prop :=
  opens k k' fd /\ interest k' = interest k /\ watchable k' fd /\ (forall f, watchable k f -> watchable k' f).

Class LoopKernelLaws (K : Type) `{LoopKernel K} `{!EpollLaws K} := {
  epoll_create_opens k k' fd : epoll_create1 k = (k', Some fd) -> opens k k' fd /\ interest k' = ∅;
  eventfd_opens k k' fd : sys_eventfd k = (k', Some fd) -> opens_watchable k k' fd;
  timerfd_opens k k' fd : sys_timerfd_create k = (k', Some fd) -> opens_watchable k k' fd;
  timerfd_fails k k' : sys_timerfd_create k = (k', None) -> interest k' = interest k;
  ctl_bad_fd k ev : snd (epoll_ctl k EPOLL_CTL_ADD (-1) ev) = false;
  ctl_fds k op fd ev : fds (fst (epoll_ctl k op fd ev)) = fds k;
  close_closes fd k : fds (close_fd fd k) = fds k ∖ {[fd]} /\
    (interest k !! fd = None -> interest (close_fd fd k) = interest k) /\
    (forall f, f <> fd -> watchable k f -> watchable (close_fd fd k) f);
}.

(** ** The loop object *)

(** The members of a new [TimerQueue]. *)
Definition no_timers {T} : tq_state T := mkTQ ∅ [] ∅ false ∅ 0 None 0 [].


(** [lp] is what Poller.v knows of the loop: its channels, the poller, the thread.
    [t_loopInThisThread] is the variable of the thread that executes. *)
Record evloop (K CB T : Type) := mkEv {
  t_loopInThisThread : option Poller.ptr;
  lp : loop_state K CB;
  epollfd_ : Z;
  timerfd_ : Z;
  wakeupFd_ : Z;
  timers : tq_state T;
}.
Arguments mkEv {K CB T}. Arguments t_loopInThisThread {K CB T}. Arguments lp {K CB T}.
Arguments epollfd_ {K CB T}. Arguments timerfd_ {K CB T}. Arguments wakeupFd_ {K CB T}. Arguments timers {K CB T}.

Section Life.
Context {K CB T : Type} `{HK : EpollKernel K} `{HF : !LoopKernel K} `{HB : Build}.
(* the thread that executes; the addresses of the two channels, and the callbacks
   that run [TimerQueue::handleRead] and [EventLoop::handleRead] *)
Context (tid : Z) (timerfdChannel_ wakeupChannel_ : Poller.ptr) (on_timer on_wakeup : CB).
Abbreviation evloop := (evloop K CB T).
Implicit Types (e : evloop).

Definition set_thread_loop (o : option Poller.ptr) e : evloop := mkEv o (lp e) (epollfd_ e) (timerfd_ e) (wakeupFd_ e) (timers e).
Definition set_lp (l : loop_state K CB) e : evloop :=
  mkEv (t_loopInThisThread e) l (epollfd_ e) (timerfd_ e) (wakeupFd_ e) (timers e).
Definition set_epollfd (fd : Z) e : evloop := mkEv (t_loopInThisThread e) (lp e) fd (timerfd_ e) (wakeupFd_ e) (timers e).
Definition set_timerfd (fd : Z) e : evloop := mkEv (t_loopInThisThread e) (lp e) (epollfd_ e) fd (wakeupFd_ e) (timers e).
Definition set_wakeupFd (fd : Z) e : evloop := mkEv (t_loopInThisThread e) (lp e) (epollfd_ e) (timerfd_ e) fd (timers e).
Definition set_tq (q : tq_state T) e : evloop :=
  mkEv (t_loopInThisThread e) (lp e) (epollfd_ e) (timerfd_ e) (wakeupFd_ e) q.
Definition set_kernel (k : K) e : evloop := set_lp (set_epoll k (lp e)) e.

Definition on_loop {A} (m : ST (loop_state K CB) A) : ST evloop A := fun e =>
  match m (lp e) with Done (a, l) => Done (a, set_lp l e) | Fail f => Fail f end.
Definition on_timers {A} (m : ST (tq_state T) A) : ST evloop A := fun e =>
  match m (timers e) with Done (a, q) => Done (a, set_tq q e) | Fail f => Fail f end.

(** A call that creates a descriptor. *)
Definition open_fd (call : K -> K * option Z) : ST evloop (option Z) :=
  e ← get;
  let (k, r) := call (epoll (lp e)) in
  _ ← modify (set_kernel k);
  mret r.
Definition close (fd : Z) : ST evloop unit := modify (fun e => set_kernel (close_fd fd (epoll (lp e))) e).

(** [Channel(loop, fd)], constructed at [p], then [setReadCallback]. *)
Definition constructChannel (p : Poller.ptr) (fd : Z) : ST (loop_state K CB) unit :=
  modify (fun l => set_heap (<[p := newChannel (self l) fd]> (heap l)) l).
Definition with_readCallback (cb : CB) (c : Channel CB) : Channel CB :=
  set_callbacks (Some cb) (writeCallback_ c) (closeCallback_ c) (errorCallback_ c) c.
Definition setReadCallback (p : Poller.ptr) (cb : CB) : ST (loop_state K CB) unit :=
  upd p (with_readCallback cb).

(** [EPollPoller::EPollPoller]; [LOG_SYSFATAL] aborts. *)
Definition newPoller : ST evloop unit :=
  r ← open_fd epoll_create1;
  match r with
  | None => fail Aborted
  | Some fd => _ ← modify (set_epollfd fd); on_loop (modify (set_events_size kInitEventListSize))
  end.

(** The result is not tested. *)
Definition createTimerfd : ST evloop Z := r ← open_fd sys_timerfd_create; mret (default (-1) r).

(** [TimerQueue::TimerQueue] *)
Definition newTimerQueue : ST evloop unit :=
  fd ← createTimerfd;
  _ ← modify (set_timerfd fd);
  _ ← on_loop (constructChannel timerfdChannel_ fd);
  _ ← modify (set_tq no_timers);
  _ ← on_loop (setReadCallback timerfdChannel_ on_timer);
  on_loop (enableReading tid timerfdChannel_).

Definition createEventfd : ST evloop Z :=
  r ← open_fd sys_eventfd;
  match r with Some fd => mret fd | None => fail Aborted end.

(** [EventLoop::EventLoop], in the storage [raw]. *)
Definition raw (this : Poller.ptr) (t : option Poller.ptr) (k : K) : evloop :=
  mkEv t (mkLoop this tid ∅ ∅ k 0 false None [] ∅) 0 0 0 no_timers.

Definition newEventLoop : ST evloop unit :=
  _ ← newPoller;
  _ ← newTimerQueue;
  fd ← createEventfd;
  _ ← modify (set_wakeupFd fd);
  _ ← on_loop (constructChannel wakeupChannel_ fd);
  e ← get;
  _ ← match t_loopInThisThread e with
      | Some _ => fail Aborted
      | None => modify (set_thread_loop (Some (self (lp e))))
      end;
  _ ← on_loop (setReadCallback wakeupChannel_ on_wakeup);
  on_loop (enableReading tid wakeupChannel_).

(** [TimerQueue::~TimerQueue], then the destructor of [timerfdChannel_]. *)
Definition destroyTimerQueue : ST evloop unit :=
  _ ← on_loop (disableAll tid timerfdChannel_);
  _ ← on_loop (remove tid timerfdChannel_);
  e ← get;
  _ ← close (timerfd_ e);
  _ ← on_timers delete_timers;
  on_loop (destroyChannel timerfdChannel_).

(** [EPollPoller::~EPollPoller] *)
Definition destroyPoller : ST evloop unit := e ← get; close (epollfd_ e).

(** [EventLoop::~EventLoop], then the members that own something, in the reverse
    order of their declaration. *)
Definition destroyEventLoop : ST evloop unit :=
  _ ← on_loop (disableAll tid wakeupChannel_);
  _ ← on_loop (remove tid wakeupChannel_);
  e ← get;
  _ ← close (wakeupFd_ e);
  _ ← modify (set_thread_loop None);
  _ ← on_loop (destroyChannel wakeupChannel_);
  _ ← destroyTimerQueue;
  destroyPoller.

Definition getEventLoopOfCurrentThread e : option Poller.ptr := t_loopInThisThread e.
End Life.

(** ** Runs that succeed or abort *)

Definition ends {S A} (m : ST S A) (s : S) (P : A -> S -> Prop) : Prop :=
  match m s with Done (a, s') => P a s' | Fail f => f = Aborted end.

Lemma ends_step {S A B} (m : ST S A) (k : A -> ST S B) s a s' (Q : B -> S -> Prop) :
  m s = Done (a, s') -> ends (k a) s' Q -> ends (m ≫= k) s Q.
Proof. intros E. unfold ends. now rewrite (bind_done _ _ _ _ _ E). Qed.

Lemma ends_bind {S A B} (m : ST S A) (k : A -> ST S B) s (P : A -> S -> Prop) (Q : B -> S -> Prop) :
  ends m s P -> (forall a s', P a s' -> ends (k a) s' Q) -> ends (m ≫= k) s Q.
Proof.
  unfold ends at 1. destruct (m s) as [[a s']|f] eqn:E; intros Hp Hk.
  - apply (ends_step _ _ _ _ _ _ E). now apply Hk.
  - unfold ends. now rewrite (bind_fail _ _ _ _ E).
Qed.

(** ** Facts about channels and poller *)

Section Poller.
Context {K CB : Type} `{HK : EpollKernel K} `{HE : !EpollLaws K} `{HF : !LoopKernel K} `{HL : !LoopKernelLaws K}.
Context (tid : Z).
Implicit Types (l : loop_state K CB) (c : Channel CB) (p : Poller.ptr).

(** Nothing but the opening and closing calls changes the open descriptors. *)
Definition keeps_fds {A} (m : ST (loop_state K CB) A) : Prop :=
  forall l a l', m l = Done (a, l') -> fds (epoll l') = fds (epoll l).

Lemma keeps_bind {A B} (m : ST (loop_state K CB) A) (k : A -> ST (loop_state K CB) B) :
  keeps_fds m -> (forall a, keeps_fds (k a)) -> keeps_fds (m ≫= k).
Proof. intros Hm Hk l b l' (a & l1 & E1 & E2)%bind_inv. rewrite (Hk _ _ _ _ E2). exact (Hm _ _ _ E1). Qed.

Lemma keeps_ret {A} (a : A) : keeps_fds (mret a).
Proof. now intros l b l' [= _ <-]. Qed.
Lemma keeps_get : keeps_fds get.
Proof. now intros l b l' [= _ <-]. Qed.
Lemma keeps_fail {A} f : keeps_fds (fail f : ST _ A).
Proof. discriminate. Qed.
Lemma keeps_cassert `{Build} b : keeps_fds (cassert b).
Proof. now intros l u l' ->%cassert_inv. Qed.
Lemma keeps_modify f : (forall l, epoll (f l) = epoll l) -> keeps_fds (modify f).
Proof. intros Hf l u l' [= _ <-]. now rewrite Hf. Qed.
Lemma keeps_deref {A} (o : option A) : keeps_fds (deref o).
Proof. destruct o; [apply keeps_ret|apply keeps_fail]. Qed.
Lemma keeps_when b (m : ST (loop_state K CB) unit) : keeps_fds m -> keeps_fds (when b m).
Proof. destruct b; [auto|intros _; apply keeps_ret]. Qed.

Ltac keeps_1 :=
  first
    [apply keeps_ret|apply keeps_get|apply keeps_fail|apply keeps_cassert|apply keeps_deref|apply keeps_when
    |apply keeps_modify; reflexivity|apply keeps_bind; [|intros ?]
    |progress unfold channel_update, updateChannel, removeChannel, poller_updateChannel, poller_removeChannel, upd, chan, assertInLoopThread
    |case_match].
Ltac keeps := repeat keeps_1.

Lemma keeps_update op p : keeps_fds (update op p).
Proof.
  unfold update. apply keeps_bind; [keeps|]. intros c. intros l u l' E. rewrite bind_get in E.
  destruct (epoll_ctl (epoll l) op (fd_ c) _) as [k' ok] eqn:Ek. rewrite bind_modify in E.
  assert (Hk : fds k' = fds (epoll l)) by (pose proof (ctl_fds (epoll l) op (fd_ c) (mkEvent (kernel_events c) p)) as Hx; now rewrite Ek in Hx).
  rewrite <-Hk. change k' with (epoll (set_epoll k' l)). revert E. generalize (set_epoll k' l). intros l1. clear -HL.
  revert u l'. generalize l1. clear l1. refine (_ : keeps_fds _). keeps.
Qed.

Lemma keeps_switch `{Build} g p : keeps_fds (switch tid g p).
Proof. unfold switch. repeat first [apply keeps_update|keeps_1]. Qed.

Lemma keeps_remove `{Build} p : keeps_fds (remove tid p).
Proof. unfold remove. repeat first [apply keeps_update|keeps_1]. Qed.

Lemma Inv_kernel k l : Inv l -> interest k = interest (epoll l) -> Inv (set_epoll k l).
Proof. intros [] Hk. constructor; cbn; rewrite ?Hk; auto. Qed.

(** A channel right after [enableReading]. *)
Definition reading_channel (this : Poller.ptr) (fd : Z) (cb : CB) : Channel CB :=
  mkChannel this fd kReadEvent 0 1 true true false false true None (Some cb) None None None.
Definition reading_event p : epoll_event := mkEvent (Z.lor kReadEvent EPOLLET) p.

Record starts_reading p fd cb l l' : Prop := {
  sr_inv : Inv l';
  sr_heap : heap l' = <[p := reading_channel (self l) fd cb]> (heap l);
  sr_channels : channels_ l' = <[fd := p]> (channels_ l);
  sr_interest : interest (epoll l') = <[fd := reading_event p]> (interest (epoll l));
  sr_fds : fds (epoll l') = fds (epoll l);
  sr_watch f : watchable (epoll l) f -> watchable (epoll l') f;
  sr_same : self l' = self l /\ threadId_ l' = threadId_ l;
}.

Lemma starts_reading_ok `{Build} p fd cb l : Inv l -> threadId_ l = tid -> watchable (epoll l) fd ->
  heap l !! p = Some (newChannel (self l) fd) ->
  (asserts_enabled = true -> channels_ l !! fd = None) ->
  exists l', (_ ← setReadCallback p cb; enableReading tid p) l = Done (tt, l') /\ starts_reading p fd cb l l'.
Proof.
  intros I Ht Hw E Hn. unfold setReadCallback. st_step (upd_ok p (with_readCallback cb) l _ E).
  set (c := with_readCallback cb _). set (l1 := set_heap _ l).
  assert (I1 : Inv l1) by now apply (Inv_same_registration p l (newChannel (self l) fd) c).
  assert (C : can_switch tid p c l1) by (constructor; auto; apply lookup_insert_eq).
  destruct (switch_run tid (fun x => Z.lor x kReadEvent) p l1 c I1 C) as (k' & Es & Hk & Hm).
  exists (updated p (set_addedToLoop true (set_events (Z.lor (events_ c) kReadEvent) c)) k' l1).
  split; [exact Es|]. constructor.
  - apply Inv_switched; [exact I1|apply lookup_insert_eq|exact Hk].
  - cbn. now rewrite insert_insert_eq.
  - reflexivity.
  - exact Hk.
  - exact (keeps_switch _ _ _ _ _ Es).
  - exact Hm.
  - now split.
Qed.

(** With a descriptor that the kernel does not know, the call aborts. *)
Lemma bad_fd_aborts `{Build} p cb l : threadId_ l = tid -> heap l !! p = Some (newChannel (self l) (-1)) ->
  channels_ l !! (-1) = None -> (_ ← setReadCallback p cb; enableReading tid p) l = Fail Aborted.
Proof.
  intros Ht E Hn. unfold setReadCallback. st_step (upd_ok p (with_readCallback cb) l _ E). set (l1 := set_heap _ l).
  unfold enableReading. st_step (upd_ok p (fun c => set_events (Z.lor (events_ c) kReadEvent) c) l1 _ (lookup_insert_eq (heap l) p _)).
  set (l2 := set_heap _ l1). unfold channel_update.
  st_step (upd_ok p (set_addedToLoop true) l2 _ (lookup_insert_eq (heap l1) p _)). set (l3 := set_heap _ l2).
  set (c := set_addedToLoop true _) in *. assert (E3 : heap l3 !! p = Some c) by apply lookup_insert_eq.
  unfold updateChannel. st_step (chan_ok p l3 c E3). st_get.
  st_step (cassert_true (loop_ c =? self l3) l3 (Z.eqb_refl _)). st_step (assertInLoopThread_ok tid l3 Ht).
  unfold poller_updateChannel. st_step (assertInLoopThread_ok tid l3 Ht). st_step (chan_ok p l3 c E3). st_get.
  change (index_ c <? 0) with true. cbv iota.
  st_step (cassert_true (bool_decide (channels_ l3 !! fd_ c = None)) l3 (bool_decide_true _ Hn)). st_modify.
  set (l4 := set_channels _ l3). assert (E4 : heap l4 !! p = Some c) by exact E3.
  unfold update. st_step (chan_ok p l4 c E4). st_get. change (fd_ c) with (-1).
  pose proof (ctl_bad_fd (epoll l4) (mkEvent (kernel_events c) p)) as Hb.
  destruct (epoll_ctl (epoll l4) EPOLL_CTL_ADD (-1) _) as [k' ok]. cbn in Hb. subst ok. reflexivity.
Qed.

(** [disableAll] and [remove] of a registered channel in a release build, then its
    descriptor is closed and the channel destroyed: nothing of it is left. *)
Record gone p c l l' : Prop := {
  g_inv : Inv l';
  g_heap : heap l' = delete p (heap l);
  g_channels : channels_ l' = delete (fd_ c) (channels_ l);
  g_interest : interest (epoll l') = delete (fd_ c) (interest (epoll l));
  g_fds : fds (epoll l') = fds (epoll l) ∖ {[fd_ c]};
  g_watch f : f <> fd_ c -> watchable (epoll l) f -> watchable (epoll l') f;
  g_same : self l' = self l /\ threadId_ l' = threadId_ l;
}.

Definition closed (fd : Z) l : loop_state K CB := set_epoll (close_fd fd (epoll l)) l.

Lemma gone_ok `{Build} p c l : asserts_enabled = false -> Inv l -> can_switch tid p c l -> index_ c <> -1 ->
  exists l1 l2 l3, disableAll tid p l = Done (tt, l1) /\ remove tid p l1 = Done (tt, l2) /\
    destroyChannel p (closed (fd_ c) l2) = Done (tt, l3) /\ gone p c l l3.
Proof.
  intros R I C Hi. destruct (disableAll_run tid p l c I C) as (k' & E1 & Hk & Hm).
  destruct (disableAll_remove_release tid p l c R I C Hi) as (l2' & E & I2 & Hc2 & Hi2 & _).
  set (c1 := set_addedToLoop true (set_events kNoneEvent c)) in *. set (l1 := updated p c1 k' l) in *.
  assert (Hx : index_ (setIndex (next_index c1) c1) <> 2) by (cbn; unfold next_index; cbn; case_match; lia).
  pose proof (remove_release tid p l1 _ R (lookup_insert_eq (heap l) p _) (cs_thread _ _ _ _ C) Hx) as E2.
  rewrite (bind_done _ _ _ _ _ E1), E2 in E. injection E as <-. set (l2 := set_heap _ _) in *.
  set (c2 := setIndex (-1) _) in *. assert (Eh : heap l2 !! p = Some c2) by apply lookup_insert_eq.
  destruct (close_closes (fd_ c) (epoll l2)) as (Hf & Hint & Hw).
  assert (Hint' : interest (epoll (closed (fd_ c) l2)) = interest (epoll l2)).
  { apply Hint. rewrite Hi2. apply lookup_delete_eq. }
  assert (I3 : Inv (closed (fd_ c) l2)) by now apply Inv_kernel.
  exists l1, l2, (set_heap (delete p (heap l2)) (closed (fd_ c) l2)). split_and!; [exact E1|exact E2|exact (destroy_release p c2 (closed (fd_ c) l2) R Eh)|].
  constructor.
  - apply (Inv_delete p c2 _ I3 Eh eq_refl). change (channels_ l2 !! fd_ c = None). rewrite Hc2. apply lookup_delete_eq.
  - cbn. now rewrite !delete_insert_eq.
  - exact Hc2.
  - cbn. exact (eq_trans Hint' Hi2).
  - refine (eq_trans Hf _). f_equal. exact (eq_trans (keeps_remove _ _ _ _ E2) (keeps_switch (fun _ => kNoneEvent) _ _ _ _ E1)).
  - intros f Hne Hwf. apply Hw; [exact Hne|]. now apply Hm.
  - now split.
Qed.
End Poller.

Section Properties.
Context {K CB T : Type} `{HK : EpollKernel K} `{HE : !EpollLaws K} `{HF : !LoopKernel K} `{HL : !LoopKernelLaws K} `{HB : Build}.
Context (tid : Z) (timerfdChannel_ wakeupChannel_ : Poller.ptr) (on_timer on_wakeup : CB).
Hypothesis channels_differ : timerfdChannel_ <> wakeupChannel_.
Abbreviation evloop := (evloop K CB T).
Implicit Types (e : evloop).

Lemma on_loop_done {A} (m : ST (loop_state K CB) A) e a l : m (lp e) = Done (a, l) -> on_loop m e = Done (a, set_lp l e).
Proof. intros E. unfold on_loop. now rewrite E. Qed.

Lemma on_loop_bind {A B} (m : ST (loop_state K CB) A) (k : A -> ST (loop_state K CB) B) e :
  (x ← on_loop m; on_loop (k x)) e = on_loop (m ≫= k) e.
Proof.
  unfold on_loop, mbind, ST_bind. destruct (m (lp e)) as [[a l]|]; [|reflexivity]. cbn [lp set_lp].
  now destruct (k a l) as [[b l']|].
Qed.

Lemma open_fd_done (call : K -> K * option Z) e k r : call (epoll (lp e)) = (k, r) ->
  open_fd call e = Done (r, set_kernel k e).
Proof. intros E. unfold open_fd. rewrite bind_get, E. reflexivity. Qed.

Section Construct.
Context (this : Poller.ptr) (k0 : K).

(** What the constructors have set up, piece by piece. *)
Record with_poller e : Prop := {
  wp_opens : (epollfd_ e ∉ fds k0) /\ fds (epoll (lp e)) = {[epollfd_ e]} ∪ fds k0;
  wp_empty : heap (lp e) = ∅ /\ channels_ (lp e) = ∅ /\ interest (epoll (lp e)) = ∅;
  wp_self : self (lp e) = this /\ threadId_ (lp e) = tid;
  wp_size : events_size (lp e) = kInitEventListSize;
}.

Lemma newPoller_ends t : ends newPoller (raw tid this t k0) (fun _ e =>
  with_poller e /\ t_loopInThisThread e = t).
Proof.
  unfold newPoller. destruct (epoll_create1 k0) as [k r] eqn:Ek.
  refine (ends_step _ _ _ _ _ _ (open_fd_done _ (raw tid this t k0) _ _ Ek) _). destruct r as [fd|]; [|reflexivity].
  destruct (epoll_create_opens _ _ _ Ek) as [Ho Hi]. cbn. split; [|reflexivity]. now constructor.
Qed.

Lemma Inv_nothing (l : loop_state K CB) : heap l = ∅ -> channels_ l = ∅ -> interest (epoll l) = ∅ -> Inv l.
Proof.
  intros Hh Hc Hi. constructor; rewrite ?Hh, ?Hc, ?Hi.
  - intros p q c d Hx. now rewrite lookup_empty in Hx.
  - intros p c Hx. now rewrite lookup_empty in Hx.
  - intros fd p Hx. now rewrite lookup_empty in Hx.
  - intros fd ev Hx. now rewrite lookup_empty in Hx.
Qed.

Record with_timers t e : Prop := {
  wt_opens : (epollfd_ e ∉ fds k0) /\ (timerfd_ e ∉ {[epollfd_ e]} ∪ fds k0) /\
    fds (epoll (lp e)) = {[timerfd_ e]} ∪ ({[epollfd_ e]} ∪ fds k0);
  wt_inv : Inv (lp e);
  wt_heap : heap (lp e) = {[timerfdChannel_ := reading_channel this (timerfd_ e) on_timer]};
  wt_channels : channels_ (lp e) = {[timerfd_ e := timerfdChannel_]};
  wt_interest : interest (epoll (lp e)) = {[timerfd_ e := reading_event timerfdChannel_]};
  wt_watch : watchable (epoll (lp e)) (timerfd_ e);
  wt_self : self (lp e) = this /\ threadId_ (lp e) = tid;
  wt_thread : t_loopInThisThread e = t;
  wt_timers : timers e = no_timers;
}.

Lemma newTimerQueue_ends t e : with_poller e -> t_loopInThisThread e = t ->
  ends (newTimerQueue tid timerfdChannel_ on_timer) e (fun _ e' => with_timers t e').
Proof.
  intros [[Hn Hf] (Hh & Hc & Hi) [Hs Ht] _] Hth. unfold newTimerQueue.
  destruct (sys_timerfd_create (epoll (lp e))) as [k r] eqn:Ek.
  assert (Efd : createTimerfd e = Done (default (-1) r, set_kernel k e))
    by (unfold createTimerfd; now rewrite (bind_done _ _ _ _ _ (open_fd_done _ e _ _ Ek))).
  refine (ends_step _ _ _ _ _ _ Efd _). do 3 refine (ends_step _ _ _ _ _ _ eq_refl _). set (e1 := set_tq _ _). set (fd := default (-1) r) in *.
  assert (Eh : heap (lp e1) !! timerfdChannel_ = Some (newChannel (self (lp e1)) fd)) by apply lookup_insert_eq.
  destruct r as [fd'|]; cbn [default from_option] in fd.
  - destruct (timerfd_opens _ _ _ Ek) as ([Ho1 Ho2] & Hi1 & Hw & _).
    assert (I1 : Inv (lp e1)).
    { apply (Inv_new_channel timerfdChannel_ (newChannel (self (lp e)) fd) (set_epoll k (lp e))); cbn; rewrite ?Hh; [|done..].
      apply Inv_nothing; cbn; congruence. }
    destruct (starts_reading_ok tid timerfdChannel_ fd on_timer (lp e1) I1 Ht Hw Eh) as (l' & El & []).
    { intros _. cbn. now rewrite Hc. }
    unfold ends. rewrite on_loop_bind, (on_loop_done _ _ _ _ El). 
    constructor; cbn.
    + rewrite sr_fds0. cbn. rewrite <-Hf. auto.
    + exact sr_inv0.
    + rewrite sr_heap0. cbn. rewrite insert_insert_eq, Hh. now rewrite Hs.
    + rewrite sr_channels0. cbn. now rewrite Hc.
    + rewrite sr_interest0. cbn. now rewrite Hi1, Hi.
    + now apply sr_watch0.
    + destruct sr_same0 as [Ha Hb]. split; [exact (eq_trans Ha Hs)|exact (eq_trans Hb Ht)].
    + exact Hth.
    + reflexivity.
  - unfold ends. rewrite on_loop_bind. unfold on_loop. rewrite bad_fd_aborts; [reflexivity|exact Ht|exact Eh|cbn; now rewrite Hc].
Qed.

(** A constructed loop: three new descriptors, two channels, both of them reading. *)
Record constructed e : Prop := {
  c_opens : (epollfd_ e ∉ fds k0) /\ (timerfd_ e ∉ {[epollfd_ e]} ∪ fds k0) /\
    wakeupFd_ e ∉ {[timerfd_ e]} ∪ ({[epollfd_ e]} ∪ fds k0);
  c_fds : fds (epoll (lp e)) = {[wakeupFd_ e]} ∪ ({[timerfd_ e]} ∪ ({[epollfd_ e]} ∪ fds k0));
  c_inv : Inv (lp e);
  c_heap : heap (lp e) = {[wakeupChannel_ := reading_channel this (wakeupFd_ e) on_wakeup;
                           timerfdChannel_ := reading_channel this (timerfd_ e) on_timer]};
  c_channels : channels_ (lp e) = {[wakeupFd_ e := wakeupChannel_; timerfd_ e := timerfdChannel_]};
  c_interest : interest (epoll (lp e)) =
    {[wakeupFd_ e := reading_event wakeupChannel_; timerfd_ e := reading_event timerfdChannel_]};
  c_watch : watchable (epoll (lp e)) (timerfd_ e) /\ watchable (epoll (lp e)) (wakeupFd_ e);
  c_self : self (lp e) = this /\ threadId_ (lp e) = tid;
  c_thread : getEventLoopOfCurrentThread e = Some this;
  c_timers : timers e = no_timers;
}.

Lemma createEventfd_ends e : ends createEventfd e (fun fd e' => exists k,
  e' = set_kernel k e /\ opens_watchable (epoll (lp e)) k fd).
Proof.
  unfold createEventfd. destruct (sys_eventfd (epoll (lp e))) as [k r] eqn:Ek.
  refine (ends_step _ _ _ _ _ _ (open_fd_done _ e _ _ Ek) _). destruct r as [fd|]; [|reflexivity].
  exists k. split; [reflexivity|]. exact (eventfd_opens _ _ _ Ek).
Qed.

Lemma wakeup_ready t e k fd : with_timers t e -> opens_watchable (epoll (lp e)) k fd -> timerfd_ e <> fd ->
  let e1 := set_lp (set_heap (<[wakeupChannel_ := newChannel (self (lp e)) fd]> (heap (lp e))) (set_epoll k (lp e))) (set_wakeupFd fd e) in
  exists l', (_ ← setReadCallback wakeupChannel_ on_wakeup; enableReading tid wakeupChannel_) (lp e1) = Done (tt, l') /\
    starts_reading wakeupChannel_ fd on_wakeup (lp e1) l'.
Proof.
  intros [_ I Hh Hc Hi _ [Hs Ht] _ _] ([Ho1 Ho2] & Hi1 & Hw & _) Hne e1.
  assert (Hk : Inv (set_epoll k (lp e))) by now apply Inv_kernel.
  assert (I1 : Inv (lp e1)).
  { apply (Inv_new_channel wakeupChannel_ (newChannel (self (lp e)) fd) (set_epoll k (lp e))); cbn; rewrite ?Hh; [exact Hk| |reflexivity|].
    - now apply lookup_singleton_ne.
    - now intros r d' [<- <-]%lookup_singleton_Some. }
  apply starts_reading_ok; [exact I1|exact Ht|exact Hw|apply lookup_insert_eq|].
  intros _. cbn. rewrite Hc. now apply lookup_singleton_ne.
Qed.

Lemma newEventLoop_ends t :
  ends (newEventLoop tid timerfdChannel_ wakeupChannel_ on_timer on_wakeup) (raw tid this t k0) (fun _ e => t = None /\ constructed e).
Proof.
  unfold newEventLoop. eapply ends_bind; [apply newPoller_ends|]. intros [] e1 [W1 Ht1].
  eapply ends_bind; [exact (newTimerQueue_ends t e1 W1 Ht1)|]. clear e1 W1 Ht1. intros [] e W.
  eapply ends_bind; [apply createEventfd_ends|]. intros fd e' (k & -> & Ho).
  do 3 refine (ends_step _ _ _ _ _ _ eq_refl _). cbn [t_loopInThisThread set_lp set_wakeupFd set_kernel].
  rewrite (wt_thread _ _ W). destruct t as [o|]; [reflexivity|].
  refine (ends_step _ _ _ _ _ _ eq_refl _). unfold ends. rewrite on_loop_bind.
  assert (Hne : timerfd_ e <> fd).
  { intros Hx. destruct Ho as ([Ho _] & _). apply Ho. rewrite (proj2 (proj2 (wt_opens _ _ W))). set_solver. }
  destruct (wakeup_ready None e k fd W Ho Hne) as (l' & El & []).
  erewrite on_loop_done by exact El. split; [reflexivity|].
  destruct W as [(Hn1 & Hn2 & Hf) _ Hh Hc Hi Hwt [Hs Ht] _ Htm]. destruct Ho as ([Ho1 Ho2] & Hi1 & Hw & Hm).
  constructor; cbn in *.
  - now rewrite <-Hf.
  - now rewrite sr_fds0, Ho2, Hf.
  - exact sr_inv0.
  - rewrite sr_heap0, insert_insert_eq, Hh. now rewrite Hs.
  - now rewrite sr_channels0, Hc.
  - now rewrite sr_interest0, Hi1, Hi.
  - auto.
  - destruct sr_same0 as [Ha Hb]. split; [exact (eq_trans Ha Hs)|exact (eq_trans Hb Ht)].
  - now rewrite Hs.
  - exact Htm.
Qed.
End Construct.

(** ** The end of a loop *)

(** Whatever the loop has done since, its own two channels are registered with its
    own descriptors, and its timers are in order. *)
Record live_loop e : Prop := {
  ll_inv : Inv (lp e);
  ll_wakeup : exists c, can_switch tid wakeupChannel_ c (lp e) /\ index_ c <> -1 /\ fd_ c = wakeupFd_ e;
  ll_timer : exists c, can_switch tid timerfdChannel_ c (lp e) /\ index_ c <> -1 /\ fd_ c = timerfd_ e;
  ll_timers : TInv (timers e);
}.

Lemma delete_list (l : list Entry) (q : tq_state T) : exists q',
  for_each l (fun timer => free (snd timer)) q = Done (tt, q') /\
  forall p t, theap q' !! p = Some t <-> theap q !! p = Some t /\ p ∉ l.*2.
Proof.
  revert q. induction l as [|[w x] l IH]; intros q.
  - exists q. split; [reflexivity|]. intros p t. set_solver.
  - destruct (IH (set_theap (delete x (theap q)) q)) as (q' & E & Hq). exists q'. split; [exact E|].
    intros p t. rewrite Hq. cbn. rewrite lookup_delete_Some. set_solver.
Qed.

Lemma delete_timers_run (q : tq_state T) : TInv q -> exists q', delete_timers q = Done (tt, q') /\
  forall p t, theap q' !! p = Some t <-> outside q p t.
Proof.
  intros I. destruct (delete_list (timers_ q) q) as (q' & E & Hq). exists q'. split; [exact E|]. intros p t. rewrite Hq.
  unfold outside. split; intros [Hp Hn]; (split; [exact Hp|]); intros Hx; apply Hn.
  - apply list_elem_of_fmap. exists (expiration_ t, p). split; [reflexivity|]. apply (ti_timers _ I). now exists t.
  - apply list_elem_of_fmap in Hx as ([w x] & -> & Hx). apply (ti_timers _ I) in Hx as (t' & Ht & _ & Ha). cbn in *. assert (t' = t) as -> by congruence. exact Ha.
Qed.

(** What [~EventLoop] leaves. *)
Record destroyed e e' : Prop := {
  d_fds : fds (epoll (lp e')) = fds (epoll (lp e)) ∖ {[wakeupFd_ e]} ∖ {[timerfd_ e]} ∖ {[epollfd_ e]};
  d_heap : heap (lp e') = delete timerfdChannel_ (delete wakeupChannel_ (heap (lp e)));
  d_channels : channels_ (lp e') = delete (timerfd_ e) (delete (wakeupFd_ e) (channels_ (lp e)));
  d_thread : getEventLoopOfCurrentThread e' = None;
  (* the timers that were in the queue are deleted, and no others *)
  d_timers p t : theap (timers e') !! p = Some t <-> outside (timers e) p t;
}.

Lemma close_run fd e : close fd e = Done (tt, set_kernel (close_fd fd (epoll (lp e))) e).
Proof. reflexivity. Qed.

Lemma destroy_loop_ok e : asserts_enabled = false -> live_loop e ->
  exists e', destroyEventLoop tid timerfdChannel_ wakeupChannel_ e = Done (tt, e') /\ destroyed e e'.
Proof.
  intros R [I (cw & Cw & Hiw & Hfw) (ct & Ct & Hit & Hft) It].
  assert (Hne : fd_ ct <> fd_ cw).
  { intros Hx. apply channels_differ. exact (inv_fd _ _ I _ _ _ _ (cs_heap _ _ _ _ Ct) (cs_heap _ _ _ _ Cw) Hx). }
  destruct (gone_ok tid wakeupChannel_ cw (lp e) R I Cw Hiw) as (w1 & w2 & w3 & E1 & E2 & E3 & [Iw Hhw Hcw _ Hsw Hww [Sw Tw]]).
  assert (Ct' : can_switch tid timerfdChannel_ ct w3).
  { destruct Ct. constructor; [|congruence|congruence|now apply Hww|congruence].
    rewrite Hhw. rewrite lookup_delete_ne by congruence. assumption. }
  destruct (gone_ok tid timerfdChannel_ ct w3 R Iw Ct' Hit) as (t1 & t2 & t3 & F1 & F2 & F3 & [_ Hht Hct _ Hst _ _]).
  destruct (delete_timers_run (timers e) It) as (q & Eq & Hq).
  unfold destroyEventLoop, destroyTimerQueue. rewrite Hfw in E3. rewrite Hft in F3.
  st_step (on_loop_done _ e tt _ E1). st_step (on_loop_done _ (set_lp w1 e) tt _ E2). st_get.
  rewrite (bind_done _ _ _ _ _ (close_run _ _)). cbv beta. st_modify.
  erewrite bind_done by (apply on_loop_done; exact E3). cbv beta.
  rewrite bind_assoc. erewrite bind_done by (apply on_loop_done; exact F1). cbv beta.
  rewrite bind_assoc. erewrite bind_done by (apply on_loop_done; exact F2). cbv beta.
  rewrite bind_assoc, bind_get, bind_assoc, (bind_done _ _ _ _ _ (close_run _ _)). cbv beta.
  assert (Et : forall e1 : evloop, timers e1 = timers e -> on_timers delete_timers e1 = Done (tt, set_tq q e1)).
  { intros e1 H1. unfold on_timers. now rewrite H1, Eq. }
  rewrite bind_assoc. erewrite bind_done by (apply Et; reflexivity). cbv beta.
  erewrite bind_done by (apply on_loop_done; exact F3). cbv beta.
  unfold destroyPoller. rewrite bind_get. unfold close. eexists. split; [reflexivity|].
  constructor; cbn.
  - rewrite (proj1 (close_closes _ _)), Hst, Hsw. now rewrite Hfw, Hft.
  - now rewrite Hht, Hhw.
  - now rewrite Hct, Hcw, Hfw, Hft.
  - reflexivity.
  - exact Hq.
Qed.

Lemma destroy_asserts e : asserts_enabled = true -> live_loop e ->
  destroyEventLoop tid timerfdChannel_ wakeupChannel_ e = Fail AssertFailed.
Proof.
  intros A [I (c & C & Hi & _) _ _]. pose proof (disableAll_remove_fails tid wakeupChannel_ (lp e) c A I C Hi) as Ef.
  destruct (disableAll_run tid wakeupChannel_ (lp e) c I C) as (k' & E1 & _). rewrite (bind_done _ _ _ _ _ E1) in Ef.
  unfold destroyEventLoop. st_step (on_loop_done _ e tt _ E1). apply bind_fail. unfold on_loop. cbn [lp set_lp]. now rewrite Ef.
Qed.

Lemma no_timers_TInv : TInv (no_timers (T := T)).
Proof.
  constructor; cbn; [constructor| |set_solver|].
  - intros w p. split; [now intros Hx%not_elem_of_nil|]. intros (t & Hx & _). now rewrite lookup_empty in Hx.
  - intros p t Hx. now rewrite lookup_empty in Hx.
Qed.

(** A constructed loop is in order. *)
Lemma constructed_live this k0 e : constructed this k0 e -> live_loop e.
Proof.
  intros []. destruct c_self0 as [Hs Ht], c_watch0 as [Hwt Hww]. constructor.
  - assumption.
  - exists (reading_channel this (wakeupFd_ e) on_wakeup). split_and!; [|discriminate|reflexivity].
    constructor; [rewrite c_heap0; apply lookup_insert_eq|exact Ht|now rewrite Hs|exact Hww|discriminate].
  - exists (reading_channel this (timerfd_ e) on_timer). split_and!; [|discriminate|reflexivity].
    constructor; [|exact Ht|now rewrite Hs|exact Hwt|discriminate].
    rewrite c_heap0, lookup_insert_ne by congruence. apply lookup_singleton_eq.
  - rewrite c_timers0. apply no_timers_TInv.
Qed.

(** The event switches of other channels keep it in order. *)
Lemma live_switch o p c e : live_loop e -> can_switch tid p c (lp e) -> p <> wakeupChannel_ -> p <> timerfdChannel_ ->
  exists l, run_op tid o p (lp e) = Done (tt, l) /\ live_loop (set_lp l e).
Proof.
  intros [I (cw & Cw & Hiw & Hfw) (ct & Ct & Hit & Hft) It] C Hpw Hpt.
  rewrite (run_op_switch tid o p). destruct (switch_run tid (op_mask o) p (lp e) c I C) as (k' & E & Hk & Hm).
  eexists. split; [exact E|].
  assert (Hkeep : forall q d, can_switch tid q d (lp e) -> index_ d <> -1 -> p <> q ->
    can_switch tid q d (updated p (set_addedToLoop true (set_events (op_mask o (events_ c)) c)) k' (lp e))).
  { intros q d [] Hd Hq. constructor; cbn; auto; [|now intros]. now rewrite lookup_insert_ne. }
  constructor; cbn [lp set_lp timers].
  - exact (Inv_switched p (lp e) c (op_mask o (events_ c)) k' I (cs_heap _ _ _ _ C) Hk).
  - exists cw. auto.
  - exists ct. auto.
  - exact It.
Qed.

(** ** Properties *)

(** C30: a loop gives back what it took.  The constructor aborts, when a descriptor
    cannot be created or the thread has a loop already; or it leaves three new
    descriptors, a poller that watches exactly the wake-up and the timer descriptor,
    for reading and edge-triggered, each with its own channel, and the loop as that
    of its thread.  In a release build the destructor then succeeds and leaves the
    descriptors that were open before, no channel and no loop in the thread. *)
Theorem loop_construct_destroy (this : Poller.ptr) t k0 :
  match newEventLoop tid timerfdChannel_ wakeupChannel_ on_timer on_wakeup (raw tid this t k0) with
  | Fail f => f = Aborted
  | Done (_, e) => t = None /\ constructed this k0 e /\
      (asserts_enabled = false -> exists e', destroyEventLoop tid timerfdChannel_ wakeupChannel_ e = Done (tt, e') /\
        fds (epoll (lp e')) = fds k0 /\ heap (lp e') = ∅ /\ channels_ (lp e') = ∅ /\
        theap (timers e') = ∅ /\ getEventLoopOfCurrentThread e' = None)
  end.
Proof.
  pose proof (newEventLoop_ends this k0 t) as He. unfold ends in He.
  destruct (newEventLoop _ _ _ _ _ _) as [[u e]|f]; [|exact He]. destruct He as [-> Hc]. split_and!; [reflexivity|exact Hc|].
  intros R. destruct (destroy_loop_ok e R (constructed_live this k0 e Hc)) as (e' & E & []). exists e'. split; [exact E|].
  destruct Hc as [(Hn1 & Hn2 & Hn3) Hf _ Hh Hch _ _ _ _ Htm]. split_and!; [| | | |assumption].
  - rewrite d_fds0, Hf. set_solver.
  - rewrite d_heap0, Hh, delete_insert_eq, delete_delete, delete_singleton_eq. apply delete_empty.
  - rewrite d_channels0, Hch, delete_insert_eq, delete_delete, delete_singleton_eq. apply delete_empty.
  - apply map_eq. intros p. rewrite lookup_empty. destruct (theap (timers e') !! p) as [tm|] eqn:Ep; [|done].
    apply d_timers0 in Ep as [Hx _]. now rewrite Htm in Hx.
Qed.

(** the destructor of a loop.  Whatever the loop has done in between, in a
    release build its destructor closes its three descriptors, takes its two
    channels out of the poller and deletes the timers of its queue.  A timer that
    another thread has created and whose [addTimerInLoop] has not run is not deleted.
    In a build with assertions no loop can be destroyed: the assertion in
    [removeChannel] fails. *)
Theorem loop_destructor e : live_loop e ->
  if asserts_enabled then destroyEventLoop tid timerfdChannel_ wakeupChannel_ e = Fail AssertFailed
  else exists e', destroyEventLoop tid timerfdChannel_ wakeupChannel_ e = Done (tt, e') /\ destroyed e e'.
Proof.
  intros Hl. destruct asserts_enabled eqn:A; [now apply destroy_asserts|now apply destroy_loop_ok].
Qed.
End Properties.

(** ** Concrete inputs *)

Module Demo.
(** A kernel with a table of descriptors, each of them watched or not. *)
Abbreviation kernel := (gmap Z (option epoll_event)).
Implicit Types (k : kernel).

Definition next k : Z := Z.of_nat (fresh (Z.to_nat <$> elements (dom k))).
Definition opened k : kernel * option Z := (<[next k := None]> k, Some (next k)).

Definition ctl k (op : ctl_op) (fd : Z) (ev : epoll_event) : kernel * bool :=
  match op, k !! fd with
  | EPOLL_CTL_ADD, Some None => if fd <? 0 then (k, false) else (<[fd := Some ev]> k, true)
  | EPOLL_CTL_MOD, Some (Some _) => (<[fd := Some ev]> k, true)
  | EPOLL_CTL_DEL, Some (Some _) => (<[fd := None]> k, true)
  | _, _ => (k, false)
  end.

#[export] Instance demo_epoll : EpollKernel kernel := {| interest k := omap id k; epoll_ctl := ctl |}.

Lemma lookup_interest k fd : interest k !! fd = k !! fd ≫= id.
Proof. apply lookup_omap. Qed.

Lemma interest_insert k fd o : interest (<[fd := o]> k) = match o with Some ev => <[fd := ev]> (interest k) | None => delete fd (interest k) end.
Proof. cbn. rewrite omap_insert. now destruct o. Qed.

Lemma ctl_true k op fd ev k' : ctl k op fd ev = (k', true) ->
  ctl_pre op fd (interest k) /\ fd ∈ dom k /\ k' = <[fd := if op is EPOLL_CTL_DEL then None else Some ev]> k.
Proof.
  unfold ctl, ctl_pre. rewrite lookup_interest. destruct op; (destruct (k !! fd) as [[ev'|]|] eqn:E; try discriminate);
    repeat case_match; intros [= <-]; (split_and!; [cbn; eauto|apply elem_of_dom; eauto|reflexivity]).
Qed.

Lemma ctl_false k op fd ev k' : ctl k op fd ev = (k', false) ->
  k' = k /\ (ctl_pre op fd (interest k) -> op = EPOLL_CTL_ADD /\ ~ (0 <= fd /\ fd ∈ dom k)).
Proof.
  unfold ctl, ctl_pre. rewrite lookup_interest. destruct op; (destruct (k !! fd) as [[ev'|]|] eqn:E; try discriminate);
    repeat case_match; intros [= <-]; (split; [reflexivity|]); cbn; try discriminate; try (now intros [? ?]);
    intros _; (split; [reflexivity|]); intros [H1 [o H2]%elem_of_dom]; [lia|congruence].
Qed.

#[export] Program Instance demo_epoll_laws : EpollLaws kernel := {| watchable k fd := 0 <= fd /\ fd ∈ dom k |}.
Next Obligation.
  intros k op fd ev k' (Hp & Hd & ->)%ctl_true. rewrite interest_insert. split_and!; [exact Hp|now destruct op|set_solver].
Qed.
Next Obligation. intros k op fd ev k' [-> Hp]%ctl_false. now split. Qed.

Lemma next_unused k : next k ∉ dom k.
Proof.
  intros Hx. apply (infinite_is_fresh (Z.to_nat <$> elements (dom k))). apply list_elem_of_fmap. exists (next k).
  split; [unfold next; now rewrite Nat2Z.id|]. now apply elem_of_elements.
Qed.

#[export] Instance demo_loop_kernel : LoopKernel kernel := {|
  fds k := dom k;
  epoll_create1 k := (<[next k := None]> ((fun _ => None) <$> k), Some (next k));
  sys_eventfd := opened;
  sys_timerfd_create := opened;
  close_fd fd k := delete fd k;
|}.

Lemma opened_watchable k k' fd : opened k = (k', Some fd) -> opens_watchable k k' fd.
Proof.
  intros [= <- <-]. split_and!.
  - split; [apply next_unused|apply dom_insert_L].
  - rewrite interest_insert. apply delete_id. rewrite lookup_interest.
    now rewrite (not_elem_of_dom_1 _ _ (next_unused k)).
  - cbn. split; [unfold next; lia|set_solver].
  - cbn. intros f [H1 H2]. split; [exact H1|set_solver].
Qed.

#[export] Instance demo_loop_kernel_laws : LoopKernelLaws kernel.
Proof.
  constructor.
  - intros k k' fd [= <- <-]. split.
    + split; [apply next_unused|]. cbn. now rewrite dom_insert_L, dom_fmap_L.
    + apply map_eq. intros i. rewrite lookup_interest, lookup_empty. destruct (decide (next k = i)) as [<-|Hn].
      * now rewrite lookup_insert_eq.
      * rewrite lookup_insert_ne, lookup_fmap by done. now destruct (k !! i).
  - exact opened_watchable.
  - exact opened_watchable.
  - discriminate.
  - intros k ev. cbn. unfold ctl. now destruct (k !! (-1)) as [[|]|].
  - intros k op fd ev. cbn. destruct (ctl k op fd ev) as [k' []] eqn:E; cbn.
    + apply ctl_true in E as (_ & Hd & ->). rewrite dom_insert_L. set_solver.
    + now apply ctl_false in E as [-> _].
  - intros fd k. cbn. split_and!.
    + apply dom_delete_L.
    + rewrite omap_delete. apply delete_id.
    + intros f Hf [H1 H2]. split; [exact H1|set_solver].
Qed.

Inductive callback := TimerRead | WakeupRead.

(** Three descriptors are open before. *)
Definition k0 : kernel := {[0 := None; 1 := None; 2 := None]}.

Definition start : evloop kernel callback unit := raw 77 10 None k0.
Definition construct : ST (evloop kernel callback unit) unit := newEventLoop (HB := release_build) 77 11 12 TimerRead WakeupRead.

Lemma loop_construct_destroy_witness : exists e, construct start = Done (tt, e) /\
  (epollfd_ e, timerfd_ e, wakeupFd_ e) = (3, 4, 5) /\
  exists e', destroyEventLoop (HB := release_build) 77 11 12 e = Done (tt, e') /\ fds (epoll (lp e')) = {[0; 1; 2]}.
Proof.
  pose proof (loop_construct_destroy (T := unit) (HB := release_build) 77 11 12 TimerRead WakeupRead ltac:(discriminate) 10 None k0) as T.
  destruct (newEventLoop _ _ _ _ _ _) as [[[] e]|f] eqn:E; [|vm_compute in E; discriminate].
  destruct T as (_ & _ & T). destruct (T eq_refl) as (e' & E' & Hf & _). exists e. split_and!; [exact E| |].
  - vm_compute in E. injection E as <-. reflexivity.
  - exists e'. split; [exact E'|]. rewrite Hf. vm_compute. reflexivity.
Defined.

(** With assertions the same loop cannot be destroyed. *)
Lemma loop_destructor_witness :
  match construct start with
  | Done (_, e) => destroyEventLoop (HB := debug_build) 77 11 12 e = Fail AssertFailed
  | Fail _ => False
  end.
Proof.
  pose proof (newEventLoop_ends (T := unit) (HB := release_build) 77 11 12 TimerRead WakeupRead ltac:(discriminate) 10 k0 None) as H.
  unfold construct, start, ends in *. destruct (newEventLoop _ _ _ _ _ _) as [[[] e]|f] eqn:E; [|vm_compute in E; discriminate].
  destruct H as [_ H]. apply (loop_destructor (HB := debug_build) 77 11 12 ltac:(discriminate) e).
  destruct (constructed_live (HB := debug_build) 77 11 12 TimerRead WakeupRead ltac:(discriminate) 10 k0 e H). now constructor.
Defined.

(** The thread has a loop already. *)
Lemma second_loop_aborts : newEventLoop (HB := release_build) (T := unit) 77 11 12 TimerRead WakeupRead (raw 77 10 (Some 9) k0) = Fail Aborted.
Proof. vm_compute. reflexivity. Qed.
End Demo.
