(* ===== verification/TcpConnection.v ===== *)
(** TcpConnection: [net/TcpConnection.h] and [net/TcpConnection.cpp].

    One connection: its state, its two buffers, its channel (behind the
    interface of ChannelApi.v), the socket's write side and the functors it
    hands to its loop.  The kernel's answers to [write] and [readv] and the
    user's callbacks are parameters.  Members that run on the loop thread are
    translated without their [assertInLoopThread]; every call of them is one
    from the loop. *)

From Stdlib Require Import ZArith Lia.
From Stdlib Require Import Init.Byte.
From S2P Require Import Prelude Timestamp Buffer Poller ChannelApi.

Local Open Scope Z_scope.

Inductive StateE := kDisconnected | kConnecting | kConnected | kDisconnecting.
#[export] Instance StateE_eq_dec : EqDecision StateE.
Proof. solve_decision. Defined.

Definition EWOULDBLOCK : Z := 11.
Definition EPIPE : Z := 32.
Definition ECONNRESET : Z := 104.

(** What [write] returns: a number of bytes taken, or [errno]. *)
Inductive write_result := Wrote (n : nat) | WriteError (err : Z).

(** Functors queued to the loop. *)
Inductive task :=
  | SendInLoop (message : list byte)
  | ShutdownInLoop
  | ForceCloseInLoop
  | StartReadInLoop
  | StopReadInLoop
  | WriteComplete
  | HighWaterMark (len : Z).

(** Calls of user callbacks. *)
Inductive event :=
  | OnConnection (up : bool)
  | OnMessage
  | OnWriteComplete
  | OnHighWaterMark (len : Z)
  | OnClose.

#[export] Instance event_eq_dec : EqDecision event.
Proof. solve_decision. Defined.

(** What a user does with a connection. *)
Inductive op :=
  | Send (message : list byte)
  | Shutdown
  | ForceClose
  | ForceCloseWithDelay (seconds : double)
  | StartRead
  | StopRead
  | RetrieveAll.          (* conn->inputBuffer()->retrieveAll() *)

(** Which callbacks are set. *)
Record callbacks := mkCallbacks {
  connectionCallback_ : bool;
  messageCallback_ : bool;
  writeCompleteCallback_ : bool;
  highWaterMarkCallback_ : bool;
  closeCallback_ : bool;
}.

(** The socket: bytes the kernel took, whether the write side is shut down, and
    the number of [write] calls. *)
Record socket := mkSocket { wire : list byte; shut : bool; writes : nat }.

Record conn (L : Type) := mkConn {
  state_ : StateE;
  reading_ : bool;
  channel_ : L;
  socket_ : socket;
  inputBuffer_ : Buffer;
  outputBuffer_ : Buffer;
  highWaterMark_ : Z;
  cbs : callbacks;
  functors : list task;             (* in the loop's queue, oldest first *)
  delayed : list (double * task);   (* given to runAfter *)
  removed : bool;                   (* history: connectDestroyed has called remove *)
  trace : list event;               (* callbacks called, oldest first *)
  accepted : list byte;             (* history: every byte sendInLoop took on *)
}.
Arguments mkConn {L}. Arguments state_ {L}. Arguments reading_ {L}. Arguments channel_ {L}.
Arguments socket_ {L}. Arguments inputBuffer_ {L}. Arguments outputBuffer_ {L}.
Arguments highWaterMark_ {L}. Arguments cbs {L}. Arguments functors {L}. Arguments delayed {L}.
Arguments removed {L}. Arguments trace {L}. Arguments accepted {L}.

Section TcpConnection.
Context {L : Type} `{ChannelApi L} `{Build}.
(* the answer of the n-th write(2) on a socket whose write side is open *)
Context (kernel_write : nat -> list byte -> write_result).
Abbreviation conn := (conn L).
Implicit Types (c : conn).

Definition setState (x : StateE) c : conn :=
  mkConn x (reading_ c) (channel_ c) (socket_ c) (inputBuffer_ c) (outputBuffer_ c) (highWaterMark_ c)
    (cbs c) (functors c) (delayed c) (removed c) (trace c) (accepted c).
Definition set_reading (b : bool) c : conn :=
  mkConn (state_ c) b (channel_ c) (socket_ c) (inputBuffer_ c) (outputBuffer_ c) (highWaterMark_ c)
    (cbs c) (functors c) (delayed c) (removed c) (trace c) (accepted c).
Definition set_channel (l : L) c : conn :=
  mkConn (state_ c) (reading_ c) l (socket_ c) (inputBuffer_ c) (outputBuffer_ c) (highWaterMark_ c)
    (cbs c) (functors c) (delayed c) (removed c) (trace c) (accepted c).
Definition set_socket (k : socket) c : conn :=
  mkConn (state_ c) (reading_ c) (channel_ c) k (inputBuffer_ c) (outputBuffer_ c) (highWaterMark_ c)
    (cbs c) (functors c) (delayed c) (removed c) (trace c) (accepted c).
Definition set_input (b : Buffer) c : conn :=
  mkConn (state_ c) (reading_ c) (channel_ c) (socket_ c) b (outputBuffer_ c) (highWaterMark_ c)
    (cbs c) (functors c) (delayed c) (removed c) (trace c) (accepted c).
Definition set_output (b : Buffer) c : conn :=
  mkConn (state_ c) (reading_ c) (channel_ c) (socket_ c) (inputBuffer_ c) b (highWaterMark_ c)
    (cbs c) (functors c) (delayed c) (removed c) (trace c) (accepted c).
Definition set_functors (l : list task) c : conn :=
  mkConn (state_ c) (reading_ c) (channel_ c) (socket_ c) (inputBuffer_ c) (outputBuffer_ c) (highWaterMark_ c)
    (cbs c) l (delayed c) (removed c) (trace c) (accepted c).
Definition set_delayed (l : list (double * task)) c : conn :=
  mkConn (state_ c) (reading_ c) (channel_ c) (socket_ c) (inputBuffer_ c) (outputBuffer_ c) (highWaterMark_ c)
    (cbs c) (functors c) l (removed c) (trace c) (accepted c).
Definition set_removed c : conn :=
  mkConn (state_ c) (reading_ c) (channel_ c) (socket_ c) (inputBuffer_ c) (outputBuffer_ c) (highWaterMark_ c)
    (cbs c) (functors c) (delayed c) true (trace c) (accepted c).
Definition set_trace (l : list event) c : conn :=
  mkConn (state_ c) (reading_ c) (channel_ c) (socket_ c) (inputBuffer_ c) (outputBuffer_ c) (highWaterMark_ c)
    (cbs c) (functors c) (delayed c) (removed c) l (accepted c).
Definition set_accepted (d : list byte) c : conn :=
  mkConn (state_ c) (reading_ c) (channel_ c) (socket_ c) (inputBuffer_ c) (outputBuffer_ c) (highWaterMark_ c)
    (cbs c) (functors c) (delayed c) (removed c) (trace c) d.

(** Run an operation of a part on the part. *)
Definition on_channel (m : ST L unit) : ST conn unit := fun c =>
  match m (channel_ c) with Done (_, l) => Done (tt, set_channel l c) | Fail f => Fail f end.
Definition on_output {A} (m : ST Buffer A) : ST conn A := fun c =>
  match m (outputBuffer_ c) with Done (a, b) => Done (a, set_output b c) | Fail f => Fail f end.
Definition on_input {A} (m : ST Buffer A) : ST conn A := fun c =>
  match m (inputBuffer_ c) with Done (a, b) => Done (a, set_input b c) | Fail f => Fail f end.

Definition isWriting c : bool := ch_isWriting (channel_ c).
Definition isReading c : bool := ch_isReading (channel_ c).

Definition queueInLoop (t : task) : ST conn unit := modify (fun c => set_functors (functors c ++ [t]) c).
Definition runAfter (seconds : double) (t : task) : ST conn unit :=
  modify (fun c => set_delayed (delayed c ++ [(seconds, t)]) c).

(** The constructor. *)
Definition newConn (ch : L) (input output : Buffer) (cb : callbacks) : conn :=
  mkConn kConnecting true ch (mkSocket [] false 0) input output (64 * 1024 * 1024) cb [] [] false [] [].

(** [~TcpConnection]. *)
Definition destructor : ST conn unit := c ← get; cassert (bool_decide (state_ c = kDisconnected)).

(** [write(fd, data, len)]: EPIPE once the write side is shut down. *)
Definition sys_write (data : list byte) : ST conn write_result :=
  c ← get;
  let k := socket_ c in
  let r := if shut k then WriteError EPIPE else kernel_write (writes k) data in
  let taken := match r with Wrote n => take n data | WriteError _ => [] end in
  _ ← put (set_socket (mkSocket (wire k ++ taken) (shut k) (S (writes k))) c);
  mret r.

Definition shutdownWrite : ST conn unit :=
  modify (fun c => set_socket (mkSocket (wire (socket_ c)) true (writes (socket_ c))) c).

(** The second half of [sendInLoop]: what the kernel did not take, [nwrote]
    bytes being on the wire, goes to the output buffer. *)
Definition sendRest (data : list byte) (nwrote : nat) (faultError : bool) : ST conn unit :=
  let remaining := (length data - nwrote)%nat in
  _ ← cassert (remaining <=? length data)%nat;
  _ ← modify (fun c => if faultError then c else set_accepted (accepted c ++ data) c);
  when (negb faultError && (0 <? remaining)%nat)
    (c ← get;
     let oldLen := readableBytes (outputBuffer_ c) in
     _ ← when ((highWaterMark_ c <=? oldLen + Z.of_nat remaining) && (oldLen <? highWaterMark_ c) &&
               highWaterMarkCallback_ (cbs c))
           (queueInLoop (HighWaterMark (oldLen + Z.of_nat remaining)));
     _ ← on_output (append (drop nwrote data));
     c ← get;
     when (negb (isWriting c)) (on_channel (ch_switch OEnableWriting))).

Definition sendInLoop (data : list byte) : ST conn unit :=
  c ← get;
  if bool_decide (state_ c = kDisconnected) then mret tt else
  if negb (isWriting c) && (readableBytes (outputBuffer_ c) =? 0) then
    r ← sys_write data;
    match r with
    | Wrote n =>
        _ ← when ((length data - n =? 0)%nat && writeCompleteCallback_ (cbs c)) (queueInLoop WriteComplete);
        sendRest data n false
    | WriteError err => sendRest data 0 ((err =? EPIPE) || (err =? ECONNRESET))
    end
  else sendRest data 0 false.

Definition shutdownInLoop : ST conn unit :=
  c ← get; when (negb (isWriting c)) shutdownWrite.

Definition startReadInLoop : ST conn unit :=
  c ← get;
  when (negb (reading_ c) || negb (isReading c))
    (_ ← on_channel (ch_switch OEnableReading); modify (set_reading true)).

Definition stopReadInLoop : ST conn unit :=
  c ← get;
  when (reading_ c || isReading c)
    (_ ← on_channel (ch_switch ODisableReading); modify (set_reading false)).

(** [runInLoop]: at once on the loop thread, queued from another one.  The tasks
    given to it call no user callback. *)
Definition run_silent (t : task) : ST conn unit :=
  match t with
  | SendInLoop m => sendInLoop m
  | ShutdownInLoop => shutdownInLoop
  | StartReadInLoop => startReadInLoop
  | StopReadInLoop => stopReadInLoop
  | _ => mret tt
  end.
Definition runInLoop (inLoop : bool) (t : task) : ST conn unit :=
  if inLoop then run_silent t else queueInLoop t.

Definition send (inLoop : bool) (message : list byte) : ST conn unit :=
  c ← get; when (bool_decide (state_ c = kConnected)) (runInLoop inLoop (SendInLoop message)).

(** [send] of a Buffer on the loop thread: the buffer is emptied. *)
Definition sendBuffer (buf : Buffer) : ST conn Buffer :=
  c ← get;
  if bool_decide (state_ c = kConnected) then
    match read_range (peek buf) (readableBytes buf) buf with
    | Fail f => fail f
    | Done (data, buf) =>
        _ ← sendInLoop data;
        match retrieveAll buf with Done (_, buf) => mret buf | Fail f => fail f end
    end
  else mret buf.

Definition shutdown (inLoop : bool) : ST conn unit :=
  c ← get;
  when (bool_decide (state_ c = kConnected))
    (_ ← modify (setState kDisconnecting); runInLoop inLoop ShutdownInLoop).

Definition live c : bool := bool_decide (state_ c = kConnected) || bool_decide (state_ c = kDisconnecting).

Definition forceClose : ST conn unit :=
  c ← get; when (live c) (_ ← modify (setState kDisconnecting); queueInLoop ForceCloseInLoop).

Definition forceCloseWithDelay (seconds : double) : ST conn unit :=
  c ← get; when (live c) (_ ← modify (setState kDisconnecting); runAfter seconds ForceCloseInLoop).

Definition run_op (inLoop : bool) (o : op) : ST conn unit :=
  match o with
  | Send m => send inLoop m
  | Shutdown => shutdown inLoop
  | ForceClose => forceClose
  | ForceCloseWithDelay d => forceCloseWithDelay d
  | StartRead => runInLoop inLoop StartReadInLoop
  | StopRead => runInLoop inLoop StopReadInLoop
  | RetrieveAll => on_input retrieveAll
  end.

(* what the user's callbacks do with the connection, on the loop thread *)
Context (user : event -> conn -> list op).

(** Calling a [std::function]: an empty one throws. *)
Definition emit (e : event) : ST conn unit :=
  _ ← modify (fun c => set_trace (trace c ++ [e]) c);
  c ← get;
  for_each (user e c) (run_op true).

Definition callback (is_set : bool) (e : event) : ST conn unit :=
  if is_set then emit e else fail BadFunctionCall.

Definition connectionCallback : ST conn unit :=
  c ← get; callback (connectionCallback_ (cbs c)) (OnConnection (bool_decide (state_ c = kConnected))).

Definition handleClose : ST conn unit :=
  c ← get;
  _ ← cassert (live c);
  _ ← modify (setState kDisconnected);
  _ ← on_channel (ch_switch ODisableAll);
  _ ← connectionCallback;
  callback (closeCallback_ (cbs c)) OnClose.

Definition forceCloseInLoop : ST conn unit := c ← get; when (live c) handleClose.

(** [handleError] reads SO_ERROR and logs. *)
Definition handleError : ST conn unit := mret tt.

Definition handleRead (readv : list Z -> readv_result) : ST conn unit :=
  r ← on_input (readFd readv);
  let '(n, _) := r in
  if 0 <? n then c ← get; callback (messageCallback_ (cbs c)) OnMessage
  else if n =? 0 then handleClose
  else handleError.

Definition handleWrite : ST conn unit :=
  c ← get;
  when (isWriting c)
    (data ← on_output (b ← get; read_range (peek b) (readableBytes b));
     r ← sys_write data;
     match r with
     | Wrote (S n) =>
         _ ← on_output (retrieve (Z.of_nat (S n)));
         c ← get;
         when (readableBytes (outputBuffer_ c) =? 0)
           (_ ← on_channel (ch_switch ODisableWriting);
            _ ← when (writeCompleteCallback_ (cbs c)) (queueInLoop WriteComplete);
            when (bool_decide (state_ c = kDisconnecting)) shutdownInLoop)
     | _ => mret tt
     end).

Definition connectEstablished : ST conn unit :=
  c ← get;
  _ ← cassert (bool_decide (state_ c = kConnecting));
  _ ← modify (setState kConnected);
  _ ← on_channel ch_tie;
  _ ← on_channel (ch_switch OEnableReading);
  connectionCallback.

Definition connectDestroyed : ST conn unit :=
  c ← get;
  _ ← when (bool_decide (state_ c = kConnected))
        (_ ← modify (setState kDisconnected);
         _ ← on_channel (ch_switch ODisableAll);
         connectionCallback);
  _ ← on_channel ch_remove;
  modify set_removed.

(** A functor of the connection, run by the loop. *)
Definition run_task (t : task) : ST conn unit :=
  match t with
  | ForceCloseInLoop => forceCloseInLoop
  | WriteComplete => emit OnWriteComplete
  | HighWaterMark n => emit (OnHighWaterMark n)
  | _ => run_silent t
  end.

(** ** The connection and its surroundings as a transition system *)

Inductive label :=
  | LEstablish                                  (* by TcpServer::newConnection *)
  | LDestroy                                    (* by TcpServer *)
  | LRead (readv : list Z -> readv_result)      (* EPOLLIN *)
  | LWrite                                      (* EPOLLOUT *)
  | LHangup                                     (* EPOLLHUP without EPOLLIN *)
  | LError                                      (* EPOLLERR *)
  | LCall (inLoop : bool) (o : op)              (* any thread calls the connection *)
  | LFunctor                                    (* doPendingFunctors *)
  | LTimer (n : nat).                           (* a delayed task expires *)

Definition run_label (l : label) : ST conn unit :=
  match l with
  | LEstablish => connectEstablished
  | LDestroy => connectDestroyed
  | LRead readv => handleRead readv
  | LWrite => handleWrite
  | LHangup => handleClose
  | LError => handleError
  | LCall inLoop o => run_op inLoop o
  | LFunctor =>
      c ← get;
      match functors c with
      | [] => mret tt
      | t :: rest => _ ← modify (set_functors rest); run_task t
      end
  | LTimer n =>
      c ← get;
      match delayed c !! n with
      | None => mret tt
      | Some (_, t) => _ ← modify (set_delayed (list_delete n (delayed c))); run_task t
      end
  end.
End TcpConnection.

(** ** The life of a connection as its user sees it *)

Inductive phase := Unborn | Up | Down | Closed.
#[export] Instance phase_eq_dec : EqDecision phase.
Proof. solve_decision. Defined.

(** The next phase; [None] for a callback that must not happen. *)
Definition life_step (p : phase) (e : event) : option phase :=
  match p, e with
  | Unborn, OnConnection true => Some Up
  | Up, OnMessage => Some Up
  | Up, OnConnection false => Some Down
  | Down, OnClose => Some Closed
  | Unborn, _ => None
  | _, (OnWriteComplete | OnHighWaterMark _) => Some p
  | _, _ => None
  end.

Fixpoint life_from (p : phase) (l : list event) : option phase :=
  match l with
  | [] => Some p
  | e :: l' => match life_step p e with Some p' => life_from p' l' | None => None end
  end.

Lemma life_from_snoc p l e q : life_from p l = Some q -> life_from p (l ++ [e]) = life_step q e.
Proof.
  revert p; induction l as [|x l IH]; intros p; cbn; [intros [= ->]; now destruct (life_step q e)|].
  destruct (life_step p x); [apply IH|discriminate].
Qed.

Definition closed {L} (c : conn L) : bool := bool_decide (OnClose ∈ trace c).

Lemma life_closed p l q : life_from p l = Some q -> OnClose ∈ l \/ p = Closed <-> q = Closed.
Proof.
  revert p; induction l as [|e l IH]; intros p; cbn.
  { intros [= ->]. split; [intros [?%not_elem_of_nil|?]; done|auto]. }
  destruct (life_step p e) as [p'|] eqn:E; [|done]. intros Hq. rewrite <-(IH p' Hq), elem_of_cons.
  destruct p, e as [[]| | | |]; try done; injection E as <-; naive_solver.
Qed.

Definition phase_ok (x : StateE) (p : phase) : Prop :=
  match x with
  | kConnecting => p = Unborn
  | kConnected | kDisconnecting => p = Up
  | kDisconnected => p = Down \/ p = Closed
  end.

(** ** The invariant *)

(** The discipline a user has to keep: strings are strings, and reading is
    switched on and off only while the connection is up. *)
Definition allowed {L} (o : op) (c : conn L) : Prop :=
  match o with
  | Send m => Z.of_nat (length m) <= max_vector_size
  | StartRead | StopRead => live c = true
  | _ => True
  end.

(** Tasks in the queue of a connection in state [x]. *)
Definition task_ok (x : StateE) (t : task) : Prop :=
  match t with
  | SendInLoop m => Z.of_nat (length m) <= max_vector_size
  | ShutdownInLoop => x <> kConnected
  | _ => True
  end.

Lemma task_ok_state x y l : y <> kConnected -> Forall (task_ok x) l -> Forall (task_ok y) l.
Proof. intros Hy Hf. eapply Forall_impl; [exact Hf|]. intros []; cbn; auto. Qed.

(** What the kernel watches for a connection: while it is up, a channel that wants
    something; when it is over, nothing - if reading was not stopped. *)
Definition watch_ok {L} `{ChannelApi L} (x : StateE) (reading : bool) (l : L) : Prop :=
  match x with
  | kConnecting => reading = true /\ ch_watched l = false
  | kConnected | kDisconnecting => ch_isReading l = reading /\ ch_watched l = ch_isReading l || ch_isWriting l
  | kDisconnected => reading = true -> ch_watched l = false
  end.

Lemma watch_live {L} `{ChannelApi L} (c : conn L) : live c = true -> watch_ok (state_ c) (reading_ c) (channel_ c) ->
  ch_isReading (channel_ c) = reading_ c /\ ch_watched (channel_ c) = ch_isReading (channel_ c) || ch_isWriting (channel_ c).
Proof. unfold live. destruct (state_ c); cbn; done. Qed.

Lemma watch_ok_live {L} `{ChannelApi L} x reading (l : L) : x = kConnected \/ x = kDisconnecting ->
  ch_isReading l = reading -> ch_watched l = ch_isReading l || ch_isWriting l -> watch_ok x reading l.
Proof. by intros [-> | ->]. Qed.

Section Invariant.
Context {L : Type} `{HC : ChannelApi L} `{HL : !ChannelLaws L} `{HB : Build}.
Abbreviation conn := (conn L).
Implicit Types (c : conn).

(** [extra]: bytes already on the wire that are not counted as accepted yet. *)
Record CInv_but (extra : list byte) c : Prop := {
  ci_in : Wf (inputBuffer_ c);
  ci_out : Wf (outputBuffer_ c);
  ci_usable : removed c = false -> usable (channel_ c);
  ci_removed : removed c = true -> state_ c = kDisconnected;
  ci_stream : wire (socket_ c) ++ content (outputBuffer_ c) = accepted c ++ extra;
  ci_live : live c = true -> (isWriting c = true <-> content (outputBuffer_ c) <> []);
  ci_dead : live c = false -> removed c = false -> isReading c = false /\ isWriting c = false;
  ci_connecting : state_ c = kConnecting ->
    content (outputBuffer_ c) = [] /\ functors c = [] /\ shut (socket_ c) = false;
  ci_shut : shut (socket_ c) = true -> live c = true ->
    state_ c = kDisconnecting /\ content (outputBuffer_ c) = [];
  ci_watch : watch_ok (state_ c) (reading_ c) (channel_ c);
  ci_tasks : Forall (task_ok (state_ c)) (functors c);
  ci_delayed : Forall (fun x => snd x = ForceCloseInLoop) (delayed c);
  ci_cbs : connectionCallback_ (cbs c) = true /\ messageCallback_ (cbs c) = true /\
           closeCallback_ (cbs c) = true;
  ci_trace : exists p, life_from Unborn (trace c) = Some p /\ phase_ok (state_ c) p;
}.
Definition CInv c : Prop := CInv_but [] c.

(** What the silent operations leave alone. *)
Record quiet c c' : Prop := {
  q_live : live c' = live c;
  q_dead : live c = false -> state_ c' = state_ c;
  q_trace : trace c' = trace c;
  q_removed : removed c' = removed c;
}.

Lemma quiet_refl c : quiet c c.
Proof. now constructor. Qed.

Lemma quiet_trans c1 c2 c3 : quiet c1 c2 -> quiet c2 c3 -> quiet c1 c3.
Proof.
  intros [] []. constructor; try congruence. intros Hd. rewrite q_dead1, q_dead0 by congruence. reflexivity.
Qed.

(** The same when the user may be called, but is not told of the end. *)
Record kept c c' : Prop := {
  k_live : live c' = live c;
  k_dead : live c = false -> state_ c' = state_ c;
  k_removed : removed c' = removed c;
  k_closed : closed c' = closed c;
}.

(** The connection ends. *)
Record ended c c' : Prop := {
  e_live : live c = true;
  e_state : state_ c' = kDisconnected;
  e_removed : removed c' = false;
  e_closed : closed c = false /\ closed c' = true;
}.

Lemma kept_refl c : kept c c.
Proof. now constructor. Qed.

Lemma quiet_kept c c' : quiet c c' -> kept c c'.
Proof. intros []. constructor; auto. unfold closed. now rewrite q_trace0. Qed.

Lemma quiet_event e c c' : e <> OnClose -> quiet (set_trace (trace c ++ [e]) c) c' -> kept c c'.
Proof.
  intros He []. constructor; auto. unfold closed. rewrite q_trace0. cbn. apply bool_decide_ext.
  rewrite elem_of_app, list_elem_of_singleton. split; [intros [?|?]; congruence|auto].
Qed.

Lemma closed_life c p : life_from Unborn (trace c) = Some p -> closed c = bool_decide (p = Closed).
Proof. intros Hp. apply bool_decide_ext. rewrite <-(life_closed _ _ _ Hp). intuition discriminate. Qed.

Lemma live_iff c : live c = true <-> state_ c = kConnected \/ state_ c = kDisconnecting.
Proof. unfold live. rewrite orb_true_iff, !bool_decide_eq_true. tauto. Qed.

Lemma not_live_iff c : live c = false <-> state_ c = kConnecting \/ state_ c = kDisconnected.
Proof.
  rewrite <-not_true_iff_false, live_iff. destruct (state_ c); intuition congruence.
Qed.

Lemma live_not_disconnected c : live c = true -> state_ c <> kDisconnected /\ state_ c <> kConnecting.
Proof. rewrite live_iff. intuition congruence. Qed.

Lemma readable_zero b : Wf b -> (readableBytes b =? 0) = true <-> content b = [].
Proof.
  intros W. pose proof (length_content b W) as Hl. rewrite Z.eqb_eq.
  destruct (content b); cbn in *; split; intros; congruence || lia.
Qed.

(** Operations of the parts. *)
Lemma on_channel_switch o c : usable (channel_ c) ->
  exists l, on_channel (ch_switch o) c = Done (tt, set_channel l c) /\ usable l /\
    ch_isReading l = op_reading o (isReading c) /\ ch_isWriting l = op_writing o (isWriting c) /\
    ch_watched l = negb (ch_watched (channel_ c)) || ch_isReading l || ch_isWriting l.
Proof.
  intros Hu. destruct (switch_ok o _ Hu) as (l & E & ? & ? & ? & ?). exists l.
  unfold on_channel. rewrite E. auto 10.
Qed.

Lemma queue_ok t extra c : CInv_but extra c -> task_ok (state_ c) t -> state_ c <> kConnecting ->
  CInv_but extra (set_functors (functors c ++ [t]) c).
Proof.
  intros [] Ht Hs. constructor; cbn; auto; [tauto|]. apply Forall_app. auto.
Qed.

Lemma quiet_functors l c : quiet c (set_functors l c).
Proof. now constructor. Qed.

(** ** Sending *)

Context (kernel_write : nat -> list byte -> write_result).
Hypothesis kernel_write_law : forall k d n, kernel_write k d = Wrote n -> (n <= length d)%nat.

Definition quietly c (_ : unit) c' : Prop := CInv c' /\ quiet c c'.

(** Handing the unsent rest of [data] to the output buffer. *)
Lemma sendRest_ok data n c : CInv_but (take n data) c -> live c = true -> (n <= length data)%nat ->
  Z.of_nat (length data) <= max_vector_size ->
  n = 0%nat \/ content (outputBuffer_ c) = [] -> shut (socket_ c) = false ->
  runs (sendRest data n false) c (quietly c).
Proof.
  intros I Hl Hn Hd Hout Hshut. pose proof (live_not_disconnected _ Hl) as [Hnd Hnc].
  unfold sendRest. r_step (cassert_true (length data - n <=? length data)%nat c ltac:(apply Nat.leb_le; lia)).
  r_modify. cbn [negb andb].
  set (c1 := set_accepted (accepted c ++ data) c).
  destruct (Nat.ltb_spec 0 (length data - n)) as [Hrem|Hrem]; cbn [when].
  2: { assert (take n data = data) as Et by (apply take_ge; lia). apply runs_ret.
       split; [|now constructor]. destruct I. constructor; cbn; auto. now rewrite app_nil_r, <-Et at 1. }
  r_get.
  apply (runs_bind _ _ _ (fun _ c' => exists l, c' = set_functors (functors c ++ l) c1 /\ Forall (task_ok (state_ c)) l)).
  { apply runs_when; intros _.
    - eapply runs_done; [reflexivity|]. eexists [_]. split; [reflexivity|]. now repeat constructor.
    - exists []. rewrite app_nil_r. split; [reflexivity|constructor]. }
  intros [] c2 (l & -> & Hl2). set (c2 := set_functors _ c1).
  destruct (append_total (drop n data) (outputBuffer_ c) (ci_out _ _ I)) as [(b & E & Wb & Cb)|E].
  { rewrite length_drop. lia. }
  2: { right. apply bind_fail. unfold on_output. cbn. now rewrite E. }
  assert (E2 : on_output (append (drop n data)) c2 = Done (tt, set_output b c2)).
  { unfold on_output. cbn. now rewrite E. }
  r_step E2. r_get. set (c3 := set_output b c2).
  assert (Hne : content b <> []).
  { rewrite Cb. intros Hx%app_eq_nil. destruct Hx as [_ Hx]. apply (f_equal length) in Hx.
    rewrite length_drop in Hx. cbn in Hx. lia. }
  assert (Hstream : wire (socket_ c) ++ content b = (accepted c ++ data) ++ []).
  { rewrite Cb, app_nil_r, app_assoc, (ci_stream _ _ I), <-!app_assoc. now rewrite take_drop. }
  assert (I3 : forall l', usable l' -> ch_isWriting l' = true -> watch_ok (state_ c) (reading_ c) l' -> CInv (set_channel l' c3)).
  { intros l' Hu' Hw' Hwa'. destruct I. constructor; cbn; auto; try congruence; try tauto.
    - change (live (set_channel l' c3)) with (live c). congruence.
    - apply Forall_app. auto. }
  apply runs_when; intros Ew.
  - destruct (on_channel_switch OEnableWriting c3) as (l' & E3 & Hu' & Hr' & Hw' & Hk').
    { apply (ci_usable _ _ I). destruct (removed c) eqn:Er; [|reflexivity].
      now apply (ci_removed _ _ I) in Er. }
    eapply runs_done; [exact E3|]. split; [apply I3; [done..|]|now constructor].
    destruct (watch_live c Hl (ci_watch _ _ I)) as [H1 H2]. apply watch_ok_live; [now apply live_iff|now rewrite Hr'|].
    rewrite Hk', Hw'. cbn. now rewrite !orb_true_r.
  - apply negb_false_iff in Ew. split; [|now constructor].
    assert (Hr : removed c = false).
    { destruct (removed c) eqn:Er; [|reflexivity]. now apply (ci_removed _ _ I) in Er. }
    specialize (I3 (channel_ c) (ci_usable _ _ I Hr) Ew (ci_watch _ _ I)). now destruct c.
Qed.

Lemma sys_write_run data c : exists r c', sys_write kernel_write data c = Done (r, c') /\
  c' = set_socket (mkSocket (wire (socket_ c) ++ match r with Wrote n => take n data | _ => [] end)
         (shut (socket_ c)) (S (writes (socket_ c)))) c /\
  (shut (socket_ c) = true -> r = WriteError EPIPE) /\
  (forall n, r = Wrote n -> (n <= length data)%nat).
Proof.
  exists (if shut (socket_ c) then WriteError EPIPE else kernel_write (writes (socket_ c)) data).
  eexists. split; [unfold sys_write; rewrite bind_get; cbv zeta; reflexivity|]. split; [reflexivity|]. split; [now intros ->|].
  intros n. destruct (shut _); [discriminate|]. apply kernel_write_law.
Qed.

Lemma sendInLoop_ok data c : CInv c -> state_ c <> kConnecting ->
  Z.of_nat (length data) <= max_vector_size ->
  runs (sendInLoop kernel_write data) c (quietly c).
Proof.
  intros I Hnc Hd. unfold sendInLoop. r_get. case_bool_decide as Hs.
  { apply runs_ret. split; [exact I|apply quiet_refl]. }
  assert (Hl : live c = true) by (apply live_iff; destruct (state_ c); tauto).
  destruct (negb (isWriting c) && (readableBytes (outputBuffer_ c) =? 0)) eqn:Eb.
  - apply andb_prop in Eb as [Ew Er]. apply (readable_zero _ (ci_out _ _ I)) in Er.
    destruct (sys_write_run data c) as (r & c1 & E1 & -> & Hshut & Hn). r_step E1.
    destruct r as [n|err].
    + specialize (Hn n eq_refl). set (c1 := set_socket _ c).
      assert (Hsh : shut (socket_ c) = false).
      { destruct (shut (socket_ c)); [|reflexivity]. discriminate (Hshut eq_refl). }
      assert (I1 : CInv_but (take n data) c1).
      { destruct I. constructor; cbn; auto; try congruence.
        rewrite Er, !app_nil_r in *. now rewrite ci_stream0. }
      apply (runs_bind _ _ _ (fun _ c' => CInv_but (take n data) c' /\ quiet c c' /\
        socket_ c' = socket_ c1 /\ outputBuffer_ c' = outputBuffer_ c)).
      { apply runs_when; intros _.
        - eapply runs_done; [reflexivity|]. split_and!; auto; [now apply queue_ok|now constructor].
        - split_and!; auto. now constructor. }
      intros [] c2 (I2 & Q2 & S2 & O2). eapply runs_weaken.
      { apply (sendRest_ok data n c2); auto; [rewrite (q_live _ _ Q2); exact Hl|rewrite O2; auto|].
        now rewrite S2. }
      intros [] c3 [I3 Q3]. split; [exact I3|]. eapply quiet_trans; eauto.
    + set (c1 := set_socket _ c).
      assert (I1 : CInv c1). { destruct I. constructor; cbn; auto. now rewrite app_nil_r. }
      destruct ((err =? EPIPE) || (err =? ECONNRESET)) eqn:Ee.
      * eapply runs_done; [|split; [exact I1|now constructor]].
        unfold sendRest. st_step (cassert_true (length data - 0 <=? length data)%nat c1
          ltac:(apply Nat.leb_le; lia)). reflexivity.
      * assert (Hsh : shut (socket_ c) = false).
        { destruct (shut (socket_ c)); [|reflexivity]. specialize (Hshut eq_refl). injection Hshut as ->.
          discriminate. }
        eapply runs_weaken; [apply (sendRest_ok data 0 c1); auto; lia|].
        intros [] c2 [I2 Q2]. split; [exact I2|]. eapply quiet_trans; [|exact Q2]. now constructor.
  - apply sendRest_ok; auto; [lia|]. destruct (shut (socket_ c)) eqn:Esh; [|reflexivity].
    destruct (ci_shut _ _ I Esh Hl) as [_ Hc]. rewrite (proj2 (readable_zero _ (ci_out _ _ I)) Hc) in Eb.
    rewrite andb_true_r in Eb. apply negb_false_iff in Eb. now apply (ci_live _ _ I Hl) in Eb.
Qed.

(** ** The other silent operations *)

Lemma shutdownInLoop_ok c : CInv c -> state_ c <> kConnecting -> state_ c <> kConnected ->
  runs shutdownInLoop c (quietly c).
Proof.
  intros I Hnc Hnd. unfold shutdownInLoop. r_get. apply runs_when; intros Ew.
  2: { split; [exact I|apply quiet_refl]. }
  eapply runs_done; [reflexivity|]. split; [|now constructor].
  pose proof I as []. constructor; cbn; auto; [tauto|]. intros _ Hl.
  pose proof (proj1 (live_iff c) Hl) as [?|Hs]; [tauto|]. split; [exact Hs|].
  apply negb_true_iff in Ew. destruct (content (outputBuffer_ c)) eqn:Ec; [reflexivity|].
  assert (isWriting c = true) by (apply ci_live0; [exact Hl|congruence]). congruence.
Qed.

(** A switch of reading keeps the invariant. *)
Lemma read_switch_ok o b c : CInv c -> live c = true ->
  o = OEnableReading /\ b = true \/ o = ODisableReading /\ b = false /\ isReading c = true ->
  runs (_ ← on_channel (ch_switch o); modify (set_reading b)) c (quietly c).
Proof.
  intros I Hl Ho.
  assert (Hr : removed c = false).
  { destruct (removed c) eqn:Er; [|reflexivity]. apply (ci_removed _ _ I) in Er.
    now destruct (live_not_disconnected _ Hl). }
  destruct (on_channel_switch o c (ci_usable _ _ I Hr)) as (l & E & Hu & Hrd & Hw & Hk). r_step E.
  eapply runs_done; [reflexivity|]. split; [|now constructor].
  assert (Hw' : ch_isWriting l = isWriting c) by (rewrite Hw; destruct Ho as [[-> _] | [-> _]]; reflexivity).
  destruct (watch_live c Hl (ci_watch _ _ I)) as [H1 H2]. change (isReading c) with (ch_isReading (channel_ c)) in *.
  assert (Hwa : watch_ok (state_ c) b l).
  { apply watch_ok_live; [now apply live_iff| |rewrite Hk, Hrd]; destruct Ho as [[-> ->] | (-> & -> & Hy)]; cbn; try done.
    - now rewrite orb_true_r.
    - rewrite H2, Hy. cbn. reflexivity. }
  pose proof I as []. constructor; cbn; auto.
  - change (isWriting (set_reading b (set_channel l c))) with (ch_isWriting l). now rewrite Hw'.
  - change (live (set_reading b (set_channel l c))) with (live c). congruence.
Qed.

Lemma runInLoop_ok inLoop t c : CInv c -> state_ c <> kConnecting -> task_ok (state_ c) t ->
  runs (run_silent kernel_write t) c (quietly c) ->
  runs (runInLoop kernel_write inLoop t) c (quietly c).
Proof.
  intros I Hs Ht Hrun. destruct inLoop; cbn; [exact Hrun|]. eapply runs_done; [reflexivity|].
  split; [now apply queue_ok|apply quiet_functors].
Qed.

(** Marking the connection as disconnecting. *)
Lemma disconnecting_ok c : CInv c -> live c = true ->
  CInv (setState kDisconnecting c) /\ quiet c (setState kDisconnecting c).
Proof.
  intros I Hl. split; [|constructor; auto; congruence].
  pose proof I as []. constructor; cbn; auto; try discriminate.
  - intros Hr. apply ci_removed0 in Hr. now destruct (live_not_disconnected _ Hl).
  - intros Hs _. split; [reflexivity|]. now apply ci_shut0.
  - now apply (watch_live c Hl).
  - now apply (task_ok_state (state_ c)).
  - destruct ci_trace0 as (p & Hp & Hok). exists p. split; [exact Hp|].
    apply live_iff in Hl as [E|E]; rewrite E in Hok; exact Hok.
Qed.

Lemma run_op_ok inLoop o c : CInv c -> allowed o c -> runs (run_op kernel_write inLoop o) c (quietly c).
Proof.
  intros I Ha. assert (Hskip : quietly c tt c) by (split; [exact I|apply quiet_refl]).
  destruct o as [m| | |d| | |]; cbn [run_op].
  - unfold send. r_get. apply runs_when; intros Es; [|exact Hskip].
    apply bool_decide_eq_true in Es. apply runInLoop_ok; [exact I|congruence|exact Ha|].
    apply sendInLoop_ok; [exact I|congruence|exact Ha].
  - unfold shutdown. r_get. apply runs_when; intros Es; [|exact Hskip].
    apply bool_decide_eq_true in Es. r_modify.
    destruct (disconnecting_ok c I) as [I1 Q1]; [apply live_iff; auto|].
    eapply runs_weaken; [apply runInLoop_ok; [exact I1|discriminate|discriminate|]|].
    { apply shutdownInLoop_ok; [exact I1|discriminate..]. }
    intros [] c' [I' Q']. split; [exact I'|]. eapply quiet_trans; eauto.
  - unfold forceClose. r_get. apply runs_when; intros Es; [|exact Hskip].
    r_modify. destruct (disconnecting_ok c I Es) as [I1 Q1].
    eapply runs_done; [reflexivity|]. split; [now apply queue_ok|].
    eapply quiet_trans; [exact Q1|apply quiet_functors].
  - unfold forceCloseWithDelay. r_get. apply runs_when; intros Es; [|exact Hskip].
    r_modify. destruct (disconnecting_ok c I Es) as [I1 Q1].
    eapply runs_done; [reflexivity|]. split; [|eapply quiet_trans; [exact Q1|now constructor]].
    destruct I1. constructor; cbn; auto. apply Forall_app. split; [exact ci_delayed0|]. now repeat constructor.
  - assert (Hl : live c = true) by exact Ha. apply runInLoop_ok; [exact I|now destruct (live_not_disconnected _ Hl)|exact Logic.I|].
    cbn. unfold startReadInLoop. r_get. apply runs_when; intros _; [|exact Hskip].
    apply read_switch_ok; auto.
  - assert (Hl : live c = true) by exact Ha. apply runInLoop_ok; [exact I|now destruct (live_not_disconnected _ Hl)|exact Logic.I|].
    cbn. unfold stopReadInLoop. r_get. apply runs_when; intros Hor; [|exact Hskip].
    apply read_switch_ok; auto. right. split_and!; [done..|]. destruct (watch_live c Hl (ci_watch _ _ I)) as [H1 _].
    unfold isReading in *. rewrite H1 in *. now destruct (reading_ c).
  - destruct (retrieveAll_spec (inputBuffer_ c) (ci_in _ _ I)) as (b & E & Wb & _).
    eapply runs_done; [unfold on_input; rewrite E; reflexivity|]. split; [|now constructor].
    destruct I. constructor; cbn; auto.
Qed.

(** ** Callbacks *)

Context (user : event -> conn -> list op).
Hypothesis user_allowed : forall e c o, CInv c -> o ∈ user e c -> allowed o c.

Lemma allowed_quiet o c c' : quiet c c' -> allowed o c -> allowed o c'.
Proof. intros Q. destruct o; cbn; auto; now rewrite (q_live _ _ Q). Qed.

Lemma run_ops_ok l c : CInv c -> (forall o, o ∈ l -> allowed o c) ->
  runs (for_each l (run_op kernel_write true)) c (quietly c).
Proof.
  revert c; induction l as [|o l IH]; intros c I Ha.
  { apply runs_ret. split; [exact I|apply quiet_refl]. }
  cbn [for_each]. apply (runs_bind _ _ _ (quietly c)).
  { apply run_op_ok; [exact I|apply Ha; left]. }
  intros [] c1 [I1 Q1]. eapply runs_weaken.
  { apply IH; [exact I1|]. intros x Hx. eapply allowed_quiet; [exact Q1|]. apply Ha. now right. }
  intros [] c2 [I2 Q2]. split; [exact I2|]. eapply quiet_trans; eauto.
Qed.

(** A callback that may be called in the present phase. *)
Lemma emit_ok e c p q : CInv_but [] c -> life_from Unborn (trace c) = Some p -> life_step p e = Some q ->
  phase_ok (state_ c) q ->
  runs (emit kernel_write user e) c
    (fun _ c' => CInv c' /\ quiet (set_trace (trace c ++ [e]) c) c').
Proof.
  intros I Hp He Hok. unfold emit. r_modify. r_get. set (c1 := set_trace _ c).
  assert (I1 : CInv c1).
  { destruct I. constructor; cbn; auto. exists q. split; [|exact Hok]. now rewrite (life_from_snoc _ _ _ _ Hp). }
  apply run_ops_ok; [exact I1|]. intros o. now apply user_allowed.
Qed.

(** A callback after which the phase is the same. *)
Lemma emit_same e c : CInv c -> (forall p, phase_ok (state_ c) p -> life_step p e = Some p) ->
  runs (emit kernel_write user e) c (fun _ c' => CInv c' /\ quiet (set_trace (trace c ++ [e]) c) c').
Proof.
  intros I He. destruct (ci_trace _ _ I) as (p & Hp & Hok). now apply (emit_ok e c p p); auto.
Qed.

Lemma live_kept c c' : CInv c -> live c = true -> removed c = false.
Proof.
  intros I Hl. destruct (removed c) eqn:Er; [|reflexivity]. apply (ci_removed _ _ I) in Er.
  now destruct (live_not_disconnected _ Hl).
Qed.

Lemma live_not_closed c : CInv c -> live c = true -> closed c = false.
Proof.
  intros I Hl. destruct (ci_trace _ _ I) as (p & Hp & Hok). rewrite (closed_life _ _ Hp).
  apply live_iff in Hl as [Hs|Hs]; rewrite Hs in Hok; cbn in Hok; now subst.
Qed.

(** Leaving the connected states: state, channel and the callback. *)
Definition closing c (_ : unit) c' : Prop :=
  CInv c' /\ state_ c' = kDisconnected /\ removed c' = false /\
  life_from Unborn (trace c') = Some Down.

Lemma leave_ok c : CInv c -> live c = true ->
  runs (_ ← modify (setState kDisconnected); _ ← on_channel (ch_switch ODisableAll);
        connectionCallback kernel_write user) c (closing c).
Proof.
  intros I Hl. pose proof (live_kept c c I Hl) as Hr. r_modify.
  destruct (on_channel_switch ODisableAll (setState kDisconnected c)) as (l & E & Hu & Hrd & Hw & Hk).
  { exact (ci_usable _ _ I Hr). }
  r_step E. unfold connectionCallback. r_get. set (c1 := set_channel l (setState kDisconnected c)).
  destruct (ci_cbs _ _ I) as [Hcb _]. change (cbs c1) with (cbs c). rewrite Hcb. cbn [callback].
  rewrite bool_decide_eq_false_2 by discriminate.
  destruct (ci_trace _ _ I) as (p & Hp & Hok).
  assert (p = Up) as -> by (apply live_iff in Hl as [Hs|Hs]; rewrite Hs in Hok; exact Hok).
  unfold emit. r_modify. r_get. set (c2 := set_trace _ c1).
  assert (Hlife : life_from Unborn (trace c2) = Some Down).
  { cbn. now rewrite (life_from_snoc _ _ _ _ Hp). }
  assert (I2 : CInv c2).
  { destruct (watch_live c Hl (ci_watch _ _ I)) as [H1 H2]. destruct I. constructor; cbn; auto; try discriminate.
    - intros Hy. rewrite Hk, Hrd, Hw. cbn. rewrite H2, H1, Hy. reflexivity.
    - now apply (task_ok_state (state_ c)).
    - exists Down. split; [exact Hlife|now left]. }
  eapply runs_weaken; [apply run_ops_ok; [exact I2|intros o; now apply user_allowed]|].
  intros [] c3 [I3 Q3]. split_and!; [exact I3| | |].
  - rewrite (q_dead _ _ Q3); reflexivity.
  - rewrite (q_removed _ _ Q3). exact Hr.
  - rewrite (q_trace _ _ Q3). exact Hlife.
Qed.

Lemma handleClose_ok c : CInv c -> live c = true ->
  runs (handleClose kernel_write user) c (fun _ c' => CInv c' /\ ended c c').
Proof.
  intros I Hl. unfold handleClose. r_get. r_step (cassert_true (live c) c Hl).
  assert (Hcb : closeCallback_ (cbs c) = true) by apply I. rewrite Hcb. cbn [callback].
  pose proof (runs_bind _ (fun _ => emit kernel_write user OnClose) c _ (fun _ c' => CInv c' /\ ended c c')
    (leave_ok c I Hl)) as Hrun.
  unfold runs in *. rewrite <-bind_assoc3. apply Hrun.
  intros [] c' (I' & Hs & Hr & Hp). eapply runs_weaken; [apply (emit_ok OnClose c' Down Closed)|].
  - exact I'.
  - exact Hp.
  - reflexivity.
  - rewrite Hs. now right.
  - intros [] c'' [I'' []]. split; [exact I''|]. cbn in *. constructor; [exact Hl| |congruence|].
    + rewrite q_dead0; [exact Hs|]. unfold live. cbn. now rewrite Hs.
    + split; [now apply live_not_closed|]. rewrite (closed_life c'' Closed); [done|].
      rewrite q_trace0. now rewrite (life_from_snoc _ _ _ _ Hp).
Qed.

(** What an event may do to the life of a connection. *)
Definition goes_on c c' : Prop := CInv c' /\ (kept c c' \/ ended c c').

Lemma goes_on_quietly c m : runs m c (quietly c) -> runs m c (fun (_ : unit) c' => goes_on c c').
Proof. intros Hm. eapply runs_weaken; [exact Hm|]. intros [] c' [I Q]. split; [exact I|left; now apply quiet_kept]. Qed.

Lemma handleClose_goes_on c : CInv c -> live c = true ->
  runs (handleClose kernel_write user) c (fun _ c' => goes_on c c').
Proof.
  intros I Hl. eapply runs_weaken; [now apply handleClose_ok|]. intros [] c' [I' E]. split; [exact I'|now right].
Qed.

Lemma goes_on_refl c : CInv c -> goes_on c c.
Proof. intros I. split; [exact I|left; apply kept_refl]. Qed.

(** An event that begins with a change of something else. *)
Lemma goes_on_after c c1 (m : ST conn unit) : kept c c1 -> runs m c1 (fun _ c' => goes_on c1 c') -> runs m c1 (fun _ c' => goes_on c c').
Proof.
  intros [] Hm. eapply runs_weaken; [exact Hm|]. intros [] c' [I [[]|[]]]; (split; [exact I|]); [left|right].
  - constructor; try congruence. intros Hl. rewrite k_dead1 by congruence. auto.
  - constructor; congruence.
Qed.

Lemma forceCloseInLoop_ok c : CInv c -> runs (forceCloseInLoop kernel_write user) c (fun _ c' => goes_on c c').
Proof.
  intros I. unfold forceCloseInLoop. r_get. apply runs_when; intros Hl; [now apply handleClose_goes_on|now apply goes_on_refl].
Qed.

(** A callback after which the phase is the same. *)
Lemma emit_goes_on e c : CInv c -> (forall p, phase_ok (state_ c) p -> life_step p e = Some p) ->
  runs (emit kernel_write user e) c (fun _ c' => goes_on c c').
Proof.
  intros I He. eapply runs_weaken; [now apply emit_same|]. intros [] c' [I' Q]. split; [exact I'|left].
  apply (quiet_event e); [|exact Q]. intros ->. destruct (ci_trace _ _ I) as (p & _ & Hp). specialize (He p Hp). now destruct p.
Qed.

Lemma connectEstablished_ok c : CInv c -> state_ c = kConnecting ->
  runs (connectEstablished kernel_write user) c (fun _ c' => CInv c' /\ live c' = true).
Proof.
  intros I Hs. assert (Hl : live c = false) by (apply not_live_iff; auto).
  assert (Hr : removed c = false).
  { destruct (removed c) eqn:Er; [|reflexivity]. apply (ci_removed _ _ I) in Er. congruence. }
  unfold connectEstablished. r_get. r_step (cassert_true _ c (bool_decide_eq_true_2 _ Hs)). r_modify.
  set (c1 := setState kConnected c).
  destruct (tie_ok _ (ci_usable _ _ I Hr)) as (l1 & E1 & Hu1 & Hr1 & Hw1 & Hk1).
  assert (Et : on_channel ch_tie c1 = Done (tt, set_channel l1 c1)).
  { unfold on_channel. change (channel_ c1) with (channel_ c). now rewrite E1. }
  r_step Et. destruct (on_channel_switch OEnableReading (set_channel l1 c1) Hu1) as (l & E & Hu & Hrd & Hw & Hk).
  r_step E. unfold connectionCallback. r_get. set (c2 := set_channel l (set_channel l1 c1)).
  destruct (ci_cbs _ _ I) as [Hcb _]. change (cbs c2) with (cbs c). rewrite Hcb. cbn [callback].
  rewrite bool_decide_eq_true_2 by reflexivity.
  destruct (ci_trace _ _ I) as (p & Hp & Hok). rewrite Hs in Hok. cbn in Hok. subst p.
  destruct (ci_connecting _ _ I Hs) as (Hout & Hf & Hsh).
  destruct (ci_dead _ _ I Hl Hr) as [_ Hnw].
  unfold emit. r_modify. r_get. set (c3 := set_trace _ c2).
  assert (Hw' : ch_isWriting l = false).
  { rewrite Hw. cbn. change (isWriting (set_channel l1 c1)) with (ch_isWriting l1).
    rewrite Hw1. exact Hnw. }
  assert (I3 : CInv c3).
  { destruct I. constructor; cbn; auto; try discriminate; try congruence.
    - intros _. change (isWriting c3) with (ch_isWriting l). rewrite Hw', Hout. split; congruence.
    - rewrite Hk, Hrd. cbn. rewrite orb_true_r. rewrite Hs in ci_watch0. now destruct ci_watch0.
    - rewrite Hf. constructor.
    - exists Up. split; [|reflexivity]. now rewrite (life_from_snoc _ _ _ _ Hp). }
  eapply runs_weaken; [apply run_ops_ok; [exact I3|intros o; now apply user_allowed]|].
  intros [] c4 [I4 Q4]. split; [exact I4|]. now rewrite (q_live _ _ Q4).
Qed.

Lemma connectDestroyed_ok c : CInv c -> state_ c = kConnected \/ state_ c = kDisconnected ->
  removed c = false -> runs (connectDestroyed kernel_write user) c
    (fun _ c' => CInv c' /\ state_ c' = kDisconnected /\ removed c' = true).
Proof.
  intros I Hs Hr. unfold connectDestroyed. r_get.
  apply (runs_bind _ _ _ (fun _ c' => CInv c' /\ state_ c' = kDisconnected /\ removed c' = false)).
  { apply runs_when; intros Ec.
    - apply bool_decide_eq_true in Ec. eapply runs_weaken; [apply leave_ok; [exact I|]|].
      + apply live_iff. auto.
      + now intros [] c' (? & ? & ? & _).
    - apply bool_decide_eq_false in Ec. split_and!; auto. tauto. }
  intros [] c1 (I1 & Hs1 & Hr1). assert (Hl1 : live c1 = false) by (apply not_live_iff; auto).
  destruct (ci_dead _ _ I1 Hl1 Hr1) as [Hrd Hw].
  destruct (remove_ok _ (ci_usable _ _ I1 Hr1) Hrd Hw) as (l & E & Hk).
  assert (E1 : on_channel ch_remove c1 = Done (tt, set_channel l c1)).
  { unfold on_channel. now rewrite E. }
  r_step E1. eapply runs_done; [reflexivity|]. split; [|split; [exact Hs1|reflexivity]].
  pose proof I1 as []. constructor; cbn; auto; try discriminate; try congruence.
  - change (live (set_removed (set_channel l c1))) with (live c1). congruence.
  - rewrite Hs1 in *. cbn in *. now rewrite Hk.
Qed.

(** ** Events of the socket *)

(** [readv] returns at most what the io vectors hold. *)
Definition readv_law (readv : list Z -> readv_result) : Prop :=
  forall iov l, Forall (Z.le 0) iov -> readv iov = ReadvBytes l ->
    Z.of_nat (length l) <= foldr Z.add 0 iov.

Lemma handleRead_ok readv c : CInv c -> live c = true -> readv_law readv ->
  Buffer.size (inputBuffer_ c) + extrabuf_size <= max_vector_size ->
  runs (handleRead kernel_write user readv) c (fun _ c' => goes_on c c').
Proof.
  intros I Hl Hv Hsz. unfold handleRead.
  destruct (readFd_run readv (inputBuffer_ c) (ci_in _ _ I) Hsz Hv) as (n & saved & b & E & Wb & _).
  assert (E1 : on_input (readFd readv) c = Done ((n, saved), set_input b c)).
  { unfold on_input. now rewrite E. }
  r_step E1. set (c1 := set_input b c).
  assert (I1 : CInv c1) by (destruct I; constructor; cbn; auto).
  destruct (0 <? n).
  - r_get. assert (Hcb : messageCallback_ (cbs c1) = true) by apply I1. rewrite Hcb. cbn [callback].
    apply (goes_on_after c c1); [now constructor|]. apply (emit_goes_on OnMessage c1 I1).
    intros p Hok. apply live_iff in Hl as [Hs|Hs]; change (state_ c1) with (state_ c) in Hok;
      rewrite Hs in Hok; cbn in Hok; now subst.
  - destruct (n =? 0); apply (goes_on_after c c1); try (now constructor); [now apply handleClose_goes_on|].
    apply runs_ret. now apply goes_on_refl.
Qed.

(** What follows when the output buffer is drained and writing has stopped. *)
Lemma after_drain_ok (b : bool) c : CInv c -> live c = true -> isWriting c = false ->
  runs (_ ← when b (queueInLoop WriteComplete);
        when (bool_decide (state_ c = kDisconnecting)) shutdownInLoop) c
    (fun _ c' => quietly c tt c' /\ (state_ c' = kDisconnecting -> shut (socket_ c') = true)).
Proof.
  intros I Hl Hw. assert (Hq : quietly c tt c) by (split; [exact I|apply quiet_refl]).
  apply (runs_bind _ _ _ (fun _ c' => quietly c tt c' /\ state_ c' = state_ c /\ isWriting c' = false)).
  { apply runs_when; intros _; [|by split_and!].
    eapply runs_done; [reflexivity|]. split_and!; auto. split; [|apply quiet_functors].
    apply queue_ok; [exact I|exact Logic.I|]. now destruct (live_not_disconnected _ Hl). }
  intros [] c1 ([I1 Q1] & Hs1 & Hw1). case_bool_decide as Hd; cbn [when].
  2: { apply runs_ret. split; [by split|congruence]. }
  eapply runs_done; [unfold shutdownInLoop; st_get; rewrite Hw1; reflexivity|].
  split; [|reflexivity]. split; [|eapply quiet_trans; [exact Q1|now constructor]].
  pose proof I1 as []. constructor; cbn; auto; try congruence.
  intros _ Hl1. split; [congruence|]. destruct (content (outputBuffer_ c1)) eqn:Ec; [reflexivity|].
  assert (isWriting c1 = true) by (apply ci_live0; [exact Hl1|congruence]). congruence.
Qed.

(** The bytes the kernel took leave the output buffer; something stays. *)
Lemma partly_written_ok k b c : CInv c -> live c = true -> isWriting c = true -> shut (socket_ c) = false ->
  Wf b -> wire k ++ content b = accepted c -> shut k = false -> content b <> [] ->
  quietly c tt (set_output b (set_socket k c)).
Proof.
  intros I Hl Ew Hsh Wb Hst Hk Hb. split; [|now constructor].
  assert (Hne : content (outputBuffer_ c) <> []) by (apply (ci_live _ _ I Hl); exact Ew).
  pose proof I as []. constructor; cbn; auto; try congruence.
  - now rewrite app_nil_r.
  - intros _. change (isWriting (set_output b _)) with (isWriting c). tauto.
  - intros Hs. apply ci_connecting0 in Hs as (? & ? & ?). congruence.
Qed.

(** Nothing stays, and writing stops. *)
Lemma all_written_ok k b c : CInv c -> live c = true -> isWriting c = true -> Wf b -> wire k = accepted c ->
  shut k = false -> content b = [] -> exists c',
    on_channel (ch_switch ODisableWriting) (set_output b (set_socket k c)) = Done (tt, c') /\
    quietly c tt c' /\ isWriting c' = false /\ state_ c' = state_ c.
Proof.
  intros I Hl Ew Wb Hst Hk Hb. pose proof (live_kept c c I Hl) as Hr. set (c2 := set_output b _).
  destruct (on_channel_switch ODisableWriting c2) as (l & E & Hu & Hrd & Hw & Hka).
  { exact (ci_usable _ _ I Hr). }
  exists (set_channel l c2). cbn in Hw. split_and!; auto. split; [|now constructor].
  pose proof I as []. constructor; cbn; auto; try congruence.
  - intros _. change (isWriting (set_channel l c2)) with (ch_isWriting l). rewrite Hw, Hb. split; congruence.
  - change (live (set_channel l c2)) with (live c). congruence.
  - intros Hs. destruct (ci_connecting0 Hs) as (? & ? & ?). auto.
  - destruct (watch_live c Hl ci_watch0) as [H1 H2]. change (isWriting c) with (ch_isWriting (channel_ c)) in Ew.
    apply watch_ok_live; [now apply live_iff|now rewrite Hrd|]. rewrite Hka, Hrd, Hw. cbn.
    rewrite H2, Ew, orb_true_r. reflexivity.
Qed.

(** [handleWrite] hands the next bytes of the output buffer to the kernel; when
    it is drained, writing stops and a pending shutdown is carried out. *)
Lemma handleWrite_ok c : CInv c -> live c = true ->
  runs (handleWrite kernel_write) c (fun _ c' => quietly c tt c' /\
    (isWriting c = true -> content (outputBuffer_ c') = [] -> state_ c' = kDisconnecting ->
     shut (socket_ c') = true)).
Proof.
  intros I Hl. unfold handleWrite. r_get.
  apply runs_when; intros Ew.
  2: { split; [split; [exact I|apply quiet_refl]|congruence]. }
  assert (Hne : content (outputBuffer_ c) <> []) by (apply (ci_live _ _ I Hl); exact Ew).
  assert (Hsh : shut (socket_ c) = false).
  { destruct (shut (socket_ c)) eqn:Es; [|reflexivity]. now destruct (ci_shut _ _ I Es Hl). }
  assert (E : on_output (b ← get; read_range (peek b) (readableBytes b)) c
            = Done (content (outputBuffer_ c), c)).
  { unfold on_output. rewrite bind_get. unfold peek. rewrite (readable_wf _ (ci_out _ _ I)).
    rewrite (read_content _ (ci_out _ _ I)). now destruct c. }
  r_step E. destruct (sys_write_run (content (outputBuffer_ c)) c) as (r & c1 & E1 & -> & _ & Hn).
  r_step E1. assert (Hnone : quietly c tt (set_socket (mkSocket (wire (socket_ c) ++ []) (shut (socket_ c)) (S (writes (socket_ c)))) c)).
  { split; [|now constructor]. destruct I. constructor; cbn; auto. now rewrite !app_nil_r in *. }
  destruct r as [[|n]|err]; try (apply runs_ret; split; [exact Hnone|cbn; congruence]).
  specialize (Hn (S n) eq_refl). set (N := S n) in *. set (k := mkSocket _ _ _).
  destruct (retrieve_spec (Z.of_nat N) (outputBuffer_ c) (ci_out _ _ I)) as (b & Eb & Wb & Cb & _).
  { lia. } { rewrite <-(length_content _ (ci_out _ _ I)). lia. }
  rewrite Nat2Z.id in Cb.
  assert (E2 : on_output (retrieve (Z.of_nat N)) (set_socket k c) = Done (tt, set_output b (set_socket k c))).
  { unfold on_output. change (outputBuffer_ (set_socket k c)) with (outputBuffer_ c). now rewrite Eb. }
  r_step E2. r_get.
  assert (Hstream : wire k ++ content b = accepted c).
  { cbn. rewrite <-app_assoc, Cb, take_drop, (ci_stream _ _ I). apply app_nil_r. }
  change (outputBuffer_ (set_output b _)) with b. apply runs_when; intros Ez.
  2: { assert (Hb : content b <> []) by (intros Hx; apply (readable_zero _ Wb) in Hx; congruence).
       split; [now apply partly_written_ok|]. cbn. congruence. }
  apply (readable_zero _ Wb) in Ez. rewrite Ez, app_nil_r in Hstream.
  destruct (all_written_ok k b c I Hl Ew Wb Hstream Hsh Ez) as (c3 & E3 & [I3 Q3] & Hw3 & Hs3).
  r_step E3. change (state_ (set_output b _)) with (state_ c). rewrite <-Hs3.
  eapply runs_weaken; [apply after_drain_ok; auto; now rewrite (q_live _ _ Q3)|].
  intros [] c4 [[I4 Q4] Hd]. split; [|auto]. split; [exact I4|]. now apply (quiet_trans _ c3).
Qed.

(** ** Reachable connections *)

(** When a label can happen.  The socket is only reported for what the channel
    asks for; the server destroys a connection that is up or already closed. *)
Definition enabled (l : label) c : Prop :=
  match l with
  | LEstablish => state_ c = kConnecting
  | LDestroy => removed c = false /\ (state_ c = kConnected \/ state_ c = kDisconnected)
  | LRead readv => removed c = false /\ isReading c = true /\ readv_law readv /\
      Buffer.size (inputBuffer_ c) + extrabuf_size <= max_vector_size
  | LWrite => removed c = false /\ isWriting c = true
  | LHangup | LError => removed c = false /\ (isReading c = true \/ isWriting c = true)
  | LCall _ o => allowed o c
  | LFunctor => match functors c with (StartReadInLoop | StopReadInLoop) :: _ => live c = true | _ => True end
  | LTimer _ => True
  end.

Definition step c c' : Prop :=
  exists l, enabled l c /\ run_label kernel_write user l c = Done (tt, c').

(** A connection that has just been constructed, with all callbacks set. *)
Record fresh c : Prop := {
  fresh_new : exists ch i o cb, c = newConn ch i o cb /\ Wf i /\ Wf o /\ content o = [] /\ usable ch /\
    ch_isReading ch = false /\ ch_isWriting ch = false /\ ch_watched ch = false /\
    connectionCallback_ cb = true /\ messageCallback_ cb = true /\ closeCallback_ cb = true;
}.

Definition reachable c : Prop := exists c0, fresh c0 /\ rtc step c0 c.

Lemma CInv_fresh c : fresh c -> CInv c.
Proof.
  intros [(ch & i & o & cb & -> & Wi & Wo & Co & Hu & Hr & Hw & Hk & ? & ? & ?)].
  constructor; cbn; auto; try discriminate.
  - now exists Unborn.
Qed.

(** An event of a channel that asks for something finds the connection up. *)
Lemma interest_live c : CInv c -> removed c = false -> isReading c = true \/ isWriting c = true -> live c = true.
Proof.
  intros I Hr Hi. destruct (live c) eqn:El; [reflexivity|].
  destruct (ci_dead _ _ I El Hr) as [H1 H2]. destruct Hi; congruence.
Qed.

Lemma run_task_ok t c : CInv c -> state_ c <> kConnecting -> task_ok (state_ c) t ->
  match t with StartReadInLoop | StopReadInLoop => live c = true | _ => True end ->
  runs (run_task kernel_write user t) c (fun _ c' => goes_on c c').
Proof.
  intros I Hnc Ht Hx. pose proof (goes_on_quietly c) as Hsilent.
  assert (Hemit : forall e, (forall p, p <> Unborn -> life_step p e = Some p) ->
    runs (emit kernel_write user e) c (fun _ c' => goes_on c c')).
  { intros e He. apply emit_goes_on; [exact I|].
    intros p Hok. apply He. intros ->. destruct (state_ c); cbn in Hok; intuition discriminate. }
  destruct t as [m| | | | | |n]; cbn [run_task].
  - apply Hsilent. now apply sendInLoop_ok.
  - apply Hsilent. now apply shutdownInLoop_ok.
  - now apply forceCloseInLoop_ok.
  - apply Hsilent. refine (run_op_ok true StartRead c I Hx).
  - apply Hsilent. refine (run_op_ok true StopRead c I Hx).
  - apply Hemit. now intros [].
  - apply Hemit. now intros [].
Qed.

Lemma nth_delayed n c d t : CInv c -> delayed c !! n = Some (d, t) -> t = ForceCloseInLoop.
Proof. intros I Hn. exact (Forall_lookup_1 _ _ _ _ (ci_delayed _ _ I) Hn). Qed.

(** What becomes of a connection. *)
Definition effect (l : label) c c' : Prop :=
  match l with
  | LEstablish => live c' = true
  | LDestroy => state_ c' = kDisconnected /\ removed c' = true
  | _ => kept c c' \/ ended c c'
  end.

Lemma run_label_ok l c : CInv c -> enabled l c ->
  runs (run_label kernel_write user l) c (fun _ c' => CInv c' /\ effect l c c').
Proof.
  intros I He. destruct l as [| |readv| | | |inLoop o| |n]; cbn [run_label enabled effect] in *.
  - now apply connectEstablished_ok.
  - destruct He. now apply connectDestroyed_ok.
  - destruct He as (Hr & Hi & Hv & Hs). apply handleRead_ok; auto. apply interest_live; auto.
  - destruct He as (Hr & Hi). apply goes_on_quietly. eapply runs_weaken; [apply handleWrite_ok; [exact I|]|].
    + apply interest_live; auto.
    + now intros [] c' [[] _].
  - destruct He as (Hr & Hi). apply handleClose_goes_on; [exact I|]. now apply interest_live.
  - apply runs_ret. now apply goes_on_refl.
  - apply goes_on_quietly. now apply run_op_ok.
  - r_get. destruct (functors c) as [|t rest] eqn:Ef; [apply runs_ret; now apply goes_on_refl|]. r_modify.
    pose proof (ci_tasks _ _ I) as Ht. rewrite Ef in Ht. apply Forall_cons in Ht as [Ht Hrest].
    assert (Hnc : state_ c <> kConnecting).
    { intros Hs. apply (ci_connecting _ _ I) in Hs as (_ & Hf & _). congruence. }
    apply (goes_on_after c (set_functors rest c)); [now constructor|].
    apply run_task_ok; [|exact Hnc|exact Ht|destruct t; auto].
    destruct I. constructor; cbn; auto. tauto.
  - r_get. destruct (delayed c !! n) as [[d t]|] eqn:En; [|apply runs_ret; now apply goes_on_refl]. r_modify.
    rewrite (nth_delayed _ _ _ _ I En). apply (goes_on_after c (set_delayed (list_delete n (delayed c)) c)); [now constructor|].
    apply forceCloseInLoop_ok.
    destruct I. constructor; cbn; auto. exact (Forall_delete _ _ n ci_delayed0).
Qed.

Lemma CInv_step c c' : CInv c -> step c c' -> CInv c'.
Proof.
  intros I (l & He & E). destruct (run_label_ok l c I He) as [(a & c1 & E1 & I1 & _)|E1]; congruence.
Qed.

Lemma CInv_reachable c : reachable c -> CInv c.
Proof.
  intros (c0 & Hf & Hr). apply CInv_fresh in Hf. induction Hr; eauto using CInv_step.
Qed.
End Invariant.

#[export] Hint Resolve quiet_refl quiet_functors : muduo.

(** ** What a socket has to read *)

(** Unread bytes, and whether the peer has closed. *)
Record rx := mkRx { unread : list byte; fin : bool }.

Definition EAGAIN : Z := 11.

Definition readv_of (k : rx) (iov : list Z) : readv_result :=
  match unread k with
  | [] => if fin k then ReadvBytes [] else ReadvError EAGAIN
  | l => ReadvBytes (take (Z.to_nat (foldr Z.add 0 iov)) l)
  end.

(** The room of the io vectors of [readFd]. *)
Definition readFd_room (b : Buffer) : nat :=
  Z.to_nat (if writableBytes b <? extrabuf_size then writableBytes b + extrabuf_size else writableBytes b).

(** ** Properties *)

Section Properties.
Context {L : Type} `{HC : ChannelApi L} `{HL : !ChannelLaws L} `{HB : Build}.
Context (kernel_write : nat -> list byte -> write_result) (user : event -> conn L -> list op).
Hypothesis kernel_write_law : forall k d n, kernel_write k d = Wrote n -> (n <= length d)%nat.
Hypothesis user_allowed : forall e c o, CInv c -> o ∈ user e c -> allowed o c.
Implicit Types (c : conn L).

(** The kernel's answer to the next [write]. *)
Definition answer c (data : list byte) : write_result :=
  if shut (socket_ c) then WriteError EPIPE else kernel_write (writes (socket_ c)) data.

Lemma on_output_inv {A} (m : ST Buffer A) c a c' :
  on_output m c = Done (a, c') -> exists b, c' = set_output b c.
Proof. unfold on_output. destruct (m _) as [[x b]|]; [|discriminate]. intros [= _ <-]. eauto. Qed.

Lemma on_channel_inv (m : ST L unit) c u c' :
  on_channel m c = Done (u, c') -> exists l, c' = set_channel l c.
Proof. unfold on_channel. destruct (m _) as [[x l]|]; [|discriminate]. intros [= _ <-]. eauto. Qed.

(** Functors that only call the user. *)
Definition calm (t : task) : Prop := match t with WriteComplete | HighWaterMark _ => True | _ => False end.

(** What sending leaves alone. *)
Record untouched c c' : Prop := {
  u_state : state_ c' = state_ c;
  u_input : inputBuffer_ c' = inputBuffer_ c;
  u_delayed : delayed c' = delayed c;
  u_tasks : Forall calm (functors c) -> Forall calm (functors c');
}.

Lemma untouched_refl c : untouched c c.
Proof. now constructor. Qed.

Lemma untouched_trans c1 c2 c3 : untouched c1 c2 -> untouched c2 c3 -> untouched c1 c3.
Proof. intros [] []. constructor; try congruence. auto. Qed.

Lemma queue_calm (b : bool) t c u c' : when b (queueInLoop t) c = Done (u, c') -> calm t ->
  untouched c c' /\ accepted c' = accepted c /\ socket_ c' = socket_ c.
Proof.
  destruct b; intros [= _ <-] Ht; [|split; [apply untouched_refl|auto]].
  split_and!; auto. constructor; auto. intros Hf. cbn. apply Forall_app. auto.
Qed.

Lemma sendRest_inv data n fault c c' : sendRest data n fault c = Done (tt, c') ->
  accepted c' = (if fault then accepted c else accepted c ++ data) /\ untouched c c'.
Proof.
  unfold sendRest. intros ([] & c1 & E1 & E)%bind_inv.
  apply cassert_inv in E1 as ->.
  rewrite bind_modify in E. destruct fault; cbn [negb andb when] in E.
  { injection E as <-. split; [done|apply untouched_refl]. }
  set (c2 := set_accepted _ c) in *. assert (U2 : untouched c c2) by now constructor.
  destruct (0 <? length data - n)%nat; cbn [when] in E; [|now injection E as <-].
  rewrite bind_get in E. apply bind_inv in E as ([] & c3 & E3 & E).
  apply queue_calm in E3 as (U3 & H3 & _); [|done].
  apply bind_inv in E as ([] & c4 & E4 & E). apply on_output_inv in E4 as [b ->].
  assert (U : untouched c (set_output b c3)).
  { apply (untouched_trans _ _ _ U2), (untouched_trans _ _ _ U3). now constructor. }
  rewrite bind_get in E. unfold when in E. destruct (negb _).
  - apply on_channel_inv in E as [l ->]. split; [cbn; now rewrite H3|]. now destruct U.
  - injection E as <-. split; [cbn; now rewrite H3|exact U].
Qed.

(** C2: what the peer receives is what was sent.  At any time the bytes the
    kernel took, followed by the output buffer, are exactly the messages
    [sendInLoop] accepted, in order; a message is accepted whole, unless the
    connection is closed already or the kernel reports that the peer is gone,
    and then none of it goes out. *)
Theorem sent_bytes_in_order c m c' :
  reachable kernel_write user c -> sendInLoop kernel_write m c = Done (tt, c') ->
  wire (socket_ c) ++ content (outputBuffer_ c) = accepted c /\
  (accepted c' = accepted c ++ m \/
   accepted c' = accepted c /\ wire (socket_ c') = wire (socket_ c) /\
   (state_ c = kDisconnected \/ answer c m = WriteError EPIPE \/ answer c m = WriteError ECONNRESET)).
Proof.
  intros I%(CInv_reachable kernel_write kernel_write_law user user_allowed) E.
  split; [rewrite (ci_stream _ _ I); apply app_nil_r|]. revert E.
  unfold sendInLoop. rewrite bind_get. case_bool_decide as Hs; [intros [= <-]; auto|].
  destruct (_ && _); [|intros E; left; exact (proj1 (sendRest_inv _ _ _ _ _ E))].
  intros (r & c1 & E1 & E)%bind_inv. unfold sys_write in E1. rewrite bind_get in E1. cbv zeta in E1.
  fold (answer c m) in E1. injection E1 as <- <-. destruct (answer c m) as [n|err].
  - left. apply bind_inv in E as ([] & c2 & E2 & E). rewrite (proj1 (sendRest_inv _ _ _ _ _ E)).
    f_equal. now apply queue_calm in E2 as (_ & -> & _).
  - destruct ((err =? EPIPE) || (err =? ECONNRESET)) eqn:Ee.
    + right. destruct (sendRest_inv _ _ _ _ _ E) as [Ha _]. revert E. unfold sendRest.
      intros ([] & c2 & E2 & E)%bind_inv. apply cassert_inv in E2 as ->. injection E as <-. split_and!; [reflexivity|apply app_nil_r|].
      right. apply orb_true_iff in Ee as [->%Z.eqb_eq | ->%Z.eqb_eq]; auto.
    + left. exact (proj1 (sendRest_inv _ _ _ _ _ E)).
Qed.




(** no event, call, queued functor or timer makes a reachable connection
    fail an assertion, touch memory out of bounds or call an empty callback;
    only memory can run out. *)
Theorem connection_safe c l :
  reachable kernel_write user c -> enabled l c ->
  (exists c', run_label kernel_write user l c = Done (tt, c') /\ reachable kernel_write user c') \/
  run_label kernel_write user l c = Fail LengthError.
Proof.
  intros Hr He. pose proof (CInv_reachable kernel_write kernel_write_law user user_allowed c Hr) as I.
  destruct (run_label_ok kernel_write kernel_write_law user user_allowed l c I He) as [([] & c' & E & _)|E]; [left|now right].
  exists c'. split; [exact E|]. destruct Hr as (c0 & Hf & Hr). exists c0. split; [exact Hf|].
  eapply rtc_r; [exact Hr|]. now exists l.
Qed.

Lemma readv_of_room k b : Wf b -> unread k <> [] -> (length (unread k) <= readFd_room b)%nat ->
  readv_of k (if writableBytes b <? extrabuf_size then [writableBytes b; extrabuf_size]
              else [writableBytes b]) = ReadvBytes (unread k).
Proof.
  intros W Hne Hlen. unfold readv_of. destruct (unread k) as [|x l] eqn:Eu; [done|].
  rewrite take_ge; [reflexivity|]. unfold readFd_room in Hlen.
  case_match; cbn [foldr]; rewrite ?Z.add_0_r; lia.
Qed.

Lemma readv_of_law k : readv_law (readv_of k).
Proof.
  intros iov l Hi. unfold readv_of. assert (0 <= foldr Z.add 0 iov) by (induction Hi; cbn; lia).
  repeat case_match; intros [= <-]; [cbn; lia|]. rewrite length_take. lia.
Qed.

(** the server destroys a connection whose shutdown is under way
    ([~TcpServer]): [connectDestroyed] does not leave the disconnecting state,
    and with assertions enabled the destructor then aborts. *)
Theorem destroy_while_disconnecting_asserts c c' :
  asserts_enabled = true -> state_ c = kDisconnecting ->
  connectDestroyed kernel_write user c = Done (tt, c') -> destructor c' = Fail AssertFailed.
Proof.
  intros Ha Hs. unfold connectDestroyed. rewrite bind_get, Hs. cbn [when].
  rewrite bool_decide_eq_false_2 by discriminate. cbn [when]. rewrite bind_ret_l.
  intros ([] & c1 & [l ->]%on_channel_inv & [= <-])%bind_inv. unfold destructor. rewrite bind_get. cbn. rewrite Hs.
  now apply cassert_false.
Qed.
End Properties.

(** ** Concrete inputs *)

Module Demo.
#[local] Existing Instance debug_build.
Abbreviation KL := (loop_state (gmap Z epoll_event) nat).

(** A loop with one channel, at address 10 on descriptor 5, not registered yet. *)
Definition loop0 : KL := mkLoop 77 1 {[10 := newChannel 77 5]} ∅ ∅ 16 false None [] {[30]}.

#[local] Instance demo_channel : ChannelApi KL := poller_channel 1 10 30.
#[local] Instance demo_channel_laws : ChannelLaws KL := poller_channel_laws 1 10 30.

Lemma loop0_usable : usable loop0.
Proof.
  constructor.
  - constructor; cbn; try (intros *; now rewrite lookup_empty).
    + intros p q c d [<- <-]%lookup_singleton_Some [<- <-]%lookup_singleton_Some. auto.
    + intros p c [<- <-]%lookup_singleton_Some. now left.
  - exists (newChannel 77 5). split_and!; [|now left|discriminate].
    constructor; try reflexivity; cbn; try lia; try discriminate.
Qed.

Definition buffer0 : Buffer := mkBuffer (replicate 24 x00) 8 8.

Lemma buffer0_wf : Wf buffer0.
Proof. constructor; vm_compute; congruence. Qed.

(** The kernel takes at most three bytes at a time; the user does nothing. *)
Definition kernel_write (_ : nat) (d : list byte) : write_result := Wrote (Nat.min 3 (length d)).
Definition user (_ : event) (_ : conn KL) : list op := [].

Lemma kernel_write_law k d n : kernel_write k d = Wrote n -> (n <= length d)%nat.
Proof.
  intros E. assert (Nat.min 3 (length d) = n) as <-; [|apply Nat.le_min_r].
  exact (f_equal (fun w => match w with Wrote n => n | WriteError _ => 0%nat end) E).
Qed.

Lemma user_allowed e (c : conn KL) o : CInv c -> o ∈ user e c -> allowed o c.
Proof. now intros _ Hx%not_elem_of_nil. Qed.

Definition conn0 : conn KL := newConn loop0 buffer0 buffer0 (mkCallbacks true true true false true).

Definition message : list byte := [x48; x65; x6c; x6c; x6f].

Definition run_all (ls : list label) : conn KL :=
  match for_each ls (run_label kernel_write user) conn0 with Done (_, c) => c | Fail _ => conn0 end.

(** Established; then five bytes sent, of which two wait; then shut down. *)
Definition up : conn KL := run_all [LEstablish].
Definition sending : conn KL := run_all [LEstablish; LCall true (Send message)].
Definition closing_down : conn KL := run_all [LEstablish; LCall true (Send message); LCall true Shutdown].
Definition drained : conn KL :=
  run_all [LEstablish; LCall true (Send message); LCall true Shutdown; LWrite].

Lemma conn0_fresh : fresh conn0.
Proof.
  constructor. exists loop0, buffer0, buffer0, (mkCallbacks true true true false true).
  split_and!; try reflexivity; [exact buffer0_wf..|exact loop0_usable].
Qed.

Lemma reach_step c l c' : reachable kernel_write user c -> enabled l c ->
  run_label kernel_write user l c = Done (tt, c') -> reachable kernel_write user c'.
Proof.
  intros (c0 & Hf & Hr) He E. exists c0. split; [exact Hf|]. eapply rtc_r; [exact Hr|]. now exists l.
Qed.

Lemma up_reachable : reachable kernel_write user up.
Proof.
  apply (reach_step conn0 LEstablish); [|reflexivity|vm_compute; reflexivity].
  exists conn0. split; [exact conn0_fresh|constructor].
Qed.

Lemma sending_reachable : reachable kernel_write user sending.
Proof.
  apply (reach_step up (LCall true (Send message))); [exact up_reachable| |vm_compute; reflexivity].
  vm_compute. discriminate.
Qed.

Lemma closing_reachable : reachable kernel_write user closing_down.
Proof.
  apply (reach_step sending (LCall true Shutdown)); [exact sending_reachable|exact I|vm_compute; reflexivity].
Qed.

Lemma drained_reachable : reachable kernel_write user drained.
Proof.
  apply (reach_step closing_down LWrite); [exact closing_reachable| |vm_compute; reflexivity].
  vm_compute. auto.
Qed.

Lemma sent_bytes_in_order_witness : wire (socket_ sending) = [x48; x65; x6c] /\
  exists c', sendInLoop kernel_write message up = Done (tt, c') /\
    wire (socket_ up) ++ content (outputBuffer_ up) = accepted up.
Proof.
  split; [vm_compute; reflexivity|].
  destruct (sendInLoop kernel_write message up) as [[[] c']|f] eqn:E; [|vm_compute in E; discriminate].
  exists c'. split; [reflexivity|].
  exact (proj1 (sent_bytes_in_order kernel_write user kernel_write_law user_allowed up message c' up_reachable E)).
Defined.




(** Reading is stopped; then the connection is closed and destroyed: the switch to no
    event puts the descriptor into the kernel's list, where it stays. *)
Definition stopped : conn KL := run_all [LEstablish; LCall true StopRead; LCall true ForceClose; LFunctor; LDestroy].

Example stopped_stays_watched :
  state_ stopped = kDisconnected /\ removed stopped = true /\ reading_ stopped = false /\ ch_watched (channel_ stopped) = true.
Proof. vm_compute. auto. Qed.

Lemma connection_safe_witness :
  (exists c', run_label kernel_write user LHangup drained = Done (tt, c') /\ reachable kernel_write user c') \/
  run_label kernel_write user LHangup drained = Fail LengthError.
Proof.
  apply (connection_safe kernel_write user kernel_write_law user_allowed drained LHangup drained_reachable).
  vm_compute. auto.
Defined.

Lemma destroy_while_disconnecting_asserts_witness : exists c',
  connectDestroyed kernel_write user closing_down = Done (tt, c') /\ destructor c' = Fail AssertFailed.
Proof.
  destruct (connectDestroyed kernel_write user closing_down) as [[[] c']|f] eqn:E; [|vm_compute in E; discriminate].
  exists c'. split; [reflexivity|].
  apply (destroy_while_disconnecting_asserts kernel_write user closing_down c'); [reflexivity| |exact E].
  vm_compute. reflexivity.
Defined.
End Demo.
