(* ===== verification/ConnEvent.v ===== *)
(** ConnEvent: an event of a connection's channel, [Channel::handleEvent] of
    [net/Channel.cpp] with the callbacks that the constructor of TcpConnection in
    [net/TcpConnection.cpp] installs.

    TcpConnection.v takes the four handlers one at a time.  A single event can call
    several of them in a row, and an earlier one may end the connection or change
    what it waits for.  Here they run as the channel calls them. *)

From Stdlib Require Import ZArith Lia.
From Stdlib Require Import Init.Byte.
From S2P Require Import Prelude Poller Buffer ChannelApi TcpConnection.

Local Open Scope Z_scope.

Section Event.
Context {L : Type} `{HC : ChannelApi L} `{HL : !ChannelLaws L} `{HB : Build}.
Context (kernel_write : nat -> list byte -> write_result) (user : event -> conn L -> list op).
Abbreviation conn := (conn L).
Implicit Types (c : conn) (r : Z).

(** The events of the read callback. *)
Definition read_bits : Z := Z.lor (Z.lor EPOLLIN EPOLLPRI) EPOLLRDHUP.

(** [r] is [revents_], and [readv] what the descriptor has to read. *)
Definition handleEventWithGuard r (readv : list Z -> readv_result) : ST conn unit :=
  _ ← when (flag r EPOLLHUP && negb (flag r EPOLLIN)) (handleClose kernel_write user);
  _ ← when (flag r EPOLLERR) handleError;
  _ ← when (flag r read_bits) (handleRead kernel_write user readv);
  when (flag r EPOLLOUT) (handleWrite kernel_write).

(** The channel is tied: nothing happens when [tie_.lock()] finds nobody that owns
    the connection; if it does, the guard keeps the connection during the event. *)
Definition handleEvent (owned : bool) r readv : ST conn unit := when owned (handleEventWithGuard r readv).

(** What epoll reports to a registered channel: what it asked for, errors and
    hang-ups. *)
Record reported r c : Prop := {
  rep_registered : removed c = false /\ (isReading c = true \/ isWriting c = true);
  rep_read : flag r read_bits = true -> isReading c = true;
  rep_write : flag r EPOLLOUT = true -> isWriting c = true;
}.

(** A hang-up together with something for the read callback, but without EPOLLIN,
    which is the only bit the first condition of the handler looks at: both the
    close callback and the read callback are due. *)
Definition half_hangup r : bool := flag r EPOLLHUP && negb (flag r EPOLLIN) && flag r read_bits.

Hypothesis kernel_write_law : forall k d n, kernel_write k d = Wrote n -> (n <= length d)%nat.
Hypothesis user_allowed : forall e c o, CInv c -> o ∈ user e c -> allowed o c.

(** Some steps of TcpConnection.v, after which the channel is still in the loop. *)
Record comes_to c c' : Prop := {
  ct_inv : CInv c';
  ct_steps : rtc (step kernel_write user) c c';
  ct_removed : removed c' = false;
}.

Lemma comes_refl c : CInv c -> removed c = false -> comes_to c c.
Proof. intros I Hr. now constructor. Qed.

Lemma comes_trans c1 c2 c3 : comes_to c1 c2 -> comes_to c2 c3 -> comes_to c1 c3.
Proof. intros [] []. constructor; auto. now transitivity c2. Qed.

(** One handler that is due. *)
Lemma handler_comes l c : CInv c -> enabled l c -> removed c = false ->
  match l with LEstablish | LDestroy => False | _ => True end ->
  runs (run_label kernel_write user l) c (fun _ c' => comes_to c c').
Proof.
  intros I He Hr Hl. destruct (run_label_ok kernel_write kernel_write_law user user_allowed l c I He) as [([] & c' & E & I' & Hf)|E];
    [|now right]. eapply runs_done; [exact E|]. constructor; [exact I'|apply rtc_once; now exists l|].
  assert (Hf' : kept c c' \/ ended c c') by (destruct l; exact Hf || done).
  destruct Hf' as [K|K]; [rewrite (k_removed _ _ K); exact Hr|exact (e_removed _ _ K)].
Qed.

(** [handleWrite] does nothing when the channel does not wait to write. *)
Lemma write_comes c : CInv c -> removed c = false -> runs (handleWrite kernel_write) c (fun _ c' => comes_to c c').
Proof.
  intros I Hr. destruct (isWriting c) eqn:Ew; [now apply (handler_comes LWrite)|].
  unfold handleWrite. r_get. rewrite Ew. apply runs_ret. now apply comes_refl.
Qed.

Lemma event_comes r readv c : CInv c -> reported r c -> half_hangup r = false -> readv_law readv ->
  Buffer.size (inputBuffer_ c) + extrabuf_size <= max_vector_size ->
  runs (handleEventWithGuard r readv) c (fun _ c' => comes_to c c').
Proof.
  intros I [[Hr Hreg] Hread Hwrite] Hhup Hv Hsz. unfold half_hangup in Hhup. unfold handleEventWithGuard.
  destruct (flag r EPOLLHUP && negb (flag r EPOLLIN)) eqn:Eh; cbn [when].
  - rewrite ?Eh in Hhup. cbn [andb] in Hhup. rewrite Hhup.
    eapply runs_bind; [apply (handler_comes LHangup c I); [now split|exact Hr|exact Logic.I]|]. intros [] c1 C1.
    refine (runs_step _ _ _ tt c1 _ _ _); [now destruct (flag r EPOLLERR)|]. cbn [when].
    refine (runs_step _ _ _ tt c1 _ eq_refl _). apply runs_when; intros _; [|exact C1].
    eapply runs_weaken; [apply write_comes; apply C1|]. intros [] c2 C2. now apply (comes_trans _ c1).
  - refine (runs_step _ _ _ tt c _ eq_refl _). refine (runs_step _ _ _ tt c _ _ _); [now destruct (flag r EPOLLERR)|].
    apply (runs_bind _ _ _ (fun _ c' => comes_to c c')).
    + apply runs_when; intros Erb; [|now apply comes_refl].
      apply (handler_comes (LRead readv) c I); [|exact Hr|exact Logic.I]. split_and!; auto.
    + intros [] c1 C1. apply runs_when; intros _; [|exact C1].
      eapply runs_weaken; [apply write_comes; apply C1|]. intros [] c2 C2. now apply (comes_trans _ c1).
Qed.

(** A half hang-up: the close callback ends the connection, and the read callback is
    called on it all the same. *)
Lemma half_hangup_comes r readv c : CInv c -> reported r c -> half_hangup r = true -> readv_law readv ->
  Buffer.size (inputBuffer_ c) + extrabuf_size <= max_vector_size ->
  (exists c1, step kernel_write user c c1 /\ state_ c1 = kDisconnected /\
     handleEventWithGuard r readv c = (_ ← handleRead kernel_write user readv; when (flag r EPOLLOUT) (handleWrite kernel_write)) c1 /\
     (asserts_enabled = true -> (forall iov, readv iov = ReadvBytes []) -> Buffer.size (inputBuffer_ c1) + extrabuf_size <= max_vector_size ->
      handleEventWithGuard r readv c = Fail AssertFailed)) \/
  handleEventWithGuard r readv c = Fail LengthError.
Proof.
  intros I [[Hr Hreg] _ _] Hh Hv _. unfold half_hangup in Hh. apply andb_true_iff in Hh as [Hh Hrd].
  assert (Hen : enabled LHangup c) by (now split).
  destruct (handleClose_ok kernel_write kernel_write_law user user_allowed c I (interest_live c I Hr Hreg)) as [([] & c1 & E & I1 & K)|E]; cycle 1.
  { right. unfold handleEventWithGuard. rewrite Hh. cbn [when]. now apply bind_fail. }
  left. exists c1. pose proof (e_state _ _ K) as Hs.
  assert (Eh : handleEventWithGuard r readv c = (_ ← handleRead kernel_write user readv; when (flag r EPOLLOUT) (handleWrite kernel_write)) c1).
  { unfold handleEventWithGuard. rewrite Hh, Hrd. cbn [when]. rewrite (bind_done _ _ _ _ _ E). now destruct (flag r EPOLLERR). }
  split_and!; [now exists LHangup|exact Hs|exact Eh|]. intros Ha Hz Hsz. rewrite Eh. apply bind_fail. unfold handleRead.
  destruct (readFd_run readv (inputBuffer_ c1) (ci_in _ _ I1) Hsz Hv) as (n & saved & b & Eb & _ & Hn). rewrite Hz in Hn. destruct Hn as (-> & _).
  assert (Eo : on_input (readFd readv) c1 = Done ((0, saved), set_input b c1)) by (unfold on_input; now rewrite Eb).
  st_step Eo. cbn [Z.ltb Z.eqb Z.compare]. unfold handleClose. st_get. apply bind_fail, cassert_false; [exact Ha|].
  unfold live. cbn. now rewrite Hs.
Qed.


End Event.

(** ** Concrete inputs *)

Module Demo.
Import TcpConnection.Demo.
#[local] Existing Instance debug_build.
#[local] Existing Instance demo_channel.
#[local] Existing Instance demo_channel_laws.

(** Data and the end of the connection arrive while the output buffer is not empty. *)
Definition everything : Z := Z.lor (Z.lor EPOLLIN EPOLLOUT) (Z.lor EPOLLERR EPOLLHUP).

End Demo.
