(* ===== verification/Socket.v ===== *)
(** Socket and InetAddress: [net/Socket.h], [net/Socket.cpp] and
    [net/InetAddress.h].

    The kernel's sockets are behind the class [SockKernel]; [SockLaws] is the
    documented behaviour of the system calls that the theorems rely on. *)

From Stdlib Require Import ZArith Lia.
From stdpp Require Import pretty.
From S2P Require Import Prelude Buffer.

Local Open Scope Z_scope.

(** ** InetAddress *)

Definition AF_INET : Z := 2.

(** [sockaddr_in]: port and address as stored, in network byte order. *)
Record sockaddr_in := mkAddr { sin_family : Z; sin_port : Z; sin_addr : Z }.

(** [htons], [ntohs] on a little-endian host. *)
Definition htons (x : Z) : Z := htobe 2 x.
Definition ntohs (x : Z) : Z := htobe 2 x.

(** The dotted form that [inet_ntop(AF_INET, ...)] writes: the bytes of the
    address in memory order. *)
Definition inet_ntop (a : Z) : string :=
  let octet i := pretty ((a / 256 ^ i) mod 256) in
  (octet 0 ++ "." ++ octet 1 ++ "." ++ octet 2 ++ "." ++ octet 3)%string.

Section InetAddress.
(* inet_addr of the C library: the address in network byte order *)
Context (inet_addr : string -> Z).

(** [InetAddress(uint16_t port, std::string ip)]. *)
Definition newInetAddress (port : Z) (ip : string) : sockaddr_in :=
  mkAddr AF_INET (htons port) (inet_addr ip).

Definition toIp (a : sockaddr_in) : string := inet_ntop (sin_addr a).
Definition toPort (a : sockaddr_in) : Z := ntohs (sin_port a).
Definition toIpPort (a : sockaddr_in) : string :=
  (inet_ntop (sin_addr a) ++ ":" ++ pretty (ntohs (sin_port a)))%string.
End InetAddress.

(** ** Sockets *)

Record sockflags := mkFlags {
  nonblock : bool; cloexec : bool; reuseaddr : bool; reuseport : bool; keepalive : bool;
  nodelay : bool; wr_shut : bool; is_listening : bool }.

Inductive sockopt := TCP_NODELAY | SO_REUSEADDR | SO_REUSEPORT | SO_KEEPALIVE.

Definition with_opt (o : sockopt) (b : bool) (f : sockflags) : sockflags :=
  match o with
  | TCP_NODELAY => mkFlags (nonblock f) (cloexec f) (reuseaddr f) (reuseport f) (keepalive f) b (wr_shut f) (is_listening f)
  | SO_REUSEADDR => mkFlags (nonblock f) (cloexec f) b (reuseport f) (keepalive f) (nodelay f) (wr_shut f) (is_listening f)
  | SO_REUSEPORT => mkFlags (nonblock f) (cloexec f) (reuseaddr f) b (keepalive f) (nodelay f) (wr_shut f) (is_listening f)
  | SO_KEEPALIVE => mkFlags (nonblock f) (cloexec f) (reuseaddr f) (reuseport f) b (nodelay f) (wr_shut f) (is_listening f)
  end.
Definition with_fl (nb ce : bool) (f : sockflags) : sockflags :=
  mkFlags nb ce (reuseaddr f) (reuseport f) (keepalive f) (nodelay f) (wr_shut f) (is_listening f).

(** What [accept] returns: a descriptor and the peer, or [errno]. *)
Inductive accept_result := Accepted (fd : Z) (peer : sockaddr_in) | AcceptError (err : Z).

(** The system calls; a call that fails returns a negative number. *)
Class SockKernel (K : Type) := {
  sock : K -> Z -> option sockflags;                  (* the open sockets *)
  sys_socket : bool -> bool -> K -> Z * K;            (* nonblock, cloexec *)
  sys_setsockopt : Z -> sockopt -> bool -> K -> Z * K;
  sys_bind : Z -> sockaddr_in -> K -> Z * K;
  sys_listen : Z -> K -> Z * K;
  sys_accept : Z -> K -> accept_result * K;
  sys_shutdown_wr : Z -> K -> Z * K;
  sys_close : Z -> K -> Z * K;
  sys_fcntl_nonblock : Z -> K -> Z * K;               (* F_SETFL, flags | O_NONBLOCK *)
  sys_fcntl_cloexec : Z -> K -> Z * K;                (* F_SETFD, flags | FD_CLOEXEC *)
  sys_open_null : K -> Z * K;                         (* open /dev/null *)
  sys_so_error : Z -> K -> (Z + Z) * K;               (* SO_ERROR: value, or errno *)
  sys_getsockname : Z -> K -> option sockaddr_in;
  sys_getpeername : Z -> K -> option sockaddr_in;
  sys_connect : Z -> sockaddr_in -> K -> Z * K;
}.

Class SockLaws (K : Type) `{SockKernel K} := {
  (* the flags of a socket made by accept are not inherited *)
  accept_flags fd k c peer k' : sys_accept fd k = (Accepted c peer, k') ->
    0 <= c /\ exists f, sock k' c = Some f /\ nonblock f = false /\ cloexec f = false;
  fcntl_nonblock_ok fd k f r k' : sock k fd = Some f -> sys_fcntl_nonblock fd k = (r, k') ->
    sock k' fd = Some (with_fl true (cloexec f) f);
  fcntl_cloexec_ok fd k f r k' : sock k fd = Some f -> sys_fcntl_cloexec fd k = (r, k') ->
    sock k' fd = Some (with_fl (nonblock f) true f);
  close_other fd fd' k r k' : sys_close fd k = (r, k') -> fd <> fd' -> sock k' fd' = sock k fd';
}.

Section Socket.
Context {K : Type} `{SockKernel K}.

(** Run a system call in the state-and-failure monad. *)
Definition call {A} (f : K -> A * K) : ST K A := fun k => Done (f k).

Definition createNonblockingOrDie : ST K Z :=
  sockfd ← call (sys_socket true true);
  if sockfd <? 0 then fail Aborted else mret sockfd.

(** [~Socket]. *)
Definition closeSocket (sockfd : Z) : ST K unit :=
  when (0 <=? sockfd) (_ ← call (sys_close sockfd); mret tt).

(** The result of [bind] is ignored. *)
Definition bindAddress (sockfd : Z) (addr : sockaddr_in) : ST K unit :=
  _ ← call (sys_bind sockfd addr); mret tt.

Definition listen (sockfd : Z) : ST K unit :=
  ret ← call (sys_listen sockfd);
  if ret <? 0 then fail Aborted else mret tt.

Definition accept (sockfd : Z) : ST K accept_result := call (sys_accept sockfd).

Definition shutdownWrite (sockfd : Z) : ST K unit := _ ← call (sys_shutdown_wr sockfd); mret tt.

Definition setOption (o : sockopt) (fd : Z) (on : bool) : ST K unit :=
  _ ← call (sys_setsockopt fd o on); mret tt.
Definition setTcpNoDelay : Z -> bool -> ST K unit := setOption TCP_NODELAY.
Definition setReuseAddr : Z -> bool -> ST K unit := setOption SO_REUSEADDR.
Definition setReusePort : Z -> bool -> ST K unit := setOption SO_REUSEPORT.
Definition setKeepAlive : Z -> bool -> ST K unit := setOption SO_KEEPALIVE.

Definition getSocketError (fd : Z) : ST K Z :=
  r ← call (sys_so_error fd);
  match r with inl err => mret err | inr optval => mret optval end.

Definition setNonBlockAndCloseOnExec (sockfd : Z) : ST K unit :=
  _ ← call (sys_fcntl_nonblock sockfd); _ ← call (sys_fcntl_cloexec sockfd); mret tt.

Definition connect (sockfd : Z) (addr : sockaddr_in) : ST K Z := call (sys_connect sockfd addr).

(** The structure is zeroed first, so a failed call gives the zero address. *)
Definition zero_addr : sockaddr_in := mkAddr 0 0 0.
Definition getLocalAddr (sockfd : Z) : ST K sockaddr_in :=
  k ← get; mret (default zero_addr (sys_getsockname sockfd k)).
Definition getPeerAddr (sockfd : Z) : ST K sockaddr_in :=
  k ← get; mret (default zero_addr (sys_getpeername sockfd k)).

Definition isSelfConnect (sockfd : Z) : ST K bool :=
  localaddr ← getLocalAddr sockfd;
  peeraddr ← getPeerAddr sockfd;
  if sin_family localaddr =? AF_INET
  then mret ((sin_port localaddr =? sin_port peeraddr) && (sin_addr localaddr =? sin_addr peeraddr))
  else mret false.
End Socket.

(** ** Facts *)

Lemma htons_involutive x : 0 <= x < 65536 -> ntohs (htons x) = x.
Proof.
  intros Hx. unfold ntohs, htons, htobe.
  rewrite <-(length_le_bytes 2 x) at 1. rewrite <-(length_reverse (le_bytes 2 x)).
  rewrite le_bytes_le_value, reverse_involutive, le_value_le_bytes.
  apply Z.mod_small. change (256 ^ Z.of_nat 2) with 65536. lia.
Qed.

Lemma toPort_newInetAddress inet_addr port ip : 0 <= port < 65536 ->
  toPort (newInetAddress inet_addr port ip) = port.
Proof. apply htons_involutive. Qed.

Example toIpPort_loopback :
  toIpPort (newInetAddress (fun _ => 16777343) 8080 "127.0.0.1") = "127.0.0.1:8080"%string.
Proof. vm_compute. reflexivity. Qed.

Section Laws.
Context {K : Type} `{HK : SockKernel K} `{HL : !SockLaws K}.

(** [setNonBlockAndCloseOnExec] sets both flags of an open socket. *)
Lemma setNonBlockAndCloseOnExec_ok fd (k : K) f : sock k fd = Some f ->
  exists k', setNonBlockAndCloseOnExec fd k = Done (tt, k') /\
    sock k' fd = Some (with_fl true true f).
Proof.
  intros Hf. unfold setNonBlockAndCloseOnExec, call, mbind, ST_bind.
  destruct (sys_fcntl_nonblock fd k) as [r1 k1] eqn:E1.
  pose proof (fcntl_nonblock_ok _ _ _ _ _ Hf E1) as H1.
  destruct (sys_fcntl_cloexec fd k1) as [r2 k2] eqn:E2.
  exists k2. split; [reflexivity|]. exact (fcntl_cloexec_ok _ _ _ _ _ H1 E2).
Qed.
End Laws.
