(* ===== verification/Acceptor.v ===== *)
(** Acceptor: [net/Acceptor.h] and [net/Acceptor.cpp], on the sockets of
    Socket.v and the channel interface of ChannelApi.v. *)

From Stdlib Require Import ZArith Lia.
From S2P Require Import Prelude Poller ChannelApi Buffer Socket.

Local Open Scope Z_scope.

Definition EMFILE : Z := 24.

Record acceptor (K L : Type) := mkAcceptor {
  kern : K;
  acceptSocket_ : Z;
  acceptChannel_ : L;
  newConnectionCallback_ : bool;         (* is one set *)
  listening_ : bool;
  idleFd_ : Z;
  delivered : list (Z * sockaddr_in);    (* given to the callback, oldest first *)
}.
Arguments mkAcceptor {K L}. Arguments kern {K L}. Arguments acceptSocket_ {K L}.
Arguments acceptChannel_ {K L}. Arguments newConnectionCallback_ {K L}. Arguments listening_ {K L}.
Arguments idleFd_ {K L}. Arguments delivered {K L}.

Section Acceptor.
Context {K L : Type} `{SockKernel K} `{ChannelApi L}.
Abbreviation acceptor := (acceptor K L).
Implicit Types (a : acceptor).

Definition set_kern (k : K) a : acceptor :=
  mkAcceptor k (acceptSocket_ a) (acceptChannel_ a) (newConnectionCallback_ a) (listening_ a) (idleFd_ a) (delivered a).
Definition set_channel (l : L) a : acceptor :=
  mkAcceptor (kern a) (acceptSocket_ a) l (newConnectionCallback_ a) (listening_ a) (idleFd_ a) (delivered a).
Definition set_listening (b : bool) a : acceptor :=
  mkAcceptor (kern a) (acceptSocket_ a) (acceptChannel_ a) (newConnectionCallback_ a) b (idleFd_ a) (delivered a).
Definition set_idle (fd : Z) a : acceptor :=
  mkAcceptor (kern a) (acceptSocket_ a) (acceptChannel_ a) (newConnectionCallback_ a) (listening_ a) fd (delivered a).
Definition set_delivered (l : list (Z * sockaddr_in)) a : acceptor :=
  mkAcceptor (kern a) (acceptSocket_ a) (acceptChannel_ a) (newConnectionCallback_ a) (listening_ a) (idleFd_ a) l.

Definition on_kern {A} (m : ST K A) : ST acceptor A := fun a =>
  match m (kern a) with Done (x, k) => Done (x, set_kern k a) | Fail f => Fail f end.
Definition on_channel (m : ST L unit) : ST acceptor unit := fun a =>
  match m (acceptChannel_ a) with Done (_, l) => Done (tt, set_channel l a) | Fail f => Fail f end.

(** [Acceptor::Acceptor]; the channel of the new socket is [channel_of fd]. *)
Definition newAcceptor (channel_of : Z -> L) (listenAddr : sockaddr_in) (reuseport : bool)
    : K -> outcome acceptor := fun k =>
  match (fd ← createNonblockingOrDie;
         idle ← call sys_open_null;
         _ ← setReuseAddr fd true;
         _ ← setReusePort fd reuseport;
         _ ← bindAddress fd listenAddr;
         mret (fd, idle)) k with
  | Done ((fd, idle), k') => Done (mkAcceptor k' fd (channel_of fd) false false idle [])
  | Fail f => Fail f
  end.

(** [~Acceptor], then the destructor of [acceptSocket_]. *)
Definition destroyAcceptor : ST acceptor unit :=
  _ ← on_channel (ch_switch ODisableAll);
  _ ← on_channel ch_remove;
  a ← get;
  _ ← on_kern (call (sys_close (idleFd_ a)));
  on_kern (closeSocket (acceptSocket_ a)).

Definition listen : ST acceptor unit :=
  _ ← modify (set_listening true);
  a ← get;
  _ ← on_kern (Socket.listen (acceptSocket_ a));
  on_channel (ch_switch OEnableReading).

(** The new connection is handed to the callback: the server's [newConnection]. *)
Definition deliver (fd : Z) (peer : sockaddr_in) : ST acceptor unit :=
  modify (fun a => set_delivered (delivered a ++ [(fd, peer)]) a).

Definition handleRead : ST acceptor unit :=
  a ← get;
  r ← on_kern (accept (acceptSocket_ a));
  match r with
  | Accepted connfd peerAddr =>
      if newConnectionCallback_ a then deliver connfd peerAddr
      else _ ← on_kern (call (sys_close connfd)); mret tt
  | AcceptError err =>
      when (err =? EMFILE)
        (_ ← on_kern (call (sys_close (idleFd_ a)));
         r ← on_kern (call (sys_accept (acceptSocket_ a)));
         let idle := match r with Accepted fd _ => fd | AcceptError _ => -1 end in
         _ ← modify (set_idle idle);
         _ ← on_kern (call (sys_close idle));
         null ← on_kern (call sys_open_null);
         modify (set_idle null))
  end.

(** ** Events of the listening socket *)

(* connections that wait in the queue of a listening socket *)
Context (waiting : K -> Z -> nat).

(** One poll: [edge] is the unreported edge of the listening socket, [et] whether
    the channel is registered edge-triggered, as channels are by default. *)
Definition accept_poll (et edge : bool) : ST acceptor bool :=
  a ← get;
  if (if et then edge else (0 <? waiting (kern a) (acceptSocket_ a))%nat)
  then _ ← handleRead; mret false
  else mret edge.

Fixpoint accept_polls (et : bool) (n : nat) (edge : bool) : ST acceptor bool :=
  match n with
  | O => mret edge
  | S n => edge' ← accept_poll et edge; accept_polls et n edge'
  end.
End Acceptor.

(** ** Properties *)

Section Properties.
Context {K L : Type} `{HK : SockKernel K} `{HL : !SockLaws K} `{HC : ChannelApi L}.
Context (waiting : K -> Z -> nat).
(** [accept] takes the first waiting connection, or fails. *)
Hypothesis accept_takes : forall fd k r k', sys_accept fd k = (r, k') ->
  match r with
  | Accepted _ _ => waiting k fd = S (waiting k' fd)
  | AcceptError _ => waiting k' fd = waiting k fd
  end.
Implicit Types (a : acceptor K L).

Lemma polls_no_edge n a : accept_polls waiting true n false a = Done (false, a).
Proof. induction n as [|n IH]; [reflexivity|]. exact IH. Qed.

(** channels are edge-triggered by default but the acceptor answers an event
    with a single accept, so of several clients that connect before the event is
    handled one is served and the others stay in the kernel's queue, however
    often the loop polls; and the descriptor it delivers is left in blocking
    mode, although the server treats it as non-blocking. *)
Theorem one_client_per_edge a n m fd peer k' :
  newConnectionCallback_ a = true -> waiting (kern a) (acceptSocket_ a) = S m ->
  sys_accept (acceptSocket_ a) (kern a) = (Accepted fd peer, k') ->
  exists a', accept_polls waiting true (S n) true a = Done (false, a') /\
    delivered a' = delivered a ++ [(fd, peer)] /\
    waiting (kern a') (acceptSocket_ a') = m /\
    exists f, sock (kern a') fd = Some f /\ nonblock f = false.
Proof.
  intros Hcb Hw Ea. cbn [accept_polls].
  assert (E : accept_poll waiting true true a =
    Done (false, set_delivered (delivered a ++ [(fd, peer)]) (set_kern k' a))).
  { unfold accept_poll. rewrite bind_get.
    assert (Eh : handleRead a = Done (tt, set_delivered (delivered a ++ [(fd, peer)]) (set_kern k' a))).
    { unfold handleRead. rewrite bind_get.
      assert (Er : on_kern (accept (acceptSocket_ a)) a = Done (Accepted fd peer, set_kern k' a)).
      { unfold on_kern, accept, call. now rewrite Ea. }
      st_step Er. now rewrite Hcb. }
    now st_step Eh. }
  st_step E. rewrite polls_no_edge. eexists. split; [reflexivity|]. cbn.
  pose proof (accept_takes _ _ _ _ Ea) as Ht. cbn in Ht.
  split_and!; [reflexivity|lia|].
  destruct (accept_flags _ _ _ _ _ Ea) as (_ & f & Hf & Hn & _). eauto.
Qed.
End Properties.

(** ** Concrete inputs *)

Module Demo.
(** A kernel with a queue of clients and a table of descriptors. *)
Record kernel := mkKernel { table : gmap Z sockflags; clients : list sockaddr_in; next : Z }.

Definition upd (k : kernel) (t : gmap Z sockflags) : kernel := mkKernel t (clients k) (next k).
Definition plain : sockflags := mkFlags false false false false false false false false.

#[local] Instance demo_kernel : SockKernel kernel := {
  sock k fd := table k !! fd;
  sys_socket nb ce k := (next k, mkKernel (<[next k := with_fl nb ce plain]> (table k)) (clients k) (next k + 1));
  sys_setsockopt fd o b k := (0, upd k (alter (with_opt o b) fd (table k)));
  sys_bind _ _ k := (0, k);
  sys_listen _ k := (0, k);
  sys_accept _ k :=
    match clients k with
    | [] => (AcceptError 11, k)
    | c :: rest => (Accepted (Z.max 0 (next k)) c,
        mkKernel (<[Z.max 0 (next k) := plain]> (table k)) rest (Z.max 0 (next k) + 1))
    end;
  sys_shutdown_wr _ k := (0, k);
  sys_close fd k := (0, upd k (delete fd (table k)));
  sys_fcntl_nonblock fd k := (0, upd k (alter (fun f => with_fl true (cloexec f) f) fd (table k)));
  sys_fcntl_cloexec fd k := (0, upd k (alter (fun f => with_fl (nonblock f) true f) fd (table k)));
  sys_open_null k := (next k, mkKernel (table k) (clients k) (next k + 1));
  sys_so_error _ k := (inr 0, k);
  sys_getsockname _ _ := None;
  sys_getpeername _ _ := None;
  sys_connect _ _ k := (0, k);
}.

#[local] Instance demo_laws : SockLaws kernel.
Proof.
  constructor.
  - intros fd k c peer k'. cbn. destruct (clients k); intros [= <- <- <-]. split; [lia|].
    exists plain. cbn. now rewrite lookup_insert_eq.
  - intros fd k f r k' Hf. cbn in *. intros [= <- <-]. cbn. now rewrite lookup_alter_eq, Hf.
  - intros fd k f r k' Hf. cbn in *. intros [= <- <-]. cbn. now rewrite lookup_alter_eq, Hf.
  - intros fd fd' k r k'. cbn. intros [= <- <-] Hne. cbn. now rewrite lookup_delete_ne.
Qed.

(** A channel that only remembers its interest. *)
#[local] Instance flag_channel : ChannelApi (bool * bool) := {
  ch_switch o := modify (fun l => (op_reading o (fst l), op_writing o (snd l)));
  ch_remove := mret tt;
  ch_tie := mret tt;
  ch_isReading := fst;
  ch_isWriting := snd;
  ch_watched l := fst l || snd l;
}.

Definition waiting (k : kernel) (_ : Z) : nat := length (clients k).
Definition client (n : Z) : sockaddr_in := mkAddr AF_INET n 16777343.

(** Two clients connect before the loop polls. *)
Definition start : acceptor kernel (bool * bool) :=
  mkAcceptor (mkKernel {[3 := plain]} [client 1; client 2] 5) 3 (true, false) true true 4 [].

Lemma accept_takes fd k r k' : sys_accept fd k = (r, k') ->
  match r with
  | Accepted _ _ => waiting k fd = S (waiting k' fd)
  | AcceptError _ => waiting k' fd = waiting k fd
  end.
Proof. cbn. unfold waiting. destruct (clients k) eqn:Ec; intros [= <- <-]; cbn; now rewrite ?Ec. Qed.

Lemma one_client_per_edge_witness : exists a',
  accept_polls waiting true 10 true start = Done (false, a') /\
  waiting (kern a') 3 = 1%nat /\ exists f, sock (kern a') 5 = Some f /\ nonblock f = false.
Proof.
  destruct (one_client_per_edge waiting accept_takes start 9 1 5 (client 1)
    (mkKernel (<[5 := plain]> {[3 := plain]}) [client 2] 6) eq_refl eq_refl eq_refl)
    as (a' & E & _ & Hw & Hf).
  exists a'. split; [exact E|]. split; [exact Hw|exact Hf].
Defined.

(** Level-triggered, both are served. *)
Lemma level_triggered_serves_all :
  match accept_polls waiting false 2 true start with
  | Done (_, a) => length (delivered a) = 2%nat | Fail _ => False end.
Proof. vm_compute. reflexivity. Qed.
End Demo.
