(* ===== verification/TcpServer.v ===== *)
(** TcpServer and EventLoopThreadPool: [net/TcpServer.h] and [net/TcpServer.cpp].

    The server and its connections across the base loop and the loops of the
    thread pool.  A connection object is named by the order of its creation; of
    its own life (TcpConnection.v) only the calls between it and the server
    matter here.  Each loop's functor queue (EventLoop.v: first in, first out,
    each functor once) is a list; the steps of different loops interleave
    freely. *)

From Stdlib Require Import ZArith Lia.
From stdpp Require Import pretty.
From S2P Require Import Prelude.

Local Open Scope Z_scope.

Definition loop_id := nat.
Definition conn_id := nat.
Definition INT_MAX : Z := 2147483647.

(** ** EventLoopThreadPool *)

Record pool := mkPool {
  baseLoop_ : loop_id;
  pool_started_ : bool;
  numThreads_ : Z;
  next_ : Z;
  loops_ : list loop_id;
  inited : list loop_id;        (* loops the init callback has seen *)
}.

Definition set_next (n : Z) (p : pool) : pool :=
  mkPool (baseLoop_ p) (pool_started_ p) (numThreads_ p) n (loops_ p) (inited p).
Definition setThreadNum_pool (n : Z) (p : pool) : pool :=
  mkPool (baseLoop_ p) (pool_started_ p) n (next_ p) (loops_ p) (inited p).
Definition newPool (base : loop_id) : pool := mkPool base false 0 0 [] [].

Section Pool.
Context `{Build}.
(* the loop that the [i]-th EventLoopThread::startLoop returns; each runs the
   callback before it is published *)
Context (startLoop : nat -> loop_id).

(** One round of the loop in [start]. *)
Definition startThread (cb : bool) (i : nat) : ST pool unit :=
  modify (fun p => mkPool (baseLoop_ p) (pool_started_ p) (numThreads_ p) (next_ p)
                     (loops_ p ++ [startLoop i])
                     (if cb then inited p ++ [startLoop i] else inited p)).

(** [start]; [cb]: an init callback is set. *)
Definition start_pool (cb : bool) : ST pool unit :=
  p ← get;
  _ ← cassert (negb (pool_started_ p));
  _ ← modify (fun p => mkPool (baseLoop_ p) true (numThreads_ p) (next_ p) (loops_ p) (inited p));
  _ ← for_each (seq 0 (Z.to_nat (numThreads_ p))) (startThread cb);
  when ((numThreads_ p =? 0) && cb)
    (modify (fun p => mkPool (baseLoop_ p) (pool_started_ p) (numThreads_ p) (next_ p) (loops_ p)
                        (inited p ++ [baseLoop_ p]))).

(** [loops_[next_]]: out of range is undefined. *)
Definition getNextLoop : ST pool loop_id :=
  p ← get;
  if bool_decide (loops_ p = []) then mret (baseLoop_ p) else
  loop ← deref (if 0 <=? next_ p then loops_ p !! Z.to_nat (next_ p) else None);
  let next := next_ p + 1 in
  _ ← modify (set_next (if Z.of_nat (length (loops_ p)) <=? next then 0 else next));
  mret loop.

Definition getAllLoops (p : pool) : list loop_id :=
  match loops_ p with [] => [baseLoop_ p] | l => l end.
End Pool.

(** ** TcpServer *)

(** The connection's part of the protocol. *)
Inductive cphase :=
  | New            (* constructed, kConnecting *)
  | Established    (* connectEstablished has run *)
  | Closed         (* handleClose has run and called closeCallback_ *)
  | Destroyed.     (* connectDestroyed has run *)
#[export] Instance cphase_eq_dec : EqDecision cphase.
Proof. solve_decision. Defined.

Record conn_info := mkInfo { c_name : string; c_loop : loop_id; c_fd : Z; c_phase : cphase }.

(** Functors that carry a connection. *)
Inductive task :=
  | TEstablish (c : conn_id)      (* conn->connectEstablished() *)
  | TRemove (c : conn_id)         (* removeConnectionInLoop(conn) *)
  | TDestroy (c : conn_id).       (* conn->connectDestroyed() *)
#[export] Instance task_eq_dec : EqDecision task.
Proof. solve_decision. Defined.

Record server := mkServer {
  threadPool_ : pool;
  name_ : string;
  started_ : Z;
  listening : bool;                   (* of the acceptor *)
  nextConnId_ : Z;
  connections_ : gmap string conn_id;
  conns : list conn_info;             (* every connection ever made *)
  queues : loop_id -> list task;
  alive : bool;                       (* the TcpServer object exists *)
}.

Definition set_pool (p : pool) (s : server) : server :=
  mkServer p (name_ s) (started_ s) (listening s) (nextConnId_ s) (connections_ s) (conns s) (queues s) (alive s).
Definition set_started (n : Z) (s : server) : server :=
  mkServer (threadPool_ s) (name_ s) n (listening s) (nextConnId_ s) (connections_ s) (conns s) (queues s) (alive s).
Definition set_listening (b : bool) (s : server) : server :=
  mkServer (threadPool_ s) (name_ s) (started_ s) b (nextConnId_ s) (connections_ s) (conns s) (queues s) (alive s).
Definition set_nextId (n : Z) (s : server) : server :=
  mkServer (threadPool_ s) (name_ s) (started_ s) (listening s) n (connections_ s) (conns s) (queues s) (alive s).
Definition set_connections (m : gmap string conn_id) (s : server) : server :=
  mkServer (threadPool_ s) (name_ s) (started_ s) (listening s) (nextConnId_ s) m (conns s) (queues s) (alive s).
Definition set_conns (l : list conn_info) (s : server) : server :=
  mkServer (threadPool_ s) (name_ s) (started_ s) (listening s) (nextConnId_ s) (connections_ s) l (queues s) (alive s).
Definition set_queue (l : loop_id) (q : list task) (s : server) : server :=
  mkServer (threadPool_ s) (name_ s) (started_ s) (listening s) (nextConnId_ s) (connections_ s) (conns s)
    (fun l' => if decide (l' = l) then q else queues s l') (alive s).
Definition set_dead (s : server) : server :=
  mkServer (threadPool_ s) (name_ s) (started_ s) (listening s) (nextConnId_ s) (connections_ s) (conns s) (queues s) false.

(** [loop_], the base loop, is the pool's. *)
Definition loop_ (s : server) : loop_id := baseLoop_ (threadPool_ s).

(** The constructor. *)
Definition newServer (loop : loop_id) (name : string) : server :=
  mkServer (newPool loop) name 0 false 1 ∅ [] (fun _ => []) true.

(** [name_ + buf], where [buf] holds ["#%d"] of the counter (at most 12
    characters, the array has 64). *)
Definition connName (name : string) (n : Z) : string := (name ++ ("#" ++ pretty n))%string.

Section Server.
Context `{Build} (startLoop : nat -> loop_id) (threadInitCallback_ : bool).
Implicit Types (s : server).

Definition on_pool {A} (m : ST pool A) : ST server A := fun s =>
  match m (threadPool_ s) with Done (a, p) => Done (a, set_pool p s) | Fail f => Fail f end.

Definition setThreadNum (n : Z) : ST server unit :=
  _ ← cassert (0 <=? n); on_pool (modify (setThreadNum_pool n)).

(** [start], on the base loop's thread; the listen functor runs at once. *)
Definition start : ST server unit :=
  s ← get;
  _ ← modify (set_started (started_ s + 1));
  when (started_ s =? 0)
    (_ ← on_pool (start_pool startLoop threadInitCallback_);
     s ← get;
     _ ← cassert (negb (listening s));
     modify (set_listening true)).

Definition info (c : conn_id) : ST server conn_info := s ← get; deref (conns s !! c).
Definition set_phase (c : conn_id) (p : cphase) : ST server unit :=
  i ← info c;
  modify (fun s => set_conns (<[c := mkInfo (c_name i) (c_loop i) (c_fd i) p]> (conns s)) s).
Definition queueInLoop (l : loop_id) (t : task) : ST server unit :=
  modify (fun s => set_queue l (queues s l ++ [t]) s).

(** [TcpConnection::connectEstablished] and [connectDestroyed]. *)
Definition connectEstablished (c : conn_id) : ST server unit :=
  i ← info c;
  _ ← cassert (bool_decide (c_phase i = New));
  set_phase c Established.
Definition connectDestroyed (c : conn_id) : ST server unit := set_phase c Destroyed.

Definition removeConnectionInLoop (c : conn_id) : ST server unit :=
  s ← get;
  _ ← (if alive s then mret tt else fail UndefinedBehaviour);
  i ← info c;
  let n := if connections_ s !! c_name i is Some _ then 1 else 0 in
  _ ← modify (set_connections (delete (c_name i) (connections_ s)));
  _ ← cassert (n =? 1);
  queueInLoop (c_loop i) (TDestroy c).

(** A functor of one of the loops. *)
Definition run_task (t : task) : ST server unit :=
  match t with
  | TEstablish c => connectEstablished c
  | TRemove c => removeConnectionInLoop c
  | TDestroy c => connectDestroyed c
  end.

(** [runInLoop] called on the thread of the loop [caller]. *)
Definition runInLoop (caller l : loop_id) (t : task) : ST server unit :=
  if decide (caller = l) then run_task t else queueInLoop l t.

(** [newConnection] up to the last statement: the new object and its loop. *)
Definition addConnection (sockfd : Z) : ST server (conn_id * loop_id) :=
  s ← get;
  let name := connName (name_ s) (nextConnId_ s) in
  _ ← (if nextConnId_ s =? INT_MAX then fail UndefinedBehaviour
       else modify (set_nextId (nextConnId_ s + 1)));
  ioLoop ← on_pool getNextLoop;
  let c := length (conns s) in
  _ ← modify (fun s => set_conns (conns s ++ [mkInfo name ioLoop sockfd New]) s);
  _ ← modify (fun s => set_connections (<[name := c]> (connections_ s)) s);
  mret (c, ioLoop).

Definition newConnection (sockfd : Z) : ST server unit :=
  s ← get;
  r ← addConnection sockfd;
  runInLoop (loop_ s) (snd r) (TEstablish (fst r)).

(** [removeConnection], the close callback, on the connection's loop; it uses
    the server. *)
Definition removeConnection (c : conn_id) : ST server unit :=
  s ← get;
  _ ← (if alive s then mret tt else fail UndefinedBehaviour);
  i ← info c;
  runInLoop (c_loop i) (loop_ s) (TRemove c).

(** [TcpConnection::handleClose]: the state changes, then the callback runs. *)
Definition handleClose (c : conn_id) : ST server unit :=
  _ ← set_phase c Closed; removeConnection c.

(** One connection of the loop in [~TcpServer]. *)
Definition release (e : string * conn_id) : ST server unit :=
  i ← info (snd e);
  s ← get;
  runInLoop (loop_ s) (c_loop i) (TDestroy (snd e)).

Definition destroyServer : ST server unit :=
  s ← get;
  _ ← for_each (map_to_list (connections_ s)) release;
  _ ← modify (set_connections ∅);
  modify set_dead.

(** ** Steps of the loops *)

Inductive label :=
  | Accept (sockfd : Z)          (* the acceptor's event, on the base loop *)
  | Close (c : conn_id)          (* the connection's event, on its loop *)
  | Functor (l : loop_id).       (* doPendingFunctors of a loop *)

Definition run_label (lb : label) : ST server unit :=
  match lb with
  | Accept fd => newConnection fd
  | Close c => handleClose c
  | Functor l =>
      s ← get;
      match queues s l with
      | [] => mret tt
      | t :: q => _ ← modify (set_queue l q); run_task t
      end
  end.

(** A connection closes once, after it was established. *)
Definition enabled (lb : label) s : Prop :=
  match lb with
  | Accept _ => nextConnId_ s < INT_MAX
  | Close c => exists i, conns s !! c = Some i /\ c_phase i = Established
  | Functor _ => True
  end.

Definition step s s' : Prop := exists lb, enabled lb s /\ run_label lb s = Done (tt, s').

(** A server that has been started: its pool has its loops. *)
Definition ready s : Prop :=
  alive s = true /\ connections_ s = ∅ /\ conns s = [] /\ nextConnId_ s = 1 /\
  (forall l, queues s l = []) /\ 0 <= next_ (threadPool_ s) /\
  (next_ (threadPool_ s) < Z.of_nat (length (loops_ (threadPool_ s))) \/ loops_ (threadPool_ s) = []).

Definition reachable s : Prop := exists s0, ready s0 /\ rtc step s0 s.
End Server.

(** ** The invariant *)

#[export] Instance connName_inj name : Inj (=) (=) (connName name).
Proof. intros n m E. unfold connName in E. apply (inj _) in E. cbn in E. simplify_eq. now apply (inj pretty). Qed.

(** A functor that is in the queue of [l], or in hand: about to run or to be
    queued there. *)
Definition pends (h : option (loop_id * task)) (s : server) (l : loop_id) (t : task) : Prop :=
  t ∈ queues s l \/ h = Some (l, t).

(** What the server and its loops agree on about the connection of a functor. *)
Definition task_fits (s : server) (l : loop_id) (t : task) : Prop :=
  match t with
  | TEstablish c => exists i, conns s !! c = Some i /\ c_phase i = New /\ l = c_loop i
  | TRemove c => l = loop_ s /\ exists i, conns s !! c = Some i /\ c_phase i = Closed /\
      connections_ s !! c_name i = Some c
  | TDestroy c => exists i, conns s !! c = Some i /\ c_phase i = Closed /\ l = c_loop i /\
      connections_ s !! c_name i <> Some c
  end.

(** The connections the server has to know. *)
Definition listed h (s : server) (c : conn_id) (i : conn_info) : Prop :=
  c_phase i = New \/ c_phase i = Established \/ c_phase i = Closed /\ pends h s (loop_ s) (TRemove c).

Record SInv_but (h : option (loop_id * task)) (s : server) : Prop := {
  si_alive : alive s = true;
  si_next : 0 <= next_ (threadPool_ s) /\
    (next_ (threadPool_ s) < Z.of_nat (length (loops_ (threadPool_ s))) \/ loops_ (threadPool_ s) = []);
  si_id : nextConnId_ s = 1 + Z.of_nat (length (conns s));
  si_name c i : conns s !! c = Some i -> c_name i = connName (name_ s) (1 + Z.of_nat c);
  si_nodup l : NoDup (queues s l);
  si_hand l t : h = Some (l, t) -> t ∉ queues s l;
  si_task l t : pends h s l t -> task_fits s l t;
  si_map n c : connections_ s !! n = Some c <->
    exists i, conns s !! c = Some i /\ c_name i = n /\ listed h s c i;
  si_new c i : conns s !! c = Some i -> c_phase i = New -> pends h s (c_loop i) (TEstablish c);
  si_closed c i : conns s !! c = Some i -> c_phase i = Closed ->
    pends h s (loop_ s) (TRemove c) \/ pends h s (c_loop i) (TDestroy c);
}.
Definition SInv (s : server) : Prop := SInv_but None s.

Section Lemmas.
Context `{Build} (startLoop : nat -> loop_id) (threadInitCallback_ : bool).
Implicit Types (s : server) (h : option (loop_id * task)).

Lemma same_name_same_conn h s c d i j : SInv_but h s -> conns s !! c = Some i -> conns s !! d = Some j ->
  c_name i = c_name j -> c = d.
Proof.
  intros I Hi Hj E. rewrite (si_name _ _ I _ _ Hi), (si_name _ _ I _ _ Hj) in E.
  apply (inj (connName (name_ s))) in E. lia.
Qed.

(** Moving functors between the hand and the queues. *)
Lemma SInv_requeue h h' s l q : SInv_but h s ->
  (forall l' t', pends h' (set_queue l q s) l' t' <-> pends h s l' t') ->
  NoDup q -> (forall l' t', h' = Some (l', t') -> t' ∉ queues (set_queue l q s) l') ->
  SInv_but h' (set_queue l q s).
Proof.
  intros I Hp Hq Hh. constructor; try apply I.
  - intros l'. cbn. case_decide; [exact Hq|apply I].
  - exact Hh.
  - intros l' t' Ht. apply Hp in Ht. exact (si_task _ _ I _ _ Ht).
  - intros n c. unfold listed. setoid_rewrite Hp. apply (si_map _ _ I).
  - intros c i Hi Hn. apply Hp. exact (si_new _ _ I _ _ Hi Hn).
  - intros c i Hi Hn. setoid_rewrite Hp. exact (si_closed _ _ I _ _ Hi Hn).
Qed.

Lemma queueInLoop_ok l t s : SInv_but (Some (l, t)) s ->
  exists s', queueInLoop l t s = Done (tt, s') /\ SInv s'.
Proof.
  intros I. eexists. split; [reflexivity|]. apply (SInv_requeue (Some (l, t))); [exact I| | |discriminate].
  - intros l' t'. unfold pends; cbn. case_decide as Hl.
    + subst l'. rewrite elem_of_app, list_elem_of_singleton. split; [intros [[?| ->]|?]; auto; discriminate|].
      intros [?|[= ->]]; auto.
    + split; [intros [?|?]; auto; discriminate|]. intros [?|[= -> ->]]; [auto|congruence].
  - apply NoDup_app. split_and!; [apply I| |apply NoDup_singleton].
    intros x Hx Hy%list_elem_of_singleton. subst. now apply (si_hand _ _ I l t).
Qed.

Lemma take_functor l t q s : SInv s -> queues s l = t :: q ->
  SInv_but (Some (l, t)) (set_queue l q s).
Proof.
  intros I Eq. pose proof (si_nodup _ _ I l) as Hn. rewrite Eq in Hn. apply NoDup_cons in Hn as [Hni Hn].
  apply (SInv_requeue None); [exact I| |exact Hn|].
  - intros l' t'. unfold pends; cbn. case_decide as Hl.
    + subst l'. rewrite Eq, elem_of_cons. split; [intros [?|[= ->]]; auto|]. intros [[-> |?]|?]; auto; discriminate.
    + split; [intros [?|[= -> ->]]; [auto|congruence]|]. intros [?|?]; [auto|discriminate].
  - intros l' t' [= <- <-]. cbn. rewrite decide_True by done. exact Hni.
Qed.

Lemma info_ok c i s : conns s !! c = Some i -> info c s = Done (i, s).
Proof. intros E. unfold info. st_get. now rewrite E. Qed.

Definition with_phase c (i : conn_info) p s : server :=
  set_conns (<[c := mkInfo (c_name i) (c_loop i) (c_fd i) p]> (conns s)) s.

Lemma set_phase_ok c p i s : conns s !! c = Some i -> set_phase c p s = Done (tt, with_phase c i p s).
Proof. intros E. unfold set_phase. st_step (info_ok c i s E). reflexivity. Qed.

(** Lookups after a change of phase. *)
Lemma with_phase_lookup c i p s d j : conns s !! c = Some i ->
  conns (with_phase c i p s) !! d = Some j <->
  (d = c /\ j = mkInfo (c_name i) (c_loop i) (c_fd i) p) \/ (d <> c /\ conns s !! d = Some j).
Proof.
  intros E. cbn. rewrite list_lookup_insert_Some. apply lookup_lt_Some in E.
  split; [intros [(-> & <- & _)|[? ?]]; auto|intros [[-> ->]|[? ?]]; auto].
Qed.

Definition conn_of (t : task) : conn_id :=
  match t with TEstablish c | TRemove c | TDestroy c => c end.

Lemma task_fits_other c i p s l t : conns s !! c = Some i -> conn_of t <> c ->
  task_fits s l t -> task_fits (with_phase c i p s) l t.
Proof.
  intros Ei Hne. destruct t as [d|d|d]; cbn in *; rewrite list_lookup_insert_ne by auto; auto.
Qed.

(** One connection changes its phase while its functor comes or goes. *)
Lemma phase_change h h' c i p s : SInv_but h s -> conns s !! c = Some i ->
  (forall l t, conn_of t <> c -> pends h' s l t <-> pends h s l t) ->
  (forall l t, conn_of t = c -> pends h' s l t -> task_fits (with_phase c i p s) l t) ->
  (forall l t, h' = Some (l, t) -> t ∉ queues s l) ->
  (connections_ s !! c_name i = Some c <-> listed h' s c (mkInfo (c_name i) (c_loop i) (c_fd i) p)) ->
  (p = New -> pends h' s (c_loop i) (TEstablish c)) ->
  (p = Closed -> pends h' s (loop_ s) (TRemove c) \/ pends h' s (c_loop i) (TDestroy c)) ->
  SInv_but h' (with_phase c i p s).
Proof.
  intros I Ei Hoth Hfit Hhand Hlist Hnew Hclosed. set (i' := mkInfo _ _ _ p) in Hlist.
  constructor; try apply I.
  - cbn. rewrite length_insert. apply (si_id _ _ I).
  - intros d j [[-> ->]|[_ Ej]]%(with_phase_lookup c i _ s _ _ Ei); [exact (si_name _ _ I _ _ Ei)|].
    exact (si_name _ _ I _ _ Ej).
  - exact Hhand.
  - intros l t Ht. destruct (decide (conn_of t = c)) as [Hc|Hc]; [now apply Hfit|].
    apply task_fits_other; auto. apply (si_task _ _ I). now apply Hoth.
  - intros n d. change (connections_ (with_phase c i p s)) with (connections_ s).
    setoid_rewrite (with_phase_lookup c i p s d _ Ei). destruct (decide (d = c)) as [->|Hdc].
    + split.
      * intros Hn. exists i'. pose proof Hn as Hx. apply (si_map _ _ I) in Hx as (j & Ej & Hj & _).
        assert (j = i) as -> by congruence. split_and!; [auto|exact Hj|]. apply Hlist. congruence.
      * intros (j & [[_ ->]|[? _]] & Hn & Hl); [|done]. cbn in Hn. rewrite <-Hn. now apply Hlist.
    + rewrite (si_map _ _ I). unfold listed.
      assert (Hp : pends h' s (loop_ s) (TRemove d) <-> pends h s (loop_ s) (TRemove d)) by now apply Hoth.
      change (pends h' (with_phase c i p s) (loop_ (with_phase c i p s)) (TRemove d))
        with (pends h' s (loop_ s) (TRemove d)).
      setoid_rewrite Hp. split; intros (j & Ej & ? & ?); exists j; [auto|].
      destruct Ej as [[? _]|[_ ?]]; auto; done.
  - intros d j [[-> ->]|[Hdc Ej]]%(with_phase_lookup c i _ s _ _ Ei) Hj; [now apply Hnew|].
    apply Hoth; [auto|]. exact (si_new _ _ I _ _ Ej Hj).
  - intros d j [[-> ->]|[Hdc Ej]]%(with_phase_lookup c i _ s _ _ Ei) Hj; [now apply Hclosed|].
    destruct (si_closed _ _ I _ _ Ej Hj); [left|right]; apply Hoth; auto.
Qed.

Lemma pends_none s l t h : pends None s l t -> pends h s l t.
Proof. intros [?|?]; [now left|discriminate]. Qed.

(** The functor in hand is the only one of its connection. *)
Lemma only_functor c h s l t l' t' : SInv_but h s -> h = Some (l, t) -> conn_of t = c ->
  pends None s l' t' -> conn_of t' = c -> False.
Proof.
  intros I Hh Ht Hp Ht'. assert (Hq : t' ∈ queues s l') by (destruct Hp; [done|discriminate]).
  assert (H1 : task_fits s l t) by (apply (si_task _ _ I); now right).
  assert (H2 : task_fits s l' t') by (apply (si_task _ _ I); now left).
  assert (t' = t /\ l' = l) as [-> ->]; [|now apply (si_hand _ _ I l t Hh)].
  destruct t, t'; cbn in *; subst;
    repeat match goal with
    | H : exists _, _ |- _ => destruct H
    | H : _ /\ _ |- _ => destruct H
    end; simplify_eq; auto; congruence.
Qed.

(** [connectEstablished] and [connectDestroyed] of the functor in hand. *)
Lemma establish_ok l c s : SInv_but (Some (l, TEstablish c)) s ->
  exists s', connectEstablished c s = Done (tt, s') /\ SInv s'.
Proof.
  intros I. destruct (si_task _ _ I l (TEstablish c)) as (i & Ei & Hp & ->); [now right|].
  unfold connectEstablished. st_step (info_ok c i s Ei).
  st_step (cassert_true _ s (bool_decide_eq_true_2 _ Hp)). rewrite (set_phase_ok c _ i s Ei).
  eexists. split; [reflexivity|]. apply (phase_change (Some (c_loop i, TEstablish c))); auto; try discriminate.
  - intros l t Hne. split; [apply pends_none|]. intros [?|[= <- <-]]; [now left|done].
  - intros l t Ht Hpend. destruct (only_functor c _ s _ _ l t I eq_refl eq_refl Hpend Ht).
  - split; [intros _; right; now left|]. intros _. apply (si_map _ _ I). exists i. split_and!; auto. now left.
Qed.

Lemma destroy_ok l c s : SInv_but (Some (l, TDestroy c)) s ->
  exists s', connectDestroyed c s = Done (tt, s') /\ SInv s'.
Proof.
  intros I. destruct (si_task _ _ I l (TDestroy c)) as (i & Ei & Hp & -> & Hnl); [now right|].
  unfold connectDestroyed. rewrite (set_phase_ok c _ i s Ei).
  eexists. split; [reflexivity|]. apply (phase_change (Some (c_loop i, TDestroy c))); auto; try discriminate.
  - intros l t Hne. split; [apply pends_none|]. intros [?|[= <- <-]]; [now left|done].
  - intros l t Ht Hpend. destruct (only_functor c _ s _ _ l t I eq_refl eq_refl Hpend Ht).
  - split; [now intros ?|]. intros [?|[?|[? _]]]; discriminate.
Qed.

(** [removeConnectionInLoop] of the functor in hand: the name is known. *)
Lemma remove_ok l c s : SInv_but (Some (l, TRemove c)) s ->
  exists s', removeConnectionInLoop c s = Done (tt, s') /\ SInv s'.
Proof.
  intros I. destruct (si_task _ _ I l (TRemove c)) as (-> & i & Ei & Hp & Hm); [now right|].
  unfold removeConnectionInLoop. st_get. rewrite (si_alive _ _ I), bind_ret_l.
  st_step (info_ok c i s Ei). rewrite Hm. st_modify.
  set (s1 := set_connections (delete (c_name i) (connections_ s)) s).
  st_step (cassert_true (1 =? 1) s1 eq_refl). apply (queueInLoop_ok (c_loop i) (TDestroy c) s1).
  assert (Honly : forall l' t', pends None s l' t' -> conn_of t' <> c).
  { intros l' t' Hpend Hc. exact (only_functor c _ s _ _ l' t' I eq_refl eq_refl Hpend Hc). }
  assert (Hmv : forall l' t', conn_of t' <> c ->
    pends (Some (c_loop i, TDestroy c)) s1 l' t' <-> pends (Some (loop_ s, TRemove c)) s l' t').
  { intros l' t' Hne. split; (intros [?|[= <- <-]]; [now left|now destruct Hne]). }
  assert (Hfit1 : forall l' t', conn_of t' <> c -> task_fits s l' t' -> task_fits s1 l' t').
  { intros l' t' Hne. destruct t' as [d|d|d]; cbn in *; auto.
    - intros (Hl & j & Ej & Hj & Hn). split; [exact Hl|]. exists j. rewrite lookup_delete_ne; [auto|].
      intros E. apply Hne. symmetry. exact (same_name_same_conn _ _ _ _ _ _ I Ei Ej E).
    - intros (j & Ej & Hj & Hl & Hn). exists j. split_and!; auto.
      intros [_ ?]%lookup_delete_Some. auto. }
  constructor; try apply I.
  - intros l' t' [= <- <-] Hin. refine (Honly (c_loop i) (TDestroy c) _ eq_refl). now left.
  - intros l' t' Ht. destruct (decide (conn_of t' = c)) as [Hc|Hc].
    + destruct Ht as [Ht|[= <- <-]]; [destruct (Honly l' t'); [now left|exact Hc]|].
      exists i. split_and!; auto. cbn. now rewrite lookup_delete_eq.
    + apply Hfit1; [exact Hc|]. apply (si_task _ _ I). now apply Hmv.
  - intros n d. cbn [connections_ s1 set_connections]. rewrite lookup_delete_Some, (si_map _ _ I).
    unfold listed. change (loop_ s1) with (loop_ s). change (conns s1) with (conns s). split.
    + intros (Hne & j & Ej & Hn & Hl). exists j. split_and!; auto.
      destruct Hl as [?|[?|[? Ht]]]; auto. do 2 right. split; [done|]. apply Hmv; [|exact Ht].
      cbn. intros ->. congruence.
    + intros (j & Ej & Hn & Hl). destruct (decide (d = c)) as [->|Hdc].
      * exfalso. assert (j = i) as -> by congruence. destruct Hl as [?|[?|[_ [Ht|?]]]]; try congruence.
        refine (Honly (loop_ s) (TRemove c) _ eq_refl). now left.
      * split; [intros E; apply Hdc; rewrite <-Hn in E; symmetry; exact (same_name_same_conn _ _ _ _ _ _ I Ei Ej E)|].
        exists j. split_and!; auto. destruct Hl as [?|[?|[? Ht]]]; auto. do 2 right. split; [done|]. now apply Hmv.
  - intros d j Ej Hj. cbn in Ej. apply Hmv; [|exact (si_new _ _ I _ _ Ej Hj)]. cbn. intros ->. congruence.
  - intros d j Ej Hj. cbn in Ej. change (loop_ s1) with (loop_ s). destruct (decide (d = c)) as [->|Hdc].
    + right. right. assert (j = i) as -> by congruence. reflexivity.
    + destruct (si_closed _ _ I _ _ Ej Hj); [left|right]; now apply Hmv.
Qed.

Lemma server_run_task_ok l t s : SInv_but (Some (l, t)) s -> exists s', run_task t s = Done (tt, s') /\ SInv s'.
Proof. destruct t; [apply establish_ok|apply remove_ok|apply destroy_ok]. Qed.

Lemma server_runInLoop_ok caller l t s : SInv_but (Some (l, t)) s ->
  exists s', runInLoop caller l t s = Done (tt, s') /\ SInv s'.
Proof.
  intros I. unfold runInLoop. destruct (decide (caller = l)); [now apply (server_run_task_ok l)|now apply queueInLoop_ok].
Qed.

(** [getNextLoop] takes the loops in turn. *)
Lemma getNextLoop_run p : 0 <= next_ p ->
  next_ p < Z.of_nat (length (loops_ p)) \/ loops_ p = [] ->
  exists l, getNextLoop p = Done (l, set_next (if bool_decide (loops_ p = []) then next_ p
      else (next_ p + 1) mod Z.of_nat (length (loops_ p))) p) /\
    match loops_ p with [] => l = baseLoop_ p | _ => loops_ p !! Z.to_nat (next_ p) = Some l end.
Proof.
  intros H0 Hn. unfold getNextLoop. st_get. case_bool_decide as Hl.
  - exists (baseLoop_ p). rewrite Hl. split; [now destruct p|reflexivity].
  - destruct Hn as [Hn|]; [|done]. rewrite (proj2 (Z.leb_le _ _) H0).
    destruct (loops_ p !! Z.to_nat (next_ p)) as [l|] eqn:El.
    2: { apply lookup_ge_None in El. lia. }
    exists l. cbn [deref]. rewrite bind_ret_l. split; [|destruct (loops_ p); [done|reflexivity]].
    assert (Eq : (if Z.of_nat (length (loops_ p)) <=? next_ p + 1 then 0 else next_ p + 1)
             = (next_ p + 1) mod Z.of_nat (length (loops_ p))).
    { destruct (Z.leb_spec (Z.of_nat (length (loops_ p))) (next_ p + 1)).
      - replace (next_ p + 1) with (Z.of_nat (length (loops_ p))) by lia. symmetry. apply Z.mod_same. lia.
      - symmetry. apply Z.mod_small. lia. }
    st_modify. now rewrite Eq.
Qed.

(** *** A connection is added *)

Lemma task_fits_conn s l t : task_fits s l t -> exists i, conns s !! conn_of t = Some i.
Proof. destruct t; cbn; [intros (j & Hj & _)|intros (_ & j & Hj & _)|intros (j & Hj & _)]; eauto. Qed.

Lemma no_task_of_new s l t : SInv s -> pends None s l t -> conn_of t <> length (conns s).
Proof.
  intros I Ht E. destruct (task_fits_conn s l t (si_task _ _ I _ _ Ht)) as [i Hi].
  apply lookup_lt_Some in Hi. lia.
Qed.

Lemma fresh_name s d j : SInv s -> conns s !! d = Some j -> c_name j <> connName (name_ s) (nextConnId_ s).
Proof.
  intros I Ej E. rewrite (si_name _ _ I _ _ Ej) in E. apply (inj (connName (name_ s))) in E.
  rewrite (si_id _ _ I) in E. apply lookup_lt_Some in Ej. lia.
Qed.

Lemma snoc_lookup (l : list conn_info) i d j :
  (l ++ [i]) !! d = Some j <-> (d = length l /\ j = i) \/ (d <> length l /\ l !! d = Some j).
Proof.
  destruct (decide (d < length l)%nat).
  - rewrite lookup_app_l by done. split; [right; split; [lia|done]|]. intros [[-> _]|[_ ?]]; [lia|done].
  - rewrite lookup_app_r by lia. destruct (d - length l)%nat as [|k] eqn:Ek; cbn.
    + assert (d = length l) as -> by lia. split; [intros [= <-]; auto|]. intros [[_ ->]|[? _]]; done.
    + split; [discriminate|]. intros [[-> _]|[_ Hx]]; [lia|]. apply lookup_lt_Some in Hx. lia.
Qed.

(** The state in which the new connection's [connectEstablished] is in hand. *)
Definition added s (p : pool) (l : loop_id) (fd : Z) : server :=
  let name := connName (name_ s) (nextConnId_ s) in
  set_connections (<[name := length (conns s)]> (connections_ s))
    (set_conns (conns s ++ [mkInfo name l fd New]) (set_pool p (set_nextId (nextConnId_ s + 1) s))).

Lemma added_fits s p l fd l' t : SInv s -> baseLoop_ p = loop_ s -> pends None s l' t ->
  task_fits (added s p l fd) l' t.
Proof.
  intros I Hb Ht. pose proof (no_task_of_new s l' t I Ht) as Hne.
  pose proof (si_task _ _ I _ _ Ht) as Hfit. destruct t as [d|d|d]; cbn in Hne, Hfit |- *.
  - destruct Hfit as (j & Ej & Hj). exists j. split; [apply snoc_lookup; auto|exact Hj].
  - destruct Hfit as (Hl & j & Ej & Hp & Hm). split; [unfold loop_; cbn; now rewrite Hb|]. exists j.
    split_and!; [apply snoc_lookup; auto|exact Hp|]. rewrite lookup_insert_ne; [exact Hm|].
    intros E. now apply (fresh_name s d j I Ej).
  - destruct Hfit as (j & Ej & Hp & Hl & Hm). exists j. split_and!; [apply snoc_lookup; auto|exact Hp|exact Hl|].
    rewrite lookup_insert_ne; [exact Hm|]. intros E. now apply (fresh_name s d j I Ej).
Qed.

Lemma added_ok s p l fd : SInv s -> baseLoop_ p = loop_ s ->
  0 <= next_ p /\ (next_ p < Z.of_nat (length (loops_ p)) \/ loops_ p = []) ->
  SInv_but (Some (l, TEstablish (length (conns s)))) (added s p l fd).
Proof.
  intros I Hb Hnext. set (c := length (conns s)). set (s2 := added s p l fd).
  set (i := mkInfo (connName (name_ s) (nextConnId_ s)) l fd New).
  assert (Hpend : forall l' t', pends (Some (l, TEstablish c)) s2 l' t' <->
    pends None s l' t' \/ (l' = l /\ t' = TEstablish c)).
  { intros l' t'. unfold pends; cbn. split; [intros [?|[= <- <-]]; auto|].
    intros [[?|?]|[-> ->]]; auto; discriminate. }
  assert (Hbase : loop_ s2 = loop_ s) by exact Hb.
  constructor; try apply I.
  - exact Hnext.
  - cbn. rewrite length_app, (si_id _ _ I). cbn. lia.
  - intros d j [[-> ->]|[_ Ej]]%snoc_lookup; [cbn; now rewrite (si_id _ _ I)|exact (si_name _ _ I _ _ Ej)].
  - intros l' t' [= <- <-] Hin. refine (no_task_of_new s l (TEstablish c) I _ eq_refl). now left.
  - intros l' t' [Ht|[-> ->]]%Hpend; [now apply added_fits|].
    exists i. split_and!; [apply snoc_lookup; auto|reflexivity..].
  - intros n d. unfold listed. setoid_rewrite Hpend. rewrite Hbase.
    change (conns s2) with (conns s ++ [i]). setoid_rewrite snoc_lookup.
    change (connections_ s2) with (<[c_name i := c]> (connections_ s)).
    rewrite lookup_insert_Some, (si_map _ _ I). split.
    + intros [[<- <-]|[Hne (j & Ej & Hn' & Hl)]]; [exists i; split_and!; auto|].
      exists j. split_and!; [|exact Hn'|destruct Hl as [?|[?|[? ?]]]; auto 6].
      right. split; [|exact Ej]. apply lookup_lt_Some in Ej. lia.
    + intros (j & [[-> ->]|[Hd Ej]] & Hn' & Hl); [now left|]. right. split.
      * intros E. apply (fresh_name s d j I Ej). rewrite Hn', <-E. reflexivity.
      * exists j. split_and!; auto. destruct Hl as [?|[?|[? [?|[_ ?]]]]]; [now left|right; now left| |discriminate].
        do 2 right. auto.
  - intros d j [[-> ->]|[Hd Ej]]%snoc_lookup Hj; apply Hpend; [now right|]. left. exact (si_new _ _ I _ _ Ej Hj).
  - intros d j [[-> ->]|[Hd Ej]]%snoc_lookup Hj; [discriminate|]. setoid_rewrite Hpend. rewrite Hbase.
    destruct (si_closed _ _ I _ _ Ej Hj); auto.
Qed.

Lemma addConnection_ok fd s : SInv s -> nextConnId_ s < INT_MAX -> exists l p,
  addConnection fd s = Done ((length (conns s), l), added s p l fd) /\ baseLoop_ p = loop_ s /\
  SInv_but (Some (l, TEstablish (length (conns s)))) (added s p l fd).
Proof.
  intros I Hmax. unfold addConnection. st_get. rewrite (proj2 (Z.eqb_neq _ _)) by lia. st_modify.
  destruct (si_next _ _ I) as [H0 Hn].
  destruct (getNextLoop_run (threadPool_ s) H0 Hn) as (l & El & _).
  set (n' := if bool_decide _ then _ else _) in El. set (s1 := set_nextId _ s).
  assert (E1 : on_pool getNextLoop s1 = Done (l, set_pool (set_next n' (threadPool_ s)) s1)).
  { unfold on_pool. change (threadPool_ s1) with (threadPool_ s). now rewrite El. }
  st_step E1. do 2 st_modify. exists l, (set_next n' (threadPool_ s)). split_and!; [reflexivity..|].
  apply (added_ok s (set_next n' (threadPool_ s)) l fd I eq_refl). cbn.
  unfold n'. case_bool_decide as Hb; [auto|]. destruct Hn; [|done].
  pose proof (Z.mod_pos_bound (next_ (threadPool_ s) + 1) (Z.of_nat (length (loops_ (threadPool_ s))))). lia.
Qed.

Lemma newConnection_ok fd s : SInv s -> nextConnId_ s < INT_MAX ->
  exists s', newConnection fd s = Done (tt, s') /\ SInv s'.
Proof.
  intros I Hmax. unfold newConnection. st_get. destruct (addConnection_ok fd s I Hmax) as (l & p & E & _ & I').
  st_step E. now apply (server_runInLoop_ok _ l).
Qed.

Lemma server_handleClose_ok c i s : SInv s -> conns s !! c = Some i -> c_phase i = Established ->
  exists s', handleClose c s = Done (tt, s') /\ SInv s'.
Proof.
  intros I Ei Hp. unfold handleClose. st_step (set_phase_ok c Closed i s Ei).
  unfold removeConnection. st_get. set (s1 := with_phase c i Closed s).
  rewrite (si_alive _ _ I : alive s1 = true), bind_ret_l.
  assert (Ei1 : conns s1 !! c = Some (mkInfo (c_name i) (c_loop i) (c_fd i) Closed)).
  { apply (with_phase_lookup c i Closed s c _ Ei). auto. }
  st_step (info_ok c _ s1 Ei1). apply (server_runInLoop_ok (c_loop i) (loop_ s) (TRemove c)).
  assert (Hno : forall l t, pends None s l t -> conn_of t <> c).
  { intros l t Ht Hc. pose proof (si_task _ _ I l t Ht) as Hfit.
    destruct t; cbn in *; subst; repeat match goal with
      | H : exists _, _ |- _ => destruct H
      | H : _ /\ _ |- _ => destruct H
      end; congruence. }
  assert (Hm : connections_ s !! c_name i = Some c).
  { apply (si_map _ _ I). exists i. split_and!; auto. right. now left. }
  apply (phase_change None); auto.
  - intros l t Hne. split; [|intros [?|?]; [now left|discriminate]].
    intros [?|[= <- <-]]; [now left|done].
  - intros l t Hc [Ht|[= <- <-]]; [destruct (Hno l t); [now left|exact Hc]|].
    split; [reflexivity|]. eexists. split_and!; [exact Ei1|reflexivity|exact Hm].
  - intros l t [= <- <-] Hin. refine (Hno (loop_ s) (TRemove c) _ eq_refl). now left.
  - split; [intros _; do 2 right; split; [reflexivity|now right]|auto].
  - discriminate.
  - intros _. left. now right.
Qed.

Lemma server_run_label_ok lb s : SInv s -> enabled lb s -> exists s', run_label lb s = Done (tt, s') /\ SInv s'.
Proof.
  intros I He. destruct lb as [fd|c|l]; cbn in *.
  - now apply newConnection_ok.
  - destruct He as (i & Ei & Hp). now apply (server_handleClose_ok c i).
  - st_get. destruct (queues s l) as [|t q] eqn:Eq; [eauto|]. st_modify.
    apply (server_run_task_ok l). now apply take_functor.
Qed.

Lemma SInv_ready s : ready s -> SInv s.
Proof.
  intros (Ha & Hm & Hc & Hid & Hq & Hn). constructor; auto; try discriminate.
  - rewrite Hid, Hc. reflexivity.
  - intros c i. rewrite Hc. now rewrite lookup_nil.
  - intros l. rewrite Hq. constructor.
  - intros l t [Ht|?]; [|discriminate]. rewrite Hq in Ht. now apply not_elem_of_nil in Ht.
  - intros n c. rewrite Hm, lookup_empty, Hc. split; [discriminate|]. intros (i & Hi & _). now rewrite lookup_nil in Hi.
  - intros c i. rewrite Hc. now rewrite lookup_nil.
  - intros c i. rewrite Hc. now rewrite lookup_nil.
Qed.

Lemma SInv_reachable s : reachable s -> SInv s.
Proof.
  intros (s0 & H0 & Hr). apply SInv_ready in H0. induction Hr as [|s s1 s2 (lb & He & E) _ IH]; [auto|].
  apply IH. destruct (server_run_label_ok lb s H0 He) as (s' & E' & I'). congruence.
Qed.
End Lemmas.

(** ** Properties *)

(** [n] calls of [getNextLoop]. *)
Fixpoint next_loops (n : nat) : ST pool (list loop_id) :=
  match n with
  | O => mret []
  | S n => l ← getNextLoop; ls ← next_loops n; mret (l :: ls)
  end.

Lemma next_loops_run n p : loops_ p <> [] -> 0 <= next_ p < Z.of_nat (length (loops_ p)) ->
  exists ls p', next_loops n p = Done (ls, p') /\ length ls = n /\
    forall k, (k < n)%nat ->
      ls !! k = loops_ p !! Z.to_nat ((next_ p + Z.of_nat k) mod Z.of_nat (length (loops_ p))).
Proof.
  revert p; induction n as [|n IH]; intros p Hne Hr.
  { exists [], p. split_and!; auto. lia. }
  set (len := Z.of_nat (length (loops_ p))) in *.
  destruct (getNextLoop_run p ltac:(lia) ltac:(lia)) as (l & El & Hl). rewrite bool_decide_eq_false_2 in El by done.
  fold len in El. set (p1 := set_next _ p) in El.
  pose proof (Z.mod_pos_bound (next_ p + 1) len ltac:(lia)) as Hb.
  destruct (IH p1) as (ls & p' & E & Hlen & Hk); [exact Hne|exact Hb|].
  exists (l :: ls), p'. cbn [next_loops]. st_step El. st_step E. split_and!; [reflexivity|cbn; lia|].
  intros [|k] Hlt; cbn.
  - rewrite Z.add_0_r, Z.mod_small by lia. destruct (loops_ p) eqn:Eloops; [done|]. now rewrite Hl.
  - rewrite Hk by lia. change (loops_ p1) with (loops_ p). fold len. change (next_ p1) with ((next_ p + 1) mod len).
    do 2 f_equal. rewrite Zplus_mod_idemp_l. f_equal. lia.
Qed.

Lemma startThreads_run startLoop cb l p : for_each l (startThread startLoop cb) p =
  Done (tt, mkPool (baseLoop_ p) (pool_started_ p) (numThreads_ p) (next_ p) (loops_ p ++ map startLoop l)
    (if cb then inited p ++ map startLoop l else inited p)).
Proof.
  revert p; induction l as [|i l IH]; intros p; cbn [for_each map].
  - rewrite !app_nil_r. destruct p, cb; reflexivity.
  - erewrite bind_done by reflexivity. rewrite IH. cbn. destruct cb; now rewrite <-?app_assoc.
Qed.

(** a pool of [n] threads starts every loop once, runs the init callback
    for each (for the base loop if there are none), and then deals connections
    out in turn: the [k]-th goes to thread [k mod n], or to the base loop. *)
Theorem round_robin `{Build} startLoop cb base (n m : nat) :
  exists p, start_pool startLoop cb (setThreadNum_pool (Z.of_nat n) (newPool base)) = Done (tt, p) /\
    inited p = (if cb then getAllLoops p else []) /\
    exists ls p', next_loops m p = Done (ls, p') /\
      forall k, (k < m)%nat -> ls !! k = Some (if (n =? 0)%nat then base else startLoop (k mod n)%nat).
Proof.
  set (p0 := setThreadNum_pool (Z.of_nat n) (newPool base)).
  unfold start_pool. rewrite bind_get. st_step (cassert_true (negb (pool_started_ p0)) p0 eq_refl).
  rewrite bind_modify. st_step (startThreads_run startLoop cb (seq 0 (Z.to_nat (numThreads_ p0)))
    (mkPool base true (Z.of_nat n) 0 [] [])).
  change (numThreads_ p0) with (Z.of_nat n). rewrite Nat2Z.id. cbn [loops_ inited baseLoop_ app].
  destruct n as [|n].
  - set (p := mkPool base true 0 0 [] (if cb then [base] else [])). exists p.
    split; [destruct cb; reflexivity|]. split; [now destruct cb|].
    assert (Hm : exists ls, next_loops m p = Done (ls, p) /\ length ls = m /\ forall x, x ∈ ls -> x = base).
    { induction m as [|m (ls & E & Hl & Hx)]; [exists []; split_and!; auto; now intros x ?%not_elem_of_nil|].
      exists (base :: ls). cbn [next_loops]. rewrite (bind_done getNextLoop _ p base p eq_refl).
      st_step E. split_and!; [reflexivity|cbn; lia|]. intros x [->|]%elem_of_cons; auto. }
    destruct Hm as (ls & E & Hl & Hx). exists ls, p. split; [exact E|]. intros k Hk. cbn [Nat.eqb].
    destruct (ls !! k) as [x|] eqn:Ek; [|apply lookup_ge_None in Ek; lia].
    rewrite (Hx x); [reflexivity|]. apply list_elem_of_lookup. eauto.
  - set (loops := map startLoop (seq 0 (S n))).
    set (p := mkPool base true (Z.of_nat (S n)) 0 loops (if cb then loops else [])). exists p.
    split; [reflexivity|]. split; [destruct cb; reflexivity|].
    assert (Hlen : length loops = S n) by (unfold loops; now rewrite length_map, length_seq).
    destruct (next_loops_run m p) as (ls & p' & E & _ & Hk); [discriminate|cbn [next_ loops_ p]; lia|].
    exists ls, p'. split; [exact E|]. intros k Hlt. rewrite (Hk k Hlt). cbn [loops_ next_ p Nat.eqb].
    rewrite Hlen, Z.add_0_l, <-Nat2Z.inj_mod, Nat2Z.id. unfold loops.
    pose proof (Nat.mod_upper_bound k (S n) ltac:(lia)) as Hmod.
    rewrite list_lookup_fmap, lookup_seq_lt by lia. reflexivity.
Qed.

(** the tear-down protocol between the server, the close callback and the
    loops holds for every interleaving of the loops' work: connecting, closing
    and running any queued functor never fails, in particular the name of a
    closed connection is always found in the map, and each connection is
    established and destroyed by the functor sent to its own loop. *)
Theorem server_protocol_safe `{Build} (s : server) (lb : label) :
  reachable s -> enabled lb s ->
  exists s', run_label lb s = Done (tt, s') /\ reachable s' /\
    forall l t, t ∈ queues s' l -> task_fits s' l t.
Proof.
  intros Hr He. pose proof (SInv_reachable s Hr) as I.
  destruct (server_run_label_ok lb s I He) as (s' & E & I'). exists s'. split; [exact E|]. split.
  - destruct Hr as (s0 & H0 & Hr). exists s0. split; [exact H0|]. eapply rtc_r; [exact Hr|]. now exists lb.
  - intros l t Ht. apply (si_task _ _ I'). now left.
Qed.

(** nothing leaks and names are unique.  When the loops' queues are empty
    the server knows exactly the open connections, each under its own name, and
    every other connection has been destroyed. *)
Theorem server_knows_open_connections `{Build} (s : server) :
  reachable s -> (forall l, queues s l = []) ->
  (forall n c, connections_ s !! n = Some c <->
     exists i, conns s !! c = Some i /\ c_name i = n /\ c_phase i = Established) /\
  (forall c i, conns s !! c = Some i -> c_phase i = Established \/ c_phase i = Destroyed) /\
  (forall c d i j, conns s !! c = Some i -> conns s !! d = Some j -> c_name i = c_name j -> c = d).
Proof.
  intros I%SInv_reachable Hq.
  assert (Hno : forall l t, ~ pends None s l t).
  { intros l t [Ht|?]; [|discriminate]. rewrite Hq in Ht. now apply not_elem_of_nil in Ht. }
  assert (Hnew : forall c i, conns s !! c = Some i -> c_phase i <> New).
  { intros c i Hi Hp. exact (Hno _ _ (si_new _ _ I _ _ Hi Hp)). }
  split_and!.
  - intros n c. rewrite (si_map _ _ I). split; intros (i & Hi & Hn & Hl); exists i; split_and!; auto.
    + destruct Hl as [Hp|[?|[_ Hp]]]; [now apply (Hnew _ _ Hi) in Hp|done|now apply Hno in Hp].
    + right. now left.
  - intros c i Hi. destruct (c_phase i) eqn:Ep; auto.
    + now apply (Hnew _ _ Hi) in Ep.
    + destruct (si_closed _ _ I _ _ Hi Ep) as [Ht|Ht]; now apply Hno in Ht.
  - intros c d i j. apply (same_name_same_conn None s c d i j I).
Qed.

(** ** Concrete inputs *)

Module Demo.
#[local] Existing Instance debug_build.

Definition startLoop (i : nat) : loop_id := S i.

(** A server with two I/O threads; three clients. *)
Definition started : server :=
  match (_ ← setThreadNum 2; start startLoop true) (newServer 0%nat "echo") with
  | Done (_, s) => s | Fail _ => newServer 0%nat "echo" end.

Definition run_all (ls : list label) : server :=
  match for_each ls run_label started with Done (_, s) => s | Fail _ => started end.

Definition one : server := run_all [Accept 7].
Definition open : server := run_all [Accept 7; Functor 1%nat].
Definition closed : server := run_all [Accept 7; Functor 1%nat; Close 0%nat].
Definition unlisted : server := run_all [Accept 7; Functor 1%nat; Close 0%nat; Functor 0%nat].
Definition gone : server :=
  run_all [Accept 7; Functor 1%nat; Close 0%nat; Functor 0%nat; Functor 1%nat].

Lemma started_ready : ready started.
Proof.
  split_and!; [reflexivity..|intros l; reflexivity|vm_compute; discriminate|left; reflexivity].
Qed.

Lemma server_reach s lb s' : reachable s -> enabled lb s -> run_label lb s = Done (tt, s') -> reachable s'.
Proof.
  intros (s0 & H0 & Hr) He E. exists s0. split; [exact H0|]. eapply rtc_r; [exact Hr|]. now exists lb.
Qed.

Lemma one_reachable : reachable one.
Proof.
  apply (server_reach started (Accept 7)); [|reflexivity|vm_compute; reflexivity].
  exists started. split; [exact started_ready|constructor].
Qed.
Lemma open_reachable : reachable open.
Proof. apply (server_reach one (Functor 1%nat)); [exact one_reachable|exact I|vm_compute; reflexivity]. Qed.
Lemma closed_reachable : reachable closed.
Proof.
  apply (server_reach open (Close 0%nat)); [exact open_reachable| |vm_compute; reflexivity].
  eexists. split; [vm_compute; reflexivity|reflexivity].
Qed.
Lemma gone_reachable : reachable gone.
Proof.
  apply (server_reach unlisted (Functor 1%nat)); [|exact I|vm_compute; reflexivity].
  apply (server_reach closed (Functor 0%nat)); [exact closed_reachable|exact I|vm_compute; reflexivity].
Qed.

Lemma server_protocol_safe_witness : exists s', run_label (Functor 0%nat) closed = Done (tt, s') /\ reachable s'.
Proof.
  destruct (server_protocol_safe closed (Functor 0%nat) closed_reachable I) as (s' & E & Hr & _). eauto.
Defined.

Lemma server_knows_open_connections_witness :
  (forall l, queues gone l = []) /\
  (forall c i, conns gone !! c = Some i -> c_phase i = Established \/ c_phase i = Destroyed).
Proof.
  assert (Hq : forall l, queues gone l = []) by (intros [|[|l]]; reflexivity).
  split; [exact Hq|].
  exact (proj1 (proj2 (server_knows_open_connections gone gone_reachable Hq))).
Defined.

(** A connection that closes after [~TcpServer] has run, before its own loop has
    destroyed it, calls back into the freed server. *)
Lemma close_after_server_destroyed :
  match destroyServer open with
  | Done (_, s) => run_label (Close 0%nat) s = Fail UndefinedBehaviour
  | Fail _ => False
  end.
Proof. vm_compute. reflexivity. Qed.
End Demo.
