(* ===== verification/ServerSystem.v ===== *)
(** ServerSystem: a TcpServer with its TcpConnections, [net/TcpServer.cpp] over
    [net/TcpConnection.cpp].

    TcpServer.v knows of a connection only its part of the protocol, and
    TcpConnection.v assumes of the server that it establishes and destroys a
    connection when it may.  Here the two run together: the functors of the server
    call the members of the connections, and the end of a connection calls the
    server.  The theorems discharge what each of the two files assumes of the
    other.  The last part is the destructor of the server, after which only the
    functors it queued run. *)

From Stdlib Require Import ZArith Lia.
From Stdlib Require Import Init.Byte.
From stdpp Require Import pretty.
From S2P Require Import Prelude Buffer Poller ChannelApi TcpConnection TcpServer.

Local Open Scope Z_scope.

Section System.
Context {L : Type} `{HC : ChannelApi L} `{HL : !ChannelLaws L} `{HB : Build}.
Context (kernel_write : nat -> list byte -> write_result) (user : event -> conn L -> list op).
(* which events the surroundings of a connection may cause, and how a connection
   object starts *)
Context (permitted : TcpConnection.label -> Prop) (born : conn L -> Prop).
Abbreviation conn := (conn L).

(** The server, and the connection objects in the order of their creation. *)
Record system := mkSystem { srv : server; objs : list conn }.
Implicit Types (y : system) (c : conn_id) (x : conn).

Definition on_server {A} (m : ST server A) : ST system A := fun y =>
  match m (srv y) with Done (a, s) => Done (a, mkSystem s (objs y)) | Fail f => Fail f end.

Definition on_conn c (m : ST conn unit) : ST system unit := fun y =>
  match objs y !! c with
  | None => Fail UndefinedBehaviour
  | Some x => match m x with Done (_, x') => Done (tt, mkSystem (srv y) (<[c := x']> (objs y))) | Fail f => Fail f end
  end.

(** A functor of the server that carries a connection, run by a loop. *)
Definition run_task (t : TcpServer.task) : ST system unit :=
  _ ← match t with
      | TEstablish c => on_conn c (TcpConnection.connectEstablished kernel_write user)
      | TDestroy c => on_conn c (TcpConnection.connectDestroyed kernel_write user)
      | TRemove _ => mret tt
      end;
  on_server (TcpServer.run_task t).

Definition runInLoop (caller l : loop_id) (t : TcpServer.task) : ST system unit :=
  if decide (caller = l) then run_task t else on_server (TcpServer.queueInLoop l t).

(** [newConnection]; [x] is the object that [make_shared] constructs. *)
Definition newConnection (sockfd : Z) x : ST system unit :=
  y ← get;
  r ← on_server (addConnection sockfd);
  _ ← modify (fun y => mkSystem (srv y) (objs y ++ [x]));
  runInLoop (loop_ (srv y)) (snd r) (TEstablish (fst r)).

(** Something happens to a connection, on its loop.  The close callback, the last
    thing that [handleClose] calls, is [removeConnection] of the server. *)
Definition happens c (l : TcpConnection.label) : ST system unit :=
  y ← get;
  x ← deref (objs y !! c);
  _ ← on_conn c (TcpConnection.run_label kernel_write user l);
  y' ← get;
  x' ← deref (objs y' !! c);
  when (negb (closed x) && closed x') (on_server (TcpServer.handleClose c)).

(** One connection of the loop in [~TcpServer], and the destructor. *)
Definition release (e : string * conn_id) : ST system unit :=
  i ← on_server (info (snd e));
  y ← get;
  runInLoop (loop_ (srv y)) (c_loop i) (TDestroy (snd e)).

Definition destroyServer : ST system unit :=
  y ← get;
  _ ← for_each (map_to_list (connections_ (srv y))) release;
  _ ← on_server (modify (set_connections ∅));
  on_server (modify set_dead).

(** ** Steps *)

Inductive label :=
  | Accept (sockfd : Z) (x : conn)                (* the acceptor's event *)
  | Event (c : conn_id) (l : TcpConnection.label) (* an event, a call or a functor of a connection *)
  | Functor (l : loop_id).                        (* a functor of the server in a loop *)

Definition run_label (lb : label) : ST system unit :=
  match lb with
  | Accept fd x => newConnection fd x
  | Event c l => happens c l
  | Functor l =>
      y ← get;
      match queues (srv y) l with
      | [] => mret tt
      | t :: q => _ ← on_server (modify (set_queue l q)); run_task t
      end
  end.

(** The members that only the server calls. *)
Definition by_server (l : TcpConnection.label) : Prop := l = LEstablish \/ l = LDestroy.

(** Nothing is assumed about the functors of the server. *)
Definition enabled (lb : label) y : Prop :=
  match lb with
  | Accept _ x => nextConnId_ (srv y) < INT_MAX /\ born x
  | Event c l => exists x, objs y !! c = Some x /\ permitted l /\ ~ by_server l /\ TcpConnection.enabled l x
  | Functor _ => True
  end.

Definition step y y' : Prop := exists lb, enabled lb y /\ run_label lb y = Done (tt, y').

Definition reachable y : Prop := exists s0, ready s0 /\ rtc step (mkSystem s0 []) y.

(** The same connection on its own. *)
Definition conn_step x x' : Prop := exists l, (by_server l \/ permitted l) /\ TcpConnection.enabled l x /\
  TcpConnection.run_label kernel_write user l x = Done (tt, x').
Definition conn_reachable x : Prop := exists x0, born x0 /\ rtc conn_step x0 x.

(** ** The two views of a connection *)

Definition fits (p : cphase) x : Prop :=
  match p with
  | New => state_ x = kConnecting
  | Established => live x = true
  | TcpServer.Closed => state_ x = kDisconnected /\ removed x = false
  | Destroyed => state_ x = kDisconnected /\ removed x = true
  end.

Definition agree (i : conn_info) x : Prop := conn_reachable x /\ fits (c_phase i) x.

(** [h]: a functor of the server in hand, as in TcpServer.v. *)
Record Sys h y : Prop := {
  sys_server : SInv_but h (srv y);
  sys_conns : Forall2 agree (conns (srv y)) (objs y);
}.

(* the discipline of the user, whose operations in the close callback, which is
   the server's, are none *)
Hypothesis kernel_write_law : forall k d n, kernel_write k d = Wrote n -> (n <= length d)%nat.
Hypothesis user_allowed : forall e x o, CInv x -> o ∈ user e x -> allowed o x.
Hypothesis born_fresh : forall x, born x -> fresh x.

Lemma conn_reachable_reachable x : conn_reachable x -> TcpConnection.reachable kernel_write user x.
Proof.
  intros (x0 & Hb & Hr). exists x0. split; [now apply born_fresh|]. eapply rtc_subrel; [|exact Hr].
  intros a b (l & _ & He & E). now exists l.
Qed.

Lemma conn_reachable_CInv x : conn_reachable x -> CInv x.
Proof. intros Hr%conn_reachable_reachable. now apply (CInv_reachable kernel_write kernel_write_law user user_allowed). Qed.

(** A connection that is over and whose reading was not stopped. *)
Lemma gone_unwatched x : conn_reachable x -> state_ x = kDisconnected -> reading_ x = true -> ch_watched (channel_ x) = false.
Proof. intros I%conn_reachable_CInv Hs Hr. pose proof (ci_watch _ _ I) as W. rewrite Hs in W. exact (W Hr). Qed.

(** A step of a connection in the system. *)
Lemma on_conn_runs c l x y : objs y !! c = Some x -> conn_reachable x -> TcpConnection.enabled l x -> by_server l \/ permitted l ->
  runs (on_conn c (TcpConnection.run_label kernel_write user l)) y (fun _ y' => exists x',
    y' = mkSystem (srv y) (<[c := x']> (objs y)) /\ conn_reachable x' /\ effect l x x').
Proof.
  intros Ex Hr He Hp. unfold on_conn.
  destruct (run_label_ok kernel_write kernel_write_law user user_allowed l x (conn_reachable_CInv x Hr) He) as [([] & x' & E & _ & Hf)|E].
  - left. eexists tt, _. rewrite Ex, E. split; [reflexivity|]. exists x'. split_and!; [done| |exact Hf].
    destruct Hr as (x0 & Hb & Hr). exists x0. split; [exact Hb|]. eapply rtc_r; [exact Hr|]. exists l. tauto.
  - right. now rewrite Ex, E.
Qed.

Lemma deref_some {A} (o : option A) a y : o = Some a -> deref o y = Done (a, y).
Proof. now intros ->. Qed.

Lemma on_server_done {A} (m : ST server A) y a s : m (srv y) = Done (a, s) -> on_server m y = Done (a, mkSystem s (objs y)).
Proof. intros E. unfold on_server. now rewrite E. Qed.

(** What the server's operations do to its view of the connections. *)
Lemma removeConnectionInLoop_conns c s s' : removeConnectionInLoop c s = Done (tt, s') -> conns s' = conns s.
Proof.
  unfold removeConnectionInLoop. rewrite bind_get. destruct (alive s); [|done]. rewrite bind_ret_l.
  unfold info. rewrite bind_assoc, bind_get. destruct (conns s !! c) as [i|]; [|done]. cbn [deref]. rewrite bind_ret_l, bind_modify.
  intros ([] & s1 & ->%cassert_inv & E)%bind_inv. now injection E as <-.
Qed.

Lemma handleClose_conns c i s s' : conns s !! c = Some i -> handleClose c s = Done (tt, s') ->
  conns s' = conns (with_phase c i TcpServer.Closed s).
Proof.
  intros Ei. unfold handleClose. rewrite (bind_done _ _ _ _ _ (set_phase_ok c TcpServer.Closed i s Ei)).
  unfold removeConnection. rewrite bind_get. set (s1 := with_phase _ _ _ s). destruct (alive s1); [|done]. rewrite bind_ret_l.
  intros (j & s2 & E & E')%bind_inv. unfold info in E. rewrite bind_get in E. destruct (conns s1 !! c); [|done].
  injection E as _ <-. unfold TcpServer.runInLoop in E'. destruct (decide _).
  - now apply removeConnectionInLoop_conns in E'.
  - now injection E' as <-.
Qed.

Lemma agree_change c j x' y s : Forall2 agree (conns (srv y)) (objs y) -> conns s = <[c := j]> (conns (srv y)) ->
  agree j x' -> Forall2 agree (conns s) (<[c := x']> (objs y)).
Proof. intros HF -> Ha. now apply Forall2_insert. Qed.

Lemma run_task_runs l t y : Sys (Some (l, t)) y -> runs (run_task t) y (fun _ y' => Sys None y').
Proof.
  intros [I HF]. pose proof (si_task _ _ I l t ltac:(now right)) as Hfit. unfold run_task. destruct t as [c|c|c]; cbn in Hfit.
  - destruct Hfit as (i & Ei & Hp & ->). destruct (Forall2_lookup_l _ _ _ _ _ HF Ei) as (x & Ex & Hr & Hs). rewrite Hp in Hs.
    eapply runs_bind; [apply (on_conn_runs c LEstablish x y Ex Hr Hs); left; now left|].
    intros [] y1 (x' & -> & Hr' & Hl). destruct (establish_ok _ c _ I) as (s' & E & I').
    eapply runs_done; [apply on_server_done; exact E|]. split; [exact I'|]. cbn [srv objs]. unfold connectEstablished in E.
    rewrite (bind_done _ _ _ _ _ (info_ok c i _ Ei)) in E. apply bind_inv in E as ([] & s1 & ->%cassert_inv & E).
    rewrite (set_phase_ok c _ i _ Ei) in E. injection E as <-. eapply agree_change; [exact HF|reflexivity|]. now split.
  - eapply runs_step; [reflexivity|]. destruct (remove_ok _ c _ I) as (s' & E & I').
    eapply runs_done; [apply on_server_done; exact E|]. split; [exact I'|]. cbn [srv objs].
    now rewrite (removeConnectionInLoop_conns _ _ _ E).
  - destruct Hfit as (i & Ei & Hp & -> & _). destruct (Forall2_lookup_l _ _ _ _ _ HF Ei) as (x & Ex & Hr & Hs). rewrite Hp in Hs.
    eapply runs_bind; [apply (on_conn_runs c LDestroy x y Ex Hr); [destruct Hs; cbn; auto|left; now right]|].
    intros [] y1 (x' & -> & Hr' & Hd). destruct (destroy_ok _ c _ I) as (s' & E & I').
    eapply runs_done; [apply on_server_done; exact E|]. split; [exact I'|]. cbn [srv objs]. unfold connectDestroyed in E.
    rewrite (set_phase_ok c _ i _ Ei) in E. injection E as <-. eapply agree_change; [exact HF|reflexivity|]. now split.
Qed.

Lemma runInLoop_runs caller l t y : Sys (Some (l, t)) y -> runs (runInLoop caller l t) y (fun _ y' => Sys None y').
Proof.
  intros Y. unfold runInLoop. destruct (decide (caller = l)); [now apply (run_task_runs l)|]. destruct Y as [I HF].
  destruct (queueInLoop_ok l t _ I) as (s' & E & I'). eapply runs_done; [apply on_server_done; exact E|].
  split; [exact I'|]. now injection E as <-.
Qed.

Lemma newConnection_runs fd x y : Sys None y -> nextConnId_ (srv y) < INT_MAX -> born x ->
  runs (newConnection fd x) y (fun _ y' => Sys None y').
Proof.
  intros [I HF] Hmax Hb. unfold newConnection. r_get. destruct (addConnection_ok fd _ I Hmax) as (l & p & E & _ & I').
  r_step (on_server_done _ y _ _ E). r_modify. apply runInLoop_runs. split; [exact I'|]. cbn [srv objs].
  apply Forall2_app; [exact HF|]. repeat constructor; [exists x; split; [exact Hb|constructor]|].
  destruct (born_fresh x Hb) as [(ch & i & o & cb & -> & _)]. reflexivity.
Qed.

(** An event keeps the phase the server knows, or is the end of an open connection. *)
Lemma fits_kept p x x' : kept x x' -> fits p x -> fits p x'.
Proof.
  intros [] Hf. destruct p; cbn in *.
  - rewrite k_dead; [exact Hf|]. apply not_live_iff. auto.
  - congruence.
  - rewrite k_dead, k_removed; [exact Hf|]. apply not_live_iff. tauto.
  - rewrite k_dead, k_removed; [exact Hf|]. apply not_live_iff. tauto.
Qed.

Lemma live_established p x : fits p x -> live x = true -> p = Established.
Proof.
  intros Hf Hl. destruct p; auto; cbn in Hf; apply live_iff in Hl; destruct Hl; intuition congruence.
Qed.

Lemma happens_runs c l x y : Sys None y -> objs y !! c = Some x -> permitted l -> ~ by_server l -> TcpConnection.enabled l x ->
  runs (happens c l) y (fun _ y' => Sys None y').
Proof.
  intros [I HF] Ex Hp Hns He. destruct (Forall2_lookup_r _ _ _ _ _ HF Ex) as (i & Ei & Hr & Hs).
  unfold happens. r_get. r_step (deref_some _ x y Ex).
  eapply runs_bind; [apply (on_conn_runs c l x y Ex Hr He); now right|].
  intros [] y1 (x' & -> & Hr' & Hf). r_get. cbn [objs].
  r_step (deref_some (<[c := x']> (objs y) !! c) x' (mkSystem (srv y) (<[c := x']> (objs y))) (list_lookup_insert_eq _ _ _ (lookup_lt_Some _ _ _ Ex))).
  assert (Hf' : kept x x' \/ ended x x') by (destruct l; try exact Hf; destruct Hns; [now left|now right]).
  destruct Hf' as [K|[Hl Hd Hrm [Hc Hc']]].
  - rewrite (k_closed _ _ K). destruct (closed x); cbn [negb andb when]; apply runs_ret; (split; [exact I|]); cbn [srv objs];
      (apply (agree_change c i x' y); [exact HF|symmetry; now apply list_insert_id|split; [exact Hr'|now apply (fits_kept _ x)]]).
  - rewrite Hc, Hc'. cbn [negb andb when]. pose proof (live_established _ _ Hs Hl) as Hph.
    destruct (server_handleClose_ok c i _ I Ei Hph) as (s' & E & I'). eapply runs_done; [apply on_server_done; exact E|].
    split; [exact I'|]. cbn [srv objs]. eapply agree_change; [exact HF|exact (handleClose_conns c i _ _ Ei E)|]. now split.
Qed.

Lemma system_run_label_runs lb y : Sys None y -> enabled lb y -> runs (run_label lb) y (fun _ y' => Sys None y').
Proof.
  intros Y He. destruct lb as [fd x|c l|l]; cbn [run_label enabled] in *.
  - destruct He. now apply newConnection_runs.
  - destruct He as (x & Ex & Hp & Hns & He). now apply (happens_runs c l x).
  - r_get. destruct (queues (srv y) l) as [|t q] eqn:Eq; [now apply runs_ret|]. destruct Y as [I HF].
    refine (runs_step _ _ _ _ _ _ (on_server_done (modify (set_queue l q)) y tt (set_queue l q (srv y)) eq_refl) _). cbv beta.
    apply (run_task_runs l). split; [|exact HF]. now apply take_functor.
Qed.

Lemma Sys_step y y' : Sys None y -> step y y' -> Sys None y'.
Proof.
  intros Y (lb & He & E). destruct (system_run_label_runs lb y Y He) as [([] & y1 & E' & Y')|E']; congruence.
Qed.

Lemma Sys_steps y y' : rtc step y y' -> Sys None y -> Sys None y'.
Proof. induction 1; eauto using Sys_step. Qed.

Lemma Sys_start s : ready s -> Sys None (mkSystem s []).
Proof. intros H0. split; [now apply SInv_ready|]. cbn. destruct H0 as (_ & _ & -> & _). constructor. Qed.

Lemma Sys_reachable y : reachable y -> Sys None y.
Proof. intros (s0 & H0 & Hr). exact (Sys_steps _ _ Hr (Sys_start s0 H0)). Qed.

Lemma reachable_next y lb y' : reachable y -> enabled lb y -> run_label lb y = Done (tt, y') -> reachable y'.
Proof.
  intros (s0 & H0 & Hr) He E. exists s0. split; [exact H0|]. eapply rtc_r; [exact Hr|]. now exists lb.
Qed.

(** ** The end of the server *)

Definition down x : Prop := state_ x = kDisconnected /\ removed x = true.
Definition destroyable x : Prop := removed x = false /\ (state_ x = kConnected \/ state_ x = kDisconnected).

(** [todo]: connections whose [connectDestroyed] is in hand. *)
Definition pending (todo : list conn_id) y c (i : conn_info) : Prop :=
  c ∈ todo \/ TDestroy c ∈ queues (srv y) (c_loop i).

Record Dying (todo : list conn_id) y : Prop := {
  dy_todo : NoDup todo /\ forall c, c ∈ todo -> exists i, conns (srv y) !! c = Some i /\ TDestroy c ∉ queues (srv y) (c_loop i);
  dy_queue l t : t ∈ queues (srv y) l -> exists c i, t = TDestroy c /\ conns (srv y) !! c = Some i /\ c_loop i = l;
  dy_nodup l : NoDup (queues (srv y) l);
  dy_conn c i : conns (srv y) !! c = Some i -> exists x, objs y !! c = Some x /\ conn_reachable x /\
    (pending todo y c i /\ destroyable x \/ ~ pending todo y c i /\ down x);
  dy_length : length (objs y) = length (conns (srv y));
}.

(** The functor goes into the queue of the connection's loop. *)
Lemma Dying_queue c todo y i : Dying (c :: todo) y -> conns (srv y) !! c = Some i ->
  Dying todo (mkSystem (set_queue (c_loop i) (queues (srv y) (c_loop i) ++ [TDestroy c]) (srv y)) (objs y)).
Proof.
  intros [[[Hc Hnd]%NoDup_cons Ht] Hq Hn Hx Hl] Ei. destruct (Ht c ltac:(left)) as (i0 & Ei0 & Hnq). assert (i0 = i) as -> by congruence.
  assert (Hpend : forall d j, conns (srv y) !! d = Some j ->
    pending todo (mkSystem (set_queue (c_loop i) (queues (srv y) (c_loop i) ++ [TDestroy c]) (srv y)) (objs y)) d j <-> pending (c :: todo) y d j).
  { intros d j Ej. unfold pending. cbn. rewrite elem_of_cons. case_decide as Hd.
    - rewrite elem_of_app, list_elem_of_singleton, Hd. split; [intros [?|[?|[= ->]]]; auto|]. intros [[->|?]|?]; auto.
    - split; [intros [?|?]; auto|]. intros [[->|?]|?]; auto. congruence. }
  constructor; cbn.
  - split; [exact Hnd|]. intros d Hd. destruct (Ht d ltac:(now right)) as (j & Ej & Hj). exists j. split; [exact Ej|].
    case_decide as Hdl; [|exact Hj]. rewrite elem_of_app, list_elem_of_singleton, <-Hdl. intros [?|[= ->]]; done.
  - intros l t. case_decide as Hd; [|apply Hq]. rewrite elem_of_app, list_elem_of_singleton. intros [Hin| ->].
    + rewrite Hd. now apply Hq.
    + now exists c, i.
  - intros l. case_decide as Hd; [|apply Hn]. apply NoDup_app. split_and!; [apply Hn| |apply NoDup_singleton].
    intros t Hin ->%list_elem_of_singleton. done.
  - intros d j Ej. destruct (Hx d j Ej) as (x & Ex & Hr & Hst). exists x. rewrite Hpend by done. auto.
  - exact Hl.
Qed.

(** It is taken from there. *)
Lemma Dying_take l c q todo y : Dying todo y -> queues (srv y) l = TDestroy c :: q ->
  Dying (c :: todo) (mkSystem (set_queue l q (srv y)) (objs y)).
Proof.
  intros [[Hnd Ht] Hq Hn Hx Hl] Eq. pose proof (Hn l) as Hnl. rewrite Eq in Hnl. apply NoDup_cons in Hnl as [Hcq Hnq].
  destruct (Hq l (TDestroy c) ltac:(rewrite Eq; left)) as (c' & i & [= <-] & Ei & Hil).
  assert (Hpend : forall d j, conns (srv y) !! d = Some j ->
    pending (c :: todo) (mkSystem (set_queue l q (srv y)) (objs y)) d j <-> pending todo y d j).
  { intros d j Ej. unfold pending. cbn. rewrite elem_of_cons. case_decide as Hd.
    - rewrite Hd, Eq, elem_of_cons. split; [intros [[->|?]|?]; auto|]. intros [?|[[= ->]|?]]; auto.
    - split; [|intros [?|?]; auto]. intros [[->|?]|?]; auto. congruence. }
  constructor; cbn.
  - split.
    + apply NoDup_cons. split; [|exact Hnd]. intros Hin. destruct (Ht c Hin) as (j & Ej & Hj). assert (j = i) as -> by congruence.
      rewrite Hil, Eq in Hj. apply Hj. left.
    + intros d [->|Hd]%elem_of_cons.
      * exists i. split; [exact Ei|]. now rewrite decide_True by exact Hil.
      * destruct (Ht d Hd) as (j & Ej & Hj). exists j. split; [exact Ej|]. case_decide as Hdl; [|exact Hj].
        rewrite Hdl, Eq in Hj. intros Hin. apply Hj. now right.
  - intros l' t. case_decide as Hd; [|apply Hq]. intros Hin. rewrite Hd. apply Hq. rewrite Eq. now right.
  - intros l'. case_decide; [exact Hnq|apply Hn].
  - intros d j Ej. destruct (Hx d j Ej) as (x & Ex & Hr & Hst). exists x. rewrite Hpend by done. auto.
  - exact Hl.
Qed.

(** The loops of the connections. *)
Definition homes y : list loop_id := c_loop <$> conns (srv y).

(** It runs. *)
Lemma destroy_runs c todo y : Dying (c :: todo) y ->
  runs (run_task (TDestroy c)) y (fun _ y' => Dying todo y' /\ homes y' = homes y /\ queues (srv y') = queues (srv y)).
Proof.
  intros D. destruct D as [[[Hc Hnd]%NoDup_cons Ht] Hq Hn Hx Hl]. destruct (Ht c ltac:(left)) as (i & Ei & Hnq).
  destruct (Hx c i Ei) as (x & Ex & Hr & [[_ Hd]|[Hno _]]); [|destruct Hno; left; left].
  unfold run_task. eapply runs_bind; [apply (on_conn_runs c LDestroy x y Ex Hr Hd); left; now right|].
  intros [] y1 (x' & -> & Hr' & Hdown). cbn [TcpServer.run_task effect] in *.
  set (i' := mkInfo (c_name i) (c_loop i) (c_fd i) Destroyed).
  eapply runs_done; [apply on_server_done; exact (set_phase_ok c Destroyed i _ Ei)|].
  split; [|split; [unfold homes; cbn; rewrite list_fmap_insert; apply list_insert_id; rewrite list_lookup_fmap; exact (f_equal (fmap c_loop) Ei)|reflexivity]].
  assert (Hlook : forall d j, <[c := i']> (conns (srv y)) !! d = Some j ->
    d = c /\ j = i' \/ d <> c /\ conns (srv y) !! d = Some j).
  { intros d j Hj. destruct (decide (d = c)) as [->|Hne]; [left|right].
    - rewrite list_lookup_insert_eq in Hj by (now apply lookup_lt_Some in Ei). split; congruence.
    - rewrite list_lookup_insert_ne in Hj by done. auto. }
  constructor; cbn.
  - split; [exact Hnd|]. intros d Hd'. destruct (Ht d ltac:(now right)) as (j & Ej & Hj). exists j. split; [|exact Hj].
    rewrite list_lookup_insert_ne by (intros ->; done). exact Ej.
  - intros l t Hin. destruct (Hq l t Hin) as (d & j & -> & Ej & Hj). destruct (decide (d = c)) as [->|Hne].
    + exists c, i'. rewrite list_lookup_insert_eq by (now apply lookup_lt_Some in Ei). split_and!; [done..|]. cbn. congruence.
    + exists d, j. now rewrite list_lookup_insert_ne by done.
  - exact Hn.
  - intros d j [[-> ->]|[Hne Ej]]%Hlook.
    + exists x'. rewrite list_lookup_insert_eq by (now apply lookup_lt_Some in Ex). split_and!; [done..|]. right. split; [|exact Hdown].
      intros [?|?]; [done|]. now apply Hnq.
    + destruct (Hx d j Ej) as (z & Ez & Hz & Hst). exists z. rewrite list_lookup_insert_ne by done. split_and!; [done..|].
      unfold pending in *. cbn in *. rewrite elem_of_cons in Hst. destruct Hst as [[[[->|?]|?] ?]|[Hno ?]]; [done|auto..].
      right. split; [|done]. intros [?|?]; apply Hno; auto.
  - now rewrite !length_insert.
Qed.

Lemma release_runs es y : Dying es.*2 y -> runs (for_each es release) y (fun _ y' => Dying [] y' /\ homes y' = homes y).
Proof.
  revert y; induction es as [|[n c] es IH]; intros y D; [now apply runs_ret|]. cbn [for_each fmap list_fmap snd] in *.
  destruct (proj2 (dy_todo _ _ D) c ltac:(left)) as (i & Ei & _).
  apply (runs_bind _ _ _ (fun _ y' => Dying es.*2 y' /\ homes y' = homes y)).
  - unfold release. r_step (on_server_done _ y _ _ (info_ok c i _ Ei)). replace (mkSystem (srv y) (objs y)) with y by now destruct y.
    r_get. unfold runInLoop. case_decide.
    + eapply runs_weaken; [exact (destroy_runs c es.*2 y D)|]. intros [] y' (D' & Hh & _). split; [exact D'|exact Hh].
    + eapply runs_done; [now apply on_server_done|]. split; [exact (Dying_queue c es.*2 y i D Ei)|reflexivity].
  - intros [] y1 [D1 H1]. eapply runs_weaken; [now apply IH|]. intros [] y2 [D2 H2]. split; [exact D2|congruence].
Qed.

(** Running functors of the loops [ls]. *)
Definition run_functors (ls : list loop_id) : ST system unit := for_each ls (fun l => run_label (Functor l)).
Definition times (l : loop_id) (ls : list loop_id) : nat := length (base.filter (.= l) ls).

Lemma functors_run ls y : Dying [] y -> runs (run_functors ls) y (fun _ y' => Dying [] y' /\ homes y' = homes y /\
  forall l, queues (srv y') l = drop (times l ls) (queues (srv y) l)).
Proof.
  revert y; induction ls as [|l ls IH]; intros y D; [now apply runs_ret|]. cbn [run_functors for_each].
  assert (Hone : runs (run_label (Functor l)) y (fun _ y' => Dying [] y' /\ homes y' = homes y /\
    forall l', queues (srv y') l' = if decide (l' = l) then drop 1 (queues (srv y) l') else queues (srv y) l')).
  { cbn [run_label]. r_get. destruct (queues (srv y) l) as [|t q] eqn:Eq.
    - apply runs_ret. split_and!; [exact D|reflexivity|]. intros l'. case_decide as Hd; [|reflexivity]. now rewrite Hd, Eq.
    - destruct (dy_queue _ _ D l t ltac:(rewrite Eq; left)) as (c & i & -> & _ & _).
      refine (runs_step _ _ _ _ _ _ (on_server_done (modify (set_queue l q)) y tt (set_queue l q (srv y)) eq_refl) _). cbv beta.
      eapply runs_weaken; [apply (destroy_runs c []); now apply (Dying_take l c q [] y)|].
      intros [] y' (D' & Hh & Hqs). split_and!; [exact D'|exact Hh|]. intros l'. rewrite Hqs. cbn. case_decide as Hd; [|reflexivity].
      now rewrite Hd, Eq. }
  eapply runs_bind; [exact Hone|]. intros [] y1 (D1 & H1 & Q1). eapply runs_weaken; [now apply IH|].
  intros [] y2 (D2 & H2 & Q2). split_and!; [exact D2|congruence|]. intros l'. rewrite Q2, Q1. unfold times. rewrite filter_cons.
  case_decide as Hd; [rewrite decide_True by done|rewrite decide_False by done; reflexivity]. now rewrite drop_drop.
Qed.

(** A queue is not longer than the list of the connections. *)
Lemma Dying_bound todo y l : Dying todo y -> (length (queues (srv y) l) <= length (conns (srv y)))%nat.
Proof.
  intros D. rewrite <-(length_seq (length (conns (srv y))) 0), <-(length_fmap TDestroy (seq _ _)).
  apply submseteq_length, NoDup_submseteq; [apply D|]. intros t Ht. destruct (dy_queue _ _ D l t Ht) as (c & i & -> & Ei & _).
  apply list_elem_of_fmap. exists c. split; [reflexivity|]. apply elem_of_seq. apply lookup_lt_Some in Ei. lia.
Qed.

(** The beginning: the connections in the table are connected, the others gone. *)
Lemma Dying_start y : Sys None y -> (forall l, queues (srv y) l = []) ->
  (forall c x, objs y !! c = Some x -> state_ x <> kDisconnecting) -> Dying (map_to_list (connections_ (srv y))).*2 y.
Proof.
  intros [I HF] Hq Hnd.
  assert (Hno : forall l t, ~ pends None (srv y) l t).
  { intros l t [Ht|?]; [|done]. rewrite Hq in Ht. now apply not_elem_of_nil in Ht. }
  assert (Hin : forall c i, conns (srv y) !! c = Some i -> c ∈ (map_to_list (connections_ (srv y))).*2 <-> c_phase i = Established).
  { intros c i Ei. rewrite list_elem_of_fmap. split.
    - intros ([n d] & -> & Hl%elem_of_map_to_list). apply (si_map _ _ I) in Hl as (j & Ej & _ & [Hp|[Hp|[_ Hp]]]); cbn in *.
      + now destruct (Hno _ _ (si_new _ _ I _ _ Ej Hp)).
      + congruence.
      + now destruct (Hno _ _ Hp).
    - intros Hp. exists (c_name i, c). split; [reflexivity|]. apply elem_of_map_to_list, (si_map _ _ I). exists i. split_and!; auto.
      right. now left. }
  assert (Hpend : forall c i, conns (srv y) !! c = Some i -> pending (map_to_list (connections_ (srv y))).*2 y c i <-> c_phase i = Established).
  { intros c i Ei. rewrite <-(Hin c i Ei). unfold pending. rewrite Hq. split; [|auto]. intros [?|?%not_elem_of_nil]; done. }
  constructor.
  - split.
    + apply NoDup_fmap_2_strong; [|apply NoDup_map_to_list]. intros [n c] [m d] Hn%elem_of_map_to_list Hm%elem_of_map_to_list Heq.
      cbn in Heq. subst d. apply (si_map _ _ I) in Hn as (i & Ei & <- & _), Hm as (j & Ej & <- & _). assert (j = i) as -> by congruence. reflexivity.
    + intros c Hc. apply list_elem_of_fmap in Hc as ([n d] & -> & Hl%elem_of_map_to_list).
      apply (si_map _ _ I) in Hl as (j & Ej & _). exists j. split; [exact Ej|]. rewrite Hq. apply not_elem_of_nil.
  - intros l t Ht. rewrite Hq in Ht. now apply not_elem_of_nil in Ht.
  - intros l. rewrite Hq. constructor.
  - intros c i Ei. destruct (Forall2_lookup_l _ _ _ _ _ HF Ei) as (x & Ex & Hr & Hs). exists x. split_and!; [done..|].
    rewrite (Hpend c i Ei). destruct (c_phase i) eqn:Ep; cbn in Hs.
    + now destruct (Hno _ _ (si_new _ _ I _ _ Ei Ep)).
    + left. split; [reflexivity|]. split; [now apply (live_kept x x (conn_reachable_CInv x Hr))|].
      left. apply live_iff in Hs as [Hs|Hs]; [exact Hs|]. destruct (Hnd c x Ex Hs).
    + destruct (si_closed _ _ I _ _ Ei Ep) as [Hp|Hp]; now destruct (Hno _ _ Hp).
    + right. split; [discriminate|exact Hs].
  - symmetry. now apply Forall2_length in HF.
Qed.

(** The fields that the destructor changes last. *)
Lemma Dying_server f todo y : Dying todo y -> conns (f (srv y)) = conns (srv y) -> queues (f (srv y)) = queues (srv y) ->
  Dying todo (mkSystem (f (srv y)) (objs y)).
Proof. intros [] Hc Hq. constructor; unfold pending in *; cbn; rewrite ?Hc, ?Hq; auto. Qed.

Lemma destroyServer_runs y : Sys None y -> (forall l, queues (srv y) l = []) ->
  (forall c x, objs y !! c = Some x -> state_ x <> kDisconnecting) ->
  runs destroyServer y (fun _ y' => Dying [] y' /\ homes y' = homes y).
Proof.
  intros Y Hq Hnd. unfold destroyServer. r_get.
  eapply runs_bind; [apply release_runs; now apply Dying_start|]. intros [] y1 [D1 H1].
  refine (runs_step _ _ _ _ _ _ (on_server_done (modify (set_connections ∅)) y1 tt _ eq_refl) _). cbv beta.
  eapply runs_done; [apply on_server_done; reflexivity|]. split; [|exact H1].
  exact (Dying_server (fun s => set_dead (set_connections ∅ s)) [] y1 D1 eq_refl eq_refl).
Qed.


(** ** The server of the system is the one of TcpServer.v *)

Lemma on_server_inv {A} (m : ST server A) y a y' : on_server m y = Done (a, y') ->
  m (srv y) = Done (a, srv y') /\ objs y' = objs y.
Proof. unfold on_server. destruct (m (srv y)) as [[b s]|]; [|done]. now intros [= <- <-]. Qed.

Lemma at_conn_inv c m y u y' : on_conn c m y = Done (u, y') -> srv y' = srv y /\
  exists x x', objs y !! c = Some x /\ m x = Done (tt, x') /\ objs y' = <[c := x']> (objs y).
Proof.
  unfold on_conn. destruct (objs y !! c) as [x|]; [|done]. destruct (m x) as [[[] x']|] eqn:Em; [|done].
  intros [= _ <-]. split; [done|]. now exists x, x'.
Qed.

Lemma run_task_srv t y y' : run_task t y = Done (tt, y') -> TcpServer.run_task t (srv y) = Done (tt, srv y').
Proof.
  unfold run_task. intros ([] & y1 & E1 & [E2 _]%on_server_inv)%bind_inv.
  assert (Es : srv y1 = srv y) by (destruct t; [now apply at_conn_inv in E1|now injection E1 as <-|now apply at_conn_inv in E1]).
  now rewrite <-Es.
Qed.

Lemma newConnection_srv fd x y y' : newConnection fd x y = Done (tt, y') -> TcpServer.newConnection fd (srv y) = Done (tt, srv y').
Proof.
  unfold newConnection, TcpServer.newConnection. rewrite !bind_get. intros ([c l] & y1 & [E1 _]%on_server_inv & E)%bind_inv.
  rewrite (bind_done _ _ _ _ _ E1). rewrite bind_modify in E. revert E. unfold runInLoop, TcpServer.runInLoop. cbn [fst snd].
  destruct (decide _); [now intros E%run_task_srv|now intros [E _]%on_server_inv].
Qed.

Lemma happens_srv c l x y y' : Sys None y -> objs y !! c = Some x -> ~ by_server l -> TcpConnection.enabled l x ->
  happens c l y = Done (tt, y') ->
  srv y' = srv y \/ TcpServer.enabled (Close c) (srv y) /\ handleClose c (srv y) = Done (tt, srv y').
Proof.
  intros [I HF] Ex Hns He E. destruct (Forall2_lookup_r _ _ _ _ _ HF Ex) as (i & Ei & Hr & Hs).
  unfold happens in E. rewrite bind_get in E. rewrite (bind_done _ _ _ _ _ (deref_some _ x y Ex)) in E.
  apply bind_inv in E as ([] & y1 & (E1 & x0 & x' & Ex0 & Ex' & Eo)%at_conn_inv & E). assert (x0 = x) as -> by congruence.
  rewrite bind_get in E. erewrite bind_done in E by (apply (deref_some _ x'); rewrite Eo; apply list_lookup_insert_eq; now apply lookup_lt_Some in Ex).
  destruct (negb (closed x) && closed x') eqn:Ec; cbn [when] in E; [|left; now injection E as <-].
  right. apply on_server_inv in E as [E _]. rewrite E1 in E. split; [|exact E]. exists i. split; [exact Ei|].
  destruct (run_label_ok kernel_write kernel_write_law user user_allowed l x (conn_reachable_CInv x Hr) He) as [([] & x2 & E2 & _ & Hf)|E2];
    [|congruence]. assert (x2 = x') as -> by congruence.
  assert (Hf' : kept x x' \/ ended x x') by (destruct l; try exact Hf; destruct Hns; [now left|now right]).
  destruct Hf' as [K|K]; [|exact (live_established _ _ Hs (e_live _ _ K))].
  rewrite (k_closed _ _ K) in Ec. now destruct (closed x).
Qed.

Lemma step_srv y y' : Sys None y -> step y y' -> rtc TcpServer.step (srv y) (srv y').
Proof.
  intros Y (lb & He & E). destruct lb as [fd x|c l|l]; cbn in He, E.
  - apply rtc_once. exists (TcpServer.Accept fd). split; [apply He|now apply (newConnection_srv fd x)].
  - destruct He as (x & Ex & _ & Hns & He). destruct (happens_srv c l x y y' Y Ex Hns He E) as [->|[Hc Ec]]; [constructor|].
    apply rtc_once. now exists (Close c).
  - apply rtc_once. exists (TcpServer.Functor l). split; [done|]. cbn. rewrite bind_get in E. rewrite bind_get.
    destruct (queues (srv y) l) as [|t q]; [now injection E as <-|]. rewrite bind_modify.
    apply bind_inv in E as ([] & y1 & [E1 _]%on_server_inv & E2). injection E1 as E1. rewrite E1. now apply run_task_srv.
Qed.

Lemma steps_srv y y' : rtc step y y' -> Sys None y -> rtc TcpServer.step (srv y) (srv y').
Proof.
  induction 1 as [y|y1 y2 y3 Hs _ IH]; [constructor|]. intros Y. etransitivity; [exact (step_srv _ _ Y Hs)|].
  apply IH. now apply (Sys_step y1).
Qed.

Lemma srv_reachable y : reachable y -> TcpServer.reachable (srv y).
Proof. intros (s0 & H0 & Hr). exists s0. split; [exact H0|]. exact (steps_srv _ _ Hr (Sys_start s0 H0)). Qed.

(** ** Properties *)




End System.

(** ** Concrete inputs *)

Module Demo.
Import TcpConnection.Demo.
#[local] Existing Instance debug_build.
#[local] Existing Instance demo_channel.
#[local] Existing Instance demo_channel_laws.

Definition any (_ : TcpConnection.label) : Prop := True.
Definition born (x : conn KL) : Prop := x = conn0.

Lemma born_fresh x : born x -> fresh x.
Proof. intros ->. exact conn0_fresh. Qed.

(** A client connects, is sent five bytes, hangs up; the loops run their functors. *)
Definition events : list label :=
  [Accept 7 conn0; Functor 1%nat; Event 0%nat (LCall true (Send message)); Event 0%nat LHangup; Functor 0%nat; Functor 1%nat].

Fixpoint after_events (ls : list label) (y : system) : system :=
  match ls with
  | [] => y
  | lb :: ls => match run_label kernel_write user lb y with Done (_, y') => after_events ls y' | Fail _ => y end
  end.
Definition after (n : nat) : system := after_events (take n events) (mkSystem TcpServer.Demo.started []).

Abbreviation reaches := (reachable kernel_write user any born).

Lemma system_after n lb : reaches (after n) -> enabled any born lb (after n) ->
  after (S n) = match run_label kernel_write user lb (after n) with Done (_, y) => y | Fail _ => after n end -> reaches (after (S n)).
Proof.
  intros Hr He ->. destruct (run_label _ _ _ _) as [[[] y]|f] eqn:E; [|exact Hr]. now apply (reachable_next _ _ _ _ _ lb _ Hr He).
Qed.

Lemma not_by_server l : l <> LEstablish -> l <> LDestroy -> ~ by_server l.
Proof. intros H1 H2 [H|H]; auto. Qed.

Ltac event := eexists; split_and!; [vm_compute; reflexivity|exact I|now apply not_by_server|vm_compute; auto; discriminate].

Lemma after_two : reaches (after 2).
Proof.
  apply (system_after 1 (Functor 1%nat)); [|exact I|vm_compute; reflexivity].
  apply (system_after 0 (Accept 7 conn0)); [|split; [vm_compute|]; reflexivity|vm_compute; reflexivity].
  exists TcpServer.Demo.started. split; [exact TcpServer.Demo.started_ready|constructor].
Qed.

Lemma after_three : reaches (after 3).
Proof. apply (system_after 2 (Event 0%nat (LCall true (Send message)))); [exact after_two|event|vm_compute; reflexivity]. Qed.

Lemma after_six : reaches (after 6).
Proof.
  apply (system_after 5 (Functor 1%nat)); [|exact I|vm_compute; reflexivity].
  apply (system_after 4 (Functor 0%nat)); [|exact I|vm_compute; reflexivity].
  apply (system_after 3 (Event 0%nat LHangup)); [exact after_three|event|vm_compute; reflexivity].
Qed.




End Demo.
