(* ===== verification/EchoServer.v ===== *)
(** EchoServer: [examples/echo_server.cpp], over TcpConnection.v and ServerSystem.v.

    The callbacks the example installs, as the user of a connection, and what a
    peer of the server sees.  The log lines and [main] are left out. *)

From Stdlib Require Import ZArith Lia.
From Stdlib Require Import Init.Byte.
From S2P Require Import Prelude Buffer Poller ChannelApi ServerSystem TcpConnection.

Local Open Scope Z_scope.

Definition quit_crlf : list byte := [x71; x75; x69; x74; x0d; x0a].
Definition quit_lf : list byte := [x71; x75; x69; x74; x0a].

(** [msg == quit_crlf || msg == quit_lf] *)
Definition is_quit (msg : list byte) : bool := bool_decide (msg = quit_crlf) || bool_decide (msg = quit_lf).

(** What the peer should receive after it sent [msgs], as the server read them:
    everything up to the first message that is a quit. *)
Fixpoint echo_of (msgs : list (list byte)) : list byte :=
  match msgs with
  | [] => []
  | m :: msgs => m ++ if is_quit m then [] else echo_of msgs
  end.

Lemma echo_of_open msgs m : Forall (fun m => is_quit m = false) msgs -> echo_of (msgs ++ [m]) = echo_of msgs ++ m.
Proof.
  induction 1 as [|x l Hx _ IH]; cbn; [case_match; apply app_nil_r|]. now rewrite Hx, IH, app_assoc.
Qed.

Lemma echo_of_closed msgs m : Exists (fun m => is_quit m = true) msgs -> echo_of (msgs ++ [m]) = echo_of msgs.
Proof.
  induction msgs as [|x l IH]; intros Hx; [now apply Exists_nil in Hx|]. cbn.
  apply Exists_cons in Hx as [->|Hx]; [reflexivity|]. case_match; [reflexivity|]. now rewrite IH.
Qed.

Section EchoServer.
Context {L : Type} `{HC : ChannelApi L} `{HL : !ChannelLaws L} `{HB : Build}.
Context (kernel_write : nat -> list byte -> write_result).
Abbreviation conn := (conn L).
Implicit Types (c : conn) (msgs : list (list byte)).

(** [onMessage]: [retrieveAllAsString] gives the message and empties the buffer. *)
Definition onMessage c : list op :=
  match retrieveAllAsString (inputBuffer_ c) with
  | Fail _ => []
  | Done (msg, _) => RetrieveAll :: Send msg :: (if is_quit msg then [Shutdown] else [])
  end.

(** The callbacks set by the constructor; [onConnection] only logs. *)
Definition user (e : event) c : list op := match e with OnMessage => onMessage c | _ => [] end.

(** The server and the loop call the connection, no other thread does.  [got]:
    what an event makes the connection read. *)
Definition of_server (l : label) : Prop := match l with LCall _ _ => False | _ => True end.

Definition got (l : label) c : list (list byte) :=
  match l with
  | LRead readv =>
      match readFd readv (inputBuffer_ c) with
      | Done ((n, _), b) => if 0 <? n then [content b] else []
      | Fail _ => []
      end
  | _ => []
  end.

(** A step of the connection together with the messages read so far. *)
Definition echo_step (x y : conn * list (list byte)) : Prop := exists l,
  of_server l /\ enabled l x.1 /\ run_label kernel_write user l x.1 = Done (tt, y.1) /\ y.2 = x.2 ++ got l x.1.

Definition echo_reachable c msgs : Prop := exists c0,
  fresh c0 /\ content (inputBuffer_ c0) = [] /\ rtc echo_step (c0, []) (c, msgs).

(** ** What the callbacks do *)

Lemma retrieveAllAsString_run b : Wf b -> exists b', retrieveAllAsString b = Done (content b, b').
Proof.
  intros W. unfold retrieveAllAsString. st_get. pose proof (readable_wf b W). pose proof (wf_order b W).
  destruct (retrieveAsString_spec (readableBytes b) b W ltac:(lia) ltac:(lia)) as (b' & E & _).
  exists b'. rewrite E. do 2 f_equal. rewrite take_ge; [reflexivity|]. rewrite <-(length_content b W) in *. lia.
Qed.

Lemma onMessage_run c : Wf (inputBuffer_ c) -> onMessage c =
  RetrieveAll :: Send (content (inputBuffer_ c)) :: (if is_quit (content (inputBuffer_ c)) then [Shutdown] else []).
Proof. intros W. unfold onMessage. now destruct (retrieveAllAsString_run _ W) as [b' ->]. Qed.

Lemma echo_user_allowed e c o : CInv c -> o ∈ user e c -> allowed o c.
Proof.
  intros I. destruct e; cbn [user]; try (now intros Hx%not_elem_of_nil).
  pose proof (ci_in _ _ I) as W. rewrite (onMessage_run c W). intros Ho.
  apply elem_of_cons in Ho as [->|Ho]; [done|]. apply elem_of_cons in Ho as [->|Ho].
  - cbn. pose proof (length_content _ W). pose proof (readable_wf _ W). destruct W. lia.
  - destruct (is_quit _); [|now apply not_elem_of_nil in Ho]. now apply list_elem_of_singleton in Ho as ->.
Qed.

Lemma emit_other e c : e <> OnMessage -> emit kernel_write user e c = Done (tt, set_trace (trace c ++ [e]) c).
Proof. intros He. unfold emit. st_modify. st_get. now destruct e. Qed.

(** ** The invariant *)

(** The kernel does not report that the peer is gone. *)
Hypothesis kernel_write_law : forall k d n, kernel_write k d = Wrote n -> (n <= length d)%nat.
Hypothesis peer_stays : forall k d err, kernel_write k d = WriteError err -> err <> EPIPE /\ err <> ECONNRESET.

Record EInv c msgs : Prop := {
  e_inv : CInv c;
  e_input : content (inputBuffer_ c) = [];
  e_accepted : accepted c = echo_of msgs;
  e_state : match state_ c with
    | kConnecting => msgs = []
    | kConnected => Forall (fun m => is_quit m = false) msgs
    | kDisconnecting => Exists (fun m => is_quit m = true) msgs
    | kDisconnected => True
    end;
  e_tasks : Forall calm (functors c);
  e_delayed : delayed c = [];
}.

(** A step that neither reads nor sends. *)
Record unsaid c c' : Prop := {
  n_accepted : accepted c' = accepted c;
  n_input : inputBuffer_ c' = inputBuffer_ c;
  n_delayed : delayed c' = delayed c;
  n_tasks : Forall calm (functors c) -> Forall calm (functors c');
}.

Lemma EInv_unsaid c c' msgs : EInv c msgs -> CInv c' -> unsaid c c' ->
  (state_ c' = state_ c \/ state_ c' = kDisconnected \/ state_ c = kConnecting /\ state_ c' = kConnected) ->
  EInv c' msgs.
Proof.
  intros [] I' [] Hs. constructor; try congruence; auto.
  destruct Hs as [->|[->|[Es ->]]]; [done..|]. rewrite Es in e_state0. now subst.
Qed.

Lemma unsaid_refl c : unsaid c c.
Proof. now constructor. Qed.

Lemma unsaid_trans c1 c2 c3 : unsaid c1 c2 -> unsaid c2 c3 -> unsaid c1 c3.
Proof. intros [] []. constructor; try congruence. auto. Qed.

Lemma connectionCallback_inv c c' : connectionCallback kernel_write user c = Done (tt, c') ->
  unsaid c c' /\ state_ c' = state_ c.
Proof.
  unfold connectionCallback. rewrite bind_get. unfold callback. destruct (connectionCallback_ _); [|done].
  rewrite emit_other by done. now intros [= <-].
Qed.

Lemma handleClose_inv c c' : handleClose kernel_write user c = Done (tt, c') ->
  unsaid c c' /\ state_ c' = kDisconnected.
Proof.
  unfold handleClose. rewrite bind_get. intros ([] & c1 & ->%cassert_inv & E)%bind_inv. rewrite bind_modify in E.
  apply bind_inv in E as ([] & c2 & [l ->]%on_channel_inv & E).
  apply bind_inv in E as ([] & c3 & [U3 S3]%connectionCallback_inv & E). revert E.
  unfold callback. destruct (closeCallback_ _); [|done]. rewrite emit_other by done. intros [= <-].
  split; [|exact S3]. now destruct U3.
Qed.

Lemma connectEstablished_inv c c' : connectEstablished kernel_write user c = Done (tt, c') ->
  unsaid c c' /\ state_ c' = kConnected.
Proof.
  unfold connectEstablished. rewrite bind_get. intros ([] & c1 & ->%cassert_inv & E)%bind_inv. rewrite bind_modify in E.
  apply bind_inv in E as ([] & c2 & [l ->]%on_channel_inv & E). apply bind_inv in E as ([] & c3 & [l' ->]%on_channel_inv & E).
  apply connectionCallback_inv in E as [[] Hs]. split; [now constructor|exact Hs].
Qed.

Lemma connectDestroyed_inv c c' : connectDestroyed kernel_write user c = Done (tt, c') ->
  unsaid c c' /\ (state_ c' = state_ c \/ state_ c' = kDisconnected).
Proof.
  unfold connectDestroyed. rewrite bind_get. intros ([] & c1 & E1 & E)%bind_inv.
  apply bind_inv in E as ([] & c2 & [l ->]%on_channel_inv & [= <-]).
  assert (H1 : unsaid c c1 /\ (state_ c1 = state_ c \/ state_ c1 = kDisconnected)).
  { revert E1. destruct (bool_decide _); cbn [when]; [|intros [= <-]; split; [apply unsaid_refl|auto]].
    rewrite bind_modify. intros ([] & c2 & [l2 ->]%on_channel_inv & [U S]%connectionCallback_inv)%bind_inv.
    split; [|now right]. now destruct U. }
  destruct H1 as [[] Hs]. now split.
Qed.

Lemma shutdownInLoop_inv c c' : shutdownInLoop c = Done (tt, c') -> unsaid c c' /\ state_ c' = state_ c.
Proof. unfold shutdownInLoop. rewrite bind_get. now destruct (negb _); intros [= <-]. Qed.

Lemma handleWrite_inv c c' : handleWrite kernel_write c = Done (tt, c') -> unsaid c c' /\ state_ c' = state_ c.
Proof.
  unfold handleWrite. rewrite bind_get. destruct (isWriting c); cbn [when]; [|now intros [= <-]].
  intros (data & c1 & [b ->]%on_output_inv & E)%bind_inv.
  apply bind_inv in E as (r & c2 & E2 & E). unfold sys_write in E2. rewrite bind_get in E2. cbv zeta in E2.
  injection E2 as <- <-. set (c2 := set_socket _ _) in E. assert (U2 : unsaid c c2) by now constructor.
  assert (S2 : state_ c2 = state_ c) by done. clearbody c2.
  destruct (if shut _ then _ else _) as [[|n]|err]; try (now injection E as <-).
  apply bind_inv in E as ([] & c3 & [b3 ->]%on_output_inv & E). rewrite bind_get in E.
  assert (U3 : unsaid c (set_output b3 c2)) by now destruct U2.
  destruct (readableBytes _ =? 0); cbn [when] in E; [|now injection E as <-].
  apply bind_inv in E as ([] & c4 & [l ->]%on_channel_inv & E).
  apply bind_inv in E as ([] & c5 & ([] & Ha & _)%queue_calm & E); [|done].
  assert (U5 : unsaid c c5) by (apply (unsaid_trans _ _ _ U3); now constructor).
  assert (S5 : state_ c5 = state_ c) by (rewrite u_state; exact S2).
  revert E. destruct (bool_decide _); cbn [when]; [|now intros [= <-]].
  intros [U6 S6]%shutdownInLoop_inv. split; [now apply (unsaid_trans _ c5)|congruence].
Qed.

(** A message sent on an open connection is accepted whole. *)
Lemma send_inv m c c' : CInv c -> state_ c = kConnected -> send kernel_write true m c = Done (tt, c') ->
  accepted c' = accepted c ++ m /\ untouched c c'.
Proof.
  intros I Hs. unfold send. rewrite bind_get, bool_decide_eq_true_2 by done. cbn [when runInLoop run_silent].
  unfold sendInLoop. rewrite bind_get, bool_decide_eq_false_2 by congruence.
  destruct (_ && _); [|exact (sendRest_inv m 0 false c c')]. intros (r & c1 & E1 & E)%bind_inv.
  unfold sys_write in E1. rewrite bind_get in E1. cbv zeta in E1.
  destruct (shut (socket_ c)) eqn:Esh.
  { destruct (ci_shut _ _ I Esh) as [Hd _]; [apply live_iff; auto|congruence]. }
  injection E1 as <- <-. set (c1 := set_socket _ _) in E. assert (U1 : untouched c c1) by now constructor.
  assert (A1 : accepted c1 = accepted c) by done. clearbody c1. revert E.
  destruct (kernel_write _ m) as [n|err] eqn:Ew.
  - intros ([] & c2 & (U2 & A2 & _)%queue_calm & [A3 U3]%sendRest_inv)%bind_inv; [|done].
    split; [congruence|]. now apply (untouched_trans _ c1), (untouched_trans _ c2).
  - destruct (peer_stays _ _ _ Ew) as [N1 N2]. rewrite (proj2 (Z.eqb_neq _ _) N1), (proj2 (Z.eqb_neq _ _) N2).
    intros [A3 U3]%sendRest_inv. cbn in A3. split; [congruence|]. now apply (untouched_trans _ c1).
Qed.

Lemma shutdown_inv c c' : state_ c = kConnected -> shutdown kernel_write true c = Done (tt, c') ->
  unsaid c c' /\ state_ c' = kDisconnecting.
Proof.
  intros Hs. unfold shutdown. rewrite bind_get, bool_decide_eq_true_2 by done. cbn [when runInLoop run_silent].
  rewrite bind_modify. intros [[] S1]%shutdownInLoop_inv. split; [now constructor|exact S1].
Qed.

(** Nothing is sent or shut down once the connection is not open any more. *)
Lemma closed_op o c : state_ c <> kConnected -> o = Shutdown \/ (exists m, o = Send m) ->
  run_op kernel_write true o c = Done (tt, c).
Proof.
  intros Hs [->|[m ->]]; cbn [run_op]; unfold shutdown, send; rewrite bind_get, bool_decide_eq_false_2 by done; reflexivity.
Qed.

Lemma retrieveAll_op c : CInv c -> exists b,
  run_op kernel_write true RetrieveAll c = Done (tt, set_input b c) /\ content b = [] /\ CInv (set_input b c).
Proof.
  intros I. destruct (retrieveAll_spec (inputBuffer_ c) (ci_in _ _ I)) as (b & E & W & C & _). exists b.
  split_and!; [cbn [run_op]; unfold on_input; now rewrite E|exact C|]. destruct I. constructor; cbn; auto.
Qed.

(** The operations of [onMessage], on the buffer's content [m]. *)
Lemma message_ops m c c' msgs : CInv c -> accepted c = echo_of msgs -> delayed c = [] -> Forall calm (functors c) ->
  content (inputBuffer_ c) = [] ->
  match state_ c with
  | kConnected => Forall (fun m => is_quit m = false) msgs
  | kDisconnecting => Exists (fun m => is_quit m = true) msgs
  | _ => False
  end ->
  for_each (Send m :: (if is_quit m then [Shutdown] else [])) (run_op kernel_write true) c = Done (tt, c') ->
  CInv c' -> EInv c' (msgs ++ [m]).
Proof.
  intros I Ha Hd Ht Hi Hs E I'. cbn [for_each] in E. apply bind_inv in E as ([] & c1 & E1 & E).
  destruct (state_ c) eqn:Es; try done.
  - apply send_inv in E1 as (A1 & []); [|exact I|exact Es].
    destruct (is_quit m) eqn:Eq; cbn [for_each] in E.
    + apply bind_inv in E as ([] & c2 & E2 & [= <-]). apply shutdown_inv in E2 as ([] & S2); [|congruence].
      constructor; try congruence; auto; rewrite ?echo_of_open, ?S2 by done; [congruence|].
      apply Exists_app. right. now apply Exists_cons_hd.
    + injection E as <-. constructor; try congruence; auto; rewrite ?echo_of_open by done; [congruence|].
      rewrite u_state, Es. apply Forall_app. now repeat constructor.
  - rewrite closed_op in E1 by (rewrite ?Es; eauto; done). injection E1 as <-.
    assert (Ec : c' = c).
    { destruct (is_quit m); cbn [for_each] in E; [|now injection E as <-].
      apply bind_inv in E as ([] & c2 & E2 & [= <-]).
      rewrite closed_op in E2 by (rewrite ?Es; auto; done). now injection E2 as <-. }
    subst c'. constructor; auto; rewrite ?echo_of_closed by done; [done|].
    rewrite Es. apply Exists_app. now left.
Qed.

Lemma handleRead_inv readv c c' msgs : EInv c msgs -> live c = true -> readv_law readv ->
  Buffer.size (inputBuffer_ c) + extrabuf_size <= max_vector_size -> CInv c' ->
  handleRead kernel_write user readv c = Done (tt, c') -> EInv c' (msgs ++ got (LRead readv) c).
Proof.
  intros EI Hl Hv Hsz I' E. pose proof (e_inv _ _ EI) as I. revert E. unfold handleRead, got.
  destruct (readFd_run readv (inputBuffer_ c) (ci_in _ _ I) Hsz Hv) as (n & saved & b & Er & Wb & _).
  assert (Eo : on_input (readFd readv) c = Done ((n, saved), set_input b c)) by (unfold on_input; now rewrite Er).
  st_step Eo. rewrite Er. set (c1 := set_input b c). assert (I1 : CInv c1) by (destruct I; constructor; cbn; auto).
  destruct (Z.ltb_spec 0 n) as [Hn|Hn].
  - rewrite bind_get. unfold callback. destruct (messageCallback_ _); [|done]. unfold emit. st_modify. st_get.
    cbn [user]. rewrite onMessage_run by exact Wb. change (content (inputBuffer_ (set_trace _ c1))) with (content b).
    set (c2 := set_trace _ c1).
    assert (I2 : CInv c2).
    { destruct (ci_trace _ _ I1) as (p & Hp & Hok). destruct I1. constructor; cbn; auto. exists p. split; [|exact Hok].
      rewrite (life_from_snoc _ _ _ _ Hp). apply live_iff in Hl as [Hs|Hs]; cbn in Hok; rewrite Hs in Hok; cbn in Hok; now subst. }
    destruct (retrieveAll_op c2 I2) as (b2 & E2 & C2 & I3). rewrite (for_each_cons _ _ _ _ _ E2).
    destruct EI. intros E. apply (message_ops (content b) (set_input b2 c2)); auto.
    cbn. apply live_iff in Hl as [Hs|Hs]; now rewrite Hs in *.
  - rewrite app_nil_r. intros E.
    assert (EI1 : EInv c1 msgs).
    { destruct EI. constructor; auto. change (content b = []). rewrite <-e_input0.
      destruct (readFd_run readv (inputBuffer_ c) (ci_in _ _ I) Hsz Hv) as (n' & saved' & b' & Er' & _ & Hm).
      rewrite Er in Er'. injection Er' as <- <- <-. destruct (readv _) as [err|[|x l]].
      - now destruct Hm as (_ & _ & ->).
      - destruct Hm as (_ & _ & ->). apply app_nil_r.
      - destruct Hm as (-> & _). cbn in Hn. lia. }
    destruct (n =? 0).
    + apply handleClose_inv in E as [U S]. apply (EInv_unsaid c1); auto.
    + now injection E as <-.
Qed.

Lemma EInv_step c msgs c' msgs' : EInv c msgs -> echo_step (c, msgs) (c', msgs') -> EInv c' msgs'.
Proof.
  intros EI (l & Hl & He & E & Em). cbn [fst snd] in *. subst msgs'. pose proof (e_inv _ _ EI) as I.
  assert (I' : CInv c') by (apply (CInv_step kernel_write kernel_write_law user echo_user_allowed c); [exact I|now exists l]).
  assert (Hsame : forall f, unsaid c f /\ (state_ f = state_ c \/ state_ f = kDisconnected \/ state_ c = kConnecting /\ state_ f = kConnected) ->
    c' = f -> EInv c' (msgs ++ [])) by (intros f [U S] ->; rewrite app_nil_r; now apply (EInv_unsaid c)).
  destruct l as [| |readv| | | |inLoop o| |n]; cbn [run_label got enabled] in *; try done.
  - apply connectEstablished_inv in E as [U S]. apply (Hsame c'); auto.
  - apply connectDestroyed_inv in E as [U S]. apply (Hsame c'); [|done]. tauto.
  - destruct He as (Hr & Hi & Hv & Hsz). apply handleRead_inv; auto. apply interest_live; auto.
  - apply handleWrite_inv in E as [U S]. apply (Hsame c'); auto.
  - apply handleClose_inv in E as [U S]. apply (Hsame c'); auto.
  - injection E as <-. apply (Hsame c); auto using unsaid_refl.
  - rewrite bind_get in E. destruct (functors c) as [|t rest] eqn:Ef.
    { injection E as <-. apply (Hsame c); auto using unsaid_refl. }
    rewrite bind_modify in E. pose proof (e_tasks _ _ EI) as Ht. rewrite Ef in Ht. apply Forall_cons in Ht as [Ht Hrest].
    destruct t; try done; cbn [run_task] in E; rewrite emit_other in E by done; injection E as <-;
      (eapply Hsame; [|reflexivity]; split; [now constructor|now left]).
  - rewrite bind_get, (e_delayed _ _ EI) in E. injection E as <-. apply (Hsame c); auto using unsaid_refl.
Qed.

Lemma EInv_fresh c : fresh c -> content (inputBuffer_ c) = [] -> EInv c [].
Proof.
  intros Hf Hc. pose proof (CInv_fresh c Hf) as I. destruct Hf as [(ch & i & o & cb & -> & _)]. now constructor.
Qed.

Lemma EInv_steps x y : rtc echo_step x y -> EInv x.1 x.2 -> EInv y.1 y.2.
Proof. induction 1 as [|[] [] z Hs _ IH]; [done|]. intros EI. apply IH. now apply (EInv_step _ _ _ _ EI). Qed.

Lemma EInv_reachable c msgs : echo_reachable c msgs -> EInv c msgs.
Proof. intros (c0 & Hf & Hc & Hr). exact (EInv_steps _ _ Hr (EInv_fresh c0 Hf Hc)). Qed.


(** ** The server *)

(** How the server constructs a connection: nothing is read yet. *)
Definition born c : Prop := fresh c /\ content (inputBuffer_ c) = [].

Lemma echo_born_fresh c : born c -> fresh c.
Proof. now intros []. Qed.

(** A run of a connection under the server is one of the echo. *)
Lemma conn_run_echo c0 c : rtc (ServerSystem.conn_step kernel_write user of_server) c0 c ->
  forall msgs, exists msgs', rtc echo_step (c0, msgs) (c, msgs').
Proof.
  induction 1 as [c|c1 c2 c3 (l & Hp & He & E) _ IH]; intros msgs; [now exists msgs|].
  destruct (IH (msgs ++ got l c1)) as [msgs' Hr]. exists msgs'. eapply rtc_l; [|exact Hr].
  exists l. split_and!; try done. now destruct Hp as [[->| ->]|Hp].
Qed.

Lemma conn_reachable_echo c : ServerSystem.conn_reachable kernel_write user of_server born c ->
  exists msgs, echo_reachable c msgs.
Proof.
  intros (c0 & [Hf Hc] & Hr). destruct (conn_run_echo _ _ Hr []) as [msgs Hm]. exists msgs, c0. now split_and!.
Qed.

End EchoServer.

(** ** Concrete inputs *)

Module Demo.
Import TcpConnection.Demo.
#[local] Existing Instance debug_build.
#[local] Existing Instance demo_channel.
#[local] Existing Instance demo_channel_laws.

(** A peer sends "Hello" and then "quit"; the kernel takes three bytes at a time. *)
Definition sends (m : list byte) : label := LRead (readv_of (mkRx m false)).
Definition events : list label := [LEstablish; sends message; LWrite; LFunctor; sends quit_lf; LWrite].

(** The connection and the messages after [n] of the events. *)
Fixpoint after_events (ls : list label) (x : conn KL * list (list byte)) : conn KL * list (list byte) :=
  match ls with
  | [] => x
  | l :: ls =>
      match run_label kernel_write EchoServer.user l x.1 with
      | Done (_, c) => after_events ls (c, x.2 ++ got l x.1)
      | Fail _ => x
      end
  end.
Definition after (n : nat) : conn KL * list (list byte) := after_events (take n events) (conn0, []).

Lemma peer_stays k d err : kernel_write k d = WriteError err -> err <> EPIPE /\ err <> ECONNRESET.
Proof. discriminate. Qed.

Lemma after_step n l : echo_reachable kernel_write (after n).1 (after n).2 -> of_server l -> enabled l (after n).1 ->
  after (S n) = match run_label kernel_write EchoServer.user l (after n).1 with
                | Done (_, c) => (c, (after n).2 ++ got l (after n).1) | Fail _ => after n end ->
  echo_reachable kernel_write (after (S n)).1 (after (S n)).2.
Proof.
  intros Hr Hl He ->. destruct (run_label _ _ _ _) as [[[] c]|f] eqn:E; [|exact Hr].
  destruct Hr as (c0 & Hf & Hc & Hr). exists c0. split_and!; [exact Hf|exact Hc|]. eapply rtc_r; [exact Hr|].
  exists l. now split_and!.
Qed.

Lemma after_reachable : echo_reachable kernel_write (after 6).1 (after 6).2.
Proof.
  assert (Hread : forall m n, removed (after n).1 = false -> isReading (after n).1 = true ->
    Buffer.size (inputBuffer_ (after n).1) + extrabuf_size <= max_vector_size -> enabled (sends m) (after n).1).
  { intros m n H1 H2 H3. split_and!; [exact H1|exact H2|apply readv_of_law|exact H3]. }
  apply (after_step 5 LWrite); [|exact I|vm_compute; auto|vm_compute; reflexivity].
  apply (after_step 4 (sends quit_lf)); [|exact I|apply Hread; vm_compute; congruence|vm_compute; reflexivity].
  apply (after_step 3 LFunctor); [|exact I|exact I|vm_compute; reflexivity].
  apply (after_step 2 LWrite); [|exact I|vm_compute; auto|vm_compute; reflexivity].
  apply (after_step 1 (sends message)); [|exact I|apply Hread; vm_compute; congruence|vm_compute; reflexivity].
  apply (after_step 0 LEstablish); [|exact I|reflexivity|vm_compute; reflexivity].
  exists conn0. split_and!; [exact conn0_fresh|reflexivity|constructor].
Qed.


(** The same with the server: a client connects, is echoed five bytes and quits. *)
Definition system_events : list (ServerSystem.label (L := KL)) :=
  [ServerSystem.Accept 7 conn0; ServerSystem.Functor 1%nat; ServerSystem.Event 0%nat (sends message);
   ServerSystem.Event 0%nat LWrite; ServerSystem.Event 0%nat (sends quit_lf)].

Definition system_after (n : nat) : ServerSystem.system :=
  let y0 := ServerSystem.mkSystem TcpServer.Demo.started [] in
  match for_each (take n system_events) (ServerSystem.run_label kernel_write EchoServer.user) y0 with
  | Done (_, y) => y
  | Fail _ => y0
  end.

(** Its only connection. *)
Definition conn_after (n : nat) : conn KL := default conn0 (ServerSystem.objs (system_after n) !! 0%nat).

Lemma system_after_reachable : ServerSystem.reachable kernel_write EchoServer.user of_server born (system_after 5).
Proof.
  assert (Hnext : forall n lb, ServerSystem.reachable kernel_write EchoServer.user of_server born (system_after n) ->
    ServerSystem.enabled of_server born lb (system_after n) ->
    ServerSystem.run_label kernel_write EchoServer.user lb (system_after n) = Done (tt, system_after (S n)) ->
    ServerSystem.reachable kernel_write EchoServer.user of_server born (system_after (S n)))
    by (intros n lb; apply ServerSystem.reachable_next).
  assert (Hread : forall m n, ServerSystem.objs (system_after n) !! 0%nat = Some (conn_after n) ->
    removed (conn_after n) = false -> isReading (conn_after n) = true ->
    Buffer.size (inputBuffer_ (conn_after n)) + extrabuf_size <= max_vector_size ->
    ServerSystem.enabled of_server born (ServerSystem.Event 0%nat (sends m)) (system_after n)).
  { intros m n Hx H1 H2 H3. exists (conn_after n). split_and!; [exact Hx|exact I|now intros []|].
    split_and!; [exact H1|exact H2|apply readv_of_law|exact H3]. }
  apply (Hnext 4%nat (ServerSystem.Event 0%nat (sends quit_lf))); [|apply Hread; vm_compute; first [reflexivity|discriminate]|vm_compute; reflexivity].
  apply (Hnext 3%nat (ServerSystem.Event 0%nat LWrite)); [|exists (conn_after 3); split_and!; [vm_compute; reflexivity|exact I|now intros []|vm_compute; auto]|vm_compute; reflexivity].
  apply (Hnext 2%nat (ServerSystem.Event 0%nat (sends message))); [|apply Hread; vm_compute; first [reflexivity|discriminate]|vm_compute; reflexivity].
  apply (Hnext 1%nat (ServerSystem.Functor 1%nat)); [|exact I|vm_compute; reflexivity].
  apply (Hnext 0%nat (ServerSystem.Accept 7 conn0)); [|split; [reflexivity|split; [exact conn0_fresh|reflexivity]]|vm_compute; reflexivity].
  exists TcpServer.Demo.started. split; [exact TcpServer.Demo.started_ready|constructor].
Qed.

End Demo.
