(* ===== verification/EventLoopThread.v ===== *)
(** EventLoopThread: the class in [net/TcpServer.cpp] and its copy in
    [io_uring/UringEventLoopThread.h].

    One owner, which starts the thread and destroys the object, and the thread with
    its event loop.  A step is the code between two accesses of shared state.  The
    system has finitely many states, so that the theorems follow from the set of
    the reachable ones, which is computed. *)

From S2P Require Import Prelude.

(** Where the owner is: in [startLoop], between it and the destructor, in the
    destructor. *)
Inductive owner_pc :=
  | ONew
  | SLock            (* unique_lock lock(mutex_) *)
  | SCheck           (* the predicate, under the mutex *)
  | SBlocked         (* asleep in cond_.wait *)
  | SUnlock          (* loop = loop_ done *)
  | OReady           (* startLoop has returned *)
  | DTest            (* if (loop_ != nullptr) *)
  | DQuit            (* loop_->quit(): quit_ = true *)
  | DWake            (* loop_->quit(): wakeup() *)
  | DJoin            (* thread_.join() *)
  | DDone.

(** Where the thread is in [threadFunc]. *)
Inductive worker_pc :=
  | WNone            (* not started *)
  | WInit            (* EventLoop loop; callback_(&loop) *)
  | WLock
  | WPublish         (* loop_ = &loop; cond_.notify_one() *)
  | WUnlock
  | WEnter           (* EventLoop::loop: quit_ = false *)
  | WTest            (* while (!quit_) *)
  | WLock2
  | WClear           (* loop_ = nullptr *)
  | WUnlock2
  | WDestroy         (* ~EventLoop of the local loop *)
  | WDone.

#[export] Instance owner_pc_eq_dec : EqDecision owner_pc.
Proof. solve_decision. Defined.
#[export] Instance worker_pc_eq_dec : EqDecision worker_pc.
Proof. solve_decision. Defined.

(** [loop_] is null or the address of the thread's loop; [mutex_] is held by the
    owner ([Some true]), the thread or nobody; [notified]: the owner, asleep, has
    been notified; [alive] and [quit_] are of the local loop; [inited]: how often
    the callback has run. *)
Record sys := {
  owner : owner_pc;
  worker : worker_pc;
  loop_ : bool;
  mutex_ : option bool;
  notified : bool;
  alive : bool;
  quit_ : bool;
  inited : nat
}.
#[export] Instance sys_eq_dec : EqDecision sys.
Proof. solve_decision. Defined.

Definition new : sys :=
  {| owner := ONew; worker := WNone; loop_ := false; mutex_ := None; notified := false; alive := false; quit_ := false; inited := 0 |}.

Definition at_owner (p : owner_pc) (s : sys) : sys :=
  {| owner := p; worker := worker s; loop_ := loop_ s; mutex_ := mutex_ s; notified := notified s; alive := alive s;
     quit_ := quit_ s; inited := inited s |}.
Definition at_worker (p : worker_pc) (s : sys) : sys :=
  {| owner := owner s; worker := p; loop_ := loop_ s; mutex_ := mutex_ s; notified := notified s; alive := alive s;
     quit_ := quit_ s; inited := inited s |}.
Definition set_loop (b : bool) (s : sys) : sys :=
  {| owner := owner s; worker := worker s; loop_ := b; mutex_ := mutex_ s; notified := notified s; alive := alive s;
     quit_ := quit_ s; inited := inited s |}.
Definition set_mutex (o : option bool) (s : sys) : sys :=
  {| owner := owner s; worker := worker s; loop_ := loop_ s; mutex_ := o; notified := notified s; alive := alive s;
     quit_ := quit_ s; inited := inited s |}.
Definition set_notified (b : bool) (s : sys) : sys :=
  {| owner := owner s; worker := worker s; loop_ := loop_ s; mutex_ := mutex_ s; notified := b; alive := alive s;
     quit_ := quit_ s; inited := inited s |}.
Definition set_loop_state (a q : bool) (s : sys) : sys :=
  {| owner := owner s; worker := worker s; loop_ := loop_ s; mutex_ := mutex_ s; notified := notified s; alive := a;
     quit_ := q; inited := inited s |}.
Definition add_inited (n : nat) (s : sys) : sys :=
  {| owner := owner s; worker := worker s; loop_ := loop_ s; mutex_ := mutex_ s; notified := notified s; alive := alive s;
     quit_ := quit_ s; inited := inited s + n |}.

(** [mutex_] is taken when it is free. *)
Definition acquire (who : bool) (s : sys) : option sys :=
  match mutex_ s with None => Some (set_mutex (Some who) s) | Some _ => None end.

(** [startLoop] and [~EventLoopThread]; [spurious]: [cond_.wait] returns without a
    notification. *)
Definition exec_owner (spurious : bool) (s : sys) : option (outcome sys) :=
  match owner s with
  | ONew => Some (Done (at_owner SLock (at_worker WInit s)))
  | SLock => s' ← acquire true s; Some (Done (at_owner SCheck s'))
  | SCheck =>
      if loop_ s then Some (Done (at_owner SUnlock s))
      else Some (Done (at_owner SBlocked (set_notified false (set_mutex None s))))
  | SBlocked => if notified s || spurious then s' ← acquire true s; Some (Done (at_owner SCheck s')) else None
  | SUnlock => Some (Done (at_owner OReady (set_mutex None s)))
  | OReady => Some (Done (at_owner DTest s))
  | DTest => Some (Done (at_owner (if loop_ s then DQuit else DDone) s))
  | DQuit =>
      if loop_ s && alive s then Some (Done (at_owner DWake (set_loop_state true true s))) else Some (Fail UndefinedBehaviour)
  | DWake => if alive s then Some (Done (at_owner DJoin s)) else Some (Fail UndefinedBehaviour)
  | DJoin => if decide (worker s = WDone) then Some (Done (at_owner DDone s)) else None
  | DDone => None
  end.

(** A member of the object is used. *)
Definition uses (s : sys) (r : option (outcome sys)) : option (outcome sys) :=
  if decide (owner s = DDone) then Some (Fail UndefinedBehaviour) else r.

(** [threadFunc]; [callback]: one is set; [quits]: something that runs in the
    loop, or another thread, calls its [quit].  [poll] returns after its time-out
    at the latest, so that the test of [quit_] is always repeated. *)
Definition exec_worker (callback quits : bool) (s : sys) : option (outcome sys) :=
  match worker s with
  | WNone | WDone => None
  | WInit => uses s (Some (Done (at_worker WLock (add_inited (if callback then 1 else 0) (set_loop_state true false s)))))
  | WLock => uses s (s' ← acquire false s; Some (Done (at_worker WPublish s')))
  | WPublish => uses s (Some (Done (at_worker WUnlock (set_notified true (set_loop true s)))))
  | WUnlock => uses s (Some (Done (at_worker WEnter (set_mutex None s))))
  | WEnter => Some (Done (at_worker WTest (set_loop_state true false s)))
  | WTest => Some (Done (if quit_ s then at_worker WLock2 s else if quits then set_loop_state true true s else s))
  | WLock2 => uses s (s' ← acquire false s; Some (Done (at_worker WClear s')))
  | WClear => uses s (Some (Done (at_worker WUnlock2 (set_loop false s))))
  | WUnlock2 => uses s (Some (Done (at_worker WDestroy (set_mutex None s))))
  | WDestroy => Some (Done (at_worker WDone (set_loop_state false (quit_ s) s)))
  end.

(** ** Runs *)

Section Runs.
(* whether the callback is set, and whether the loop may be quit by others *)
Context (callback others : bool).
Implicit Types (s : sys) (l : list sys).

Inductive step s : outcome sys -> Prop :=
  | step_owner b r : exec_owner b s = Some r -> step s r
  | step_worker q r : (q = true -> others = true) -> exec_worker callback q s = Some r -> step s r.

Definition goes s s' : Prop := step s (Done s').
Definition reachable s : Prop := rtc goes new s.

(** All that can happen next. *)
Definition nexts s : list (outcome sys) :=
  omap id [exec_owner false s; exec_owner true s; exec_worker callback false s; if others then exec_worker callback true s else None].

Lemma step_nexts s r : step s r -> r ∈ nexts s.
Proof.
  unfold nexts. intros [b r' E|q r' Hq E]; apply list_elem_of_omap; exists (Some r'); (split; [|done]).
  - destruct b; rewrite <-E; set_solver.
  - destruct q; [rewrite (Hq eq_refl), <-E|rewrite <-E]; set_solver.
Qed.

Lemma nexts_step s r : r ∈ nexts s -> step s r.
Proof.
  unfold nexts. intros (o & Ho & Er)%list_elem_of_omap. cbn in Er. subst o.
  rewrite !elem_of_cons in Ho. destruct Ho as [E|[E|[E|[E|Ho]]]]; [..|now apply not_elem_of_nil in Ho].
  - now apply step_owner with false.
  - now apply step_owner with true.
  - now apply step_worker with false.
  - destruct others eqn:Eo; [|discriminate]. now apply step_worker with true.
Qed.

Definition done_of (o : outcome sys) : option sys := match o with Done s => Some s | Fail _ => None end.
Definition succs s : list sys := omap done_of (nexts s).

Lemma goes_succs s s' : goes s s' <-> s' ∈ succs s.
Proof.
  unfold succs. rewrite list_elem_of_omap. split.
  - intros H%step_nexts. now exists (Done s').
  - intros (o & Ho & E). destruct o; [|discriminate]. injection E as ->. now apply nexts_step.
Qed.

(** ** Exploration *)

(** The states in [l] and those that [n] rounds of steps lead to. *)
Fixpoint explore (n : nat) (front l : list sys) : list sys :=
  match n with
  | O => l
  | S n' =>
      let new := list_difference (remove_dups (front ≫= succs)) l in
      match new with [] => l | _ => explore n' new (new ++ l) end
  end.

Definition closed l : bool := forallb (fun s => forallb (fun s' => bool_decide (s' ∈ l)) (succs s)) l.

Lemma closed_rtc l s s' : closed l = true -> rtc goes s s' -> s ∈ l -> s' ∈ l.
Proof.
  intros Hc. induction 1 as [|s1 s2 s3 H12 _ IH]; [done|]. intros H1. apply IH.
  unfold closed in Hc. rewrite forallb_forall in Hc. specialize (Hc s1 (proj1 (list_elem_of_In _ _) H1)).
  rewrite forallb_forall in Hc. apply goes_succs in H12.
  exact (bool_decide_eq_true_1 _ (Hc s2 (proj1 (list_elem_of_In _ _) H12))).
Qed.

(** What is tested for all states of a closed set holds in all runs. *)
Lemma closed_forall l (t : sys -> bool) s s' : closed l = true -> bool_decide (s ∈ l) = true -> forallb t l = true ->
  rtc goes s s' -> t s' = true.
Proof.
  intros Hc H0 Ht Hr. rewrite forallb_forall in Ht. apply Ht, list_elem_of_In.
  exact (closed_rtc l s s' Hc Hr (bool_decide_eq_true_1 _ H0)).
Qed.

(** The states of [l] from which [n] steps or fewer lead to the goal. *)
Fixpoint can (goal : sys -> bool) (n : nat) l : list sys :=
  match n with
  | O => filter (fun s => goal s = true) l
  | S n' => let g := can goal n' l in filter (fun s => goal s = true \/ existsb (fun s' => bool_decide (s' ∈ g)) (succs s) = true) l
  end.

Lemma can_rtc goal n l s : s ∈ can goal n l -> exists s', rtc goes s s' /\ goal s' = true.
Proof.
  revert s. induction n as [|n IH]; intros s; cbn [can]; rewrite list_elem_of_filter.
  - intros [Hg _]. exists s. now split; [apply rtc_refl|].
  - intros [[Hg|Hx] _]; [exists s; now split; [apply rtc_refl|]|].
    apply existsb_exists in Hx as (s1 & H1 & Hs1%bool_decide_eq_true_1). destruct (IH s1 Hs1) as (s' & Hr & Hg).
    exists s'. split; [|exact Hg]. eapply rtc_l; [|exact Hr]. now apply goes_succs, list_elem_of_In.
Qed.
End Runs.

(** ** Theorems *)

Definition all_states (callback others : bool) : list sys := explore callback others 40 [new] [new].

(** [startLoop] is under way or has just returned. *)
Definition starting (s : sys) : bool :=
  match owner s with ONew | SLock | SCheck | SBlocked | SUnlock | OReady => true | _ => false end.
Definition returned (s : sys) : bool := bool_decide (owner s = OReady).

Definition no_failure (callback others : bool) (s : sys) : bool :=
  forallb (fun r => match r with Done _ => true | Fail _ => false end) (nexts callback others s).

Lemma no_failure_step callback others s r : no_failure callback others s = true -> step callback others s r -> exists s', r = Done s'.
Proof.
  intros H H1%step_nexts. unfold no_failure in H. rewrite forallb_forall in H.
  specialize (H r (proj1 (list_elem_of_In _ _) H1)). destruct r; [eauto|discriminate].
Qed.

(** The tests that every reachable state passes when nobody else quits the loop. *)
Definition started_well (callback : bool) (s : sys) : bool :=
  (negb (starting s) || (no_failure callback false s && bool_decide (s ∈ can callback false returned 20 (all_states callback false)))) &&
  (negb (returned s) || (loop_ s && alive s && bool_decide (inited s = if callback then 1 else 0))) &&
  (negb (bool_decide (owner s = SBlocked) && negb (notified s)) || bool_decide (worker s ∈ [WInit; WLock; WPublish])) &&
  (negb (bool_decide (owner s = DDone)) || (bool_decide (worker s = WDone) && negb (alive s))).

Lemma started_well_all callback s : reachable callback false s -> started_well callback s = true.
Proof.
  apply (closed_forall callback false (all_states callback false)); destruct callback; vm_compute; reflexivity.
Qed.

(** C26: [startLoop] hands over the loop of the thread: from every state on the way
    to its return it can get there, whatever has happened before, and no step until
    then fails; the owner never sleeps unless a notification is still to come; and
    when it has returned, the loop is published, alive and has been shown to the
    callback, once, as long as nobody but the destructor quits the loop.  If the
    destructor ends then, it ends after the thread. *)
Theorem start_hands_over callback s : reachable callback false s ->
  (starting s = true -> (exists s', rtc (goes callback false) s s' /\ owner s' = OReady) /\
     forall r, step callback false s r -> exists s', r = Done s') /\
  (owner s = SBlocked -> notified s = false -> worker s ∈ [WInit; WLock; WPublish]) /\
  (owner s = OReady -> loop_ s = true /\ alive s = true /\ inited s = if callback then 1 else 0) /\
  (owner s = DDone -> worker s = WDone /\ alive s = false).
Proof.
  intros H%started_well_all. unfold started_well in H. rewrite !andb_true_iff, !orb_true_iff, !negb_true_iff in H.
  destruct H as (((H1 & H2) & H3) & H4). split_and!.
  - intros Hs. destruct H1 as [H1|[Hf Hc]%andb_true_iff]; [congruence|]. split; [|intros r; apply no_failure_step, Hf].
    destruct (can_rtc _ _ _ _ _ _ (bool_decide_eq_true_1 _ Hc)) as (s' & Hr & Hg). exists s'. split; [exact Hr|].
    exact (bool_decide_eq_true_1 _ Hg).
  - intros Ho Hn. rewrite Ho, Hn in H3. destruct H3 as [H3|H3]; [discriminate|]. exact (bool_decide_eq_true_1 _ H3).
  - unfold returned in H2. intros Ho. rewrite Ho in H2. destruct H2 as [H2|H2]; [discriminate|].
    rewrite !andb_true_iff in H2. destruct H2 as [[Hl Ha] Hi]. split_and!; try done. exact (bool_decide_eq_true_1 _ Hi).
  - intros Ho. rewrite Ho in H4. destruct H4 as [H4|H4]; [discriminate|]. rewrite andb_true_iff, negb_true_iff in H4.
    destruct H4 as [Hw Ha]. split; [exact (bool_decide_eq_true_1 _ Hw)|exact Ha].
Qed.

(** The thread that enters its loop after the destructor has told it to quit. *)
Definition forgotten (callback : bool) : sys :=
  {| owner := DJoin; worker := WTest; loop_ := true; mutex_ := None; notified := true; alive := true; quit_ := false;
     inited := if callback then 1 else 0 |}.

(** One whose loop has ended before the destructor wakes it up. *)
Definition ended_early (callback : bool) : sys :=
  {| owner := DWake; worker := WDone; loop_ := false; mutex_ := None; notified := true; alive := false; quit_ := true;
     inited := if callback then 1 else 0 |}.

(** One that somebody else has told to quit, when the object has been destroyed. *)
Definition left_behind (callback : bool) : sys :=
  {| owner := DDone; worker := WUnlock2; loop_ := false; mutex_ := Some false; notified := true; alive := true; quit_ := true;
     inited := if callback then 1 else 0 |}.

Definition joining (s : sys) : bool := bool_decide (owner s = DJoin).

Lemma can_be_reached callback others s :
  bool_decide (new ∈ can callback others (fun s' => bool_decide (s' = s)) 40 (all_states callback others)) = true ->
  reachable callback others s.
Proof.
  intros H%bool_decide_eq_true_1. destruct (can_rtc _ _ _ _ _ _ H) as (s' & Hr & Hs).
  apply bool_decide_eq_true_1 in Hs as ->. exact Hr.
Qed.

(** the destructor of an EventLoopThread can go wrong in three ways.  If it
    quits the loop before the thread has entered it, [EventLoop::loop] forgets
    that, and the destructor waits for ever; if the loop, quit, ends before the
    destructor wakes it up, that uses the destroyed loop; and if somebody else
    quits the loop, [loop_] can be null, so that the object is destroyed without
    joining the thread, which then unlocks its mutex. *)
Theorem destructor_races callback :
  (exists s, reachable callback false s /\ owner s = DJoin /\ forall s', rtc (goes callback false) s s' -> owner s' = DJoin) /\
  (exists s, reachable callback false s /\ owner s = DWake /\ step callback false s (Fail UndefinedBehaviour)) /\
  (exists s, reachable callback true s /\ owner s = DDone /\ step callback true s (Fail UndefinedBehaviour)).
Proof.
  split_and!.
  - exists (forgotten callback). split_and!; [apply can_be_reached; destruct callback; vm_compute; reflexivity|done|].
    intros s' Hr. apply (bool_decide_eq_true_1 _).
    apply (closed_forall callback false [forgotten callback] joining (forgotten callback)); [..|exact Hr];
      destruct callback; vm_compute; reflexivity.
  - exists (ended_early callback). split_and!; [apply can_be_reached; destruct callback; vm_compute; reflexivity|done|].
    now apply step_owner with false.
  - exists (left_behind callback). split_and!; [apply can_be_reached; destruct callback; vm_compute; reflexivity|done|].
    now apply step_worker with false.
Qed.

(** ** Examples *)
Module Demo.
(** The thread publishes its loop after the owner has gone to sleep. *)
Definition asleep : sys :=
  {| owner := SBlocked; worker := WPublish; loop_ := false; mutex_ := Some false; notified := false; alive := true; quit_ := false; inited := 1 |}.

Lemma owner_asleep_reachable : reachable true false asleep.
Proof. apply can_be_reached. vm_compute. reflexivity. Qed.

Lemma start_hands_over_witness : (exists s', rtc (goes true false) asleep s' /\ owner s' = OReady) /\
  worker asleep ∈ [WInit; WLock; WPublish].
Proof.
  destruct (start_hands_over true asleep owner_asleep_reachable) as (H1 & H2 & _). split.
  - exact (proj1 (H1 eq_refl)).
  - exact (H2 eq_refl eq_refl).
Defined.
End Demo.
