(* ===== verification/Regions.v ===== *)
(** Regions: memory shared by the allocators of [src/pool] - disjoint regions of
    addresses, pointer-sized words, linked free lists threaded through the free
    blocks, and the invariant of a family of free lists, one per block size. *)

From Stdlib Require Import ZArith Lia.
From S2P Require Import Prelude.

Local Open Scope Z_scope.

(** ** Regions: base address and size *)

Abbreviation region := (Z * Z)%type.
Definition apart (r1 r2 : region) : Prop := fst r1 + snd r1 <= fst r2 \/ fst r2 + snd r2 <= fst r1.
Definition inside (r1 r2 : region) : Prop := fst r2 <= fst r1 /\ fst r1 + snd r1 <= fst r2 + snd r2.

#[export] Instance apart_sym : Symmetric apart.
Proof. intros r1 r2. unfold apart. tauto. Qed.

Lemma apart_inside r r1 r2 : inside r1 r2 -> apart r r2 -> apart r r1.
Proof. unfold inside, apart. lia. Qed.

Lemma inside_trans r1 r2 r3 : inside r1 r2 -> inside r2 r3 -> inside r1 r3.
Proof. unfold inside. lia. Qed.

(** Pairwise apart. *)
Fixpoint sep (l : list region) : Prop :=
  match l with [] => True | r :: l' => Forall (apart r) l' /\ sep l' end.

#[export] Instance sep_perm : Proper ((≡ₚ) ==> iff) sep.
Proof.
  intros l1 l2 H. induction H as [|r l1 l2 H IH|r1 r2 l|l1 l2 l3 _ IH1 _ IH2]; cbn; [done|..].
  - now rewrite IH, H.
  - rewrite !Forall_cons. split; intros [[? ?] [? ?]]; split_and!; auto; now symmetry.
  - now rewrite IH1.
Qed.

Lemma sep_app l1 l2 : sep (l1 ++ l2) <-> sep l1 /\ sep l2 /\ Forall (fun r => Forall (apart r) l2) l1.
Proof.
  induction l1 as [|r l1 IH]; cbn; [rewrite Forall_nil; tauto|].
  rewrite Forall_app, Forall_cons, IH. tauto.
Qed.

Lemma sep_mono l l' : (forall r, r ∈ l' -> r ∈ l) -> NoDup l' -> sep l -> sep l'.
Proof.
  intros Hin Hnd Hs. assert (Hsub : l' ⊆+ l) by (apply NoDup_submseteq; auto).
  apply submseteq_Permutation in Hsub as [k Hk]. rewrite Hk in Hs. now apply sep_app in Hs.
Qed.

(** Parts of regions that are apart. *)
Lemma sep_inside (f : region -> region) l : (forall r, r ∈ l -> inside r (f r)) -> sep (map f l) -> sep l.
Proof.
  induction l as [|r l IH]; [done|]. cbn. intros Hi [Hr Hs]. split; [|apply IH; [|exact Hs]; intros x Hx; apply Hi; now right].
  rewrite Forall_map, Forall_forall in Hr. apply Forall_forall. intros x Hx.
  apply (apart_inside _ _ (f x)); [apply Hi; now right|]. symmetry. apply (apart_inside _ _ (f r)); [apply Hi; now left|].
  symmetry. exact (Hr x Hx).
Qed.

(** Equal blocks of a region. *)
Definition blk (n a : Z) : region := (a, n).
Definition addrs (c n : Z) (k : nat) : list Z := map (fun i => c + Z.of_nat i * n) (seq 0 k).

Lemma addrs_S c n k : addrs c n (S k) = c :: addrs (c + n) n k.
Proof.
  unfold addrs. cbn [seq map]. f_equal; [lia|]. rewrite <-seq_shift, map_map. apply map_ext. intros i. lia.
Qed.

Lemma elem_addrs c n k a : a ∈ addrs c n k -> exists i, (i < k)%nat /\ a = c + Z.of_nat i * n.
Proof.
  intros (i & -> & Hi)%list_elem_of_fmap. apply elem_of_seq in Hi. exists i. split; [lia|reflexivity].
Qed.

Lemma addrs_inside c n k : 0 <= n -> Forall (fun a => c <= a /\ inside (blk n a) (c, Z.of_nat k * n)) (addrs c n k).
Proof.
  intros Hn. apply Forall_forall. intros a (i & Hi & ->)%elem_addrs. unfold inside, blk; cbn. nia.
Qed.

Lemma addrs_sep c n k : 0 < n -> sep (map (blk n) (addrs c n k)).
Proof.
  intros Hn. revert c. induction k as [|k IH]; intros c; [exact I|]. rewrite addrs_S. cbn. split; [|apply IH].
  apply Forall_map. apply (Forall_impl _ _ _ (addrs_inside (c + n) n k ltac:(lia))). intros a [Ha _]. unfold apart, blk; cbn. lia.
Qed.

(** ** Memory *)

Abbreviation mem := (gmap Z Z).
(** The pointer-sized words of [m] outside the region are those of [m']. *)
Definition clobber (r : region) (m m' : mem) : Prop := forall x, apart (x, 8) r -> m' !! x = m !! x.

Lemma clobber_insert a v n m : 8 <= n -> clobber (blk n a) m (<[a := v]> m).
Proof. intros Hn x Hx. apply lookup_insert_ne. unfold apart, blk in Hx; cbn in Hx. lia. Qed.

(** The free list that starts at [p]. *)
Fixpoint chain (m : mem) (p : Z) (l : list Z) : Prop :=
  match l with
  | [] => p = 0
  | a :: l' => p = a /\ 0 < a /\ exists q, m !! a = Some q /\ chain m q l'
  end.

Lemma chain_frame m m' p l : (forall a, a ∈ l -> m' !! a = m !! a) -> chain m p l -> chain m' p l.
Proof.
  revert p. induction l as [|a l IH]; cbn; [done|]. intros p Hm (-> & Ha & q & Hq & Hc).
  split; [done|]. split; [done|]. exists q. split; [rewrite Hm by (now left); exact Hq|].
  apply IH; [|exact Hc]. intros b Hb. apply Hm. now right.
Qed.

(** The list a head denotes is unique. *)
Lemma chain_det m p l1 l2 : chain m p l1 -> chain m p l2 -> l1 = l2.
Proof.
  revert p l2. induction l1 as [|a l1 IH]; intros p [|b l2]; cbn; [done|..].
  - intros -> (<- & ? & _). lia.
  - intros (<- & ? & _) ->. lia.
  - intros (<- & _ & q & Hq & H1) (<- & _ & q' & Hq' & H2). f_equal. rewrite Hq in Hq'. injection Hq' as <-. exact (IH q l2 H1 H2).
Qed.

Lemma chain_push m p l a : chain m p l -> 0 < a -> a ∉ l -> chain (<[a := p]> m) a (a :: l).
Proof.
  intros Hc Ha Hn. split; [done|]. split; [done|]. exists p. split; [apply lookup_insert_eq|].
  apply (chain_frame m); [|exact Hc]. intros b Hb. apply lookup_insert_ne. congruence.
Qed.

(** Pushing blocks one after the other. *)
Definition push_all (st : mem * Z) (l : list Z) : mem * Z :=
  fold_left (fun st a => (<[a := snd st]> (fst st), a)) l st.

Lemma chain_push_all l m p fl : chain m p fl -> Forall (fun a => 0 < a) l -> NoDup (l ++ fl) ->
  chain (fst (push_all (m, p) l)) (snd (push_all (m, p) l)) (rev l ++ fl).
Proof.
  revert m p fl. induction l as [|a l IH]; intros m p fl Hc Hp Hnd; [exact Hc|].
  cbn in Hnd. apply NoDup_cons in Hnd as [Ha Hnd]. apply Forall_cons in Hp as [Ha0 Hp]. rewrite elem_of_app in Ha.
  cbn [push_all fold_left]. cbn [rev]. rewrite <-app_assoc. cbn [app]. apply (IH _ _ (a :: fl)).
  - apply chain_push; auto.
  - exact Hp.
  - rewrite <-Permutation_middle. apply NoDup_cons. split; [rewrite elem_of_app; auto|exact Hnd].
Qed.

Lemma push_all_frame l m p x : x ∉ l -> fst (push_all (m, p) l) !! x = m !! x.
Proof.
  revert m p. induction l as [|a l IH]; intros m p Hx; [reflexivity|]. rewrite not_elem_of_cons in Hx. cbn.
  unfold push_all in IH. rewrite (IH _ a) by apply Hx. apply lookup_insert_ne. intros ->. now apply Hx.
Qed.

(** ** Free lists by block size *)

(** The free blocks: [ls !! k] lists the blocks of size [sizes !! k]. *)
Definition free (sizes : list Z) (ls : list (list Z)) : list region :=
  concat (zip_with (fun n l => map (blk n) l) sizes ls).

Lemma free_insert sizes ls k n l l' : sizes !! k = Some n -> ls !! k = Some l ->
  free sizes (<[k := l']> ls) ++ map (blk n) l ≡ₚ free sizes ls ++ map (blk n) l'.
Proof.
  unfold free. revert sizes ls. induction k as [|k IH]; intros [|n0 sizes] [|l0 ls] Hn Hl; try discriminate; cbn in Hn, Hl.
  - injection Hn as ->. injection Hl as ->. cbn. solve_Permutation.
  - cbn. rewrite <-!app_assoc. f_equiv. exact (IH sizes ls Hn Hl).
Qed.

Lemma free_elem sizes ls r : r ∈ free sizes ls -> exists k n l a, sizes !! k = Some n /\ ls !! k = Some l /\ a ∈ l /\ r = blk n a.
Proof.
  unfold free. revert ls. induction sizes as [|n sizes IH]; intros [|l ls]; cbn; try (rewrite elem_of_nil; tauto).
  rewrite elem_of_app. intros [(a & -> & Ha)%list_elem_of_fmap|Hr].
  - exists 0%nat, n, l, a. auto.
  - destruct (IH ls Hr) as (k & n' & l' & a & H1 & H2 & H3 & H4). exists (S k), n', l', a. auto.
Qed.

Lemma elem_free sizes ls k n l a : sizes !! k = Some n -> ls !! k = Some l -> a ∈ l -> blk n a ∈ free sizes ls.
Proof.
  unfold free. revert sizes ls. induction k as [|k IH]; intros [|n0 sizes] [|l0 ls] Hn Hl Ha; try discriminate; cbn in Hn, Hl |- *; rewrite elem_of_app.
  - injection Hn as ->. injection Hl as ->. left. apply list_elem_of_fmap. eauto.
  - right. exact (IH sizes ls Hn Hl Ha).
Qed.

Section FreeLists.
Context (sizes : list Z) (sizes_word : Forall (fun n => 8 <= n) sizes).

(** The heads denote free lists whose blocks, together with the regions in use,
    are non-empty, apart from one another and inside the chunks. *)
Definition placed (chunks : list region) (r : region) : Prop :=
  0 < fst r /\ 0 < snd r /\ exists c, c ∈ chunks /\ inside r c.

Record MInv (m : mem) (heads : list Z) (chunks used : list region) (ls : list (list Z)) : Prop := {
  mi_heads : length heads = length sizes;
  mi_lists : length ls = length sizes;
  mi_chain k h l : heads !! k = Some h -> ls !! k = Some l -> chain m h l;
  mi_sep : sep (free sizes ls ++ used);
  mi_placed : Forall (placed chunks) (free sizes ls ++ used);
}.

Lemma minv_list m heads chunks used ls k h : MInv m heads chunks used ls -> heads !! k = Some h ->
  exists n l, sizes !! k = Some n /\ ls !! k = Some l /\ chain m h l /\ 8 <= n.
Proof.
  intros I Hh. pose proof (lookup_lt_Some _ _ _ Hh) as Hk. rewrite (mi_heads _ _ _ _ _ I) in Hk.
  destruct (sizes !! k) as [n|] eqn:En; [|apply lookup_ge_None in En; lia].
  destruct (ls !! k) as [l|] eqn:El; [|apply lookup_ge_None in El; rewrite (mi_lists _ _ _ _ _ I) in El; lia].
  exists n, l. split_and!; auto; [exact (mi_chain _ _ _ _ _ I k h l Hh El)|exact (Forall_lookup_1 _ _ _ _ sizes_word En)].
Qed.

(** The same regions, in another order. *)
Lemma minv_perm m heads chunks used used' ls : MInv m heads chunks used ls -> used ≡ₚ used' -> MInv m heads chunks used' ls.
Proof.
  intros I Hp. constructor; try apply I; rewrite <-Hp; apply I.
Qed.

Lemma minv_live_apart m heads chunks used ls : MInv m heads chunks used ls -> sep used.
Proof. intros I. pose proof (mi_sep _ _ _ _ _ I) as Hs. now apply sep_app in Hs. Qed.

Lemma minv_new m : MInv m (replicate (length sizes) 0) [] [] (replicate (length sizes) []).
Proof.
  assert (E : free sizes (replicate (length sizes) []) = []).
  { unfold free. clear. induction sizes as [|n l IH]; [reflexivity|exact IH]. }
  constructor; rewrite ?E; cbn; auto using length_replicate.
  intros k h l Hh Hl. apply lookup_replicate in Hh as [-> _]. apply lookup_replicate in Hl as [-> _]. reflexivity.
Qed.

(** Taking the first block of a list. *)
Lemma minv_pop m heads chunks used ls k h n : MInv m heads chunks used ls -> heads !! k = Some h -> sizes !! k = Some n -> h <> 0 ->
  exists q l, m !! h = Some q /\ ls !! k = Some (h :: l) /\ MInv m (<[k := q]> heads) chunks (blk n h :: used) (<[k := l]> ls).
Proof.
  intros I Hh Hn Hh0. destruct (minv_list _ _ _ _ _ _ _ I Hh) as (n' & [|a l] & Hn' & Hl & Hc & _); rewrite Hn in Hn'; injection Hn' as <-; cbn in Hc; [contradiction|].
  destruct Hc as (-> & Ha & q & Hq & Hc). exists q, l. split; [exact Hq|]. split; [exact Hl|].
  assert (Hp : free sizes (<[k := l]> ls) ++ blk n a :: used ≡ₚ free sizes ls ++ used).
  { pose proof (free_insert sizes ls k n _ l Hn Hl) as Hf. cbn in Hf.
    apply (Permutation_app_inv_r (map (blk n) l)). transitivity ((free sizes (<[k:=l]> ls) ++ blk n a :: map (blk n) l) ++ used); [solve_Permutation|].
    rewrite Hf. solve_Permutation. }
  constructor.
  - rewrite length_insert. apply I.
  - rewrite length_insert. apply I.
  - intros j h' l' Hj Hlj. destruct (decide (j = k)) as [->|Hne].
    + rewrite list_lookup_insert_eq in Hj by (apply lookup_lt_Some in Hh; done). rewrite list_lookup_insert_eq in Hlj by (apply lookup_lt_Some in Hl; done).
      injection Hj as <-. injection Hlj as <-. exact Hc.
    + rewrite list_lookup_insert_ne in Hj by done. rewrite list_lookup_insert_ne in Hlj by done. exact (mi_chain _ _ _ _ _ I j h' l' Hj Hlj).
  - rewrite Hp. apply I.
  - rewrite Hp. apply I.
Qed.

(** A change of memory inside a region in use, or outside all chunks. *)
Lemma minv_write m m' heads chunks used ls r : MInv m heads chunks used ls -> clobber r m m' ->
  (exists u, u ∈ used /\ inside r u) \/ Forall (apart r) chunks -> MInv m' heads chunks used ls.
Proof.
  intros I Hm Hr. constructor; try apply I. intros k h l Hh Hl. apply (chain_frame m); [|exact (mi_chain _ _ _ _ _ I k h l Hh Hl)].
  intros a Ha. apply Hm. destruct (minv_list _ _ _ _ _ _ _ I Hh) as (n & l' & Hn & Hl' & _ & Hn8). rewrite Hl in Hl'. injection Hl' as <-.
  pose proof (elem_free _ _ _ _ _ _ Hn Hl Ha) as Hin. assert (Hap : apart (blk n a) r).
  { destruct Hr as [(u & Hu & Hi)|Hr].
    - pose proof (mi_sep _ _ _ _ _ I) as Hs. apply sep_app in Hs as (_ & _ & Hs). rewrite Forall_forall in Hs. specialize (Hs _ Hin).
      rewrite Forall_forall in Hs. exact (apart_inside _ _ _ Hi (Hs u Hu)).
    - pose proof (mi_placed _ _ _ _ _ I) as Hp. apply Forall_app in Hp as [Hp _]. rewrite Forall_forall in Hp. destruct (Hp _ Hin) as (_ & _ & c & Hc & Hi).
      rewrite Forall_forall in Hr. symmetry. exact (apart_inside _ _ _ Hi (Hr c Hc)). }
  unfold apart, blk in *; cbn in *. lia.
Qed.

(** Giving a block in use back to a list. *)
Lemma minv_push m heads chunks used used' ls k h n l a : MInv m heads chunks used ls -> used ≡ₚ blk n a :: used' ->
  heads !! k = Some h -> sizes !! k = Some n -> ls !! k = Some l ->
  MInv (<[a := h]> m) (<[k := a]> heads) chunks used' (<[k := a :: l]> ls).
Proof.
  intros I Hu Hh Hn Hl. pose proof (minv_perm _ _ _ _ _ _ I Hu) as I1. clear I Hu.
  destruct (minv_list _ _ _ _ _ _ _ I1 Hh) as (n' & l' & Hn' & Hl' & Hc & Hn8). rewrite Hn in Hn'. injection Hn' as <-. rewrite Hl in Hl'. injection Hl' as <-.
  assert (Hp : free sizes (<[k := a :: l]> ls) ++ used' ≡ₚ free sizes ls ++ blk n a :: used').
  { pose proof (free_insert sizes ls k n _ (a :: l) Hn Hl) as Hf. cbn in Hf.
    apply (Permutation_app_inv_r (map (blk n) l)). transitivity ((free sizes (<[k:=a::l]> ls) ++ map (blk n) l) ++ used'); [solve_Permutation|].
    rewrite Hf. solve_Permutation. }
  assert (I2 : MInv (<[a := h]> m) heads chunks (blk n a :: used') ls).
  { apply (minv_write m _ _ _ _ _ (blk n a) I1); [now apply clobber_insert|]. left. exists (blk n a). split; [now left|]. unfold inside. lia. }
  constructor.
  - rewrite length_insert. apply I1.
  - rewrite length_insert. apply I1.
  - intros j h' l' Hj Hlj. destruct (decide (j = k)) as [->|Hne].
    + rewrite list_lookup_insert_eq in Hj by (apply lookup_lt_Some in Hh; done). rewrite list_lookup_insert_eq in Hlj by (apply lookup_lt_Some in Hl; done).
      injection Hj as <-. injection Hlj as <-. split; [done|]. split.
      * pose proof (mi_placed _ _ _ _ _ I1) as Hpl. apply Forall_app in Hpl as [_ Hpl]. apply Forall_cons in Hpl as [Hpl _]. apply Hpl.
      * exists h. split; [apply lookup_insert_eq|]. exact (mi_chain _ _ _ _ _ I2 k h l Hh Hl).
    + rewrite list_lookup_insert_ne in Hj by done. rewrite list_lookup_insert_ne in Hlj by done. exact (mi_chain _ _ _ _ _ I2 j h' l' Hj Hlj).
  - rewrite Hp. apply I1.
  - rewrite Hp. apply I1.
Qed.

(** A fresh region from [operator new]. *)
Lemma minv_grow m heads chunks used ls c n : MInv m heads chunks used ls -> 0 < c -> 0 < n -> Forall (apart (c, n)) chunks ->
  MInv m heads ((c, n) :: chunks) ((c, n) :: used) ls.
Proof.
  intros I Hc Hn Hap. pose proof (mi_placed _ _ _ _ _ I) as Hpl.
  assert (Hp : free sizes ls ++ (c, n) :: used ≡ₚ (c, n) :: free sizes ls ++ used) by solve_Permutation.
  constructor; try apply I; rewrite Hp.
  - split; [|apply I]. apply (Forall_impl _ _ _ Hpl). intros r (_ & _ & d & Hd & Hi). rewrite Forall_forall in Hap. exact (apart_inside _ _ _ Hi (Hap d Hd)).
  - apply Forall_cons. split.
    + split_and!; auto. exists (c, n). split; [now left|]. unfold inside. lia.
    + apply (Forall_impl _ _ _ Hpl). intros r (? & ? & d & Hd & Hi). split_and!; auto. exists d. split; [now right|exact Hi].
Qed.

(** A region that is a chunk of its own goes back to [operator delete]. *)
Lemma minv_delete m heads chunks chunks' used used' ls r : MInv m heads chunks used ls -> used ≡ₚ r :: used' ->
  (forall d, d ∈ chunks -> d = r \/ d ∈ chunks') -> MInv m heads chunks' used' ls.
Proof.
  intros I Hu Hch. pose proof (minv_perm _ _ _ _ _ _ I Hu) as I1. pose proof (mi_placed _ _ _ _ _ I1) as Hpl. pose proof (mi_sep _ _ _ _ _ I1) as Hs.
  assert (Hp : free sizes ls ++ r :: used' ≡ₚ r :: free sizes ls ++ used') by solve_Permutation. rewrite Hp in Hpl, Hs.
  destruct Hs as [Hr Hs]. apply Forall_cons in Hpl as [(Hr0 & Hr1 & _) Hpl]. constructor; try apply I1; [exact Hs|].
  rewrite Forall_forall in Hpl. rewrite Forall_forall in Hr. apply Forall_forall. intros x Hx. destruct (Hpl x Hx) as (? & Hx1 & d & Hd & Hi).
  split_and!; auto. destruct (Hch d Hd) as [->|Hd']; [|eauto].
  specialize (Hr x Hx). unfold apart, inside in *. lia.
Qed.

Lemma sep_split r a x y l : 0 < x -> 0 < y -> r = (a, x + y) -> sep (r :: l) -> sep ((a, x) :: (a + x, y) :: l).
Proof.
  intros Hx Hy -> [Hf Hs]. cbn. split_and!; auto.
  - apply Forall_cons. split; [unfold apart; cbn; lia|]. apply (Forall_impl _ _ _ Hf). intros q. unfold apart; cbn. lia.
  - apply (Forall_impl _ _ _ Hf). intros q. unfold apart; cbn. lia.
Qed.

(** A region in use is cut in two. *)
Lemma minv_split m heads chunks used used' ls a x y : MInv m heads chunks used ls -> used ≡ₚ (a, x + y) :: used' -> 0 < x -> 0 < y ->
  MInv m heads chunks ((a, x) :: (a + x, y) :: used') ls.
Proof.
  intros I Hu Hx Hy. pose proof (minv_perm _ _ _ _ _ _ I Hu) as I1. pose proof (mi_placed _ _ _ _ _ I1) as Hpl. pose proof (mi_sep _ _ _ _ _ I1) as Hs.
  assert (Hp : forall r, free sizes ls ++ r :: used' ≡ₚ r :: free sizes ls ++ used') by (intros; solve_Permutation). rewrite Hp in Hpl, Hs.
  assert (Hp2 : free sizes ls ++ (a, x) :: (a + x, y) :: used' ≡ₚ (a, x) :: (a + x, y) :: free sizes ls ++ used') by solve_Permutation.
  constructor; try apply I1; rewrite Hp2.
  - exact (sep_split _ _ _ _ _ Hx Hy eq_refl Hs).
  - rewrite !Forall_cons in *. destruct Hpl as [(Ha & _ & c & Hc & Hi) Hpl]. unfold inside in Hi; cbn in Ha, Hi.
    split_and!; [split_and!; cbn; auto; exists c; unfold inside; cbn; split; [exact Hc|lia]|split_and!; cbn; try lia; exists c; unfold inside; cbn; split; [exact Hc|lia]|exact Hpl].
Qed.

(** A region in use is cut into equal blocks. *)
Lemma minv_carve m heads chunks used ls c n k : 0 < n -> MInv m heads chunks ((c, Z.of_nat (S k) * n) :: used) ls ->
  MInv m heads chunks (map (blk n) (addrs c n (S k)) ++ used) ls.
Proof.
  intros Hn. revert c used. induction k as [|k IH]; intros c used I.
  - rewrite addrs_S. cbn [map app]. change (addrs (c + n) n 0) with (@nil Z). unfold blk.
    replace (Z.of_nat 1 * n) with n in I by lia. exact I.
  - rewrite addrs_S. pose proof (minv_split m heads chunks _ used ls c n (Z.of_nat (S k) * n) I ltac:(apply reflexive_eq; do 2 f_equal; lia) Hn ltac:(lia)) as I1.
    cbn [map app]. apply (minv_perm _ _ _ (map (blk n) (addrs (c + n) n (S k)) ++ blk n c :: used)); [|solve_Permutation].
    apply IH. apply (minv_perm _ _ _ _ _ _ I1). solve_Permutation.
Qed.

(** Giving several blocks back, one after the other. *)
Lemma minv_push_all l0 m heads chunks used ls k h n l : MInv m heads chunks (map (blk n) l0 ++ used) ls ->
  heads !! k = Some h -> sizes !! k = Some n -> ls !! k = Some l ->
  MInv (fst (push_all (m, h) l0)) (<[k := snd (push_all (m, h) l0)]> heads) chunks used (<[k := rev l0 ++ l]> ls).
Proof.
  revert m heads ls h l. induction l0 as [|a l0 IH]; intros m heads ls h l I Hh Hn Hl.
  - cbn. rewrite !list_insert_id by assumption. exact I.
  - cbn [map app] in I. pose proof (minv_push _ _ _ _ (map (blk n) l0 ++ used) _ k h n l a I (Permutation_refl _) Hh Hn Hl) as I1.
    specialize (IH _ _ _ a (a :: l) I1).
    rewrite !list_lookup_insert_eq in IH by (eapply lookup_lt_Some; eassumption). specialize (IH eq_refl Hn eq_refl).
    rewrite !list_insert_insert_eq in IH. cbn [rev]. rewrite <-app_assoc. exact IH.
Qed.
(** Blocks linked into an empty list by other means than pushing. *)
Lemma minv_install l0 m m' heads chunks used ls k h n a : MInv m heads chunks (map (blk n) l0 ++ used) ls ->
  heads !! k = Some h -> sizes !! k = Some n -> ls !! k = Some [] -> chain m' a l0 ->
  (forall x, x ∉ l0 -> m' !! x = m !! x) ->
  MInv m' (<[k := a]> heads) chunks used (<[k := l0]> ls).
Proof.
  intros I Hh Hn Hl Hc Hm.
  assert (Hp : free sizes (<[k := l0]> ls) ++ used ≡ₚ free sizes ls ++ map (blk n) l0 ++ used).
  { pose proof (free_insert sizes ls k n _ l0 Hn Hl) as Hf. cbn in Hf. rewrite app_nil_r in Hf. rewrite Hf. solve_Permutation. }
  constructor.
  - rewrite length_insert. apply I.
  - rewrite length_insert. apply I.
  - intros j h' l' Hj Hlj. destruct (decide (j = k)) as [->|Hne].
    + rewrite list_lookup_insert_eq in Hj by (apply lookup_lt_Some in Hh; done). rewrite list_lookup_insert_eq in Hlj by (apply lookup_lt_Some in Hl; done).
      injection Hj as <-. injection Hlj as <-. exact Hc.
    + rewrite list_lookup_insert_ne in Hj by done. rewrite list_lookup_insert_ne in Hlj by done.
      apply (chain_frame m); [|exact (mi_chain _ _ _ _ _ I j h' l' Hj Hlj)]. intros b Hb. apply Hm. intros Hb0.
      destruct (minv_list _ _ _ _ _ _ _ I Hj) as (nj & lj & Hnj & Hlj' & _ & Hn8). rewrite Hlj in Hlj'. injection Hlj' as <-.
      pose proof (elem_free _ _ _ _ _ _ Hnj Hlj Hb) as Hin. pose proof (mi_sep _ _ _ _ _ I) as Hs. apply sep_app in Hs as (_ & _ & Hs).
      rewrite Forall_forall in Hs. specialize (Hs _ Hin). apply Forall_app in Hs as [Hs _]. rewrite Forall_map, Forall_forall in Hs.
      specialize (Hs b Hb0). pose proof (Forall_lookup_1 _ _ _ _ sizes_word Hn). unfold apart, blk in Hs; cbn in *. lia.
  - rewrite Hp. apply I.
  - rewrite Hp. apply I.
Qed.
End FreeLists.
