(* ===== verification/FixedBlockPool.v ===== *)
(** FixedBlockPool: [pool/FixedBlockPool.h], a free list of blocks of [N] bytes.

    The operations act on the memory the blocks live in (the links are stored in
    the blocks) and on the pool's own fields.  [operator new] is an argument: the
    address it returns, or [None] when it throws. *)

From Stdlib Require Import ZArith Lia.
From S2P Require Import Prelude Regions.

Local Open Scope Z_scope.

Definition kChunkSize : nat := 64.

Record pool := mkPool {
  freeList_ : Z;
  chunks_ : list Z;
  allocated_ : Z;
  freed_ : Z;
}.

Definition operator_new {S} (fresh : option Z) : ST S Z :=
  match fresh with Some c => mret c | None => fail LengthError end.

(** [ptr->next = v] and [ptr->next]. *)
Definition store (a v : Z) : ST (mem * pool) unit := modify (fun '(m, p) => (<[a := v]> m, p)).
Definition load (a : Z) : ST (mem * pool) Z := s ← get; deref (fst s !! a).
Definition upd (f : pool -> pool) : ST (mem * pool) unit := modify (fun '(m, p) => (m, f p)).
Definition set_free (a : Z) (p : pool) : pool := mkPool a (chunks_ p) (allocated_ p) (freed_ p).

Section FixedBlockPool.
Context (N : Z).   (* static_assert: N >= sizeof(void* ) *)

Definition allocateChunk (fresh : option Z) : ST (mem * pool) unit :=
  c ← operator_new fresh;
  _ ← upd (fun p => mkPool (freeList_ p) (chunks_ p ++ [c]) (allocated_ p) (freed_ p));
  for_each (seq 0 kChunkSize) (fun i =>
    let node := c + Z.of_nat i * N in
    s ← get; _ ← store node (freeList_ (snd s)); upd (set_free node)).

Definition new (fresh : option Z) (m : mem) : outcome (unit * (mem * pool)) :=
  allocateChunk fresh (m, mkPool 0 [] 0 0).

Definition allocate (fresh : option Z) : ST (mem * pool) Z :=
  s ← get;
  _ ← when (freeList_ (snd s) =? 0) (allocateChunk fresh);
  s ← get;
  let result := freeList_ (snd s) in
  next ← load result;
  _ ← upd (set_free next);
  _ ← upd (fun p => mkPool (freeList_ p) (chunks_ p) (wrap64 (allocated_ p + 1)) (freed_ p));
  mret result.

Definition deallocate (ptr : Z) : ST (mem * pool) unit :=
  if ptr =? 0 then mret tt else
  s ← get; _ ← store ptr (freeList_ (snd s)); _ ← upd (set_free ptr);
  upd (fun p => mkPool (freeList_ p) (chunks_ p) (allocated_ p) (wrap64 (freed_ p + 1))).

(** The chunks the destructor returns to [operator delete]. *)
Definition destroy (p : pool) : list Z := chunks_ p.
Definition allocatedCount (p : pool) : Z := allocated_ p.
Definition freedCount (p : pool) : Z := freed_ p.

(** ** What they do to the free lists of the program *)

Lemma carve_loop c l m p :
  for_each l (fun i => let node := c + Z.of_nat i * N in
    s ← get; _ ← store node (freeList_ (snd s)); upd (set_free node)) (m, p) =
  let st := push_all (m, freeList_ p) (map (fun i => c + Z.of_nat i * N) l) in
  Done (tt, (fst st, set_free (snd st) p)).
Proof.
  revert m p. induction l as [|i l IH]; intros m p; [now destruct p|].
  rewrite (for_each_cons i l _ (m, p) (<[c + Z.of_nat i * N := freeList_ p]> m, set_free (c + Z.of_nat i * N) p) eq_refl).
  rewrite IH. reflexivity.
Qed.

Lemma allocateChunk_eq c m p : allocateChunk (Some c) (m, p) =
  let st := push_all (m, freeList_ p) (addrs c N kChunkSize) in
  Done (tt, (fst st, mkPool (snd st) (chunks_ p ++ [c]) (allocated_ p) (freed_ p))).
Proof. unfold allocateChunk. cbn [operator_new]. rewrite bind_ret_l. exact (carve_loop c (seq 0 kChunkSize) m _). Qed.

Context (sizes : list Z) (sizes_word : Forall (fun n => 8 <= n) sizes).

(** The pool is the [k]-th free list. *)
Lemma allocateChunk_inv m p heads chunks used ls k c :
  MInv sizes m heads chunks used ls -> sizes !! k = Some N -> heads !! k = Some (freeList_ p) ->
  0 < c -> Forall (apart (c, 64 * N)) chunks ->
  exists m' p' ls', allocateChunk (Some c) (m, p) = Done (tt, (m', p')) /\ freeList_ p' <> 0 /\
    chunks_ p' = chunks_ p ++ [c] /\ allocated_ p' = allocated_ p /\ freed_ p' = freed_ p /\
    MInv sizes m' (<[k := freeList_ p']> heads) ((c, 64 * N) :: chunks) used ls'.
Proof.
  intros I Hn Hh Hc Hap. destruct (minv_list sizes sizes_word _ _ _ _ _ _ _ I Hh) as (n & l & Hn' & Hl & _ & Hn8).
  rewrite Hn in Hn'. injection Hn' as <-. rewrite allocateChunk_eq.
  pose proof (minv_grow sizes m heads chunks used ls c (64 * N) I Hc ltac:(lia) Hap) as I1.
  pose proof (minv_carve sizes m heads _ used ls c N 63 ltac:(lia) I1) as I2.
  pose proof (minv_push_all sizes sizes_word (addrs c N kChunkSize) m heads _ used ls k _ N l I2 Hh Hn Hl) as I3.
  eexists _, _, _. split; [reflexivity|]. cbn [freeList_ chunks_ allocated_ freed_].
  split_and!; try reflexivity; [|exact I3].
  assert (Hh3 : <[k := snd (push_all (m, freeList_ p) (addrs c N kChunkSize))]> heads !! k = Some (snd (push_all (m, freeList_ p) (addrs c N kChunkSize)))).
  { apply list_lookup_insert_eq. eapply lookup_lt_Some; eassumption. }
  assert (Hl3 : <[k := rev (addrs c N kChunkSize) ++ l]> ls !! k = Some (rev (addrs c N kChunkSize) ++ l)).
  { apply list_lookup_insert_eq. eapply lookup_lt_Some; eassumption. }
  pose proof (mi_chain _ _ _ _ _ _ I3 k _ _ Hh3 Hl3) as Hchain.
  intros E. rewrite E in Hchain.
  destruct (rev (addrs c N kChunkSize) ++ l) as [|a r] eqn:Er; [|cbn in Hchain; lia].
  apply app_eq_nil in Er as [Er _]. apply (f_equal length) in Er. rewrite length_rev in Er. discriminate.
Qed.

(** [allocate] succeeds and hands out a block apart from everything in use. *)
Lemma allocate_inv m p heads chunks used ls k c :
  MInv sizes m heads chunks used ls -> sizes !! k = Some N -> heads !! k = Some (freeList_ p) ->
  (freeList_ p = 0 -> 0 < c /\ Forall (apart (c, 64 * N)) chunks) ->
  exists a m' p' ls', allocate (Some c) (m, p) = Done (a, (m', p')) /\
    chunks_ p' = (if freeList_ p =? 0 then chunks_ p ++ [c] else chunks_ p) /\
    allocated_ p' = wrap64 (allocated_ p + 1) /\ freed_ p' = freed_ p /\
    MInv sizes m' (<[k := freeList_ p']> heads) (if freeList_ p =? 0 then (c, 64 * N) :: chunks else chunks) (blk N a :: used) ls'.
Proof.
  intros I Hn Hh Hc. unfold allocate. st_get. cbn [snd].
  assert (Hpop : forall m1 p1 heads1 chunks1 ls1, MInv sizes m1 heads1 chunks1 used ls1 -> heads1 !! k = Some (freeList_ p1) -> freeList_ p1 <> 0 ->
    exists q ls2, m1 !! freeList_ p1 = Some q /\ MInv sizes m1 (<[k := q]> heads1) chunks1 (blk N (freeList_ p1) :: used) ls2).
  { intros m1 p1 heads1 chunks1 ls1 I1 Hh1 H0. destruct (minv_pop sizes sizes_word _ _ _ _ _ _ _ _ I1 Hh1 Hn H0) as (q & l & Hq & _ & I2). eauto. }
  destruct (Z.eqb_spec (freeList_ p) 0) as [E|E]; cbn [when].
  - destruct (Hc E) as [Hc0 Hap]. destruct (allocateChunk_inv m p heads chunks used ls k c I Hn Hh Hc0 Hap) as (m1 & p1 & ls1 & Ea & H0 & Hch & Hal & Hfr & I1).
    st_step Ea. st_get. cbn [snd].
    assert (Hh1 : <[k := freeList_ p1]> heads !! k = Some (freeList_ p1)) by (apply list_lookup_insert_eq; eapply lookup_lt_Some; eassumption).
    destruct (Hpop m1 p1 _ _ ls1 I1 Hh1 H0) as (q & ls2 & Hq & I2). rewrite list_insert_insert_eq in I2.
    eexists _, _, (mkPool q (chunks_ p1) (wrap64 (allocated_ p1 + 1)) (freed_ p1)), ls2. split.
    + unfold load. rewrite bind_assoc, bind_get. cbn [fst]. rewrite Hq. reflexivity.
    + cbn. rewrite Hch, Hal, Hfr. split_and!; try reflexivity. exact I2.
  - rewrite bind_ret_l. st_get. cbn [snd]. destruct (Hpop m p heads chunks ls I Hh E) as (q & ls2 & Hq & I2).
    eexists _, _, (mkPool q (chunks_ p) (wrap64 (allocated_ p + 1)) (freed_ p)), ls2. split.
    + unfold load. rewrite bind_assoc, bind_get. cbn [fst]. rewrite Hq. reflexivity.
    + split_and!; try reflexivity. exact I2.
Qed.

Lemma deallocate_inv m p heads chunks used used' ls k a :
  MInv sizes m heads chunks used ls -> sizes !! k = Some N -> heads !! k = Some (freeList_ p) -> used ≡ₚ blk N a :: used' ->
  exists m' p' ls', deallocate a (m, p) = Done (tt, (m', p')) /\
    chunks_ p' = chunks_ p /\ allocated_ p' = allocated_ p /\ freed_ p' = wrap64 (freed_ p + 1) /\
    MInv sizes m' (<[k := freeList_ p']> heads) chunks used' ls'.
Proof.
  intros I Hn Hh Hu. destruct (minv_list sizes sizes_word _ _ _ _ _ _ _ I Hh) as (n & l & Hn' & Hl & _ & _).
  rewrite Hn in Hn'. injection Hn' as <-.
  pose proof (minv_push sizes sizes_word _ _ _ _ _ _ _ _ _ l a I Hu Hh Hn Hl) as I1.
  assert (Ha : 0 < a).
  { pose proof (mi_placed _ _ _ _ _ _ I) as Hp. rewrite Hu in Hp. apply Forall_app in Hp as [_ Hp]. apply Forall_cons in Hp as [Hp _]. apply Hp. }
  unfold deallocate. rewrite (proj2 (Z.eqb_neq _ _)) by lia.
  eexists _, (mkPool a (chunks_ p) (allocated_ p) (wrap64 (freed_ p + 1))), _. split; [reflexivity|].
  split_and!; try reflexivity. exact I1.
Qed.
End FixedBlockPool.
