(* ===== verification/SlabAllocator.v ===== *)
(** SlabAllocator: [pool/SlabAllocator.h], a free list of objects of a size given
    at run time, refilled one slab at a time. *)

From Stdlib Require Import ZArith Lia.
From S2P Require Import Prelude Regions.

Local Open Scope Z_scope.

Record slab := mkSlab {
  objectSize_ : Z;
  objectsPerSlab_ : Z;
  freeList_ : Z;
  slabs_ : list Z;
}.

Definition new (objectSize objectsPerSlab : Z) : slab := mkSlab (Z.max objectSize 8) objectsPerSlab 0 [].

(** [*static_cast<void**>(ptr) = v] and its reading. *)
Definition store (a v : Z) : ST (mem * slab) unit := modify (fun '(m, p) => (<[a := v]> m, p)).
Definition load (a : Z) : ST (mem * slab) Z := s ← get; deref (fst s !! a).
Definition upd (f : slab -> slab) : ST (mem * slab) unit := modify (fun '(m, p) => (m, f p)).
Definition set_free (a : Z) (p : slab) : slab := mkSlab (objectSize_ p) (objectsPerSlab_ p) a (slabs_ p).

Definition deallocate (ptr : Z) : ST (mem * slab) unit :=
  if ptr =? 0 then mret tt else
  s ← get; _ ← store ptr (freeList_ (snd s)); upd (set_free ptr).

(** [fresh]: what [operator new] answers, [None] when it throws. *)
Definition allocateSlab (fresh : option Z) : ST (mem * slab) unit :=
  s ← get;
  c ← match fresh with Some c => mret c | None => fail LengthError end;
  _ ← upd (fun p => mkSlab (objectSize_ p) (objectsPerSlab_ p) (freeList_ p) (slabs_ p ++ [c]));
  for_each (seq 0 (Z.to_nat (objectsPerSlab_ (snd s)))) (fun i => deallocate (c + Z.of_nat i * objectSize_ (snd s))).

(** The size [allocateSlab] asks for, as computed. *)
Definition slabSize (p : slab) : Z := wrap64 (objectSize_ p * objectsPerSlab_ p).

Definition allocate (fresh : option Z) : ST (mem * slab) Z :=
  s ← get;
  _ ← when (freeList_ (snd s) =? 0) (allocateSlab fresh);
  s ← get;
  let result := freeList_ (snd s) in
  next ← load result;
  _ ← upd (set_free next);
  mret result.

Definition objectSize (p : slab) : Z := objectSize_ p.
(** The slabs the destructor returns. *)
Definition destroy (p : slab) : list Z := slabs_ p.

(** ** Use of an allocator by a program *)

(** [chunks]: the slabs obtained; [live]: the objects handed out. *)
Definition fresh_ok (chunks : list region) (c : Z) (p : slab) : Prop :=
  freeList_ p = 0 -> 0 < c /\ Forall (apart (c, slabSize p)) chunks.

Inductive step : (mem * slab * list region * list Z) -> (mem * slab * list region * list Z) -> Prop :=
  | step_allocate m p chunks live c a m' p' : fresh_ok chunks c p -> allocate (Some c) (m, p) = Done (a, (m', p')) ->
      step (m, p, chunks, live) (m', p', if freeList_ p =? 0 then (c, slabSize p) :: chunks else chunks, a :: live)
  | step_deallocate m p chunks live live' a m' p' : live ≡ₚ a :: live' -> deallocate a (m, p) = Done (tt, (m', p')) ->
      step (m, p, chunks, live) (m', p', chunks, live')
  | step_write m p chunks live r m' : clobber r m m' ->
      (exists a, a ∈ live /\ inside r (blk (objectSize_ p) a)) \/ Forall (apart r) chunks ->
      step (m, p, chunks, live) (m', p, chunks, live).

Definition reachable (size k : Z) (s : mem * slab * list region * list Z) : Prop := exists m, rtc step (m, new size k, [], []) s.

Section SlabAllocator.
Context (size k : Z).
Hypothesis k_pos : 0 < k.
Hypothesis no_overflow : Z.max size 8 * k < size_mod.

Let n : Z := Z.max size 8.

Definition SInv (s : mem * slab * list region * list Z) : Prop :=
  let '(m, p, chunks, live) := s in
  objectSize_ p = n /\ objectsPerSlab_ p = k /\
  exists ls, MInv [n] m [freeList_ p] chunks (map (blk n) live) ls.

Lemma slab_sizes_word : Forall (fun n => 8 <= n) [n].
Proof. repeat constructor. unfold n. lia. Qed.

Lemma slabSize_eq p : objectSize_ p = n -> objectsPerSlab_ p = k -> slabSize p = n * k.
Proof. intros E1 E2. unfold slabSize. rewrite E1, E2. apply wrap64_small. unfold n. nia. Qed.

Lemma dealloc_loop c l m p : Forall (fun i => 0 < c + Z.of_nat i * objectSize_ p) l ->
  for_each l (fun i => deallocate (c + Z.of_nat i * objectSize_ p)) (m, p) =
  let st := push_all (m, freeList_ p) (map (fun i => c + Z.of_nat i * objectSize_ p) l) in
  Done (tt, (fst st, set_free (snd st) p)).
Proof.
  intros Hl. assert (H : forall q, objectSize_ q = objectSize_ p -> forall m,
    for_each l (fun i => deallocate (c + Z.of_nat i * objectSize_ p)) (m, q) =
    let st := push_all (m, freeList_ q) (map (fun i => c + Z.of_nat i * objectSize_ p) l) in Done (tt, (fst st, set_free (snd st) q))).
  { induction Hl as [|i l Hi _ IH]; intros q Eq m'; [now destruct q|].
    rewrite (for_each_cons i l _ (m', q) (<[c + Z.of_nat i * objectSize_ p := freeList_ q]> m', set_free (c + Z.of_nat i * objectSize_ p) q)).
    - rewrite IH by exact Eq. reflexivity.
    - unfold deallocate. rewrite (proj2 (Z.eqb_neq _ _)) by lia. reflexivity. }
  now apply H.
Qed.

Lemma allocateSlab_inv m p chunks live ls c : objectSize_ p = n -> objectsPerSlab_ p = k ->
  MInv [n] m [freeList_ p] chunks (map (blk n) live) ls -> 0 < c -> Forall (apart (c, slabSize p)) chunks ->
  exists m' p' ls', allocateSlab (Some c) (m, p) = Done (tt, (m', p')) /\ freeList_ p' <> 0 /\
    objectSize_ p' = n /\ objectsPerSlab_ p' = k /\
    MInv [n] m' [freeList_ p'] ((c, slabSize p) :: chunks) (map (blk n) live) ls'.
Proof.
  intros En Ek I Hc Hap. rewrite (slabSize_eq p En Ek) in *. pose proof slab_sizes_word as Hw. pose proof (Forall_inv Hw) as Hn8.
  destruct (minv_list _ Hw _ _ _ _ _ 0 _ I eq_refl) as (n' & l & Hn' & Hl & _). cbn in Hn'. injection Hn' as <-.
  destruct (Z.to_nat k) as [|k'] eqn:Ekn; [lia|].
  pose proof (minv_grow _ m _ chunks _ ls c (n * k) I Hc ltac:(nia) Hap) as I1.
  replace (n * k) with (Z.of_nat (S k') * n) in I1 at 2 by nia.
  pose proof (minv_carve _ m _ _ _ ls c n k' ltac:(lia) I1) as I2.
  pose proof (minv_push_all _ Hw (addrs c n (S k')) m _ _ _ ls 0 _ n l I2 eq_refl eq_refl Hl) as I3.
  unfold allocateSlab. st_get. rewrite bind_ret_l. unfold upd at 1. st_modify. cbn [snd]. rewrite Ek, Ekn.
  set (q := mkSlab (objectSize_ p) k (freeList_ p) (slabs_ p ++ [c])).
  pose proof (dealloc_loop c (seq 0 (S k')) m q) as Hd. change (objectSize_ q) with (objectSize_ p) in Hd. rewrite Hd; clear Hd.
  2: { apply Forall_forall. intros i _. rewrite En. nia. }
  rewrite En. change (map _ (seq 0 (S k'))) with (addrs c n (S k')). change (freeList_ q) with (freeList_ p).
  eexists _, _, _. split; [reflexivity|]. split_and!; [|exact En|reflexivity|exact I3].
  cbn [set_free freeList_]. pose proof (mi_chain _ _ _ _ _ _ I3 0 _ _ eq_refl ltac:(apply list_lookup_insert_eq; eapply lookup_lt_Some; exact Hl)) as Hch.
  intros E. change (snd (push_all (m, freeList_ p) (addrs c n (S k'))) = 0) in E.
  change (chain (fst (push_all (m, freeList_ p) (addrs c n (S k')))) (snd (push_all (m, freeList_ p) (addrs c n (S k')))) (rev (addrs c n (S k')) ++ l)) in Hch.
  rewrite E in Hch.
  destruct (rev (addrs c n (S k')) ++ l) as [|a r] eqn:Er; [|cbn in Hch; lia].
  apply app_eq_nil in Er as [Er _]. apply (f_equal length) in Er. rewrite length_rev in Er. discriminate.
Qed.

(** [allocate] succeeds. *)
Lemma slab_allocate_ok m p chunks live c : SInv (m, p, chunks, live) -> fresh_ok chunks c p ->
  exists a m' p', allocate (Some c) (m, p) = Done (a, (m', p')) /\
    SInv (m', p', if freeList_ p =? 0 then (c, slabSize p) :: chunks else chunks, a :: live).
Proof.
  intros (En & Ek & ls & I) Hf. unfold allocate. st_get. cbn [snd].
  assert (Hpop : forall m1 p1 chunks1 ls1, MInv [n] m1 [freeList_ p1] chunks1 (map (blk n) live) ls1 -> freeList_ p1 <> 0 ->
    exists q ls2, m1 !! freeList_ p1 = Some q /\ MInv [n] m1 [q] chunks1 (map (blk n) (freeList_ p1 :: live)) ls2).
  { intros m1 p1 chunks1 ls1 I1 H0. destruct (minv_pop _ slab_sizes_word _ _ _ _ _ 0 _ n I1 eq_refl eq_refl H0) as (q & l & Hq & _ & I2). eauto. }
  destruct (Z.eqb_spec (freeList_ p) 0) as [E|E]; cbn [when].
  - destruct (Hf E) as [Hc Hap]. destruct (allocateSlab_inv m p chunks live ls c En Ek I Hc Hap) as (m1 & p1 & ls1 & Ea & H0 & En1 & Ek1 & I1).
    st_step Ea. st_get. cbn [snd]. destruct (Hpop m1 p1 _ ls1 I1 H0) as (q & ls2 & Hq & I2).
    eexists _, _, (set_free q p1). split; [unfold load; rewrite bind_assoc, bind_get; cbn [fst]; rewrite Hq; reflexivity|].
    split; [exact En1|]. split; [exact Ek1|]. exists ls2. exact I2.
  - rewrite bind_ret_l. st_get. cbn [snd]. destruct (Hpop m p _ ls I E) as (q & ls2 & Hq & I2).
    eexists _, _, (set_free q p). split; [unfold load; rewrite bind_assoc, bind_get; cbn [fst]; rewrite Hq; reflexivity|].
    split; [exact En|]. split; [exact Ek|]. exists ls2. exact I2.
Qed.

Lemma slab_deallocate_ok m p chunks live live' a : SInv (m, p, chunks, live) -> live ≡ₚ a :: live' ->
  exists m' p', deallocate a (m, p) = Done (tt, (m', p')) /\ SInv (m', p', chunks, live').
Proof.
  intros (En & Ek & ls & I) Hl. pose proof slab_sizes_word as Hw.
  destruct (minv_list _ Hw _ _ _ _ _ 0 _ I eq_refl) as (n' & l & Hn' & Hl0 & _). cbn in Hn'. injection Hn' as <-.
  assert (Hu : map (blk n) live ≡ₚ blk n a :: map (blk n) live') by (exact (Permutation_map (blk n) Hl)).
  assert (Ha : 0 < a).
  { pose proof (mi_placed _ _ _ _ _ _ I) as Hp. rewrite Hu in Hp. apply Forall_app in Hp as [_ Hp]. apply Forall_cons in Hp as [Hp _]. apply Hp. }
  pose proof (minv_push _ Hw _ _ _ _ _ _ 0 _ n l a I Hu eq_refl eq_refl Hl0) as I1.
  unfold deallocate. rewrite (proj2 (Z.eqb_neq _ _)) by lia. eexists _, (set_free a p). split; [reflexivity|].
  split; [exact En|]. split; [exact Ek|]. eexists. exact I1.
Qed.

Lemma SInv_step s s' : SInv s -> step s s' -> SInv s'.
Proof.
  intros I Hst. destruct Hst as [m p chunks live c a m' p' Hf E|m p chunks live live' a m' p' Hl E|m p chunks live r m' Hm Hr].
  - destruct (slab_allocate_ok m p chunks live c I Hf) as (a1 & m1 & p1 & E1 & I1). rewrite E in E1. injection E1 as <- <- <-. exact I1.
  - destruct (slab_deallocate_ok m p chunks live live' a I Hl) as (m1 & p1 & E1 & I1). rewrite E in E1. injection E1 as <- <-. exact I1.
  - destruct I as (En & Ek & ls & I). split; [exact En|]. split; [exact Ek|]. exists ls.
    apply (minv_write _ slab_sizes_word m m' _ _ _ _ r I Hm). destruct Hr as [(a & Ha & Hi)|Hr]; [left|now right].
    exists (blk n a). split; [apply list_elem_of_fmap; eauto|]. now rewrite <-En.
Qed.

Lemma slab_SInv_reachable s : reachable size k s -> SInv s.
Proof.
  intros [m H]. revert s H. apply (rtc_ind_r SInv).
  - split; [reflexivity|]. split; [reflexivity|]. exists [[]]. exact (minv_new [n] m).
  - intros s s' _ Hst IH. exact (SInv_step s s' IH Hst).
Qed.

(** whatever a program allocates, frees and writes into its own objects, the
    allocator never touches a dangling or null link: every allocation succeeds
    with an object inside a slab and apart from all the objects in use, and every
    object in use can be freed. *)
Theorem slab_safe m p chunks live : reachable size k (m, p, chunks, live) ->
  sep (map (blk n) live) /\
  Forall (fun a => 0 < a /\ exists c, c ∈ chunks /\ inside (blk n a) c) live /\
  (forall c, fresh_ok chunks c p -> exists a m' p', allocate (Some c) (m, p) = Done (a, (m', p')) /\
     Forall (fun b => apart (blk n a) (blk n b)) live) /\
  (forall a live', live ≡ₚ a :: live' -> exists m' p', deallocate a (m, p) = Done (tt, (m', p'))).
Proof.
  intros Hr. pose proof (slab_SInv_reachable _ Hr) as I. destruct I as (En & Ek & ls & I). split_and!.
  - exact (minv_live_apart _ _ _ _ _ _ I).
  - pose proof (mi_placed _ _ _ _ _ _ I) as Hp. apply Forall_app in Hp as [_ Hp]. rewrite Forall_map in Hp.
    apply (Forall_impl _ _ _ Hp). intros a (Ha & _ & Hin). auto.
  - intros c Hf. destruct (slab_allocate_ok m p chunks live c (slab_SInv_reachable _ Hr) Hf) as (a & m' & p' & E & _ & _ & ls' & I').
    exists a, m', p'. split; [exact E|]. pose proof (minv_live_apart _ _ _ _ _ _ I') as Hs. cbn in Hs. destruct Hs as [Hs _].
    now rewrite Forall_map in Hs.
  - intros a live' Hl. destruct (slab_deallocate_ok m p chunks live live' a (slab_SInv_reachable _ Hr) Hl) as (m' & p' & E & _). eauto.
Qed.
End SlabAllocator.

(** A slab of no objects leaves the list empty: [allocate] dereferences null. *)
Example empty_slab_undefined : allocate (Some 4096) (∅, new 16 0) = Fail UndefinedBehaviour.
Proof. reflexivity. Qed.

Module Demo.
(** Two objects are allocated and the first one is freed. *)
Definition s1 := match allocate (Some 4096) (∅, new 4 2) with Done (_, s) => s | Fail _ => (∅, new 4 2) end.
Definition s2 := match allocate None s1 with Done (_, s) => s | Fail _ => s1 end.

Lemma two_reachable : reachable 4 2 (s2, [(4096, 16)], [4096; 4104]).
Proof.
  exists ∅. apply rtc_l with (s1, [(4096, 16)], [4104]).
  - refine (step_allocate ∅ (new 4 2) [] [] 4096 4104 (fst s1) (snd s1) _ _); [intros _; split; [lia|constructor]|vm_compute; reflexivity].
  - apply rtc_once. refine (step_allocate (fst s1) (snd s1) [(4096, 16)] [4104] 0 4096 (fst s2) (snd s2) _ _); [|vm_compute; reflexivity].
    intros E. vm_compute in E. discriminate.
Qed.

Lemma slab_safe_witness : 
  freeList_ (snd s2) = 0 /\
  exists a m' p', allocate (Some 8192) s2 = Done (a, (m', p')) /\ Forall (fun b => apart (blk 8 a) (blk 8 b)) [4096; 4104].
Proof.
  split; [reflexivity|].
  refine (proj1 (proj2 (proj2 (slab_safe 4 2 _ _ (fst s2) (snd s2) [(4096, 16)] [4096; 4104] two_reachable))) 8192 _).
  - lia.
  - reflexivity.
  - intros _. split; [lia|]. constructor; [right; vm_compute; discriminate|constructor].
Defined.
End Demo.
