(* ===== verification/CoroutinePool.v ===== *)
(** CoroutinePool: [pool/CoroutinePool.h], five FixedBlockPools for coroutine
    frames up to 4096 bytes and [operator new] above. *)

From Stdlib Require Import ZArith Lia.
From S2P Require Import Prelude Regions FixedBlockPool.

Local Open Scope Z_scope.

Record cpool := mkCPool {
  slab256_ : pool;
  slab512_ : pool;
  slab1k_ : pool;
  slab2k_ : pool;
  slab4k_ : pool;
  globAlloc_ : Z;
  globFree_ : Z;
}.

Inductive slab := S256 | S512 | S1k | S2k | S4k.
Definition get_slab (k : slab) (c : cpool) : pool :=
  match k with S256 => slab256_ c | S512 => slab512_ c | S1k => slab1k_ c | S2k => slab2k_ c | S4k => slab4k_ c end.
Definition set_slab (k : slab) (p : pool) (c : cpool) : cpool :=
  match k with
  | S256 => mkCPool p (slab512_ c) (slab1k_ c) (slab2k_ c) (slab4k_ c) (globAlloc_ c) (globFree_ c)
  | S512 => mkCPool (slab256_ c) p (slab1k_ c) (slab2k_ c) (slab4k_ c) (globAlloc_ c) (globFree_ c)
  | S1k => mkCPool (slab256_ c) (slab512_ c) p (slab2k_ c) (slab4k_ c) (globAlloc_ c) (globFree_ c)
  | S2k => mkCPool (slab256_ c) (slab512_ c) (slab1k_ c) p (slab4k_ c) (globAlloc_ c) (globFree_ c)
  | S4k => mkCPool (slab256_ c) (slab512_ c) (slab1k_ c) (slab2k_ c) p (globAlloc_ c) (globFree_ c)
  end.
Definition bytes (k : slab) : Z := match k with S256 => 256 | S512 => 512 | S1k => 1024 | S2k => 2048 | S4k => 4096 end.

(** Run an operation of one of the pools. *)
Definition on_slab {A} (k : slab) (op : ST (mem * pool) A) : ST (mem * cpool) A := fun '(m, c) =>
  match op (m, get_slab k c) with
  | Done (a, (m', p')) => Done (a, (m', set_slab k p' c))
  | Fail f => Fail f
  end.
Definition count (f : cpool -> cpool) : ST (mem * cpool) unit := modify (fun '(m, c) => (m, f c)).

(** The pool that serves a frame of [size] bytes. *)
Definition slab_of (size : Z) : option slab :=
  if size <=? 256 then Some S256
  else if size <=? 512 then Some S512
  else if size <=? 1024 then Some S1k
  else if size <=? 2048 then Some S2k
  else if size <=? 4096 then Some S4k
  else None.

Definition allocate (fresh : option Z) (size : Z) : ST (mem * cpool) Z :=
  match slab_of size with
  | Some k => on_slab k (FixedBlockPool.allocate (bytes k) fresh)
  | None =>
      _ ← count (fun c => mkCPool (slab256_ c) (slab512_ c) (slab1k_ c) (slab2k_ c) (slab4k_ c) (wrap64 (globAlloc_ c + 1)) (globFree_ c));
      operator_new fresh
  end.

(** [ptr] goes back to [operator delete] where no pool serves the size. *)
Definition deallocate (ptr size : Z) : ST (mem * cpool) unit :=
  match slab_of size with
  | Some k => on_slab k (FixedBlockPool.deallocate ptr)
  | None => count (fun c => mkCPool (slab256_ c) (slab512_ c) (slab1k_ c) (slab2k_ c) (slab4k_ c) (globAlloc_ c) (wrap64 (globFree_ c + 1)))
  end.

Definition empty_pool : pool := mkPool 0 [] 0 0.
Definition empty_cpool : cpool := mkCPool empty_pool empty_pool empty_pool empty_pool empty_pool 0 0.
(** The constructors of the five members, in order, with the chunks they get. *)
Definition new (f1 f2 f3 f4 f5 : option Z) (m : mem) : outcome (unit * (mem * cpool)) :=
  (_ ← on_slab S256 (allocateChunk (bytes S256) f1); _ ← on_slab S512 (allocateChunk (bytes S512) f2); _ ← on_slab S1k (allocateChunk (bytes S1k) f3);
   _ ← on_slab S2k (allocateChunk (bytes S2k) f4); on_slab S4k (allocateChunk (bytes S4k) f5))
  (m, empty_cpool).

Definition slab256Alloc (c : cpool) : Z := allocatedCount (slab256_ c).
Definition slab512Alloc (c : cpool) : Z := allocatedCount (slab512_ c).
Definition slab1kAlloc (c : cpool) : Z := allocatedCount (slab1k_ c).
Definition slab2kAlloc (c : cpool) : Z := allocatedCount (slab2k_ c).
Definition slab4kAlloc (c : cpool) : Z := allocatedCount (slab4k_ c).
Definition globAlloc (c : cpool) : Z := globAlloc_ c.
Definition globFree (c : cpool) : Z := globFree_ c.

(** ** The five free lists as one family *)

Definition kidx (k : slab) : nat := match k with S256 => 0 | S512 => 1 | S1k => 2 | S2k => 3 | S4k => 4 end%nat.
Definition sizes : list Z := [256; 512; 1024; 2048; 4096].
Definition heads (c : cpool) : list Z :=
  [freeList_ (slab256_ c); freeList_ (slab512_ c); freeList_ (slab1k_ c); freeList_ (slab2k_ c); freeList_ (slab4k_ c)].

Lemma cp_sizes_word : Forall (fun n => 8 <= n) sizes.
Proof. repeat constructor; lia. Qed.

Lemma sizes_k k : sizes !! kidx k = Some (bytes k).
Proof. now destruct k. Qed.

Lemma heads_k k c : heads c !! kidx k = Some (freeList_ (get_slab k c)).
Proof. now destruct k. Qed.

Lemma heads_set k p c : heads (set_slab k p c) = <[kidx k := freeList_ p]> (heads c).
Proof. now destruct k. Qed.

(** ** Use of the pool by a program

    [live]: the frames handed out with the size asked for; [chunks]: what
    [operator new] returned and was not given back. *)

(** The size [allocate] asks [operator new] for, if it does. *)
Definition asks (size : Z) (c : cpool) : option Z :=
  match slab_of size with
  | Some k => if freeList_ (get_slab k c) =? 0 then Some (64 * bytes k) else None
  | None => Some size
  end.
Definition fresh_ok (chunks : list region) (f size : Z) (c : cpool) : Prop :=
  forall n, asks size c = Some n -> 0 < f /\ Forall (apart (f, n)) chunks.
Definition obtained (f size : Z) (c : cpool) (chunks : list region) : list region :=
  match asks size c with Some n => (f, n) :: chunks | None => chunks end.

(** The block behind a frame. *)
Definition block (r : region) : region := (fst r, match slab_of (snd r) with Some k => bytes k | None => snd r end).

Definition pstate : Type := mem * cpool * list region * list region.
Inductive step : pstate -> pstate -> Prop :=
  | step_allocate m c chunks live f size a m' c' : 0 < size -> fresh_ok chunks f size c ->
      allocate (Some f) size (m, c) = Done (a, (m', c')) ->
      step (m, c, chunks, live) (m', c', obtained f size c chunks, (a, size) :: live)
  | step_deallocate m c chunks live chunks' live' a size m' c' : live ≡ₚ (a, size) :: live' ->
      chunks' = (match slab_of size with Some _ => chunks | None => filter (fun r => r <> (a, size)) chunks end) ->
      deallocate a size (m, c) = Done (tt, (m', c')) ->
      step (m, c, chunks, live) (m', c', chunks', live')
  | step_write m c chunks live r m' : clobber r m m' -> (exists u, u ∈ live /\ inside r u) \/ Forall (apart r) chunks ->
      step (m, c, chunks, live) (m', c, chunks, live).

Definition reachable (s : pstate) : Prop := exists m f1 f2 f3 f4 f5 c,
  sep [(f1, 64 * 256); (f2, 64 * 512); (f3, 64 * 1024); (f4, 64 * 2048); (f5, 64 * 4096)] /\
  Forall (fun f => 0 < f) [f1; f2; f3; f4; f5] /\
  (exists m0, new (Some f1) (Some f2) (Some f3) (Some f4) (Some f5) m0 = Done (tt, (m, c))) /\
  rtc step (m, c, [(f5, 64 * 4096); (f4, 64 * 2048); (f3, 64 * 1024); (f2, 64 * 512); (f1, 64 * 256)], []) s.

Definition CInv (s : pstate) : Prop :=
  let '(m, c, chunks, live) := s in
  Forall (fun r => 0 < snd r) live /\ exists ls, MInv sizes m (heads c) chunks (map block live) ls.

Lemma slab_of_le size k : slab_of size = Some k -> size <= bytes k.
Proof.
  unfold slab_of. destruct (Z.leb_spec size 256); [intros [= <-]; done|]. destruct (Z.leb_spec size 512); [intros [= <-]; done|].
  destruct (Z.leb_spec size 1024); [intros [= <-]; done|]. destruct (Z.leb_spec size 2048); [intros [= <-]; done|].
  destruct (Z.leb_spec size 4096); [intros [= <-]; done|discriminate].
Qed.

Lemma cp_inside_block r : inside r (block r).
Proof.
  unfold inside, block; cbn. destruct (slab_of (snd r)) as [k|] eqn:E; [apply slab_of_le in E|]; lia.
Qed.

(** The constructor's chunk for pool [k]. *)
Lemma first_chunk m c chunks ls k f : MInv sizes m (heads c) chunks [] ls -> 0 < f -> Forall (apart (f, 64 * bytes k)) chunks ->
  exists m' c' ls', on_slab k (allocateChunk (bytes k) (Some f)) (m, c) = Done (tt, (m', c')) /\
    MInv sizes m' (heads c') ((f, 64 * bytes k) :: chunks) [] ls'.
Proof.
  intros I Hf Hap. destruct (allocateChunk_inv (bytes k) sizes cp_sizes_word m (get_slab k c) _ _ _ _ (kidx k) f I (sizes_k k) (heads_k k c) Hf Hap)
    as (m' & p' & ls' & E & _ & _ & _ & _ & I').
  exists m', (set_slab k p' c), ls'. unfold on_slab. rewrite E. split; [reflexivity|]. now rewrite heads_set.
Qed.

#[local] Strategy opaque [FixedBlockPool.allocateChunk on_slab].
Ltac far := repeat (apply Forall_cons_2; [now symmetry|]); exact (Forall_nil_2 _).

Lemma CInv_new f1 f2 f3 f4 f5 m0 m c :
  sep [(f1, 64 * 256); (f2, 64 * 512); (f3, 64 * 1024); (f4, 64 * 2048); (f5, 64 * 4096)] ->
  Forall (fun f => 0 < f) [f1; f2; f3; f4; f5] ->
  new (Some f1) (Some f2) (Some f3) (Some f4) (Some f5) m0 = Done (tt, (m, c)) ->
  CInv (m, c, [(f5, 64 * 4096); (f4, 64 * 2048); (f3, 64 * 1024); (f2, 64 * 512); (f1, 64 * 256)], []).
Proof.
  intros Hs Hf E. rewrite !Forall_cons in Hf. destruct Hf as (H1 & H2 & H3 & H4 & H5 & _).
  cbn in Hs. rewrite !Forall_cons in Hs. destruct Hs as ((A12 & A13 & A14 & A15 & _) & (A23 & A24 & A25 & _) & (A34 & A35 & _) & (A45 & _) & _).
  split; [constructor|]. unfold new in E.
  destruct (first_chunk m0 empty_cpool [] _ S256 f1 (minv_new sizes m0) H1 ltac:(constructor)) as (m1 & c1 & l1 & E1 & I1).
  rewrite (bind_done _ _ _ _ _ E1) in E.
  destruct (first_chunk m1 c1 _ _ S512 f2 I1 H2) as (m2 & c2 & l2 & E2 & I2); [far|].
  rewrite (bind_done _ _ _ _ _ E2) in E.
  destruct (first_chunk m2 c2 _ _ S1k f3 I2 H3) as (m3 & c3 & l3 & E3 & I3); [far|].
  rewrite (bind_done _ _ _ _ _ E3) in E.
  destruct (first_chunk m3 c3 _ _ S2k f4 I3 H4) as (m4 & c4 & l4 & E4 & I4); [far|].
  rewrite (bind_done _ _ _ _ _ E4) in E.
  destruct (first_chunk m4 c4 _ _ S4k f5 I4 H5) as (m5 & c5 & l5 & E5 & I5); [far|].
  rewrite E5 in E. injection E as <- <-. exists l5. exact I5.
Qed.

#[local] Strategy transparent [FixedBlockPool.allocateChunk on_slab].

Lemma cp_allocate_ok m c chunks live f size : CInv (m, c, chunks, live) -> 0 < size -> fresh_ok chunks f size c ->
  exists a m' c', allocate (Some f) size (m, c) = Done (a, (m', c')) /\
    CInv (m', c', obtained f size c chunks, (a, size) :: live).
Proof.
  intros [Hpos [ls I]] Hsz Hf. unfold allocate, fresh_ok, obtained, asks in *. destruct (slab_of size) as [k|] eqn:Ek.
  - destruct (allocate_inv (bytes k) sizes cp_sizes_word m (get_slab k c) _ _ _ _ (kidx k) f I (sizes_k k) (heads_k k c))
      as (a & m' & p' & ls' & E & _ & _ & _ & I').
    { intros E0. rewrite E0 in Hf. exact (Hf _ eq_refl). }
    exists a, m', (set_slab k p' c). unfold on_slab. rewrite E. split; [reflexivity|]. split; [now constructor|]. exists ls'.
    rewrite heads_set. cbn [map]. unfold block at 1. cbn [fst snd]. rewrite Ek. destruct (freeList_ (get_slab k c) =? 0); exact I'.
  - destruct (Hf size eq_refl) as [Hf0 Hap]. eexists _, _, _. split; [reflexivity|]. split; [now constructor|]. exists ls.
    cbn [map]. unfold block at 1. cbn [fst snd]. rewrite Ek. exact (minv_grow sizes m _ chunks _ ls f size I Hf0 Hsz Hap).
Qed.

Lemma cp_deallocate_ok m c chunks live live' a size : CInv (m, c, chunks, live) -> live ≡ₚ (a, size) :: live' ->
  exists m' c', deallocate a size (m, c) = Done (tt, (m', c')) /\
    CInv (m', c', match slab_of size with Some _ => chunks | None => filter (fun r => r <> (a, size)) chunks end, live').
Proof.
  intros [Hpos [ls I]] Hl. rewrite Hl in Hpos. apply Forall_cons in Hpos as [_ Hpos].
  assert (Hu : map block live ≡ₚ block (a, size) :: map block live') by exact (Permutation_map block Hl).
  unfold block at 2 in Hu. cbn [fst snd] in Hu. unfold deallocate. destruct (slab_of size) as [k|] eqn:Ek.
  - destruct (deallocate_inv (bytes k) sizes cp_sizes_word m (get_slab k c) _ _ _ _ _ (kidx k) a I (sizes_k k) (heads_k k c) Hu)
      as (m' & p' & ls' & E & _ & _ & _ & I').
    exists m', (set_slab k p' c). unfold on_slab. rewrite E. split; [reflexivity|]. split; [exact Hpos|]. exists ls'. now rewrite heads_set.
  - eexists _, _. split; [reflexivity|]. split; [exact Hpos|]. exists ls.
    apply (minv_delete sizes m _ chunks _ (map block live) _ ls (a, size) I Hu).
    intros d Hd. destruct (decide (d = (a, size))); [now left|right]. apply list_elem_of_filter. auto.
Qed.

Lemma cp_CInv_step s s' : CInv s -> step s s' -> CInv s'.
Proof.
  intros I Hst. destruct Hst as [m c chunks live f size a m' c' Hsz Hf E|m c chunks live chunks' live' a size m' c' Hl -> E|m c chunks live r m' Hm Hr].
  - destruct (cp_allocate_ok m c chunks live f size I Hsz Hf) as (a1 & m1 & c1 & E1 & I1). rewrite E in E1. injection E1 as <- <- <-. exact I1.
  - destruct (cp_deallocate_ok m c chunks live live' a size I Hl) as (m1 & c1 & E1 & I1). rewrite E in E1. injection E1 as <- <-. exact I1.
  - destruct I as [Hpos [ls I]]. split; [exact Hpos|]. exists ls. apply (minv_write sizes cp_sizes_word m m' _ _ _ _ r I Hm).
    destruct Hr as [(u & Hu & Hi)|Hr]; [left|now right]. exists (block u). split; [apply list_elem_of_fmap; eauto|].
    exact (inside_trans _ _ _ Hi (cp_inside_block u)).
Qed.

Lemma cp_CInv_reachable s : reachable s -> CInv s.
Proof.
  intros (m & f1 & f2 & f3 & f4 & f5 & c & Hs & Hf & [m0 E] & H). revert s H. apply (rtc_ind_r CInv).
  - exact (CInv_new f1 f2 f3 f4 f5 m0 m c Hs Hf E).
  - intros s s' _ Hst IH. exact (cp_CInv_step s s' IH Hst).
Qed.

(** for any sequence of frame allocations, frees and writes inside frames, the
    frames in use never overlap one another, each lies in memory obtained from
    [operator new], every further allocation of a positive size succeeds without
    touching a bad link (given what [operator new] promises) with a frame apart
    from all others, and every frame can be freed. *)
Theorem coroutine_pool_safe m c chunks live : reachable (m, c, chunks, live) ->
  sep live /\
  Forall (fun r => exists d, d ∈ chunks /\ inside r d) live /\
  (forall f size, 0 < size -> fresh_ok chunks f size c ->
     exists a m' c', allocate (Some f) size (m, c) = Done (a, (m', c')) /\ Forall (apart (a, size)) live) /\
  (forall a size live', live ≡ₚ (a, size) :: live' -> exists m' c', deallocate a size (m, c) = Done (tt, (m', c'))).
Proof.
  intros Hr. pose proof (cp_CInv_reachable _ Hr) as I.
  assert (Hsep : forall m c chunks live, CInv (m, c, chunks, live) -> sep live).
  { intros ? ? ? ? [_ [ls I1]]. apply (sep_inside block); [intros r _; apply cp_inside_block|]. exact (minv_live_apart _ _ _ _ _ _ I1). }
  split_and!.
  - exact (Hsep _ _ _ _ I).
  - destruct I as [_ [ls I]]. pose proof (mi_placed _ _ _ _ _ _ I) as Hp. apply Forall_app in Hp as [_ Hp]. rewrite Forall_map in Hp.
    apply (Forall_impl _ _ _ Hp). intros r (_ & _ & d & Hd & Hi). exists d. split; [exact Hd|]. exact (inside_trans _ _ _ (cp_inside_block r) Hi).
  - intros f size Hsz Hf. destruct (cp_allocate_ok m c chunks live f size I Hsz Hf) as (a & m' & c' & E & I'). exists a, m', c'.
    split; [exact E|]. apply Hsep in I'. apply I'.
  - intros a size live' Hl. destruct (cp_deallocate_ok m c chunks live live' a size I Hl) as (m' & c' & E & _). eauto.
Qed.

Module Demo.
Definition f1 := 65536.
Definition f2 := 131072.
Definition f3 := 262144.
Definition f4 := 524288.
Definition f5 := 1048576.
Definition start := match new (Some f1) (Some f2) (Some f3) (Some f4) (Some f5) ∅ with Done (_, s) => s | Fail _ => (∅, empty_cpool) end.

(** A frame of 100 bytes and one of 5000 bytes. *)
Definition s1 := match allocate (Some 0) 100 start with Done (_, s) => s | Fail _ => start end.
Definition s2 := match allocate (Some 8388608) 5000 s1 with Done (_, s) => s | Fail _ => s1 end.
Definition chunks0 : list (Z * Z) := [(f5, 64 * 4096); (f4, 64 * 2048); (f3, 64 * 1024); (f2, 64 * 512); (f1, 64 * 256)].

Lemma alloc_step s f size a s' chunks live : 0 < size -> allocate (Some f) size s = Done (a, s') -> fresh_ok chunks f size (snd s) ->
  step (fst s, snd s, chunks, live) (fst s', snd s', obtained f size (snd s) chunks, (a, size) :: live).
Proof. destruct s as [m c], s' as [m' c']. intros Hs E Hf. exact (step_allocate m c chunks live f size a m' c' Hs Hf E). Qed.

Lemma two_frames : reachable (fst s2, snd s2, (8388608, 5000) :: chunks0, [(8388608, 5000); (f1 + 63 * 256, 100)]).
Proof.
  assert (E1 : allocate (Some 0) 100 start = Done (f1 + 63 * 256, s1)) by (vm_compute; reflexivity).
  assert (E2 : allocate (Some 8388608) 5000 s1 = Done (8388608, s2)) by (vm_compute; reflexivity).
  assert (O1 : obtained 0 100 (snd start) chunks0 = chunks0) by (vm_compute; reflexivity).
  assert (O2 : obtained 8388608 5000 (snd s1) chunks0 = (8388608, 5000) :: chunks0) by (vm_compute; reflexivity).
  assert (N : new (Some f1) (Some f2) (Some f3) (Some f4) (Some f5) ∅ = Done (tt, (fst start, snd start))) by (vm_compute; reflexivity).
  exists (fst start), f1, f2, f3, f4, f5, (snd start).
  split; [cbn [sep]; rewrite !Forall_cons; unfold f1, f2, f3, f4, f5, apart; cbn [fst snd]; split_and!; try lia; constructor|].
  split; [repeat constructor|]. split; [exists ∅; exact N|]. fold chunks0.
  assert (A1 : asks 100 (snd start) = None) by (vm_compute; reflexivity).
  assert (A2 : asks 5000 (snd s1) = Some 5000) by (vm_compute; reflexivity).
  assert (F1 : fresh_ok chunks0 0 100 (snd start)) by (intros n; rewrite A1; discriminate).
  assert (F2 : fresh_ok chunks0 8388608 5000 (snd s1)).
  { intros n. rewrite A2. intros [= <-]. split; [lia|]. unfold chunks0. rewrite !Forall_cons. unfold apart, f1, f2, f3, f4, f5; cbn [fst snd].
    split_and!; try lia; constructor. }
  pose proof (alloc_step start 0 100 _ s1 chunks0 [] ltac:(lia) E1 F1) as S1. rewrite O1 in S1.
  pose proof (alloc_step s1 8388608 5000 _ s2 chunks0 [(f1 + 63 * 256, 100)] ltac:(lia) E2 F2) as S2. rewrite O2 in S2.
  exact (rtc_l _ _ _ _ S1 (rtc_once _ _ S2)).
Qed.

Lemma coroutine_pool_safe_witness :
  globAlloc (snd s2) = 1 /\ sep [(8388608, 5000); (f1 + 63 * 256, 100)] /\
  exists a m' c', allocate (Some 0) 300 (fst s2, snd s2) = Done (a, (m', c')) /\ Forall (apart (a, 300)) [(8388608, 5000); (f1 + 63 * 256, 100)].
Proof.
  split; [vm_compute; reflexivity|].
  destruct (coroutine_pool_safe (fst s2) (snd s2) _ _ two_frames) as (Hsep & _ & Hal & _). split; [exact Hsep|].
  assert (A : asks 300 (snd s2) = None) by (vm_compute; reflexivity).
  apply (Hal 0 300); [lia|]. intros n. rewrite A. discriminate.
Defined.
End Demo.
