(* ===== verification/MemPool.v ===== *)
(** MemPool: [pool/MemPool.h], [pool/MemPool.cpp], the allocator with 32 free
    lists of blocks of 8, 16, .. 256 bytes cut from larger chunks.

    [news] is what [operator new] answers to the successive requests; when it is
    exhausted [operator new] throws.  The exception is the value [None] of the
    operations below, because the pool outlives it and keeps what was assigned
    before. *)

From Stdlib Require Import ZArith Lia.
From S2P Require Import Prelude Regions.

Local Open Scope Z_scope.

Definition kMaxBytes : Z := 256.
Definition kAlign : Z := 8.
Definition kNumFreeLists : Z := kMaxBytes / kAlign.

(** [(bytes + kAlign - 1) & ~(kAlign - 1)] on [size_t]. *)
Definition roundUp (bytes : Z) : Z := Z.land (wrap64 (bytes + kAlign - 1)) (size_mod - 1 - (kAlign - 1)).
Definition freeListIndex (bytes : Z) : Z := wrap64 (wrap64 (bytes + kAlign - 1) / kAlign - 1).

Record pool := mkPool {
  freeList_ : list Z;
  startFree_ : Z;
  endFree_ : Z;
  heapSize_ : Z;
  totalAllocated_ : Z;
  totalFreed_ : Z;
}.
Definition new : pool := mkPool (replicate (Z.to_nat kNumFreeLists) 0) 0 0 0 0 0.

Definition store (a v : Z) : ST (mem * pool) unit := modify (fun '(m, p) => (<[a := v]> m, p)).
Definition load (a : Z) : ST (mem * pool) Z := s ← get; deref (fst s !! a).
Definition upd (f : pool -> pool) : ST (mem * pool) unit := modify (fun '(m, p) => (m, f p)).

(** [freeList_[idx]], out of bounds undefined. *)
Definition get_list (idx : Z) : ST (mem * pool) Z := s ← get; deref (freeList_ (snd s) !! Z.to_nat idx).
Definition set_list (idx v : Z) (p : pool) : pool :=
  mkPool (<[Z.to_nat idx := v]> (freeList_ p)) (startFree_ p) (endFree_ p) (heapSize_ p) (totalAllocated_ p) (totalFreed_ p).
Definition put_list (idx v : Z) : ST (mem * pool) unit := _ ← get_list idx; upd (set_list idx v).
Definition set_start (a : Z) (p : pool) : pool := mkPool (freeList_ p) a (endFree_ p) (heapSize_ p) (totalAllocated_ p) (totalFreed_ p).
Definition add_allocated (n : Z) (p : pool) : pool :=
  mkPool (freeList_ p) (startFree_ p) (endFree_ p) (heapSize_ p) (wrap64 (totalAllocated_ p + n)) (totalFreed_ p).
Definition add_freed (n : Z) (p : pool) : pool :=
  mkPool (freeList_ p) (startFree_ p) (endFree_ p) (heapSize_ p) (totalAllocated_ p) (wrap64 (totalFreed_ p + n)).
Definition set_chunk (c n : Z) (p : pool) : pool :=
  mkPool (freeList_ p) c (c + n) (wrap64 (heapSize_ p + n)) (totalAllocated_ p) (totalFreed_ p).

(** The chunk and the number of objects it holds ([nobjs] by reference). *)
Fixpoint chunkAlloc (news : list Z) (size nobjs : Z) : ST (mem * pool) (option (Z * Z)) :=
  s ← get;
  let p := snd s in
  let totalBytes := wrap64 (size * nobjs) in
  let bytesLeft := wrap64 (endFree_ p - startFree_ p) in
  if totalBytes <=? bytesLeft then
    _ ← upd (set_start (startFree_ p + totalBytes)); mret (Some (startFree_ p, nobjs))
  else if size <=? bytesLeft then
    let nobjs := bytesLeft / size in
    let totalBytes := wrap64 (size * nobjs) in
    _ ← upd (set_start (startFree_ p + totalBytes)); mret (Some (startFree_ p, nobjs))
  else
    let bytesToGet := wrap64 (2 * totalBytes + roundUp (Z.shiftr (heapSize_ p) 4)) in
    _ ← when (0 <? bytesLeft) (
          let idx := freeListIndex bytesLeft in
          h ← get_list idx; _ ← store (startFree_ p) h; put_list idx (startFree_ p));
    match news with
    | [] => mret None
    | c :: news' => _ ← upd (set_chunk c bytesToGet); chunkAlloc news' size nobjs
    end.

(** [for (i = 1; i < nobjs - 1; ++i)]: [k] turns, then the end of the list. *)
Fixpoint link (k : nat) (current n : Z) : ST (mem * pool) unit :=
  match k with
  | O => store current 0
  | S k' => _ ← store current (current + n); next ← load current; link k' next n
  end.

Definition refill (news : list Z) (n : Z) : ST (mem * pool) (option Z) :=
  r ← chunkAlloc news n 20;
  match r with
  | None => mret None
  | Some (chunk, nobjs) =>
      if nobjs =? 1 then mret (Some chunk) else
      let current := chunk + n in
      _ ← put_list (freeListIndex n) current;
      _ ← link (Z.to_nat (nobjs - 2)) current n;
      mret (Some chunk)
  end.

Definition allocate (news : list Z) (n : Z) : ST (mem * pool) (option Z) :=
  if kMaxBytes <? n then
    _ ← upd (add_allocated n);
    match news with [] => mret None | c :: _ => mret (Some c) end
  else
    let idx := freeListIndex n in
    result ← get_list idx;
    if result =? 0 then refill news (roundUp n) else
    next ← load result;
    _ ← put_list idx next;
    _ ← upd (add_allocated n);
    mret (Some result).

(** [ptr] goes back to [operator delete] when [n > kMaxBytes]. *)
Definition deallocate (ptr n : Z) : ST (mem * pool) unit :=
  _ ← upd (add_freed n);
  if kMaxBytes <? n then mret tt else
  let idx := freeListIndex n in
  h ← get_list idx;
  _ ← store ptr h;
  put_list idx ptr.

Definition totalAllocated (p : pool) : Z := totalAllocated_ p.
Definition totalFreed (p : pool) : Z := totalFreed_ p.

(** ** Sizes *)

Definition sizes : list Z := map (fun i => 8 * (Z.of_nat i + 1)) (seq 0 32).

Lemma mp_sizes_word : Forall (fun n => 8 <= n) sizes.
Proof. apply Forall_map, Forall_forall. intros i _. lia. Qed.

Lemma sizes_lookup i : 0 <= i < 32 -> sizes !! Z.to_nat i = Some (8 * (i + 1)).
Proof.
  intros Hi. unfold sizes. rewrite list_lookup_fmap, lookup_seq_lt by lia. cbn. do 2 f_equal. lia.
Qed.

Lemma roundUp_eq b : 0 <= b <= size_mod - 8 -> roundUp b = 8 * ((b + 7) / 8).
Proof.
  intros Hb. unfold roundUp, kAlign. rewrite wrap64_small by lia. replace (b + 8 - 1) with (b + 7) by lia.
  replace (size_mod - 1 - (8 - 1)) with (Z.shiftl (Z.ones 61) 3) by reflexivity.
  assert (E : Z.land (b + 7) (Z.shiftl (Z.ones 61) 3) = Z.shiftl (Z.shiftr (b + 7) 3) 3).
  { apply Z.bits_inj'. intros i Hi. rewrite Z.land_spec, !Z.shiftl_spec by lia.
    destruct (Z.ltb_spec i 3) as [H3|H3].
    - rewrite !(Z.testbit_neg_r _ (i - 3)) by lia. apply andb_false_r.
    - rewrite Z.shiftr_spec by lia. replace (i - 3 + 3) with i by lia. rewrite Z.testbit_ones by lia.
      destruct (Z.ltb_spec (i - 3) 61) as [H61|H61].
      + rewrite (proj2 (Z.leb_le _ _)) by lia. apply andb_true_r.
      + rewrite (Z.bits_above_log2 (b + 7) i); [reflexivity|lia|]. unfold size_mod in Hb.
        apply (Z.le_lt_trans _ 63); [|lia]. change 63 with (Z.log2 18446744073709551615). apply Z.log2_le_mono. lia. }
  rewrite E, Z.shiftr_div_pow2, Z.shiftl_mul_pow2 by lia. change (2 ^ 3) with 8. lia.
Qed.

Lemma roundUp_range n : 0 < n <= 256 -> exists i, 0 <= i < 32 /\ roundUp n = 8 * (i + 1) /\ freeListIndex n = i /\ n <= roundUp n.
Proof.
  intros Hn. exists ((n + 7) / 8 - 1). rewrite roundUp_eq by (unfold size_mod; lia).
  unfold freeListIndex, kAlign. rewrite (wrap64_small (n + 8 - 1)) by (unfold size_mod; lia). replace (n + 8 - 1) with (n + 7) by lia.
  rewrite wrap64_small by (unfold size_mod; Z.div_mod_to_equations; lia). Z.div_mod_to_equations. lia.
Qed.

(** ** The invariant *)

(** What is left of the current chunk. *)
Definition left (p : pool) : Z := endFree_ p - startFree_ p.
Definition leftover (p : pool) : list region := if 0 <? left p then [(startFree_ p, left p)] else [].

(** [used]: the regions handed out; [chunks]: what [operator new] returned. *)
Record PI (m : mem) (p : pool) (chunks used : list region) (ls : list (list Z)) : Prop := {
  p_left : 0 <= left p < size_mod;
  p_align : left p mod 8 = 0;
  p_inv : MInv sizes m (freeList_ p) chunks (leftover p ++ used) ls;
}.

(** The size [chunkAlloc] asks [operator new] for. *)
Definition bytesToGet (p : pool) (size nobjs : Z) : Z :=
  wrap64 (2 * wrap64 (size * nobjs) + roundUp (Z.shiftr (heapSize_ p) 4)).

Lemma bytesToGet_range p size nobjs : 0 <= heapSize_ p < size_mod -> 0 < size * nobjs <= 5120 -> size mod 8 = 0 ->
  2 * (size * nobjs) <= bytesToGet p size nobjs < size_mod /\ bytesToGet p size nobjs mod 8 = 0.
Proof.
  intros Hh Hs Ha. unfold bytesToGet. rewrite (wrap64_small (size * nobjs)) by (unfold size_mod; lia).
  rewrite Z.shiftr_div_pow2 by lia. change (2 ^ 4) with 16.
  assert (Hd : 0 <= heapSize_ p / 16 < 1152921504606846976) by (unfold size_mod in Hh; Z.div_mod_to_equations; lia).
  rewrite roundUp_eq by (unfold size_mod; lia). set (h := heapSize_ p / 16) in *.
  assert (Hr : 0 <= 8 * ((h + 7) / 8) < 1152921504606846984) by (Z.div_mod_to_equations; lia).
  rewrite wrap64_small by (unfold size_mod; lia). split; [unfold size_mod; lia|].
  rewrite Z.mul_comm with (n := size). replace (2 * (nobjs * size) + 8 * ((h + 7) / 8)) with ((2 * nobjs) * size + ((h + 7) / 8) * 8) by lia.
  rewrite Z.mod_add by lia. rewrite Z.mul_mod, Ha, Z.mul_0_r by lia. reflexivity.
Qed.

(** Cutting the front of the current chunk off. *)
Lemma PI_cut m p chunks used ls t : PI m p chunks used ls -> 0 < t <= left p -> t mod 8 = 0 ->
  PI m (set_start (startFree_ p + t) p) chunks ((startFree_ p, t) :: used) ls.
Proof.
  intros I Ht Ha. pose proof (p_left _ _ _ _ _ I) as Hl. pose proof (p_align _ _ _ _ _ I) as Hla.
  assert (El : left (set_start (startFree_ p + t) p) = left p - t) by (unfold left; cbn; lia).
  constructor; rewrite ?El; [lia|rewrite Zminus_mod, Hla, Ha; reflexivity|].
  pose proof (p_inv _ _ _ _ _ I) as Im. unfold leftover in *. rewrite El. rewrite (proj2 (Z.ltb_lt 0 (left p))) in Im by lia. cbn [app] in Im. cbn [set_start freeList_ startFree_].
  destruct (Z.ltb_spec 0 (left p - t)).
  - apply (minv_perm _ m _ _ ((startFree_ p, t) :: (startFree_ p + t, left p - t) :: used)); [|apply Permutation_swap].
    apply (minv_split _ m _ _ ((startFree_ p, left p) :: used)); [exact Im|apply reflexive_eq; do 2 f_equal; lia|lia|lia].
  - replace t with (left p) by lia. exact Im.
Qed.

(** [chunkAlloc] when the current chunk has room for one object. *)
Lemma chunkAlloc_room news m p chunks used ls size nobjs : PI m p chunks used ls -> 8 <= size <= 256 -> size mod 8 = 0 -> 0 < nobjs <= 20 ->
  size <= left p ->
  exists k, chunkAlloc news size nobjs (m, p) = Done (Some (startFree_ p, k), (m, set_start (startFree_ p + size * k) p)) /\
    0 < k <= nobjs /\ PI m (set_start (startFree_ p + size * k) p) chunks ((startFree_ p, size * k) :: used) ls.
Proof.
  intros I Hs Ha Hn Hroom. pose proof (p_left _ _ _ _ _ I) as Hl.
  assert (Htot : 0 < size * nobjs <= 5120) by nia.
  assert (El : wrap64 (endFree_ p - startFree_ p) = left p) by (apply wrap64_small; exact Hl).
  assert (Et : forall k, 0 < k <= nobjs -> wrap64 (size * k) = size * k) by (intros; apply wrap64_small; unfold size_mod; nia).
  assert (Hm : forall k, (size * k) mod 8 = 0) by (intros k; rewrite Z.mul_mod, Ha, Z.mul_0_l by lia; reflexivity).
  destruct news as [|c news]; cbn [chunkAlloc]; st_get; cbn [snd]; rewrite El, !Et by lia.
  all: destruct (Z.leb_spec (size * nobjs) (left p)) as [H1|H1];
    [exists nobjs; split; [reflexivity|]; split; [lia|]; apply (PI_cut m p chunks used ls _ I); [nia|apply Hm]|].
  all: rewrite (proj2 (Z.leb_le size (left p))) by lia.
  all: assert (Hk : 0 < left p / size <= nobjs) by (split; [apply Z.div_str_pos; lia|]; apply Z.lt_le_incl, Z.div_lt_upper_bound; lia).
  all: exists (left p / size); rewrite Et by lia; split; [reflexivity|]; split; [exact Hk|].
  all: apply (PI_cut m p chunks used ls _ I); [|apply Hm]; pose proof (Z.mul_div_le (left p) size ltac:(lia)); nia.
Qed.

(** What is left of an exhausted chunk goes to its free list. *)
Lemma leftover_to_list m p chunks used ls i : PI m p chunks used ls -> 0 < left p < 256 -> freeListIndex (left p) = i ->
  exists h l, get_list i (m, p) = Done (h, (m, p)) /\ 0 <= i < 32 /\ left p = 8 * (i + 1) /\ freeList_ p !! Z.to_nat i = Some h /\
    ls !! Z.to_nat i = Some l /\
    MInv sizes (<[startFree_ p := h]> m) (<[Z.to_nat i := startFree_ p]> (freeList_ p)) chunks used (<[Z.to_nat i := startFree_ p :: l]> ls).
Proof.
  intros I Hl Ei. pose proof (p_align _ _ _ _ _ I) as Ha. pose proof (p_inv _ _ _ _ _ I) as Im.
  destruct (roundUp_range (left p) ltac:(lia)) as (j & Hj & Hr & Hi & _). rewrite Hi in Ei. subst j.
  assert (El : left p = 8 * (i + 1)).
  { rewrite <-Hr, roundUp_eq by (unfold size_mod; lia). Z.div_mod_to_equations. lia. }
  pose proof (sizes_lookup i Hj) as Hn. pose proof (mi_heads _ _ _ _ _ _ Im) as Hlen. change (length sizes) with 32%nat in Hlen.
  destruct (freeList_ p !! Z.to_nat i) as [h|] eqn:Eh; [|apply lookup_ge_None in Eh; lia].
  destruct (minv_list _ mp_sizes_word _ _ _ _ _ _ _ Im Eh) as (n' & l & Hn' & Hll & _).
  exists h, l. split; [unfold get_list; rewrite bind_get; cbn [snd]; rewrite Eh; reflexivity|]. split_and!; auto; try lia.
  unfold leftover in Im. rewrite (proj2 (Z.ltb_lt 0 (left p))) in Im by lia. cbn [app] in Im. rewrite El in Im.
  exact (minv_push _ mp_sizes_word _ _ _ _ used _ _ h _ l (startFree_ p) Im (Permutation_refl _) Eh Hn Hll).
Qed.

(** What [chunkAlloc] does with the rest of a chunk that is too small. *)
Definition retire_left (p : pool) : ST (mem * pool) unit :=
  when (0 <? left p) (h ← get_list (freeListIndex (left p)); _ ← store (startFree_ p) h; put_list (freeListIndex (left p)) (startFree_ p)).

Lemma retire_run m p h : freeList_ p !! Z.to_nat (freeListIndex (left p)) = Some h ->
  (h ← get_list (freeListIndex (left p)); _ ← store (startFree_ p) h; put_list (freeListIndex (left p)) (startFree_ p)) (m, p) =
  Done (tt, (<[startFree_ p := h]> m, set_list (freeListIndex (left p)) (startFree_ p) p)).
Proof.
  intros Eh. assert (Eg : forall m, get_list (freeListIndex (left p)) (m, p) = Done (h, (m, p))).
  { intros m'. unfold get_list. rewrite bind_get. cbn [snd]. now rewrite Eh. }
  st_step (Eg m). unfold store. st_modify. unfold put_list. st_step (Eg (<[startFree_ p := h]> m)). reflexivity.
Qed.

(** [chunkAlloc] when there is no room for an object. *)
Lemma chunkAlloc_ask news m p size : 0 <= left p < size -> 8 <= size <= 256 ->
  chunkAlloc news size 20 (m, p) =
  (_ ← retire_left p;
   match news with
   | [] => mret None
   | c :: news' => _ ← upd (set_chunk c (bytesToGet p size 20)); chunkAlloc news' size 20
   end) (m, p).
Proof.
  intros Hl Hs. unfold retire_left, bytesToGet. rewrite (wrap64_small (size * 20)) by (unfold size_mod; lia).
  destruct news as [|c news]; cbn [chunkAlloc]; st_get; cbn [snd]; change (endFree_ p - startFree_ p) with (left p);
    rewrite (wrap64_small (left p)), (wrap64_small (size * 20)) by (unfold size_mod; lia);
    rewrite (proj2 (Z.leb_gt (size * 20) (left p))), (proj2 (Z.leb_gt size (left p))) by lia; reflexivity.
Qed.

(** [chunkAlloc]: one request to [operator new] is always enough. *)
Lemma chunkAlloc_inv news m p chunks used ls c i size : PI m p chunks used ls -> 0 <= heapSize_ p < size_mod ->
  0 <= i < 32 -> size = 8 * (i + 1) ->
  (left p < size -> 0 < c /\ Forall (apart (c, bytesToGet p size 20)) chunks) ->
  exists chunk k m' p' ls', chunkAlloc (c :: news) size 20 (m, p) = Done (Some (chunk, k), (m', p')) /\
    0 < k <= 20 /\ ls' !! Z.to_nat i = ls !! Z.to_nat i /\ 0 <= heapSize_ p' < size_mod /\
    freeList_ p' !! Z.to_nat i = freeList_ p !! Z.to_nat i /\
    PI m' p' (if size <=? left p then chunks else (c, bytesToGet p size 20) :: chunks) ((chunk, size * k) :: used) ls'.
Proof.
  intros I Hh Hi Es Hc. assert (Hs : 8 <= size <= 256) by lia. assert (Ha : size mod 8 = 0) by (rewrite Es, Z.mul_comm; apply Z.mod_mul; lia).
  pose proof (p_left _ _ _ _ _ I) as Hl. destruct (Z.leb_spec size (left p)) as [Hroom|Hroom].
  - destruct (chunkAlloc_room (c :: news) m p chunks used ls size 20 I Hs Ha ltac:(lia) Hroom) as (k & E & Hk & I').
    exists (startFree_ p), k, m, (set_start (startFree_ p + size * k) p), ls. split; [exact E|].
    split_and!; [lia|lia|reflexivity|exact (proj1 Hh)|exact (proj2 Hh)|reflexivity|exact I'].
  - destruct (Hc Hroom) as [Hc0 Hap]. destruct (bytesToGet_range p size 20 Hh ltac:(lia) Ha) as [Hb Hb8]. assert (Hbp : 0 < bytesToGet p size 20) by lia.
    assert (Hbig : forall q, heapSize_ q = heapSize_ p -> left (set_chunk c (bytesToGet p size 20) q) = bytesToGet p size 20) by (intros q _; unfold left; cbn; lia).
    assert (Hpre : exists m1 p1 ls1, retire_left p (m, p) = Done (tt, (m1, p1)) /\
        ls1 !! Z.to_nat i = ls !! Z.to_nat i /\ freeList_ p1 !! Z.to_nat i = freeList_ p !! Z.to_nat i /\ heapSize_ p1 = heapSize_ p /\
        MInv sizes m1 (freeList_ p1) chunks used ls1).
    { unfold retire_left. destruct (Z.ltb_spec 0 (left p)) as [Hpos|Hz].
      - destruct (leftover_to_list m p chunks used ls _ I ltac:(lia) eq_refl) as (h & l & Eg & Hj & El & Eh & Ell & Im). set (j := freeListIndex (left p)) in *.
        eexists _, (set_list j (startFree_ p) p), _. split; [exact (retire_run m p h Eh)|].
        cbn [set_list freeList_ heapSize_]. split_and!; [|apply list_lookup_insert_ne; lia|reflexivity|exact Im].
        apply list_lookup_insert_ne. lia.
      - exists m, p, ls. split; [reflexivity|]. split_and!; auto. pose proof (p_inv _ _ _ _ _ I) as Im. unfold leftover in Im.
        now rewrite (proj2 (Z.ltb_ge 0 (left p))) in Im by lia. }
    destruct Hpre as (m1 & p1 & ls1 & E1 & Hls & Hfl & Hhs & Im).
    set (p2 := set_chunk c (bytesToGet p size 20) p1). assert (Hl2 : left p2 = bytesToGet p size 20) by exact (Hbig p1 Hhs).
    assert (I2 : PI m1 p2 ((c, bytesToGet p size 20) :: chunks) used ls1).
    { constructor; [rewrite Hl2; lia|rewrite Hl2; exact Hb8|].
      unfold leftover. rewrite Hl2. unfold p2. rewrite (proj2 (Z.ltb_lt _ _)) by lia. cbn [app set_chunk freeList_ startFree_].
      exact (minv_grow _ m1 _ chunks used ls1 c _ Im Hc0 Hbp Hap). }
    destruct (chunkAlloc_room news m1 p2 _ used ls1 size 20 I2 Hs Ha ltac:(lia) ltac:(rewrite Hl2; lia)) as (k & E & Hk & I').
    exists c, k, m1, (set_start (c + size * k) p2), ls1. split; [|split_and!; [lia|lia|exact Hls| | |exact Hfl|exact I']].
    + rewrite chunkAlloc_ask by lia. st_step E1. unfold upd. st_modify. exact E.
    + cbn. apply wrap64_range.
    + cbn. apply wrap64_range.
Qed.

(** The links of a fresh run of blocks. *)
Lemma link_inv n k current m p : 0 < current -> 0 < n ->
  exists m', link k current n (m, p) = Done (tt, (m', p)) /\ chain m' current (addrs current n (S k)) /\
    (forall x, x ∉ addrs current n (S k) -> m' !! x = m !! x).
Proof.
  intros Hc Hn. revert current m Hc. induction k as [|k IH]; intros current m Hc; rewrite addrs_S.
  - exists (<[current := 0]> m). split; [reflexivity|]. split.
    + split; [done|]. split; [done|]. exists 0. split; [apply lookup_insert_eq|reflexivity].
    + intros x Hx. apply lookup_insert_ne. set_solver.
  - destruct (IH (current + n) (<[current := current + n]> m) ltac:(lia)) as (m' & E & Hch & Hm). exists m'.
    assert (Hnot : current ∉ addrs (current + n) n (S k)).
    { intros (i & _ & Ei)%elem_addrs. nia. }
    split; [|split].
    + cbn [link]. unfold store at 1. st_modify. unfold load. rewrite bind_assoc, bind_get. cbn [fst]. rewrite lookup_insert_eq. exact E.
    + split; [done|]. split; [done|]. exists (current + n). split; [|exact Hch]. rewrite Hm by exact Hnot. apply lookup_insert_eq.
    + intros x Hx. rewrite elem_of_cons in Hx. rewrite Hm by tauto. apply lookup_insert_ne. intros ->. tauto.
Qed.

Lemma PI_perm m p chunks used used' ls : PI m p chunks used ls -> used ≡ₚ used' -> PI m p chunks used' ls.
Proof. intros [Hl Ha Hm] Hp. constructor; auto. apply (minv_perm _ _ _ _ _ _ _ Hm). now rewrite Hp. Qed.

Lemma get_list_some i m p h : freeList_ p !! Z.to_nat i = Some h -> get_list i (m, p) = Done (h, (m, p)).
Proof. intros E. unfold get_list. rewrite bind_get. cbn [snd]. now rewrite E. Qed.

Lemma put_list_some i v m p h : freeList_ p !! Z.to_nat i = Some h -> put_list i v (m, p) = Done (tt, (m, set_list i v p)).
Proof. intros E. unfold put_list. st_step (get_list_some i m p h E). reflexivity. Qed.

Lemma refill_inv news m p chunks used ls c i n : PI m p chunks used ls -> 0 <= heapSize_ p < size_mod ->
  0 <= i < 32 -> n = 8 * (i + 1) -> freeListIndex n = i -> freeList_ p !! Z.to_nat i = Some 0 ->
  (left p < n -> 0 < c /\ Forall (apart (c, bytesToGet p n 20)) chunks) ->
  exists a m' p' ls', refill (c :: news) n (m, p) = Done (Some a, (m', p')) /\ 0 <= heapSize_ p' < size_mod /\
    PI m' p' (if n <=? left p then chunks else (c, bytesToGet p n 20) :: chunks) ((a, n) :: used) ls'.
Proof.
  intros I Hh Hi En Ei E0 Hc. pose proof (p_inv _ _ _ _ _ I) as Im.
  destruct (minv_list _ mp_sizes_word _ _ _ _ _ _ _ Im E0) as (n' & l & Hn' & Hl & Hch & _).
  destruct l as [|x l]; [|cbn in Hch; lia]. rewrite (sizes_lookup i Hi) in Hn'. injection Hn' as Hn'. rewrite <-En in Hn'. subst n'.
  destruct (chunkAlloc_inv news m p chunks used ls c i n I Hh Hi En Hc) as (chunk & k & m1 & p1 & ls1 & E & Hk & Hls & Hh1 & Hfl & I1).
  set (chunks1 := if n <=? left p then chunks else (c, bytesToGet p n 20) :: chunks) in *. clearbody chunks1.
  unfold refill. st_step E. destruct (Z.eqb_spec k 1) as [->|Hk1].
  - exists chunk, m1, p1, ls1. split; [reflexivity|]. split; [exact Hh1|]. now rewrite Z.mul_1_r in I1.
  - rewrite Ei. assert (Hhead : freeList_ p1 !! Z.to_nat i = Some 0) by congruence. st_step (put_list_some i (chunk + n) m1 p1 0 Hhead).
    pose proof (p_inv _ _ _ _ _ I1) as I2.
    pose proof (minv_perm _ _ _ _ _ ((chunk, n + Z.of_nat (S (Z.to_nat (k - 2))) * n) :: leftover p1 ++ used) _ I2) as I3.
    specialize (I3 ltac:(rewrite <-Permutation_middle; apply reflexive_eq; do 2 f_equal; nia)).
    pose proof (minv_split _ _ _ _ _ _ _ chunk n (Z.of_nat (S (Z.to_nat (k - 2))) * n) I3 (Permutation_refl _) ltac:(lia) ltac:(nia)) as I4.
    pose proof (minv_carve _ m1 _ chunks1 ((chunk, n) :: leftover p1 ++ used) ls1 (chunk + n) n (Z.to_nat (k - 2)) ltac:(lia)
                  (minv_perm _ _ _ _ _ _ _ I4 (Permutation_swap _ _ _))) as I5.
    assert (Hchunk : 0 < chunk).
    { pose proof (mi_placed _ _ _ _ _ _ I3) as Hp. apply Forall_app in Hp as [_ Hp]. apply Forall_cons in Hp as [Hp _]. apply Hp. }
    destruct (link_inv n (Z.to_nat (k - 2)) (chunk + n) m1 (set_list i (chunk + n) p1) ltac:(lia) ltac:(lia)) as (m2 & E2 & Hc2 & Hm2).
    st_step E2. exists chunk, m2, (set_list i (chunk + n) p1), (<[Z.to_nat i := addrs (chunk + n) n (S (Z.to_nat (k - 2)))]> ls1).
    split; [reflexivity|]. split; [exact Hh1|]. constructor; [apply I1|apply I1|].
    apply (minv_perm _ _ _ _ ((chunk, n) :: leftover p1 ++ used)); [|solve_Permutation].
    apply (minv_install _ mp_sizes_word _ m1 m2 _ _ _ ls1 (Z.to_nat i) 0 n (chunk + n) I5 Hhead); auto.
    + rewrite En. apply sizes_lookup, Hi.
    + now rewrite Hls.
Qed.

(** ** Use of the pool by a program *)

Definition block (r : region) : region := (fst r, if snd r <=? kMaxBytes then roundUp (snd r) else snd r).

(** The size [allocate] asks [operator new] for, if it does. *)
Definition asks (n : Z) (p : pool) : option Z :=
  if kMaxBytes <? n then Some n
  else if bool_decide (freeList_ p !! Z.to_nat (freeListIndex n) = Some 0) && negb (roundUp n <=? left p)
  then Some (bytesToGet p (roundUp n) 20) else None.
Definition fresh_ok (chunks : list region) (c n : Z) (p : pool) : Prop :=
  forall k, asks n p = Some k -> 0 < c /\ Forall (apart (c, k)) chunks.
Definition obtained (c n : Z) (p : pool) (chunks : list region) : list region :=
  match asks n p with Some k => (c, k) :: chunks | None => chunks end.

Definition pstate : Type := mem * pool * list region * list region.
Inductive step : pstate -> pstate -> Prop :=
  | step_allocate m p chunks live c n a m' p' : 0 < n -> fresh_ok chunks c n p -> allocate [c] n (m, p) = Done (Some a, (m', p')) ->
      step (m, p, chunks, live) (m', p', obtained c n p chunks, (a, n) :: live)
  (* operator new throws, and no part of a chunk is left over *)
  | step_throw m p chunks live n m' p' : 0 < n -> kMaxBytes < n \/ left p = 0 -> allocate [] n (m, p) = Done (None, (m', p')) ->
      step (m, p, chunks, live) (m', p', chunks, live)
  | step_deallocate m p chunks live live' a n m' p' : live ≡ₚ (a, n) :: live' -> deallocate a n (m, p) = Done (tt, (m', p')) ->
      step (m, p, chunks, live) (m', p', if kMaxBytes <? n then filter (fun r => r <> (a, n)) chunks else chunks, live')
  | step_write m p chunks live r m' : clobber r m m' -> (exists u, u ∈ live /\ inside r u) \/ Forall (apart r) chunks ->
      step (m, p, chunks, live) (m', p, chunks, live).
Definition reachable (s : pstate) : Prop := exists m, rtc step (m, new, [], []) s.

Definition Inv (s : pstate) : Prop :=
  let '(m, p, chunks, live) := s in
  0 <= heapSize_ p < size_mod /\ Forall (fun r => 0 < snd r) live /\ exists ls, PI m p chunks (map block live) ls.

Lemma mp_inside_block r : 0 < snd r -> inside r (block r).
Proof.
  intros Hr. unfold inside, block; cbn. destruct (Z.leb_spec (snd r) kMaxBytes) as [H|H]; [|lia].
  destruct (roundUp_range (snd r)) as (i & _ & _ & _ & Hle); [unfold kMaxBytes in H; lia|lia].
Qed.

(** [allocate] never asks for more than one chunk and always returns a block. *)
Lemma mp_allocate_ok m p chunks live c n news : Inv (m, p, chunks, live) -> 0 < n -> fresh_ok chunks c n p ->
  exists a m' p', allocate (c :: news) n (m, p) = Done (Some a, (m', p')) /\ Inv (m', p', obtained c n p chunks, (a, n) :: live).
Proof.
  intros (Hh & Hpos & ls & I) Hn Hf. unfold allocate, fresh_ok, obtained, asks in *.
  destruct (Z.ltb_spec kMaxBytes n) as [Hbig|Hsmall].
  - destruct (Hf n eq_refl) as [Hc Hap]. eexists c, _, _. split; [reflexivity|]. split; [exact Hh|]. split; [now constructor|]. exists ls.
    constructor; [apply I|apply I|]. cbn [map]. unfold block at 1. cbn [fst snd]. rewrite (proj2 (Z.leb_gt _ _)) by lia.
    change (leftover (add_allocated n p)) with (leftover p). apply (minv_perm _ _ _ _ ((c, n) :: leftover p ++ map block live)); [|solve_Permutation].
    exact (minv_grow _ m _ chunks _ ls c n (p_inv _ _ _ _ _ I) Hc Hn Hap).
  - destruct (roundUp_range n) as (i & Hi & Hr & Hidx & _); [unfold kMaxBytes in Hsmall; lia|]. rewrite Hidx in *.
    pose proof (p_inv _ _ _ _ _ I) as Im. pose proof (mi_heads _ _ _ _ _ _ Im) as Hlen. change (length sizes) with 32%nat in Hlen.
    destruct (freeList_ p !! Z.to_nat i) as [h|] eqn:Eh; [|apply lookup_ge_None in Eh; lia].
    st_step (get_list_some i m p h Eh). destruct (Z.eqb_spec h 0) as [->|Hh0].
    + rewrite bool_decide_true in Hf |- * by done. cbn [andb] in *.
      destruct (refill_inv news m p chunks _ ls c i (roundUp n) I Hh Hi Hr) as (a & m' & p' & ls' & E & Hh' & I').
      * rewrite Hr. unfold freeListIndex, kAlign. rewrite (wrap64_small (8 * (i + 1) + 8 - 1)) by (unfold size_mod; lia).
        rewrite wrap64_small by (unfold size_mod; Z.div_mod_to_equations; lia). Z.div_mod_to_equations. lia.
      * exact Eh.
      * intros Hlt. rewrite (proj2 (Z.leb_gt _ _)) in Hf by lia. exact (Hf _ eq_refl).
      * exists a, m', p'. split; [exact E|]. split; [exact Hh'|]. split; [now constructor|]. exists ls'. cbn [map]. unfold block at 1. cbn [fst snd].
        rewrite (proj2 (Z.leb_le n kMaxBytes)) by lia. destruct (roundUp n <=? left p); exact I'.
    + rewrite bool_decide_false in Hf |- * by congruence. cbn [andb] in *.
      destruct (minv_pop _ mp_sizes_word _ _ _ _ _ _ _ _ Im Eh (sizes_lookup i Hi) Hh0) as (q & l & Hq & Hl & I1).
      assert (El : load h (m, p) = Done (q, (m, p))) by (unfold load; rewrite bind_get; cbn [fst]; now rewrite Hq).
      st_step El. st_step (put_list_some i q m p h Eh). eexists _, _, _. split; [reflexivity|]. split; [exact Hh|]. split; [now constructor|].
      exists (<[Z.to_nat i := l]> ls). constructor; [apply I|apply I|]. cbn [map]. unfold block at 1. cbn [fst snd].
      rewrite (proj2 (Z.leb_le n kMaxBytes)) by lia. rewrite Hr. apply (minv_perm _ _ _ _ _ _ _ I1). unfold blk. solve_Permutation.
Qed.

Lemma mp_deallocate_ok m p chunks live live' a n : Inv (m, p, chunks, live) -> live ≡ₚ (a, n) :: live' ->
  exists m' p', deallocate a n (m, p) = Done (tt, (m', p')) /\
    Inv (m', p', if kMaxBytes <? n then filter (fun r => r <> (a, n)) chunks else chunks, live').
Proof.
  intros (Hh & Hpos & ls & I) Hl. rewrite Hl in Hpos. apply Forall_cons in Hpos as [Hn Hpos]. cbn in Hn.
  assert (Hu : map block live ≡ₚ block (a, n) :: map block live') by exact (Permutation_map block Hl).
  pose proof (PI_perm _ _ _ _ _ _ I Hu) as I1. unfold block at 1 in I1. cbn [fst snd] in I1. unfold deallocate, upd at 1. st_modify.
  destruct (Z.ltb_spec kMaxBytes n) as [Hbig|Hsmall].
  - rewrite (proj2 (Z.leb_gt _ _)) in I1 by lia. eexists _, _. split; [reflexivity|]. split; [exact Hh|]. split; [exact Hpos|]. exists ls.
    constructor; [apply I|apply I|]. change (leftover (add_freed n p)) with (leftover p).
    apply (minv_delete _ m _ chunks _ (leftover p ++ (a, n) :: map block live') _ ls (a, n) (p_inv _ _ _ _ _ I1)); [solve_Permutation|].
    intros d Hd. destruct (decide (d = (a, n))); [now left|right]. apply list_elem_of_filter. auto.
  - rewrite (proj2 (Z.leb_le n kMaxBytes)) in I1 by lia.
    destruct (roundUp_range n) as (i & Hi & Hr & Hidx & _); [unfold kMaxBytes in Hsmall; lia|]. rewrite Hidx. rewrite Hr in I1.
    pose proof (p_inv _ _ _ _ _ I1) as Im. pose proof (mi_heads _ _ _ _ _ _ Im) as Hlen. change (length sizes) with 32%nat in Hlen.
    destruct (freeList_ p !! Z.to_nat i) as [h|] eqn:Eh; [|apply lookup_ge_None in Eh; lia].
    destruct (minv_list _ mp_sizes_word _ _ _ _ _ _ _ Im Eh) as (n' & l & _ & Hl0 & _).
    st_step (get_list_some i m (add_freed n p) h Eh). unfold store at 1. st_modify.
    rewrite (put_list_some i a _ (add_freed n p) h Eh). eexists _, _. split; [reflexivity|]. split; [exact Hh|]. split; [exact Hpos|]. eexists.
    constructor; [apply I|apply I|]. change (leftover (set_list i a (add_freed n p))) with (leftover p).
    refine (minv_push _ mp_sizes_word m _ chunks _ (leftover p ++ map block live') ls _ h _ l a Im _ Eh (sizes_lookup i Hi) Hl0). unfold blk. solve_Permutation.
Qed.

(** The requests that need no memory do not ask for any. *)
Lemma allocate_no_news n c m p : 0 <= left p < size_mod -> 0 < n -> asks n p = None -> allocate [] n (m, p) = allocate [c] n (m, p).
Proof.
  unfold asks, allocate. intros Hl Hn Ha. destruct (Z.ltb_spec kMaxBytes n) as [|Hs]; [discriminate|]. unfold get_list. rewrite !bind_assoc, !bind_get.
  cbn [snd]. destruct (freeList_ p !! Z.to_nat (freeListIndex n)) as [h|]; [|reflexivity]. cbn [deref]. rewrite !bind_ret_l.
  destruct (Z.eqb_spec h 0) as [->|_]; [|reflexivity]. rewrite bool_decide_true in Ha by done. cbn [andb] in Ha.
  destruct (roundUp_range n) as (i & Hi & Er & _); [unfold kMaxBytes in Hs; lia|]. rewrite Er in *.
  destruct (Z.leb_spec (8 * (i + 1)) (left p)) as [Hle|]; [|discriminate]. unfold refill.
  assert (E : chunkAlloc [] (8 * (i + 1)) 20 (m, p) = chunkAlloc [c] (8 * (i + 1)) 20 (m, p)).
  { cbn [chunkAlloc]. rewrite !bind_get. cbn [snd]. change (endFree_ p - startFree_ p) with (left p). rewrite (wrap64_small (left p)) by lia.
    destruct (_ <=? left p); [reflexivity|]. now rewrite (proj2 (Z.leb_le _ (left p))) by lia. }
  unfold mbind, ST_bind. now rewrite E.
Qed.

(** [operator new] throws: the pool is as before, but for the rest of a chunk that was
    put in its free list already and is still the current chunk. *)
Lemma mp_throw m p chunks live n k : Inv (m, p, chunks, live) -> 0 < n -> asks n p = Some k ->
  exists m' p', allocate [] n (m, p) = Done (None, (m', p')) /\
    (kMaxBytes < n \/ left p = 0 -> Inv (m', p', chunks, live)) /\
    (n <= kMaxBytes -> 0 < left p -> freeList_ p' !! Z.to_nat (freeListIndex (left p)) = Some (startFree_ p) /\
       startFree_ p' = startFree_ p /\ endFree_ p' = endFree_ p).
Proof.
  intros (Hh & Hpos & ls & I) Hn Ha. pose proof (p_left _ _ _ _ _ I) as Hl. unfold asks, allocate in *.
  destruct (Z.ltb_spec kMaxBytes n) as [Hbig|Hsmall].
  { eexists _, _. split; [reflexivity|]. split; [|lia]. intros _. split; [exact Hh|]. split; [exact Hpos|]. exists ls. constructor; apply I. }
  unfold get_list. rewrite !bind_assoc, !bind_get. cbn [snd].
  destruct (bool_decide_reflect (freeList_ p !! Z.to_nat (freeListIndex n) = Some 0)) as [E0|]; [|discriminate]. cbn [andb] in Ha.
  destruct (roundUp_range n) as (i & Hi & Er & _); [unfold kMaxBytes in Hsmall; lia|]. rewrite Er in *.
  destruct (Z.leb_spec (8 * (i + 1)) (left p)) as [|Hlt]; [discriminate|]. rewrite E0. cbn [deref]. rewrite bind_ret_l, Z.eqb_refl.
  unfold refill. assert (Hr : exists m' p', retire_left p (m, p) = Done (tt, (m', p')) /\ (left p = 0 -> (m', p') = (m, p)) /\
    (0 < left p -> freeList_ p' !! Z.to_nat (freeListIndex (left p)) = Some (startFree_ p) /\ startFree_ p' = startFree_ p /\ endFree_ p' = endFree_ p)).
  { unfold retire_left. destruct (Z.ltb_spec 0 (left p)) as [Hp|Hz]; cbn [when].
    - destruct (leftover_to_list m p chunks _ ls _ I ltac:(lia) eq_refl) as (h & l & _ & _ & _ & Eh & _).
      eexists _, _. split; [exact (retire_run m p h Eh)|]. split; [lia|]. intros _. split; [|done].
      apply list_lookup_insert_eq. now apply lookup_lt_Some in Eh.
    - exists m, p. split; [reflexivity|]. split; [done|lia]. }
  destruct Hr as (m' & p' & E & Hz & Hp). exists m', p'. split; [|split; [|auto]].
  - rewrite (bind_done _ _ _ None (m', p')); [reflexivity|]. rewrite chunkAlloc_ask by lia. st_step E. reflexivity.
  - intros [?|Hl0]; [lia|]. specialize (Hz Hl0). injection Hz as -> ->. split; [exact Hh|]. split; [exact Hpos|]. now exists ls.
Qed.

Lemma mp_Inv_step s s' : Inv s -> step s s' -> Inv s'.
Proof.
  intros I Hst. destruct Hst as [m p chunks live c n a m' p' Hn Hf E|m p chunks live n m' p' Hn Hz E|m p chunks live live' a n m' p' Hl E|m p chunks live r m' Hm Hr].
  - destruct (mp_allocate_ok m p chunks live c n [] I Hn Hf) as (a1 & m1 & p1 & E1 & I1). rewrite E in E1. injection E1 as <- <- <-. exact I1.
  - destruct (asks n p) as [k|] eqn:Ea.
    + destruct (mp_throw m p chunks live n k I Hn Ea) as (m1 & p1 & E1 & I1 & _). rewrite E in E1. injection E1 as <- <-. auto.
    + assert (Hl : 0 <= left p < size_mod) by (destruct I as (_ & _ & ls & I); apply I).
      destruct (mp_allocate_ok m p chunks live 0 n [] I Hn) as (a1 & m1 & p1 & E1 & _); [intros k; congruence|].
      rewrite <-(allocate_no_news n 0 m p Hl Hn Ea) in E1. congruence.
  - destruct (mp_deallocate_ok m p chunks live live' a n I Hl) as (m1 & p1 & E1 & I1). rewrite E in E1. injection E1 as <- <-. exact I1.
  - destruct I as (Hh & Hpos & ls & I). split; [exact Hh|]. split; [exact Hpos|]. exists ls. constructor; [apply I|apply I|].
    apply (minv_write _ mp_sizes_word m m' _ _ _ _ r (p_inv _ _ _ _ _ I) Hm). destruct Hr as [(u & Hu & Hi)|Hr]; [left|now right].
    exists (block u). split; [rewrite elem_of_app; right; apply list_elem_of_fmap; eauto|]. apply (inside_trans _ _ _ Hi), mp_inside_block.
    rewrite Forall_forall in Hpos. exact (Hpos u Hu).
Qed.

Lemma mp_Inv_reachable s : reachable s -> Inv s.
Proof.
  intros [m H]. revert s H. apply (rtc_ind_r Inv).
  - split; [unfold size_mod; cbn; lia|]. split; [constructor|]. exists (replicate 32 []). constructor; [unfold left, size_mod; cbn; lia|reflexivity|].
    exact (minv_new sizes m).
  - intros s s' _ Hst IH. exact (mp_Inv_step s s' IH Hst).
Qed.

(** C38: any sequence of allocations of positive sizes, frees and writes inside the
    memory handed out, in which [operator new] throws at most when no part of a
    chunk is left over (or for more than 256 bytes).  [allocate] stops after at
    most one request to [operator new], never reads a bad link or list, and returns
    memory of the size asked for that is apart from everything in use; everything
    in use lies in memory obtained from [operator new] and can be freed.  If
    [operator new] throws, so does [allocate], exactly when it has to ask; the pool
    can be used on, unless there was a rest of a chunk: that is then in a free list
    and still the current chunk (see [throw_then_overlap]). *)
Theorem mempool_safe m p chunks live : reachable (m, p, chunks, live) ->
  sep live /\
  Forall (fun r => exists d, d ∈ chunks /\ inside r d) live /\
  (forall c n news, 0 < n -> fresh_ok chunks c n p ->
     exists a m' p', allocate (c :: news) n (m, p) = Done (Some a, (m', p')) /\ Forall (apart (a, n)) live) /\
  (forall a n live', live ≡ₚ (a, n) :: live' -> exists m' p', deallocate a n (m, p) = Done (tt, (m', p'))) /\
  (forall n, 0 < n -> exists r m' p', allocate [] n (m, p) = Done (r, (m', p')) /\ (r = None <-> asks n p <> None) /\
     (r = None -> kMaxBytes < n \/ left p = 0 -> reachable (m', p', chunks, live)) /\
     (r = None -> n <= kMaxBytes -> 0 < left p ->
        freeList_ p' !! Z.to_nat (freeListIndex (left p)) = Some (startFree_ p) /\
        startFree_ p' = startFree_ p /\ endFree_ p' = endFree_ p)).
Proof.
  intros Hr. pose proof (mp_Inv_reachable _ Hr) as I.
  assert (Hsep : forall m p chunks live, Inv (m, p, chunks, live) -> sep live).
  { intros ? ? ? ? (_ & Hpos & ls & I1). apply (sep_inside block).
    - intros r Hin. apply mp_inside_block. rewrite Forall_forall in Hpos. exact (Hpos r Hin).
    - pose proof (minv_live_apart _ _ _ _ _ _ (p_inv _ _ _ _ _ I1)) as Hs. now apply sep_app in Hs. }
  split_and!.
  - exact (Hsep _ _ _ _ I).
  - destruct I as (_ & Hpos & ls & I). pose proof (mi_placed _ _ _ _ _ _ (p_inv _ _ _ _ _ I)) as Hp.
    rewrite !Forall_app, Forall_map in Hp. destruct Hp as (_ & _ & Hp). rewrite Forall_forall in Hp. rewrite Forall_forall in Hpos. apply Forall_forall.
    intros r Hin. destruct (Hp r Hin) as (_ & _ & d & Hd & Hi). exists d. split; [exact Hd|]. exact (inside_trans _ _ _ (mp_inside_block r (Hpos r Hin)) Hi).
  - intros c n news Hn Hf. destruct (mp_allocate_ok m p chunks live c n news I Hn Hf) as (a & m' & p' & E & I'). exists a, m', p'.
    split; [exact E|]. apply Hsep in I'. apply I'.
  - intros a n live' Hl. destruct (mp_deallocate_ok m p chunks live live' a n I Hl) as (m' & p' & E & _). eauto.
  - intros n Hn. destruct (asks n p) as [k|] eqn:Ea.
    + destruct (mp_throw m p chunks live n k I Hn Ea) as (m' & p' & E & _ & Hp). exists None, m', p'. split_and!; auto; [done|].
      intros _ Hz. destruct Hr as [m0 Hr]. exists m0. eapply rtc_r; [exact Hr|]. eapply step_throw; eauto.
    + assert (Hl : 0 <= left p < size_mod) by (destruct I as (_ & _ & ls & I); apply I).
      destruct (mp_allocate_ok m p chunks live 0 n [] I Hn) as (a & m' & p' & E & _); [intros k; congruence|].
      exists (Some a), m', p'. rewrite (allocate_no_news n 0 m p Hl Hn Ea). by split_and!.
Qed.

(** [allocate(0)]: the index wraps around and the access is out of bounds. *)
Example allocate_zero_undefined : freeListIndex 0 = size_mod - 1 /\ allocate [4096] 0 (∅, new) = Fail UndefinedBehaviour.
Proof.
  split; [reflexivity|]. unfold allocate. change (kMaxBytes <? 0) with false. cbv iota. unfold get_list.
  rewrite bind_assoc, bind_get. cbn [snd]. rewrite lookup_ge_None_2; [reflexivity|].
  change (freeListIndex 0) with 18446744073709551615. cbn [new freeList_]. rewrite length_replicate. change (Z.to_nat kNumFreeLists) with 32%nat. lia.
Qed.

(** The blocks handed out by [refill] are not counted in [totalAllocated_]. *)
Example refill_not_counted : 
  match allocate [4096] 8 (∅, new) with Done (a, (_, p)) => a = Some 4096 /\ totalAllocated p = 0 | Fail _ => False end.
Proof. vm_compute. auto. Qed.

(** [operator new] throws while 16 bytes of a chunk are left: these are handed out as
    a block of 16 bytes and, when the list of 8-byte blocks is used up, cut up as
    the current chunk. *)
Fixpoint allocate_all (sizes : list (Z * list Z)) : ST (mem * pool) (list (option Z)) :=
  match sizes with
  | [] => mret []
  | (n, news) :: l => a ← allocate news n; r ← allocate_all l; mret (a :: r)
  end.

Example throw_then_overlap :
  match allocate_all ([(8, [4096]); (24, []); (256, []); (16, [])] ++ replicate 20 (8, [])) (∅, new) with
  | Done (r, _) => take 4 r = [Some 4096; Some 4256; None; Some 4400] /\ last r = Some (Some 4400)
  | Fail _ => False
  end.
Proof. vm_compute. auto. Qed.

Module Demo.
Definition s1 := match allocate [4096] 8 (∅, new) with Done (_, s) => s | Fail _ => (∅, new) end.
Definition s2 := match allocate [] 24 s1 with Done (_, s) => s | Fail _ => s1 end.

Lemma two_blocks : reachable (fst s2, snd s2, [(4096, 320)], [(4256, 24); (4096, 8)]).
Proof.
  exists ∅.
  assert (E1 : allocate [4096] 8 (∅, new) = Done (Some 4096, (fst s1, snd s1))) by (vm_compute; reflexivity).
  assert (E2 : allocate [0] 24 (fst s1, snd s1) = Done (Some 4256, (fst s2, snd s2))) by (vm_compute; reflexivity).
  assert (O1 : obtained 4096 8 new [] = [(4096, 320)]) by (vm_compute; reflexivity).
  assert (O2 : obtained 0 24 (snd s1) [(4096, 320)] = [(4096, 320)]) by (vm_compute; reflexivity).
  pose proof (step_allocate ∅ new [] [] 4096 8 _ _ _ ltac:(lia) ltac:(intros k _; split; [lia|constructor]) E1) as S1. rewrite O1 in S1.
  assert (A2 : asks 24 (snd s1) = None) by (vm_compute; reflexivity).
  pose proof (step_allocate _ _ [(4096, 320)] [(4096, 8)] 0 24 _ _ _ ltac:(lia) ltac:(intros k; rewrite A2; discriminate) E2) as S2. rewrite O2 in S2.
  exact (rtc_l _ _ _ _ S1 (rtc_once _ _ S2)).
Qed.

Lemma mempool_safe_witness : sep [(4256, 24); (4096, 8)] /\
  exists a m' p', allocate [0] 16 (fst s2, snd s2) = Done (Some a, (m', p')) /\ Forall (apart (a, 16)) [(4256, 24); (4096, 8)].
Proof.
  assert (A : asks 16 (snd s2) = None) by (vm_compute; reflexivity).
  destruct (mempool_safe (fst s2) (snd s2) _ _ two_blocks) as (Hsep & _ & Hal & _). split; [exact Hsep|].
  apply (Hal 0 16 []); [lia|]. intros k Hk. rewrite A in Hk. discriminate.
Defined.
End Demo.
