(* ===== verification/TaggedPointer.v ===== *)
(** TaggedPointer and LFStack: [base/TaggedPointer.h], a 64-bit word that packs a
    48-bit pointer with a 16-bit version, and the stack built on it.

    A [TaggedPointer] is the value of its only field [packed_].  The stack is a
    transition system: a step of a thread is one access to shared memory. *)

From Stdlib Require Import ZArith Lia.
From S2P Require Import Prelude.

Local Open Scope Z_scope.

Definition kPtrMask : Z := 281474976710655.
Definition kTagMask : Z := 18446462598732840960.
Definition kTagShift : Z := 48.
Definition uint16 (z : Z) : Z := z mod 65536.

(** [pack]; the conversion of a pointer to [uint64_t] is the identity. *)
Definition pack {S} `{Build} (addr tag : Z) : ST S Z :=
  let signExt := if Z.land addr (Z.shiftl 1 47) =? 0 then 0 else kTagMask in
  _ ← cassert ((Z.land addr kTagMask =? signExt) || (addr =? 0));
  mret (Z.lor addr (wrap64 (Z.shiftl tag kTagShift))).

Definition ptr (packed : Z) : Z := Z.land packed kPtrMask.
Definition tag (packed : Z) : Z := uint16 (Z.shiftr packed kTagShift).

(** The first [compare_exchange]: the new value of [packed_] and the answer;
    [expected] is only read. *)
Definition compare_exchange {S} `{Build} (packed_ expected newPtr newTag : Z) : ST S (Z * bool) :=
  newPacked ← pack newPtr newTag;
  mret (if packed_ =? expected then (newPacked, true) else (packed_, false)).
(** The second one passes [expected.tag() + 1]. *)
Definition compare_exchange_next {S} `{Build} (packed_ expected newPtr : Z) : ST S (Z * bool) :=
  compare_exchange packed_ expected newPtr (uint16 (tag expected + 1)).
Definition store {S} `{Build} (p t : Z) : ST S Z := pack p t.

(** *** Packing *)

Lemma land_low x n : 0 <= n -> Z.land x (2 ^ n - 1) = x mod 2 ^ n.
Proof. intros Hn. rewrite <-Z.land_ones by lia. now rewrite Z.ones_equiv, Z.sub_1_r. Qed.

Lemma ptr_mod p : ptr p = p mod 2 ^ 48.
Proof. exact (land_low p 48 ltac:(lia)). Qed.

(** The numbers below [2^n] and the multiples of [2^n] have no bit in common. *)
Lemma lor_add a b n : 0 <= n -> 0 <= a < 2 ^ n -> 0 <= b -> Z.lor a (b * 2 ^ n) = a + b * 2 ^ n.
Proof.
  intros Hn Ha Hb. rewrite <-Z.shiftl_mul_pow2 by lia. enough (E : Z.land a (Z.shiftl b n) = 0).
  { now rewrite <-Z.lxor_lor, <-Z.add_nocarry_lxor by exact E. }
  apply Z.bits_inj'. intros i Hi. rewrite Z.land_spec, Z.bits_0, Z.shiftl_spec by lia.
  destruct (Z.ltb_spec i n).
  - rewrite (Z.testbit_neg_r b (i - n)) by lia. apply andb_false_r.
  - destruct (Z.eq_dec a 0) as [->|]; [now rewrite Z.bits_0|]. rewrite (Z.bits_above_log2 a i); [reflexivity|lia|].
    apply Z.log2_lt_pow2; [lia|]. apply (Z.lt_le_trans _ (2 ^ n)); [lia|]. apply Z.pow_le_mono_r; lia.
Qed.

(** Addresses of user space: the upper 17 bits are clear. *)
Definition user_address (a : Z) : Prop := 0 <= a < 2 ^ 47.

Lemma pack_user {S} `{Build} a t (s : S) : user_address a -> 0 <= t < 65536 -> pack a t s = Done (a + t * 2 ^ 48, s).
Proof.
  unfold user_address. intros Ha Ht. unfold pack.
  assert (E47 : Z.land a (Z.shiftl 1 47) = 0).
  { apply Z.bits_inj'. intros i Hi. rewrite Z.land_spec, Z.bits_0. change (Z.shiftl 1 47) with (2 ^ 47). rewrite Z.pow2_bits_eqb by lia.
    destruct (Z.eqb_spec 47 i) as [<-|]; [|apply andb_false_r]. rewrite andb_true_r.
    destruct (Z.eq_dec a 0) as [->|]; [apply Z.bits_0|]. apply Z.bits_above_log2; [lia|]. apply Z.log2_lt_pow2; lia. }
  assert (Etag : Z.land a kTagMask = 0).
  { change kTagMask with (Z.shiftl (Z.ones 16) 48). apply Z.bits_inj'. intros i Hi. rewrite Z.land_spec, Z.bits_0, Z.shiftl_spec by lia.
    destruct (Z.ltb_spec i 48).
    - rewrite (Z.testbit_neg_r _ (i - 48)) by lia. apply andb_false_r.
    - destruct (Z.eq_dec a 0) as [->|]; [now rewrite Z.bits_0|]. rewrite (Z.bits_above_log2 a i); [reflexivity|lia|].
      apply Z.log2_lt_pow2; [lia|]. apply (Z.lt_le_trans _ (2 ^ 47)); [lia|]. apply Z.pow_le_mono_r; lia. }
  rewrite E47, Etag. change (0 =? 0) with true. cbv beta iota. rewrite Z.eqb_refl.
  rewrite (bind_done _ _ _ _ _ (cassert_true (true || (a =? 0)) s eq_refl)).
  unfold kTagShift. rewrite Z.shiftl_mul_pow2, wrap64_small by (unfold size_mod; lia). rewrite lor_add by lia. reflexivity.
Qed.

Lemma ptr_packed a t : user_address a -> 0 <= t -> ptr (a + t * 2 ^ 48) = a.
Proof. unfold user_address. intros Ha Ht. rewrite ptr_mod, Z.mod_add, Z.mod_small by lia. reflexivity. Qed.

Lemma tag_packed a t : user_address a -> 0 <= t < 65536 -> tag (a + t * 2 ^ 48) = t.
Proof.
  unfold user_address. intros Ha Ht. unfold tag, uint16, kTagShift. rewrite Z.shiftr_div_pow2, Z.div_add, Z.div_small by lia. rewrite Z.add_0_l. now apply Z.mod_small.
Qed.

(** An address of the upper half passes the assertion but loses its version, and
    one that is not canonical fails it. *)
Example pack_kernel {S} (s : S) : @pack S debug_build 18446638520593285120 5 s = Done (18446638520593285120, s) /\ tag 18446638520593285120 = 65535.
Proof. vm_compute. auto. Qed.
Example pack_not_canonical {S} (s : S) : @pack S debug_build (2 ^ 47) 0 s = Fail AssertFailed.
Proof. reflexivity. Qed.

(** ** LFStack *)

Module LFStack.
Section LFStack.
Context {T : Type} `{Build}.

Record Node := mkNode { data : T; next : Z }.

Inductive event := Pushed (x : T) | Popped (x : T) | PopFalse.

(** Where a thread is in [push] or [pop]. *)
Inductive pc :=
  | Idle
  | PushNew (val : T)
  | PushLoad (node : Z)
  | PushNext (node oldHead : Z)
  | PushCas (node oldHead newHead : Z)
  | PopLoad
  | PopTest (oldHead : Z)
  | PopNext (oldHead node : Z)
  | PopCas (oldHead node newHead : Z)
  | PopRead (node : Z)
  | PopDelete (node : Z) (out : T).

(** [head_.packed], the nodes allocated, the threads and the answers so far. *)
Record state := mkState {
  head_ : Z;
  nodes : gmap Z Node;
  pcs : nat -> pc;
  events : list (nat * event);
}.
Implicit Types (s : state).

Definition new : state := mkState 0 ∅ (fun _ => Idle) [].

Definition goto (t : nat) (p : pc) s : state :=
  mkState (head_ s) (nodes s) (fun t' => if decide (t' = t) then p else pcs s t') (events s).
Definition return_ (t : nat) (e : event) s : state :=
  mkState (head_ s) (nodes s) (fun t' => if decide (t' = t) then Idle else pcs s t') (events s ++ [(t, e)]).
Definition set_head (h : Z) s : state := mkState h (nodes s) (pcs s) (events s).
Definition set_node (a : Z) (n : Node) s : state := mkState (head_ s) (<[a := n]> (nodes s)) (pcs s) (events s).
Definition del_node (a : Z) s : state := mkState (head_ s) (delete a (nodes s)) (pcs s) (events s).

Definition node_at (a : Z) : ST state Node := s ← get; deref (nodes s !! a).

(** [HeadProxy::load] and [HeadProxy::compare_exchange]: [expected] is a local
    copy that the failed exchange does not write back. *)
Definition load_head : ST state Z := s ← get; pack (ptr (head_ s)) (tag (head_ s)).
Definition cas_head (expected desired : Z) : ST state bool :=
  s ← get;
  if head_ s =? expected then _ ← modify (set_head desired); mret true else mret false.

(** The next step of thread [t]; [fresh] is the answer of [operator new]. *)
Definition exec (fresh : Z) (t : nat) : ST state unit :=
  s ← get;
  match pcs s t with
  | Idle => mret tt
  | PushNew x => _ ← modify (set_node fresh (mkNode x 0)); modify (goto t (PushLoad fresh))
  | PushLoad node => oldHead ← load_head; modify (goto t (PushNext node oldHead))
  | PushNext node oldHead =>
      n ← node_at node;
      _ ← modify (set_node node (mkNode (data n) (ptr oldHead)));
      newHead ← pack node (tag oldHead);
      modify (goto t (PushCas node oldHead newHead))
  | PushCas node oldHead newHead =>
      ok ← cas_head oldHead newHead;
      if (ok : bool) then n ← node_at node; modify (return_ t (Pushed (data n)))
      else modify (goto t (PushNext node oldHead))
  | PopLoad => oldHead ← load_head; modify (goto t (PopTest oldHead))
  | PopTest oldHead =>
      let node := ptr oldHead in
      if node =? 0 then modify (return_ t PopFalse) else modify (goto t (PopNext oldHead node))
  | PopNext oldHead node =>
      n ← node_at node;
      newHead ← pack (next n) (uint16 (tag oldHead + 1));
      modify (goto t (PopCas oldHead node newHead))
  | PopCas oldHead node newHead =>
      ok ← cas_head oldHead newHead;
      if (ok : bool) then modify (goto t (PopRead node)) else modify (goto t (PopTest oldHead))
  | PopRead node => n ← node_at node; modify (goto t (PopDelete node (data n)))
  | PopDelete node out =>
      _ ← node_at node;
      _ ← modify (del_node node);
      modify (return_ t (Popped out))
  end.

Definition empty s : bool := ptr (head_ s) =? 0.

(** [n] steps of thread [t] with nobody else running. *)
Fixpoint alone (fresh : Z) (t n : nat) : ST state unit :=
  match n with O => mret tt | S n' => _ ← exec fresh t; alone fresh t n' end.

(** *** One thread at a time: a last-in first-out stack *)

Fixpoint chain (m : gmap Z Node) (p : Z) (l : list (Z * T)) : Prop :=
  match l with
  | [] => p = 0
  | (a, x) :: l' => p = a /\ user_address a /\ a <> 0 /\ exists q, m !! a = Some (mkNode x q) /\ chain m q l'
  end.

(** The stack holds [l], the newest element first. *)
Definition holds s (l : list T) : Prop := exists p g la,
  head_ s = p + g * 2 ^ 48 /\ 0 <= g < 65536 /\ chain (nodes s) p la /\ NoDup (map fst la) /\ map snd la = l.

Lemma node_chain_frame m m' p l : (forall a, a ∈ map fst l -> m' !! a = m !! a) -> chain m p l -> chain m' p l.
Proof.
  revert p. induction l as [|[a x] l IH]; cbn; [done|]. intros p Hm (-> & Hu & Ha & q & Hq & Hc). split_and!; auto.
  exists q. split; [rewrite Hm by (now left); exact Hq|]. apply IH; [|exact Hc]. intros b Hb. apply Hm. now right.
Qed.

Lemma chain_user m p l : chain m p l -> user_address p.
Proof. destruct l as [|[a x] l]; cbn; [intros ->; unfold user_address; lia|]. now intros (-> & Hu & _). Qed.

Lemma chain_allocated m p l a : chain m p l -> a ∈ map fst l -> is_Some (m !! a).
Proof.
  revert p. induction l as [|[b x] l IH]; cbn; [intros p _ Hin; now apply elem_of_nil in Hin|].
  intros p (-> & _ & _ & q & Hq & Hc) [->|Hin]%elem_of_cons; [eexists; exact Hq|exact (IH q Hc Hin)].
Qed.

Lemma load_head_eq s p g : user_address p -> 0 <= g < 65536 -> head_ s = p + g * 2 ^ 48 -> load_head s = Done (head_ s, s).
Proof. intros Hp Hg E. unfold load_head. rewrite bind_get, E, ptr_packed, tag_packed by first [done|lia]. now apply pack_user. Qed.

Lemma pcs_goto t p s : pcs (goto t p s) t = p.
Proof. cbn. now rewrite decide_True. Qed.

Lemma exec_step f t n p s s' : pcs s t = p -> exec f t s = Done (tt, s') -> alone f t (S n) s = alone f t n s'.
Proof. intros _ E. cbn [alone]. now rewrite (bind_done _ _ _ _ _ E). Qed.

Lemma node_at_eq a n s : nodes s !! a = Some n -> node_at a s = Done (n, s).
Proof. intros E. unfold node_at. now rewrite bind_get, E. Qed.

(** The steps, by program counter. *)
Lemma exec_push_new f t x s : pcs s t = PushNew x -> exec f t s = Done (tt, goto t (PushLoad f) (set_node f (mkNode x 0) s)).
Proof. intros E. unfold exec. now rewrite bind_get, E. Qed.

Lemma exec_push_load f t node s : pcs s t = PushLoad node -> load_head s = Done (head_ s, s) ->
  exec f t s = Done (tt, goto t (PushNext node (head_ s)) s).
Proof. intros E El. unfold exec. rewrite bind_get, E. now rewrite (bind_done _ _ _ _ _ El). Qed.

Lemma exec_push_next f t node old n g s : pcs s t = PushNext node old -> nodes s !! node = Some n -> user_address node ->
  tag old = g -> 0 <= g < 65536 ->
  exec f t s = Done (tt, goto t (PushCas node old (node + g * 2 ^ 48)) (set_node node (mkNode (data n) (ptr old)) s)).
Proof.
  intros E En Hu Eg Hg. unfold exec. rewrite bind_get, E. rewrite (bind_done _ _ _ _ _ (node_at_eq _ _ _ En)), bind_modify, Eg.
  now rewrite (bind_done _ _ _ _ _ (pack_user node g _ Hu Hg)).
Qed.

Lemma exec_push_cas f t node old new n s : pcs s t = PushCas node old new -> nodes s !! node = Some n ->
  exec f t s = Done (tt, if head_ s =? old then return_ t (Pushed (data n)) (set_head new s) else goto t (PushNext node old) s).
Proof.
  intros E En. unfold exec. rewrite bind_get, E. unfold cas_head. rewrite bind_assoc, bind_get. destruct (head_ s =? old); [|reflexivity].
  rewrite bind_assoc, bind_modify, bind_ret_l. now rewrite (bind_done _ _ _ _ _ (node_at_eq node n (set_head new s) En)).
Qed.

Lemma exec_pop_load f t s : pcs s t = PopLoad -> load_head s = Done (head_ s, s) -> exec f t s = Done (tt, goto t (PopTest (head_ s)) s).
Proof. intros E El. unfold exec. rewrite bind_get, E. now rewrite (bind_done _ _ _ _ _ El). Qed.

Lemma exec_pop_test f t old s : pcs s t = PopTest old ->
  exec f t s = Done (tt, if ptr old =? 0 then return_ t PopFalse s else goto t (PopNext old (ptr old)) s).
Proof. intros E. unfold exec. rewrite bind_get, E. now destruct (ptr old =? 0). Qed.

Lemma exec_pop_next f t old node n s : pcs s t = PopNext old node -> nodes s !! node = Some n -> user_address (next n) ->
  exec f t s = Done (tt, goto t (PopCas old node (next n + uint16 (tag old + 1) * 2 ^ 48)) s).
Proof.
  intros E En Hu. unfold exec. rewrite bind_get, E. rewrite (bind_done _ _ _ _ _ (node_at_eq _ _ _ En)).
  assert (Hg : 0 <= uint16 (tag old + 1) < 65536) by (unfold uint16; apply Z.mod_pos_bound; lia).
  now rewrite (bind_done _ _ _ _ _ (pack_user (next n) _ _ Hu Hg)).
Qed.

Lemma exec_pop_cas f t old node new s : pcs s t = PopCas old node new ->
  exec f t s = Done (tt, if head_ s =? old then goto t (PopRead node) (set_head new s) else goto t (PopTest old) s).
Proof.
  intros E. unfold exec. rewrite bind_get, E. unfold cas_head. rewrite bind_assoc, bind_get. now destruct (head_ s =? old).
Qed.

Lemma exec_pop_read f t node n s : pcs s t = PopRead node -> nodes s !! node = Some n ->
  exec f t s = Done (tt, goto t (PopDelete node (data n)) s).
Proof. intros E En. unfold exec. rewrite bind_get, E. now rewrite (bind_done _ _ _ _ _ (node_at_eq _ _ _ En)). Qed.

Lemma exec_pop_delete f t node x n s : pcs s t = PopDelete node x -> nodes s !! node = Some n ->
  exec f t s = Done (tt, return_ t (Popped x) (del_node node s)).
Proof. intros E En. unfold exec. rewrite bind_get, E. now rewrite (bind_done _ _ _ _ _ (node_at_eq _ _ _ En)). Qed.


Lemma push_lifo s l t x a : holds s l -> user_address a -> a <> 0 -> nodes s !! a = None ->
  exists s', alone a t 4 (goto t (PushNew x) s) = Done (tt, s') /\ holds s' (x :: l) /\ events s' = events s ++ [(t, Pushed x)] /\ pcs s' t = Idle.
Proof.
  intros (p & g & la & Eh & Hg & Hc & Hnd & <-) Hu Ha Hn. pose proof (chain_user _ _ _ Hc) as Hp.
  erewrite exec_step; [|apply pcs_goto|eapply exec_push_new, pcs_goto].
  erewrite exec_step; [|apply pcs_goto|eapply exec_push_load; [apply pcs_goto|apply (load_head_eq _ p g Hp Hg), Eh]].
  erewrite exec_step; [|apply pcs_goto|eapply (exec_push_next _ _ _ _ (mkNode x 0) g); [apply pcs_goto|apply lookup_insert_eq|exact Hu| |exact Hg]].
  2: { cbn. rewrite Eh. now apply tag_packed. }
  erewrite exec_step; [|apply pcs_goto|eapply (exec_push_cas _ _ _ _ _ (mkNode x p)); [apply pcs_goto|]].
  2: { cbn. rewrite Eh, ptr_packed by first [done|lia]. apply lookup_insert_eq. }
  cbn [head_ set_head set_node goto]. rewrite Z.eqb_refl. eexists. split; [reflexivity|]. split_and!.
  - exists a, g, ((a, x) :: la). cbn. split_and!; auto; try lia.
    + exists (ptr (head_ s)). split; [apply lookup_insert_eq|]. rewrite Eh, ptr_packed by first [done|lia].
      apply (node_chain_frame (nodes s)); [|exact Hc]. intros b Hb. rewrite !lookup_insert_ne; [done| |]; intros <-;
        destruct (chain_allocated _ _ _ _ Hc Hb); congruence.
    + apply NoDup_cons. split; [|exact Hnd]. intros Hin. destruct (chain_allocated _ _ _ _ Hc Hin). congruence.
  - reflexivity.
  - cbn. now rewrite decide_True.
Qed.

Lemma pop_empty s t : holds s [] ->
  exists s', alone 0 t 2 (goto t PopLoad s) = Done (tt, s') /\ holds s' [] /\ events s' = events s ++ [(t, PopFalse)] /\ pcs s' t = Idle.
Proof.
  intros (p & g & la & Eh & Hg & Hc & Hnd & El). destruct la; [|discriminate]. cbn in Hc. subst p.
  assert (Hp : user_address 0) by (unfold user_address; lia).
  erewrite exec_step; [|apply pcs_goto|eapply exec_pop_load; [apply pcs_goto|apply (load_head_eq _ 0 g Hp Hg), Eh]].
  erewrite exec_step; [|apply pcs_goto|eapply exec_pop_test, pcs_goto].
  cbn [head_ goto]. rewrite Eh, ptr_packed by first [done|lia]. cbn [Z.eqb]. eexists. split; [reflexivity|]. split_and!.
  - exists 0, g, []. cbn. split_and!; auto; lia || constructor.
  - reflexivity.
  - cbn. now rewrite decide_True.
Qed.

Lemma pop_lifo s t x l : holds s (x :: l) ->
  exists s', alone 0 t 6 (goto t PopLoad s) = Done (tt, s') /\ holds s' l /\ events s' = events s ++ [(t, Popped x)] /\ pcs s' t = Idle.
Proof.
  intros (p & g & la & Eh & Hg & Hc & Hnd & El). pose proof (chain_user _ _ _ Hc) as Hp.
  destruct la as [|[a y] la]; [discriminate|]. cbn in El. injection El as <- <-. cbn in Hc. destruct Hc as (-> & Hu & Ha & q & Hq & Hc).
  pose proof (chain_user _ _ _ Hc) as Huq. cbn in Hnd. apply NoDup_cons in Hnd as [Hin Hnd].
  erewrite exec_step; [|apply pcs_goto|eapply exec_pop_load; [apply pcs_goto|apply (load_head_eq _ a g Hp Hg), Eh]].
  erewrite exec_step; [|apply pcs_goto|eapply exec_pop_test, pcs_goto].
  cbn [head_ goto]. rewrite Eh, ptr_packed by first [done|lia]. rewrite (proj2 (Z.eqb_neq a 0) Ha).
  erewrite exec_step; [|apply pcs_goto|eapply (exec_pop_next _ _ _ _ (mkNode y q)); [apply pcs_goto|exact Hq|exact Huq]].
  erewrite exec_step; [|apply pcs_goto|eapply exec_pop_cas, pcs_goto].
  cbn [head_ goto]. rewrite Eh, Z.eqb_refl.
  erewrite exec_step; [|apply pcs_goto|eapply (exec_pop_read _ _ _ (mkNode y q)); [apply pcs_goto|exact Hq]].
  erewrite exec_step; [|apply pcs_goto|eapply (exec_pop_delete _ _ _ _ (mkNode y q)); [apply pcs_goto|exact Hq]].
  eexists. split; [reflexivity|]. split_and!.
  - exists q, (uint16 (tag (a + g * 2 ^ 48) + 1)), la. cbn. split_and!; auto.
    + apply Z.mod_pos_bound. lia.
    + apply Z.mod_pos_bound. lia.
    + apply (node_chain_frame (nodes s)); [|exact Hc]. intros b Hb. apply lookup_delete_ne. congruence.
  - reflexivity.
  - cbn. now rewrite decide_True.
Qed.

(** a thread that runs alone works on the stack as on a list: [push] adds in
    front, [pop] returns the newest element, and false exactly when there is
    none. *)
Theorem lfstack_lifo s l t : holds s l ->
  (forall x a, user_address a -> a <> 0 -> nodes s !! a = None ->
     exists s', alone a t 4 (goto t (PushNew x) s) = Done (tt, s') /\ holds s' (x :: l) /\ events s' = events s ++ [(t, Pushed x)] /\ pcs s' t = Idle) /\
  (l = [] -> exists s', alone 0 t 2 (goto t PopLoad s) = Done (tt, s') /\ holds s' [] /\ events s' = events s ++ [(t, PopFalse)] /\ pcs s' t = Idle) /\
  (forall x l', l = x :: l' ->
     exists s', alone 0 t 6 (goto t PopLoad s) = Done (tt, s') /\ holds s' l' /\ events s' = events s ++ [(t, Popped x)] /\ pcs s' t = Idle).
Proof.
  intros Hh. split_and!; [intros x a; now apply push_lifo|intros ->; now apply pop_empty|intros x l' ->; now apply pop_lifo].
Qed.

(** The destructor: [while (pop(dummy)) {}]; the answer of [pop] is its event. *)
Definition pop (t : nat) : ST state bool :=
  _ ← modify (goto t PopLoad); _ ← alone 0 t 6; s ← get;
  mret (match last (events s) with Some (_, Popped _) => true | _ => false end).
Fixpoint destroy (fuel t : nat) : ST state unit :=
  match fuel with
  | O => mret tt
  | S fuel' => more ← pop t; if (more : bool) then destroy fuel' t else mret tt
  end.

Lemma alone_idle f t n s : pcs s t = Idle -> alone f t n s = Done (tt, s).
Proof.
  intros E. induction n as [|n IH]; [reflexivity|]. cbn [alone]. assert (Ee : exec f t s = Done (tt, s)) by (unfold exec; now rewrite bind_get, E).
  now rewrite (bind_done _ _ _ _ _ Ee).
Qed.

Lemma alone_more f t n m s s' : alone f t n s = Done (tt, s') -> alone f t (n + m) s = alone f t m s'.
Proof.
  revert s. induction n as [|n IH]; intros s E; [now injection E as ->|]. cbn [alone Nat.add] in *.
  apply bind_inv in E as ([] & s1 & E1 & E). rewrite (bind_done _ _ _ _ _ E1). exact (IH s1 E).
Qed.

(** It ends after one call more than there are elements and leaves none. *)
Lemma destroy_empties s l t : holds s l -> exists s', destroy (S (length l)) t s = Done (tt, s') /\ holds s' [].
Proof.
  revert s. induction l as [|x l IH]; intros s Hh.
  - destruct (pop_empty s t Hh) as (s' & E & Hh' & Ev & Ei). exists s'. split; [|exact Hh']. cbn [destroy length].
    assert (Ep : pop t s = Done (false, s')).
    { unfold pop. rewrite bind_modify. pose proof (alone_more 0 t 2 4 _ _ E) as E6. rewrite (alone_idle 0 t 4 s' Ei) in E6.
      rewrite (bind_done _ _ _ _ _ E6), bind_get, Ev, last_snoc. reflexivity. }
    now rewrite (bind_done _ _ _ _ _ Ep).
  - destruct (pop_lifo s t x l Hh) as (s' & E & Hh' & Ev & _). destruct (IH s' Hh') as (s2 & E2 & H2). exists s2. split; [|exact H2].
    assert (Ep : pop t s = Done (true, s')) by (unfold pop; rewrite bind_modify, (bind_done _ _ _ _ _ E), bind_get, Ev, last_snoc; reflexivity).
    cbn [destroy]. rewrite (bind_done _ _ _ _ _ Ep). exact E2.
Qed.

(** *** A failed exchange is never repaired *)

(** Thread [t] is in a loop whose copy of the head is out of date. *)
Definition outdated s (t : nat) : Prop :=
  match pcs s t with
  | PushNext node old | PushCas node old _ => head_ s <> old /\ user_address node
  | PopTest old | PopNext old _ | PopCas old _ _ => head_ s <> old /\ ptr old <> 0
  | _ => False
  end.

Lemma pack_any a t (s : state) : pack a t s = Fail AssertFailed \/ exists p, pack a t s = Done (p, s).
Proof.
  unfold pack, cassert. destruct (_ && _); [left; reflexivity|right]. eexists. reflexivity.
Qed.

Lemma node_at_any a s : node_at a s = Fail UndefinedBehaviour \/ exists n, node_at a s = Done (n, s).
Proof. unfold node_at. rewrite bind_get. destruct (nodes s !! a); [right; eexists; reflexivity|now left]. Qed.

Lemma outdated_step f t s : outdated s t ->
  match exec f t s with
  | Done (_, s') => outdated s' t /\ head_ s' = head_ s /\ events s' = events s
  | Fail e => e = UndefinedBehaviour \/ e = AssertFailed
  end.
Proof.
  unfold outdated. destruct (pcs s t) as [| | |node old|node old new| |old|old node|old node new| |] eqn:E; try done; intros [Hh Hp].
  all: unfold exec; rewrite bind_get, E.
  - destruct (node_at_any node s) as [En|[n En]]; [rewrite (bind_fail _ _ _ _ En); now left|].
    rewrite (bind_done _ _ _ _ _ En), bind_modify. set (s1 := set_node _ _ s).
    destruct (pack_any node (tag old) s1) as [Ep|[p Ep]]; [rewrite (bind_fail _ _ _ _ Ep); now right|].
    rewrite (bind_done _ _ _ _ _ Ep). unfold outdated. cbn. rewrite decide_True by done. auto.
  - unfold cas_head. rewrite bind_assoc, bind_get, (proj2 (Z.eqb_neq _ _) Hh), bind_ret_l. unfold outdated. cbn. rewrite decide_True by done. auto.
  - rewrite (proj2 (Z.eqb_neq _ _) Hp). unfold outdated. cbn. rewrite decide_True by done. auto.
  - destruct (node_at_any node s) as [En|[n En]]; [rewrite (bind_fail _ _ _ _ En); now left|].
    rewrite (bind_done _ _ _ _ _ En).
    destruct (pack_any (next n) (uint16 (tag old + 1)) s) as [Ep|[p Ep]]; [rewrite (bind_fail _ _ _ _ Ep); now right|].
    rewrite (bind_done _ _ _ _ _ Ep). unfold outdated. cbn. rewrite decide_True by done. auto.
  - unfold cas_head. rewrite bind_assoc, bind_get, (proj2 (Z.eqb_neq _ _) Hh), bind_ret_l. unfold outdated. cbn. rewrite decide_True by done. auto.
Qed.

(** once the head differs from a thread's copy of it, neither [push] nor [pop]
    of that thread returns however long it runs, unless another thread puts the
    very same word back: the copy is never read again. *)
Theorem lfstack_never_returns s t f n : outdated s t ->
  match alone f t n s with
  | Done (_, s') => pcs s' t <> Idle /\ events s' = events s /\ head_ s' = head_ s
  | Fail e => e = UndefinedBehaviour \/ e = AssertFailed
  end.
Proof.
  revert s. induction n as [|n IH]; intros s Ho.
  - cbn. split; [|auto]. intros Ei. unfold outdated in Ho. now rewrite Ei in Ho.
  - cbn [alone]. pose proof (outdated_step f t s Ho) as Hs. destruct (exec f t s) as [[[] s1]|e] eqn:E.
    + rewrite (bind_done _ _ _ _ _ E). destruct Hs as (Ho1 & Eh & Ee). specialize (IH s1 Ho1).
      destruct (alone f t n s1) as [[? s2]|e]; [|exact IH]. destruct IH as (? & ? & ?). split_and!; congruence.
    + now rewrite (bind_fail _ _ _ _ E).
Qed.
End LFStack.

Arguments state T : clear implicits.

(** *** Runs *)

Module Demo.
(** A schedule: [(t, fresh)] lets thread [t] take its next step. *)
Fixpoint play (l : list (nat * Z)) : ST (state nat) unit :=
  match l with [] => mret tt | (t, f) :: l' => _ ← @exec nat debug_build f t; play l' end.
Definition start (t : nat) (p : pc) : ST (state nat) unit := modify (goto t p).
Definition steps (t n : nat) (f : Z) : list (nat * Z) := replicate n (t, f).

(** Two threads push at once; the exchange of the first one fails. *)
Definition race : ST (state nat) unit :=
  _ ← start 0 (PushNew 7%nat); _ ← start 1 (PushNew 8%nat);
  _ ← play (steps 0 3 4096); _ ← play (steps 1 4 8192); play (steps 0 1 0).

Example race_outdated :
  match race new with
  | Done (_, s) => pcs s 0%nat = PushNext 4096 0 /\ head_ s = 8192 /\ events s = [(1%nat, Pushed 8%nat)]
  | Fail _ => False
  end.
Proof. vm_compute. auto. Qed.

Definition raced : state nat := match race new with Done (_, s) => s | Fail _ => new end.

Lemma lfstack_never_returns_witness :
  match @alone nat debug_build 0 0 100 raced with
  | Done (_, s') => pcs s' 0%nat <> Idle /\ events s' = events raced /\ head_ s' = head_ raced
  | Fail e => e = UndefinedBehaviour \/ e = AssertFailed
  end.
Proof.
  apply (@lfstack_never_returns nat debug_build raced 0 0 100).
  vm_compute. split; [discriminate|split; [discriminate|reflexivity]].
Defined.

(** [pop] reads a node that another [pop] has deleted. *)
Definition two_pops : ST (state nat) unit :=
  _ ← start 0 (PushNew 7%nat); _ ← play (steps 0 4 4096);
  _ ← start 0 PopLoad; _ ← start 1 PopLoad;
  _ ← play (steps 0 2 0); _ ← play (steps 1 6 0); play (steps 0 1 0).

Example pop_reads_deleted_node : two_pops new = Fail UndefinedBehaviour.
Proof. vm_compute. reflexivity. Qed.
End Demo.
End LFStack.
