(* ===== verification/HazardPointer.v ===== *)
(** HazardPointer: [base/HazardPointer.h], deferred deletion of shared nodes.

    The table of thread records is a [domain]; [protect], [clear] and the
    registration of a thread are operations on it.  [scan] is not atomic: it reads
    the records one word at a time while other threads protect and clear, so
    [retire] and [reclaimAll] are runs of a transition system. *)

From Stdlib Require Import ZArith Lia.
From S2P Require Import Prelude.

Local Open Scope Z_scope.

Definition kMaxHazardPointers : nat := 2.
Definition kRetireThreshold : nat := 64.
Definition kMaxThreads : nat := 128.

(** Pointers are addresses, 0 the null pointer. *)
Record ThreadRecord := mkThreadRecord {
  hazardPointers : list Z;
  retireList : list Z;
  active : bool;
}.
Definition new_record : ThreadRecord := mkThreadRecord (replicate kMaxHazardPointers 0) [] false.

(** The static members and, per thread, the thread-local pointer of
    [getThreadRecord] as an index into [records_]. *)
Record domain := mkDomain {
  records_ : list ThreadRecord;
  nextSlot_ : Z;
  thr_ : nat -> option nat;
}.
Definition new : domain := mkDomain (replicate kMaxThreads new_record) 0 (fun _ => None).
Implicit Types (d : domain).

Definition set_hazard (idx : nat) (p : Z) (r : ThreadRecord) : ThreadRecord :=
  mkThreadRecord (<[idx := p]> (hazardPointers r)) (retireList r) (active r).
Definition set_retire (l : list Z) (r : ThreadRecord) : ThreadRecord := mkThreadRecord (hazardPointers r) l (active r).
Definition set_active (b : bool) (r : ThreadRecord) : ThreadRecord := mkThreadRecord (hazardPointers r) (retireList r) b.
Definition set_record (i : nat) (r : ThreadRecord) d : domain := mkDomain (<[i := r]> (records_ d)) (nextSlot_ d) (thr_ d).
Definition set_next (n : Z) d : domain := mkDomain (records_ d) n (thr_ d).
Definition set_thr (t i : nat) d : domain :=
  mkDomain (records_ d) (nextSlot_ d) (fun t' => if decide (t' = t) then Some i else thr_ d t').

(** [records_[i]]; [std::array] does not check the index. *)
Definition record_at (i : nat) : ST domain ThreadRecord := d ← get; deref (records_ d !! i).

Definition registerThread : ST domain nat :=
  d ← get;
  let slot := nextSlot_ d in
  _ ← modify (set_next (slot + 1));
  if Z.of_nat kMaxThreads <=? wrap64 slot then fail Aborted else
  r ← record_at (Z.to_nat slot);
  _ ← modify (set_record (Z.to_nat slot) (set_active true r));
  mret (Z.to_nat slot).

Definition getThreadRecord (t : nat) : ST domain nat :=
  d ← get;
  match thr_ d t with
  | Some i => mret i
  | None => i ← registerThread; _ ← modify (set_thr t i); mret i
  end.

Definition store_hazard (t idx : nat) (p : Z) : ST domain unit :=
  i ← getThreadRecord t;
  r ← record_at i;
  _ ← deref (hazardPointers r !! idx);
  modify (set_record i (set_hazard idx p r)).
Definition protect (t idx : nat) (p : Z) : ST domain unit := store_hazard t idx p.
Definition clear (t idx : nat) : ST domain unit := store_hazard t idx 0.

Fixpoint isHazardous (p : Z) (hazardous : list Z) : bool :=
  match hazardous with
  | [] => false
  | hp :: hazardous' => if hp =? p then true else isHazardous p hazardous'
  end.

(** The second loop of [scan]: what stays in the list and what is deleted. *)
Fixpoint sweep (hazardous l : list Z) : list Z * list Z :=
  match l with
  | [] => ([], [])
  | p :: l' =>
      let '(kept, gone) := sweep hazardous l' in
      if isHazardous p hazardous then (p :: kept, gone) else (kept, p :: gone)
  end.

(** ** The system *)

(** Where a thread is in [scan]; [force]: it was called by [reclaimAll]. *)
Inductive pc :=
  | Idle
  | ScanActive (slot : nat) (force : bool) (i : nat) (acc : list Z)
  | ScanHp (slot : nat) (force : bool) (i j : nat) (acc : list Z)
  | Sweep (slot : nat) (force : bool) (acc : list Z)
  | Force (slot : nat).

Record state := mkState {
  dom : domain;
  pcs : nat -> pc;
  deleted : list Z;
}.
Implicit Types (s : state).

Definition init : state := mkState new (fun _ => Idle) [].
Definition goto (t : nat) (p : pc) s : state := mkState (dom s) (fun t' => if decide (t' = t) then p else pcs s t') (deleted s).
Definition set_dom d s : state := mkState d (pcs s) (deleted s).
Definition add_deleted (l : list Z) s : state := mkState (dom s) (pcs s) (deleted s ++ l).

(** An operation on the table. *)
Definition on_dom {A} (op : ST domain A) : ST state A := fun s =>
  match op (dom s) with Done (a, d') => Done (a, set_dom d' s) | Fail f => Fail f end.

(** [retire] up to the call of [scan]. *)
Definition retire (t : nat) (p : Z) : ST state unit :=
  i ← on_dom (getThreadRecord t);
  r ← on_dom (record_at i);
  let l := retireList r ++ [p] in
  _ ← on_dom (modify (set_record i (set_retire l r)));
  when (bool_decide (kRetireThreshold <= length l)%nat) (modify (goto t (ScanActive i false 0 []))).

Definition reclaimAll (t : nat) : ST state unit :=
  i ← on_dom (getThreadRecord t); modify (goto t (ScanActive i true 0 [])).

(** The next step of thread [t]. *)
Definition exec (t : nat) : ST state unit :=
  s ← get;
  match pcs s t with
  | Idle => mret tt
  | ScanActive slot force i acc =>
      if bool_decide (kMaxThreads <= i)%nat then modify (goto t (Sweep slot force acc)) else
      r ← on_dom (record_at i);
      modify (goto t (if active r then ScanHp slot force i 0 acc else ScanActive slot force (S i) acc))
  | ScanHp slot force i j acc =>
      if bool_decide (kMaxHazardPointers <= j)%nat then modify (goto t (ScanActive slot force (S i) acc)) else
      r ← on_dom (record_at i);
      hp ← deref (hazardPointers r !! j);
      modify (goto t (ScanHp slot force i (S j) (if hp =? 0 then acc else acc ++ [hp])))
  | Sweep slot force acc =>
      r ← on_dom (record_at slot);
      let '(kept, gone) := sweep acc (retireList r) in
      _ ← on_dom (modify (set_record slot (set_retire kept r)));
      _ ← modify (add_deleted gone);
      modify (goto t (if force then Force slot else Idle))
  | Force slot =>
      r ← on_dom (record_at slot);
      _ ← modify (add_deleted (retireList r));
      _ ← on_dom (modify (set_record slot (set_retire [] r)));
      modify (goto t Idle)
  end.

Inductive label :=
  | LRun (t : nat)
  | LProtect (t idx : nat) (p : Z)
  | LClear (t idx : nat)
  | LRetire (t : nat) (p : Z)
  | LReclaimAll (t : nat).

Inductive step : label -> state -> state -> Prop :=
  | step_run t s s' : pcs s t <> Idle -> exec t s = Done (tt, s') -> step (LRun t) s s'
  | step_protect t idx p s s' : pcs s t = Idle -> on_dom (protect t idx p) s = Done (tt, s') -> step (LProtect t idx p) s s'
  | step_clear t idx s s' : pcs s t = Idle -> on_dom (clear t idx) s = Done (tt, s') -> step (LClear t idx) s s'
  | step_retire t p s s' : pcs s t = Idle -> retire t p s = Done (tt, s') -> step (LRetire t p) s s'
  | step_reclaimAll t s s' : pcs s t = Idle -> reclaimAll t s = Done (tt, s') -> step (LReclaimAll t) s s'.
Definition any_step s s' : Prop := exists l, step l s s'.
Definition reachable s : Prop := rtc any_step init s.

(** ** Scanning *)

(** The hazards of the records from [i] on. *)
Definition hazards_of (r : ThreadRecord) : list Z := if active r then filter (fun p => p <> 0) (hazardPointers r) else [].
Definition hazards (rs : list ThreadRecord) : list Z := rs ≫= hazards_of.

Lemma isHazardous_spec p l : isHazardous p l = bool_decide (p ∈ l).
Proof.
  induction l as [|hp l IH]; cbn; [symmetry; apply bool_decide_false, not_elem_of_nil|].
  destruct (Z.eqb_spec hp p) as [->|Hn]; [symmetry; apply bool_decide_true; now left|].
  rewrite IH. apply bool_decide_ext. rewrite elem_of_cons. split; [auto|]. intros [->|?]; [contradiction|done].
Qed.

Lemma sweep_spec hz l : sweep hz l = (filter (fun p => p ∈ hz) l, filter (fun p => p ∉ hz) l).
Proof.
  induction l as [|p l IH]; cbn [sweep]; [reflexivity|]. rewrite IH, isHazardous_spec.
  destruct (decide (p ∈ hz)) as [Hin|Hin].
  - rewrite bool_decide_true by done. now rewrite list.filter_cons_True, list.filter_cons_False by (auto; tauto).
  - rewrite bool_decide_false by done. now rewrite list.filter_cons_False, list.filter_cons_True by (auto; tauto).
Qed.

(** *** Well-formed tables *)

Record wf d : Prop := {
  wf_len : length (records_ d) = kMaxThreads;
  wf_hp : Forall (fun r => length (hazardPointers r) = kMaxHazardPointers) (records_ d);
  wf_next : 0 <= nextSlot_ d <= Z.of_nat kMaxThreads;
  wf_thr t i : thr_ d t = Some i -> Z.of_nat i < nextSlot_ d;
  wf_active i r : records_ d !! i = Some r -> active r = true -> Z.of_nat i < nextSlot_ d;
  wf_inj t1 t2 i : thr_ d t1 = Some i -> thr_ d t2 = Some i -> t1 = t2;
}.

Lemma wf_new : wf new.
Proof.
  constructor; try discriminate; [reflexivity|apply Forall_replicate; reflexivity|cbn; lia|].
  intros i r [-> _]%lookup_replicate. discriminate.
Qed.

Lemma wf_set_record i r d : wf d -> length (hazardPointers r) = kMaxHazardPointers ->
  (active r = true -> Z.of_nat i < nextSlot_ d) -> wf (set_record i r d).
Proof.
  intros W H Ha. constructor; try apply W; unfold set_record; cbn [records_].
  - rewrite length_insert. apply W.
  - apply Forall_insert; [apply W|exact H].
  - intros j r' [(<- & <- & _)|[_ Hj]]%list_lookup_insert_Some; [exact Ha|exact (wf_active d W j r' Hj)].
Qed.

Lemma record_some d i : wf d -> (i < kMaxThreads)%nat ->
  exists r, records_ d !! i = Some r /\ record_at i d = Done (r, d) /\ length (hazardPointers r) = kMaxHazardPointers.
Proof.
  intros W Hi. pose proof (wf_len d W) as Hl. destruct (records_ d !! i) as [r|] eqn:E; [|apply lookup_ge_None in E; lia].
  exists r. split; [done|]. split; [|exact (Forall_lookup_1 _ _ _ _ (wf_hp d W) E)]. unfold record_at. now rewrite bind_get, E.
Qed.

Lemma wf_register t d : wf d -> thr_ d t = None -> nextSlot_ d < Z.of_nat kMaxThreads ->
  wf (set_thr t (Z.to_nat (nextSlot_ d)) (set_next (nextSlot_ d + 1) d)).
Proof.
  intros W Et Hn. pose proof (wf_next d W) as H0. constructor; try apply W; cbn.
  - cbn in Hn. lia.
  - intros t' i. case_decide; [intros [= <-]; lia|]. intros Hx%(wf_thr d W). lia.
  - intros i r Hi Ha. pose proof (wf_active d W i r Hi Ha). lia.
  - intros t1 t2 i. repeat case_decide; subst; auto.
    + intros [= <-] H2%(wf_thr d W). lia.
    + intros H2%(wf_thr d W) [= <-]. lia.
    + apply (wf_inj d W).
Qed.

(** [d'] knows the hazards and lists of [d]; it may know more active records. *)
Definition extends d d' : Prop :=
  (forall t i, thr_ d t = Some i -> thr_ d' t = Some i) /\
  (forall j r, records_ d !! j = Some r -> exists r', records_ d' !! j = Some r' /\ hazardPointers r' = hazardPointers r /\
     retireList r' = retireList r /\ (active r = true -> active r' = true)).

Lemma extends_refl d : extends d d.
Proof. split; [auto|]. intros j r Hj. eauto. Qed.

(** The record of a thread: registered before, registered now, or none left. *)
Lemma getThreadRecord_wf t d : wf d ->
  getThreadRecord t d = Fail Aborted \/
  exists i d', getThreadRecord t d = Done (i, d') /\ wf d' /\ (i < kMaxThreads)%nat /\ thr_ d' t = Some i /\ extends d d' /\
    (thr_ d t = Some i \/ nextSlot_ d = Z.of_nat i).
Proof.
  intros W. pose proof (wf_next d W) as H0. unfold getThreadRecord. rewrite bind_get. destruct (thr_ d t) as [i|] eqn:E.
  - right. exists i, d. split_and!; auto; [pose proof (wf_thr d W t i E); lia|apply extends_refl].
  - unfold registerThread. rewrite bind_assoc, bind_get, bind_assoc, bind_modify. rewrite wrap64_small by (unfold kMaxThreads in H0; unfold size_mod; lia).
    destruct (Z.leb_spec (Z.of_nat kMaxThreads) (nextSlot_ d)) as [Hf|Hf]; [left; reflexivity|right].
    set (i := Z.to_nat (nextSlot_ d)). assert (Hi : (i < kMaxThreads)%nat) by (unfold i; lia).
    destruct (record_some d i W Hi) as (r & Er & _ & Hlen). set (d1 := set_next (nextSlot_ d + 1) d).
    assert (Ea : record_at i d1 = Done (r, d1)) by (unfold record_at; rewrite bind_get; cbn; now rewrite Er).
    rewrite bind_assoc. rewrite (bind_done _ _ _ _ _ Ea), bind_assoc, bind_modify.
    rewrite bind_ret_l, bind_modify. eexists i, _. split; [reflexivity|]. split_and!.
    + apply (wf_set_record i (set_active true r) (set_thr t i d1)); [exact (wf_register t d W E Hf)|exact Hlen|cbn; lia].
    + exact Hi.
    + cbn. now rewrite decide_True.
    + split; cbn.
      * intros t' j. case_decide; [congruence|auto].
      * intros j r' Hj. destruct (decide (j = i)) as [->|Hne].
        -- rewrite Hj in Er. injection Er as ->. rewrite list_lookup_insert_eq by (apply lookup_lt_Some in Hj; done). exists (set_active true r). auto.
        -- rewrite list_lookup_insert_ne by congruence. eauto.
    + right. lia.
Qed.

(** Publishing a hazard fails only for want of a record. *)
Lemma store_hazard_wf t idx p d : wf d -> (idx < kMaxHazardPointers)%nat ->
  (store_hazard t idx p d = Fail Aborted /\ thr_ d t = None /\ nextSlot_ d = Z.of_nat kMaxThreads) \/
  exists d', store_hazard t idx p d = Done (tt, d') /\ wf d'.
Proof.
  intros W Hidx. destruct (getThreadRecord_wf t d W) as [E|(i & d' & E & W' & Hi & _)].
  - left. split; [exact (bind_fail _ _ _ _ E)|]. unfold getThreadRecord in E. rewrite bind_get in E. destruct (thr_ d t); [discriminate|].
    split; [done|]. pose proof (wf_next d W) as H0. unfold registerThread in E. rewrite bind_assoc, bind_get, bind_assoc, bind_modify in E.
    destruct (Z.leb_spec (Z.of_nat kMaxThreads) (wrap64 (nextSlot_ d))) as [H|H].
    { rewrite wrap64_small in H by (unfold kMaxThreads in H0; unfold size_mod; lia). lia. }
    rewrite wrap64_small in H by (unfold kMaxThreads in H0; unfold size_mod; lia).
    destruct (record_some d (Z.to_nat (nextSlot_ d)) W ltac:(lia)) as (r & Er & _). unfold record_at in E. rewrite bind_assoc, bind_assoc, bind_get in E.
    cbn in E. rewrite Er in E. discriminate.
  - right. destruct (record_some d' i W' Hi) as (r & Er & Ea & Hlen). destruct (hazardPointers r !! idx) as [h|] eqn:Eh; [|apply lookup_ge_None in Eh; lia].
    exists (set_record i (set_hazard idx p r) d'). split.
    + unfold store_hazard. rewrite (bind_done _ _ _ _ _ E), (bind_done _ _ _ _ _ Ea), Eh. reflexivity.
    + apply wf_set_record; [exact W'|cbn; now rewrite length_insert|exact (wf_active d' W' i r Er)].
Qed.

Lemma retire_wf i r l d : wf d -> records_ d !! i = Some r -> wf (set_record i (set_retire l r) d).
Proof. intros W E. apply wf_set_record; [exact W|exact (Forall_lookup_1 _ _ _ _ (wf_hp d W) E)|exact (wf_active d W i r E)]. Qed.

(** ** A protected node is not deleted *)

Section Protected.
Context (i0 j0 : nat) (p : Z) (p_nonnull : p <> 0).

Definition protected d : Prop := exists r, records_ d !! i0 = Some r /\ active r = true /\ hazardPointers r !! j0 = Some p.

(** Nobody stores into the slot and no [reclaimAll] starts. *)
Definition keeps (l : label) s : Prop :=
  match l with
  | LProtect t idx _ | LClear t idx => ~ (thr_ (dom s) t = Some i0 /\ idx = j0)
  | LReclaimAll _ => False
  | LRun _ | LRetire _ _ => True
  end.
Definition kstep s s' : Prop := exists l, keeps l s /\ step l s s'.

Definition scanning (k : pc) : option nat :=
  match k with Idle => None | ScanActive slot _ _ _ | ScanHp slot _ _ _ _ | Sweep slot _ _ | Force slot => Some slot end.

(** A scan past the slot has found [p]. *)
Definition covers (k : pc) : Prop :=
  match k with
  | Idle => True
  | ScanActive _ force i acc => force = false /\ ((i0 < i)%nat -> p ∈ acc)
  | ScanHp _ force i j acc => force = false /\ ((i0 < i \/ i0 = i /\ j0 < j)%nat -> p ∈ acc)
  | Sweep _ force acc => force = false /\ p ∈ acc
  | Force _ => False
  end.

Definition own (d : domain) (k : pc) : list Z :=
  match scanning k with
  | Some slot => match records_ d !! slot with Some r => retireList r | None => [] end
  | None => []
  end.

Record PInv s : Prop := {
  pi_wf : wf (dom s);
  pi_own t slot : scanning (pcs s t) = Some slot -> thr_ (dom s) t = Some slot;
  pi_protected : protected (dom s);
  pi_covers t : p ∈ own (dom s) (pcs s t) -> covers (pcs s t);
}.

Lemma slot_lt s t slot : wf (dom s) -> thr_ (dom s) t = Some slot -> (slot < kMaxThreads)%nat.
Proof. intros W H. pose proof (wf_thr _ W t slot H). pose proof (wf_next _ W). lia. Qed.

Lemma protected_extends d d' : protected d -> extends d d' -> protected d'.
Proof. intros (r & Hr & Ha & Hp) [_ He]. destruct (He i0 r Hr) as (r' & Hr' & Eh & _ & Ha'). exists r'. rewrite Eh. auto. Qed.

Lemma own_extends d d' k : wf d -> extends d d' -> (forall slot, scanning k = Some slot -> (slot < kMaxThreads)%nat) -> own d' k = own d k.
Proof.
  intros W [_ He] Hk. unfold own. destruct (scanning k) as [slot|]; [|done]. specialize (Hk slot eq_refl).
  destruct (record_some d slot W Hk) as (r & Er & _). destruct (He slot r Er) as (r' & Er' & _ & El & _). now rewrite Er, Er', El.
Qed.

(** A change of the table that nobody scanning minds. *)
Lemma pinv_dom s d' : PInv s -> wf d' -> (forall t i, thr_ (dom s) t = Some i -> thr_ d' t = Some i) -> protected d' ->
  (forall t, own d' (pcs s t) = own (dom s) (pcs s t)) -> PInv (set_dom d' s).
Proof.
  intros I W Ht Hp Ho. constructor; cbn; auto.
  - intros t slot H. apply Ht. exact (pi_own s I t slot H).
  - intros t. rewrite Ho. apply I.
Qed.

Lemma pinv_goto s t k : PInv s -> (forall slot, scanning k = Some slot -> thr_ (dom s) t = Some slot) -> (p ∈ own (dom s) k -> covers k) -> PInv (goto t k s).
Proof.
  intros I Hs Hc. constructor; cbn; try apply I.
  - intros t' slot. case_decide; [subst; apply Hs|apply I].
  - intros t'. case_decide; [exact Hc|apply I].
Qed.

Lemma pinv_extends s d' : PInv s -> wf d' -> extends (dom s) d' -> PInv (set_dom d' s).
Proof.
  intros I W He. apply pinv_dom; auto; [apply He|exact (protected_extends _ _ (pi_protected s I) He)|].
  intros t. apply (own_extends _ _ _ (pi_wf s I) He). intros slot Hs. exact (slot_lt s t slot (pi_wf s I) (pi_own s I t slot Hs)).
Qed.

(** A thread changes its own list. *)
Lemma pinv_retire s s' t slot r l : PInv s -> records_ (dom s) !! slot = Some r -> thr_ (dom s) t = Some slot ->
  dom s' = set_record slot (set_retire l r) (dom s) -> (forall t', t' <> t -> pcs s' t' = pcs s t') ->
  (forall i, scanning (pcs s' t) = Some i -> i = slot /\ (p ∈ l -> covers (pcs s' t))) -> PInv s'.
Proof.
  intros I Hr Ht Ed Hpc Hk. constructor.
  - rewrite Ed. exact (retire_wf slot r l _ (pi_wf s I) Hr).
  - intros t' i. rewrite Ed. destruct (decide (t' = t)) as [->|Hne]; [intros Hi; now destruct (Hk i Hi) as [-> _]|].
    rewrite Hpc by done. apply I.
  - destruct (pi_protected s I) as (r0 & H0 & Ha & Hp). rewrite Ed. unfold protected, set_record; cbn [records_].
    destruct (decide (i0 = slot)) as [->|Hne].
    + rewrite Hr in H0. injection H0 as ->. exists (set_retire l r0). rewrite list_lookup_insert_eq by (apply lookup_lt_Some in Hr; done). auto.
    + exists r0. now rewrite list_lookup_insert_ne by congruence.
  - intros t'. rewrite Ed. unfold own, set_record; cbn [records_]. destruct (decide (t' = t)) as [->|Hne].
    + destruct (scanning (pcs s' t)) as [i|] eqn:Ei; [|intros H; now apply elem_of_nil in H]. destruct (Hk i eq_refl) as [-> Hc].
      rewrite list_lookup_insert_eq by (apply lookup_lt_Some in Hr; done). exact Hc.
    + rewrite Hpc by done. intros H. apply (pi_covers s I). unfold own. destruct (scanning (pcs s t')) as [i|] eqn:Ei; [|exact H].
      rewrite list_lookup_insert_ne in H; [exact H|]. intros <-. apply Hne. exact (wf_inj _ (pi_wf s I) _ _ _ (pi_own s I t' slot Ei) Ht).
Qed.

Lemma on_dom_record i r s : record_at i (dom s) = Done (r, dom s) -> on_dom (record_at i) s = Done (r, s).
Proof. intros E. unfold on_dom. rewrite E. now destruct s. Qed.

Lemma on_dom_record_inv i r s s' : on_dom (record_at i) s = Done (r, s') -> records_ (dom s) !! i = Some r /\ s' = s.
Proof.
  unfold on_dom, record_at. rewrite bind_get. destruct (records_ (dom s) !! i); [|discriminate]. cbn. intros [= <- <-]. now destruct s.
Qed.

Lemma deref_inv {S A} (o : option A) (a : A) (s s' : S) : deref o s = Done (a, s') -> o = Some a /\ s' = s.
Proof. destruct o; [|discriminate]. now intros [= <- <-]. Qed.

Definition quiet s s' : Prop := PInv s' /\ exists l, deleted s' = deleted s ++ l /\ p ∉ l.

Lemma quiet_same s s' : PInv s' -> deleted s' = deleted s -> quiet s s'.
Proof. intros I E. split; [exact I|]. exists []. rewrite app_nil_r. split; [exact E|apply not_elem_of_nil]. Qed.

Lemma own_eq s t slot r : scanning (pcs s t) = Some slot -> records_ (dom s) !! slot = Some r -> own (dom s) (pcs s t) = retireList r.
Proof. intros Es Er. unfold own. now rewrite Es, Er. Qed.

Lemma quiet_active s s' t slot force i acc : PInv s -> pcs s t = ScanActive slot force i acc -> exec t s = Done (tt, s') -> quiet s s'.
Proof.
  intros I Et. pose proof (pi_own s I t slot ltac:(now rewrite Et)) as Hthr. unfold exec. rewrite bind_get, Et.
  destruct (pi_protected s I) as (r0 & H0 & Ha0 & _). pose proof (lookup_lt_Some _ _ _ H0) as Hi0. rewrite (wf_len _ (pi_wf s I)) in Hi0.
  assert (Hc : p ∈ own (dom s) (pcs s t) -> covers (pcs s t)) by apply I. rewrite Et in Hc.
  case_bool_decide as Hi.
  - intros [= <-]. apply quiet_same; [|reflexivity]. apply pinv_goto; [exact I|cbn; intros ? [= <-]; exact Hthr|].
    intros Hin. destruct (Hc Hin) as [-> Ha]. split; [done|]. apply Ha. lia.
  - destruct (record_some _ i (pi_wf s I) ltac:(lia)) as (r & Er & Ea & _). rewrite (bind_done _ _ _ _ _ (on_dom_record _ _ _ Ea)).
    intros [= <-]. apply quiet_same; [|reflexivity]. destruct (active r) eqn:Eact.
    + apply pinv_goto; [exact I|cbn; intros ? [= <-]; exact Hthr|]. intros Hin. destruct (Hc Hin) as [-> Ha]. split; [done|]. intros Hlt. apply Ha. lia.
    + apply pinv_goto; [exact I|cbn; intros ? [= <-]; exact Hthr|]. intros Hin. destruct (Hc Hin) as [-> Ha]. split; [done|]. intros Hlt.
      destruct (decide (i0 = i)) as [->|Hne]; [congruence|]. apply Ha. lia.
Qed.

Lemma quiet_hp s s' t slot force i j acc : PInv s -> pcs s t = ScanHp slot force i j acc -> exec t s = Done (tt, s') -> quiet s s'.
Proof.
  intros I Et. pose proof (pi_own s I t slot ltac:(now rewrite Et)) as Hthr. unfold exec. rewrite bind_get, Et.
  destruct (pi_protected s I) as (r0 & H0 & Ha0 & Hp0). pose proof (lookup_lt_Some _ _ _ Hp0) as Hj0.
  rewrite (Forall_lookup_1 _ _ _ _ (wf_hp _ (pi_wf s I)) H0) in Hj0.
  assert (Hc : p ∈ own (dom s) (pcs s t) -> covers (pcs s t)) by apply I. rewrite Et in Hc.
  case_bool_decide as Hj.
  - intros [= <-]. apply quiet_same; [|reflexivity]. apply pinv_goto; [exact I|cbn; intros ? [= <-]; exact Hthr|].
    intros Hin. destruct (Hc Hin) as [-> Ha]. split; [done|]. intros Hlt. apply Ha. lia.
  - intros (r1 & s1 & [Er ->]%on_dom_record_inv & E)%bind_inv. apply bind_inv in E as (hp1 & s1 & [Eh ->]%deref_inv & E). injection E as <-.
    apply quiet_same; [|reflexivity]. apply pinv_goto; [exact I|cbn; intros ? [= <-]; exact Hthr|]. intros Hin. destruct (Hc Hin) as [-> Ha]. split; [done|].
    intros Hlt. destruct (decide (i0 = i /\ j0 = j)) as [[<- <-]|Hne].
    + rewrite H0 in Er. injection Er as <-. rewrite Hp0 in Eh. injection Eh as <-. rewrite (proj2 (Z.eqb_neq p 0) p_nonnull). rewrite elem_of_app. right. now left.
    + assert (p ∈ acc) by (apply Ha; lia). destruct (hp1 =? 0); [done|]. rewrite elem_of_app. now left.
Qed.

Lemma quiet_sweep s s' t slot force acc : PInv s -> pcs s t = Sweep slot force acc -> exec t s = Done (tt, s') -> quiet s s'.
Proof.
  intros I Et. assert (Es : scanning (pcs s t) = Some slot) by now rewrite Et. pose proof (pi_own s I t slot Es) as Hthr.
  destruct (record_some _ slot (pi_wf s I) (slot_lt s t slot (pi_wf s I) Hthr)) as (r & Er & Ea & _).
  assert (Hc : p ∈ retireList r -> covers (pcs s t)) by (rewrite <-(own_eq s t slot r Es Er); apply I). rewrite Et in Hc.
  unfold exec. rewrite bind_get, Et. rewrite (bind_done _ _ _ _ _ (on_dom_record _ _ _ Ea)), sweep_spec. intros [= <-]. split.
  - apply (pinv_retire s _ t slot r (filter (fun x => x ∈ acc) (retireList r)) I Er Hthr); [reflexivity|..].
    + intros t' Hne. cbn. now rewrite decide_False.
    + cbn. rewrite decide_True by done. destruct force; [|discriminate]. intros i [= <-]. split; [done|].
      intros [_ Hin]%list_elem_of_filter. now destruct (Hc Hin).
  - exists (filter (fun x => x ∉ acc) (retireList r)). split; [reflexivity|]. intros [Hn Hin]%list_elem_of_filter. now destruct (Hc Hin).
Qed.

Lemma quiet_force s s' t slot : PInv s -> pcs s t = Force slot -> exec t s = Done (tt, s') -> quiet s s'.
Proof.
  intros I Et. assert (Es : scanning (pcs s t) = Some slot) by now rewrite Et. pose proof (pi_own s I t slot Es) as Hthr.
  destruct (record_some _ slot (pi_wf s I) (slot_lt s t slot (pi_wf s I) Hthr)) as (r & Er & Ea & _).
  assert (Hc : p ∈ retireList r -> covers (pcs s t)) by (rewrite <-(own_eq s t slot r Es Er); apply I). rewrite Et in Hc.
  unfold exec. rewrite bind_get, Et. rewrite (bind_done _ _ _ _ _ (on_dom_record _ _ _ Ea)). intros [= <-]. split.
  - apply (pinv_retire s _ t slot r [] I Er Hthr); [reflexivity|..].
    + intros t' Hne. cbn. now rewrite decide_False.
    + cbn. rewrite decide_True by done. discriminate.
  - exists (retireList r). split; [reflexivity|]. exact Hc.
Qed.

Lemma on_dom_inv {A} (op : ST domain A) s a s' : on_dom op s = Done (a, s') -> exists d', op (dom s) = Done (a, d') /\ s' = set_dom d' s.
Proof. unfold on_dom. destruct (op (dom s)) as [[a' d']|]; [|discriminate]. intros [= <- <-]. eauto. Qed.

Lemma quiet_store s s' t idx q : PInv s -> ~ (thr_ (dom s) t = Some i0 /\ idx = j0) -> on_dom (store_hazard t idx q) s = Done (tt, s') -> quiet s s'.
Proof.
  intros I Hk (d' & E & ->)%on_dom_inv. apply quiet_same; [|reflexivity]. apply bind_inv in E as (i & d1 & E1 & E).
  destruct (getThreadRecord_wf t (dom s) (pi_wf s I)) as [Ef|(i1 & d2 & E2 & W2 & Hi & Ht & He & Hnew)]; [congruence|].
  rewrite E1 in E2. injection E2 as <- <-. pose proof (pinv_extends s d1 I W2 He) as I1.
  destruct (record_some d1 i W2 Hi) as (r & Er & Ea & Hlen). rewrite (bind_done _ _ _ _ _ Ea) in E.
  apply bind_inv in E as (h & d2 & [Eh ->]%deref_inv & E). injection E as <-.
  apply (pinv_dom (set_dom d1 s) (set_record i (set_hazard idx q r) d1) I1); cbn [dom set_dom pcs].
  - apply wf_set_record; [exact W2|cbn; now rewrite length_insert|exact (wf_active d1 W2 i r Er)].
  - auto.
  - destruct (pi_protected _ I1) as (r0 & H0 & Ha & Hp). cbn in H0. unfold protected, set_record; cbn [records_].
    destruct (decide (i0 = i)) as [<-|Hne].
    + rewrite Er in H0. injection H0 as <-. exists (set_hazard idx q r). rewrite list_lookup_insert_eq by (apply lookup_lt_Some in Er; done).
      split_and!; auto. cbn. rewrite list_lookup_insert_ne; [exact Hp|]. intros ->. destruct Hnew as [Hold|Hnew]; [auto|].
      destruct (pi_protected s I) as (r1 & H1 & Ha1 & _). pose proof (wf_active _ (pi_wf s I) i0 r1 H1 Ha1). lia.
    + exists r0. now rewrite list_lookup_insert_ne by congruence.
  - intros t'. unfold own, set_record; cbn [records_]. destruct (scanning (pcs s t')) as [slot|]; [|done].
    destruct (decide (slot = i)) as [->|Hne]; [|now rewrite list_lookup_insert_ne by congruence].
    rewrite Er, list_lookup_insert_eq by (apply lookup_lt_Some in Er; done). reflexivity.
Qed.

Lemma quiet_retire s s' t q : PInv s -> pcs s t = Idle -> retire t q s = Done (tt, s') -> quiet s s'.
Proof.
  intros I Et E. unfold retire in E. apply bind_inv in E as (i & s1 & (d1 & E1 & ->)%on_dom_inv & E).
  destruct (getThreadRecord_wf t (dom s) (pi_wf s I)) as [Ef|(i1 & d2 & E2 & W2 & Hi & Ht & He & _)]; [congruence|].
  rewrite E1 in E2. injection E2 as <- <-. pose proof (pinv_extends s d1 I W2 He) as I1.
  apply bind_inv in E as (r & s1 & [Er ->]%on_dom_record_inv & E). cbn [dom set_dom] in Er.
  apply bind_inv in E as ([] & s2 & E2 & E). injection E2 as <-. apply quiet_same.
  - apply (pinv_retire (set_dom d1 s) s' t i r (retireList r ++ [q]) I1 Er Ht).
    + unfold when in E. destruct (bool_decide _); injection E as <-; reflexivity.
    + intros t' Hne. unfold when in E. destruct (bool_decide _); injection E as <-; cbn; [now rewrite decide_False|reflexivity].
    + unfold when in E. destruct (bool_decide _); injection E as <-; cbn; [rewrite decide_True by done|rewrite Et; discriminate].
      cbn. intros j [= <-]. split; [done|]. intros _. split; [done|lia].
  - unfold when in E. destruct (bool_decide _); injection E as <-; reflexivity.
Qed.

Lemma quiet_step s s' : PInv s -> kstep s s' -> quiet s s'.
Proof.
  intros I (l & Hk & Hst). destruct Hst as [t s s' Hi E|t idx q s s' Hi E|t idx s s' Hi E|t q s s' Hi E|t s s' Hi E]; cbn in Hk; try done.
  - destruct (pcs s t) as [|slot force i acc|slot force i j acc|slot force acc|slot] eqn:Et; [done|..].
    + exact (quiet_active s s' t _ _ _ _ I Et E).
    + exact (quiet_hp s s' t _ _ _ _ _ I Et E).
    + exact (quiet_sweep s s' t _ _ _ I Et E).
    + exact (quiet_force s s' t _ I Et E).
  - exact (quiet_store s s' t idx q I Hk E).
  - exact (quiet_store s s' t idx 0 I Hk E).
  - exact (quiet_retire s s' t q I Hi E).
Qed.

Lemma quiet_steps s s' : rtc kstep s s' -> PInv s -> quiet s s'.
Proof.
  induction 1 as [s|s s1 s2 H1 _ IH]; intros I; [now apply quiet_same|].
  destruct (quiet_step s s1 I H1) as (I1 & l1 & E1 & N1). destruct (IH I1) as (I2 & l2 & E2 & N2). split; [exact I2|].
  exists (l1 ++ l2). rewrite E2, E1, app_assoc. split; [done|]. rewrite elem_of_app. tauto.
Qed.
End Protected.

(** *** Reachable states *)

Definition BInv s : Prop := wf (dom s) /\ forall t slot, scanning (pcs s t) = Some slot -> thr_ (dom s) t = Some slot.

Lemma binv_goto s t k : BInv s -> (forall slot, scanning k = Some slot -> thr_ (dom s) t = Some slot) -> BInv (goto t k s).
Proof. intros [W Ho] Hk. split; [exact W|]. cbn. intros t' slot. case_decide; [subst; apply Hk|apply Ho]. Qed.

Lemma binv_dom s d' : BInv s -> wf d' -> (forall t i, thr_ (dom s) t = Some i -> thr_ d' t = Some i) -> BInv (set_dom d' s).
Proof. intros [W Ho] W' Ht. split; [exact W'|]. cbn. auto. Qed.

Lemma binv_thread s t s1 i : BInv s -> on_dom (getThreadRecord t) s = Done (i, s1) -> BInv s1 /\ thr_ (dom s1) t = Some i /\ pcs s1 = pcs s.
Proof.
  intros I (d' & E & ->)%on_dom_inv. destruct (getThreadRecord_wf t (dom s) (proj1 I)) as [Ef|(i1 & d2 & E2 & W & _ & Ht & He & _)]; [congruence|].
  rewrite E in E2. injection E2 as <- <-. split; [apply binv_dom; [exact I|exact W|apply He]|]. now split.
Qed.

Lemma binv_exec s s' t : BInv s -> exec t s = Done (tt, s') -> BInv s'.
Proof.
  intros I. pose proof (proj2 I t) as Ho. unfold exec. rewrite bind_get.
  destruct (pcs s t) as [|slot force i acc|slot force i j acc|slot force acc|slot]; cbn in Ho.
  - now intros [= <-].
  - case_bool_decide; [intros [= <-]; now apply binv_goto|]. intros (r & s1 & [_ ->]%on_dom_record_inv & E)%bind_inv. injection E as <-.
    apply binv_goto; [exact I|]. now destruct (active r).
  - case_bool_decide; [intros [= <-]; now apply binv_goto|]. intros (r & s1 & [_ ->]%on_dom_record_inv & E)%bind_inv.
    apply bind_inv in E as (hp & s1 & [_ ->]%deref_inv & E). injection E as <-. now apply binv_goto.
  - intros (r & s1 & [Er ->]%on_dom_record_inv & E)%bind_inv. destruct (sweep acc (retireList r)) as [kept gone]. injection E as <-.
    apply (binv_goto (set_dom (set_record slot (set_retire kept r) (dom s)) s)).
    + apply binv_dom; [exact I|exact (retire_wf _ _ _ _ (proj1 I) Er)|auto].
    + destruct force; [exact Ho|discriminate].
  - intros (r & s1 & [Er ->]%on_dom_record_inv & E)%bind_inv. injection E as <-.
    apply (binv_goto (set_dom (set_record slot (set_retire [] r) (dom s)) s)); [|discriminate].
    apply binv_dom; [exact I|exact (retire_wf _ _ _ _ (proj1 I) Er)|auto].
Qed.

Lemma binv_store s s' t idx q : BInv s -> on_dom (store_hazard t idx q) s = Done (tt, s') -> BInv s'.
Proof.
  intros I (d' & E & ->)%on_dom_inv. apply bind_inv in E as (i & d1 & E1 & E).
  destruct (binv_thread s t (set_dom d1 s) i I) as (I1 & Ht & _); [unfold on_dom; now rewrite E1|].
  apply bind_inv in E as (r & d2 & E2 & E). unfold record_at in E2. rewrite bind_get in E2. apply deref_inv in E2 as [Er ->].
  apply bind_inv in E as (h & d2 & [_ ->]%deref_inv & E). injection E as <-. apply (binv_dom (set_dom d1 s) _ I1); [|auto].
  apply wf_set_record; [apply I1|cbn; rewrite length_insert; exact (Forall_lookup_1 _ _ _ _ (wf_hp d1 (proj1 I1)) Er)|].
  exact (wf_active d1 (proj1 I1) i r Er).
Qed.

Lemma binv_step s s' : BInv s -> any_step s s' -> BInv s'.
Proof.
  intros I [l Hst]. destruct Hst as [t s s' Hi E|t idx q s s' Hi E|t idx s s' Hi E|t q s s' Hi E|t s s' Hi E].
  - exact (binv_exec s s' t I E).
  - exact (binv_store s s' t idx q I E).
  - exact (binv_store s s' t idx 0 I E).
  - apply bind_inv in E as (i & s1 & E1 & E). destruct (binv_thread s t s1 i I E1) as (I1 & Ht & _).
    apply bind_inv in E as (r & s2 & [Er ->]%on_dom_record_inv & E). apply bind_inv in E as ([] & s2 & E2 & E). injection E2 as <-.
    assert (I2 : BInv (set_dom (set_record i (set_retire (retireList r ++ [q]) r) (dom s1)) s1)) by (apply binv_dom; [exact I1|exact (retire_wf _ _ _ _ (proj1 I1) Er)|auto]).
    unfold when in E. destruct (bool_decide _); injection E as <-; [|exact I2]. apply binv_goto; [exact I2|]. now intros slot [= <-].
  - apply bind_inv in E as (i & s1 & E1 & E). destruct (binv_thread s t s1 i I E1) as (I1 & Ht & _). injection E as <-.
    apply binv_goto; [exact I1|]. now intros slot [= <-].
Qed.

Lemma binv_reachable s : reachable s -> BInv s.
Proof.
  revert s. apply (rtc_ind_r BInv); [split; [exact wf_new|discriminate]|]. intros s s' _ Hst IH. exact (binv_step s s' IH Hst).
Qed.

(** [q] is in the retire list of a thread that is scanning right now. *)
Definition being_scanned (q : Z) s : Prop := exists t, q ∈ own (dom s) (pcs s t).

(** C39: a node that a registered thread protects, and that no scan under way may
    still delete, is not deleted by any thread, whatever the threads retire,
    protect and scan in whatever order, as long as that slot keeps the node and
    nobody calls [reclaimAll]. *)
Theorem hazard_protects s s' i j q : reachable s -> q <> 0 -> protected i j q (dom s) -> ~ being_scanned q s ->
  rtc (kstep i j) s s' -> exists l, deleted s' = deleted s ++ l /\ q ∉ l.
Proof.
  intros Hr Hq Hp Hn Hs. destruct (binv_reachable s Hr) as [W Ho]. apply (quiet_steps i j q Hq s s' Hs).
  constructor; auto. intros t Hin. destruct Hn. now exists t.
Qed.

(** *** A scan by itself *)

Lemma hazards_app rs1 rs2 : hazards (rs1 ++ rs2) = hazards rs1 ++ hazards rs2.
Proof. apply bind_app. Qed.

(** The steps of [t] while nobody else moves. *)
Fixpoint alone (t n : nat) : ST state unit :=
  match n with O => mret tt | S n' => _ ← exec t; alone t n' end.

(** [s'] differs from [s] in the place of thread [t] only. *)
Definition moved (t : nat) (k : pc) s s' : Prop :=
  dom s' = dom s /\ deleted s' = deleted s /\ pcs s' t = k /\ forall t', t' <> t -> pcs s' t' = pcs s t'.

Lemma moved_goto t k s : moved t k s (goto t k s).
Proof. split_and!; try reflexivity; cbn; [now rewrite decide_True|]. intros t' Hne. now rewrite decide_False. Qed.

Lemma moved_trans t k1 k2 s s1 s2 : moved t k1 s s1 -> moved t k2 s1 s2 -> moved t k2 s s2.
Proof.
  intros (D1 & E1 & _ & O1) (D2 & E2 & P2 & O2). split_and!; [congruence|congruence|exact P2|]. intros t' Hne. rewrite O2, O1 by done. reflexivity.
Qed.

Lemma alone_S t n s s1 : exec t s = Done (tt, s1) -> alone t (S n) s = alone t n s1.
Proof. intros E. cbn [alone]. now rewrite (bind_done _ _ _ _ _ E). Qed.

Lemma alone_add t n m s s1 : alone t n s = Done (tt, s1) -> alone t (n + m) s = alone t m s1.
Proof.
  revert s. induction n as [|n IH]; intros s E; [now injection E as ->|]. cbn [alone Nat.add] in *.
  apply bind_inv in E as ([] & s2 & E1 & E). rewrite (bind_done _ _ _ _ _ E1). exact (IH s2 E).
Qed.

Lemma exec_active t slot force i acc r s : wf (dom s) -> pcs s t = ScanActive slot force i acc -> records_ (dom s) !! i = Some r ->
  exec t s = Done (tt, goto t (if active r then ScanHp slot force i 0 acc else ScanActive slot force (S i) acc) s).
Proof.
  intros W Et Er. pose proof (lookup_lt_Some _ _ _ Er) as Hi. rewrite (wf_len _ W) in Hi. unfold exec. rewrite bind_get, Et.
  rewrite bool_decide_false by lia. assert (E : on_dom (record_at i) s = Done (r, s)).
  { apply on_dom_record. unfold record_at. rewrite bind_get, Er. reflexivity. }
  now rewrite (bind_done _ _ _ _ _ E).
Qed.

Lemma exec_hp t slot force i j acc r h s : pcs s t = ScanHp slot force i j acc -> records_ (dom s) !! i = Some r -> hazardPointers r !! j = Some h ->
  (j < kMaxHazardPointers)%nat -> exec t s = Done (tt, goto t (ScanHp slot force i (S j) (if h =? 0 then acc else acc ++ [h])) s).
Proof.
  intros Et Er Eh Hj. unfold exec. rewrite bind_get, Et. rewrite bool_decide_false by lia. assert (E : on_dom (record_at i) s = Done (r, s)).
  { apply on_dom_record. unfold record_at. rewrite bind_get, Er. reflexivity. }
  rewrite (bind_done _ _ _ _ _ E), Eh. reflexivity.
Qed.

Lemma filter_two (acc : list Z) h0 h1 : acc ++ filter (fun p => p <> 0) [h0; h1] =
  if h1 =? 0 then (if h0 =? 0 then acc else acc ++ [h0]) else (if h0 =? 0 then acc else acc ++ [h0]) ++ [h1].
Proof.
  rewrite !list.filter_cons. change (filter (fun p => p <> 0) (@nil Z)) with (@nil Z).
  destruct (Z.eqb_spec h0 0), (Z.eqb_spec h1 0); repeat case_decide; try contradiction; rewrite ?app_nil_r, <-?app_assoc; reflexivity.
Qed.

(** One record takes at most four steps. *)
Lemma scan_record t slot force i acc r s : wf (dom s) -> pcs s t = ScanActive slot force i acc -> records_ (dom s) !! i = Some r ->
  exists n s', (n <= 4)%nat /\ alone t n s = Done (tt, s') /\ moved t (ScanActive slot force (S i) (acc ++ hazards_of r)) s s'.
Proof.
  intros W Et Er. pose proof (exec_active t slot force i acc r s W Et Er) as E1. unfold hazards_of. destruct (active r).
  - pose proof (Forall_lookup_1 _ _ _ _ (wf_hp _ W) Er) as Hlen. cbn in Hlen. destruct (hazardPointers r) as [|h0 [|h1 [|]]] eqn:Eh; try (cbn in Hlen; discriminate).
    pose proof (moved_goto t (ScanHp slot force i 0 acc) s) as M1. set (s1 := goto t _ s) in *.
    assert (Er1 : records_ (dom s1) !! i = Some r) by exact Er.
    assert (P1 : pcs s1 t = ScanHp slot force i 0 acc) by apply M1.
    pose proof (exec_hp t slot force i 0 acc r h0 s1 P1 Er1 ltac:(now rewrite Eh) ltac:(cbv; lia)) as E2.
    set (acc1 := if h0 =? 0 then acc else acc ++ [h0]) in *.
    pose proof (moved_goto t (ScanHp slot force i 1 acc1) s1) as M2. set (s2 := goto t (ScanHp slot force i 1 acc1) s1) in *.
    assert (P2 : pcs s2 t = ScanHp slot force i 1 acc1) by apply M2.
    pose proof (exec_hp t slot force i 1 acc1 r h1 s2 P2 Er ltac:(now rewrite Eh) ltac:(cbv; lia)) as E3.
    set (acc2 := if h1 =? 0 then acc1 else acc1 ++ [h1]) in *.
    pose proof (moved_goto t (ScanHp slot force i 2 acc2) s2) as M3. set (s3 := goto t (ScanHp slot force i 2 acc2) s2) in *.
    assert (P3 : pcs s3 t = ScanHp slot force i 2 acc2) by apply M3.
    exists 4%nat, (goto t (ScanActive slot force (S i) acc2) s3). split; [lia|]. split.
    + rewrite (alone_S t 3 s _ E1), (alone_S t 2 s1 _ E2), (alone_S t 1 s2 _ E3). cbn [alone]. unfold exec. rewrite bind_assoc, bind_get, P3.
      rewrite bool_decide_true by (cbv; lia). reflexivity.
    + assert (Ea : acc ++ filter (fun p => p <> 0) [h0; h1] = acc2).
      { apply filter_two. }
      rewrite Ea. exact (moved_trans _ _ _ _ _ _ M1 (moved_trans _ _ _ _ _ _ M2 (moved_trans _ _ _ _ _ _ M3 (moved_goto _ _ _)))).
  - exists 1%nat, (goto t (ScanActive slot force (S i) acc) s). split; [lia|]. split; [now rewrite (alone_S t 0 s _ E1)|].
    rewrite app_nil_r. apply moved_goto.
Qed.

Lemma scan_all t slot force k i acc s : wf (dom s) -> pcs s t = ScanActive slot force i acc -> (i + k = kMaxThreads)%nat ->
  exists n s', (n <= 4 * k + 1)%nat /\ alone t n s = Done (tt, s') /\ moved t (Sweep slot force (acc ++ hazards (drop i (records_ (dom s))))) s s'.
Proof.
  revert i acc s. induction k as [|k IH]; intros i acc s W Et Hk.
  - exists 1%nat, (goto t (Sweep slot force acc) s). split; [lia|]. split.
    + rewrite (alone_S t 0 s (goto t (Sweep slot force acc) s)); [reflexivity|]. unfold exec. rewrite bind_get, Et. now rewrite bool_decide_true by lia.
    + rewrite drop_ge by (rewrite (wf_len _ W); lia). cbn. rewrite app_nil_r. apply moved_goto.
  - destruct (record_some _ i W ltac:(lia)) as (r & Er & _). destruct (scan_record t slot force i acc r s W Et Er) as (n1 & s1 & H1 & E1 & M1).
    pose proof M1 as (D1 & _ & P1 & _). destruct (IH (S i) _ s1 ltac:(now rewrite D1) P1 ltac:(lia)) as (n2 & s2 & H2 & E2 & M2).
    exists (n1 + n2)%nat, s2. split; [lia|]. split; [now rewrite (alone_add _ _ _ _ _ E1)|].
    rewrite (drop_S _ _ _ Er). cbn [hazards mbind list_bind]. rewrite app_assoc. rewrite D1 in M2. exact (moved_trans _ _ _ _ _ _ M1 M2).
Qed.

Lemma hazards_bound rs : Forall (fun r => length (hazardPointers r) = kMaxHazardPointers) rs -> (length (hazards rs) <= 2 * length rs)%nat.
Proof.
  induction 1 as [|r rs Hr _ IH]; [cbn; lia|]. cbn [hazards mbind list_bind length]. rewrite length_app.
  enough (length (hazards_of r) <= 2)%nat by (unfold hazards in IH; lia). unfold hazards_of. destruct (active r); [|cbn; lia].
  pose proof (length_filter (fun p => p <> 0) (hazardPointers r)) as Hl. unfold kMaxHazardPointers in Hr. lia.
Qed.

(** The list and the deletions after a retire. *)
Definition retired (k : nat) (q : Z) s s' : Prop := exists r r',
  records_ (dom s) !! k = Some r /\ records_ (dom s') !! k = Some r' /\
  let l := retireList r ++ [q] in let hz := hazards (records_ (dom s)) in
  if decide (kRetireThreshold <= length l)%nat
  then retireList r' = filter (fun x => x ∈ hz) l /\ deleted s' = deleted s ++ filter (fun x => x ∉ hz) l
  else retireList r' = l /\ deleted s' = deleted s.

(** a [retire] that runs without interruption comes to its end; below the
    threshold it only records the node, and at the threshold it keeps exactly the
    nodes some active record protects, in order, and deletes all the others, so
    that at most two nodes per record are left. *)
Theorem retire_deletes_the_unprotected s t k q : reachable s -> pcs s t = Idle -> thr_ (dom s) t = Some k ->
  exists n s', (_ ← retire t q; alone t n) s = Done (tt, s') /\ pcs s' t = Idle /\ retired k q s s' /\
    (forall r r', records_ (dom s) !! k = Some r -> records_ (dom s') !! k = Some r' -> NoDup (retireList r ++ [q]) ->
       (length (retireList r') <= 256)%nat).
Proof.
  intros Hr Et Hk. destruct (binv_reachable s Hr) as [W _]. destruct (record_some _ k W (slot_lt s t k W Hk)) as (r & Er & Ea & Hlen).
  set (l := retireList r ++ [q]). set (s1 := set_dom (set_record k (set_retire l r) (dom s)) s).
  assert (Eg : on_dom (getThreadRecord t) s = Done (k, s)) by (unfold on_dom, getThreadRecord; rewrite bind_get, Hk; cbn; now destruct s).
  assert (Eret : retire t q s = when (bool_decide (kRetireThreshold <= length l)%nat) (modify (goto t (ScanActive k false 0 []))) s1).
  { unfold retire. rewrite (bind_done _ _ _ _ _ Eg), (bind_done _ _ _ _ _ (on_dom_record _ _ _ Ea)). reflexivity. }
  assert (Er1 : records_ (dom s1) !! k = Some (set_retire l r)) by (cbn; apply list_lookup_insert_eq; apply lookup_lt_Some in Er; done).
  assert (W1 : wf (dom s1)) by exact (retire_wf k r l _ W Er).
  assert (Hz : hazards (records_ (dom s1)) = hazards (records_ (dom s))).
  { unfold hazards. cbn. rewrite <-(list_insert_id (records_ (dom s)) k r Er) at 2. unfold mbind. 
    clear -Er. revert k Er. induction (records_ (dom s)) as [|r0 rs IH]; intros [|k] Er; try discriminate; cbn; [reflexivity|]. f_equal. exact (IH k Er). }
  pose proof (hazards_bound _ (wf_hp _ W)) as Hb. rewrite (wf_len _ W) in Hb.
  destruct (decide (kRetireThreshold <= length l)%nat) as [Hle|Hgt].
  - rewrite bool_decide_true in Eret by done. cbn [when] in Eret. set (s2 := goto t (ScanActive k false 0 []) s1) in *.
    destruct (scan_all t k false kMaxThreads 0 [] s2 W1 ltac:(cbn; now rewrite decide_True) ltac:(lia)) as (n & s3 & _ & E3 & D3 & F3 & P3 & _).
    rewrite drop_0 in P3. cbn [app] in P3. assert (Er3 : records_ (dom s3) !! k = Some (set_retire l r)) by now rewrite D3.
    change (records_ (dom s2)) with (records_ (dom s1)) in P3. rewrite Hz in P3. set (hz := hazards (records_ (dom s))) in *.
    set (s4 := set_dom (set_record k (set_retire (filter (fun x => x ∈ hz) l) (set_retire l r)) (dom s3)) s3).
    set (s5 := goto t Idle (add_deleted (filter (fun x => x ∉ hz) l) s4)).
    assert (E4 : exec t s3 = Done (tt, s5)).
    { unfold exec. rewrite bind_get, P3. assert (Ea3 : record_at k (dom s3) = Done (set_retire l r, dom s3)) by (unfold record_at; now rewrite bind_get, Er3).
      rewrite (bind_done _ _ _ _ _ (on_dom_record _ _ _ Ea3)), sweep_spec. reflexivity. }
    exists (n + 1)%nat, s5. assert (Er5 : records_ (dom s5) !! k = Some (set_retire (filter (fun x => x ∈ hz) l) (set_retire l r))).
    { cbn. apply list_lookup_insert_eq. apply lookup_lt_Some in Er3. exact Er3. }
    split; [|split; [cbn; now rewrite decide_True|split]].
    + rewrite (bind_done _ _ _ _ _ Eret), (alone_add _ _ _ _ _ E3), (alone_S t 0 s3 s5 E4). reflexivity.
    + exists r, (set_retire (filter (fun x => x ∈ hz) l) (set_retire l r)). split; [done|]. split; [exact Er5|]. cbv zeta. fold l. rewrite decide_True by done.
      split; [reflexivity|]. cbn. fold hz. now rewrite F3.
    + intros r0 r' H0 H' Hnd. rewrite Er in H0. injection H0 as <-. rewrite Er5 in H'. injection H' as <-. cbn [set_retire retireList].
      transitivity (length hz); [|unfold kMaxThreads in Hb; lia]. apply submseteq_length, NoDup_submseteq; [now apply NoDup_filter|].
      intros x [Hx _]%list_elem_of_filter. exact Hx.
  - rewrite bool_decide_false in Eret by done. exists 0%nat, s1. split; [|split; [exact Et|split]].
    + now rewrite (bind_done _ _ _ _ _ Eret).
    + exists r, (set_retire l r). split; [done|]. split; [exact Er1|]. cbv zeta. fold l. rewrite decide_False by done. auto.
    + intros r0 r' H0 H' _. rewrite Er1 in H'. injection H' as <-. cbn. unfold kRetireThreshold in Hgt. lia.
Qed.

(** *** Runs *)

Module Demo.
Definition run {A} (m : ST state A) (s : state) : state := match m s with Done (_, s') => s' | Fail _ => s end.
(** Thread 0 protects node 4096; then thread 1 retires it. *)
Definition s1 : state := run (on_dom (protect 0 0 4096)) init.
Definition s2 : state := run (retire 1 4096) s1.

Lemma s1_reachable : reachable s1.
Proof. apply rtc_once. exists (LProtect 0 0 4096). apply step_protect; reflexivity. Qed.

Lemma hazard_protects_witness : 4096 <> 0 /\ exists l, deleted s2 = deleted s1 ++ l /\ 4096 ∉ l.
Proof.
  split; [discriminate|]. apply (hazard_protects s1 s2 0 0 4096 s1_reachable).
  - discriminate.
  - exists (mkThreadRecord [4096; 0] [] true). split_and!; reflexivity.
  - intros [t H]. now apply elem_of_nil in H.
  - apply rtc_once. exists (LRetire 1 4096). split; [exact Logic.I|]. apply step_retire; reflexivity.
Defined.

Lemma retire_deletes_the_unprotected_witness : exists n s', (_ ← retire 0 8192; alone 0 n) s1 = Done (tt, s') /\ pcs s' 0%nat = Idle.
Proof.
  destruct (retire_deletes_the_unprotected s1 0 0 8192 s1_reachable eq_refl eq_refl) as (n & s' & H1 & H2 & _). exists n, s'. auto.
Defined.

(** Thread 1 retires the nodes 4096, 4104, ...: the 64th starts the scan, which
    keeps the protected one. *)
Fixpoint retire_many (k : nat) (q : Z) : ST state unit :=
  match k with O => mret tt | S k' => _ ← retire 1 q; retire_many k' (q + 8) end.

Example scan_keeps_one :
  match (_ ← retire_many 64 4096; alone 1 600) s1 with
  | Done (_, s) => length (deleted s) = 63%nat /\ option_map retireList (records_ (dom s) !! 1%nat) = Some [4096]
  | Fail _ => False
  end.
Proof. vm_compute. auto. Qed.

(** Records are never given back: the 129th thread that ever protects a node
    aborts the process. *)
Fixpoint protect_all (k t : nat) : ST domain unit :=
  match k with O => mret tt | S k' => _ ← protect t 0 4096; _ ← clear t 0; protect_all k' (S t) end.
Example threads_exhausted : protect_all 129 0 new = Fail Aborted.
Proof. vm_compute. reflexivity. Qed.

(** [reclaimAll] deletes even what is protected. *)
Example reclaimAll_ignores_protection :
  match (_ ← retire 1 4096; _ ← reclaimAll 1; alone 1 600) s1 with Done (_, s) => deleted s = [4096] | Fail _ => False end.
Proof. vm_compute. reflexivity. Qed.
End Demo.
