(* ===== verification/LFMemoryPool.v ===== *)
(** LFMemoryPool: [base/LFMemoryPool.h], free lists of blocks of 64, 128, .. 4096
    bytes shared by all threads, with a cache per thread in front.

    A transition system: a step of a thread is one access to a shared list head, to
    the hazard pointers or to [malloc], together with the local work up to the next
    one.  The thread-local caches are kept with the threads. *)

From Stdlib Require Import ZArith Lia.
From S2P Require Import Prelude Regions TaggedPointer HazardPointer.

Local Open Scope Z_scope.

Definition kMinClass : Z := 6.
Definition kMaxClass : Z := 12.
Definition kNumClasses : Z := kMaxClass - kMinClass + 1.
Definition kCacheCapacity : nat := 16.
Definition max_size : Z := Z.shiftl 1 kMaxClass.

(** [while (aligned < size)]; no result when the fuel does not suffice. *)
Fixpoint class_loop (fuel : nat) (size aligned cls : Z) : option Z :=
  if aligned <? size then
    match fuel with O => None | S fuel' => class_loop fuel' size (wrap64 (Z.shiftl aligned 1)) (cls + 1) end
  else Some cls.

(** [sizeClass] after its assertion. *)
Definition sizeClass (size : Z) : option nat :=
  cls ← class_loop 64 size 1 0;
  let cls := if cls <? kMinClass then kMinClass else cls in
  let cls := if kMaxClass <? cls then kMaxClass else cls in
  Some (Z.to_nat (cls - kMinClass)).

Definition blockSize (cls : nat) : Z := Z.shiftl 1 (Z.of_nat cls + kMinClass).

(** [back] and [pop_back] of a vector. *)
Definition pop_back (l : list Z) : option (list Z * Z) :=
  match last l with Some x => Some (removelast l, x) | None => None end.

Section LFMemoryPool.
Context `{Build}.

(** A copy of a head, with the number of blocks popped when it was taken (a
    history value). *)
Record snap := mkSnap { packed : Z; at_ : Z }.

(** What waits for the result of [FreeList::pop]. *)
Inductive kont := KRefill (size : Z) (i : nat) | KCleanup.

Inductive pc :=
  | Idle
  | Alloc (size : Z)
  | Take (size : Z) (cls : nat)
  | Dealloc (p size : Z)
  | Drain (cls n : nat)
  | PushLoad (cls : nat) (node : Z) (n : nat)
  | PushNext (cls : nat) (node : Z) (n : nat) (old : Z)
  | PushCas (cls : nat) (node : Z) (n : nat) (old new : Z)
  | PopLoad (k : kont) (cls : nat)
  | PopTest (k : kont) (cls : nat) (old : snap)
  | PopVerify (k : kont) (cls : nat) (old : snap)
  | PopNext (k : kont) (cls : nat) (old : snap)
  | PopCas (k : kont) (cls : nat) (old : snap) (new : Z)
  | PopRetry (k : kont) (cls : nat) (old : snap)
  | PopClear (k : kont) (cls : nat) (node : Z)
  | Popped (k : kont) (cls : nat) (node : Z)
  | Clean (cls : nat).

(** A thread and its [ThreadCache]. *)
Record thread := mkThread { place : pc; caches : list (list Z) }.

Record state := mkState {
  heads : list Z;          (* headPacked of freeLists_ *)
  memory : mem;            (* the pointers stored in blocks *)
  chunks : list region;    (* obtained from malloc, not yet freed *)
  threads : list thread;
  hp : domain;             (* HazardPointerDomain<FreeNode> *)
  live : list region;      (* history: pointers handed out, with their size *)
  pops : list Z;           (* history: blocks popped per list *)
}.
Implicit Types (s : state).

Definition set_thread (t : nat) (th : thread) s : state :=
  mkState (heads s) (memory s) (chunks s) (<[t := th]> (threads s)) (hp s) (live s) (pops s).
Definition set_head (c : nat) (h : Z) s : state :=
  mkState (<[c := h]> (heads s)) (memory s) (chunks s) (threads s) (hp s) (live s) (pops s).
Definition set_memory (m : mem) s : state := mkState (heads s) m (chunks s) (threads s) (hp s) (live s) (pops s).
Definition set_chunks (l : list region) s : state := mkState (heads s) (memory s) l (threads s) (hp s) (live s) (pops s).
Definition set_hp (d : domain) s : state := mkState (heads s) (memory s) (chunks s) (threads s) d (live s) (pops s).
Definition set_live (l : list region) s : state := mkState (heads s) (memory s) (chunks s) (threads s) (hp s) l (pops s).
Definition count_pop (c : nat) s : state :=
  mkState (heads s) (memory s) (chunks s) (threads s) (hp s) (live s) (alter (fun n => n + 1) c (pops s)).

Definition new (n : nat) : state :=
  mkState (replicate (Z.to_nat kNumClasses) 0) ∅ []
    (replicate n (mkThread Idle (replicate (Z.to_nat kNumClasses) []))) HazardPointer.new [] (replicate (Z.to_nat kNumClasses) 0).

Definition thread_at (t : nat) : ST state thread := s ← get; deref (threads s !! t).
Definition head_at (c : nat) : ST state Z := s ← get; deref (heads s !! c).
Definition snapshot (c : nat) : ST state snap := s ← get; h ← deref (heads s !! c); n ← deref (pops s !! c); mret (mkSnap h n).
Definition goto (t : nat) (p : pc) : ST state unit :=
  th ← thread_at t; modify (set_thread t (mkThread p (caches th))).
(** [caches[cls]] of the thread, replaced. *)
Definition cache_at (t c : nat) : ST state (list Z) := th ← thread_at t; deref (caches th !! c).
Definition set_cache (t c : nat) (l : list Z) : ST state unit :=
  th ← thread_at t; modify (set_thread t (mkThread (place th) (<[c := l]> (caches th)))).

Definition on_hp (op : ST domain unit) : ST state unit := fun s =>
  match op (hp s) with Done (_, d) => Done (tt, set_hp d s) | Fail f => Fail f end.

(** [a] may be read as a pointer. *)
Definition readable (a : Z) s : bool := existsb (fun c => (fst c <=? a) && (a + 8 <=? fst c + snd c)) (chunks s).
(** The pointer at [a]; what a block not linked holds is unknown. *)
Definition read_next (garbage a : Z) : ST state Z :=
  s ← get; if readable a s then mret (default garbage (memory s !! a)) else fail UndefinedBehaviour.
Definition write_next (a v : Z) : ST state unit :=
  s ← get; if readable a s then modify (set_memory (<[a := v]> (memory s))) else fail UndefinedBehaviour.

(** [allocate] returns [p]; [malloc] may return null. *)
Definition hand_out (t : nat) (p size : Z) : ST state unit :=
  _ ← when (negb (p =? 0)) (modify (fun s => set_live ((p, size) :: live s) s)); goto t Idle.
Definition malloc (fresh size : Z) : ST state unit :=
  when (negb (fresh =? 0)) (modify (fun s => set_chunks ((fresh, size) :: chunks s) s)).
Definition free_ (r : region) : ST state unit := modify (fun s => set_chunks (filter (fun x => x <> r) (chunks s)) s).

(** [compare_exchange_weak] on a head: may fail spuriously. *)
Definition cas_head (spurious : bool) (c : nat) (expected desired : Z) : ST state bool :=
  h ← head_at c;
  if (h =? expected) && negb spurious then _ ← modify (set_head c desired); mret true else mret false.

(** [ptr | (uint64_t)tag << 48]. *)
Definition repack (p tag : Z) : Z := Z.lor p (wrap64 (Z.shiftl tag 48)).

(** [FreeList::push], for [deallocate]. *)
Definition push_step (spurious : bool) (t : nat) (p : pc) : ST state unit :=
  match p with
  | PushLoad cls node n => old ← head_at cls; goto t (PushNext cls node n old)
  | PushNext cls node n old => _ ← write_next node (ptr old); goto t (PushCas cls node n old (repack node (tag old)))
  | PushCas cls node n old new =>
      ok ← cas_head spurious cls old new;
      if (ok : bool) then goto t (Drain cls n) else old' ← head_at cls; goto t (PushNext cls node n old')
  | _ => mret tt
  end.

(** [FreeList::pop], for [allocate] and [cleanup]. *)
Definition pop_step (garbage : Z) (spurious : bool) (t : nat) (p : pc) : ST state unit :=
  match p with
  | PopLoad k cls => old ← snapshot cls; goto t (PopTest k cls old)
  | PopTest k cls old =>
      if ptr (packed old) =? 0 then goto t (Popped k cls 0) else
      _ ← on_hp (protect t 0 (ptr (packed old))); goto t (PopVerify k cls old)
  | PopVerify k cls old =>
      verify ← snapshot cls;
      if ptr (packed old) =? ptr (packed verify) then goto t (PopNext k cls old) else goto t (PopRetry k cls verify)
  | PopNext k cls old =>
      next ← read_next garbage (ptr (packed old));
      goto t (PopCas k cls old (repack next (tag (packed old) + 1)))
  | PopCas k cls old new =>
      ok ← cas_head spurious cls (packed old) new;
      if (ok : bool) then _ ← modify (count_pop cls); goto t (PopClear k cls (ptr (packed old)))
      else old' ← snapshot cls; goto t (PopRetry k cls old')
  | PopRetry k cls old => _ ← on_hp (clear t 0); goto t (PopTest k cls old)
  | PopClear k cls node => _ ← on_hp (clear t 0); goto t (Popped k cls node)
  | _ => mret tt
  end.

(** [fresh]: the answer of [malloc]. *)
Definition allocate_step (fresh : Z) (t : nat) (p : pc) : ST state unit :=
  match p with
  | Alloc size =>
      if max_size <? size then _ ← malloc fresh size; hand_out t fresh size else
      _ ← cassert (0 <? size);
      match sizeClass size with
      | None => mret tt
      | Some cls =>
          l ← cache_at t cls;
          match pop_back l with
          | Some (l', node) => _ ← set_cache t cls l'; hand_out t node size
          | None => goto t (PopLoad (KRefill size kCacheCapacity) cls)
          end
      end
  | Popped (KRefill size i) cls node =>
      if node =? 0 then goto t (Take size cls) else
      l ← cache_at t cls;
      _ ← set_cache t cls (l ++ [node]);
      match i with
      | S (S i') => goto t (PopLoad (KRefill size (S i')) cls)
      | _ => goto t (Take size cls)
      end
  | Take size cls =>
      l ← cache_at t cls;
      match pop_back l with
      | Some (l', node) => _ ← set_cache t cls l'; hand_out t node size
      | None => _ ← malloc fresh (blockSize cls); hand_out t fresh size
      end
  | _ => mret tt
  end.

Definition deallocate_step (t : nat) (p : pc) : ST state unit :=
  match p with
  | Dealloc p size =>
      if max_size <? size then _ ← free_ (p, size); goto t Idle else
      _ ← cassert (0 <? size);
      match sizeClass size with
      | None => mret tt
      | Some cls =>
          l ← cache_at t cls;
          let l' := l ++ [p] in
          _ ← set_cache t cls l';
          if bool_decide (kCacheCapacity * 2 <= length l')%nat then goto t (Drain cls (length l' / 2)) else goto t Idle
      end
  | Drain cls 0 => goto t Idle
  | Drain cls (S n) =>
      l ← cache_at t cls;
      r ← deref (pop_back l);
      _ ← set_cache t cls (fst r); goto t (PushLoad cls (snd r) n)
  | _ => mret tt
  end.

Definition cleanup_step (t : nat) (p : pc) : ST state unit :=
  match p with
  | Clean cls => if bool_decide (cls < Z.to_nat kNumClasses)%nat then goto t (PopLoad KCleanup cls) else goto t Idle
  | Popped KCleanup cls node =>
      if node =? 0 then goto t (Clean (S cls)) else
      _ ← free_ (node, blockSize cls); goto t (PopLoad KCleanup cls)
  | _ => mret tt
  end.

(** The next step of thread [t]. *)
Definition exec (fresh garbage : Z) (spurious : bool) (t : nat) : ST state unit :=
  th ← thread_at t;
  let p := place th in
  match p with
  | Idle => mret tt
  | Alloc _ | Take _ _ | Popped (KRefill _ _) _ _ => allocate_step fresh t p
  | Dealloc _ _ | Drain _ _ => deallocate_step t p
  | Clean _ | Popped KCleanup _ _ => cleanup_step t p
  | PushLoad _ _ _ | PushNext _ _ _ _ | PushCas _ _ _ _ _ => push_step spurious t p
  | PopLoad _ _ | PopTest _ _ _ | PopVerify _ _ _ | PopNext _ _ _ | PopCas _ _ _ _ | PopRetry _ _ _ | PopClear _ _ _ => pop_step garbage spurious t p
  end.
End LFMemoryPool.

(** [FreeList::empty]. *)
Definition list_empty (c : nat) (s : state) : option bool := h ← heads s !! c; Some (ptr h =? 0).

(** ** Size classes *)

Lemma wrap64_shift k : 0 <= k < 63 -> wrap64 (Z.shiftl (2 ^ k) 1) = 2 ^ (k + 1).
Proof.
  intros Hk. rewrite Z.shiftl_mul_pow2, <-Z.pow_add_r by lia. apply wrap64_small. split; [apply Z.pow_nonneg; lia|].
  change size_mod with (2 ^ 64). apply Z.pow_lt_mono_r; lia.
Qed.

Lemma class_loop_ends fuel size k : 0 <= k -> k + Z.of_nat fuel <= 63 -> size <= 2 ^ (k + Z.of_nat fuel) ->
  exists c, class_loop fuel size (2 ^ k) k = Some c /\ k <= c /\ size <= 2 ^ c /\ (c = k \/ 2 ^ (c - 1) < size).
Proof.
  revert k. induction fuel as [|fuel IH]; intros k Hk Hf Hs; cbn [class_loop].
  - rewrite Z.add_0_r in Hs. rewrite (proj2 (Z.ltb_ge _ _)) by lia. exists k. split_and!; auto; lia.
  - destruct (Z.ltb_spec (2 ^ k) size) as [Hlt|Hge]; [|exists k; split_and!; auto; lia].
    rewrite wrap64_shift by lia. destruct (IH (k + 1) ltac:(lia) ltac:(lia)) as (c & E & Hc & Hle & Hmin).
    { replace (k + 1 + Z.of_nat fuel) with (k + Z.of_nat (S fuel)) by lia. exact Hs. }
    exists c. split_and!; auto; [lia|]. right. destruct Hmin as [->|]; [|done]. now replace (k + 1 - 1) with k by lia.
Qed.

Lemma class_loop_more fuel fuel' size a k c : class_loop fuel size a k = Some c -> class_loop (fuel + fuel') size a k = Some c.
Proof.
  revert a k. induction fuel as [|fuel IH]; intros a k; cbn [class_loop Nat.add].
  - destruct (a <? size) eqn:E; [discriminate|]. intros H. destruct fuel'; cbn [class_loop]; now rewrite E.
  - destruct (a <? size); [apply IH|done].
Qed.

(** for every size up to 2^63 the loop of [sizeClass] ends; sizes up to 4096
    get the smallest block that holds them. *)
Theorem sizeClass_correct size : size <= 2 ^ 63 ->
  exists c, sizeClass size = Some c /\ (c < 7)%nat /\ blockSize c = 2 ^ (Z.of_nat c + 6) /\
    (size <= max_size -> size <= blockSize c /\ (c = 0%nat \/ blockSize (c - 1) < size)).
Proof.
  intros Hs. destruct (class_loop_ends 63 size 0 ltac:(lia) ltac:(lia) Hs) as (c & E & Hc & Hle & Hmin).
  apply (class_loop_more 63 1) in E. unfold sizeClass. change (2 ^ 0) with 1 in E. cbn [Nat.add] in E. rewrite E. cbn [mbind option_bind].
  unfold kMinClass, kMaxClass.
  assert (Hb : forall n, blockSize n = 2 ^ (Z.of_nat n + 6)) by (intros n; unfold blockSize, kMinClass; rewrite Z.shiftl_1_l; reflexivity).
  eexists. split; [reflexivity|]. rewrite !Hb. change max_size with (2 ^ 12).
  destruct (Z.ltb_spec c 6) as [H6|H6].
  - change (12 <? 6) with false. change (Z.to_nat (6 - 6)) with 0%nat. split; [lia|]. split; [reflexivity|]. intros _.
    split; [|now left]. change (Z.of_nat 0 + 6) with 6. apply (Z.le_trans _ (2 ^ c)); [exact Hle|]. apply Z.pow_le_mono_r; lia.
  - destruct (Z.ltb_spec 12 c) as [H12|H12].
    + change (Z.to_nat (12 - 6)) with 6%nat. split; [lia|]. split; [reflexivity|]. intros H. exfalso. destruct Hmin as [->|Hmin]; [lia|].
      pose proof (Z.pow_le_mono_r 2 12 (c - 1) ltac:(lia) ltac:(lia)). lia.
    + split; [lia|]. split; [reflexivity|]. intros _. rewrite Z2Nat.id by lia. replace (c - 6 + 6) with c by lia. split; [exact Hle|].
      destruct (Z.eq_dec c 6) as [->|Hne]; [now left|right]. rewrite Nat2Z.inj_sub, Z2Nat.id by lia. replace (c - 6 - Z.of_nat 1 + 6) with (c - 1) by lia.
      destruct Hmin as [->|Hmin]; [lia|exact Hmin].
Qed.

(** Above 2^63 the shift overflows to 0 and the loop never ends. *)
Lemma class_loop_zero fuel size k : 0 < size -> class_loop fuel size 0 k = None.
Proof.
  intros Hs. revert k. induction fuel as [|fuel IH]; intros k; cbn [class_loop]; rewrite (proj2 (Z.ltb_lt 0 size)) by lia; [reflexivity|].
  change (wrap64 (Z.shiftl 0 1)) with 0. apply IH.
Qed.

Lemma class_loop_diverges fuel size k : 0 <= k <= 63 -> 2 ^ 63 < size -> class_loop fuel size (2 ^ k) k = None.
Proof.
  revert k. induction fuel as [|fuel IH]; intros k Hk Hs; cbn [class_loop].
  all: pose proof (Z.pow_le_mono_r 2 k 63 ltac:(lia) ltac:(lia)); rewrite (proj2 (Z.ltb_lt _ _)) by lia.
  - reflexivity.
  - destruct (Z.eq_dec k 63) as [->|Hne].
    + change (wrap64 (Z.shiftl (2 ^ 63) 1)) with 0. apply class_loop_zero. lia.
    + rewrite wrap64_shift by lia. apply IH; lia.
Qed.

(** ** Use of the pool by a program *)

Definition class_of (size : Z) : nat := default 0%nat (sizeClass size).
Definition sizes : list Z := map blockSize (seq 0 7).
Definition block (r : region) : region := (fst r, if snd r <=? max_size then blockSize (class_of (snd r)) else snd r).

Definition cleaning (p : pc) : bool :=
  match p with
  | PopLoad KCleanup _ | PopTest KCleanup _ _ | PopVerify KCleanup _ _ | PopNext KCleanup _ _ | PopCas KCleanup _ _ _
  | PopRetry KCleanup _ _ | PopClear KCleanup _ _ | Popped KCleanup _ _ | Clean _ => true
  | _ => false
  end.

(** What [malloc] is asked for in the next step, and an answer it may give. *)
Definition asked (p : pc) : option Z :=
  match p with Alloc size => if max_size <? size then Some size else None | Take _ cls => Some (blockSize cls) | _ => None end.
Definition fresh_ok (fresh : Z) (p : pc) (s : state) : Prop :=
  fresh = 0 \/ 0 < fresh /\ forall n, asked p = Some n -> fresh + n <= 2 ^ 47 /\ Forall (apart (fresh, n)) (chunks s).

(** The compare-exchange of [pop] in thread [t] does not come after exactly 65536
    pops of the list since the thread looked at its head, or a multiple of that: the
    version has 16 bits, and would be the same again. *)
Definition no_wrap (t : nat) (s : state) : Prop := forall th k c old new n,
  threads s !! t = Some th -> place th = PopCas k c old new -> pops s !! c = Some n ->
  (n - at_ old) mod 65536 = 0 -> n = at_ old.

(** Threads allocate, free what they hold and write into it; [cleanup] is called
    when nobody else uses the pool. *)
Inductive step `{Build} : state -> state -> Prop :=
  | step_run t th fresh garbage spurious s s' : threads s !! t = Some th -> fresh_ok fresh (place th) s -> no_wrap t s ->
      exec fresh garbage spurious t s = Done (tt, s') -> step s s'
  | step_allocate t th size s : threads s !! t = Some th -> place th = Idle -> 0 < size ->
      Forall (fun th' => cleaning (place th') = false) (threads s) -> step s (set_thread t (mkThread (Alloc size) (caches th)) s)
  | step_deallocate t th p size live' s : threads s !! t = Some th -> place th = Idle -> live s ≡ₚ (p, size) :: live' ->
      Forall (fun th' => cleaning (place th') = false) (threads s) ->
      step s (set_thread t (mkThread (Dealloc p size) (caches th)) (set_live live' s))
  | step_cleanup t th s : threads s !! t = Some th -> Forall (fun th' => place th' = Idle) (threads s) ->
      step s (set_thread t (mkThread (Clean 0) (caches th)) s)
  | step_write r m' s : clobber r (memory s) m' -> (exists u, u ∈ live s /\ inside r u) \/ Forall (apart r) (chunks s) ->
      step s (set_memory m' s).

Definition reachable `{Build} (k : nat) (s : state) : Prop := rtc step (new k) s.

(** ** The invariant *)

(** Blocks that are neither on a list nor handed out: cached, or in the hands of
    a thread. *)
Definition hand (p : pc) : list region :=
  match p with
  | Dealloc a n => [block (a, n)]
  | PushLoad c a _ | PushNext c a _ _ | PushCas c a _ _ _ | PopClear _ c a => [blk (blockSize c) a]
  | Popped _ c a => if a =? 0 then [] else [blk (blockSize c) a]
  | _ => []
  end.
Definition held (th : thread) : list region := free sizes (caches th) ++ hand (place th).
Definition used (s : state) : list region := map block (live s) ++ (threads s ≫= held).

Section Invariant.
Context (s : state) (ls : list (list Z)).

Definition all : list region := free sizes ls ++ used s.

Definition snap_ok (c : nat) (old : snap) : Prop :=
  packed old = ptr (packed old) + tag (packed old) * 2 ^ 48 /\ tag (packed old) = at_ old mod 65536 /\
  (ptr (packed old) <> 0 -> blk (blockSize c) (ptr (packed old)) ∈ all) /\
  forall n, pops s !! c = Some n -> at_ old <= n /\
    (at_ old = n -> exists pre rest, ls !! c = Some (pre ++ rest) /\ hd 0 rest = ptr (packed old)).

Definition kont_ok (k : kont) (c : nat) : Prop :=
  match k with KRefill size _ => 0 < size <= max_size /\ class_of size = c | KCleanup => True end.

Definition place_ok (th : thread) : Prop :=
  match place th with
  | Idle | Clean _ => True
  | Alloc size | Dealloc _ size => 0 < size
  | Take size c => 0 < size <= max_size /\ class_of size = c /\ (c < 7)%nat
  | Drain c n | PushLoad c _ n | PushNext c _ n _ => (c < 7)%nat /\ exists l, caches th !! c = Some l /\ (n <= length l)%nat
  | PushCas c a n old new => ((c < 7)%nat /\ exists l, caches th !! c = Some l /\ (n <= length l)%nat) /\
      memory s !! a = Some (ptr old) /\ new = repack a (tag old)
  | PopLoad k c => kont_ok k c /\ (c < 7)%nat
  | PopTest k c old | PopRetry k c old => kont_ok k c /\ (c < 7)%nat /\ snap_ok c old
  | PopVerify k c old | PopNext k c old => kont_ok k c /\ (c < 7)%nat /\ snap_ok c old /\ ptr (packed old) <> 0
  | PopCas k c old new => kont_ok k c /\ (c < 7)%nat /\ snap_ok c old /\ ptr (packed old) <> 0 /\
      forall n, pops s !! c = Some n -> at_ old = n ->
        exists pre rest, ls !! c = Some (pre ++ ptr (packed old) :: rest) /\ new = repack (hd 0 rest) (tag (packed old) + 1)
  | PopClear k c a => kont_ok k c /\ (c < 7)%nat /\ a <> 0
  | Popped k c a => kont_ok k c /\ (c < 7)%nat
  end.

Record Inv : Prop := {
  i_minv : MInv sizes (memory s) (map ptr (heads s)) (chunks s) (used s) ls;
  i_heads c h : heads s !! c = Some h -> exists n, pops s !! c = Some n /\ h = ptr h + (n mod 65536) * 2 ^ 48;
  i_low : Forall (fun r => fst r + snd r <= 2 ^ 47) (chunks s);
  i_live : Forall (fun r => 0 < snd r) (live s);
  i_hp : wf (hp s);
  i_threads : Forall (fun th => length (caches th) = 7%nat /\ place_ok th) (threads s);
  i_clean t t' th th' : threads s !! t = Some th -> cleaning (place th) = true -> t' <> t -> threads s !! t' = Some th' -> place th' = Idle;
}.
End Invariant.

(** *** Blocks *)

Lemma blockSize_ge c : 64 <= blockSize c.
Proof. unfold blockSize, kMinClass. rewrite Z.shiftl_1_l. change 64 with (2 ^ 6). apply Z.pow_le_mono_r; lia. Qed.

Lemma lf_sizes_word : Forall (fun n => 8 <= n) sizes.
Proof. apply Forall_map, Forall_forall. intros c _. pose proof (blockSize_ge c). lia. Qed.

Lemma sizes_class c : (c < 7)%nat -> sizes !! c = Some (blockSize c).
Proof. intros Hc. unfold sizes. now rewrite list_lookup_fmap, lookup_seq_lt by done. Qed.

Lemma block_class a size : 0 < size <= max_size -> (class_of size < 7)%nat /\ block (a, size) = blk (blockSize (class_of size)) a.
Proof.
  intros Hs. unfold block, class_of, blk. cbn [fst snd]. rewrite (proj2 (Z.leb_le _ _)) by lia.
  destruct (sizeClass_correct size ltac:(change max_size with 4096 in Hs; lia)) as (c & -> & Hc & _). split; [exact Hc|reflexivity].
Qed.

Lemma inside_block_of r : 0 < snd r -> inside r (block r).
Proof.
  intros Hr. unfold inside, block; cbn [fst snd]. destruct (Z.leb_spec (snd r) max_size) as [H|H]; [|lia].
  unfold class_of. destruct (sizeClass_correct (snd r) ltac:(change max_size with 4096 in H; lia)) as (c & -> & _ & _ & Hle). cbn [default id]. specialize (Hle H). destruct Hle. lia.
Qed.

(** One element of a list and the rest of a flat map. *)
Lemma bind_insert {A B} (f : A -> list B) (l : list A) i x : l !! i = Some x ->
  exists rest, l ≫= f ≡ₚ f x ++ rest /\ forall y, <[i := y]> l ≫= f ≡ₚ f y ++ rest.
Proof.
  revert i. induction l as [|a l IH]; intros [|i] E; try discriminate; cbn in E.
  - injection E as ->. exists (l ≫= f). split; reflexivity.
  - destruct (IH i E) as (rest & H1 & H2). exists (f a ++ rest). split; [|intros y]; cbn; [rewrite H1|rewrite H2]; solve_Permutation.
Qed.

Lemma chain_mid m p pre x rest : chain m p (pre ++ x :: rest) -> exists q, m !! x = Some q /\ q = hd 0 rest /\ chain m q rest.
Proof.
  revert p. induction pre as [|y pre IH]; intros p; cbn.
  - intros (-> & _ & q & Hq & Hc). exists q. split; [done|]. split; [|done]. destruct rest; cbn in *; [done|]. now destruct Hc.
  - intros (_ & _ & q & _ & Hc). exact (IH q Hc).
Qed.

Lemma chain_hd m p l : chain m p l -> p = hd 0 l.
Proof. destruct l; cbn; [done|]. now intros [-> _]. Qed.

Section Facts.
Context (s : state) (ls : list (list Z)) (I : Inv s ls).

Lemma all_placed r : r ∈ all s ls -> 0 < fst r /\ 0 < snd r /\ exists c, c ∈ chunks s /\ inside r c.
Proof. pose proof (mi_placed _ _ _ _ _ _ (i_minv _ _ I)) as Hp. rewrite Forall_forall in Hp. apply Hp. Qed.

Lemma all_user c a : blk (blockSize c) a ∈ all s ls -> 0 < a /\ user_address a /\ readable a s = true.
Proof.
  intros Hin. destruct (all_placed _ Hin) as (Ha & _ & d & Hd & Hi). cbn in Ha. pose proof (blockSize_ge c) as Hb. unfold inside, blk in Hi; cbn in Hi.
  pose proof (i_low _ _ I) as Hl. rewrite Forall_forall in Hl. specialize (Hl d Hd). split; [exact Ha|]. split; [unfold user_address; lia|].
  unfold readable. apply existsb_exists. exists d. split; [now apply list_elem_of_In|]. apply andb_true_iff. rewrite !Z.leb_le. lia.
Qed.

(** The list of a class: its head, its version, its blocks. *)
Lemma class_facts c : (c < 7)%nat -> exists h n l, heads s !! c = Some h /\ pops s !! c = Some n /\ ls !! c = Some l /\
  chain (memory s) (ptr h) l /\ h = ptr h + (n mod 65536) * 2 ^ 48 /\ tag h = n mod 65536 /\ user_address (ptr h) /\
  (forall a, a ∈ l -> blk (blockSize c) a ∈ all s ls).
Proof.
  intros Hc. pose proof (i_minv _ _ I) as Im. pose proof (mi_heads _ _ _ _ _ _ Im) as Hlen. rewrite length_map in Hlen. change (length sizes) with 7%nat in Hlen.
  destruct (heads s !! c) as [h|] eqn:Eh; [|apply lookup_ge_None in Eh; lia]. destruct (i_heads _ _ I c h Eh) as (n & En & Hp).
  destruct (minv_list sizes lf_sizes_word _ _ _ _ _ c (ptr h) Im) as (sz & l & Hsz & Hl & Hch & _); [now rewrite list_lookup_fmap, Eh|].
  assert (Hin : forall a, a ∈ l -> blk (blockSize c) a ∈ all s ls).
  { intros a Ha. unfold all. rewrite elem_of_app. left. exact (elem_free _ _ _ _ _ _ (sizes_class c Hc) Hl Ha). }
  assert (Hu : user_address (ptr h)).
  { destruct l as [|a l]; cbn in Hch; [rewrite Hch; unfold user_address; lia|]. destruct Hch as [-> _]. apply (all_user c a), Hin. now left. }
  exists h, n, l. split_and!; auto. rewrite Hp. apply tag_packed; [exact Hu|apply Z.mod_pos_bound; lia].
Qed.

Lemma thread_facts t th : threads s !! t = Some th -> length (caches th) = 7%nat /\ place_ok s ls th.
Proof. intros E. exact (Forall_lookup_1 _ _ _ _ (i_threads _ _ I) E). Qed.

Lemma hand_all t th r : threads s !! t = Some th -> r ∈ hand (place th) -> r ∈ all s ls.
Proof.
  intros E Hr. unfold all, used. rewrite !elem_of_app. right. right. apply list_elem_of_bind. exists th. split; [|exact (list_elem_of_lookup_2 _ _ _ E)].
  unfold held. rewrite elem_of_app. now right.
Qed.

Lemma snapshot_ok c h n : (c < 7)%nat -> heads s !! c = Some h -> pops s !! c = Some n -> snap_ok s ls c (mkSnap h n).
Proof.
  intros Hc Eh En. destruct (class_facts c Hc) as (h' & n' & l & Eh' & En' & Hl & Hch & Hp & Ht & Hu & Hin).
  rewrite Eh in Eh'. injection Eh' as <-. rewrite En in En'. injection En' as <-. unfold snap_ok. cbn [packed at_]. split_and!; auto.
  - now rewrite Ht.
  - intros Hne. apply Hin. destruct l as [|a l]; cbn in Hch; [contradiction|]. destruct Hch as [-> _]. now left.
  - intros n' En'. rewrite En in En'. injection En' as <-. split; [lia|]. intros _. exists [], l. cbn. split; [exact Hl|]. symmetry. exact (chain_hd _ _ _ Hch).
Qed.
End Facts.

(** *** What other threads rely on *)

(** Lists grow in front unless blocks are popped; blocks stay blocks. *)
Definition grows s ls s' ls' : Prop :=
  (forall c n', pops s' !! c = Some n' -> exists n, pops s !! c = Some n /\ n <= n' /\
     (n = n' -> forall l, ls !! c = Some l -> exists pre, ls' !! c = Some (pre ++ l))) /\
  (forall c a, (c < 7)%nat -> blk (blockSize c) a ∈ all s ls -> blk (blockSize c) a ∈ all s' ls').

Lemma snap_ok_grows s ls s' ls' c old : grows s ls s' ls' -> (c < 7)%nat -> snap_ok s ls c old -> snap_ok s' ls' c old.
Proof.
  intros [Hp Ha] Hc (Hw & Ht & Hin & Hs). split_and!; auto. intros n' En'. destruct (Hp c n' En') as (n & En & Hle & Hl). destruct (Hs n En) as [Hat Hst].
  split; [lia|]. intros E. destruct (Hst ltac:(lia)) as (pre & rest & Hls & Hhd). destruct (Hl ltac:(lia) _ Hls) as [pre' Hls'].
  exists (pre' ++ pre), rest. rewrite <-app_assoc. auto.
Qed.

Lemma place_ok_grows s ls s' ls' th : grows s ls s' ls' ->
  (forall c a, blk (blockSize c) a ∈ hand (place th) -> memory s' !! a = memory s !! a) -> place_ok s ls th -> place_ok s' ls' th.
Proof.
  intros Hg Hm. unfold place_ok. destruct (place th) as [| | | | | | |c a n old new|k c|k c old|k c old|k c old|k c old new|k c old|k c a|k c a|c] eqn:E; auto.
  - intros (H1 & H2 & H3). split; [exact H1|]. split; [|exact H3]. rewrite (Hm c a); [done|]. rewrite ?E. now left.
  - intros (? & Hc & H). split_and!; auto. exact (snap_ok_grows _ _ _ _ _ _ Hg Hc H).
  - intros (? & Hc & H & ?). split_and!; auto. exact (snap_ok_grows _ _ _ _ _ _ Hg Hc H).
  - intros (? & Hc & H & ?). split_and!; auto. exact (snap_ok_grows _ _ _ _ _ _ Hg Hc H).
  - intros (? & Hc & H & ? & Hn). split_and!; auto; [exact (snap_ok_grows _ _ _ _ _ _ Hg Hc H)|]. intros n' En' Eat.
    destruct Hg as [Hp _]. destruct (Hp c n' En') as (n & En & Hle & Hl). destruct H as (_ & _ & _ & Hs). destruct (Hs n En) as [Hat _].
    destruct (Hn n En ltac:(lia)) as (pre & rest & Hls & Hnew). destruct (Hl ltac:(lia) _ Hls) as [pre' Hls'].
    exists (pre' ++ pre), rest. rewrite <-app_assoc. auto.
  - intros (? & Hc & H). split_and!; auto. exact (snap_ok_grows _ _ _ _ _ _ Hg Hc H).
Qed.

(** The same blocks, the same history. *)
Lemma grows_perm s ls s' : pops s' = pops s -> used s' ≡ₚ used s -> grows s ls s' ls.
Proof.
  intros Ep Hu. split.
  - intros c n'. rewrite Ep. intros En. exists n'. split_and!; [done|lia|]. intros _ l Hl. now exists [].
  - intros c a _. unfold all. now rewrite Hu.
Qed.

Lemma used_update s s' t th th' : threads s !! t = Some th -> threads s' = <[t := th']> (threads s) ->
  map block (live s') ++ held th' ≡ₚ map block (live s) ++ held th -> used s' ≡ₚ used s.
Proof.
  intros Et Es Hp. unfold used. destruct (bind_insert held (threads s) t th Et) as (rest & H1 & H2). rewrite Es, H1, H2, !app_assoc, Hp. done.
Qed.

(** Nobody cleans up while another thread works. *)
Definition clean_ok (l : list thread) : Prop := forall t t' th th',
  l !! t = Some th -> cleaning (place th) = true -> t' <> t -> l !! t' = Some th' -> place th' = Idle.

Lemma clean_ok_insert l t th th' : l !! t = Some th -> clean_ok l ->
  place th <> Idle \/ Forall (fun x => cleaning (place x) = false) l ->
  (cleaning (place th') = true -> cleaning (place th) = true \/ Forall (fun x => place x = Idle) l) ->
  clean_ok (<[t := th']> l).
Proof.
  intros Et Hc Hb Hk i j x y Hi Hx Hne Hj. pose proof (lookup_lt_Some _ _ _ Et) as Hlt.
  destruct (decide (i = t)) as [->|Hit].
  - rewrite list_lookup_insert_eq in Hi by done. injection Hi as ->. rewrite list_lookup_insert_ne in Hj by done.
    destruct (Hk Hx) as [Hcl|Hall]; [exact (Hc t j th y Et Hcl Hne Hj)|]. exact (Forall_lookup_1 _ _ _ _ Hall Hj).
  - rewrite list_lookup_insert_ne in Hi by done. destruct (decide (j = t)) as [->|Hjt].
    + destruct Hb as [Hb|Hb]; [destruct (Hb (Hc i t x th Hi Hx Hne Et))|]. pose proof (Forall_lookup_1 _ _ _ _ Hb Hi). cbn in *. congruence.
    + rewrite list_lookup_insert_ne in Hj by done. exact (Hc i j x y Hi Hx Hne Hj).
Qed.

Lemma threads_ok_insert s ls s' ls' t th' : Inv s ls -> threads s' = <[t := th']> (threads s) ->
  (forall t' th, t' <> t -> threads s !! t' = Some th -> place_ok s ls th -> place_ok s' ls' th) ->
  length (caches th') = 7%nat -> place_ok s' ls' th' -> Forall (fun th => length (caches th) = 7%nat /\ place_ok s' ls' th) (threads s').
Proof.
  intros I -> Ho Hl Hp. apply Forall_lookup. intros i x. destruct (decide (i = t)) as [->|Hne].
  - intros [(_ & <- & _)|[? _]]%list_lookup_insert_Some; [auto|congruence].
  - rewrite list_lookup_insert_ne by congruence. intros Hi. destruct (thread_facts s ls I i x Hi). split; [done|]. exact (Ho i x Hne Hi ltac:(assumption)).
Qed.

(** A step that moves blocks between a thread and the program, or none. *)
Lemma inv_local s ls s' t th th' : Inv s ls -> threads s !! t = Some th ->
  heads s' = heads s -> memory s' = memory s -> chunks s' = chunks s -> pops s' = pops s -> wf (hp s') ->
  threads s' = <[t := th']> (threads s) ->
  map block (live s') ++ held th' ≡ₚ map block (live s) ++ held th -> Forall (fun r => 0 < snd r) (live s') ->
  length (caches th') = 7%nat -> place_ok s ls th' ->
  place th <> Idle \/ Forall (fun x => cleaning (place x) = false) (threads s) ->
  (cleaning (place th') = true -> cleaning (place th) = true \/ Forall (fun x => place x = Idle) (threads s)) -> Inv s' ls.
Proof.
  intros I Et Eh Em Ec Ep Hw Es Hp Hlive Hl Hok Hb Hk. pose proof (used_update s s' t th th' Et Es Hp) as Hu.
  pose proof (grows_perm s ls s' Ep Hu) as Hg. constructor; auto.
  - rewrite Eh, Em, Ec. apply (minv_perm _ _ _ _ _ _ _ (i_minv _ _ I)). now symmetry.
  - rewrite Eh, Ep. apply I.
  - rewrite Ec. apply I.
  - apply (threads_ok_insert s ls s' ls t th' I Es); auto.
    + intros t' x _ _. apply (place_ok_grows _ _ _ _ _ Hg). intros c a _. now rewrite Em.
    + apply (place_ok_grows _ _ _ _ _ Hg); [|exact Hok]. intros c a _. now rewrite Em.
  - rewrite Es. exact (clean_ok_insert _ _ _ _ Et (i_clean _ _ I) Hb Hk).
Qed.

(** *** Memory from [malloc], and back *)

Lemma inv_malloc s ls s' t th th' a n size : Inv s ls -> threads s !! t = Some th -> place th <> Idle ->
  heads s' = heads s -> memory s' = memory s -> chunks s' = (a, n) :: chunks s -> pops s' = pops s -> hp s' = hp s ->
  threads s' = <[t := th']> (threads s) -> live s' = (a, size) :: live s ->
  place th' = Idle -> caches th' = caches th -> hand (place th) = [] ->
  block (a, size) = (a, n) -> 0 < size -> 0 < a -> 0 < n -> a + n <= 2 ^ 47 -> Forall (apart (a, n)) (chunks s) -> Inv s' ls.
Proof.
  intros I Et Hni Eh Em Ec Ep Ew Es El Hidle Hca Hh Hb Hsize Ha Hn Hlow Hap.
  assert (Hu : used s' ≡ₚ (a, n) :: used s).
  { unfold used. destruct (bind_insert held (threads s) t th Et) as (rest & H1 & H2). rewrite Es, El, H1, H2. unfold held. rewrite Hca, Hidle, Hh.
    cbn [map hand]. rewrite Hb. reflexivity. }
  assert (Hg : grows s ls s' ls).
  { split.
    - intros c n'. rewrite Ep. intros En. exists n'. split_and!; [done|lia|]. intros _ l Hl. now exists [].
    - intros c x _. unfold all. rewrite Hu, !elem_of_app, elem_of_cons. tauto. }
  constructor.
  - rewrite Eh, Em, Ec. apply (minv_perm _ _ _ _ ((a, n) :: used s)); [|now symmetry]. exact (minv_grow _ _ _ _ _ _ a n (i_minv _ _ I) Ha Hn Hap).
  - rewrite Eh, Ep. apply I.
  - rewrite Ec. apply Forall_cons. split; [exact Hlow|apply I].
  - rewrite El. apply Forall_cons. split; [exact Hsize|apply I].
  - rewrite Ew. apply I.
  - destruct (thread_facts s ls I t th Et) as [Hl _]. apply (threads_ok_insert s ls s' ls t th' I Es); [|now rewrite Hca|unfold place_ok; now rewrite Hidle].
    intros t' x _ _. apply (place_ok_grows _ _ _ _ _ Hg). intros c y _. now rewrite Em.
  - rewrite Es. apply (clean_ok_insert _ _ _ _ Et (i_clean _ _ I)); [now left|]. now rewrite Hidle.
Qed.

Lemma inv_free s ls s' t th th' r : Inv s ls -> threads s !! t = Some th -> place th <> Idle ->
  heads s' = heads s -> memory s' = memory s -> chunks s' = filter (fun x => x <> r) (chunks s) -> pops s' = pops s -> hp s' = hp s ->
  threads s' = <[t := th']> (threads s) -> live s' = live s -> held th ≡ₚ r :: held th' ->
  length (caches th') = 7%nat -> (forall x, place_ok x ls th') -> (cleaning (place th') = true -> cleaning (place th) = true) ->
  max_size < snd r \/ (forall t' x, t' <> t -> threads s !! t' = Some x -> place x = Idle) -> Inv s' ls.
Proof.
  intros I Et Hni Eh Em Ec Ep Ew Es El Hp Hl Hok Hk Hr.
  assert (Hu : used s ≡ₚ r :: used s').
  { unfold used. destruct (bind_insert held (threads s) t th Et) as (rest & H1 & H2). rewrite Es, El, H1, H2, Hp. solve_Permutation. }
  assert (Hch : forall d, d ∈ chunks s -> d = r \/ d ∈ chunks s').
  { intros d Hd. rewrite Ec, list_elem_of_filter. destruct (decide (d = r)); auto. }
  constructor.
  - rewrite Eh, Em. exact (minv_delete _ _ _ _ (chunks s') _ (used s') _ r (i_minv _ _ I) Hu Hch).
  - rewrite Eh, Ep. apply I.
  - rewrite Ec. apply Forall_forall. intros d [_ Hd]%list_elem_of_filter. pose proof (i_low _ _ I) as H. rewrite Forall_forall in H. auto.
  - rewrite El. apply I.
  - rewrite Ew. apply I.
  - apply (threads_ok_insert s ls s' ls t th' I Es); [|done|apply Hok]. intros t' x Hne Hx Hpl. destruct Hr as [Hbig|Hidle].
    + revert Hpl. apply place_ok_grows; [|intros c y _; now rewrite Em]. split.
      * intros c n'. rewrite Ep. intros En. exists n'. split_and!; [done|lia|]. intros _ l Hl'. now exists [].
      * intros c y Hc. unfold all. rewrite Hu, !elem_of_app, elem_of_cons. intros [?|[<-|?]]; [now left| |now right].
        exfalso. cbn in Hbig. unfold blockSize, kMinClass, max_size, kMaxClass in Hbig. rewrite !Z.shiftl_1_l in Hbig.
        pose proof (Z.pow_le_mono_r 2 (Z.of_nat c + 6) 12 ltac:(lia) ltac:(lia)). lia.
    + unfold place_ok. rewrite (Hidle t' x Hne Hx). done.
  - rewrite Es. apply (clean_ok_insert _ _ _ _ Et (i_clean _ _ I)); [now left|]. intros H. left. auto.
Qed.

(** *** Successful exchanges *)

Lemma repack_eq p t : 0 <= p < 2 ^ 48 -> 0 <= t < 65536 -> repack p t = p + t * 2 ^ 48.
Proof.
  intros Hp Ht. unfold repack. rewrite Z.shiftl_mul_pow2, wrap64_small by (unfold size_mod; lia). apply lor_add; lia.
Qed.

Lemma repack_next p t : 0 <= p < 2 ^ 48 -> 0 <= t < 65536 -> repack p (t + 1) = p + ((t + 1) mod 65536) * 2 ^ 48.
Proof.
  intros Hp Ht. destruct (Z.eq_dec t 65535) as [->|Hne].
  - unfold repack. change (wrap64 (Z.shiftl (65535 + 1) 48)) with 0. rewrite Z.lor_0_r. change ((65535 + 1) mod 65536) with 0. lia.
  - rewrite Z.mod_small by lia. apply repack_eq; lia.
Qed.

Lemma free_cons c a l ls : (c < 7)%nat -> ls !! c = Some l -> free sizes (<[c := a :: l]> ls) ≡ₚ blk (blockSize c) a :: free sizes ls.
Proof.
  intros Hc Hl. pose proof (free_insert sizes ls c _ l (a :: l) (sizes_class c Hc) Hl) as Hf. cbn [map] in Hf.
  apply (Permutation_app_inv_r (map (blk (blockSize c)) l)). rewrite Hf. solve_Permutation.
Qed.

Lemma grows_at s ls s' ls' c n' l l' : ls !! c = Some l -> ls' = <[c := l']> ls ->
  (forall c', c' <> c -> pops s' !! c' = pops s !! c') -> pops s' !! c = Some n' ->
  (exists n, pops s !! c = Some n /\ n <= n' /\ (n = n' -> exists pre, l' = pre ++ l)) ->
  (forall r, r ∈ all s ls -> r ∈ all s' ls') -> grows s ls s' ls'.
Proof.
  intros Hl -> Hp En' (n & En & Hle & Hpre) Ha. split; [|intros; auto]. intros c' m Em. destruct (decide (c' = c)) as [->|Hne].
  - rewrite En' in Em. injection Em as <-. exists n. split_and!; auto. intros E l0 Hl0. rewrite Hl in Hl0. injection Hl0 as <-.
    destruct (Hpre E) as [pre ->]. exists pre. apply list_lookup_insert_eq. exact (lookup_lt_Some _ _ _ Hl).
  - rewrite Hp in Em by done. exists m. split_and!; [done|lia|]. intros _ l0 Hl0. exists []. now rewrite list_lookup_insert_ne by congruence.
Qed.

Lemma inv_pop s ls s' t th th' c h n a l q : Inv s ls -> threads s !! t = Some th -> place th <> Idle -> (c < 7)%nat ->
  heads s !! c = Some h -> pops s !! c = Some n -> ls !! c = Some (a :: l) -> ptr h = a -> memory s !! a = Some q ->
  heads s' = <[c := q + ((n + 1) mod 65536) * 2 ^ 48]> (heads s) -> memory s' = memory s -> chunks s' = chunks s ->
  pops s' = <[c := n + 1]> (pops s) -> hp s' = hp s -> threads s' = <[t := th']> (threads s) -> live s' = live s ->
  held th' ≡ₚ blk (blockSize c) a :: held th -> length (caches th') = 7%nat -> (forall x y, place_ok x y th') ->
  (cleaning (place th') = true -> cleaning (place th) = true) -> Inv s' (<[c := l]> ls).
Proof.
  intros I Et Hni Hc Ehd En El Ep Em Eh' Em' Ec' Ep' Ew' Es' Elv Hheld Hlen Hok Hk.
  destruct (class_facts s ls I c Hc) as (h0 & n0 & l0 & H1 & H2 & H3 & Hch & Hw & Ht & Hu & Hin).
  rewrite Ehd in H1. injection H1 as <-. rewrite En in H2. injection H2 as <-. rewrite El in H3. injection H3 as <-.
  destruct (all_user s ls I c a (Hin a ltac:(now left))) as (Ha & _ & _).
  assert (Huq : user_address q).
  { cbn in Hch. destruct Hch as (_ & _ & q' & Hq' & Hch). rewrite Em in Hq'. injection Hq' as <-. destruct l as [|b l]; cbn in Hch; [rewrite Hch; unfold user_address; lia|].
    destruct Hch as [-> _]. apply (all_user s ls I c b), Hin. right. now left. }
  assert (Hused : used s' ≡ₚ blk (blockSize c) a :: used s).
  { unfold used. destruct (bind_insert held (threads s) t th Et) as (rest & P1 & P2). rewrite Es', Elv, P1, P2, Hheld. solve_Permutation. }
  assert (Hll : (c < length ls)%nat) by exact (lookup_lt_Some _ _ _ El).
  assert (Hall : all s' (<[c := l]> ls) ≡ₚ all s ls).
  { unfold all. rewrite Hused. assert (E : ls = <[c := a :: l]> (<[c := l]> ls)) by now rewrite list_insert_insert_eq, list_insert_id.
    rewrite E at 2. rewrite (free_cons c a l (<[c := l]> ls) Hc) by now apply list_lookup_insert_eq. solve_Permutation. }
  assert (Hnp : pops s' !! c = Some (n + 1)) by (rewrite Ep'; apply list_lookup_insert_eq; exact (lookup_lt_Some _ _ _ En)).
  assert (Hg : grows s ls s' (<[c := l]> ls)).
  { apply (grows_at s ls s' _ c (n + 1) (a :: l) l El eq_refl); [|exact Hnp|exists n; split_and!; auto; lia|intros r; now rewrite Hall].
    intros c' Hne. rewrite Ep'. now apply list_lookup_insert_ne. }
  constructor.
  - rewrite Eh', Em', Ec', list_fmap_insert, ptr_packed by (auto; apply Z.mod_pos_bound; lia).
    destruct (minv_pop sizes lf_sizes_word _ _ _ _ ls c a (blockSize c) (i_minv _ _ I)) as (q' & l' & Hq' & Hl' & I').
    + now rewrite list_lookup_fmap, Ehd, <-Ep.
    + exact (sizes_class c Hc).
    + lia.
    + rewrite Em in Hq'. injection Hq' as <-. rewrite El in Hl'. injection Hl' as <-. apply (minv_perm _ _ _ _ _ _ _ I'). now symmetry.
  - rewrite Eh', Ep'. intros c' h'. destruct (decide (c' = c)) as [->|Hne].
    + rewrite !list_lookup_insert_eq by (eapply lookup_lt_Some; eassumption). intros [= <-]. exists (n + 1). split; [done|].
      rewrite ptr_packed by (auto; apply Z.mod_pos_bound; lia). reflexivity.
    + rewrite !list_lookup_insert_ne by congruence. apply I.
  - rewrite Ec'. apply I.
  - rewrite Elv. apply I.
  - rewrite Ew'. apply I.
  - apply (threads_ok_insert s ls s' _ t th' I Es'); [|done|apply Hok]. intros t' x _ _. apply (place_ok_grows _ _ _ _ _ Hg). intros c' y _. now rewrite Em'.
  - rewrite Es'. apply (clean_ok_insert _ _ _ _ Et (i_clean _ _ I)); [now left|]. intros H. left. auto.
Qed.

Lemma inv_push s ls s' t th th' c h n a l : Inv s ls -> threads s !! t = Some th -> place th <> Idle -> (c < 7)%nat ->
  heads s !! c = Some h -> pops s !! c = Some n -> ls !! c = Some l -> memory s !! a = Some (ptr h) ->
  heads s' = <[c := repack a (tag h)]> (heads s) -> memory s' = memory s -> chunks s' = chunks s -> pops s' = pops s -> hp s' = hp s ->
  threads s' = <[t := th']> (threads s) -> live s' = live s -> held th ≡ₚ blk (blockSize c) a :: held th' -> blk (blockSize c) a ∈ hand (place th) ->
  length (caches th') = 7%nat -> (forall x y, place_ok x y th') -> (cleaning (place th') = true -> cleaning (place th) = true) ->
  Inv s' (<[c := a :: l]> ls).
Proof.
  intros I Et Hni Hc Ehd En El Em Eh' Em' Ec' Ep' Ew' Es' Elv Hheld Hhand Hlen Hok Hk.
  destruct (class_facts s ls I c Hc) as (h0 & n0 & l0 & H1 & H2 & H3 & Hch & Hw & Ht & Hu & Hin).
  rewrite Ehd in H1. injection H1 as <-. rewrite En in H2. injection H2 as <-. rewrite El in H3. injection H3 as <-.
  destruct (all_user s ls I c a (hand_all s ls t th _ Et Hhand)) as (Ha & Hua & _).
  assert (Hnew : repack a (tag h) = a + (n mod 65536) * 2 ^ 48).
  { rewrite Ht. apply repack_eq; [unfold user_address in Hua; lia|apply Z.mod_pos_bound; lia]. }
  assert (Hused : used s ≡ₚ blk (blockSize c) a :: used s').
  { unfold used. destruct (bind_insert held (threads s) t th Et) as (rest & P1 & P2). rewrite Es', Elv, P1, P2, Hheld. solve_Permutation. }
  assert (Hall : all s' (<[c := a :: l]> ls) ≡ₚ all s ls) by (unfold all; rewrite Hused, (free_cons c a l ls Hc El); solve_Permutation).
  assert (Hg : grows s ls s' (<[c := a :: l]> ls)).
  { apply (grows_at s ls s' _ c n l (a :: l) El eq_refl); [now rewrite Ep'|now rewrite Ep'| |intros r; now rewrite Hall].
    exists n. split_and!; auto; [lia|]. intros _. now exists [a]. }
  constructor.
  - rewrite Eh', Em', Ec', list_fmap_insert, Hnew, ptr_packed by (auto; apply Z.mod_pos_bound; lia).
    pose proof (minv_push sizes lf_sizes_word (memory s) _ _ _ (used s') ls c (ptr h) (blockSize c) l a (i_minv _ _ I) Hused) as I'.
    rewrite (insert_id (memory s) a (ptr h) Em) in I'. apply I'; [now rewrite list_lookup_fmap, Ehd|exact (sizes_class c Hc)|exact El].
  - rewrite Eh', Ep'. intros c' h'. destruct (decide (c' = c)) as [->|Hne].
    + rewrite !list_lookup_insert_eq by (eapply lookup_lt_Some; eassumption). intros [= <-]. exists n. split; [done|].
      rewrite Hnew, ptr_packed by (auto; apply Z.mod_pos_bound; lia). reflexivity.
    + rewrite !list_lookup_insert_ne by congruence. apply I.
  - rewrite Ec'. apply I.
  - rewrite Elv. apply I.
  - rewrite Ew'. apply I.
  - apply (threads_ok_insert s ls s' _ t th' I Es'); [|done|apply Hok]. intros t' x _ _. apply (place_ok_grows _ _ _ _ _ Hg). intros c' y _. now rewrite Em'.
  - rewrite Es'. apply (clean_ok_insert _ _ _ _ Et (i_clean _ _ I)); [now left|]. intros H. left. auto.
Qed.

(** *** Writes into memory that is not free *)

(** The other blocks in the hands of threads. *)
Lemma hand_apart s ls t t' th th' r r' : Inv s ls -> threads s !! t = Some th -> threads s !! t' = Some th' -> t <> t' ->
  r ∈ hand (place th) -> r' ∈ hand (place th') -> apart r r'.
Proof.
  intros I Et Et' Hne Hr Hr'. pose proof (minv_live_apart _ _ _ _ _ _ (i_minv _ _ I)) as Hs. unfold used in Hs. apply sep_app in Hs as (_ & Hs & _).
  destruct (bind_insert held (threads s) t th Et) as (rest & P1 & P2). rewrite P1 in Hs. apply sep_app in Hs as (_ & _ & Hs).
  rewrite Forall_forall in Hs. assert (Hin : r ∈ held th) by (unfold held; rewrite elem_of_app; now right). specialize (Hs r Hin). rewrite Forall_forall in Hs. apply Hs.
  pose proof (P2 (mkThread Idle [])) as P3. assert (H : r' ∈ <[t := mkThread Idle []]> (threads s) ≫= held).
  { apply list_elem_of_bind. exists th'. split; [unfold held; rewrite elem_of_app; now right|].
    apply (list_elem_of_lookup_2 _ t'). now rewrite list_lookup_insert_ne. }
  assert (E : held (mkThread Idle []) = []) by reflexivity. rewrite P3, E in H. exact H.
Qed.

Lemma hand_write a r m m' : apart r (a, 8) -> clobber r m m' -> m' !! a = m !! a.
Proof. intros Hap Hm. apply Hm. now symmetry. Qed.

(** [node->next = v] on a block in the hands of the thread. *)
Lemma inv_write s ls s' t th th' c a v : Inv s ls -> threads s !! t = Some th -> place th <> Idle ->
  blk (blockSize c) a ∈ hand (place th) -> hand (place th') = hand (place th) -> caches th' = caches th ->
  heads s' = heads s -> memory s' = <[a := v]> (memory s) -> chunks s' = chunks s -> pops s' = pops s -> hp s' = hp s ->
  threads s' = <[t := th']> (threads s) -> live s' = live s -> place_ok s' ls th' ->
  (cleaning (place th') = true -> cleaning (place th) = true) -> Inv s' ls.
Proof.
  intros I Et Hni Ha Hh Hca Eh Em Ec Ep Ew Es El Hok Hk.
  assert (Hp : used s' ≡ₚ used s).
  { apply (used_update s s' t th th' Et Es). rewrite El. unfold held. now rewrite Hca, Hh. }
  assert (Hcl : clobber (blk (blockSize c) a) (memory s) (memory s')).
  { rewrite Em. apply clobber_insert. pose proof (blockSize_ge c). lia. }
  constructor.
  - rewrite Eh, Ec. apply (minv_perm _ _ _ _ (used s)); [|now symmetry].
    apply (minv_write sizes lf_sizes_word (memory s) _ _ _ _ _ _ (i_minv _ _ I) Hcl). left. exists (blk (blockSize c) a). split; [|unfold inside; lia].
    unfold used. rewrite elem_of_app. right. apply list_elem_of_bind. exists th. split; [unfold held; rewrite elem_of_app; now right|].
    exact (list_elem_of_lookup_2 _ _ _ Et).
  - rewrite Eh, Ep. apply I.
  - rewrite Ec. apply I.
  - rewrite El. apply I.
  - rewrite Ew. apply I.
  - destruct (thread_facts s ls I t th Et) as [Hl _]. apply (threads_ok_insert s ls s' ls t th' I Es); [|now rewrite Hca|exact Hok].
    intros t' x Hne Hx. apply (place_ok_grows _ _ _ _ _ (grows_perm s ls s' Ep Hp)). intros c' b Hb. apply (hand_write b (blk (blockSize c) a)); [|exact Hcl].
    pose proof (hand_apart s ls t t' th x _ _ I Et Hx ltac:(congruence) Ha Hb) as Hap. pose proof (blockSize_ge c'). unfold apart, blk in *; cbn in *. lia.
  - rewrite Es. apply (clean_ok_insert _ _ _ _ Et (i_clean _ _ I)); [now left|]. intros H. left. auto.
Qed.

(** The program writes into what it holds, or outside the pool. *)
Lemma inv_clobber s ls r m' : Inv s ls -> clobber r (memory s) m' -> (exists u, u ∈ live s /\ inside r u) \/ Forall (apart r) (chunks s) ->
  Inv (set_memory m' s) ls.
Proof.
  intros I Hm Hr. assert (Hr' : (exists u, u ∈ used s /\ inside r u) \/ Forall (apart r) (chunks s)).
  { destruct Hr as [(u & Hu & Hi)|Hr]; [left|now right]. exists (block u). split.
    - unfold used. rewrite elem_of_app. left. apply list_elem_of_fmap. eauto.
    - apply (inside_trans _ _ _ Hi), inside_block_of. pose proof (i_live _ _ I) as Hl. rewrite Forall_forall in Hl. auto. }
  constructor; try apply I.
  - exact (minv_write sizes lf_sizes_word _ m' _ _ _ _ r (i_minv _ _ I) Hm Hr').
  - pose proof (i_threads _ _ I) as Ht. apply Forall_lookup. intros t x Hx. destruct (Forall_lookup_1 _ _ _ _ Ht Hx) as [Hl Hok]. split; [exact Hl|].
    revert Hok. apply place_ok_grows; [now apply grows_perm|]. intros c b Hb. apply (hand_write b r); [|exact Hm].
    pose proof (hand_all s ls t x _ Hx Hb) as Hin. pose proof (blockSize_ge c). destruct Hr as [(u & Hu & Hi)|Hr].
    + pose proof (minv_live_apart _ _ _ _ _ _ (i_minv _ _ I)) as Hs. unfold used in Hs. apply sep_app in Hs as (_ & _ & Hs). rewrite Forall_forall in Hs.
      specialize (Hs (block u) ltac:(apply list_elem_of_fmap; eauto)). rewrite Forall_forall in Hs.
      assert (Hh : blk (blockSize c) b ∈ threads s ≫= held).
      { apply list_elem_of_bind. exists x. split; [unfold held; rewrite elem_of_app; now right|exact (list_elem_of_lookup_2 _ _ _ Hx)]. }
      specialize (Hs _ Hh). pose proof (i_live _ _ I) as Hpos. rewrite Forall_forall in Hpos.
      pose proof (apart_inside _ _ _ (inside_trans _ _ _ Hi (inside_block_of u (Hpos u Hu))) (symmetry Hs)) as Hap.
      unfold apart, blk in *; cbn in *. lia.
    + destruct (all_placed s ls I _ Hin) as (_ & _ & d & Hd & Hi). rewrite Forall_forall in Hr.
      pose proof (apart_inside _ _ _ Hi (Hr d Hd)) as Hap. unfold apart, blk in *; cbn in *. lia.
Qed.

(** *** The steps *)

Lemma pop_back_some l l' x : pop_back l = Some (l', x) -> l = l' ++ [x].
Proof.
  unfold pop_back. destruct (last l) as [y|] eqn:E; [|discriminate]. intros [= <- <-]. apply last_Some in E as [k ->]. now rewrite removelast_last.
Qed.

Lemma pop_back_none l : pop_back l = None -> l = [].
Proof. unfold pop_back. destruct (last l) eqn:E; [discriminate|]. intros _. now apply last_None. Qed.

Lemma class_nodup s ls c l : Inv s ls -> (c < 7)%nat -> ls !! c = Some l -> NoDup l.
Proof.
  intros I Hc Hl. pose proof (mi_sep _ _ _ _ _ _ (i_minv _ _ I)) as Hs. apply sep_app in Hs as (Hs & _).
  pose proof (free_insert sizes ls c _ l [] (sizes_class c Hc) Hl) as Hf. cbn [map] in Hf. rewrite app_nil_r in Hf. rewrite <-Hf in Hs. apply sep_app in Hs as (_ & Hs & _).
  clear -Hs. induction l as [|a l IH]; [constructor|]. cbn in Hs. destruct Hs as [Ha Hs]. constructor; [|exact (IH Hs)].
  intros Hin. rewrite Forall_map, Forall_forall in Ha. specialize (Ha a Hin). pose proof (blockSize_ge c). unfold apart, blk in Ha; cbn in Ha. lia.
Qed.

Lemma cache_cons c l l' x caches : (c < 7)%nat -> caches !! c = Some l -> l ≡ₚ x :: l' ->
  free sizes caches ≡ₚ blk (blockSize c) x :: free sizes (<[c := l']> caches).
Proof.
  intros Hc Hl Hp. pose proof (free_insert sizes caches c _ l l' (sizes_class c Hc) Hl) as Hf. rewrite Hp in Hf. cbn [map] in Hf.
  apply (Permutation_app_inv_r (map (blk (blockSize c)) l')). rewrite <-Hf. solve_Permutation.
Qed.

Section Steps.
Context `{Build} (s : state) (ls : list (list Z)) (I : Inv s ls) (t : nat) (th : thread) (Et : threads s !! t = Some th).

Definition good (m : ST state unit) : Prop :=
  (exists s' ls', m s = Done (tt, s') /\ Inv s' ls') \/ (m s = Fail Aborted /\ nextSlot_ (hp s) = Z.of_nat kMaxThreads).

Lemma good_done (m : ST state unit) s' ls' : m s = Done (tt, s') -> Inv s' ls' -> good m.
Proof. intros E I'. left. eauto. Qed.

Lemma thread_at_eq : thread_at t s = Done (th, s).
Proof. unfold thread_at. now rewrite bind_get, Et. Qed.

(** Statements that only read. *)
Lemma good_bind {A} (m : ST state A) (k : A -> ST state unit) a : m s = Done (a, s) -> good (k a) -> good (m ≫= k).
Proof. intros E Hg. unfold good. now rewrite (bind_done _ _ _ _ _ E). Qed.

Lemma good_at (k : thread -> ST state unit) : good (k th) -> good (thread_at t ≫= k).
Proof. exact (good_bind _ k th thread_at_eq). Qed.

Lemma goto_eq p : goto t p s = Done (tt, set_thread t (mkThread p (caches th)) s).
Proof. unfold goto. now rewrite (bind_done _ _ _ _ _ thread_at_eq). Qed.

Lemma cache_at_eq c l : caches th !! c = Some l -> cache_at t c s = Done (l, s).
Proof. intros E. unfold cache_at. now rewrite (bind_done _ _ _ _ _ thread_at_eq), E. Qed.

Lemma lf_set_twice t0 a b x : set_thread t0 b (set_thread t0 a x) = set_thread t0 b x.
Proof. unfold set_thread. cbn [threads heads memory chunks hp live pops]. now rewrite list_insert_insert_eq. Qed.

Lemma set_cache_goto c l p : (_ ← set_cache t c l; goto t p) s = Done (tt, set_thread t (mkThread p (<[c := l]> (caches th))) s).
Proof.
  unfold set_cache. rewrite bind_assoc. rewrite (bind_done _ _ _ _ _ thread_at_eq), bind_modify. unfold goto, thread_at. rewrite bind_assoc, bind_get.
  cbn [threads set_thread]. rewrite list_lookup_insert_eq by exact (lookup_lt_Some _ _ _ Et).
  cbn [deref]. rewrite bind_ret_l. unfold modify, set_thread, set_live. cbn [heads memory chunks threads hp live pops caches]. now rewrite list_insert_insert_eq.
Qed.

Lemma set_cache_hand_out c l p size : p <> 0 ->
  (_ ← set_cache t c l; hand_out t p size) s = Done (tt, set_thread t (mkThread Idle (<[c := l]> (caches th))) (set_live ((p, size) :: live s) s)).
Proof.
  intros Hp. unfold set_cache. rewrite bind_assoc. rewrite (bind_done _ _ _ _ _ thread_at_eq), bind_modify. unfold hand_out.
  rewrite (proj2 (Z.eqb_neq p 0) Hp). cbn [negb when]. rewrite bind_modify. unfold goto, thread_at. rewrite bind_assoc, bind_get.
  cbn [threads set_thread set_live]. rewrite list_lookup_insert_eq by exact (lookup_lt_Some _ _ _ Et).
  cbn [deref]. rewrite bind_ret_l. unfold modify, set_thread, set_live. cbn [heads memory chunks threads hp live pops caches]. now rewrite list_insert_insert_eq.
Qed.

(** Only the place of the thread changes. *)
Lemma inv_goto p d : wf d -> place th <> Idle -> hand p = hand (place th) -> place_ok s ls (mkThread p (caches th)) ->
  (cleaning p = true -> cleaning (place th) = true) -> Inv (set_thread t (mkThread p (caches th)) (set_hp d s)) ls.
Proof.
  intros Hd Hni Hh Hok Hk. destruct (thread_facts s ls I t th Et) as [Hl _].
  apply (inv_local s ls _ t th (mkThread p (caches th)) I Et); try reflexivity; auto.
  - unfold held. cbn [place caches]. now rewrite Hh.
  - apply I.
Qed.

Lemma inv_goto0 p : place th <> Idle -> hand p = hand (place th) -> place_ok s ls (mkThread p (caches th)) ->
  (cleaning p = true -> cleaning (place th) = true) -> Inv (set_thread t (mkThread p (caches th)) s) ls.
Proof.
  intros Hni Hh Hok Hk. replace s with (set_hp (hp s) s) at 1 by now destruct s. apply inv_goto; auto. apply I.
Qed.

Lemma on_hp_good op p : (op (hp s) = Fail Aborted /\ nextSlot_ (hp s) = Z.of_nat kMaxThreads) \/ (exists d', op (hp s) = Done (tt, d') /\ wf d') ->
  place th <> Idle -> hand p = hand (place th) -> place_ok s ls (mkThread p (caches th)) -> (cleaning p = true -> cleaning (place th) = true) ->
  good (_ ← on_hp op; goto t p).
Proof.
  intros [[E Hn]|(d' & E & W)] Hni Hh Hok Hk.
  - right. split; [|exact Hn]. apply bind_fail. unfold on_hp. now rewrite E.
  - left. exists (set_thread t (mkThread p (caches th)) (set_hp d' s)), ls. split; [|now apply inv_goto].
    unfold on_hp, goto, thread_at, mbind, ST_bind. rewrite E. cbn. now rewrite Et.
Qed.

Lemma store_good idx p : (idx < kMaxHazardPointers)%nat ->
  (store_hazard t idx p (hp s) = Fail Aborted /\ nextSlot_ (hp s) = Z.of_nat kMaxThreads) \/ (exists d', store_hazard t idx p (hp s) = Done (tt, d') /\ wf d').
Proof. intros Hi. destruct (store_hazard_wf t idx p (hp s) (i_hp _ _ I) Hi) as [(E & _ & Hn)|?]; auto. Qed.

Lemma head_at_eq c h : heads s !! c = Some h -> head_at c s = Done (h, s).
Proof. intros E. unfold head_at. now rewrite bind_get, E. Qed.

Lemma snapshot_eq c h n : heads s !! c = Some h -> pops s !! c = Some n -> snapshot c s = Done (mkSnap h n, s).
Proof. intros E1 E2. unfold snapshot. rewrite bind_get, E1. cbn [deref]. rewrite bind_ret_l, E2. reflexivity. Qed.

Lemma caches_some c : (c < 7)%nat -> exists l, caches th !! c = Some l.
Proof.
  intros Hc. destruct (thread_facts s ls I t th Et) as [Hl _]. destruct (caches th !! c) as [l|] eqn:E; [eauto|]. apply lookup_ge_None in E. lia.
Qed.

(** Cached blocks are real. *)
Lemma cached_all c l x : (c < 7)%nat -> caches th !! c = Some l -> x ∈ l -> blk (blockSize c) x ∈ all s ls.
Proof.
  intros Hc Hl Hx. unfold all, used. rewrite !elem_of_app. right. right. apply list_elem_of_bind. exists th. split; [|exact (list_elem_of_lookup_2 _ _ _ Et)].
  unfold held. rewrite elem_of_app. left. exact (elem_free _ _ _ _ _ _ (sizes_class c Hc) Hl Hx).
Qed.

Definition upd (p : pc) (l : list (list Z)) (s0 : state) : state := set_thread t (mkThread p l) s0.

(** A block leaves or enters the cache of the thread. *)
Lemma inv_cache p c l l' s0 : (c < 7)%nat -> caches th !! c = Some l -> place th <> Idle ->
  s0 = s \/ (exists b size, s0 = set_live ((b, size) :: live s) s /\ 0 < size) ->
  map block (live s0) ++ free sizes (<[c := l']> (caches th)) ++ hand p ≡ₚ map block (live s) ++ free sizes (caches th) ++ hand (place th) ->
  place_ok s ls (mkThread p (<[c := l']> (caches th))) -> (cleaning p = true -> cleaning (place th) = true) ->
  Inv (upd p (<[c := l']> (caches th)) s0) ls.
Proof.
  intros Hc Hl Hni Hs Hp Hok Hk. destruct (thread_facts s ls I t th Et) as [Hlen _].
  apply (inv_local s ls _ t th (mkThread p (<[c := l']> (caches th))) I Et); auto.
  1-4: destruct Hs as [->|(b & size & -> & _)]; reflexivity.
  - destruct Hs as [->|(b & size & -> & _)]; apply I.
  - destruct Hs as [->|(b & size & -> & _)]; reflexivity.
  - destruct Hs as [->|(b & size & -> & Hpos)]; [apply I|]. apply Forall_cons. split; [exact Hpos|apply I].
  - cbn [caches]. now rewrite length_insert.
Qed.

Lemma good_cached size c l l' x : (c < 7)%nat -> caches th !! c = Some l -> pop_back l = Some (l', x) -> place th <> Idle -> hand (place th) = [] ->
  0 < size <= max_size -> class_of size = c -> good (_ ← set_cache t c l'; hand_out t x size).
Proof.
  intros Hc Hl Hpop Hni Hh Hsize Hcl. apply pop_back_some in Hpop as ->. 
  assert (Hx : blk (blockSize c) x ∈ all s ls) by (apply (cached_all c _ x Hc Hl); rewrite elem_of_app; right; now left).
  destruct (all_user s ls I c x Hx) as (Hx0 & _). eapply good_done; [apply set_cache_hand_out; lia|].
  apply (inv_cache Idle c _ l' _ Hc Hl Hni); [right; exists x, size; split; [reflexivity|lia]| |exact Logic.I|discriminate].
  cbn [live set_live map hand]. destruct (block_class x size Hsize) as [_ ->]. rewrite Hcl, Hh, !app_nil_r.
  rewrite (cache_cons c (l' ++ [x]) l' x (caches th) Hc Hl) by solve_Permutation. solve_Permutation.
Qed.

Lemma good_malloc fresh n size : fresh_ok fresh (place th) s -> asked (place th) = Some n -> place th <> Idle -> hand (place th) = [] ->
  0 < n -> 0 < size -> block (fresh, size) = (fresh, n) -> good (_ ← malloc fresh n; hand_out t fresh size).
Proof.
  intros Hf Ha Hni Hh Hn Hs Hb. unfold malloc, hand_out. destruct (thread_facts s ls I t th Et) as [Hlen _].
  destruct (Z.eqb_spec fresh 0) as [->|Hne]; cbn [negb when].
  - eapply good_done; [exact (goto_eq Idle)|]. apply inv_goto0; [exact Hni|now rewrite Hh|exact Logic.I|discriminate].
  - destruct Hf as [->|[Hpos Hf]]; [contradiction|]. destruct (Hf n Ha) as [Hlow Hap].
    eapply good_done.
    { rewrite bind_modify, bind_modify. unfold goto, thread_at. rewrite bind_assoc, bind_get. cbn [threads set_live set_chunks]. rewrite Et. reflexivity. }
    apply (inv_malloc s ls _ t th (mkThread Idle (caches th)) fresh n size I Et Hni); try reflexivity; auto.
Qed.

Lemma good_idle fresh garbage spurious : place th = Idle -> good (exec fresh garbage spurious t).
Proof.
  intros E. apply (good_done _ s ls); [|exact I]. unfold exec. rewrite (bind_done _ _ _ _ _ thread_at_eq), E. reflexivity.
Qed.

Lemma good_alloc fresh garbage spurious size : place th = Alloc size -> fresh_ok fresh (place th) s -> good (exec fresh garbage spurious t).
Proof.
  intros E Hf. destruct (thread_facts s ls I t th Et) as [Hlen Hok]. unfold place_ok in Hok. rewrite E in Hok.
  apply good_at. cbv zeta. rewrite E. cbn [push_step pop_step allocate_step deallocate_step cleanup_step]. destruct (Z.ltb_spec max_size size) as [Hbig|Hsmall].
  - apply (good_malloc fresh size size Hf); rewrite ?E; try done; [cbn; now rewrite (proj2 (Z.ltb_lt _ _))|].
    unfold block. cbn [fst snd]. now rewrite (proj2 (Z.leb_gt _ _)) by lia.
  - assert (Ec : cassert (0 <? size) s = Done (tt, s)) by (apply cassert_true, Z.ltb_lt; lia). apply (good_bind _ _ tt Ec).
    destruct (block_class 0 size ltac:(lia)) as [Hc _]. destruct (sizeClass_correct size ltac:(change max_size with 4096 in Hsmall; lia)) as (c & Esc & Hc7 & _).
    assert (Hcl : class_of size = c) by (unfold class_of; now rewrite Esc). rewrite Esc. destruct (caches_some c Hc7) as [l Hl].
    apply (good_bind _ _ l (cache_at_eq c l Hl)). destruct (pop_back l) as [[l' x]|] eqn:Ep.
    + apply (good_cached size c l l' x Hc7 Hl Ep); rewrite ?E; auto; try done; lia.
    + eapply good_done; [apply goto_eq|]. apply inv_goto0; rewrite ?E; try done.
Qed.

Lemma good_take fresh garbage spurious size c : place th = Take size c -> fresh_ok fresh (place th) s -> good (exec fresh garbage spurious t).
Proof.
  intros E Hf. destruct (thread_facts s ls I t th Et) as [Hlen Hok]. unfold place_ok in Hok. rewrite E in Hok. destruct Hok as (Hs & Hcl & Hc).
  apply good_at. cbv zeta. rewrite E. cbn [push_step pop_step allocate_step deallocate_step cleanup_step]. destruct (caches_some c Hc) as [l Hl].
  apply (good_bind _ _ l (cache_at_eq c l Hl)). destruct (pop_back l) as [[l' x]|] eqn:Ep.
  - apply (good_cached size c l l' x Hc Hl Ep); rewrite ?E; auto; done.
  - pose proof (blockSize_ge c). apply (good_malloc fresh (blockSize c) size Hf); rewrite ?E; try done; try lia.
    destruct (block_class fresh size Hs) as [_ ->]. now rewrite Hcl.
Qed.

Lemma good_dealloc fresh garbage spurious p size : place th = Dealloc p size -> good (exec fresh garbage spurious t).
Proof.
  intros E. destruct (thread_facts s ls I t th Et) as [Hlen Hok]. unfold place_ok in Hok. rewrite E in Hok.
  apply good_at. cbv zeta. rewrite E. cbn [push_step pop_step allocate_step deallocate_step cleanup_step]. destruct (Z.ltb_spec max_size size) as [Hbig|Hsmall].
  - eapply good_done.
    { unfold free_. rewrite bind_modify. unfold goto, thread_at. rewrite bind_assoc, bind_get. cbn [threads set_chunks]. rewrite Et. reflexivity. }
    apply (inv_free s ls _ t th (mkThread Idle (caches th)) (p, size) I Et); rewrite ?E; try reflexivity; auto; try discriminate.
    unfold held. cbn [caches place hand]. rewrite E. cbn [hand]. unfold block. cbn [fst snd]. rewrite (proj2 (Z.leb_gt _ _)) by lia. solve_Permutation.
  - assert (Ec : cassert (0 <? size) s = Done (tt, s)) by (apply cassert_true, Z.ltb_lt; lia). apply (good_bind _ _ tt Ec).
    destruct (block_class p size ltac:(lia)) as [Hc7 Hb]. destruct (sizeClass_correct size ltac:(change max_size with 4096 in Hsmall; lia)) as (c & Esc & _).
    assert (Hcl : class_of size = c) by (unfold class_of; now rewrite Esc). rewrite Hcl in Hc7, Hb. rewrite Esc. destruct (caches_some c Hc7) as [l Hl].
    apply (good_bind _ _ l (cache_at_eq c l Hl)).
    assert (Hcc : forall k, hand k = [] -> free sizes (<[c := l ++ [p]]> (caches th)) ++ hand k ≡ₚ free sizes (caches th) ++ hand (place th)).
    { intros k ->. rewrite E. cbn [hand]. rewrite Hb, app_nil_r. pose proof (free_insert sizes (caches th) c _ l (l ++ [p]) (sizes_class c Hc7) Hl) as Hf.
      rewrite map_app in Hf. cbn [map] in Hf. apply (Permutation_app_inv_r (map (blk (blockSize c)) l)). rewrite Hf. solve_Permutation. }
    assert (Hlt : (c < length (caches th))%nat) by lia.
    cbv zeta. destruct (decide (kCacheCapacity * 2 <= length (l ++ [p]))%nat) as [Hcap|Hcap];
      [rewrite bool_decide_true by exact Hcap|rewrite bool_decide_false by exact Hcap].
    + eapply good_done; [apply set_cache_goto|]. apply (inv_cache _ c l (l ++ [p]) s Hc7 Hl); rewrite ?E; try discriminate; auto.
      * rewrite <-E. f_equiv. now apply Hcc.
      * split; [exact Hc7|]. exists (l ++ [p]). split; [now apply list_lookup_insert_eq|]. apply Nat.Div0.div_le_upper_bound. lia.
    + eapply good_done; [apply set_cache_goto|]. apply (inv_cache _ c l (l ++ [p]) s Hc7 Hl); rewrite ?E; try discriminate; auto; [|exact Logic.I].
      rewrite <-E. f_equiv. now apply Hcc.
Qed.

Lemma good_drain fresh garbage spurious c n : place th = Drain c n -> good (exec fresh garbage spurious t).
Proof.
  intros E. destruct (thread_facts s ls I t th Et) as [Hlen Hok]. unfold place_ok in Hok. rewrite E in Hok. destruct Hok as [Hc (l & Hl & Hn)].
  apply good_at. cbv zeta. rewrite E. cbn [push_step pop_step allocate_step deallocate_step cleanup_step]. destruct n as [|n].
  - eapply good_done; [apply goto_eq|]. apply inv_goto0; rewrite ?E; done.
  - apply (good_bind _ _ l (cache_at_eq c l Hl)). destruct (pop_back l) as [[l' x]|] eqn:Ep; [|apply pop_back_none in Ep as ->; cbn in Hn; lia].
    apply pop_back_some in Ep as ->. assert (Ed : @deref state _ (Some (l', x)) s = Done ((l', x), s)) by reflexivity. apply (good_bind _ _ _ Ed). cbn [fst snd].
    assert (Hlt : (c < length (caches th))%nat) by lia. rewrite length_app in Hn. cbn in Hn.
    eapply good_done; [apply set_cache_goto|]. apply (inv_cache _ c (l' ++ [x]) l' s Hc Hl); rewrite ?E; try discriminate; auto.
    + f_equiv. cbn [hand]. rewrite (cache_cons c (l' ++ [x]) l' x (caches th) Hc Hl) by solve_Permutation. solve_Permutation.
    + split; [exact Hc|]. exists l'. split; [now apply list_lookup_insert_eq|lia].
Qed.

Lemma good_push_load fresh garbage spurious c a n : place th = PushLoad c a n -> good (exec fresh garbage spurious t).
Proof.
  intros E. destruct (thread_facts s ls I t th Et) as [Hlen Hok]. unfold place_ok in Hok. rewrite E in Hok.
  apply good_at. cbv zeta. rewrite E. cbn [push_step pop_step allocate_step deallocate_step cleanup_step]. destruct (class_facts s ls I c (proj1 Hok)) as (h & m & l & Eh & _). apply (good_bind _ _ h (head_at_eq c h Eh)).
  eapply good_done; [apply goto_eq|]. apply inv_goto0; rewrite ?E; done.
Qed.

Lemma good_push_next fresh garbage spurious c a n old : place th = PushNext c a n old -> good (exec fresh garbage spurious t).
Proof.
  intros E. destruct (thread_facts s ls I t th Et) as [Hlen Hok]. unfold place_ok in Hok. rewrite E in Hok.
  apply good_at. cbv zeta. rewrite E. cbn [push_step pop_step allocate_step deallocate_step cleanup_step].
  assert (Hin : blk (blockSize c) a ∈ hand (place th)) by (rewrite E; now left).
  destruct (all_user s ls I c a (hand_all s ls t th _ Et Hin)) as (_ & _ & Hr).
  eapply good_done.
  { unfold write_next. rewrite bind_assoc, bind_get, Hr, bind_modify. unfold goto, thread_at. rewrite bind_assoc, bind_get. cbn [threads set_memory]. rewrite Et. reflexivity. }
  refine (inv_write s ls _ t th (mkThread (PushCas c a n old _) (caches th)) c a (ptr old) I Et _ Hin _ _ _ _ _ _ _ _ _ _ _); rewrite ?E; try reflexivity; try discriminate.
  split; [exact Hok|]. split; [apply lookup_insert_eq|reflexivity].
Qed.

Lemma cas_true c h new : heads s !! c = Some h -> cas_head false c h new s = Done (true, set_head c new s).
Proof. intros Eh. unfold cas_head. rewrite (bind_done _ _ _ _ _ (head_at_eq c h Eh)), Z.eqb_refl. reflexivity. Qed.

(** A compare-exchange that fails tells so and changes nothing. *)
Lemma cas_cases spurious c h old new : heads s !! c = Some h ->
  (h = old /\ cas_head spurious c old new s = Done (true, set_head c new s)) \/ cas_head spurious c old new s = Done (false, s).
Proof.
  intros Eh. unfold cas_head. rewrite (bind_done _ _ _ _ _ (head_at_eq c h Eh)). destruct (Z.eqb_spec h old) as [->|]; [|now right].
  destruct spurious; [now right|left]. split; [done|]. reflexivity.
Qed.

Lemma good_push_cas fresh garbage spurious c a n old new : place th = PushCas c a n old new -> good (exec fresh garbage spurious t).
Proof.
  intros E. destruct (thread_facts s ls I t th Et) as [Hlen Hok]. unfold place_ok in Hok. rewrite E in Hok. destruct Hok as ((Hc & Hn) & Hm & ->).
  apply good_at. cbv zeta. rewrite E. cbn [push_step pop_step allocate_step deallocate_step cleanup_step]. destruct (class_facts s ls I c Hc) as (h & m & l & Eh & Em & El & _).
  destruct (cas_cases spurious c h old (repack a (tag old)) Eh) as [[-> Ecas]|Ecas].
  - eapply good_done.
    { rewrite (bind_done _ _ _ _ _ Ecas). unfold goto, thread_at. rewrite bind_assoc, bind_get. cbn [threads set_head]. rewrite Et. reflexivity. }
    apply (inv_push s ls _ t th (mkThread (Drain c n) (caches th)) c old m a l I Et); rewrite ?E; try reflexivity; auto; try discriminate.
    + unfold held. rewrite E. cbn [hand caches place]. solve_Permutation.
    + now left.
    + intros x y. exact (conj Hc Hn).
  - apply (good_bind _ _ false Ecas). apply (good_bind _ _ h (head_at_eq c h Eh)). eapply good_done; [apply goto_eq|].
    apply inv_goto0; rewrite ?E; done.
Qed.

(** A fresh look at a head. *)
Lemma snapshot_facts c : (c < 7)%nat -> exists old, snapshot c s = Done (old, s) /\ snap_ok s ls c old.
Proof.
  intros Hc. destruct (class_facts s ls I c Hc) as (h & n & l & Eh & En & _). exists (mkSnap h n). split; [now apply snapshot_eq|].
  exact (snapshot_ok s ls I c h n Hc Eh En).
Qed.

Lemma good_pop_load fresh garbage spurious k c : place th = PopLoad k c -> good (exec fresh garbage spurious t).
Proof.
  intros E. destruct (thread_facts s ls I t th Et) as [Hlen Hok]. unfold place_ok in Hok. rewrite E in Hok. destruct Hok as (Hk & Hc).
  apply good_at. cbv zeta. rewrite E. cbn [push_step pop_step allocate_step deallocate_step cleanup_step]. destruct (snapshot_facts c Hc) as (old & Es & Hs). apply (good_bind _ _ _ Es).
  eapply good_done; [apply goto_eq|]. apply inv_goto0; rewrite ?E; done.
Qed.

Lemma good_pop_test fresh garbage spurious k c old : place th = PopTest k c old -> good (exec fresh garbage spurious t).
Proof.
  intros E. destruct (thread_facts s ls I t th Et) as [Hlen Hok]. unfold place_ok in Hok. rewrite E in Hok. destruct Hok as (Hk & Hc & Hs).
  apply good_at. cbv zeta. rewrite E. cbn [push_step pop_step allocate_step deallocate_step cleanup_step]. destruct (Z.eqb_spec (ptr (packed old)) 0) as [E0|Hne].
  - eapply good_done; [apply goto_eq|]. apply inv_goto0; rewrite ?E; done.
  - apply on_hp_good; rewrite ?E; try done. apply store_good. cbv. lia.
Qed.

Lemma good_pop_verify fresh garbage spurious k c old : place th = PopVerify k c old -> good (exec fresh garbage spurious t).
Proof.
  intros E. destruct (thread_facts s ls I t th Et) as [Hlen Hok]. unfold place_ok in Hok. rewrite E in Hok. destruct Hok as (Hk & Hc & Hs & Hne).
  apply good_at. cbv zeta. rewrite E. cbn [push_step pop_step allocate_step deallocate_step cleanup_step]. destruct (snapshot_facts c Hc) as (verify & Es & Hv). apply (good_bind _ _ _ Es).
  destruct (_ =? _); (eapply good_done; [apply goto_eq|]; apply inv_goto0; rewrite ?E; done).
Qed.

Lemma good_pop_next fresh garbage spurious k c old : place th = PopNext k c old -> good (exec fresh garbage spurious t).
Proof.
  intros E. destruct (thread_facts s ls I t th Et) as [Hlen Hok]. unfold place_ok in Hok. rewrite E in Hok. destruct Hok as (Hk & Hc & Hs & Hne).
  apply good_at. cbv zeta. rewrite E. cbn [push_step pop_step allocate_step deallocate_step cleanup_step]. pose proof Hs as (_ & _ & Hin & Hst). destruct (all_user s ls I c _ (Hin Hne)) as (_ & _ & Hr).
  assert (Er : read_next garbage (ptr (packed old)) s = Done (default garbage (memory s !! ptr (packed old)), s)) by (unfold read_next; now rewrite bind_get, Hr).
  apply (good_bind _ _ _ Er). eapply good_done; [apply goto_eq|]. apply inv_goto0; rewrite ?E; try done.
  split; [exact Hk|]. split; [exact Hc|]. split; [exact Hs|]. split; [exact Hne|]. intros n En Eat.
  destruct (Hst n En) as [_ Hls]. destruct (Hls Eat) as (pre & rest & El & Hhd). destruct rest as [|x rest]; [cbn in Hhd; congruence|]. cbn in Hhd. subst x.
  exists pre, rest. split; [exact El|]. f_equal. destruct (class_facts s ls I c Hc) as (h & n' & l & _ & _ & El' & Hch & _).
  rewrite El in El'. injection El' as <-. destruct (chain_mid _ _ _ _ _ Hch) as (q & -> & -> & _). reflexivity.
Qed.

Lemma good_pop_retry fresh garbage spurious k c old : place th = PopRetry k c old -> good (exec fresh garbage spurious t).
Proof.
  intros E. destruct (thread_facts s ls I t th Et) as [Hlen Hok]. unfold place_ok in Hok. rewrite E in Hok.
  apply good_at. cbv zeta. rewrite E. cbn [push_step pop_step allocate_step deallocate_step cleanup_step]. apply on_hp_good; rewrite ?E; try done. apply store_good. cbv. lia.
Qed.

Lemma good_pop_clear fresh garbage spurious k c a : place th = PopClear k c a -> good (exec fresh garbage spurious t).
Proof.
  intros E. destruct (thread_facts s ls I t th Et) as [Hlen Hok]. unfold place_ok in Hok. rewrite E in Hok. destruct Hok as (Hk & Hc & Hne).
  apply good_at. cbv zeta. rewrite E. cbn [push_step pop_step allocate_step deallocate_step cleanup_step]. apply on_hp_good; rewrite ?E; try done.
  - apply store_good. cbv. lia.
  - cbn [hand]. now rewrite (proj2 (Z.eqb_neq a 0) Hne).
Qed.

Lemma alter_some {A} (f : A -> A) (l : list A) i x : l !! i = Some x -> alter f i l = <[i := f x]> l.
Proof. revert i. induction l as [|y l IH]; intros [|i] E; try discriminate; cbn in *; [congruence|]. f_equal. exact (IH i E). Qed.

(** The exchange succeeds only when nothing was popped since the thread looked. *)
Lemma good_pop_cas fresh garbage spurious k c old new : place th = PopCas k c old new ->
  (forall n, pops s !! c = Some n -> (n - at_ old) mod 65536 = 0 -> n = at_ old) -> good (exec fresh garbage spurious t).
Proof.
  intros E Hpat. destruct (thread_facts s ls I t th Et) as [Hlen Hok]. unfold place_ok in Hok. rewrite E in Hok. destruct Hok as (Hk & Hc & Hs & Hne & Hnew).
  apply good_at. cbv zeta. rewrite E. cbn [push_step pop_step allocate_step deallocate_step cleanup_step]. destruct (class_facts s ls I c Hc) as (h & m & l & Eh & Em & El & Hch & Hw & Ht & Hu & Hin).
  destruct (cas_cases spurious c h (packed old) new Eh) as [[-> Ecas]|Ecas].
  - destruct Hs as (_ & Htag & _ & Hst). destruct (Hst m Em) as [Hat _]. specialize (Hpat m Em).
    assert (Eat : at_ old = m) by (symmetry; apply Hpat; rewrite Ht in Htag; Z.div_mod_to_equations; lia).
    destruct (Hnew m Em Eat) as (pre & rest & El' & ->). rewrite El in El'. injection El' as ->.
    assert (pre = []) as ->.
    { destruct pre as [|y pre]; [done|]. pose proof (class_nodup s ls c _ I Hc El) as Hnd. apply chain_hd in Hch. cbn in Hch. rewrite Hch in Hnd.
      cbn in Hnd. apply NoDup_cons in Hnd as [Hn _]. rewrite elem_of_app in Hn. destruct Hn. right. now left. }
    cbn [app] in *. set (a := ptr (packed old)) in *.
    cbn in Hch. destruct Hch as (_ & Ha & q & Hq & Hch).
    assert (Huq : user_address q).
    { destruct rest as [|b rest]; cbn in Hch; [rewrite Hch; unfold user_address; lia|]. destruct Hch as [-> _].
      apply (all_user s ls I c b), Hin. right. now left. }
    assert (Enew : repack (hd 0 rest) (tag (packed old) + 1) = q + ((m + 1) mod 65536) * 2 ^ 48).
    { rewrite <-(chain_hd _ _ _ Hch), Ht. rewrite repack_next by (unfold user_address in Huq; first [lia|apply Z.mod_pos_bound; lia]).
      now rewrite Zplus_mod_idemp_l. }
    eapply good_done.
    { rewrite (bind_done _ _ _ _ _ Ecas), bind_modify. unfold goto, thread_at. rewrite bind_assoc, bind_get. cbn [threads set_head count_pop]. rewrite Et. reflexivity. }
    refine (inv_pop s ls _ t th (mkThread (PopClear k c a) (caches th)) c (packed old) m a rest q I Et _ Hc Eh Em El eq_refl Hq _ _ _ _ _ _ _ _ _ _ _);
      rewrite ?E; try reflexivity; auto; try discriminate.
    + cbn. now rewrite Enew.
    + exact (alter_some _ _ _ m Em).
    + unfold held. rewrite E. cbn [hand caches place]. solve_Permutation.
    + intros x y. split; [exact Hk|]. split; [exact Hc|]. lia.
  - apply (good_bind _ _ false Ecas). destruct (snapshot_facts c Hc) as (old' & Es & Hs'). apply (good_bind _ _ _ Es).
    eapply good_done; [apply goto_eq|]. apply inv_goto0; rewrite ?E; done.
Qed.

Lemma good_popped fresh garbage spurious k c a : place th = Popped k c a -> good (exec fresh garbage spurious t).
Proof.
  intros E. destruct (thread_facts s ls I t th Et) as [Hlen Hok]. unfold place_ok in Hok. rewrite E in Hok. destruct Hok as (Hk & Hc).
  apply good_at. cbv zeta. rewrite E. cbn [push_step pop_step allocate_step deallocate_step cleanup_step]. assert (Hlt : (c < length (caches th))%nat) by lia.
  destruct k as [size i|]; destruct (Z.eqb_spec a 0) as [->|Hne].
  - eapply good_done; [apply goto_eq|]. destruct Hk. apply inv_goto0; rewrite ?E; try done.
  - destruct (caches_some c Hc) as [l Hl]. apply (good_bind _ _ l (cache_at_eq c l Hl)).
    assert (Hp : forall k', hand k' = [] -> map block (live s) ++ free sizes (<[c := l ++ [a]]> (caches th)) ++ hand k' ≡ₚ map block (live s) ++ free sizes (caches th) ++ hand (place th)).
    { intros k' ->. rewrite E. cbn [hand]. rewrite (proj2 (Z.eqb_neq a 0) Hne), app_nil_r. f_equiv.
      pose proof (free_insert sizes (caches th) c _ l (l ++ [a]) (sizes_class c Hc) Hl) as Hf. rewrite map_app in Hf. cbn [map] in Hf.
      apply (Permutation_app_inv_r (map (blk (blockSize c)) l)). rewrite Hf. solve_Permutation. }
    assert (Hgo : forall k', hand k' = [] -> cleaning k' = false -> place_ok s ls (mkThread k' (<[c := l ++ [a]]> (caches th))) ->
      good (_ ← set_cache t c (l ++ [a]); goto t k')).
    { intros k' Hh Hcl Hpl. eapply good_done; [apply set_cache_goto|]. apply (inv_cache k' c l (l ++ [a]) s Hc Hl); auto; [now rewrite E|congruence]. }
    destruct Hk as [Hs Hcl]. destruct i as [|[|i]]; apply Hgo; try done.
  - eapply good_done; [apply goto_eq|]. apply inv_goto0; rewrite ?E; done.
  - eapply good_done.
    { unfold free_. rewrite bind_modify. unfold goto, thread_at. rewrite bind_assoc, bind_get. cbn [threads set_chunks]. rewrite Et. reflexivity. }
    apply (inv_free s ls _ t th (mkThread (PopLoad KCleanup c) (caches th)) (a, blockSize c) I Et); rewrite ?E; try reflexivity; auto; try discriminate.
    + unfold held. rewrite E. cbn [hand caches place]. rewrite (proj2 (Z.eqb_neq a 0) Hne). unfold blk. solve_Permutation.
    + intros x. split; [exact Logic.I|exact Hc].
    + right. intros t' x Hne' Hx. refine (i_clean s ls I t t' th x Et _ Hne' Hx). now rewrite E.
Qed.

Lemma good_clean fresh garbage spurious c : place th = Clean c -> good (exec fresh garbage spurious t).
Proof.
  intros E. apply good_at. cbv zeta. rewrite E. cbn [push_step pop_step allocate_step deallocate_step cleanup_step]. case_bool_decide as Hc; (eapply good_done; [apply goto_eq|]; apply inv_goto0; rewrite ?E; try done).
Qed.

(** No step goes wrong. *)
Lemma exec_good fresh garbage spurious : fresh_ok fresh (place th) s -> no_wrap t s -> good (exec fresh garbage spurious t).
Proof.
  intros Hf Hpat. destruct (place th) as [|size|size c|p size|c n|c a n|c a n old|c a n old new|k c|k c old|k c old|k c old|k c old new|k c old|k c a|k c a|c] eqn:E.
  - now apply good_idle.
  - apply (good_alloc _ _ _ size E). now rewrite E.
  - apply (good_take _ _ _ size c E). now rewrite E.
  - exact (good_dealloc _ _ _ p size E).
  - exact (good_drain _ _ _ c n E).
  - exact (good_push_load _ _ _ c a n E).
  - exact (good_push_next _ _ _ c a n old E).
  - exact (good_push_cas _ _ _ c a n old new E).
  - exact (good_pop_load _ _ _ k c E).
  - exact (good_pop_test _ _ _ k c old E).
  - exact (good_pop_verify _ _ _ k c old E).
  - exact (good_pop_next _ _ _ k c old E).
  - apply (good_pop_cas _ _ _ k c old new E). intros n. exact (Hpat th k c old new n Et E).
  - exact (good_pop_retry _ _ _ k c old E).
  - exact (good_pop_clear _ _ _ k c a E).
  - exact (good_popped _ _ _ k c a E).
  - exact (good_clean _ _ _ c E).
Qed.
End Steps.

(** *** Reachable states *)

Lemma inv_new k : Inv (new k) (replicate 7 []).
Proof.
  constructor.
  - assert (E : used (new k) = []).
    { unfold used, new. cbn [live threads map app]. induction k as [|k IH]; [reflexivity|]. cbn. exact IH. }
    rewrite E. exact (minv_new sizes ∅).
  - intros c h H. apply lookup_replicate in H as [-> Hc]. exists 0. split; [|reflexivity]. cbn [new pops]. apply lookup_replicate. auto.
  - constructor.
  - constructor.
  - exact wf_new.
  - apply Forall_replicate. split; [reflexivity|exact Logic.I].
  - intros t t' th th' H1 H2. cbn in H1. apply lookup_replicate in H1 as [-> _]. discriminate.
Qed.

Lemma inv_start s ls t th p l : Inv s ls -> threads s !! t = Some th -> place th = Idle ->
  map block l ++ hand p ≡ₚ map block (live s) -> Forall (fun r => 0 < snd r) l -> place_ok s ls (mkThread p (caches th)) ->
  Forall (fun x => cleaning (place x) = false) (threads s) -> (cleaning p = true -> Forall (fun x => place x = Idle) (threads s)) ->
  Inv (set_thread t (mkThread p (caches th)) (set_live l s)) ls.
Proof.
  intros I Et E Hp Hl Hok Hb Hk. destruct (thread_facts s ls I t th Et) as [Hlen _].
  apply (inv_local s ls _ t th (mkThread p (caches th)) I Et); try reflexivity; auto; [apply I|].
  cbn [live set_live set_thread]. unfold held. cbn [caches place]. rewrite E. cbn [hand]. rewrite app_nil_r, <-Hp. solve_Permutation.
Qed.

Lemma lf_inv_step `{Build} s s' : (exists ls, Inv s ls) -> step s s' -> exists ls, Inv s' ls.
Proof.
  intros [ls I] Hst. destruct Hst as [t th fresh garbage spurious s s' Et Hf Hpat E|t th size s Et E Hs Hb|t th p size live' s Et E Hl Hb|t th s Et Hall|r m' s Hm Hr].
  - destruct (exec_good s ls I t th Et fresh garbage spurious Hf Hpat) as [(s1 & ls1 & E1 & I1)|[E1 _]]; [|congruence].
    rewrite E in E1. injection E1 as ->. eauto.
  - exists ls. replace s with (set_live (live s) s) at 2 by now destruct s.
    apply inv_start; auto; [cbn; now rewrite app_nil_r|apply I|discriminate].
  - pose proof (i_live _ _ I) as Hpos. rewrite Hl in Hpos. apply Forall_cons in Hpos as [Hsize Hpos].
    exists ls. apply inv_start; auto; [|discriminate]. rewrite Hl. cbn [hand map]. solve_Permutation.
  - exists ls. assert (Hidle : place th = Idle) by exact (Forall_lookup_1 _ _ _ _ Hall Et).
    replace s with (set_live (live s) s) at 2 by now destruct s.
    apply inv_start; auto; [cbn; now rewrite app_nil_r|apply I|exact Logic.I|].
    apply (Forall_impl _ _ _ Hall). now intros x ->.
  - exists ls. exact (inv_clobber s ls r m' I Hm Hr).
Qed.

Lemma lf_inv_reachable `{Build} k s : reachable k s -> exists ls, Inv s ls.
Proof.
  revert s. apply (rtc_ind_r (fun s => exists ls, Inv s ls)); [exists (replicate 7 []); apply inv_new|].
  intros s s' _ Hst IH. exact (lf_inv_step s s' IH Hst).
Qed.

(** C37: any number of threads allocate, free and write into what they hold, in any
    interleaving, with [cleanup] called only when nobody else is active; except that
    no [pop] exchanges the head after exactly a multiple of 65536 other pops of its
    list ([no_wrap]: the 16-bit version could not tell).  Then the pieces handed out
    are always apart from one another and inside memory obtained from [malloc] and
    not yet freed, and the next step of every thread is carried out: no link of a
    freed block is ever followed.  It fails only when all 128 hazard records are
    taken, and then with [abort]. *)
Theorem lfpool_safe `{Build} k s : reachable k s ->
  sep (live s) /\
  Forall (fun r => exists d, d ∈ chunks s /\ inside r d) (live s) /\
  (forall t th fresh garbage spurious, threads s !! t = Some th -> fresh_ok fresh (place th) s -> no_wrap t s ->
     (exists s', exec fresh garbage spurious t s = Done (tt, s')) \/
     (exec fresh garbage spurious t s = Fail Aborted /\ nextSlot_ (hp s) = 128)).
Proof.
  intros Hr. destruct (lf_inv_reachable k s Hr) as [ls I]. pose proof (i_live _ _ I) as Hpos. rewrite Forall_forall in Hpos. split_and!.
  - pose proof (minv_live_apart _ _ _ _ _ _ (i_minv _ _ I)) as Hs. unfold used in Hs. apply sep_app in Hs as (Hs & _).
    apply (sep_inside block); [|exact Hs]. intros r Hin. apply inside_block_of. auto.
  - apply Forall_forall. intros r Hin. destruct (all_placed s ls I (block r)) as (_ & _ & d & Hd & Hi).
    + unfold all, used. rewrite !elem_of_app. right. left. apply list_elem_of_fmap. eauto.
    + exists d. split; [exact Hd|]. exact (inside_trans _ _ _ (inside_block_of r (Hpos r Hin)) Hi).
  - intros t th fresh garbage spurious Et Hf Hpat. destruct (exec_good s ls I t th Et fresh garbage spurious Hf Hpat) as [(s' & ls' & E & _)|?]; eauto.
Qed.

(** *** Runs *)

Module Demo.
#[local] Existing Instance debug_build.

Definition no_wrapb (t : nat) (s : state) : bool :=
  match threads s !! t with
  | Some th => match place th with
      | PopCas _ c old _ => match pops s !! c with Some n => negb ((n - at_ old) mod 65536 =? 0) || (n =? at_ old) | None => true end
      | _ => true
      end
  | None => true
  end.

Lemma no_wrapb_spec t s : no_wrapb t s = true -> no_wrap t s.
Proof.
  intros Hb th k c old new n Et E En Hz. unfold no_wrapb in Hb. rewrite Et, E, En, Hz in Hb. now apply Z.eqb_eq.
Qed.

Definition fresh_okb (fresh : Z) (p : pc) (s : state) : bool :=
  (fresh =? 0) || (0 <? fresh) && match asked p with
    | Some n => (fresh + n <=? 2 ^ 47) && forallb (fun c => (fresh + n <=? fst c) || (fst c + snd c <=? fresh)) (chunks s)
    | None => true
    end.

Lemma fresh_okb_spec fresh p s : fresh_okb fresh p s = true -> fresh_ok fresh p s.
Proof.
  unfold fresh_okb, fresh_ok. intros [E|E]%orb_true_iff; [left; now apply Z.eqb_eq|right]. apply andb_true_iff in E as [E0 E]. split; [now apply Z.ltb_lt|].
  intros n En. rewrite En in E. apply andb_true_iff in E as [E1 E2]. split; [now apply Z.leb_le|]. apply Forall_forall. intros c Hc. rewrite forallb_forall in E2.
  specialize (E2 c ltac:(now apply list_elem_of_In)). apply orb_true_iff in E2. rewrite !Z.leb_le in E2. exact E2.
Qed.

(** [n] steps of thread [t], [malloc] answering [fresh]. *)
Fixpoint run (fresh : Z) (t n : nat) (s : state) : option state :=
  match n with
  | O => Some s
  | S n' =>
      th ← threads s !! t;
      if no_wrapb t s && fresh_okb fresh (place th) s then
        match exec fresh 0 false t s with Done (_, s') => run fresh t n' s' | Fail _ => None end
      else None
  end.

Lemma run_reachable k fresh t n s s' : run fresh t n s = Some s' -> reachable k s -> reachable k s'.
Proof.
  revert s. induction n as [|n IH]; intros s E Hr; cbn [run] in E; [now injection E as <-|].
  destruct (threads s !! t) as [th|] eqn:Et; [|discriminate]. cbn [mbind option_bind] in E.
  destruct (no_wrapb t s && fresh_okb fresh (place th) s) eqn:Eb; [|discriminate]. apply andb_true_iff in Eb as [Hp Hf].
  destruct (exec fresh 0 false t s) as [[[] s1]|] eqn:Ex; [|discriminate]. apply (IH s1 E). eapply rtc_r; [exact Hr|].
  apply (step_run t th fresh 0 false); [exact Et|now apply fresh_okb_spec|now apply no_wrapb_spec|exact Ex].
Qed.

(** A call of [allocate] by an idle thread. *)
Definition idle (s : state) : bool := forallb (fun th => match place th with Idle => true | _ => false end) (threads s).
Definition call (t : nat) (p : pc) (s : state) : option state :=
  th ← threads s !! t; if idle s then Some (set_thread t (mkThread p (caches th)) s) else None.
Definition allocate (fresh : Z) (t : nat) (size : Z) (s : state) : option state := s1 ← call t (Alloc size) s; run fresh t 5 s1.

Lemma allocate_reachable k fresh t size s s' : 0 < size -> allocate fresh t size s = Some s' -> reachable k s -> reachable k s'.
Proof.
  intros Hs E Hr. unfold allocate, call in E. destruct (threads s !! t) as [th|] eqn:Et; [|discriminate]. cbn [mbind option_bind] in E.
  destruct (idle s) eqn:Ei; [|discriminate]. apply (run_reachable k _ _ _ _ _ E). eapply rtc_r; [exact Hr|].
  unfold idle in Ei. rewrite forallb_forall in Ei.
  assert (Hall : Forall (fun x => place x = Idle) (threads s)).
  { apply Forall_forall. intros x Hx. specialize (Ei x ltac:(now apply list_elem_of_In)). now destruct (place x). }
  apply step_allocate; auto; [exact (Forall_lookup_1 _ _ _ _ Hall Et)|]. apply (Forall_impl _ _ _ Hall). now intros x ->.
Qed.

Definition s2 : state := default (new 2) (s1 ← allocate 4096 0 100 (new 2); allocate 16384 1 6000 s1).

Lemma s2_reachable : reachable 2 s2.
Proof.
  destruct (allocate 4096 0 100 (new 2)) as [s1|] eqn:E1; [|vm_compute in E1; discriminate].
  assert (E2 : allocate 16384 1 6000 s1 = Some s2).
  { unfold s2. rewrite E1. cbn [mbind option_bind]. destruct (allocate 16384 1 6000 s1) eqn:E2; [reflexivity|].
    exfalso. assert (H : match (s1 ← allocate 4096 0 100 (new 2); allocate 16384 1 6000 s1) with Some _ => True | None => False end) by (vm_compute; exact Logic.I).
    rewrite E1 in H. cbn [mbind option_bind] in H. now rewrite E2 in H. }
  refine (allocate_reachable 2 16384 1 6000 s1 s2 ltac:(lia) E2 _).
  refine (allocate_reachable 2 4096 0 100 (new 2) s1 ltac:(lia) E1 _). apply rtc_refl.
Qed.

Lemma lfpool_safe_witness : sep [(16384, 6000); (4096, 100)].
Proof.
  assert (E : live s2 = [(16384, 6000); (4096, 100)]) by (vm_compute; reflexivity).
  destruct (lfpool_safe 2 s2 s2_reachable) as (Hs & _). rewrite E in Hs. exact Hs.
Defined.

(** Thread 0 frees 32 blocks of 64 bytes, half of them to the shared list; thread
    1 then takes these sixteen and hands one out. *)
Definition free_all (s : state) : option state :=
  foldl (fun o p => s ← o; th ← threads s !! 0%nat; run 0 0 100 (set_thread 0 (mkThread (Dealloc p 64) (caches th)) s))
    (Some s) (map (fun i => 4096 + 64 * Z.of_nat i) (seq 0 32)).
Definition alloc_all (s : state) : option state :=
  foldl (fun o p => s ← o; allocate p 0 64 s) (Some s) (map (fun i => 4096 + 64 * Z.of_nat i) (seq 0 32)).
Definition exchanged : option state :=
  s ← alloc_all (new 2); s ← free_all (set_live [] s); s ← call 1 (Alloc 64) s; run 0 1 200 s.

Example blocks_change_threads :
  match exchanged with
  | Some s => pops s !! 0%nat = Some 16 /\ option_map (fun th => length (nth 0 (caches th) [])) (threads s !! 1%nat) = Some 15%nat /\ live s = [(6080, 64)]
  | None => False
  end.
Proof. vm_compute. auto. Qed.

Lemma sizeClass_correct_witness : exists c, sizeClass 100 = Some c /\ (c < 7)%nat.
Proof. destruct (sizeClass_correct 100) as (c & H1 & H2 & _); [lia|]. exists c. auto. Defined.
End Demo.
