(* ===== verification/MPMCQueue.v ===== *)
(** MPMCQueue: [base/MPMCQueue.h], the bounded queue of Vyukov.

    Any number of threads; each step is one atomic access of the code (a load, a
    compare-exchange, a store of a sequence number) or one access of the plain
    data of a cell.  Interleaving is sequentially consistent; the memory orders
    of the code are not modelled.  Positions are 64-bit and wrap; the theorems
    hold as long as fewer than 2^63 items have been enqueued. *)

From Stdlib Require Import ZArith Lia.
From S2P Require Import Prelude.

Local Open Scope Z_scope.

Section MPMCQueue.
Context {T : Type} (Capacity : Z).
Definition kMask : Z := Capacity - 1.

(** [Cell]; moving out of [data] leaves it unspecified. *)
Record Cell := mkCell { sequence : Z; data : option T }.

(** Where a thread is inside [enqueue] or [dequeue]. *)
Inductive pc :=
  | Idle
  | EnqLoad (item : T)                     (* about to load enqueuePos_ *)
  | EnqPos (item : T) (pos : Z)            (* about to load the cell's sequence *)
  | EnqSeq (item : T) (pos seq : Z)        (* about to act on diff *)
  | EnqWrite (item : T) (pos : Z)          (* claimed; about to write the data *)
  | EnqPublish (pos : Z)                   (* about to store pos + 1 *)
  | DeqLoad
  | DeqPos (pos : Z)
  | DeqSeq (pos seq : Z)
  | DeqRead (pos : Z)
  | DeqFree (pos : Z) (out : option T).    (* about to store pos + Capacity *)

(** What a call returned. *)
Inductive event :=
  | Enqueued | Full | Dequeued (ticket : Z) (out : option T) | Empty.

Record state := mkState {
  buffer_ : list Cell;
  enqueuePos_ : Z;
  dequeuePos_ : Z;
  pcs : nat -> pc;
  items : list T;                (* history: the item of each ticket, in order *)
  events : list (nat * event);   (* history: returns of the calls *)
}.
Implicit Types (s : state).

(** The constructor. *)
Definition new (garbage : option T) : state :=
  mkState (map (fun i => mkCell (Z.of_nat i) garbage) (seq 0 (Z.to_nat Capacity))) 0 0 (fun _ => Idle) [] [].

Definition goto (t : nat) (p : pc) s : state :=
  mkState (buffer_ s) (enqueuePos_ s) (dequeuePos_ s) (fun t' => if decide (t' = t) then p else pcs s t')
    (items s) (events s).
Definition set_cell (i : nat) (c : Cell) s : state :=
  mkState (<[i := c]> (buffer_ s)) (enqueuePos_ s) (dequeuePos_ s) (pcs s) (items s) (events s).
Definition set_enq (n : Z) (l : list T) s : state :=
  mkState (buffer_ s) n (dequeuePos_ s) (pcs s) l (events s).
Definition set_deq (n : Z) s : state :=
  mkState (buffer_ s) (enqueuePos_ s) n (pcs s) (items s) (events s).
Definition return_ (t : nat) (e : event) s : state :=
  mkState (buffer_ s) (enqueuePos_ s) (dequeuePos_ s) (fun t' => if decide (t' = t) then Idle else pcs s t')
    (items s) (events s ++ [(t, e)]).

(** [buffer_[pos & kMask]]. *)
Definition idx (pos : Z) : nat := Z.to_nat (Z.land pos kMask).
Definition cell (pos : Z) s : option Cell := buffer_ s !! idx pos.

(** The next step of thread [t]; [spurious]: a weak compare-exchange fails
    although the values agree.  [None]: the thread is idle (or indexes out of
    the array, which [kMask] excludes). *)
Definition exec (t : nat) (spurious : bool) s : option state :=
  match pcs s t with
  | Idle => None
  | EnqLoad x => Some (goto t (EnqPos x (enqueuePos_ s)) s)
  | EnqPos x pos => c ← cell pos s; Some (goto t (EnqSeq x pos (sequence c)) s)
  | EnqSeq x pos seq =>
      let diff := int64_of seq - int64_of pos in
      if diff =? 0 then
        if (enqueuePos_ s =? pos) && negb spurious
        then Some (goto t (EnqWrite x pos) (set_enq (wrap64 (pos + 1)) (items s ++ [x]) s))
        else Some (goto t (EnqPos x (enqueuePos_ s)) s)
      else if diff <? 0 then Some (return_ t Full s)
      else Some (goto t (EnqLoad x) s)
  | EnqWrite x pos =>
      c ← cell pos s; Some (goto t (EnqPublish pos) (set_cell (idx pos) (mkCell (sequence c) (Some x)) s))
  | EnqPublish pos =>
      c ← cell pos s;
      Some (return_ t Enqueued (set_cell (idx pos) (mkCell (wrap64 (pos + 1)) (data c)) s))
  | DeqLoad => Some (goto t (DeqPos (dequeuePos_ s)) s)
  | DeqPos pos => c ← cell pos s; Some (goto t (DeqSeq pos (sequence c)) s)
  | DeqSeq pos seq =>
      let diff := int64_of seq - int64_of (wrap64 (pos + 1)) in
      if diff =? 0 then
        if (dequeuePos_ s =? pos) && negb spurious
        then Some (goto t (DeqRead pos) (set_deq (wrap64 (pos + 1)) s))
        else Some (goto t (DeqPos (dequeuePos_ s)) s)
      else if diff <? 0 then Some (return_ t Empty s)
      else Some (goto t DeqLoad s)
  | DeqRead pos =>
      c ← cell pos s; Some (goto t (DeqFree pos (data c)) (set_cell (idx pos) (mkCell (sequence c) None) s))
  | DeqFree pos out =>
      c ← cell pos s;
      Some (return_ t (Dequeued pos out) (set_cell (idx pos) (mkCell (wrap64 (pos + Capacity)) (data c)) s))
  end.

(** [approximate_size] and [empty], when no other thread interferes. *)
Definition approximate_size s : Z :=
  if dequeuePos_ s <=? enqueuePos_ s then enqueuePos_ s - dequeuePos_ s else 0.
Definition empty s : bool := enqueuePos_ s <=? dequeuePos_ s.

Inductive step : state -> state -> Prop :=
  | step_exec t spurious s s' : exec t spurious s = Some s' -> step s s'
  | step_enqueue t x s : pcs s t = Idle -> step s (goto t (EnqLoad x) s)
  | step_dequeue t s : pcs s t = Idle -> step s (goto t DeqLoad s).

Definition reachable s : Prop := exists g, rtc step (new g) s.

(** ** Tickets and cells *)

Hypothesis Capacity_pow2 : exists n, 0 < n <= 62 /\ Capacity = 2 ^ n.

Lemma Capacity_ge2 : 2 <= Capacity.
Proof.
  destruct Capacity_pow2 as (n & [Hn _] & ->). change 2 with (2 ^ 1) at 1. apply Z.pow_le_mono_r; lia.
Qed.

Lemma land_mask pos : Z.land pos kMask = pos mod Capacity.
Proof.
  destruct Capacity_pow2 as (n & [Hn _] & E). unfold kMask. rewrite E.
  replace (2 ^ n - 1) with (Z.ones n) by (rewrite Z.ones_equiv; lia). now apply Z.land_ones; lia.
Qed.

Lemma idx_lt pos : (idx pos < Z.to_nat Capacity)%nat.
Proof.
  pose proof Capacity_ge2. unfold idx. rewrite land_mask.
  pose proof (Z.mod_pos_bound pos Capacity). lia.
Qed.

(** Tickets less than a round apart have different cells. *)
Lemma idx_inj k k' : idx k = idx k' -> k - Capacity < k' < k + Capacity -> k = k'.
Proof.
  pose proof Capacity_ge2 as Hc. unfold idx. rewrite !land_mask. intros E Hd.
  pose proof (Z.mod_pos_bound k Capacity ltac:(lia)). pose proof (Z.mod_pos_bound k' Capacity ltac:(lia)).
  assert (Em : k mod Capacity = k' mod Capacity) by lia.
  pose proof (Z.div_mod k Capacity ltac:(lia)). pose proof (Z.div_mod k' Capacity ltac:(lia)).
  assert (k / Capacity = k' / Capacity) by nia. lia.
Qed.

Lemma idx_round k : idx (k + Capacity) = idx k.
Proof.
  pose proof Capacity_ge2. unfold idx. rewrite !land_mask.
  replace (k + Capacity) with (k + 1 * Capacity) by lia. now rewrite Z.mod_add by lia.
Qed.

(** Neighbouring tickets have different cells. *)
Lemma idx_succ k : idx (k + 1) <> idx k.
Proof. pose proof Capacity_ge2. intros E. apply idx_inj in E; lia. Qed.

(** ** The invariant *)

(** The sequence number and the data in the cell of a ticket. *)
Definition sq s (k : Z) : Z := match cell k s with Some c => sequence c | None => -1 end.
Definition dt s (k : Z) : option T := match cell k s with Some c => data c | None => None end.
Definition item s (k : Z) : option T := items s !! Z.to_nat k.

(** The ticket whose cell a thread owns. *)
Definition holder (p : pc) : option Z :=
  match p with
  | EnqWrite _ k | EnqPublish k | DeqRead k | DeqFree k _ => Some k
  | _ => None
  end.
Definition holds s (k : Z) : Prop := exists t, holder (pcs s t) = Some k.

Definition pc_ok s (p : pc) : Prop :=
  let E := enqueuePos_ s in let D := dequeuePos_ s in
  match p with
  | EnqPos _ pos => 0 <= pos <= E
  | EnqSeq _ pos seq => 0 <= pos <= E /\ 0 <= seq <= 2 ^ 62 /\ (seq = pos -> pos = E -> sq s pos = pos)
  | EnqWrite x pos => D <= pos < E /\ sq s pos = pos /\ item s pos = Some x
  | EnqPublish pos => D <= pos < E /\ sq s pos = pos /\ dt s pos = item s pos
  | DeqPos pos => 0 <= pos <= D
  | DeqSeq pos seq => 0 <= pos <= D /\ 0 <= seq <= 2 ^ 62 /\ (seq = pos + 1 -> pos = D -> sq s pos = pos + 1)
  | DeqRead pos => E - Capacity <= pos < D /\ 0 <= pos /\ sq s pos = pos + 1 /\ dt s pos = item s pos
  | DeqFree pos out => E - Capacity <= pos < D /\ 0 <= pos /\ sq s pos = pos + 1 /\ out = item s pos
  | Idle | EnqLoad _ | DeqLoad => True
  end.

(** The tickets of the finished dequeues. *)
Definition ticket (e : nat * event) : option Z :=
  match snd e with Dequeued k _ => Some k | _ => None end.
Definition tickets s : list Z := omap ticket (events s).

Record QInv s : Prop := {
  q_len : length (buffer_ s) = Z.to_nat Capacity;
  q_pos : 0 <= dequeuePos_ s /\ dequeuePos_ s <= enqueuePos_ s <= dequeuePos_ s + Capacity;
  q_items : Z.of_nat (length (items s)) = enqueuePos_ s;
  q_stored k : dequeuePos_ s <= k < enqueuePos_ s ->
    (sq s k = k + 1 /\ dt s k = item s k) \/ (sq s k = k /\ holds s k);
  q_free k : enqueuePos_ s <= k < dequeuePos_ s + Capacity ->
    sq s k = k \/ (sq s k = k - Capacity + 1 /\ holds s (k - Capacity));
  q_pc t : pc_ok s (pcs s t);
  q_uniq t t' k : holder (pcs s t) = Some k -> holder (pcs s t') = Some k -> t = t';
  q_done t k o : (t, Dequeued k o) ∈ events s -> 0 <= k < dequeuePos_ s /\ o = item s k /\ ~ holds s k;
  q_once : NoDup (tickets s);
  q_all k : 0 <= k < dequeuePos_ s -> holds s k \/ k ∈ tickets s;
}.

(** Few enough items for positions not to wrap. *)
Definition small s : Prop := Z.of_nat (length (items s)) + Capacity < 2 ^ 62.

Lemma window s t k : QInv s -> holder (pcs s t) = Some k ->
  enqueuePos_ s - Capacity <= k < enqueuePos_ s /\ 0 <= k /\ (sq s k = k /\ dequeuePos_ s <= k \/ sq s k = k + 1 /\ k < dequeuePos_ s).
Proof.
  intros I Hh. pose proof (q_pc _ I t) as Hp. pose proof (q_pos _ I). destruct (pcs s t); cbn in Hh; simplify_eq; cbn in Hp; lia.
Qed.

Lemma holders_apart s t t' k k' : QInv s -> holder (pcs s t) = Some k -> holder (pcs s t') = Some k' ->
  idx k = idx k' -> k = k'.
Proof.
  intros I H1 H2 E. apply idx_inj; [exact E|].
  destruct (window s t k I H1) as [? _]. destruct (window s t' k' I H2) as [? _]. lia.
Qed.

(** Every cell belongs to one ticket of the current round. *)
Lemma round_ticket s pos : exists k, dequeuePos_ s <= k < dequeuePos_ s + Capacity /\ idx k = idx pos.
Proof.
  pose proof Capacity_ge2. exists (dequeuePos_ s + (pos - dequeuePos_ s) mod Capacity).
  pose proof (Z.mod_pos_bound (pos - dequeuePos_ s) Capacity ltac:(lia)). split; [lia|].
  unfold idx. rewrite !land_mask. f_equal. rewrite Zplus_mod_idemp_r. f_equal. lia.
Qed.

Lemma sq_idx s k k' : idx k = idx k' -> sq s k = sq s k'.
Proof. unfold sq, cell. now intros ->. Qed.

Lemma sq_range s pos : QInv s -> 0 <= sq s pos <= dequeuePos_ s + Capacity.
Proof.
  intros I. pose proof Capacity_ge2. destruct (round_ticket s pos) as (k & Hk & Ei).
  rewrite <-(sq_idx s _ _ Ei). pose proof (q_pos _ I).
  destruct (decide (k < enqueuePos_ s)).
  - destruct (q_stored _ I k) as [[-> _]|[-> _]]; lia.
  - destruct (q_free _ I k) as [->|[-> [t Ht]]]; [lia..|]. destruct (window s t _ I Ht) as (_ & ? & _). lia.
Qed.

Lemma cell_ok s pos : QInv s -> cell pos s = Some (mkCell (sq s pos) (dt s pos)).
Proof.
  intros I. unfold sq, dt, cell. destruct (buffer_ s !! idx pos) as [[]|] eqn:E; [reflexivity|].
  apply lookup_ge_None in E. rewrite (q_len _ I) in E. pose proof (idx_lt pos). lia.
Qed.

Lemma int64_small z : 0 <= z <= 2 ^ 62 + 1 -> int64_of z = z.
Proof. intros H. apply int64_of_small. unfold max_vector_size. change (2 ^ 62) with 4611686018427387904 in H. lia. Qed.

Lemma wrap_small z : 0 <= z <= 2 ^ 62 + 1 -> wrap64 z = z.
Proof. intros H. apply wrap64_small. unfold size_mod. change (2 ^ 62) with 4611686018427387904 in H. lia. Qed.

(** *** Steps that only move a thread *)

Lemma holds_goto t p s k : holder (pcs s t) = None -> holder p = None -> holds (goto t p s) k <-> holds s k.
Proof.
  intros H1 H2. unfold holds; cbn. split; intros [t' Ht']; exists t'.
  - case_decide; congruence.
  - case_decide; congruence.
Qed.

Lemma QInv_goto t p s : QInv s -> holder (pcs s t) = None -> holder p = None -> pc_ok s p -> QInv (goto t p s).
Proof.
  intros I H1 H2 Hp. constructor; try apply I.
  - intros k Hk. rewrite (holds_goto t p s k H1 H2). exact (q_stored _ I k Hk).
  - intros k Hk. rewrite (holds_goto t p s _ H1 H2). exact (q_free _ I k Hk).
  - intros t'. cbn. case_decide; [exact Hp|exact (q_pc _ I t')].
  - intros t1 t2 k. cbn. repeat case_decide; try congruence. apply (q_uniq _ I).
  - intros t' k o Hin. destruct (q_done _ I t' k o Hin) as (? & ? & Hn). split; [done|]. split; [done|].
    now rewrite (holds_goto t p s k H1 H2).
  - intros k Hk. rewrite (holds_goto t p s k H1 H2). exact (q_all _ I k Hk).
Qed.

(** Returning without a ticket. *)
Lemma QInv_return t e s : QInv s -> holder (pcs s t) = None -> (forall k o, e <> Dequeued k o) ->
  QInv (return_ t e s).
Proof.
  intros I H1 He. pose proof (QInv_goto t Idle s I H1 eq_refl Logic.I) as [].
  assert (Ht : tickets (return_ t e s) = tickets s).
  { unfold tickets; cbn. rewrite omap_app. destruct e; cbn; rewrite ?app_nil_r; try reflexivity. now destruct (He ticket0 out). }
  constructor; auto.
  - intros t' k o. cbn. rewrite elem_of_app, list_elem_of_singleton. intros [Hin|[= <- <-]]; [exact (q_done0 t' k o Hin)|].
    now destruct (He k o).
  - rewrite Ht. exact q_once0.
  - intros k Hk. rewrite Ht. exact (q_all0 k Hk).
Qed.

(** *** Steps of the owner of a cell *)

Lemma set_cell_lookup s k c j : QInv s ->
  cell j (set_cell (idx k) c s) = if decide (idx j = idx k) then Some c else cell j s.
Proof.
  intros I. unfold cell; cbn. case_decide as E.
  - rewrite E. apply list_lookup_insert_eq. rewrite (q_len _ I). apply idx_lt.
  - now rewrite list_lookup_insert_ne by congruence.
Qed.

Lemma sq_set s k c j : QInv s -> sq (set_cell (idx k) c s) j = if decide (idx j = idx k) then sequence c else sq s j.
Proof. intros I. unfold sq. rewrite (set_cell_lookup s k c j I). now case_decide. Qed.

Lemma dt_set s k c j : QInv s -> dt (set_cell (idx k) c s) j = if decide (idx j = idx k) then data c else dt s j.
Proof. intros I. unfold dt. rewrite (set_cell_lookup s k c j I). now case_decide. Qed.

(** Tickets that matter and share the owner's cell. *)
Lemma cell_frame s t k j : QInv s -> holder (pcs s t) = Some k ->
  enqueuePos_ s - Capacity <= j < dequeuePos_ s + Capacity -> idx j = idx k -> j = k \/ j = k + Capacity.
Proof.
  intros I Hh Hj E. destruct (window s t k I Hh) as (Hk & _). pose proof (q_pos _ I).
  destruct (decide (j < enqueuePos_ s)).
  - left. apply idx_inj; [exact E|lia].
  - right. apply idx_inj; [now rewrite idx_round|lia].
Qed.

(** What other threads rely on survives a change of the owner's cell. *)
Lemma pc_ok_cell s t k c t' : QInv s -> holder (pcs s t) = Some k -> t' <> t ->
  pc_ok (set_cell (idx k) c s) (pcs s t').
Proof.
  intros I Hh Hne. pose proof (q_pc _ I t') as Hp. destruct (window s t k I Hh) as (Hw & Hk0 & Hsq).
  assert (Hap : forall k', holder (pcs s t') = Some k' -> idx k' <> idx k).
  { intros k' Hh' E. pose proof (holders_apart s t' t k' k I Hh' Hh E) as ->. now apply Hne, (q_uniq _ I t' t k). }
  pose proof (q_pos _ I) as Hpos. pose proof Capacity_ge2.
  destruct (pcs s t') as [|x|x pos|x pos seq|x pos|pos| |pos|pos seq|pos|pos o] eqn:Epc; cbn in Hp |- *; auto;
    try (rewrite sq_set by exact I; rewrite ?dt_set by exact I; rewrite ?decide_False by (apply Hap; reflexivity); exact Hp).
  - destruct Hp as (? & ? & Hx). split; [done|]. split; [done|]. intros -> E. specialize (Hx eq_refl E).
    rewrite sq_set by exact I. rewrite decide_False; [exact Hx|]. intros Ei.
    rewrite (sq_idx s _ _ Ei) in Hx. assert (Hr : pos = k + Capacity); [|lia].
    apply idx_inj; [now rewrite idx_round|lia].
  - destruct Hp as (? & ? & Hx). split; [done|]. split; [done|]. intros E1 E. specialize (Hx E1 E).
    rewrite sq_set by exact I. rewrite decide_False; [exact Hx|]. intros Ei.
    rewrite (sq_idx s _ _ Ei) in Hx. destruct Hsq as [[Hs ?]|[Hs ?]]; [|lia].
    apply (idx_succ pos). rewrite Ei. f_equal. lia.
Qed.

(** The owner moves on and keeps its cell, writing or emptying the data. *)
Lemma holds_keep s t p k i c : holder (pcs s t) = holder p ->
  holds (goto t p (set_cell i c s)) k <-> holds s k.
Proof.
  intros Hh. unfold holds; cbn. split; intros [t' Ht']; exists t'.
  - case_decide; [subst t'; congruence|done].
  - case_decide; [subst t'; congruence|done].
Qed.

Lemma QInv_data s t k p d : QInv s -> holder (pcs s t) = Some k -> holder p = Some k ->
  pc_ok (set_cell (idx k) (mkCell (sq s k) d) s) p ->
  QInv (goto t p (set_cell (idx k) (mkCell (sq s k) d) s)).
Proof.
  intros I Hh Hp Hok. set (s1 := set_cell _ _ s) in *.
  assert (Hkeep : forall j, holds (goto t p s1) j <-> holds s j) by (intros j; apply holds_keep; congruence).
  assert (Hsq : forall j, sq s1 j = sq s j).
  { intros j. unfold s1. rewrite sq_set by exact I. case_decide as E; [cbn; symmetry; now apply sq_idx|done]. }
  constructor; try apply I.
  - cbn. rewrite length_insert. apply I.
  - intros j Hj. change (sq (goto t p s1) j) with (sq s1 j). change (dt (goto t p s1) j) with (dt s1 j).
    rewrite Hsq, (Hkeep j). change (item (goto t p s1) j) with (item s j).
    destruct (decide (idx j = idx k)) as [E|E].
    + pose proof (q_pos _ I). change (enqueuePos_ (goto t p s1)) with (enqueuePos_ s) in Hj.
      change (dequeuePos_ (goto t p s1)) with (dequeuePos_ s) in Hj.
      destruct (cell_frame s t k j I Hh) as [->| ->]; [lia|exact E| |destruct (window s t k I Hh); lia].
      right. destruct (window s t k I Hh) as (_ & _ & [[? _]|[_ ?]]); [|lia]. split; [done|now exists t].
    + unfold s1. rewrite dt_set by exact I. rewrite decide_False by exact E. exact (q_stored _ I j Hj).
  - intros j Hj. change (sq (goto t p s1) j) with (sq s1 j). rewrite Hsq, (Hkeep _). exact (q_free _ I j Hj).
  - intros t'. cbn. case_decide as E; [exact Hok|]. exact (pc_ok_cell s t k _ t' I Hh E).
  - intros t1 t2 j. cbn. repeat case_decide; subst; try congruence; intros H1 H2.
    + apply (q_uniq _ I _ _ k); congruence.
    + apply (q_uniq _ I _ _ k); congruence.
    + exact (q_uniq _ I _ _ _ H1 H2).
  - intros t' j o Hin. destruct (q_done _ I t' j o Hin) as (? & ? & Hn). split; [done|]. split; [done|].
    now rewrite Hkeep.
  - intros j Hj. rewrite Hkeep. exact (q_all _ I j Hj).
Qed.

(** The owner publishes or frees its cell and returns. *)
Lemma holds_release s t e k j i c : QInv s -> holder (pcs s t) = Some k ->
  holds (return_ t e (set_cell i c s)) j <-> holds s j /\ j <> k.
Proof.
  intros I Hh. unfold holds; cbn. split.
  - intros [t' Ht']. case_decide as E; [discriminate|]. split; [eauto|]. intros ->.
    apply E. exact (q_uniq _ I t' t k Ht' Hh).
  - intros [[t' Ht'] Hne]. exists t'. rewrite decide_False by congruence. exact Ht'.
Qed.

(** Facts common to both ways of giving the cell up. *)
Lemma QInv_release s t e k n : QInv s -> holder (pcs s t) = Some k ->
  let s1 := set_cell (idx k) (mkCell n (dt s k)) s in
  let s2 := return_ t e s1 in
  (n = k + 1 /\ dequeuePos_ s <= k /\ dt s k = item s k \/ n = k + Capacity /\ k < dequeuePos_ s) ->
  (forall t' j o, (t', Dequeued j o) ∈ events s2 -> 0 <= j < dequeuePos_ s /\ o = item s j /\ (~ holds s j \/ j = k)) ->
  NoDup (tickets s2) ->
  (forall j, 0 <= j < dequeuePos_ s -> holds s j -> j <> k \/ j ∈ tickets s2) ->
  (forall j, j ∈ tickets s -> j ∈ tickets s2) ->
  QInv s2.
Proof.
  intros I Hh s1 s2 Hn Hdone Hnd Hall Hmono. destruct (window s t k I Hh) as (Hw & Hk0 & Hsq). pose proof (q_pos _ I) as Hpos.
  pose proof Capacity_ge2 as Hc2.
  assert (Hrel : forall j, holds s2 j <-> holds s j /\ j <> k) by (intros j; now apply holds_release).
  constructor; try apply I.
  - cbn. rewrite length_insert. apply I.
  - intros j Hj. change (sq s2 j) with (sq s1 j). change (dt s2 j) with (dt s1 j). change (item s2 j) with (item s j).
    unfold s1. rewrite sq_set, dt_set by exact I. case_decide as E.
    + change (enqueuePos_ s2) with (enqueuePos_ s) in Hj. change (dequeuePos_ s2) with (dequeuePos_ s) in Hj.
      destruct (cell_frame s t k j I Hh) as [->| ->]; [lia|exact E| |lia].
      destruct Hn as [(-> & _ & Hd)|[_ ?]]; [left; auto|lia].
    + destruct (q_stored _ I j Hj) as [?|[? Hj']]; [now left|right]. split; [done|]. apply Hrel.
      split; [done|]. now intros ->.
  - intros j Hj. change (sq s2 j) with (sq s1 j). unfold s1. rewrite sq_set by exact I.
    change (enqueuePos_ s2) with (enqueuePos_ s) in Hj. change (dequeuePos_ s2) with (dequeuePos_ s) in Hj.
    case_decide as E; cbn.
    + destruct (cell_frame s t k j I Hh) as [->| ->]; [lia|exact E|lia|]. left. destruct Hn as [(? & ? & _)|[-> _]]; lia.
    + destruct (q_free _ I j Hj) as [?|[? Hj']]; [now left|right]. split; [done|]. apply Hrel. split; [done|].
      intros Ek. apply E. rewrite <-Ek. rewrite <-(idx_round (j - Capacity)). f_equal. lia.
  - intros t'. cbn. case_decide as E; [exact Logic.I|]. exact (pc_ok_cell s t k _ t' I Hh E).
  - intros t1 t2 j. cbn. do 2 (case_decide; [discriminate|]). apply (q_uniq _ I).
  - intros t' j o Hin. destruct (Hdone t' j o Hin) as (? & ? & Hx). split; [done|]. split; [done|].
    rewrite Hrel. tauto.
  - exact Hnd.
  - intros j Hj. rewrite Hrel. destruct (q_all _ I j Hj) as [Hx|Hx]; [|right; now apply Hmono].
    destruct (Hall j Hj Hx); auto.
Qed.
(** *** Claiming a ticket *)

Lemma holds_claim s s1 t p k j : pcs s1 = pcs s -> holder (pcs s t) = None -> holder p = Some k ->
  holds (goto t p s1) j <-> holds s j \/ j = k.
Proof.
  intros E Hn Hp. unfold holds; cbn. rewrite E. split.
  - intros [t' Ht']. case_decide; [right; congruence|left; eauto].
  - intros [[t' Ht']| ->].
    + exists t'. rewrite decide_False by congruence. exact Ht'.
    + exists t. now rewrite decide_True.
Qed.

Lemma uniq_claim s s1 t p k : QInv s -> pcs s1 = pcs s -> holder p = Some k -> ~ holds s k ->
  forall t1 t2 j, holder (pcs (goto t p s1) t1) = Some j -> holder (pcs (goto t p s1) t2) = Some j -> t1 = t2.
Proof.
  intros I E Hp Hk t1 t2 j. cbn. rewrite E. case_decide; case_decide; subst; try congruence; intros H1 H2.
  - destruct Hk. exists t2. congruence.
  - destruct Hk. exists t1. congruence.
  - exact (q_uniq _ I _ _ _ H1 H2).
Qed.

Lemma free_cell s : QInv s -> sq s (enqueuePos_ s) = enqueuePos_ s -> enqueuePos_ s < dequeuePos_ s + Capacity.
Proof.
  intros I Hs. pose proof (q_pos _ I) as Hpos. pose proof Capacity_ge2.
  destruct (decide (enqueuePos_ s = dequeuePos_ s + Capacity)) as [E|]; [|lia].
  assert (Ed : sq s (enqueuePos_ s) = sq s (dequeuePos_ s)) by (apply sq_idx; rewrite E; apply idx_round).
  destruct (q_stored _ I (dequeuePos_ s)) as [[? _]|[? _]]; lia.
Qed.

Lemma item_app s x k : QInv s -> 0 <= k < enqueuePos_ s -> (items s ++ [x]) !! Z.to_nat k = item s k.
Proof. intros I Hk. apply lookup_app_l. pose proof (q_items _ I). lia. Qed.

(** What the other threads rely on survives the claim. *)
Lemma pc_ok_enq s t t' x : QInv s -> sq s (enqueuePos_ s) = enqueuePos_ s -> t' <> t ->
  pc_ok (goto t (EnqWrite x (enqueuePos_ s)) (set_enq (enqueuePos_ s + 1) (items s ++ [x]) s)) (pcs s t').
Proof.
  intros I Hs Et. pose proof (q_pc _ I t') as Hp. pose proof (q_pos _ I) as Hpos. pose proof Capacity_ge2.
  set (s2 := goto _ _ _). set (E := enqueuePos_ s) in *.
  assert (Hit : forall k, 0 <= k < E -> item s2 k = item s k) by (intros k Hk; exact (item_app s x k I Hk)).
  assert (Hold : forall k, sq s k = k + 1 -> k <> E - Capacity).
  { intros k Hk ->. rewrite <-(sq_idx s E (E - Capacity)) in Hk; [lia|]. rewrite <-(idx_round (E - Capacity)). f_equal. lia. }
  unfold pc_ok in *. change (enqueuePos_ s2) with (E + 1). change (dequeuePos_ s2) with (dequeuePos_ s).
  fold E in Hp. change (sq s2) with (sq s). change (dt s2) with (dt s).
  destruct (pcs s t') as [|x'|x' pos|x' pos seq'|x' pos|pos| |pos|pos seq'|pos|pos o]; auto;
    try (rewrite Hit by lia); try (split_and!; (lia || apply Hp)).
  - destruct Hp as (? & ? & Hsq & ?). pose proof (Hold pos Hsq). split_and!; [lia..|done].
  - destruct Hp as (? & ? & Hsq & ?). pose proof (Hold pos Hsq). split_and!; [lia..|done].
Qed.

Lemma QInv_enq_claim s t x seq : QInv s -> pcs s t = EnqSeq x (enqueuePos_ s) seq -> 
  sq s (enqueuePos_ s) = enqueuePos_ s ->
  QInv (goto t (EnqWrite x (enqueuePos_ s)) (set_enq (enqueuePos_ s + 1) (items s ++ [x]) s)).
Proof.
  intros I Ht Hs. pose proof (free_cell s I Hs) as Hfree. pose proof (q_pos _ I) as Hpos. pose proof Capacity_ge2.
  set (E := enqueuePos_ s) in *. set (s2 := goto _ _ _).
  assert (Hrel : forall j, holds s2 j <-> holds s j \/ j = E) by (intros j; apply holds_claim; [reflexivity|now rewrite Ht|reflexivity]).
  assert (HnE : ~ holds s E) by (intros [t' Ht']; destruct (window s t' E I Ht'); lia).
  constructor; try apply I.
  - cbn. lia.
  - cbn. rewrite length_app. pose proof (q_items _ I). cbn. lia.
  - intros k Hk. cbn in Hk. rewrite Hrel. change (sq s2 k) with (sq s k). change (dt s2 k) with (dt s k).
    unfold item; cbn. destruct (decide (k = E)) as [->|]; [right; auto|].
    rewrite (item_app s x k I) by lia. destruct (q_stored _ I k) as [|[]]; [lia|auto..].
  - intros k Hk. cbn in Hk. rewrite Hrel. destruct (q_free _ I k) as [|[]]; [lia|auto..].
  - intros t'. cbn. case_decide as Et; cbn.
    + split; [lia|]. split; [exact Hs|]. unfold item; cbn.
      rewrite lookup_app_r by (pose proof (q_items _ I); lia). pose proof (q_items _ I).
      now replace (Z.to_nat E - length (items s))%nat with 0%nat by lia.
    + exact (pc_ok_enq s t t' x I Hs Et).
  - exact (uniq_claim s (set_enq (E + 1) (items s ++ [x]) s) t (EnqWrite x E) E I eq_refl eq_refl HnE).
  - intros t' k o Hin. destruct (q_done _ I t' k o Hin) as (Hk & -> & Hn). split; [done|].
    unfold item; cbn. rewrite (item_app s x k I) by lia. split; [done|]. rewrite Hrel. intros [?| ->]; [auto|lia].
  - intros k Hk. rewrite Hrel. destruct (q_all _ I k Hk); auto.
Qed.

Lemma filled_cell s : QInv s -> sq s (dequeuePos_ s) = dequeuePos_ s + 1 ->
  dequeuePos_ s < enqueuePos_ s /\ dt s (dequeuePos_ s) = item s (dequeuePos_ s).
Proof.
  intros I Hs. pose proof (q_pos _ I) as Hpos. pose proof Capacity_ge2.
  destruct (decide (dequeuePos_ s = enqueuePos_ s)) as [E|].
  { destruct (q_free _ I (dequeuePos_ s)) as [|[? _]]; lia. }
  split; [lia|]. destruct (q_stored _ I (dequeuePos_ s)) as [[]|[]]; [lia|done|lia].
Qed.

Lemma QInv_deq_claim s t seq : QInv s -> pcs s t = DeqSeq (dequeuePos_ s) seq ->
  sq s (dequeuePos_ s) = dequeuePos_ s + 1 ->
  QInv (goto t (DeqRead (dequeuePos_ s)) (set_deq (dequeuePos_ s + 1) s)).
Proof.
  intros I Ht Hs. destruct (filled_cell s I Hs) as [Hlt Hd]. pose proof (q_pos _ I) as Hpos. pose proof Capacity_ge2.
  set (D := dequeuePos_ s) in *. set (s2 := goto _ _ _).
  assert (Hrel : forall j, holds s2 j <-> holds s j \/ j = D) by (intros j; apply holds_claim; [reflexivity|now rewrite Ht|reflexivity]).
  assert (HnD : ~ holds s D) by (intros [t' Ht']; destruct (window s t' D I Ht'); lia).
  constructor; try apply I.
  - cbn. lia.
  - intros k Hk. cbn in Hk. rewrite Hrel. destruct (q_stored _ I k) as [|[]]; [lia|auto..].
  - intros k Hk. cbn in Hk. rewrite Hrel. change (sq s2 k) with (sq s k). destruct (decide (k = D + Capacity)) as [->|].
    + right. rewrite (sq_idx s _ D) by apply idx_round. split; [lia|right; lia].
    + destruct (q_free _ I k) as [|[]]; [lia|auto..].
  - intros t'. cbn. case_decide as Et; cbn.
    + split_and!; [lia..|exact Hs|exact Hd].
    + pose proof (q_pc _ I t') as Hp. unfold pc_ok in *; cbn. fold D in Hp.
      destruct (pcs s t') as [|x'|x' pos|x' pos seq'|x' pos|pos| |pos|pos seq'|pos|pos o]; auto; try lia;
        try (split_and!; (lia || apply Hp)).
      * split_and!; [|lia|apply Hp..]. destruct Hp as (? & Hsq & _). destruct (decide (pos = D)) as [->|]; [|lia]. 
        change (sq s2 D) with (sq s D) in Hsq. lia.
      * split_and!; [|lia|apply Hp..]. destruct Hp as (? & Hsq & _). destruct (decide (pos = D)) as [->|]; [|lia]. 
        change (sq s2 D) with (sq s D) in Hsq. lia.
  - exact (uniq_claim s (set_deq (D + 1) s) t (DeqRead D) D I eq_refl eq_refl HnD).
  - intros t' k o Hin. destruct (q_done _ I t' k o Hin) as (Hk & -> & Hn). split; [cbn; lia|]. split; [done|].
    rewrite Hrel. intros [?| ->]; [auto|lia].
  - intros k Hk. cbn in Hk. rewrite Hrel. destruct (decide (k = D)) as [->|]; [auto|].
    destruct (q_all _ I k) as [|]; [lia|auto..].
Qed.
(** *** Every step *)

Lemma small_sq s pos : QInv s -> small s -> 0 <= sq s pos <= 2 ^ 62.
Proof.
  intros I Hs. pose proof (sq_range s pos I). pose proof (q_pos _ I). pose proof (q_items _ I). unfold small in Hs. lia.
Qed.

Lemma enq_cell s t x pos p : QInv s -> pcs s t = EnqWrite x pos -> p = EnqPublish pos ->
  QInv (goto t p (set_cell (idx pos) (mkCell (sq s pos) (Some x)) s)).
Proof.
  intros I Et ->. pose proof (q_pc _ I t) as Hp. rewrite Et in Hp. destruct Hp as (? & Hs & Hi).
  apply (QInv_data s t pos); [exact I|now rewrite Et|reflexivity|]. cbn.
  rewrite sq_set, dt_set by exact I. rewrite !decide_True by reflexivity. split_and!; [lia..|exact Hs|]. symmetry. exact Hi.
Qed.

Lemma deq_cell s t pos : QInv s -> pcs s t = DeqRead pos ->
  QInv (goto t (DeqFree pos (dt s pos)) (set_cell (idx pos) (mkCell (sq s pos) None) s)).
Proof.
  intros I Et. pose proof (q_pc _ I t) as Hp. rewrite Et in Hp. destruct Hp as (? & ? & Hs & Hi).
  apply (QInv_data s t pos); [exact I|now rewrite Et|reflexivity|]. cbn.
  rewrite sq_set by exact I. rewrite decide_True by reflexivity. split_and!; [lia..|exact Hs|exact Hi].
Qed.

Lemma enq_publish s t pos : QInv s -> pcs s t = EnqPublish pos ->
  QInv (return_ t Enqueued (set_cell (idx pos) (mkCell (pos + 1) (dt s pos)) s)).
Proof.
  intros I Et. pose proof (q_pc _ I t) as Hp. rewrite Et in Hp. destruct Hp as (Hk & Hs & Hi).
  assert (Et2 : forall c, tickets (return_ t Enqueued (set_cell (idx pos) c s)) = tickets s).
  { intros c. unfold tickets; cbn. rewrite omap_app. apply app_nil_r. }
  apply QInv_release; [exact I|now rewrite Et|left; split_and!; [done|lia|done]|..].
  - intros t' j o. cbn. rewrite elem_of_app, list_elem_of_singleton. intros [Hin|[=]].
    destruct (q_done _ I t' j o Hin) as (? & ? & ?). auto.
  - rewrite Et2. apply I.
  - intros j Hj [t' Ht']. left. intros ->. lia.
  - intros j. now rewrite Et2.
Qed.

Lemma deq_free s t pos out : QInv s -> pcs s t = DeqFree pos out ->
  QInv (return_ t (Dequeued pos out) (set_cell (idx pos) (mkCell (pos + Capacity) (dt s pos)) s)).
Proof.
  intros I Et. pose proof (q_pc _ I t) as Hp. rewrite Et in Hp. destruct Hp as (Hk & Hk0 & Hs & Hi).
  assert (Et2 : forall c, tickets (return_ t (Dequeued pos out) (set_cell (idx pos) c s)) = tickets s ++ [pos]).
  { intros c. unfold tickets; cbn. rewrite omap_app. reflexivity. }
  apply QInv_release; [exact I|now rewrite Et|right; split; [done|lia]|..].
  - intros t' j o. cbn. rewrite elem_of_app, list_elem_of_singleton. intros [Hin|[= <- <- <-]].
    + destruct (q_done _ I t' j o Hin) as (? & ? & ?). auto.
    + split; [lia|]. auto.
  - rewrite Et2. apply NoDup_app. split; [apply I|]. split; [|apply NoDup_singleton].
    intros k Hin ->%list_elem_of_singleton. unfold tickets in Hin. apply list_elem_of_omap in Hin as ([t' e] & Hin & He).
    destruct e; cbn in He; simplify_eq. destruct (q_done _ I _ _ _ Hin) as (_ & _ & Hn).
    apply Hn. exists t. now rewrite Et.
  - intros j Hj _. rewrite Et2. destruct (decide (j = pos)) as [->|]; [right|now left]. rewrite elem_of_app, list_elem_of_singleton. auto.
  - intros j. rewrite Et2, elem_of_app. auto.
Qed.

Ltac simple_goto H := injection H as <-; apply QInv_goto; [assumption|now rewrite_pc|reflexivity|cbn]
with rewrite_pc := match goal with E : pcs _ _ = _ |- _ => rewrite E end.

Lemma QInv_exec s t sp s' : QInv s -> small s -> exec t sp s = Some s' -> QInv s'.
Proof.
  intros I Hs H. pose proof (q_pc _ I t) as Hp. pose proof (q_pos _ I) as Hpos. pose proof (q_items _ I) as Hit.
  unfold small in Hs. unfold exec in H.
  destruct (pcs s t) as [|x|x pos|x pos seq|x pos|pos| |pos|pos seq|pos|pos out] eqn:Et; cbn in Hp; [discriminate|..];
    try (rewrite cell_ok in H by exact I; cbn in H).
  - simple_goto H; lia.
  - simple_goto H. pose proof (small_sq s pos I Hs). split_and!; [lia..|]. intros; congruence.
  - destruct Hp as (Hr & Hsq & Hlive). rewrite !int64_small in H by lia. destruct (seq - pos =? 0) eqn:E0.
    + destruct ((enqueuePos_ s =? pos) && negb sp) eqn:Ecas; [|simple_goto H; lia].
      apply andb_true_iff in Ecas as [Ep%Z.eqb_eq _]. subst pos. rewrite wrap_small in H by lia. injection H as <-.
      apply (QInv_enq_claim s t x seq I Et). apply Hlive; [lia|reflexivity].
    + destruct (seq - pos <? 0); [|simple_goto H; auto]. injection H as <-. apply QInv_return; [exact I|now rewrite Et|discriminate].
  - injection H as <-. exact (enq_cell s t x pos _ I Et eq_refl).
  - rewrite wrap_small in H by lia. injection H as <-. exact (enq_publish s t pos I Et).
  - simple_goto H; lia.
  - simple_goto H. pose proof (small_sq s pos I Hs). split_and!; [lia..|]. intros; congruence.
  - destruct Hp as (Hr & Hsq & Hlive). rewrite wrap_small, !int64_small in H by lia. destruct (seq - (pos + 1) =? 0) eqn:E0.
    + destruct ((dequeuePos_ s =? pos) && negb sp) eqn:Ecas; [|simple_goto H; lia].
      apply andb_true_iff in Ecas as [Ep%Z.eqb_eq _]. subst pos. injection H as <-.
      apply (QInv_deq_claim s t seq I Et). apply Hlive; [lia|reflexivity].
    + destruct (seq - (pos + 1) <? 0); [|simple_goto H; auto]. injection H as <-. apply QInv_return; [exact I|now rewrite Et|discriminate].
  - injection H as <-. exact (deq_cell s t pos I Et).
  - rewrite wrap_small in H by lia. injection H as <-. exact (deq_free s t pos out I Et).
Qed.

Lemma QInv_step s s' : QInv s -> small s -> step s s' -> QInv s'.
Proof.
  intros I Hs Hst. destruct Hst as [t sp s s' H|t x s Et|t s Et].
  - exact (QInv_exec _ _ _ _ I Hs H).
  - apply QInv_goto; [exact I|now rewrite Et|reflexivity|exact Logic.I].
  - apply QInv_goto; [exact I|now rewrite Et|reflexivity|exact Logic.I].
Qed.

Lemma small_step s s' : step s s' -> small s' -> small s.
Proof.
  intros H. unfold small. enough (length (items s) <= length (items s'))%nat by lia.
  destruct H as [t sp s s' H| |]; [|cbn; lia..]. unfold exec in H.
  destruct (pcs s t); cbn in H; [discriminate|..];
    repeat (match type of H with context [cell ?p s] => destruct (cell p s); cbn in H; [|discriminate]
            | context [if ?b then _ else _] => destruct b end);
    injection H as <-; cbn; rewrite ?length_app; lia.
Qed.

Lemma QInv_new g : QInv (new g).
Proof.
  pose proof Capacity_ge2 as Hc. unfold new.
  assert (Hno : forall k, ~ holds (new g) k) by (intros k [t Ht]; discriminate).
  constructor; cbn; try done.
  - now rewrite length_map, length_seq.
  - lia.
  - lia.
  - intros k Hk. left. unfold sq, cell; cbn. unfold idx. rewrite land_mask, Z.mod_small by lia.
    rewrite list_lookup_fmap, lookup_seq_lt by lia. cbn. lia.
  - intros t k o Hin. set_solver.
  - constructor.
  - lia.
Qed.

Lemma QInv_reachable s : reachable s -> small s -> QInv s.
Proof.
  intros [g H]. revert s H. apply (rtc_ind_r (fun s => small s -> QInv s)); [intros _; apply QInv_new|].
  intros s s' _ Hstep IH Hs. pose proof (small_step _ _ Hstep Hs) as Hs0. exact (QInv_step _ _ (IH Hs0) Hs0 Hstep).
Qed.

(** ** What the queue promises *)

(** The item a finished call took out. *)
Definition taken (e : nat * event) : option T :=
  match snd e with Dequeued _ o => o | _ => None end.

Lemma taken_tickets s : QInv s -> map (item s) (tickets s) = map Some (omap taken (events s)).
Proof.
  intros I. assert (Hd : forall t k o, (t, Dequeued k o) ∈ events s -> exists y, o = Some y /\ item s k = Some y).
  { intros t k o Hin. destruct (q_done _ I t k o Hin) as (Hk & -> & _). pose proof (q_pos _ I). pose proof (q_items _ I).
    destruct (item s k) as [y|] eqn:E; [eauto|]. unfold item in E. apply lookup_ge_None in E. lia. }
  unfold tickets. induction (events s) as [|[t e] es IH]; [reflexivity|].
  assert (IH' := IH (fun t k o Hin => Hd t k o (list_elem_of_further _ _ _ Hin))).
  destruct e as [| |k o|]; cbn; [exact IH'..| |exact IH'].
  destruct (Hd t k o (list_elem_of_here _ _)) as (y & -> & Hy). cbn. now rewrite Hy, IH'.
Qed.

Lemma item_prefix s n : map (item s) (seqZ 0 n) = map Some (take (Z.to_nat n) (items s)) \/ Z.of_nat (length (items s)) < n.
Proof.
  destruct (decide (Z.of_nat (length (items s)) < n)); [now right|left].
  apply list_eq. intros i. rewrite !list_lookup_fmap. destruct (decide (i < Z.to_nat n)%nat).
  - rewrite lookup_seqZ_lt by lia. cbn. rewrite lookup_take_lt by lia. unfold item.
    replace (Z.to_nat (0 + Z.of_nat i)) with i by lia. destruct (items s !! i) eqn:E; [done|]. apply lookup_ge_None in E. lia.
  - rewrite lookup_seqZ_ge by lia. rewrite lookup_take_ge by lia. done.
Qed.

(** With no call in progress the returned items are the first ones put in. *)
Lemma quiet_taken s : QInv s -> (forall t, pcs s t = Idle) ->
  omap taken (events s) ≡ₚ take (Z.to_nat (dequeuePos_ s)) (items s).
Proof.
  intros I Hidle. assert (Hno : forall k, ~ holds s k) by (intros k [t Ht]; rewrite Hidle in Ht; discriminate).
  assert (Hp : tickets s ≡ₚ seqZ 0 (dequeuePos_ s)).
  { apply NoDup_Permutation; [apply I|apply NoDup_seqZ|]. intros k. rewrite elem_of_seqZ. split.
    - intros Hin. unfold tickets in Hin. apply list_elem_of_omap in Hin as ([t e] & Hin & He). destruct e; cbn in He; simplify_eq.
      destruct (q_done _ I _ _ _ Hin). lia.
    - intros Hk. destruct (q_all _ I k) as [Hx|]; [lia|now destruct (Hno k)|done]. }
  apply (Permutation_map (item s)) in Hp. rewrite (taken_tickets s I) in Hp.
  pose proof (q_pos _ I). pose proof (q_items _ I).
  destruct (item_prefix s (dequeuePos_ s)) as [E|]; [|lia]. rewrite E in Hp.
  apply Permutation_map_inv in Hp as (l & El & Hl). rewrite Hl. apply list_fmap_eq_inj in El; [now rewrite El|].
  intros ? ? [=]. done.
Qed.

(** ** The answers [false] *)

Lemma idx_diff k k' : idx k = idx k' -> exists m, k' = k + m * Capacity.
Proof.
  pose proof Capacity_ge2. unfold idx. rewrite !land_mask. intros E.
  pose proof (Z.mod_pos_bound k Capacity ltac:(lia)). pose proof (Z.mod_pos_bound k' Capacity ltac:(lia)).
  exists (k' / Capacity - k / Capacity). pose proof (Z.div_mod k Capacity). pose proof (Z.div_mod k' Capacity). lia.
Qed.

(** A cell behind the position of an enqueue: the queue is full or the slot is still being read. *)
Lemma behind_enq s pos : QInv s -> 0 <= pos <= enqueuePos_ s -> sq s pos < pos ->
  pos = enqueuePos_ s /\ (enqueuePos_ s = dequeuePos_ s + Capacity \/ holds s (pos - Capacity)).
Proof.
  intros I Hp Hs. pose proof (q_pos _ I). pose proof Capacity_ge2.
  destruct (round_ticket s pos) as (k & Hk & Ei). destruct (idx_diff _ _ Ei) as [m Em].
  rewrite <-(sq_idx s _ _ Ei) in Hs. assert (m <= 1) by nia.
  destruct (decide (m = 1)) as [->|]; [split; [lia|left; lia]|].
  destruct (decide (k < enqueuePos_ s)).
  - destruct (q_stored _ I k) as [[Hsk _]|[Hsk _]]; nia.
  - destruct (decide (m = 0)) as [->|].
    + replace pos with k in * by lia. destruct (q_free _ I k) as [|[_ Hh]]; [lia..|]. split; [lia|now right].
    + destruct (q_free _ I k) as [Hsk|[Hsk _]]; nia.
Qed.

(** A cell behind the position of a dequeue: the queue is empty or the slot is still being written. *)
Lemma behind_deq s pos : QInv s -> 0 <= pos <= dequeuePos_ s -> sq s pos < pos + 1 ->
  pos = dequeuePos_ s /\ (enqueuePos_ s = dequeuePos_ s \/ holds s pos).
Proof.
  intros I Hp Hs. pose proof (q_pos _ I). pose proof Capacity_ge2.
  destruct (round_ticket s pos) as (k & Hk & Ei). destruct (idx_diff _ _ Ei) as [m Em].
  rewrite <-(sq_idx s _ _ Ei) in Hs. assert (m <= 0) by nia.
  destruct (decide (m = 0)) as [->|].
  - replace pos with k in * by lia. destruct (decide (k < enqueuePos_ s)); [|split; [lia|left; lia]].
    destruct (q_stored _ I k) as [[]|[_ Hh]]; [lia..|]. split; [lia|now right].
  - destruct (decide (k < enqueuePos_ s)).
    + destruct (q_stored _ I k) as [[Hsk _]|[Hsk _]]; nia.
    + destruct (q_free _ I k) as [Hsk|[Hsk _]]; nia.
Qed.

(** C19: nothing is lost, duplicated or invented, whatever the interleaving: the
    tickets of the finished dequeues are distinct, each returned the item of
    its ticket, every ticket below [dequeuePos_] is finished or being read by a
    thread, and at most [Capacity] items are inside; when no call is in
    progress the items returned are, as a multiset, the first [dequeuePos_]
    items enqueued, and the cells hold the others in order. *)
Theorem mpmc_exactly_once s : reachable s -> small s ->
  NoDup (tickets s) /\
  (forall t k o, (t, Dequeued k o) ∈ events s -> 0 <= k < dequeuePos_ s /\ o = items s !! Z.to_nat k) /\
  (forall k, 0 <= k < dequeuePos_ s -> k ∈ tickets s \/ holds s k) /\
  Z.of_nat (length (items s)) = enqueuePos_ s /\
  dequeuePos_ s <= enqueuePos_ s <= dequeuePos_ s + Capacity /\
  ((forall t, pcs s t = Idle) ->
    omap taken (events s) ≡ₚ take (Z.to_nat (dequeuePos_ s)) (items s) /\
    (forall k, dequeuePos_ s <= k < enqueuePos_ s ->
       cell k s = Some (mkCell (k + 1) (items s !! Z.to_nat k))) /\
    approximate_size s = Z.of_nat (length (items s)) - dequeuePos_ s).
Proof.
  intros Hr Hs. pose proof (QInv_reachable s Hr Hs) as I. pose proof (q_pos _ I) as Hpos.
  split_and!; [apply I| |intros k Hk; destruct (q_all _ I k Hk); auto|apply I|apply Hpos|apply Hpos|].
  - intros t k o Hin. destruct (q_done _ I t k o Hin) as (? & ? & _). auto.
  - intros Hidle. split; [exact (quiet_taken s I Hidle)|]. split.
    + intros k Hk. rewrite (cell_ok s k I). destruct (q_stored _ I k Hk) as [[-> ->]|[_ [t Ht]]]; [done|].
      rewrite Hidle in Ht. discriminate.
    + unfold approximate_size. rewrite (q_items _ I). rewrite (proj2 (Z.leb_le _ _)) by apply Hpos. reflexivity.
Qed.

(** [enqueue] answers [false] only if, when it looked at the cell, the queue
    held [Capacity] items or the cell was still being read by a dequeue in
    progress; [dequeue] only if the queue was empty or the next item was still
    being written.  (So [false] does not mean full or empty when calls overlap.) *)
Theorem mpmc_false_answers s t c : reachable s -> small s ->
  (forall x pos, pcs s t = EnqPos x pos -> cell pos s = Some c -> int64_of (sequence c) - int64_of pos < 0 ->
     enqueuePos_ s - dequeuePos_ s = Capacity \/
     exists t', pcs s t' = DeqRead (enqueuePos_ s - Capacity) \/
       exists o, pcs s t' = DeqFree (enqueuePos_ s - Capacity) o) /\
  (forall pos, pcs s t = DeqPos pos -> cell pos s = Some c ->
     int64_of (sequence c) - int64_of (wrap64 (pos + 1)) < 0 ->
     enqueuePos_ s = dequeuePos_ s \/
     exists t', pcs s t' = EnqPublish (dequeuePos_ s) \/
       exists x, pcs s t' = EnqWrite x (dequeuePos_ s)).
Proof.
  intros Hr Hs. pose proof (QInv_reachable s Hr Hs) as I. pose proof (q_pos _ I) as Hpos. pose proof (q_pc _ I t) as Hp.
  pose proof (q_items _ I) as Hit. unfold small in Hs.
  split; [intros x pos Et Hc Hd|intros pos Et Hc Hd]; rewrite Et in Hp; cbn in Hp;
    rewrite (cell_ok s pos I) in Hc; injection Hc as <-; cbn in Hd; pose proof (small_sq s pos I Hs).
  - rewrite !int64_small in Hd by lia. destruct (behind_enq s pos I) as (-> & [?|[t' Ht']]); [lia..|left; lia|].
    destruct (decide (enqueuePos_ s - dequeuePos_ s = Capacity)) as [|Hne]; [now left|right].
    destruct (window s t' _ I Ht') as (_ & _ & Hw). exists t'. pose proof (q_pc _ I t') as Hp'.
    destruct (pcs s t'); cbn in Ht'; simplify_eq; cbn in Hp'; eauto; lia.
  - rewrite wrap_small, !int64_small in Hd by lia. destruct (behind_deq s pos I) as (-> & [?|[t' Ht']]); [lia..|auto|right].
    exists t'. pose proof (q_pc _ I t') as Hp'.
    destruct (pcs s t'); cbn in Ht'; simplify_eq; cbn in Hp'; eauto; lia.
Qed.
End MPMCQueue.

(** ** Concrete runs *)

Module Demo.
Inductive act := Go (t : nat) | Enq (t : nat) (x : nat) | Deq (t : nat).
Definition do (cap : Z) (a : act) (s : state) : option (@state nat) :=
  match a with
  | Go t => exec cap t false s
  | Enq t x => match pcs s t with Idle => Some (goto t (EnqLoad x) s) | _ => None end
  | Deq t => match pcs s t with Idle => Some (goto t DeqLoad s) | _ => None end
  end.
Fixpoint play (cap : Z) (l : list act) (s : state) : option (@state nat) :=
  match l with [] => Some s | a :: l' => do cap a s ≫= play cap l' end.

Lemma play_rtc cap l s s' : play cap l s = Some s' -> rtc (step cap) s s'.
Proof.
  revert s. induction l as [|a l IH]; cbn; intros s.
  - intros [= <-]. reflexivity.
  - destruct (do cap a s) as [s1|] eqn:E; [|discriminate]. cbn. intros H. apply rtc_l with s1; [|auto].
    destruct a as [t|t x|t]; cbn in E.
    + exact (step_exec cap t false s s1 E).
    + destruct (pcs s t) eqn:Et; try discriminate. injection E as <-. now apply step_enqueue.
    + destruct (pcs s t) eqn:Et; try discriminate. injection E as <-. now apply step_dequeue.
Qed.

(** Two producers interleave, then a consumer takes the first item. *)
Definition calls : list act :=
  [Enq 0 7; Enq 1 8; Go 0; Go 1; Go 0; Go 1; Go 0; Go 1; Go 1; Go 1; Go 1; Go 1; Go 0; Go 0;
   Deq 2; Go 2; Go 2; Go 2; Go 2; Go 2].
Definition final : state := default (new 2 None) (play 2 calls (new 2 None)).

Lemma pow2_2 : exists n, 0 < n <= 62 /\ 2 = 2 ^ n.
Proof. exists 1. split; [lia|reflexivity]. Qed.

Lemma mpmc_exactly_once_witness :
  (events final = [(1%nat, Enqueued); (0%nat, Enqueued); (2%nat, Dequeued 0 (Some 7%nat))] /\
   (forall t, pcs final t = Idle)) /\
  omap taken (events final) ≡ₚ take 1 [7%nat; 8%nat].
Proof.
  assert (Hi : forall t, pcs final t = Idle).
  { intros t. unfold final. destruct t as [|[|[|]]]; reflexivity. }
  split; [split; [reflexivity|exact Hi]|].
  assert (Hr : reachable 2 final) by (exists None; apply (play_rtc 2 calls); vm_compute; reflexivity).
  assert (Hsm : small 2 final) by reflexivity.
  exact (proj1 (proj2 (proj2 (proj2 (proj2 (proj2 (mpmc_exactly_once 2 pow2_2 final Hr Hsm))))) Hi)).
Defined.

(** Two claimed tickets whose items are not written yet: a dequeue answers
    [false] although the queue's counters say it holds an item. *)
Definition overlap : list act := [Enq 0 7; Go 0; Go 0; Go 0; Deq 2; Go 2].
Definition overlapped : state := default (new 2 None) (play 2 overlap (new 2 None)).

Lemma mpmc_false_answers_witness :
  pcs overlapped 2 = DeqPos 0 /\
  (enqueuePos_ overlapped = dequeuePos_ overlapped \/
   exists t', pcs overlapped t' = EnqPublish 0 \/ exists x, pcs overlapped t' = EnqWrite x 0).
Proof.
  split; [reflexivity|].
  assert (Hr : reachable 2 overlapped) by (exists None; apply (play_rtc 2 overlap); vm_compute; reflexivity).
  assert (Hsm : small 2 overlapped) by reflexivity.
  exact (proj2 (mpmc_false_answers 2 pow2_2 overlapped 2 (mkCell 0 None) Hr Hsm) 0 eq_refl eq_refl eq_refl).
Defined.

(** [Capacity = 1] passes the class's [static_assert], and there a second
    enqueue is accepted while the first item is still inside: the first is lost
    (every cell is both "filled" and "free in the next round"). *)
Example capacity_one_loses_items :
  (default (new 1 None) (play 1 [Enq 0 7; Go 0; Go 0; Go 0; Go 0; Go 0; Enq 0 8; Go 0; Go 0; Go 0; Go 0; Go 0]
     (new 1 None))).(events) = [(0%nat, Enqueued); (0%nat, Enqueued)].
Proof. reflexivity. Qed.
End Demo.
