(* ===== verification/MPMCQueueV2.v ===== *)
(** MPMCQueueV2: [base/MPMCQueueV2.h], the bounded queue with 128-bit positions
    and sequence numbers [{value, tag}].

    The same transition system as MPMCQueue with the code's own comparisons (the
    values are compared as unsigned numbers) and its own reload after a failed
    compare-and-swap, and the tags carried along as the code does.  The main
    theorem is a simulation by MPMCQueue, so everything proved there holds here. *)

From Stdlib Require Import ZArith Lia.
From S2P Require Import Prelude MPMCQueue.

Local Open Scope Z_scope.

Record DoubleWord := mkDW { value : Z; tag : Z }.
#[export] Instance DoubleWord_eq_dec : EqDecision DoubleWord.
Proof. solve_decision. Defined.

(** The 16 bytes of a [DoubleWord] as one number ([memcpy] to [__int128]). *)
Definition to_int128 (d : DoubleWord) : Z := value d + tag d * size_mod.
Definition of_int128 (z : Z) : DoubleWord := mkDW (z mod size_mod) (z / size_mod).

(** [__sync_val_compare_and_swap]: the new contents and the old value. *)
Definition sync_val_compare_and_swap (ptr exp des : Z) : Z * Z :=
  (if ptr =? exp then des else ptr, ptr).

(** [dwCAS] on the contents of [*target]: the new contents and the answer. *)
Definition dwCAS (target expected desired : DoubleWord) : DoubleWord * bool :=
  let '(new, old) := sync_val_compare_and_swap (to_int128 target) (to_int128 expected) (to_int128 desired) in
  (of_int128 new, bool_decide (of_int128 old = expected)).

Definition dw_ok (d : DoubleWord) : Prop := 0 <= value d < size_mod /\ 0 <= tag d < size_mod.

Lemma of_to_int128 d : dw_ok d -> of_int128 (to_int128 d) = d.
Proof.
  destruct d as [v t]. intros [Hv Ht]. unfold of_int128, to_int128; cbn in *.
  rewrite Z.mod_add, Z.mod_small, Z.div_add, Z.div_small by (lia || discriminate). reflexivity.
Qed.

Lemma dwCAS_spec target expected desired : dw_ok target -> dw_ok expected -> dw_ok desired ->
  dwCAS target expected desired = if decide (target = expected) then (desired, true) else (target, false).
Proof.
  intros Ht He Hd. unfold dwCAS, sync_val_compare_and_swap. rewrite (of_to_int128 target Ht).
  destruct (decide (target = expected)) as [->|Hn].
  - rewrite Z.eqb_refl, (of_to_int128 desired Hd). now rewrite bool_decide_true.
  - destruct (Z.eqb_spec (to_int128 target) (to_int128 expected)) as [E|_].
    + apply (f_equal of_int128) in E. rewrite !of_to_int128 in E by assumption. contradiction.
    + now rewrite (of_to_int128 target Ht), bool_decide_false.
Qed.

Section MPMCQueueV2.
Context {T : Type} (Capacity : Z).

Record Cell := mkCell { sequence : DoubleWord; data : option T }.

Inductive pc :=
  | Idle
  | EnqLoad (item : T)
  | EnqPos (item : T) (pos : DoubleWord)
  | EnqSeq (item : T) (pos seq : DoubleWord)
  | EnqWrite (item : T) (pos : DoubleWord)
  | EnqPublish (pos : DoubleWord)
  | DeqLoad
  | DeqPos (pos : DoubleWord)
  | DeqSeq (pos seq : DoubleWord)
  | DeqRead (pos : DoubleWord)
  | DeqFree (pos : DoubleWord) (out : option T).

Record state := mkState {
  buffer_ : list Cell;
  enqueuePos_ : DoubleWord;
  dequeuePos_ : DoubleWord;
  pcs : nat -> pc;
  items : list T;                          (* history, as in MPMCQueue *)
  events : list (nat * @MPMCQueue.event T);
}.
Implicit Types (s : state).

Definition new (garbage : option T) : state :=
  mkState (map (fun i => mkCell (mkDW (Z.of_nat i) 0) garbage) (seq 0 (Z.to_nat Capacity)))
    (mkDW 0 0) (mkDW 0 0) (fun _ => Idle) [] [].

Definition goto (t : nat) (p : pc) s : state :=
  mkState (buffer_ s) (enqueuePos_ s) (dequeuePos_ s) (fun t' => if decide (t' = t) then p else pcs s t')
    (items s) (events s).
Definition set_cell (i : nat) (c : Cell) s : state :=
  mkState (<[i := c]> (buffer_ s)) (enqueuePos_ s) (dequeuePos_ s) (pcs s) (items s) (events s).
Definition set_enq (n : DoubleWord) (l : list T) s : state :=
  mkState (buffer_ s) n (dequeuePos_ s) (pcs s) l (events s).
Definition set_deq (n : DoubleWord) s : state :=
  mkState (buffer_ s) (enqueuePos_ s) n (pcs s) (items s) (events s).
Definition return_ (t : nat) (e : MPMCQueue.event) s : state :=
  mkState (buffer_ s) (enqueuePos_ s) (dequeuePos_ s) (fun t' => if decide (t' = t) then Idle else pcs s t')
    (items s) (events s ++ [(t, e)]).

Definition cell (pos : DoubleWord) s : option Cell := buffer_ s !! MPMCQueue.idx Capacity (value pos).

(** The next step of thread [t]. *)
Definition exec (t : nat) s : option state :=
  match pcs s t with
  | Idle => None
  | EnqLoad x => Some (goto t (EnqPos x (enqueuePos_ s)) s)
  | EnqPos x pos => c ← cell pos s; Some (goto t (EnqSeq x pos (sequence c)) s)
  | EnqSeq x pos seq =>
      if value seq =? value pos then
        let next := mkDW (wrap64 (value pos + 1)) (tag pos) in
        let '(w, ok) := dwCAS (enqueuePos_ s) pos next in
        if ok then Some (goto t (EnqWrite x pos) (set_enq w (items s ++ [x]) s))
        else Some (goto t (EnqLoad x) (set_enq w (items s) s))
      else if value seq <? value pos then Some (return_ t MPMCQueue.Full s)
      else Some (goto t (EnqLoad x) s)
  | EnqWrite x pos =>
      c ← cell pos s;
      Some (goto t (EnqPublish pos) (set_cell (MPMCQueue.idx Capacity (value pos)) (mkCell (sequence c) (Some x)) s))
  | EnqPublish pos =>
      c ← cell pos s;
      let filled := mkDW (wrap64 (value pos + 1)) (tag pos) in
      Some (return_ t MPMCQueue.Enqueued (set_cell (MPMCQueue.idx Capacity (value pos)) (mkCell filled (data c)) s))
  | DeqLoad => Some (goto t (DeqPos (dequeuePos_ s)) s)
  | DeqPos pos => c ← cell pos s; Some (goto t (DeqSeq pos (sequence c)) s)
  | DeqSeq pos seq =>
      if value seq =? wrap64 (value pos + 1) then
        let next := mkDW (wrap64 (value pos + 1)) (tag pos) in
        let '(w, ok) := dwCAS (dequeuePos_ s) pos next in
        if ok then Some (goto t (DeqRead pos) (set_deq w s))
        else Some (goto t DeqLoad (set_deq w s))
      else if value seq <? wrap64 (value pos + 1) then Some (return_ t MPMCQueue.Empty s)
      else Some (goto t DeqLoad s)
  | DeqRead pos =>
      c ← cell pos s;
      Some (goto t (DeqFree pos (data c)) (set_cell (MPMCQueue.idx Capacity (value pos)) (mkCell (sequence c) None) s))
  | DeqFree pos out =>
      c ← cell pos s;
      let empty := mkDW (wrap64 (value pos + Capacity)) (wrap64 (tag pos + 1)) in
      Some (return_ t (MPMCQueue.Dequeued (value pos) out)
              (set_cell (MPMCQueue.idx Capacity (value pos)) (mkCell empty (data c)) s))
  end.

Definition approximate_size s : Z :=
  let e := enqueuePos_ s in let d := dequeuePos_ s in
  if value d <=? value e then value e - value d else 0.
Definition empty s : bool := value (enqueuePos_ s) <=? value (dequeuePos_ s).

Inductive step : state -> state -> Prop :=
  | step_exec t s s' : exec t s = Some s' -> step s s'
  | step_enqueue t x s : pcs s t = Idle -> step s (goto t (EnqLoad x) s)
  | step_dequeue t s : pcs s t = Idle -> step s (goto t DeqLoad s).

Definition reachable s : Prop := exists g, rtc step (new g) s.
Definition small s : Prop := Z.of_nat (length (items s)) + Capacity < 2 ^ 62.

(** ** The simulation *)

(** A thread that reloads after a failed swap corresponds to one of MPMCQueue
    whose compare-exchange is about to fail. *)
Inductive pc_sim : pc -> @MPMCQueue.pc T -> Prop :=
  | sim_idle : pc_sim Idle MPMCQueue.Idle
  | sim_enq_load x : pc_sim (EnqLoad x) (MPMCQueue.EnqLoad x)
  | sim_enq_reload x v : pc_sim (EnqLoad x) (MPMCQueue.EnqSeq x v v)
  | sim_enq_pos x v : pc_sim (EnqPos x (mkDW v 0)) (MPMCQueue.EnqPos x v)
  | sim_enq_seq x v q g : pc_sim (EnqSeq x (mkDW v 0) (mkDW q g)) (MPMCQueue.EnqSeq x v q)
  | sim_enq_write x v : pc_sim (EnqWrite x (mkDW v 0)) (MPMCQueue.EnqWrite x v)
  | sim_enq_publish v : pc_sim (EnqPublish (mkDW v 0)) (MPMCQueue.EnqPublish v)
  | sim_deq_load : pc_sim DeqLoad MPMCQueue.DeqLoad
  | sim_deq_reload v : pc_sim DeqLoad (MPMCQueue.DeqSeq v (v + 1))
  | sim_deq_pos v : pc_sim (DeqPos (mkDW v 0)) (MPMCQueue.DeqPos v)
  | sim_deq_seq v q g : pc_sim (DeqSeq (mkDW v 0) (mkDW q g)) (MPMCQueue.DeqSeq v q)
  | sim_deq_read v : pc_sim (DeqRead (mkDW v 0)) (MPMCQueue.DeqRead v)
  | sim_deq_free v o : pc_sim (DeqFree (mkDW v 0) o) (MPMCQueue.DeqFree v o).

Definition cell_sim (c : Cell) (c1 : @MPMCQueue.Cell T) : Prop :=
  c1 = MPMCQueue.mkCell (value (sequence c)) (data c) /\ (tag (sequence c) = 0 \/ tag (sequence c) = 1).

Record sim s (m : @MPMCQueue.state T) : Prop := {
  sim_buffer : Forall2 cell_sim (buffer_ s) (MPMCQueue.buffer_ m);
  sim_enq : enqueuePos_ s = mkDW (MPMCQueue.enqueuePos_ m) 0;
  sim_deq : dequeuePos_ s = mkDW (MPMCQueue.dequeuePos_ m) 0;
  sim_pcs t : pc_sim (pcs s t) (MPMCQueue.pcs m t);
  sim_items : items s = MPMCQueue.items m;
  sim_events : events s = MPMCQueue.events m;
}.

Lemma sim_new g : sim (new g) (MPMCQueue.new Capacity g).
Proof.
  constructor; cbn; try reflexivity; [|constructor].
  apply Forall2_fmap_2, Forall_Forall2_diag, Forall_forall. intros i _. split; [reflexivity|now left].
Qed.

Lemma sim_goto t p p1 s m : sim s m -> pc_sim p p1 -> sim (goto t p s) (MPMCQueue.goto t p1 m).
Proof. intros H Hp. constructor; try apply H. intros t'. cbn. case_decide; [exact Hp|apply H]. Qed.

(** Only this model moves; MPMCQueue waits. *)
Lemma sim_stutter t p s m : sim s m -> pc_sim p (MPMCQueue.pcs m t) -> sim (goto t p s) m.
Proof. intros H Hp. constructor; try apply H. intros t'. cbn. case_decide; [now subst|apply H]. Qed.

Lemma sim_return t e s m : sim s m -> sim (return_ t e s) (MPMCQueue.return_ t e m).
Proof.
  intros H. constructor; try apply H.
  - intros t'. cbn. case_decide; [constructor|apply H].
  - cbn. now rewrite (sim_events _ _ H).
Qed.

Lemma sim_set_cell i c c1 s m : sim s m -> cell_sim c c1 -> sim (set_cell i c s) (MPMCQueue.set_cell i c1 m).
Proof. intros H Hc. constructor; try apply H. cbn. apply Forall2_insert; [apply H|exact Hc]. Qed.

Lemma sim_set_enq v l s m : sim s m -> sim (set_enq (mkDW v 0) l s) (MPMCQueue.set_enq v l m).
Proof. intros H. constructor; try apply H; reflexivity. Qed.

Lemma sim_set_deq v s m : sim s m -> sim (set_deq (mkDW v 0) s) (MPMCQueue.set_deq v m).
Proof. intros H. constructor; try apply H; reflexivity. Qed.

Lemma sim_cell pos s m c : sim s m -> cell pos s = Some c ->
  MPMCQueue.cell Capacity (value pos) m = Some (MPMCQueue.mkCell (value (sequence c)) (data c)) /\
  cell_sim c (MPMCQueue.mkCell (value (sequence c)) (data c)).
Proof.
  intros H Hc. destruct (Forall2_lookup_l _ _ _ _ _ (sim_buffer _ _ H) Hc) as (c1 & Hc1 & [-> Ht]).
  split; [exact Hc1|split; [reflexivity|exact Ht]].
Qed.
(** *** Each step is matched *)

Lemma int64_diff0 v : int64_of v - int64_of v = 0.
Proof. lia. Qed.

Lemma int64_wrap v : int64_of (wrap64 v) = int64_of v.
Proof. unfold int64_of. now rewrite wrap64_idemp. Qed.

Lemma dwCAS_tag0 v pos w : 0 <= v < size_mod -> 0 <= pos < size_mod -> 0 <= w < size_mod ->
  dwCAS (mkDW v 0) (mkDW pos 0) (mkDW w 0) = if v =? pos then (mkDW w 0, true) else (mkDW v 0, false).
Proof.
  intros Hv Hp Hw. rewrite dwCAS_spec by (split; cbn; (lia || done)).
  destruct (Z.eqb_spec v pos) as [->|Hn]; [now rewrite decide_True|]. rewrite decide_False by congruence. reflexivity.
Qed.

Hypothesis Capacity_pow2 : exists n, 0 < n <= 62 /\ Capacity = 2 ^ n.

Definition matched s' m : Prop := exists m', rtc (MPMCQueue.step Capacity) m m' /\ sim s' m'.

Lemma matched_exec t sp s' m m' : MPMCQueue.exec Capacity t sp m = Some m' -> sim s' m' -> matched s' m.
Proof. intros E H. exists m'. split; [|exact H]. apply rtc_once. exact (MPMCQueue.step_exec Capacity t sp m m' E). Qed.

Lemma matched_stutter s' m : sim s' m -> matched s' m.
Proof. intros H. exists m. split; [reflexivity|exact H]. Qed.

Lemma sim_positions s m : sim s m -> MPMCQueue.QInv Capacity m -> small s ->
  0 <= MPMCQueue.dequeuePos_ m <= MPMCQueue.enqueuePos_ m /\ MPMCQueue.enqueuePos_ m + Capacity < 2 ^ 62 /\
  2 ^ 62 + 1 < size_mod /\ 2 <= Capacity.
Proof.
  intros H I Hs. pose proof (MPMCQueue.q_pos _ _ I). pose proof (MPMCQueue.q_items _ _ I) as Hi.
  unfold small in Hs. rewrite (sim_items _ _ H) in Hs. pose proof (MPMCQueue.Capacity_ge2 _ Capacity_pow2).
  split_and!; lia || reflexivity.
Qed.

(** The two decisions. *)
Lemma sim_enq_decide s m t x v q g s' : sim s m -> MPMCQueue.QInv Capacity m -> small s ->
  pcs s t = EnqSeq x (mkDW v 0) (mkDW q g) -> MPMCQueue.pcs m t = MPMCQueue.EnqSeq x v q ->
  exec t s = Some s' -> matched s' m.
Proof.
  intros H I Hs Et Em Hx. pose proof (sim_positions s m H I Hs) as (Hpos & Hsm & Hmod & Hc).
  pose proof (MPMCQueue.q_pc _ _ I t) as Hp. rewrite Em in Hp. destruct Hp as (Hv & Hq & _).
  unfold exec in Hx. rewrite Et in Hx. cbn [value tag] in Hx. rewrite (sim_enq _ _ H), MPMCQueue.wrap_small, dwCAS_tag0 in Hx by lia.
  destruct (Z.eqb_spec q v) as [->|Hne].
  - destruct (Z.eqb_spec (MPMCQueue.enqueuePos_ m) v) as [Ev|Hn]; injection Hx as <-.
    + eapply (matched_exec t false).
      * unfold MPMCQueue.exec. rewrite Em, int64_diff0, Ev. change (0 =? 0) with true. rewrite Z.eqb_refl. cbn [negb andb].
        rewrite MPMCQueue.wrap_small by lia. reflexivity.
      * rewrite (sim_items _ _ H). apply sim_goto; [|constructor]. now apply sim_set_enq.
    + apply matched_stutter, sim_stutter; [|rewrite Em; constructor].
      constructor; try apply H. reflexivity.
  - assert (Hd : int64_of q - int64_of v = q - v) by (rewrite !MPMCQueue.int64_small by lia; reflexivity).
    destruct (Z.ltb_spec q v) as [Hlt|Hge]; injection Hx as <-; eapply (matched_exec t false).
    1, 3: unfold MPMCQueue.exec; rewrite Em, Hd, (proj2 (Z.eqb_neq _ _)) by lia.
    + rewrite (proj2 (Z.ltb_lt _ _)) by lia. reflexivity.
    + rewrite (proj2 (Z.ltb_ge _ _)) by lia. reflexivity.
    + now apply sim_return.
    + apply sim_goto; [exact H|constructor].
Qed.

Lemma sim_deq_decide s m t v q g s' : sim s m -> MPMCQueue.QInv Capacity m -> small s ->
  pcs s t = DeqSeq (mkDW v 0) (mkDW q g) -> MPMCQueue.pcs m t = MPMCQueue.DeqSeq v q ->
  exec t s = Some s' -> matched s' m.
Proof.
  intros H I Hs Et Em Hx. pose proof (sim_positions s m H I Hs) as (Hpos & Hsm & Hmod & Hc).
  pose proof (MPMCQueue.q_pc _ _ I t) as Hp. rewrite Em in Hp. destruct Hp as (Hv & Hq & _).
  unfold exec in Hx. rewrite Et in Hx. cbn [value tag] in Hx. rewrite (sim_deq _ _ H), MPMCQueue.wrap_small, dwCAS_tag0 in Hx by lia.
  destruct (Z.eqb_spec q (v + 1)) as [->|Hne].
  - destruct (Z.eqb_spec (MPMCQueue.dequeuePos_ m) v) as [Ev|Hn]; injection Hx as <-.
    + eapply (matched_exec t false).
      * unfold MPMCQueue.exec. rewrite Em, int64_wrap, int64_diff0, Ev. change (0 =? 0) with true. rewrite Z.eqb_refl. cbn [negb andb].
        rewrite MPMCQueue.wrap_small by lia. reflexivity.
      * apply sim_goto; [|constructor]. now apply sim_set_deq.
    + apply matched_stutter, sim_stutter; [|rewrite Em; constructor].
      constructor; try apply H. reflexivity.
  - assert (Hd : int64_of q - int64_of (wrap64 (v + 1)) = q - (v + 1)).
    { rewrite int64_wrap, !MPMCQueue.int64_small by lia. reflexivity. }
    destruct (Z.ltb_spec q (v + 1)) as [Hlt|Hge]; injection Hx as <-; eapply (matched_exec t false).
    1, 3: unfold MPMCQueue.exec; rewrite Em, Hd, (proj2 (Z.eqb_neq _ _)) by lia.
    + rewrite (proj2 (Z.ltb_lt _ _)) by lia. reflexivity.
    + rewrite (proj2 (Z.ltb_ge _ _)) by lia. reflexivity.
    + now apply sim_return.
    + apply sim_goto; [exact H|constructor].
Qed.

Lemma sim_exec s m t s' : sim s m -> MPMCQueue.QInv Capacity m -> small s -> exec t s = Some s' -> matched s' m.
Proof.
  intros H I Hs Hx. pose proof (sim_pcs _ _ H t) as Hp. inversion Hp as
    [Es Em|x Es Em|x v Es Em|x v Es Em|x v q g Es Em|x v Es Em|v Es Em|Es Em|v Es Em|v Es Em|v q g Es Em|v Es Em|v o Es Em];
    symmetry in Es; symmetry in Em;
    try exact (sim_enq_decide s m t x v q g s' H I Hs Es Em Hx);
    try exact (sim_deq_decide s m t v q g s' H I Hs Es Em Hx);
    unfold exec in Hx; rewrite Es in Hx; try discriminate;
    try (destruct (cell _ s) as [c|] eqn:Ec; [|discriminate]; cbn in Hx;
         destruct (sim_cell _ s m c H Ec) as [Ec1 Hc1]; cbn in Ec1);
    injection Hx as <-.
  - apply (matched_exec t false _ _ (MPMCQueue.goto t (MPMCQueue.EnqPos x (MPMCQueue.enqueuePos_ m)) m)).
    + unfold MPMCQueue.exec. now rewrite Em.
    + apply sim_goto; [exact H|]. rewrite (sim_enq _ _ H). constructor.
  - apply (matched_exec t true _ _ (MPMCQueue.goto t (MPMCQueue.EnqPos x (MPMCQueue.enqueuePos_ m)) m)).
    + unfold MPMCQueue.exec. rewrite Em, int64_diff0. cbn. now rewrite andb_false_r.
    + apply sim_goto; [exact H|]. rewrite (sim_enq _ _ H). constructor.
  - eapply (matched_exec t false).
    + unfold MPMCQueue.exec. rewrite Em, Ec1. reflexivity.
    + apply sim_goto; [exact H|]. destruct (sequence c). constructor.
  - eapply (matched_exec t false).
    + unfold MPMCQueue.exec. rewrite Em, Ec1. reflexivity.
    + apply sim_goto; [|constructor]. apply sim_set_cell; [exact H|]. split; [reflexivity|apply Hc1].
  - eapply (matched_exec t false).
    + unfold MPMCQueue.exec. rewrite Em, Ec1. reflexivity.
    + apply sim_return, sim_set_cell; [exact H|]. split; [reflexivity|now left].
  - apply (matched_exec t false _ _ (MPMCQueue.goto t (MPMCQueue.DeqPos (MPMCQueue.dequeuePos_ m)) m)).
    + unfold MPMCQueue.exec. now rewrite Em.
    + apply sim_goto; [exact H|]. rewrite (sim_deq _ _ H). constructor.
  - apply (matched_exec t true _ _ (MPMCQueue.goto t (MPMCQueue.DeqPos (MPMCQueue.dequeuePos_ m)) m)).
    + unfold MPMCQueue.exec. rewrite Em, int64_wrap, int64_diff0. cbn. now rewrite andb_false_r.
    + apply sim_goto; [exact H|]. rewrite (sim_deq _ _ H). constructor.
  - eapply (matched_exec t false).
    + unfold MPMCQueue.exec. rewrite Em, Ec1. reflexivity.
    + apply sim_goto; [exact H|]. destruct (sequence c). constructor.
  - eapply (matched_exec t false).
    + unfold MPMCQueue.exec. rewrite Em, Ec1. reflexivity.
    + apply sim_goto; [|constructor]. apply sim_set_cell; [exact H|]. split; [reflexivity|apply Hc1].
  - eapply (matched_exec t false).
    + unfold MPMCQueue.exec. rewrite Em, Ec1. reflexivity.
    + apply sim_return, sim_set_cell; [exact H|]. split; [reflexivity|now right].
Qed.

Lemma sim_step s s' m : sim s m -> MPMCQueue.QInv Capacity m -> small s -> step s s' -> matched s' m.
Proof.
  intros H I Hs Hst. destruct Hst as [t s s' Hx|t x s Et|t s Et].
  - exact (sim_exec s m t s' H I Hs Hx).
  - pose proof (sim_pcs _ _ H t) as Hp. rewrite Et in Hp. assert (Em : MPMCQueue.pcs m t = MPMCQueue.Idle) by now inversion Hp.
    eexists. split; [apply rtc_once, MPMCQueue.step_enqueue; exact Em|]. apply sim_goto; [exact H|constructor].
  - pose proof (sim_pcs _ _ H t) as Hp. rewrite Et in Hp. assert (Em : MPMCQueue.pcs m t = MPMCQueue.Idle) by now inversion Hp.
    eexists. split; [apply rtc_once, MPMCQueue.step_dequeue; exact Em|]. apply sim_goto; [exact H|constructor].
Qed.

Lemma v2_small_step s s' : step s s' -> small s' -> small s.
Proof.
  intros H. unfold small. enough (length (items s) <= length (items s'))%nat by lia.
  destruct H as [t s s' H| |]; [|cbn; lia..]. unfold exec in H.
  destruct (pcs s t); cbn in H; [discriminate|..];
    repeat (match type of H with context [cell ?p s] => destruct (cell p s); cbn in H; [|discriminate]
            | context [dwCAS ?a ?b ?c] => destruct (dwCAS a b c) as [? []]
            | context [if ?b then _ else _] => destruct b end);
    injection H as <-; cbn; rewrite ?length_app; lia.
Qed.

(** C36: every run of MPMCQueueV2 is a run of MPMCQueue (with the same calls,
    answers, contents and positions), so the queue loses and duplicates nothing;
    and the version tags do no work: those of the positions are never changed,
    those of the cells are only ever 0 or 1. *)
Theorem mpmcv2_refines s : reachable s -> small s ->
  (exists m, MPMCQueue.reachable Capacity m /\ MPMCQueue.small Capacity m /\ events s = MPMCQueue.events m /\
     items s = MPMCQueue.items m /\
     map (fun c => MPMCQueue.mkCell (value (sequence c)) (data c)) (buffer_ s) = MPMCQueue.buffer_ m /\
     value (enqueuePos_ s) = MPMCQueue.enqueuePos_ m /\ value (dequeuePos_ s) = MPMCQueue.dequeuePos_ m /\
     (forall t, pcs s t = Idle -> MPMCQueue.pcs m t = MPMCQueue.Idle)) /\
  tag (enqueuePos_ s) = 0 /\ tag (dequeuePos_ s) = 0 /\
  Forall (fun c => tag (sequence c) = 0 \/ tag (sequence c) = 1) (buffer_ s).
Proof.
  intros [g H] Hs. assert (Hm : exists m, MPMCQueue.reachable Capacity m /\ sim s m).
  { revert s H Hs. apply (rtc_ind_r (fun s => small s -> exists m, MPMCQueue.reachable Capacity m /\ sim s m)).
    - intros _. exists (MPMCQueue.new Capacity g). split; [now exists g|apply sim_new].
    - intros s s' _ Hst IH Hs. pose proof (v2_small_step _ _ Hst Hs) as Hs0. destruct (IH Hs0) as (m & Hr & Hsim).
      assert (Hsm : MPMCQueue.small Capacity m) by (unfold MPMCQueue.small; rewrite <-(sim_items _ _ Hsim); exact Hs0).
      pose proof (MPMCQueue.QInv_reachable Capacity Capacity_pow2 m Hr Hsm) as I.
      destruct (sim_step s s' m Hsim I Hs0 Hst) as (m' & Hmm & Hsim'). exists m'. split; [|exact Hsim'].
      destruct Hr as [g' Hg]. exists g'. etrans; eassumption. }
  destruct Hm as (m & Hr & Hsim). split; [exists m; split_and!; try assumption|].
  - unfold MPMCQueue.small. rewrite <-(sim_items _ _ Hsim). exact Hs.
  - apply Hsim.
  - apply Hsim.
  - pose proof (sim_buffer _ _ Hsim) as Hb. induction Hb as [|c c1 l l1 [-> _] _ IH]; [reflexivity|]. cbn. now rewrite IH.
  - now rewrite (sim_enq _ _ Hsim).
  - now rewrite (sim_deq _ _ Hsim).
  - intros t Et. pose proof (sim_pcs _ _ Hsim t) as Hp. rewrite Et in Hp. now inversion Hp.
  - rewrite (sim_enq _ _ Hsim), (sim_deq _ _ Hsim). split_and!; [done..|].
    pose proof (sim_buffer _ _ Hsim) as Hb. apply (Forall2_Forall_l _ _ _ _ Hb). apply Forall_true. now intros c1 c [_ Ht].
Qed.
End MPMCQueueV2.

Module Demo.
(** An item is enqueued by thread 0 and taken by thread 1. *)
Inductive act := Go (t : nat) | Enq (t : nat) (x : nat) | Deq (t : nat).
Definition do (a : act) (s : state) : option (@state nat) :=
  match a with
  | Go t => exec 2 t s
  | Enq t x => match pcs s t with Idle => Some (goto t (EnqLoad x) s) | _ => None end
  | Deq t => match pcs s t with Idle => Some (goto t DeqLoad s) | _ => None end
  end.
Fixpoint play (l : list act) (s : state) : option (@state nat) :=
  match l with [] => Some s | a :: l' => do a s ≫= play l' end.

Lemma v2_play_rtc l s s' : play l s = Some s' -> rtc (step 2) s s'.
Proof.
  revert s. induction l as [|a l IH]; cbn; intros s.
  - intros [= <-]. reflexivity.
  - destruct (do a s) as [q|] eqn:E; [|discriminate]. cbn. intros H. apply rtc_l with q; [|auto].
    destruct a as [t|t x|t]; cbn in E.
    + exact (step_exec 2 t s q E).
    + destruct (pcs s t) eqn:Et; try discriminate. injection E as <-. now apply step_enqueue.
    + destruct (pcs s t) eqn:Et; try discriminate. injection E as <-. now apply step_dequeue.
Qed.

Definition calls : list act := [Enq 0 7; Go 0; Go 0; Go 0; Go 0; Go 0; Deq 1; Go 1; Go 1; Go 1; Go 1; Go 1].
Definition final : state := default (new 2 None) (play calls (new 2 None)).

Lemma mpmcv2_refines_witness :
  events final = [(0%nat, MPMCQueue.Enqueued); (1%nat, MPMCQueue.Dequeued 0 (Some 7%nat))] /\
  tag (enqueuePos_ final) = 0 /\
  Forall (fun c => tag (sequence c) = 0 \/ tag (sequence c) = 1) (buffer_ final).
Proof.
  split; [reflexivity|].
  assert (Hr : reachable 2 final) by (exists None; apply (v2_play_rtc calls); vm_compute; reflexivity).
  assert (Hsm : small 2 final) by reflexivity.
  assert (Hc : exists n, 0 < n <= 62 /\ 2 = 2 ^ n) by (exists 1; split; [lia|reflexivity]).
  destruct (mpmcv2_refines 2 Hc final Hr Hsm) as (_ & He & _ & Hf). split; [exact He|exact Hf].
Defined.
End Demo.
