(* ===== verification/Thread.v ===== *)
(** Thread: [base/Thread.h], [base/Thread.cc], the wrapper of [std::thread] with
    its started/joined flags, and the cached thread id of [CurrentThread]. *)

From Stdlib Require Import ZArith Lia.
From stdpp Require Import pretty.
From S2P Require Import Prelude.

Local Open Scope Z_scope.

(** [std::thread] behind [thread_]: absent, joinable, or joined/detached. *)
Inductive native := NoThread | Joinable | NotJoinable.

Record thread := mkThread {
  name_ : string;
  started_ : bool;
  joined_ : bool;
  thread_ : native;
}.
Definition new (name : string) : thread := mkThread name false false NoThread.

Definition set_started (t : thread) : thread := mkThread (name_ t) true (joined_ t) (thread_ t).
Definition set_joined (t : thread) : thread := mkThread (name_ t) (started_ t) true (thread_ t).
Definition set_thread (n : native) (t : thread) : thread := mkThread (name_ t) (started_ t) (joined_ t) n.

Section Thread.
Context `{Build}.

(** [~unique_ptr<std::thread>] and its assignment: destroying a joinable
    [std::thread] calls [std::terminate]. *)
Definition dispose (n : native) : ST thread unit :=
  match n with Joinable => fail Aborted | _ => mret tt end.

Definition start : ST thread unit :=
  t ← get; _ ← cassert (negb (started_ t));
  _ ← modify set_started;
  _ ← dispose (thread_ t);
  modify (set_thread Joinable).

(** [join] returns when the thread function has returned. *)
Definition join : ST thread unit :=
  t ← get; _ ← cassert (started_ t); _ ← cassert (negb (joined_ t));
  _ ← modify set_joined;
  match thread_ t with
  | NoThread => fail UndefinedBehaviour
  | Joinable => modify (set_thread NotJoinable)
  | NotJoinable => mret tt
  end.

Ltac run_thread :=
  unfold start, join, cassert, dispose, fail, modify, get, mbind, ST_bind, mret, ST_ret; cbn; intros;
  repeat (case_match; simplify_eq; try discriminate).

Lemma start_no_call t : start t <> Fail BadFunctionCall.
Proof. intros E. revert E. run_thread. Qed.

Lemma join_no_call t : join t <> Fail BadFunctionCall.
Proof. intros E. revert E. run_thread. Qed.

(** [~Thread], with the destruction of [thread_]. *)
Definition destroy : ST thread unit :=
  t ← get;
  _ ← when (started_ t && negb (joined_ t)) (
        match thread_ t with Joinable => modify (set_thread NotJoinable) | _ => mret tt end);
  t ← get; dispose (thread_ t).

(** [runInThread]: an exception of the function aborts the process. *)
Definition runInThread {S A} (func : ST S A) (threw : S -> bool) : ST S A :=
  r ← func; s ← get; _ ← when (threw s) (fail Aborted); mret r.
End Thread.

(** [CurrentThread]: the id is asked of the kernel once. *)
Record current := mkCurrent { t_cachedTid : Z; t_tidString : string; t_tidStringLength : Z; gettid_calls : nat }.
Definition unknown : current := mkCurrent 0 "" 6 0.

Section CurrentThread.
Context (gettid : Z).   (* detail::gettid() of this thread *)

Fixpoint pad (n : nat) (s : string) : string := match n with O => s | S n' => (" " +:+ pad n' s)%string end.
(** [snprintf("%5d ", tid)]. *)
Definition tid_text (tid : Z) : string :=
  let d := pretty tid in (pad (5 - String.length d) d +:+ " ")%string.

Definition cacheTid (c : current) : current :=
  if t_cachedTid c =? 0
  then mkCurrent gettid (String.substring 0 31 (tid_text gettid)) (Z.of_nat (String.length (tid_text gettid))) (S (gettid_calls c))
  else c.
Definition tid (c : current) : Z * current :=
  let c := if t_cachedTid c =? 0 then cacheTid c else c in (t_cachedTid c, c).
Definition isMainThread (getpid : Z) (c : current) : bool * current :=
  let '(t, c) := tid c in (t =? getpid, c).
End CurrentThread.

(** ** The life of a thread object *)

Inductive call := Start | Join.
Definition exec `{Build} (c : call) : ST thread unit := match c with Start => start | Join => join end.
Definition life `{Build} (cs : list call) : ST thread unit := _ ← for_each cs exec; destroy.

(** The calls that can precede the destructor, with the thread it leaves. *)
Definition legal (cs : list call) : option (bool * bool * native) :=
  match cs with
  | [] => Some (false, false, NoThread)
  | [Start] => Some (true, false, NotJoinable)
  | [Start; Join] => Some (true, true, NotJoinable)
  | _ => None
  end.

(** with assertions a [Thread] can only be created, started once and
    joined once, in this order: such a life ends without terminating the process
    (a thread still running is detached), and every other sequence of calls stops
    at an assertion, never in a null dereference or [std::terminate].  Without
    assertions neither holds: a restarted thread terminates the process in the
    destructor and a join before the start dereferences null. *)
Theorem thread_life name cs :
  life (H := debug_build) cs (new name) =
    match legal cs with
    | Some (st, jn, n) => Done (tt, mkThread name st jn n)
    | None => Fail AssertFailed
    end /\
  life (H := release_build) [Start; Join; Start] (new name) = Fail Aborted /\
  life (H := release_build) [Join] (new name) = Fail UndefinedBehaviour.
Proof.
  split; [|split; reflexivity].
  destruct cs as [|[] [|[] [|[] cs]]]; reflexivity.
Qed.

(** The id is asked for at most once, whatever is called afterwards. *)
Lemma tid_cached gettid c : gettid <> 0 -> t_cachedTid c = 0 \/ t_cachedTid c = gettid ->
  tid gettid c = (gettid, snd (tid gettid c)) /\ tid gettid (snd (tid gettid c)) = (gettid, snd (tid gettid c)).
Proof.
  intros Hg Hc. unfold tid, cacheTid. destruct (Z.eqb_spec (t_cachedTid c) 0) as [E|E]; cbn.
  - rewrite (proj2 (Z.eqb_neq _ _) Hg). auto.
  - rewrite (proj2 (Z.eqb_neq _ _) E). destruct Hc as [|Hc]; [contradiction|]. rewrite Hc. auto.
Qed.
