(* ===== verification/LockFreeThreadPool.v ===== *)
(** LockFreeThreadPool: [base/LockFreeThreadPool.h], workers fed through an
    MPMCQueue, with two counting semaphores.

    Threads [0 .. numThreads_ - 1] are the workers, the others clients; a step is
    one shared access of the pool's own code or one step of the queue. *)

From Stdlib Require Import ZArith Lia.
From stdpp Require Import pretty.
From S2P Require Import Prelude MPMCQueue Thread.

Local Open Scope Z_scope.

Section LockFreeThreadPool.
Context `{Build} {Task : Type} (Capacity : Z).

Inductive lpc :=
  | LIdle
  | RunTest (task : Task)                (* run: if (!running_) *)
  | RunEmpty (task : Task)               (* threads_.empty() *)
  | RunAcquire (task : Task)             (* slotsSem_.acquire() *)
  | RunTest2 (task : Task)
  | RunEnqueue                           (* inside queue_.enqueue *)
  | RunRelease                           (* itemsSem_.release() *)
  | WorkTest                             (* runInThread: while (running_) *)
  | WorkAcquire                          (* itemsSem_.acquire() *)
  | WorkTest2
  | WorkDequeue                          (* inside queue_.dequeue *)
  | WorkRelease (k : Z) (task : Task)    (* slotsSem_.release() *)
  | WorkRun (k : Z) (task : Task)        (* task() *)
  | WorkDone                             (* the thread function has returned *)
  | StartTest
  | StartLoop (i : nat)
  | StopTest
  | StopRelease (i : nat)
  | StopJoin (i : nat).

Record pool := mkPool {
  name_ : string;
  running_ : bool;
  numThreads_ : nat;
  queue_ : @MPMCQueue.state Task;
  slotsSem_ : Z;
  itemsSem_ : Z;
  threads_ : list thread;
  lpcs : nat -> lpc;
  ran : list (Z * Task);                 (* history: tasks run by workers, with their tickets *)
  inline : list Task;                    (* history: tasks run by the caller *)
  answers : list (nat * bool);           (* history: returns of run *)
}.
Implicit Types (s : pool).

Definition new (name : string) : pool :=
  mkPool name false 0 (MPMCQueue.new Capacity None) Capacity 0 [] (fun _ => LIdle) [] [] [].

Definition goto (t : nat) (p : lpc) s : pool :=
  mkPool (name_ s) (running_ s) (numThreads_ s) (queue_ s) (slotsSem_ s) (itemsSem_ s) (threads_ s)
    (fun t' => if decide (t' = t) then p else lpcs s t') (ran s) (inline s) (answers s).
Definition set_queue (q : MPMCQueue.state) s : pool :=
  mkPool (name_ s) (running_ s) (numThreads_ s) q (slotsSem_ s) (itemsSem_ s) (threads_ s) (lpcs s) (ran s) (inline s) (answers s).
Definition set_running (b : bool) s : pool :=
  mkPool (name_ s) b (numThreads_ s) (queue_ s) (slotsSem_ s) (itemsSem_ s) (threads_ s) (lpcs s) (ran s) (inline s) (answers s).
Definition add_slots (n : Z) s : pool :=
  mkPool (name_ s) (running_ s) (numThreads_ s) (queue_ s) (slotsSem_ s + n) (itemsSem_ s) (threads_ s) (lpcs s) (ran s) (inline s) (answers s).
Definition add_items (n : Z) s : pool :=
  mkPool (name_ s) (running_ s) (numThreads_ s) (queue_ s) (slotsSem_ s) (itemsSem_ s + n) (threads_ s) (lpcs s) (ran s) (inline s) (answers s).
Definition set_threads (l : list thread) s : pool :=
  mkPool (name_ s) (running_ s) (numThreads_ s) (queue_ s) (slotsSem_ s) (itemsSem_ s) l (lpcs s) (ran s) (inline s) (answers s).
Definition add_ran (k : Z) (x : Task) s : pool :=
  mkPool (name_ s) (running_ s) (numThreads_ s) (queue_ s) (slotsSem_ s) (itemsSem_ s) (threads_ s) (lpcs s) (ran s ++ [(k, x)]) (inline s) (answers s).
Definition run_inline (x : Task) s : pool :=
  mkPool (name_ s) (running_ s) (numThreads_ s) (queue_ s) (slotsSem_ s) (itemsSem_ s) (threads_ s) (lpcs s) (ran s) (inline s ++ [x]) (answers s).
Definition return_ (t : nat) (b : bool) s : pool :=
  mkPool (name_ s) (running_ s) (numThreads_ s) (queue_ s) (slotsSem_ s) (itemsSem_ s) (threads_ s)
    (fun t' => if decide (t' = t) then LIdle else lpcs s t') (ran s) (inline s) (answers s ++ [(t, b)]).

(** The thread enters or leaves a call of the queue. *)
Definition call (t : nat) (p : MPMCQueue.pc) s : pool := set_queue (MPMCQueue.goto t p (queue_ s)) s.
Definition returned (t : nat) (q : @MPMCQueue.state Task) : option MPMCQueue.event :=
  match MPMCQueue.pcs q t with MPMCQueue.Idle => snd <$> last (MPMCQueue.events q) | _ => None end.

(** [snprintf(buf, 32, "%s-%d", ...)]. *)
Definition thread_name (name : string) (i : nat) : string :=
  String.substring 0 31 (name +:+ "-" +:+ pretty i).

Definition setThreadNum (n : Z) : ST pool unit :=
  s ← get; _ ← cassert (negb (running_ s) && (0 <? n));
  modify (fun s => mkPool (name_ s) (running_ s) (Z.to_nat n) (queue_ s) (slotsSem_ s) (itemsSem_ s) (threads_ s)
                     (lpcs s) (ran s) (inline s) (answers s)).

Definition approxSize s : Z := MPMCQueue.approximate_size (queue_ s).

(** [run], after the entry. *)
Definition exec_run (t : nat) (spurious : bool) s : option (outcome pool) :=
  match lpcs s t with
  | RunTest x => Some (Done (if running_ s then goto t (RunEmpty x) s else return_ t false s))
  | RunEmpty x =>
      Some (Done (match threads_ s with [] => return_ t true (run_inline x s) | _ => goto t (RunAcquire x) s end))
  | RunAcquire x =>
      if 0 <? slotsSem_ s then Some (Done (goto t (RunTest2 x) (add_slots (-1) s))) else None
  | RunTest2 x =>
      Some (Done (if running_ s then goto t RunEnqueue (call t (MPMCQueue.EnqLoad x) s) else return_ t false s))
  | RunEnqueue =>
      q ← MPMCQueue.exec Capacity t spurious (queue_ s);
      match returned t q with
      | None => Some (Done (set_queue q s))
      | Some MPMCQueue.Enqueued => Some (Done (goto t RunRelease (set_queue q s)))
      | Some _ => if asserts_enabled then Some (Fail AssertFailed) else Some (Done (goto t RunRelease (set_queue q s)))
      end
  | RunRelease => Some (Done (return_ t true (add_items 1 s)))
  | _ => None
  end.

(** [runInThread]. *)
Definition exec_worker (t : nat) (spurious : bool) s : option (outcome pool) :=
  match lpcs s t with
  | WorkTest => Some (Done (goto t (if running_ s then WorkAcquire else WorkDone) s))
  | WorkAcquire => if 0 <? itemsSem_ s then Some (Done (goto t WorkTest2 (add_items (-1) s))) else None
  | WorkTest2 =>
      Some (Done (if running_ s then goto t WorkDequeue (call t MPMCQueue.DeqLoad s) else goto t WorkDone s))
  | WorkDequeue =>
      q ← MPMCQueue.exec Capacity t spurious (queue_ s);
      match returned t q with
      | None => Some (Done (set_queue q s))
      | Some (MPMCQueue.Dequeued k (Some x)) => Some (Done (goto t (WorkRelease k x) (set_queue q s)))
      | Some (MPMCQueue.Dequeued _ None) => Some (Fail BadFunctionCall)
      | Some _ => Some (Done (goto t WorkTest (set_queue q s)))
      end
  | WorkRelease k x => Some (Done (goto t (WorkRun k x) (add_slots 1 s)))
  | WorkRun k x => Some (Done (goto t WorkTest (add_ran k x s)))
  | _ => None
  end.

(** [start] and [stop]. *)
Definition exec_control (t : nat) s : option (outcome pool) :=
  match lpcs s t with
  | StartTest =>
      if asserts_enabled && negb (negb (running_ s) && (0 <? numThreads_ s)%nat) then Some (Fail AssertFailed)
      else Some (Done (goto t (StartLoop 0) (set_running true s)))
  | StartLoop i =>
      if (i <? numThreads_ s)%nat then
        let ths := threads_ s ++ [Thread.new (thread_name (name_ s) i)] in
        match lpcs s i, ths !! i with
        | (LIdle | WorkDone), Some th =>   (* the new thread of the operating system *)
            Some (match Thread.start th with
                  | Done (_, th') => Done (goto t (StartLoop (S i)) (goto i WorkTest (set_threads (<[i := th']> ths) s)))
                  | Fail f => Fail f
                  end)
        | _, _ => None
        end
      else Some (Done (goto t LIdle s))
  | StopTest => Some (Done (if running_ s then goto t (StopRelease 0) (set_running false s) else goto t LIdle s))
  | StopRelease i =>
      Some (Done (if (i <? numThreads_ s)%nat then goto t (StopRelease (S i)) (add_items 1 s) else goto t (StopJoin 0) s))
  | StopJoin i =>
      if (i <? length (threads_ s))%nat
      then match lpcs s i, threads_ s !! i with
           | (LIdle | WorkDone), Some th =>
               Some (match Thread.join th with
                     | Done (_, th') => Done (goto t (StopJoin (S i)) (set_threads (<[i := th']> (threads_ s)) s))
                     | Fail f => Fail f
                     end)
           | _, _ => None
           end
      else Some (Done (goto t LIdle s))
  | _ => None
  end.

(** The next step of thread [t]; [None]: it waits or has nothing to do. *)
Definition exec (t : nat) (spurious : bool) s : option (outcome pool) :=
  match lpcs s t with
  | RunTest _ | RunEmpty _ | RunAcquire _ | RunTest2 _ | RunEnqueue | RunRelease => exec_run t spurious s
  | WorkTest | WorkAcquire | WorkTest2 | WorkDequeue | WorkRelease _ _ | WorkRun _ _ => exec_worker t spurious s
  | StartTest | StartLoop _ | StopTest | StopRelease _ | StopJoin _ => exec_control t s
  | LIdle | WorkDone => None
  end.

(** [~LockFreeThreadPool] stops a running pool. *)
Definition destroy (t : nat) s : pool := if running_ s then goto t StopTest s else s.

Definition client (t : nat) s : Prop := lpcs s t = LIdle /\ (numThreads_ s <= t)%nat.
Inductive step : pool -> pool -> Prop :=
  | step_exec t spurious s s' : exec t spurious s = Some (Done s') -> step s s'
  | step_run t x s : client t s -> step s (goto t (RunTest x) s)
  | step_start t s : client t s -> step s (goto t StartTest s)
  | step_stop t s : client t s -> step s (goto t StopTest s).

(** Pools that have been given their number of threads. *)
Definition ready (name : string) (n : nat) : pool :=
  mkPool name false n (MPMCQueue.new Capacity None) Capacity 0 [] (fun _ => LIdle) [] [] [].
Definition reachable s : Prop := exists name n, (0 < n)%nat /\ rtc step (ready name n) s.
(** ** What the pool keeps *)

Definition in_call (p : lpc) : bool := match p with RunEnqueue | WorkDequeue => true | _ => false end.
Definition holding (p : lpc) : option (Z * Task) :=
  match p with WorkRelease k x | WorkRun k x => Some (k, x) | _ => None end.
Definition taken_out (q : MPMCQueue.state) (kx : Z * Task) : Prop :=
  exists t, (t, MPMCQueue.Dequeued (fst kx) (Some (snd kx))) ∈ MPMCQueue.events q.
Definition upd (t : nat) (p : lpc) (l : nat -> lpc) : nat -> lpc := fun t' => if decide (t' = t) then p else l t'.

Record PI (q : MPMCQueue.state) (l : nat -> lpc) (r : list (Z * Task)) : Prop := {
  p_queue : MPMCQueue.reachable Capacity q;
  p_call t : in_call (l t) = false -> MPMCQueue.pcs q t = MPMCQueue.Idle;
  p_ran kx : kx ∈ r -> taken_out q kx;
  p_held t kx : holding (l t) = Some kx -> taken_out q kx /\ fst kx ∉ map fst r;
  p_uniq t t' kx kx' : holding (l t) = Some kx -> holding (l t') = Some kx' -> fst kx = fst kx' -> t = t';
  p_once : NoDup (map fst r);
}.
Definition PInv s : Prop := PI (queue_ s) (lpcs s) (ran s).

Lemma PI_goto q l r t p : PI q l r -> (in_call p = false -> MPMCQueue.pcs q t = MPMCQueue.Idle) ->
  holding p = None \/ holding p = holding (l t) -> PI q (upd t p l) r.
Proof.
  intros I Hc Hh.
  assert (Hold : forall t' kx, holding (upd t p l t') = Some kx -> holding (l t') = Some kx).
  { intros t' kx. unfold upd. case_decide; [subst|done]. destruct Hh as [->| ->]; [discriminate|done]. }
  constructor; try apply I.
  - intros t'. unfold upd. case_decide; [subst; exact Hc|apply I].
  - intros t' kx Ht. exact (p_held _ _ _ I t' kx (Hold _ _ Ht)).
  - intros t1 t2 k1 k2 H1 H2. exact (p_uniq _ _ _ I _ _ _ _ (Hold _ _ H1) (Hold _ _ H2)).
Qed.

(** A thread outside the queue does a step of its own. *)
Lemma PI_local q l r t p : PI q l r -> in_call (l t) = false ->
  holding p = None \/ holding p = holding (l t) -> PI q (upd t p l) r.
Proof. intros I Hc. apply PI_goto; [exact I|]. intros _. exact (p_call _ _ _ I t Hc). Qed.

Lemma PI_queue q q' l r : PI q l r -> MPMCQueue.step Capacity q q' ->
  (forall t, in_call (l t) = false -> MPMCQueue.pcs q' t = MPMCQueue.Idle) ->
  (forall e, e ∈ MPMCQueue.events q -> e ∈ MPMCQueue.events q') -> PI q' l r.
Proof.
  intros I Hst Hc He. assert (Hm : forall kx, taken_out q kx -> taken_out q' kx) by (intros kx [t Ht]; exists t; auto).
  constructor; auto; try apply I.
  - destruct (p_queue _ _ _ I) as [g Hg]. exists g. eapply rtc_r; eassumption.
  - intros kx Hin. apply Hm, I, Hin.
  - intros t kx Ht. destruct (p_held _ _ _ I t kx Ht). auto.
Qed.

(** A worker runs the task it took. *)
Lemma PI_ran q l r t k x p : PI q l r -> holding (l t) = Some (k, x) -> holding p = None -> 
  (in_call p = false -> MPMCQueue.pcs q t = MPMCQueue.Idle) -> PI q (upd t p l) (r ++ [(k, x)]).
Proof.
  intros I Ht Hp Hc. destruct (p_held _ _ _ I t (k, x) Ht) as [Hout Hnew]. 
  assert (Hold : forall t' kx, holding (upd t p l t') = Some kx -> t' <> t /\ holding (l t') = Some kx).
  { intros t' kx. unfold upd. case_decide; [congruence|done]. }
  constructor; try apply I.
  - intros t'. unfold upd. case_decide; [subst; exact Hc|apply I].
  - intros kx. rewrite elem_of_app, list_elem_of_singleton. intros [Hin| ->]; [exact (p_ran _ _ _ I kx Hin)|exact Hout].
  - intros t' kx Ht'. destruct (Hold _ _ Ht') as [Hne Ht2]. destruct (p_held _ _ _ I t' kx Ht2) as [? Hn]. split; [done|].
    rewrite map_app, elem_of_app. cbn. rewrite list_elem_of_singleton. intros [?|E]; [auto|].
    apply Hne. exact (p_uniq _ _ _ I t' t kx (k, x) Ht2 Ht E).
  - intros t1 t2 k1 k2 H1 H2. destruct (Hold _ _ H1), (Hold _ _ H2). eauto using p_uniq.
  - rewrite map_app. cbn. apply NoDup_app. split; [apply I|]. split; [|apply NoDup_singleton].
    intros k' Hin ->%list_elem_of_singleton. exact (Hnew Hin).
Qed.

(** What one step of the queue does to the thread and the others. *)
Lemma queue_exec t sp (q q' : @MPMCQueue.state Task) : MPMCQueue.exec Capacity t sp q = Some q' ->
  (forall t', t' <> t -> MPMCQueue.pcs q' t' = MPMCQueue.pcs q t') /\
  (forall e, e ∈ MPMCQueue.events q -> e ∈ MPMCQueue.events q') /\
  (MPMCQueue.pcs q' t = MPMCQueue.Idle -> exists e, MPMCQueue.events q' = MPMCQueue.events q ++ [(t, e)] /\
     MPMCQueue.items q' = MPMCQueue.items q).
Proof.
  intros Hx. unfold MPMCQueue.exec in Hx.
  destruct (MPMCQueue.pcs q t) eqn:Et; cbn in Hx; try discriminate;
    repeat (match type of Hx with context [MPMCQueue.cell ?c ?p q] => destruct (MPMCQueue.cell c p q); cbn in Hx; [|discriminate]
            | context [if ?b then _ else _] => destruct b end);
    injection Hx as <-; cbn; (split; [intros t' Hne; now rewrite decide_False|]);
    (split; [intros e; rewrite ?elem_of_app; auto|]); rewrite decide_True by reflexivity; try discriminate; eauto.
Qed.

(** A call that is still running. *)
Lemma PI_exec q q' l r t sp : PI q l r -> in_call (l t) = true -> MPMCQueue.exec Capacity t sp q = Some q' -> PI q' l r.
Proof.
  intros I Hc Hx. destruct (queue_exec _ _ _ _ Hx) as (Ho & He & _).
  apply (PI_queue q); [exact I|exact (MPMCQueue.step_exec Capacity t sp q q' Hx)| |exact He].
  intros t' Ht'. rewrite Ho; [now apply I|]. congruence.
Qed.

(** A worker leaves the queue with a task. *)
Lemma PI_take q q' l r t sp k x : PI q l r -> in_call (l t) = true -> MPMCQueue.exec Capacity t sp q = Some q' ->
  (exists n, 0 < n <= 62 /\ Capacity = 2 ^ n) -> MPMCQueue.small Capacity q' ->
  returned t q' = Some (MPMCQueue.Dequeued k (Some x)) -> PI q' (upd t (WorkRelease k x) l) r.
Proof.
  intros I Hc Hx H2 Hs Hr. pose proof (PI_exec q q' l r t sp I Hc Hx) as I'. destruct (queue_exec _ _ _ _ Hx) as (_ & _ & Hev).
  unfold returned in Hr. destruct (MPMCQueue.pcs q' t) eqn:Et; try discriminate. destruct (Hev eq_refl) as [e [He _]].
  rewrite He, last_snoc in Hr. injection Hr as ->.
  assert (Hk : forall kx, taken_out q kx -> fst kx <> k).
  { intros [k' x'] [t' Hin] E. cbn in E, Hin. subst k'. pose proof (MPMCQueue.q_once _ _ (MPMCQueue.QInv_reachable _ H2 q' (p_queue _ _ _ I') Hs)) as Hnd.
    unfold MPMCQueue.tickets in Hnd. rewrite He, omap_app in Hnd. apply NoDup_app in Hnd as (_ & Hnd & _).
    apply (Hnd k); [|cbn; now left]. apply list_elem_of_omap. exists (t', MPMCQueue.Dequeued k (Some x')). auto. }
  assert (Hold : forall t' kx, holding (upd t (WorkRelease k x) l t') = Some kx -> (t' = t /\ kx = (k, x)) \/ (holding (l t') = Some kx /\ fst kx <> k)).
  { intros t' kx. unfold upd. case_decide; [intros [= <-]; auto|]. intros Ht'. right. split; [done|]. apply Hk. exact (proj1 (p_held _ _ _ I t' kx Ht')). }
  constructor; try apply I'.
  - intros t'. unfold upd. case_decide; [now subst|apply I'].
  - intros t' kx Ht'. destruct (Hold _ _ Ht') as [[_ ->]|[Hl _]]; [|exact (p_held _ _ _ I' t' kx Hl)]. split.
    + exists t. rewrite He, elem_of_app, list_elem_of_singleton. auto.
    + intros (kx & E & Hin)%list_elem_of_fmap. apply (Hk kx); [exact (p_ran _ _ _ I kx Hin)|]. now symmetry.
  - intros t1 t2 k1 k2 H1 H3 E. destruct (Hold _ _ H1) as [[-> ->]|[Ha Hna]], (Hold _ _ H3) as [[-> ->]|[Hb Hnb]]; cbn in E; try congruence.
    exact (p_uniq _ _ _ I _ _ _ _ Ha Hb E).
Qed.
(** A thread enters the queue. *)
Lemma PI_enter q l r t c p : PI q l r -> in_call (l t) = false -> MPMCQueue.step Capacity q (MPMCQueue.goto t c q) ->
  in_call p = true -> holding p = None -> PI (MPMCQueue.goto t c q) (upd t p l) r.
Proof.
  intros I Hc Hst Hp Hh. apply (PI_queue q).
  - apply PI_goto; [exact I|congruence|now left].
  - exact Hst.
  - intros t'. unfold upd. case_decide; [congruence|]. cbn. rewrite decide_False by done. apply I.
  - done.
Qed.

(** A thread leaves the queue, or stays. *)
Lemma PI_leave q q' l r t sp p e : PI q l r -> in_call (l t) = true -> MPMCQueue.exec Capacity t sp q = Some q' ->
  returned t q' = Some e -> holding p = None -> PI q' (upd t p l) r.
Proof.
  intros I Hc Hx Hr Hh. apply PI_goto; [exact (PI_exec q q' l r t sp I Hc Hx)| |now left].
  intros _. unfold returned in Hr. now destruct (MPMCQueue.pcs q' t).
Qed.

Hypothesis Capacity_pow2 : exists n, 0 < n <= 62 /\ Capacity = 2 ^ n.

Ltac own_step s t I Et :=
  let p := lazymatch goal with |- context [goto t ?p] => p | |- context [return_ t _ _] => constr:(LIdle) end in
  refine (PI_local (queue_ s) (lpcs s) (ran s) t p I _ _); [now rewrite Et|now left].

Lemma PInv_run t sp s s' : PInv s -> exec_run t sp s = Some (Done s') -> PInv s'.
Proof.
  intros I Hx. unfold exec_run in Hx. unfold PInv in *. destruct (lpcs s t) as [|x|x|x|x| | | | | | | | | | | | | |] eqn:Et; try discriminate.
  - injection Hx as <-. destruct (running_ s); own_step s t I Et.
  - injection Hx as <-. destruct (threads_ s); own_step s t I Et.
  - destruct (0 <? slotsSem_ s); [|discriminate]. injection Hx as <-.
    own_step s t I Et.
  - injection Hx as <-. destruct (running_ s); [|own_step s t I Et].
    apply (PI_enter (queue_ s) (lpcs s) (ran s) t (EnqLoad x) RunEnqueue); try done; [now rewrite Et|]. apply MPMCQueue.step_enqueue, I. now rewrite Et.
  - destruct (MPMCQueue.exec Capacity t sp (queue_ s)) as [q|] eqn:Eq; [|discriminate]. cbn in Hx.
    assert (Hin : in_call (lpcs s t) = true) by now rewrite Et.
    destruct (returned t q) as [e|] eqn:Er; [|injection Hx as <-; exact (PI_exec (queue_ s) q (lpcs s) (ran s) t sp I Hin Eq)].
    pose proof (PI_leave (queue_ s) q (lpcs s) (ran s) t sp RunRelease e I Hin Eq Er eq_refl) as Hl.
    destruct e; [|destruct asserts_enabled; [discriminate|]..]; injection Hx as <-; exact Hl.
  - injection Hx as <-. own_step s t I Et.
Qed.

Lemma PInv_worker t sp s s' : PInv s -> MPMCQueue.small Capacity (queue_ s') ->
  exec_worker t sp s = Some (Done s') -> PInv s'.
Proof.
  intros I Hs Hx. unfold exec_worker in Hx. unfold PInv in *. destruct (lpcs s t) as [| | | | | | | | | | |k x|k x| | | | | |] eqn:Et; try discriminate.
  - injection Hx as <-. destruct (running_ s); own_step s t I Et.
  - destruct (0 <? itemsSem_ s); [|discriminate]. injection Hx as <-.
    own_step s t I Et.
  - injection Hx as <-. destruct (running_ s); [|own_step s t I Et].
    apply (PI_enter (queue_ s) (lpcs s) (ran s) t DeqLoad WorkDequeue); try done; [now rewrite Et|]. apply MPMCQueue.step_dequeue, I. now rewrite Et.
  - destruct (MPMCQueue.exec Capacity t sp (queue_ s)) as [q|] eqn:Eq; [|discriminate]. cbn in Hx.
    assert (Hin : in_call (lpcs s t) = true) by now rewrite Et.
    destruct (returned t q) as [e|] eqn:Er; [|injection Hx as <-; exact (PI_exec (queue_ s) q (lpcs s) (ran s) t sp I Hin Eq)].
    pose proof (PI_leave (queue_ s) q (lpcs s) (ran s) t sp WorkTest e I Hin Eq Er eq_refl) as Hl.
    destruct e as [| |k [x|]|]; try discriminate; injection Hx as <-; try exact Hl.
    exact (PI_take (queue_ s) q (lpcs s) (ran s) t sp k x I Hin Eq Capacity_pow2 Hs Er).
  - injection Hx as <-. apply (PI_local (queue_ s) (lpcs s) (ran s) t (WorkRun k x)); [exact I|now rewrite Et|]. right. now rewrite Et.
  - injection Hx as <-. apply (PI_ran (queue_ s) (lpcs s) (ran s) t k x); [exact I|now rewrite Et|done|]. intros _. apply I. now rewrite Et.
Qed.

Ltac ctl_step t Hl :=
  lazymatch goal with |- context [goto t ?p] => exact (Hl p eq_refl) end.

Lemma PInv_control t s s' : PInv s -> exec_control t s = Some (Done s') -> PInv s'.
Proof.
  intros I Hx. unfold exec_control in Hx. unfold PInv in *.
  assert (Hl : forall p, in_call (lpcs s t) = false -> holding p = None -> PI (queue_ s) (upd t p (lpcs s)) (ran s)).
  { intros p Hc Hp. apply PI_local; auto. }
  destruct (lpcs s t) as [| | | | | | | | | | | | | | |i| |i|i] eqn:Et; try discriminate; try specialize (fun p => Hl p eq_refl).
  - destruct (_ && _); [discriminate|]. injection Hx as <-. exact (Hl (StartLoop 0) eq_refl).
  - destruct (i <? numThreads_ s)%nat; [|injection Hx as <-; exact (Hl LIdle eq_refl)]. cbv zeta in Hx.
    destruct (lpcs s i) eqn:Ei; try discriminate; (destruct ((threads_ s ++ _) !! i) as [th|]; [|discriminate]);
      (destruct (Thread.start th) as [[[] th']|]; [|discriminate]); injection Hx as <-;
      apply (PI_local (queue_ s) (upd i WorkTest (lpcs s)) (ran s) t (StartLoop (S i)));
      auto using PI_local; try (apply PI_local; [exact I|now rewrite Ei|now left]);
      unfold upd; case_decide; (done || now rewrite Et).
  - injection Hx as <-. destruct (running_ s); ctl_step t Hl.
  - injection Hx as <-. destruct (i <? numThreads_ s)%nat; ctl_step t Hl.
  - destruct (i <? length (threads_ s))%nat; [|injection Hx as <-; ctl_step t Hl].
    destruct (lpcs s i) eqn:Ei; try discriminate; (destruct (threads_ s !! i) as [th|]; [|discriminate]);
      (destruct (Thread.join th) as [[[] th']|]; [|discriminate]); injection Hx as <-; ctl_step t Hl.
Qed.

Lemma PInv_step s s' : PInv s -> MPMCQueue.small Capacity (queue_ s') -> step s s' -> PInv s'.
Proof.
  intros I Hs Hst. destruct Hst as [t sp s s' Hx|t x s [Ht _]|t s [Ht _]|t s [Ht _]];
    [|own_step s t I Ht..].
  unfold exec in Hx. destruct (lpcs s t); try discriminate; eauto using PInv_run, PInv_worker, PInv_control.
Qed.
Lemma queue_step s s' : step s s' ->
  MPMCQueue.items (queue_ s') = MPMCQueue.items (queue_ s) \/ MPMCQueue.step Capacity (queue_ s) (queue_ s').
Proof.
  intros Hst. destruct Hst as [t sp s s' Hx| | |]; auto.
  unfold exec, exec_run, exec_worker, exec_control in Hx.
  destruct (lpcs s t); cbv zeta in Hx; try discriminate;
    repeat (match type of Hx with
      | context [MPMCQueue.exec Capacity t sp ?q] => destruct (MPMCQueue.exec Capacity t sp q) as [q'|] eqn:Eq; cbn in Hx; [|discriminate]
      | context [match ?b with _ => _ end] => destruct b; try discriminate
      end); injection Hx as <-; auto; right; exact (MPMCQueue.step_exec Capacity t sp _ _ Eq).
Qed.

Lemma small_back s s' : step s s' -> MPMCQueue.small Capacity (queue_ s') -> MPMCQueue.small Capacity (queue_ s).
Proof.
  intros Hst Hs. destruct (queue_step s s' Hst) as [E|Hq]; [|exact (MPMCQueue.small_step Capacity _ _ Hq Hs)].
  unfold MPMCQueue.small in *. now rewrite <-E.
Qed.

Lemma PInv_reachable s : reachable s -> MPMCQueue.small Capacity (queue_ s) -> PInv s.
Proof.
  intros (name & n & Hn & H'). revert s H'. apply (rtc_ind_r (fun s => MPMCQueue.small Capacity (queue_ s) -> PInv s)).
  - intros _. constructor; cbn; try done; try (intros; set_solver); [|constructor]. exists None. reflexivity.
  - intros s s' _ Hst IH Hs. pose proof (small_back s s' Hst Hs) as Hs0. exact (PInv_step s s' (IH Hs0) Hs Hst).
Qed.

(** A multiset of elements at distinct positions of a list. *)
Lemma submseteq_lookup {A} (l : list A) (kx : list (Z * A)) : NoDup (map fst kx) ->
  (forall k x, (k, x) ∈ kx -> 0 <= k /\ l !! Z.to_nat k = Some x) -> map snd kx ⊆+ l.
Proof.
  intros Hnd Hl. set (ks := map (fun kx => Z.to_nat (fst kx)) kx).
  assert (Hks : ks ⊆+ seq 0 (length l)).
  { apply NoDup_submseteq.
    - replace ks with (map Z.to_nat (map fst kx)) by (unfold ks; now rewrite map_map).
      apply NoDup_fmap_2_strong; [|exact Hnd].
      intros a b ([ka xa] & -> & Ha)%list_elem_of_fmap ([kb xb] & -> & Hb)%list_elem_of_fmap E.
      destruct (Hl _ _ Ha), (Hl _ _ Hb). cbn in *. lia.
    - intros i ([k x] & -> & Hin)%list_elem_of_fmap. destruct (Hl _ _ Hin) as [_ Hx]. apply lookup_lt_Some in Hx.
      apply elem_of_seq. cbn. lia. }
  assert (Hm : map (fun i => l !! i) ks ⊆+ map (fun i => l !! i) (seq 0 (length l))) by exact (fmap_submseteq _ _ _ Hks).
  unfold ks in Hm. rewrite map_map in Hm.
  assert (E1 : map (fun kx => l !! Z.to_nat (fst kx)) kx = map Some (map snd kx)).
  { rewrite map_map. apply map_ext_in. intros [k x] Hin. apply Hl. now apply list_elem_of_In. }
  assert (E2 : map (fun i => l !! i) (seq 0 (length l)) = map Some l).
  { apply list_eq. intros i. rewrite !list_lookup_fmap. destruct (decide (i < length l)%nat) as [Hi|Hi].
    - rewrite lookup_seq_lt by exact Hi. cbn. destruct (l !! i) eqn:E; [done|]. apply lookup_ge_None in E. lia.
    - rewrite lookup_seq_ge by lia. cbn. destruct (l !! i) eqn:E; [|done]. apply lookup_lt_Some in E. lia. }
  rewrite E1, E2 in Hm. apply submseteq_Permutation in Hm as [r Hr]. symmetry in Hr.
  apply Permutation_map_inv in Hr as (l3 & E & Hl3). symmetry in E. apply fmap_app_inv in E as (a & b & Ea & _ & ->).
  apply list_fmap_eq_inj in Ea; [|congruence]. subst a. rewrite Hl3. apply submseteq_inserts_r. reflexivity.
Qed.

(** The call of an empty function does not happen. *)
Lemma never_empty t sp s : PInv s -> MPMCQueue.small Capacity (queue_ s) -> exec t sp s <> Some (Fail BadFunctionCall).
Proof.
  intros I Hs Hx. unfold exec, exec_run, exec_worker, exec_control in Hx.
  destruct (lpcs s t) eqn:Et; cbv zeta in Hx; try discriminate; try (repeat case_match; discriminate).
  - destruct (MPMCQueue.exec Capacity t sp (queue_ s)); cbn in Hx; [|discriminate]. repeat case_match; discriminate.
  - destruct (MPMCQueue.exec Capacity t sp (queue_ s)) as [q|] eqn:Eq; cbn in Hx; [|discriminate].
    destruct (returned t q) as [[| |k [x|]|]|] eqn:Er; try discriminate.
    pose proof (PI_exec _ q _ _ t sp I ltac:(now rewrite Et) Eq) as I'. destruct (queue_exec _ _ _ _ Eq) as (_ & _ & Hev).
    unfold returned in Er. destruct (MPMCQueue.pcs q t) eqn:Ep; try discriminate. destruct (Hev eq_refl) as (e & He & Hi).
    rewrite He, last_snoc in Er. injection Er as ->. 
    assert (Hs' : MPMCQueue.small Capacity q) by (unfold MPMCQueue.small; rewrite Hi; exact Hs).
    pose proof (MPMCQueue.QInv_reachable _ Capacity_pow2 q (p_queue _ _ _ I') Hs') as Iq.
    destruct (MPMCQueue.q_done _ _ Iq t k None) as (Hk & Hn & _).
    { rewrite He, elem_of_app, list_elem_of_singleton. auto. }
    symmetry in Hn. apply lookup_ge_None in Hn. pose proof (MPMCQueue.q_items _ _ Iq). pose proof (MPMCQueue.q_pos _ _ Iq). lia.
  - destruct (i <? numThreads_ s)%nat; [|discriminate].
    destruct (lpcs s i); try discriminate; (destruct (_ !! i) as [th|]; [|discriminate]);
      (destruct (Thread.start th) as [[]|] eqn:Ef; [discriminate|]); injection Hx as ->; exact (Thread.start_no_call _ Ef).
  - destruct (i <? length (threads_ s))%nat; [|discriminate].
    destruct (lpcs s i); try discriminate; (destruct (threads_ s !! i) as [th|]; [|discriminate]);
      (destruct (Thread.join th) as [[]|] eqn:Ef; [discriminate|]); injection Hx as ->; exact (Thread.join_no_call _ Ef).
Qed.

(** C40: whatever the interleaving of clients and workers, a worker runs only
    tasks that were accepted by the queue, no accepted task is run twice, each run
    is the task of its own ticket, and no worker ever calls an empty function. *)
Theorem pool_runs_tasks_once s : reachable s -> MPMCQueue.small Capacity (queue_ s) ->
  map snd (ran s) ⊆+ MPMCQueue.items (queue_ s) /\
  NoDup (map fst (ran s)) /\
  (forall k x, (k, x) ∈ ran s -> MPMCQueue.items (queue_ s) !! Z.to_nat k = Some x) /\
  (forall t sp, exec t sp s <> Some (Fail BadFunctionCall)).
Proof.
  intros Hr Hs. pose proof (PInv_reachable s Hr Hs) as I. pose proof (MPMCQueue.QInv_reachable _ Capacity_pow2 _ (p_queue _ _ _ I) Hs) as Iq.
  assert (Hl : forall k x, (k, x) ∈ ran s -> 0 <= k /\ MPMCQueue.items (queue_ s) !! Z.to_nat k = Some x).
  { intros k x Hin. destruct (p_ran _ _ _ I _ Hin) as [t Ht]. destruct (MPMCQueue.q_done _ _ Iq _ _ _ Ht) as (Hk & Hx & _).
    cbn in Hk. split; [lia|]. symmetry. exact Hx. }
  split_and!; [apply submseteq_lookup; [apply I|exact Hl]|apply I|intros k x Hin; now apply Hl|].
  intros t sp. now apply never_empty.
Qed.
End LockFreeThreadPool.

Module Demo.
Inductive act := Go (t : nat) | Run (t : nat) (x : nat) | Start (t : nat).
Section Play.
Context `{Build}.
Definition as_client (t : nat) (p : lpc) (s : pool) : option (@pool nat) :=
  match lpcs s t with LIdle => if (numThreads_ s <=? t)%nat then Some (goto t p s) else None | _ => None end.
Definition do (a : act) (s : pool) : option (@pool nat) :=
  match a with
  | Go t => match exec 2 t false s with Some (Done s') => Some s' | _ => None end
  | Run t x => as_client t (RunTest x) s
  | Start t => as_client t StartTest s
  end.
Fixpoint play (l : list act) (s : pool) : option (@pool nat) :=
  match l with [] => Some s | a :: l' => do a s ≫= play l' end.

Lemma do_step a s s' : do a s = Some s' -> step 2 s s'.
Proof.
  destruct a as [t|t x|t]; cbn; unfold as_client; intros E.
  - destruct (exec 2 t false s) as [[s1|]|] eqn:Ex; simplify_eq. exact (step_exec 2 t false s s' Ex).
  - destruct (lpcs s t) eqn:Et; try discriminate. destruct (Nat.leb_spec (numThreads_ s) t); simplify_eq. now apply step_run.
  - destruct (lpcs s t) eqn:Et; try discriminate. destruct (Nat.leb_spec (numThreads_ s) t); simplify_eq. now apply step_start.
Qed.

Lemma lf_play_rtc l s s' : play l s = Some s' -> rtc (step 2) s s'.
Proof.
  revert s. induction l as [|a l IH]; cbn; intros s.
  - intros [= <-]. reflexivity.
  - destruct (do a s) as [q|] eqn:E; [|discriminate]. cbn. intros E2. apply rtc_l with q; [exact (do_step a s q E)|auto].
Qed.
End Play.

(** Two workers; client 2 starts the pool and fills the queue; worker 0 has
    claimed the first task but not freed its cell when worker 1 has taken the
    second task and released its slot; client 2 acquires this slot. *)
Definition go (t n : nat) : list act := replicate n (Go t).
Definition filled : list act := [Start 2] ++ go 2 4 ++ [Run 2 7] ++ go 2 10 ++ [Run 2 8] ++ go 2 10.
Definition overlap : list act := filled ++ go 0 6 ++ go 1 9 ++ [Run 2 9] ++ go 2 6.
Definition start2 : @pool nat := ready 2 "p" 2.
Definition overlapped : pool := default start2 (play (H := debug_build) overlap start2).
Definition lost : pool := default start2 (play (H := release_build) (overlap ++ go 2 2) start2).

Lemma lf_pow2_2 : exists n, 0 < n <= 62 /\ 2 = 2 ^ n.
Proof. exists 1. split; [lia|reflexivity]. Qed.

(** the assertion in [run], that a slot of the semaphore guarantees a slot
    of the queue, is false: a later task's slot can be released while the cell
    the next enqueue needs is still being read.  Without assertions [run] then
    answers true and the task is lost. *)
Theorem slot_does_not_guarantee_cell :
  (reachable (H := debug_build) 2 overlapped /\ exec (H := debug_build) 2 2 false overlapped = Some (Fail AssertFailed)) /\
  (reachable (H := release_build) 2 lost /\ answers lost = [(2%nat, true); (2%nat, true); (2%nat, true)] /\
   MPMCQueue.items (queue_ lost) = [7%nat; 8%nat]).
Proof.
  split; split.
  - exists "p", 2%nat. split; [lia|]. apply (lf_play_rtc (H := debug_build) overlap). vm_compute. reflexivity.
  - vm_compute. reflexivity.
  - exists "p", 2%nat. split; [lia|]. apply (lf_play_rtc (H := release_build) (overlap ++ go 2 2)). vm_compute. reflexivity.
  - split; vm_compute; reflexivity.
Qed.

(** A worker has run the first task. *)
Definition worked : pool := default start2 (play (H := debug_build) (filled ++ go 0 10) start2).
Lemma pool_runs_tasks_once_witness :
  ran worked = [(0, 7%nat)] /\ map snd (ran worked) ⊆+ [7%nat; 8%nat].
Proof.
  split; [vm_compute; reflexivity|].
  assert (Hr : reachable (H := debug_build) 2 worked).
  { exists "p", 2%nat. split; [lia|]. apply (lf_play_rtc (H := debug_build) (filled ++ go 0 10)). vm_compute. reflexivity. }
  assert (Hs : MPMCQueue.small 2 (queue_ worked)) by (vm_compute; reflexivity).
  assert (E : MPMCQueue.items (queue_ worked) = [7%nat; 8%nat]) by (vm_compute; reflexivity).
  rewrite <-E. exact (proj1 (pool_runs_tasks_once (H := debug_build) 2 lf_pow2_2 worked Hr Hs)).
Defined.
End Demo.
