(* ===== verification/ThreadPool.v ===== *)
(** ThreadPool: [base/ThreadPool.h], [base/ThreadPool.cc], the pool whose workers
    take tasks from the queue in batches.

    A step is one critical section of [mutex_], one access outside it, or one
    task.  The two condition variables are modelled: a thread that found its
    predicate false holds the mutex until it blocks, and a blocked thread goes on
    only when notified, woken spuriously or (model CACHE) timed out. *)

From Stdlib Require Import ZArith Lia.
From stdpp Require Import pretty.
From S2P Require Import Prelude Thread.

Local Open Scope Z_scope.

Definition kMinBatchSize : Z := 4.
Definition kMaxBatchSize : Z := 64.
Definition kMaxQueueSize : Z := 10000.
Definition SAMPLE_INTERVAL : Z := 64.
Definition minThreads_ : Z := 4.
Definition maxThreads_ : Z := 128.
Definition queueHighWatermark_ : Z := 500.
Definition cooldownMs_ : Z := 1000.

Inductive model := FIXED | CACHE.

Section ThreadPool.
Context `{Build} {Task : Type}.

Record ThreadLocalCache := mkCache { tasks : list Task; index : nat }.
Definition no_cache : ThreadLocalCache := mkCache [] 0.

(** A worker, by where it is in [runInThread] and [fillLocalCache]. *)
Inductive wpc :=
  | WStart
  | WTest (c : ThreadLocalCache)     (* while (running_) *)
  | WFill (c : ThreadLocalCache)     (* fillLocalCache *)
  | WBlock (c : ThreadLocalCache)    (* predicate false, about to block, holds mutex_ *)
  | WWait (c : ThreadLocalCache)     (* blocked on notEmpty_ *)
  | WWoken (c : ThreadLocalCache)    (* woken, about to lock mutex_ *)
  | WRun (c : ThreadLocalCache)      (* the inner loop over the cache *)
  | WDone.

(** A thread that uses the pool. *)
Inductive cpc :=
  | CIdle
  | CRun (t : Task)                  (* run: threads_.empty() *)
  | CLock (t : Task)                 (* about to lock mutex_ *)
  | CBlock (t : Task)                (* queue full, about to block, holds mutex_ *)
  | CWait (t : Task)                 (* blocked on notFull_ *)
  | CStart
  | CStartLoop (i : nat)
  | CStop
  | CStopNotify
  | CJoin (i : nat).

Record pool := mkPool {
  name_ : string;
  running_ : bool;
  numThreads_ : nat;
  batchSize_ : Z;
  model_ : model;
  queueLength_ : Z;
  activeThreads_ : Z;
  adjusting_ : bool;
  lastScaleUpTime_ : Z;
  runCounter_ : Z;
  threads_ : list thread;
  queue_ : list Task;
  locked : bool;                     (* mutex_ is held by a thread about to block *)
  workers : list wpc;                (* the OS threads, in the order of their start *)
  os : nat -> nat;                   (* the OS thread of an element of threads_ *)
  clients : nat -> cpc;
  submitted : list Task;             (* history: pushed into queue_, in order *)
  taken : list Task;                 (* history: moved into a cache, in order *)
  ran : list Task;                   (* history: run by workers *)
  inline : list Task;                (* history: run by the caller of run *)
}.
Implicit Types (s : pool).

Definition new (name : string) (garbage : model) (epoch : Z) : pool :=
  mkPool name false 0 kMinBatchSize garbage 0 0 false epoch 0 [] [] false [] (fun i => i) (fun _ => CIdle) [] [] [] [].

Definition set_worker (i : nat) (p : wpc) s : pool :=
  mkPool (name_ s) (running_ s) (numThreads_ s) (batchSize_ s) (model_ s) (queueLength_ s) (activeThreads_ s) (adjusting_ s)
    (lastScaleUpTime_ s) (runCounter_ s) (threads_ s) (queue_ s) (locked s) (<[i := p]> (workers s)) (os s) (clients s)
    (submitted s) (taken s) (ran s) (inline s).
Definition set_workers (l : list wpc) s : pool :=
  mkPool (name_ s) (running_ s) (numThreads_ s) (batchSize_ s) (model_ s) (queueLength_ s) (activeThreads_ s) (adjusting_ s)
    (lastScaleUpTime_ s) (runCounter_ s) (threads_ s) (queue_ s) (locked s) l (os s) (clients s)
    (submitted s) (taken s) (ran s) (inline s).
Definition set_clients (f : nat -> cpc) s : pool :=
  mkPool (name_ s) (running_ s) (numThreads_ s) (batchSize_ s) (model_ s) (queueLength_ s) (activeThreads_ s) (adjusting_ s)
    (lastScaleUpTime_ s) (runCounter_ s) (threads_ s) (queue_ s) (locked s) (workers s) (os s) f
    (submitted s) (taken s) (ran s) (inline s).
Definition set_client (c : nat) (p : cpc) s : pool :=
  set_clients (fun c' => if decide (c' = c) then p else clients s c') s.
Definition set_running (b : bool) s : pool :=
  mkPool (name_ s) b (numThreads_ s) (batchSize_ s) (model_ s) (queueLength_ s) (activeThreads_ s) (adjusting_ s)
    (lastScaleUpTime_ s) (runCounter_ s) (threads_ s) (queue_ s) (locked s) (workers s) (os s) (clients s)
    (submitted s) (taken s) (ran s) (inline s).
Definition set_locked (b : bool) s : pool :=
  mkPool (name_ s) (running_ s) (numThreads_ s) (batchSize_ s) (model_ s) (queueLength_ s) (activeThreads_ s) (adjusting_ s)
    (lastScaleUpTime_ s) (runCounter_ s) (threads_ s) (queue_ s) b (workers s) (os s) (clients s)
    (submitted s) (taken s) (ran s) (inline s).
Definition set_threads (l : list thread) s : pool :=
  mkPool (name_ s) (running_ s) (numThreads_ s) (batchSize_ s) (model_ s) (queueLength_ s) (activeThreads_ s) (adjusting_ s)
    (lastScaleUpTime_ s) (runCounter_ s) l (queue_ s) (locked s) (workers s) (os s) (clients s)
    (submitted s) (taken s) (ran s) (inline s).
Definition set_batch (n : Z) s : pool :=
  mkPool (name_ s) (running_ s) (numThreads_ s) n (model_ s) (queueLength_ s) (activeThreads_ s) (adjusting_ s)
    (lastScaleUpTime_ s) (runCounter_ s) (threads_ s) (queue_ s) (locked s) (workers s) (os s) (clients s)
    (submitted s) (taken s) (ran s) (inline s).
Definition set_active (n : Z) s : pool :=
  mkPool (name_ s) (running_ s) (numThreads_ s) (batchSize_ s) (model_ s) (queueLength_ s) n (adjusting_ s)
    (lastScaleUpTime_ s) (runCounter_ s) (threads_ s) (queue_ s) (locked s) (workers s) (os s) (clients s)
    (submitted s) (taken s) (ran s) (inline s).
Definition set_adjust (b : bool) (t : Z) s : pool :=
  mkPool (name_ s) (running_ s) (numThreads_ s) (batchSize_ s) (model_ s) (queueLength_ s) (activeThreads_ s) b
    t (runCounter_ s) (threads_ s) (queue_ s) (locked s) (workers s) (os s) (clients s)
    (submitted s) (taken s) (ran s) (inline s).
(** A new OS thread runs [runInThread] for [threads_[i]]. *)
Definition spawn (i : nat) s : pool :=
  mkPool (name_ s) (running_ s) (numThreads_ s) (batchSize_ s) (model_ s) (queueLength_ s) (activeThreads_ s) (adjusting_ s)
    (lastScaleUpTime_ s) (runCounter_ s) (threads_ s) (queue_ s) (locked s) (workers s ++ [WStart])
    (fun j => if decide (j = i) then length (workers s) else os s j) (clients s)
    (submitted s) (taken s) (ran s) (inline s).
(** [queue_.push_back] and the counter of [run]. *)
Definition push (t : Task) s : pool :=
  mkPool (name_ s) (running_ s) (numThreads_ s) (batchSize_ s) (model_ s) (queueLength_ s) (activeThreads_ s) (adjusting_ s)
    (lastScaleUpTime_ s) (wrap64 (runCounter_ s + 1)) (threads_ s) (queue_ s ++ [t]) (locked s) (workers s) (os s) (clients s)
    (submitted s ++ [t]) (taken s) (ran s) (inline s).
(** The first [n] tasks move to a cache. *)
Definition take_batch (n : nat) s : pool :=
  mkPool (name_ s) (running_ s) (numThreads_ s) (batchSize_ s) (model_ s) (queueLength_ s) (activeThreads_ s) (adjusting_ s)
    (lastScaleUpTime_ s) (runCounter_ s) (threads_ s) (drop n (queue_ s)) (locked s) (workers s) (os s) (clients s)
    (submitted s) (taken s ++ take n (queue_ s)) (ran s) (inline s).
Definition add_ran (t : Task) s : pool :=
  mkPool (name_ s) (running_ s) (numThreads_ s) (batchSize_ s) (model_ s) (queueLength_ s) (activeThreads_ s) (adjusting_ s)
    (lastScaleUpTime_ s) (runCounter_ s) (threads_ s) (queue_ s) (locked s) (workers s) (os s) (clients s)
    (submitted s) (taken s) (ran s ++ [t]) (inline s).
Definition run_inline (t : Task) s : pool :=
  mkPool (name_ s) (running_ s) (numThreads_ s) (batchSize_ s) (model_ s) (queueLength_ s) (activeThreads_ s) (adjusting_ s)
    (lastScaleUpTime_ s) (runCounter_ s) (threads_ s) (queue_ s) (locked s) (workers s) (os s) (clients s)
    (submitted s) (taken s) (ran s) (inline s ++ [t]).

Definition setThreadNum (n : Z) : ST pool unit :=
  s ← get; _ ← cassert (negb (running_ s)); _ ← cassert (0 <? n);
  modify (fun s => mkPool (name_ s) (running_ s) (Z.to_nat n) (batchSize_ s) (model_ s) (queueLength_ s) (activeThreads_ s)
    (adjusting_ s) (lastScaleUpTime_ s) (runCounter_ s) (threads_ s) (queue_ s) (locked s) (workers s) (os s) (clients s)
    (submitted s) (taken s) (ran s) (inline s)).
Definition setModel (m : model) s : pool :=
  if running_ s then s else
  mkPool (name_ s) (running_ s) (numThreads_ s) (batchSize_ s) m (queueLength_ s) (activeThreads_ s)
    (adjusting_ s) (lastScaleUpTime_ s) (runCounter_ s) (threads_ s) (queue_ s) (locked s) (workers s) (os s) (clients s)
    (submitted s) (taken s) (ran s) (inline s).
Definition queueSize s : Z := queueLength_ s.

(** ** Condition variables *)

Definition wake_worker (p : wpc) : wpc := match p with WWait c => WWoken c | _ => p end.
Definition is_waiting (p : wpc) : bool := match p with WWait _ => true | _ => false end.
(** [notEmpty_.notify_one()]: [w] is the thread chosen, if one waits. *)
Definition notify_one (w : nat) s : pool :=
  match workers s !! w with Some p => set_worker w (wake_worker p) s | None => s end.
Definition notify_workers s : pool := set_workers (map wake_worker (workers s)) s.
(** [notFull_.notify_all()]. *)
Definition notify_clients s : pool :=
  set_clients (fun c => match clients s c with CWait t => CLock t | p => p end) s.

(** ** Starting threads *)

Definition thread_name (name : string) (i : Z) : string :=
  String.substring 0 31 (name +:+ "-" +:+ pretty i).

(** [threads_[i]->start()]: the OS thread enters [runInThread]. *)
Definition start_thread (i : nat) s : outcome pool :=
  match threads_ s !! i with
  | None => Fail UndefinedBehaviour
  | Some th =>
      match Thread.start th with
      | Fail f => Fail f
      | Done (_, th') => Done (spawn i (set_threads (<[i := th']> (threads_ s)) s))
      end
  end.

(** The loop of [maybeAdjust], [i = from .. to]. *)
Fixpoint scale_up (fuel from : nat) (active : Z) s : outcome pool :=
  match fuel with
  | O => Done s
  | S fuel' =>
      match start_thread from (set_threads (threads_ s ++ [Thread.new (thread_name (name_ s) (1 + active))]) s) with
      | Fail f => Fail f
      | Done s' => scale_up fuel' (S from) active s'
      end
  end.

Definition maybeAdjust (now : Z) s : outcome pool :=
  match model_ s with
  | FIXED => Done s
  | CACHE =>
      if adjusting_ s then Done s else
      let s := set_adjust true (lastScaleUpTime_ s) s in
      let qlen := queueLength_ s in let active := activeThreads_ s in
      let r := if (queueHighWatermark_ <? qlen) && (active <? maxThreads_) && (cooldownMs_ <? now - lastScaleUpTime_ s)
               then match scale_up (Z.to_nat (Z.min (maxThreads_ - active) 2)) 1 active s with
                    | Done s' => Done (set_adjust true now s')
                    | Fail f => Fail f
                    end
               else Done s in
      match r with Done s' => Done (set_adjust false (lastScaleUpTime_ s') s') | Fail f => Fail f end
  end.

(** ** The workers *)

(** The result of [fillLocalCache]: leave, try again, or run. *)
Inductive filled := Leave | Again | Filled (c : ThreadLocalCache).

(** [batchSize_] after the adaptation. *)
Definition adapt (batch qsize : Z) : Z :=
  if batch * 2 <? qsize then Z.min (batch * 2) kMaxBatchSize
  else if qsize <? Z.quot batch 2 then Z.max (Z.quot batch 2) kMinBatchSize
  else batch.

(** The early returns of [fillLocalCache] after the wait. *)
Definition fill_stop s : option filled :=
  match model_ s, queue_ s with
  | CACHE, [] => if minThreads_ <? activeThreads_ s then Some Leave else if running_ s then Some Again else Some Leave
  | FIXED, [] => if running_ s then None else Some Leave
  | _, _ => None
  end.

(** [fillLocalCache] after the wait, holding [mutex_]; [w]: the thread [notify_one] picks. *)
Definition fill_rest (w : nat) s : filled * pool :=
  match fill_stop s with
  | Some r => (r, s)
  | None =>
      let s := set_batch (adapt (batchSize_ s) (Z.of_nat (length (queue_ s)))) s in
      let n := Z.to_nat (Z.min (batchSize_ s) (Z.of_nat (length (queue_ s)))) in
      let c := mkCache (take n (queue_ s)) 0 in
      let s := take_batch n s in
      let s := match queue_ s with [] => s | _ => notify_one w s end in
      let s := if Z.of_nat (length (queue_ s)) <? Z.quot (kMaxQueueSize * 3) 4 then notify_clients s else s in
      (if (n =? 0)%nat then Leave else Filled c, s)
  end.

(** What [runInThread] does with it. *)
Definition after_fill (i : nat) (c : ThreadLocalCache) (r : filled * pool) : pool :=
  match fst r with
  | Leave => set_worker i WDone (snd r)
  | Again => set_worker i (WTest c) (snd r)
  | Filled c' => set_worker i (WRun c') (snd r)
  end.

Definition may_go s : bool := negb (running_ s) || (match queue_ s with [] => false | _ => true end).

(** The next step of worker [i]; [w] as above. *)
Definition exec_worker (i w : nat) s : option pool :=
  match workers s !! i with
  | Some WStart => Some (set_worker i (WTest no_cache) (set_active (wrap64 (activeThreads_ s + 1)) s))
  | Some (WTest c) => Some (set_worker i (if running_ s then WFill c else WDone) s)
  | Some (WFill c) =>
      if (index c <? length (tasks c))%nat then Some (set_worker i (WRun c) s)
      else Some (set_worker i (WWoken c) s)
  | Some (WWoken c) =>
      if locked s then None
      else if may_go s then Some (after_fill i c (fill_rest w s))
      else Some (set_worker i (WBlock c) (set_locked true s))
  | Some (WBlock c) => Some (set_worker i (WWait c) (set_locked false s))
  | Some (WRun c) =>
      match tasks c !! index c with
      | Some t => Some (set_worker i (WRun (mkCache (tasks c) (S (index c)))) (add_ran t s))
      | None => Some (set_worker i (WTest c) s)
      end
  | Some (WWait _) | Some WDone | None => None
  end.

(** [wait_for] of the model CACHE times out. *)
Definition exec_timeout (i w : nat) s : option pool :=
  match workers s !! i, model_ s with
  | Some (WWait c), CACHE => if locked s then None else Some (after_fill i c (fill_rest w s))
  | _, _ => None
  end.

(** ** The users of the pool *)

(** [run]; [w]: the thread [notify_one] picks, [now]: the clock. *)
Definition exec_run (c w : nat) (now : Z) s : option (outcome pool) :=
  match clients s c with
  | CRun t => Some (Done (match threads_ s with [] => set_client c CIdle (run_inline t s) | _ => set_client c (CLock t) s end))
  | CLock t =>
      if locked s then None
      else if negb (running_ s) then Some (Done (set_client c CIdle s))
      else if Z.of_nat (length (queue_ s)) <? kMaxQueueSize then
        let cnt := runCounter_ s in
        let s := notify_one w (push t s) in
        match (if cnt mod SAMPLE_INTERVAL =? 0 then maybeAdjust now s else Done s) with
        | Done s => Some (Done (set_client c CIdle s))
        | Fail f => Some (Fail f)
        end
      else Some (Done (set_client c (CBlock t) (set_locked true s)))
  | CBlock t => Some (Done (set_client c (CWait t) (set_locked false s)))
  | _ => None
  end.

Definition exec_start (c : nat) s : option (outcome pool) :=
  match clients s c with
  | CStart =>
      if asserts_enabled && (running_ s || (numThreads_ s =? 0)%nat) then Some (Fail AssertFailed)
      else Some (Done (set_client c (CStartLoop 0) (set_running true s)))
  | CStartLoop i =>
      if (i <? numThreads_ s)%nat then
        match start_thread i (set_threads (threads_ s ++ [Thread.new (thread_name (name_ s) (Z.of_nat i))]) s) with
        | Done s => Some (Done (set_client c (CStartLoop (S i)) s))
        | Fail f => Some (Fail f)
        end
      else Some (Done (set_client c CIdle s))
  | _ => None
  end.

(** [stop], which does not lock [mutex_]. *)
Definition exec_stop (c : nat) s : option (outcome pool) :=
  match clients s c with
  | CStop => Some (Done (if running_ s then set_client c CStopNotify (set_running false s) else set_client c CIdle s))
  | CStopNotify => Some (Done (set_client c (CJoin 0) (notify_workers s)))
  | CJoin i =>
      match threads_ s !! i with
      | None => Some (Done (set_client c CIdle s))
      | Some th =>
          match thread_ th, workers s !! os s i with
          | Joinable, Some (WStart | WTest _ | WFill _ | WBlock _ | WWait _ | WWoken _ | WRun _) => None
          | _, _ =>
              match Thread.join th with
              | Done (_, th') => Some (Done (set_client c (CJoin (S i)) (set_threads (<[i := th']> (threads_ s)) s)))
              | Fail f => Some (Fail f)
              end
          end
      end
  | _ => None
  end.

Definition exec_client (c w : nat) (now : Z) s : option (outcome pool) :=
  match clients s c with
  | CIdle | CWait _ => None
  | CRun _ | CLock _ | CBlock _ => exec_run c w now s
  | CStart | CStartLoop _ => exec_start c s
  | CStop | CStopNotify | CJoin _ => exec_stop c s
  end.

(** [~ThreadPool]. *)
Definition destroy (c : nat) s : pool := if running_ s then set_client c CStop s else s.

(** [notify_one] wakes a waiting thread if there is one. *)
Definition picks (w : nat) s : Prop := existsb is_waiting (workers s) = true -> (exists c, workers s !! w = Some (WWait c)).

Inductive step : pool -> pool -> Prop :=
  | step_worker i w s s' : picks w s -> exec_worker i w s = Some s' -> step s s'
  | step_timeout i w s s' : exec_timeout i w s = Some s' -> step s s'
  | step_client c w now s s' : picks w s -> exec_client c w now s = Some (Done s') -> step s s'
  | step_spurious i c s : workers s !! i = Some (WWait c) -> step s (set_worker i (WWoken c) s)
  | step_spurious_client c t s : clients s c = CWait t -> step s (set_client c (CLock t) s)
  | step_run c t s : clients s c = CIdle -> step s (set_client c (CRun t) s)
  | step_start c s : clients s c = CIdle -> step s (set_client c CStart s)
  | step_stop c s : clients s c = CIdle -> step s (set_client c CStop s).

(** A pool of [n] threads before its start. *)
Definition ready (name : string) (m : model) (n : nat) : pool :=
  mkPool name false n kMinBatchSize m 0 0 false 0 0 [] [] false [] (fun i => i) (fun _ => CIdle) [] [] [] [].
Definition reachable s : Prop := exists name m n, rtc step (ready name m n) s.
(** ** The invariant *)

Definition remaining (c : ThreadLocalCache) : list Task := drop (index c) (tasks c).
(** The tasks a worker has taken and not run yet. *)
Definition cache_of (p : wpc) : list Task :=
  match p with WTest c | WFill c | WBlock c | WWait c | WWoken c | WRun c => remaining c | WStart | WDone => [] end.
Definition caches (l : list wpc) : list Task := flat_map cache_of l.

(** A worker that asks for a batch has none left. *)
Definition asks_empty (p : wpc) : Prop :=
  match p with WTest c | WFill c | WBlock c | WWait c | WWoken c => remaining c = [] | _ => True end.

(** [x]: tasks just taken, on their way into a cache. *)
Record TInv (x : list Task) s : Prop := {
  t_batch : kMinBatchSize <= batchSize_ s <= kMaxBatchSize;
  t_queue : Z.of_nat (length (queue_ s)) <= kMaxQueueSize;
  t_unused : queueLength_ s = 0;
  t_asks : Forall asks_empty (workers s);
  t_cache : Forall (fun p => Z.of_nat (length (cache_of p)) <= kMaxBatchSize) (workers s);
  t_fifo : submitted s = taken s ++ queue_ s;
  t_ran : taken s ≡ₚ ran s ++ caches (workers s) ++ x;
}.

Lemma caches_insert l i p q : l !! i = Some p -> caches (<[i := q]> l) ++ cache_of p ≡ₚ caches l ++ cache_of q.
Proof.
  intros Hi. rewrite <-(take_drop_middle l i p Hi) at 2. rewrite insert_take_drop by (apply lookup_lt_Some in Hi; lia).
  unfold caches. rewrite !flat_map_app. cbn. solve_Permutation.
Qed.

(** Replacing workers by others with the same caches. *)
Lemma caches_wake l : caches (map wake_worker l) = caches l.
Proof. unfold caches. induction l as [|[] l IH]; cbn; rewrite ?IH; reflexivity. Qed.

(** A step that changes neither the queue nor the histories. *)
Lemma tp_TInv_same x s s' : TInv x s -> batchSize_ s' = batchSize_ s -> queue_ s' = queue_ s -> queueLength_ s' = queueLength_ s ->
  submitted s' = submitted s -> taken s' = taken s -> ran s' = ran s -> workers s' = workers s -> TInv x s'.
Proof. intros [] E1 E2 E3 E4 E5 E6 E7. constructor; rewrite ?E1, ?E2, ?E3, ?E4, ?E5, ?E6, ?E7; assumption. Qed.

Lemma TInv_worker x i p q s : TInv x s -> workers s !! i = Some p -> cache_of q = cache_of p -> (asks_empty p -> asks_empty q) -> TInv x (set_worker i q s).
Proof.
  intros I Hi E Ha. constructor; try apply I; cbn.
  - apply Forall_insert; [apply I|]. apply Ha. exact (Forall_lookup_1 _ _ _ _ (t_asks _ _ I) Hi).
  - apply Forall_insert; [apply I|]. rewrite E. exact (Forall_lookup_1 _ _ _ _ (t_cache _ _ I) Hi).
  - rewrite (t_ran _ _ I). apply Permutation_app_head, Permutation_app_tail. apply (Permutation_app_inv_r (cache_of p)).
    rewrite (caches_insert _ _ _ q Hi). now rewrite E.
Qed.

Lemma TInv_notify x w s : TInv x s -> TInv x (notify_one w s).
Proof.
  intros I. unfold notify_one. destruct (workers s !! w) as [p|] eqn:E; [|exact I].
  apply (TInv_worker x w p); [exact I|exact E|now destruct p..].
Qed.

Lemma TInv_push x t s : TInv x s -> Z.of_nat (length (queue_ s)) < kMaxQueueSize -> TInv x (push t s).
Proof.
  intros I Hl. constructor; try apply I; cbn.
  - rewrite length_app. cbn. lia.
  - now rewrite (t_fifo _ _ I), app_assoc.
Qed.

Lemma TInv_spawn x i s : TInv x s -> TInv x (spawn i s).
Proof.
  intros I. constructor; try apply I; cbn.
  - apply Forall_app. split; [apply I|]. repeat constructor.
  - apply Forall_app. split; [apply I|]. repeat constructor. cbn. unfold kMaxBatchSize. lia.
  - unfold caches. rewrite flat_map_app. cbn. rewrite app_nil_r. apply I.
Qed.

Lemma TInv_start_thread x i s s' : TInv x s -> start_thread i s = Done s' -> TInv x s'.
Proof.
  intros I E. unfold start_thread in E. destruct (threads_ s !! i) as [th|]; [|discriminate].
  destruct (Thread.start th) as [[u th']|]; [|discriminate]. injection E as <-. apply TInv_spawn. now apply (tp_TInv_same x s).
Qed.

(** The CACHE model never grows: the queue length it looks at is never updated. *)
Lemma maybeAdjust_idle now s : queueLength_ s = 0 -> maybeAdjust now s = Done s \/
  maybeAdjust now s = Done (set_adjust false (lastScaleUpTime_ s) (set_adjust true (lastScaleUpTime_ s) s)).
Proof.
  intros E. unfold maybeAdjust. destruct (model_ s); [now left|]. destruct (adjusting_ s); [now left|]. right.
  cbn. rewrite E. reflexivity.
Qed.

Lemma adapt_bounds batch q : kMinBatchSize <= batch <= kMaxBatchSize -> kMinBatchSize <= adapt batch q <= kMaxBatchSize.
Proof.
  unfold adapt, kMinBatchSize, kMaxBatchSize. intros Hb. destruct (_ <? _); [lia|]. destruct (_ <? _); [|lia].
  rewrite Z.quot_div_nonneg by lia. Z.div_mod_to_equations. lia.
Qed.
Lemma TInv_notify_workers x s : TInv x s -> TInv x (notify_workers s).
Proof.
  intros I. constructor; try apply I; cbn.
  - apply Forall_map. apply (Forall_impl _ _ _ (t_asks _ _ I)). now intros [].
  - apply Forall_map. apply (Forall_impl _ _ _ (t_cache _ _ I)). now intros [].
  - rewrite caches_wake. apply I.
Qed.

Lemma TInv_take n b s : TInv [] s -> kMinBatchSize <= b <= kMaxBatchSize -> TInv (take n (queue_ s)) (take_batch n (set_batch b s)).
Proof.
  intros I Hb. constructor; try apply I; cbn.
  - exact Hb.
  - rewrite length_drop. pose proof (t_queue _ _ I). lia.
  - rewrite <-app_assoc, take_drop. apply I.
  - rewrite (t_ran _ _ I), app_nil_r. solve_Permutation.
Qed.

(** The tasks on their way arrive in the cache of a worker that had none. *)
Lemma TInv_arrive x i p q s : TInv x s -> workers s !! i = Some p -> cache_of p = [] -> cache_of q = x -> asks_empty q ->
  Z.of_nat (length x) <= kMaxBatchSize -> TInv [] (set_worker i q s).
Proof.
  intros I Hi Ep Eq Ha Hl. constructor; try apply I; cbn.
  - apply Forall_insert; [apply I|exact Ha].
  - apply Forall_insert; [apply I|]. now rewrite Eq.
  - rewrite (t_ran _ _ I), app_nil_r. apply Permutation_app_head. pose proof (caches_insert _ _ _ q Hi) as Hp.
    rewrite Ep, app_nil_r, Eq in Hp. now rewrite Hp.
Qed.

Lemma notify_lookup w i s p : workers s !! i = Some p ->
  exists p', workers (notify_one w s) !! i = Some p' /\ cache_of p' = cache_of p.
Proof.
  intros Hi. unfold notify_one. destruct (workers s !! w) as [pw|] eqn:Ew; [|eauto]. cbn.
  destruct (decide (w = i)) as [->|Hne].
  - rewrite list_lookup_insert_eq by (apply lookup_lt_Some in Hi; done). eexists. split; [done|]. rewrite Hi in Ew. injection Ew as ->. now destruct pw.
  - rewrite list_lookup_insert_ne by done. eauto.
Qed.

Ltac arrive := first [assumption | exact Logic.I | reflexivity | congruence | (cbn; congruence) | (cbn; unfold kMaxBatchSize; lia)].

Lemma TInv_fill i w c p s : TInv [] s -> workers s !! i = Some p -> cache_of p = remaining c -> remaining c = [] ->
  TInv [] (after_fill i c (fill_rest w s)).
Proof.
  intros I Hi Ep Ec. unfold fill_rest. cbv zeta. destruct (fill_stop s) as [r|] eqn:Es.
  - unfold after_fill; cbn. destruct r as [| |c'].
    + apply (TInv_arrive [] i p); arrive.
    + apply (TInv_arrive [] i p); arrive.
    + unfold fill_stop in Es. repeat case_match; discriminate.
  - set (b := adapt _ _). set (s1 := set_batch b s). set (n := Z.to_nat _).
    assert (Hb : kMinBatchSize <= b <= kMaxBatchSize) by apply adapt_bounds, I.
    assert (Hn : Z.of_nat n <= kMaxBatchSize) by (unfold n, s1, kMinBatchSize, kMaxBatchSize in *; cbn; lia).
    pose proof (TInv_take n b s I Hb) as I1. fold s1 in I1.
    set (s2 := match queue_ (take_batch n s1) with [] => take_batch n s1 | _ :: _ => notify_one w (take_batch n s1) end).
    assert (I2 : TInv (take n (queue_ s)) s2) by (unfold s2; destruct (queue_ (take_batch n s1)); auto using TInv_notify).
    assert (H2 : exists p', workers s2 !! i = Some p' /\ cache_of p' = cache_of p).
    { unfold s2. destruct (queue_ (take_batch n s1)); [eauto|]. now apply notify_lookup. }
    destruct H2 as (p' & Hp' & Ep'). change (queue_ s1) with (queue_ s).
    assert (Hx : Z.of_nat (length (take n (queue_ s))) <= kMaxBatchSize) by (rewrite length_take; lia).
    set (s3 := if Z.of_nat (length (queue_ s2)) <? Z.quot (kMaxQueueSize * 3) 4 then notify_clients s2 else s2).
    assert (I3 : TInv (take n (queue_ s)) s3) by (unfold s3; destruct (_ <? _); [now apply (tp_TInv_same _ s2)|exact I2]).
    assert (Hp3 : workers s3 !! i = Some p') by (unfold s3; now destruct (_ <? _)).
    unfold after_fill; cbn. destruct (Nat.eqb_spec n 0) as [En|En].
    + rewrite En in I3. apply (TInv_arrive [] i p'); arrive.
    + apply (TInv_arrive (take n (queue_ s)) i p'); arrive.
Qed.

(** A worker moves on with the cache it has. *)
Ltac keep_cache s i I Hi :=
  lazymatch goal with |- TInv [] (set_worker i ?q ?s') =>
    refine (TInv_worker [] i _ q s' _ Hi _ _);
    [exact I || exact (tp_TInv_same [] s s' I eq_refl eq_refl eq_refl eq_refl eq_refl eq_refl eq_refl)|reflexivity|try exact (fun h => h)] end.

Lemma TInv_exec_worker i w s s' : TInv [] s -> exec_worker i w s = Some s' -> TInv [] s'.
Proof.
  intros I Hx. unfold exec_worker in Hx. destruct (workers s !! i) as [[|c|c|c|c|c|c|]|] eqn:Hi; try discriminate.
  - injection Hx as <-. keep_cache s i I Hi. done.
  - injection Hx as <-. pose proof (Forall_lookup_1 _ _ _ _ (t_asks _ _ I) Hi) as He. cbn in He.
    destruct (running_ s); [keep_cache s i I Hi|]. apply (TInv_arrive [] i (WTest c)); arrive.
  - destruct (_ <? _)%nat; injection Hx as <-; keep_cache s i I Hi. done.
  - injection Hx as <-. keep_cache s i I Hi.
  - destruct (locked s); [discriminate|]. pose proof (Forall_lookup_1 _ _ _ _ (t_asks _ _ I) Hi) as He. cbn in He.
    destruct (may_go s); injection Hx as <-; [|keep_cache s i I Hi]. exact (TInv_fill i w c _ s I Hi eq_refl He).
  - destruct (tasks c !! index c) as [t|] eqn:Et; injection Hx as <-.
    + assert (Hr : remaining c = t :: remaining (mkCache (tasks c) (S (index c)))) by (unfold remaining; cbn; now rewrite (drop_S _ _ _ Et)).
      assert (Hb : Z.of_nat (length (remaining c)) <= kMaxBatchSize) by exact (Forall_lookup_1 _ _ _ _ (t_cache _ _ I) Hi).
      constructor; try apply I; cbn [workers set_worker add_ran].
      * apply Forall_insert; [apply I|done].
      * apply Forall_insert; [apply I|]. cbn [cache_of]. rewrite Hr, length_cons in Hb. lia.
      * change (taken s ≡ₚ (ran s ++ [t]) ++ caches (<[i:=WRun (mkCache (tasks c) (S (index c)))]> (workers s)) ++ []).
        rewrite (t_ran _ _ I). rewrite !app_nil_r, <-app_assoc. apply Permutation_app_head.
        pose proof (caches_insert _ _ _ (WRun (mkCache (tasks c) (S (index c)))) Hi) as Hp. cbn [cache_of] in Hp. rewrite Hr in Hp.
        apply (Permutation_app_inv_r (remaining (mkCache (tasks c) (S (index c))))). rewrite <-Hp. solve_Permutation.
    + apply lookup_ge_None in Et. keep_cache s i I Hi. intros _. cbn. unfold remaining. apply drop_ge. exact Et.
Qed.

Lemma TInv_exec_timeout i w s s' : TInv [] s -> exec_timeout i w s = Some s' -> TInv [] s'.
Proof.
  intros I Hx. unfold exec_timeout in Hx. destruct (workers s !! i) as [[| | | |c| | |]|] eqn:Hi; try discriminate.
  destruct (model_ s); [discriminate|]. destruct (locked s); [discriminate|]. injection Hx as <-.
  pose proof (Forall_lookup_1 _ _ _ _ (t_asks _ _ I) Hi) as He. exact (TInv_fill i w c _ s I Hi eq_refl He).
Qed.

Lemma TInv_client x c p s : TInv x s -> TInv x (set_client c p s).
Proof. intros I. now apply (tp_TInv_same x s). Qed.

Lemma TInv_exec_run c w now s s' : TInv [] s -> exec_run c w now s = Some (Done s') -> TInv [] s'.
Proof.
  intros I Hx. unfold exec_run in Hx. destruct (clients s c) as [|t|t|t| | | | | |]; try discriminate.
  - injection Hx as <-. destruct (threads_ s); apply TInv_client; [now apply (tp_TInv_same [] s)|exact I].
  - destruct (locked s); [discriminate|]. destruct (negb (running_ s)); [injection Hx as <-; now apply TInv_client|].
    destruct (Z.ltb_spec (Z.of_nat (length (queue_ s))) kMaxQueueSize) as [Hl|]; [|injection Hx as <-; apply TInv_client; now apply (tp_TInv_same [] s)].
    pose proof (TInv_notify [] w _ (TInv_push [] t s I Hl)) as I1. set (s1 := notify_one w (push t s)) in *. cbv zeta in Hx.
    destruct (runCounter_ s mod SAMPLE_INTERVAL =? 0).
    + destruct (maybeAdjust_idle now s1 (t_unused _ _ I1)) as [E|E]; rewrite E in Hx; injection Hx as <-; apply TInv_client; [exact I1|].
      now apply (tp_TInv_same [] s1).
    + injection Hx as <-. now apply TInv_client.
  - injection Hx as <-. apply TInv_client. now apply (tp_TInv_same [] s).
Qed.

Lemma TInv_exec_start c s s' : TInv [] s -> exec_start c s = Some (Done s') -> TInv [] s'.
Proof.
  intros I Hx. unfold exec_start in Hx. destruct (clients s c) as [| | | | | |i| | |]; try discriminate.
  - destruct (_ && _); [discriminate|]. injection Hx as <-. apply TInv_client. now apply (tp_TInv_same [] s).
  - destruct (i <? numThreads_ s)%nat; [|injection Hx as <-; now apply TInv_client].
    destruct (start_thread i _) as [s1|] eqn:E; [|discriminate]. injection Hx as <-. apply TInv_client.
    refine (TInv_start_thread [] i _ _ _ E). now apply (tp_TInv_same [] s).
Qed.

Lemma TInv_exec_stop c s s' : TInv [] s -> exec_stop c s = Some (Done s') -> TInv [] s'.
Proof.
  intros I Hx. unfold exec_stop in Hx. destruct (clients s c) as [| | | | | | | | |i]; try discriminate.
  - injection Hx as <-. destruct (running_ s); apply TInv_client; [now apply (tp_TInv_same [] s)|exact I].
  - injection Hx as <-. apply TInv_client. now apply TInv_notify_workers.
  - destruct (threads_ s !! i) as [th|]; [|injection Hx as <-; now apply TInv_client].
    destruct (Thread.join th) as [[u th']|].
    + enough (Hs' : s' = set_client c (CJoin (S i)) (set_threads (<[i:=th']> (threads_ s)) s)).
      { rewrite Hs'. apply TInv_client. now apply (tp_TInv_same [] s). }
      repeat case_match; congruence.
    + repeat case_match; discriminate.
Qed.

Lemma TInv_step s s' : TInv [] s -> step s s' -> TInv [] s'.
Proof.
  intros I Hst. destruct Hst as [i w s s' _ Hx|i w s s' Hx|c w now s s' _ Hx|i c s Hi|c t s Hc|c t s _|c s _|c s _];
    try (now apply TInv_client).
  - exact (TInv_exec_worker i w s s' I Hx).
  - exact (TInv_exec_timeout i w s s' I Hx).
  - unfold exec_client in Hx. destruct (clients s c); try discriminate; eauto using TInv_exec_run, TInv_exec_start, TInv_exec_stop.
  - now apply (TInv_worker [] i (WWait c)).
Qed.

Lemma TInv_reachable s : reachable s -> TInv [] s.
Proof.
  intros (name & m & n & H'). revert s H'. apply (rtc_ind_r (TInv [])).
  - constructor; cbn; try done; unfold kMinBatchSize, kMaxBatchSize, kMaxQueueSize; lia.
  - intros s s' _ Hst IH. exact (TInv_step s s' IH Hst).
Qed.

(** ** Properties *)

(** C35: in every reachable state the tasks pushed are, in order, those moved into
    caches followed by those queued; the tasks moved are, as a multiset, those run
    and those still in a worker's cache, so each accepted task is run at most
    once and none disappears; the batch size stays between its limits, the queue
    and every cache are bounded. *)
Theorem tp_accounting s : reachable s ->
  submitted s = taken s ++ queue_ s /\
  taken s ≡ₚ ran s ++ caches (workers s) /\
  kMinBatchSize <= batchSize_ s <= kMaxBatchSize /\
  Z.of_nat (length (queue_ s)) <= kMaxQueueSize /\
  Forall (fun p => Z.of_nat (length (cache_of p)) <= kMaxBatchSize) (workers s).
Proof.
  intros Hr. pose proof (TInv_reachable s Hr) as I. split_and!; try apply I.
  pose proof (t_ran _ _ I) as Hp. now rewrite app_nil_r in Hp.
Qed.
End ThreadPool.

Module Demo.
Inductive act := Worker (i w : nat) | Client (c w : nat) | Run (c t : nat) | Start (c : nat) | Stop (c : nat).
Section Play.
Context `{Build}.
Definition idle (c : nat) (s : @pool nat) : bool := match clients s c with CIdle => true | _ => false end.
Definition pick_ok (w : nat) (s : @pool nat) : bool :=
  negb (existsb is_waiting (workers s)) || match workers s !! w with Some (WWait _) => true | _ => false end.
Definition do (a : act) (s : @pool nat) : option pool :=
  match a with
  | Worker i w => if pick_ok w s then exec_worker i w s else None
  | Client c w => if pick_ok w s then match exec_client c w 0 s with Some (Done s') => Some s' | _ => None end else None
  | Run c t => if idle c s then Some (set_client c (CRun t) s) else None
  | Start c => if idle c s then Some (set_client c CStart s) else None
  | Stop c => if idle c s then Some (set_client c CStop s) else None
  end.
Fixpoint play (l : list act) (s : @pool nat) : option pool :=
  match l with [] => Some s | a :: l' => do a s ≫= play l' end.

Lemma pick_ok_picks w s : pick_ok w s = true -> picks w s.
Proof.
  unfold pick_ok, picks. intros E Hw. rewrite Hw in E. cbn in E.
  destruct (workers s !! w) as [[| | | |c| | |]|]; try discriminate. eauto.
Qed.

Lemma idle_eq c s : idle c s = true -> clients s c = CIdle.
Proof. unfold idle. now destruct (clients s c). Qed.

Lemma tp_play_rtc l s s' : play l s = Some s' -> rtc step s s'.
Proof.
  revert s. induction l as [|a l IH]; cbn; intros s.
  - intros [= <-]. reflexivity.
  - destruct (do a s) as [q|] eqn:E; [|discriminate]. cbn. intros E2. apply rtc_l with q; [|auto].
    destruct a as [i w|c w|c t|c|c]; cbn in E.
    + destruct (pick_ok w s) eqn:Ep; [|discriminate]. exact (step_worker i w s q (pick_ok_picks w s Ep) E).
    + destruct (pick_ok w s) eqn:Ep; [|discriminate]. destruct (exec_client c w 0 s) as [[s1|]|] eqn:Ex; simplify_eq.
      exact (step_client c w 0 s q (pick_ok_picks w s Ep) Ex).
    + destruct (idle c s) eqn:Ei; simplify_eq. apply step_run, idle_eq, Ei.
    + destruct (idle c s) eqn:Ei; simplify_eq. apply step_start, idle_eq, Ei.
    + destruct (idle c s) eqn:Ei; simplify_eq. apply step_stop, idle_eq, Ei.
Qed.
End Play.

Definition begin : list act := [Start 0; Client 0 0; Client 0 0; Client 0 0; Worker 0 0].
Definition s0 : @pool nat := ready "p" FIXED 1.
(** The worker has found its predicate false and has not blocked yet. *)
Definition hang : list act :=
  begin ++ [Worker 0 0; Worker 0 0; Worker 0 0; Stop 0; Client 0 0; Client 0 0; Worker 0 0].
Definition hung : pool := default s0 (play (H := debug_build) hang s0).
(** The worker is about to test [running_]. *)
Definition drop : list act :=
  begin ++ [Run 1 7; Client 1 0; Client 1 0; Stop 0; Client 0 0; Client 0 0; Worker 0 0; Client 0 0; Client 0 0].
Definition dropped : pool := default s0 (play (H := debug_build) drop s0).

(** [stop] sets [running_] without holding [mutex_]: a worker between the
    test of its predicate and the wait misses the notification, and then nothing
    but a spurious wake-up ends the join.  A worker that sees [running_] false
    leaves with tasks in the queue, so an orderly stop may drop accepted tasks. *)
Theorem tp_stop_hangs_or_drops :
  (reachable (H := debug_build) hung /\ clients hung 0 = CJoin 0 /\ workers hung = [WWait no_cache] /\ locked hung = false /\
   (forall i w, exec_worker i w hung = None) /\ (forall i w, exec_timeout i w hung = None) /\
   (forall c w now, exec_client (H := debug_build) c w now hung = None)) /\
  (reachable (H := debug_build) dropped /\ clients dropped 0 = CIdle /\ running_ dropped = false /\ workers dropped = [WDone] /\
   submitted dropped = [7%nat] /\ ran dropped = [] /\ queue_ dropped = [7%nat]).
Proof.
  assert (Hw : workers hung = [WWait no_cache]) by (vm_compute; reflexivity).
  assert (Hm : model_ hung = FIXED) by (vm_compute; reflexivity).
  split; split_and!; try (vm_compute; reflexivity).
  - exists "p", FIXED, 1%nat. apply (tp_play_rtc (H := debug_build) hang). vm_compute. reflexivity.
  - intros i w. unfold exec_worker. rewrite Hw. destruct i as [|[|i]]; reflexivity.
  - intros i w. unfold exec_timeout. rewrite Hw, Hm. destruct i as [|[|i]]; reflexivity.
  - intros [|[|c]] w now; vm_compute; reflexivity.
  - exists "p", FIXED, 1%nat. apply (tp_play_rtc (H := debug_build) drop). vm_compute. reflexivity.
Qed.

Lemma tp_accounting_witness :
  queue_ dropped = [7%nat] /\ submitted dropped = taken dropped ++ queue_ dropped /\ kMinBatchSize <= batchSize_ dropped <= kMaxBatchSize.
Proof.
  split; [vm_compute; reflexivity|].
  assert (Hr : reachable (H := debug_build) dropped).
  { exists "p", FIXED, 1%nat. apply (tp_play_rtc (H := debug_build) drop). vm_compute. reflexivity. }
  destruct (tp_accounting (H := debug_build) dropped Hr) as (Hf & _ & Hb & _). split; [exact Hf|exact Hb].
Defined.
End Demo.
