(* ===== verification/DynamicThreadPool.v ===== *)
(** DynamicThreadPool: [base/DynamicThreadPool.h], a pool that adds and removes
    worker threads.

    A step is one critical section of [queueMutex_], one unlocked access, one task
    or a tick of the clock; [cv_.wait_for] may return at any moment (notified,
    timed out or spuriously), so notifications are not recorded.  Time points are
    nanoseconds.  [config_.minThreads_] of the code (a member that does not exist)
    is read as [minThreads]. *)

From Stdlib Require Import ZArith Lia.
From S2P Require Import Prelude.

Local Open Scope Z_scope.

(** The factors of the code are [double]; here they are fractions and the
    products are exact. *)
Record Config := mkConfig {
  minThreads : Z;
  maxThreads : Z;
  initialThreads : Z;
  expandFactor : Z * Z;
  shrinkFactor : Z * Z;
  avgWaitThreshold : Z;      (* milliseconds *)
  idleTimeout : Z;           (* seconds *)
  expandCooldown : Z;        (* seconds *)
  shrinkCooldown : Z;        (* seconds *)
  jitter : Z * Z;
}.
Definition default_config : Config := mkConfig 2 128 4 (2, 1) (1, 2) 50 60 2 10 (1, 5).

Definition ns_per_ms : Z := 1000000.
Definition ns_per_s : Z := 1000000000.
(** [static_cast<size_t>(n * factor)]. *)
Definition scaled (n : Z) (factor : Z * Z) : Z := Z.quot (n * fst factor) (snd factor).
(** [static_cast<int>]. *)
Definition int_of (z : Z) : Z := (z + 2147483648) mod 4294967296 - 2147483648.

Section DynamicThreadPool.
Context `{Build} {Task : Type} (config_ : Config).

Record TaskEntry := mkEntry { task : Task; enqueueTime : Z }.

(** A worker thread, by where it is in [workerLoop]. *)
Inductive wpc :=
  | WStart
  | WTop (lastActive : Z)                (* about to lock queueMutex_ *)
  | WWait (lastActive : Z)               (* in cv_.wait_for *)
  | WRun (t : Task) (lastActive : Z)
  | WShrink (lastActive : Z)             (* tryShrink, without the lock *)
  | WShrinkLock (lastActive now : Z)     (* tryShrink, about to lock *)
  | WExit.

(** A thread that uses the pool. *)
Inductive cpc :=
  | CIdle
  | CPush (t : Task) (now : Z)           (* submit, about to lock *)
  | CNotify
  | CExpand                              (* tryExpand, without the lock *)
  | CExpandLock (now : Z)                (* tryExpand, about to lock *)
  | CStop                                (* stopAll, about to set stop_ *)
  | CPoll                                (* stopAll, about to look at threads_ *)
  | CStopped.                            (* stopAll has returned *)

Record pool := mkPool {
  tasks_ : list TaskEntry;
  threads_ : Z;
  stop_ : bool;
  lastExpandTime_ : Z;
  lastShrinkTime_ : Z;
  clock : Z;
  workers : list wpc;
  clients : nat -> cpc;
  submitted : list Task;     (* history: pushed, in order *)
  taken : list Task;         (* history: popped by workers, in order *)
  shrunk : Z;                (* history: tryShrink decremented threads_ *)
}.
Implicit Types (s : pool).

Definition set_worker (i : nat) (p : wpc) s : pool :=
  mkPool (tasks_ s) (threads_ s) (stop_ s) (lastExpandTime_ s) (lastShrinkTime_ s) (clock s) (<[i := p]> (workers s)) (clients s)
    (submitted s) (taken s) (shrunk s).
Definition set_client (c : nat) (p : cpc) s : pool :=
  mkPool (tasks_ s) (threads_ s) (stop_ s) (lastExpandTime_ s) (lastShrinkTime_ s) (clock s) (workers s)
    (fun c' => if decide (c' = c) then p else clients s c') (submitted s) (taken s) (shrunk s).
Definition push (t : Task) (now : Z) s : pool :=
  mkPool (tasks_ s ++ [mkEntry t now]) (threads_ s) (stop_ s) (lastExpandTime_ s) (lastShrinkTime_ s) (clock s) (workers s) (clients s)
    (submitted s ++ [t]) (taken s) (shrunk s).
Definition pop (t : Task) (rest : list TaskEntry) s : pool :=
  mkPool rest (threads_ s) (stop_ s) (lastExpandTime_ s) (lastShrinkTime_ s) (clock s) (workers s) (clients s)
    (submitted s) (taken s ++ [t]) (shrunk s).
Definition set_threads (n : Z) s : pool :=
  mkPool (tasks_ s) (wrap64 n) (stop_ s) (lastExpandTime_ s) (lastShrinkTime_ s) (clock s) (workers s) (clients s)
    (submitted s) (taken s) (shrunk s).
Definition set_stop s : pool :=
  mkPool (tasks_ s) (threads_ s) true (lastExpandTime_ s) (lastShrinkTime_ s) (clock s) (workers s) (clients s)
    (submitted s) (taken s) (shrunk s).
Definition set_expand (t : Z) s : pool :=
  mkPool (tasks_ s) (threads_ s) (stop_ s) t (lastShrinkTime_ s) (clock s) (workers s) (clients s)
    (submitted s) (taken s) (shrunk s).
Definition set_shrink (t : Z) s : pool :=
  mkPool (tasks_ s) (threads_ s) (stop_ s) (lastExpandTime_ s) t (clock s) (workers s) (clients s)
    (submitted s) (taken s) (shrunk s + 1).
Definition tick (d : Z) s : pool :=
  mkPool (tasks_ s) (threads_ s) (stop_ s) (lastExpandTime_ s) (lastShrinkTime_ s) (clock s + d) (workers s) (clients s)
    (submitted s) (taken s) (shrunk s).
Definition add_worker s : pool :=
  mkPool (tasks_ s) (threads_ s) (stop_ s) (lastExpandTime_ s) (lastShrinkTime_ s) (clock s) (workers s ++ [WStart]) (clients s)
    (submitted s) (taken s) (shrunk s).

Definition spawnOne s : pool := add_worker (set_threads (threads_ s + 1) s).

Definition resize (target : Z) s : pool :=
  Nat.iter (Z.to_nat (target - threads_ s)) spawnOne s.

(** The constructor; [now] is read twice, once per cool-down. *)
Definition new (now1 now2 : Z) : outcome pool :=
  if asserts_enabled && negb (minThreads config_ <=? initialThreads config_) then Fail AssertFailed
  else if asserts_enabled && negb (initialThreads config_ <=? maxThreads config_) then Fail AssertFailed
  else Done (resize (initialThreads config_)
    (mkPool [] 0 false (now1 - expandCooldown config_ * ns_per_s) (now2 - shrinkCooldown config_ * ns_per_s) now2 [] (fun _ => CIdle) [] [] 0)).

Definition computeAvgWait (now : Z) (l : list TaskEntry) : Z :=
  match l with
  | [] => 0
  | _ => let total := fold_left (fun total e => total + Z.quot (now - enqueueTime e) ns_per_ms) l 0 in
         Z.quot total (int_of (Z.of_nat (length l)))
  end.

(** [tryExpand] from the point where the lock is held. *)
Definition tryExpand_locked (now : Z) s : pool :=
  if maxThreads config_ <=? threads_ s then s
  else if now - lastExpandTime_ s <? expandCooldown config_ * ns_per_s then s
  else if Z.of_nat (length (tasks_ s)) <=? scaled (threads_ s) (expandFactor config_) then s
  else if computeAvgWait now (tasks_ s) <? avgWaitThreshold config_ then s
  else set_expand now (spawnOne s).
Definition tryExpand_fast s : bool :=
  negb (maxThreads config_ <=? threads_ s) && negb (clock s - lastExpandTime_ s <? expandCooldown config_ * ns_per_s).

(** [tryShrink]; the thread that decrements [threads_] goes on running. *)
Definition tryShrink_locked (lastActive now : Z) s : pool :=
  if threads_ s <=? minThreads config_ then s
  else if now - lastShrinkTime_ s <? shrinkCooldown config_ * ns_per_s then s
  else if scaled (threads_ s) (shrinkFactor config_) <? Z.of_nat (length (tasks_ s)) then s
  else if Z.quot (now - lastActive) ns_per_s <? idleTimeout config_ then s
  else set_shrink now (set_threads (threads_ s - 1) s).
Definition tryShrink_fast s : bool :=
  negb (threads_ s <=? minThreads config_) && negb (clock s - lastShrinkTime_ s <? shrinkCooldown config_ * ns_per_s).

(** The time a worker waits, in milliseconds, for a value of [rand()]. *)
Definition wait_ms (rand RAND_MAX : Z) : Z :=
  let jitterMs := scaled (idleTimeout config_ * 1000) (jitter config_) in
  idleTimeout config_ * 1000 + Z.quot (jitterMs * (rand * 2 - RAND_MAX)) RAND_MAX.

(** The end of the first part of the loop body: take a task if there is one. *)
Definition take_task (i : nat) (lastActive : Z) s : pool :=
  match tasks_ s with
  | e :: rest => set_worker i (WRun (task e) lastActive) (pop (task e) rest s)
  | [] => set_worker i (WShrink lastActive) s
  end.

(** After [wait_for] has returned with the lock. *)
Definition woken (i : nat) (lastActive : Z) s : pool :=
  let empty := match tasks_ s with [] => true | _ => false end in
  if stop_ s && empty then set_worker i WExit (set_threads (threads_ s - 1) s)
  else if empty && negb (stop_ s) && (minThreads config_ <? threads_ s)
          && (idleTimeout config_ <=? Z.quot (clock s - lastActive) ns_per_s)
  then set_worker i WExit (set_threads (threads_ s - 1) s)
  else take_task i lastActive s.

(** [workerLoop], the next step of worker [i]. *)
Definition exec_worker (i : nat) s : option pool :=
  match workers s !! i with
  | Some WStart => Some (set_worker i (WTop (clock s)) s)
  | Some (WTop la) =>
      let empty := match tasks_ s with [] => true | _ => false end in
      Some (if empty || stop_ s then set_worker i (WWait la) s else take_task i la s)
  | Some (WWait la) => Some (woken i la s)
  | Some (WRun t la) => Some (set_worker i (WShrink (clock s)) s)
  | Some (WShrink la) =>
      Some (set_worker i (if tryShrink_fast s then WShrinkLock la (clock s) else WTop la) s)
  | Some (WShrinkLock la now) => Some (set_worker i (WTop la) (tryShrink_locked la now s))
  | Some WExit | None => None
  end.

(** [stopAll]. *)
Definition exec_stop (c : nat) s : option pool :=
  match clients s c with
  | CStop => Some (set_client c CPoll (set_stop s))
  | CPoll => Some (if threads_ s =? 0 then set_client c CStopped s else s)
  | _ => None
  end.

(** [submit]; the destructor is [stopAll]. *)
Definition exec_client (c : nat) s : option pool :=
  match clients s c with
  | CPush t now => Some (set_client c CNotify (push t now s))
  | CNotify => Some (set_client c CExpand s)
  | CExpand => Some (set_client c (if tryExpand_fast s then CExpandLock (clock s) else CIdle) s)
  | CExpandLock now => Some (set_client c CIdle (tryExpand_locked now s))
  | CStop | CPoll => exec_stop c s
  | CIdle | CStopped => None
  end.

Definition threadCount s : Z := threads_ s.
Definition pendingTasks s : Z := Z.of_nat (length (tasks_ s)).

Inductive step : pool -> pool -> Prop :=
  | step_worker i s s' : exec_worker i s = Some s' -> step s s'
  | step_client c s s' : exec_client c s = Some s' -> step s s'
  | step_submit c t s : clients s c = CIdle -> step s (set_client c (CPush t (clock s)) s)
  | step_stop c s : clients s c = CIdle -> step s (set_client c CStop s)
  | step_tick d s : 0 <= d -> step s (tick d s).

Definition reachable s : Prop := exists now1 now2 s0, now1 <= now2 /\ new now1 now2 = Done s0 /\ rtc step s0 s.

(** ** Counting the workers *)

Definition alive (p : wpc) : Z := match p with WExit => 0 | _ => 1 end.
Fixpoint live (l : list wpc) : Z := match l with [] => 0 | p :: l' => alive p + live l' end.

Lemma live_app l p : live (l ++ [p]) = live l + alive p.
Proof. induction l as [|q l IH]; cbn; lia. Qed.

Lemma live_insert l i p q : l !! i = Some p -> live (<[i := q]> l) = live l - alive p + alive q.
Proof.
  revert i. induction l as [|r l IH]; intros [|i]; cbn; try discriminate.
  - intros [= ->]. lia.
  - intros Hi. change (alive r + live (<[i:=q]> l) = alive r + live l - alive p + alive q). rewrite (IH i Hi). lia.
Qed.

Lemma live_nonneg l : 0 <= live l.
Proof. induction l as [|[] l IH]; cbn; lia. Qed.

(** ** The invariant *)

Hypothesis config_ok : 0 <= minThreads config_ <= initialThreads config_ /\
  initialThreads config_ <= maxThreads config_ < size_mod.

Record DInv s : Prop := {
  d_count : threads_ s = wrap64 (live (workers s) - shrunk s);
  d_shrunk : 0 <= shrunk s;
  d_bounds : stop_ s = false -> minThreads config_ <= threads_ s <= maxThreads config_;
  d_fifo : submitted s = taken s ++ map task (tasks_ s);
}.

(** Steps that change none of this. *)
Lemma DInv_same s s' : DInv s -> threads_ s' = threads_ s -> live (workers s') = live (workers s) -> shrunk s' = shrunk s ->
  (stop_ s' = false -> stop_ s = false) -> submitted s' = submitted s -> taken s' = taken s -> tasks_ s' = tasks_ s -> DInv s'.
Proof.
  intros [] E1 E2 E3 E4 E5 E6 E7. constructor; rewrite ?E1, ?E2, ?E3, ?E5, ?E6, ?E7; auto.
Qed.

Lemma DInv_move i p q s : DInv s -> workers s !! i = Some p -> alive p = alive q -> DInv (set_worker i q s).
Proof. intros I Hp E. apply (DInv_same s); auto. cbn. rewrite (live_insert _ _ _ _ Hp). lia. Qed.

Lemma wrap64_step a b : wrap64 (wrap64 a + b) = wrap64 (a + b).
Proof. zlia. Qed.

(** One thread more or less. *)
Lemma DInv_spawn s : DInv s -> (stop_ s = false -> threads_ s < maxThreads config_) -> DInv (spawnOne s).
Proof.
  intros I Hlt. constructor; cbn; try apply I.
  - rewrite live_app, (d_count _ I), wrap64_step. f_equal. cbn. lia.
  - intros Hs. pose proof (d_bounds _ I Hs). specialize (Hlt Hs). rewrite wrap64_small by lia. lia.
Qed.

Lemma DInv_exit i p s : DInv s -> workers s !! i = Some p -> alive p = 1 ->
  (stop_ s = false -> minThreads config_ < threads_ s) -> DInv (set_worker i WExit (set_threads (threads_ s - 1) s)).
Proof.
  intros I Hp Ha Hlt. constructor; cbn; try apply I.
  - rewrite (live_insert _ _ _ _ Hp), (d_count _ I). change (wrap64 ?x - 1) with (wrap64 x + -1). rewrite wrap64_step. f_equal. cbn. lia.
  - intros Hs. pose proof (d_bounds _ I Hs). specialize (Hlt Hs). rewrite wrap64_small by lia. lia.
Qed.

Lemma DInv_shrink la now s : DInv s -> DInv (tryShrink_locked la now s).
Proof.
  intros I. unfold tryShrink_locked. destruct (Z.leb_spec (threads_ s) (minThreads config_)) as [|Hlt]; [exact I|].
  destruct (_ <? _); [exact I|]. destruct (_ <? _); [exact I|]. destruct (_ <? _); [exact I|].
  constructor; cbn; try apply I.
  - rewrite (d_count _ I). change (wrap64 ?x - 1) with (wrap64 x + -1). rewrite wrap64_step. f_equal. lia.
  - pose proof (d_shrunk _ I). lia.
  - intros Hs. pose proof (d_bounds _ I Hs). rewrite wrap64_small by lia. lia.
Qed.

Lemma DInv_expand now s : DInv s -> DInv (tryExpand_locked now s).
Proof.
  intros I. unfold tryExpand_locked. destruct (Z.leb_spec (maxThreads config_) (threads_ s)) as [|Hlt]; [exact I|].
  destruct (_ <? _); [exact I|]. destruct (_ <=? _); [exact I|]. destruct (_ <? _); [exact I|].
  pose proof (DInv_spawn s I ltac:(auto)) as I'. apply (DInv_same (spawnOne s)); auto.
Qed.

Lemma DInv_take i la p s : DInv s -> workers s !! i = Some p -> alive p = 1 -> DInv (take_task i la s).
Proof.
  intros I Hp Ha. unfold take_task. destruct (tasks_ s) as [|e rest] eqn:Et; [exact (DInv_move i p (WShrink la) s I Hp Ha)|].
  constructor; cbn; try apply I.
  - rewrite (live_insert _ _ _ _ Hp), (d_count _ I). f_equal. cbn. lia.
  - rewrite (d_fifo _ I), Et, <-app_assoc. reflexivity.
Qed.

Ltac moved s i I Hp :=
  lazymatch goal with |- context [set_worker i ?q s] => exact (DInv_move i _ q s I Hp eq_refl) end.

Lemma DInv_worker i s s' : DInv s -> exec_worker i s = Some s' -> DInv s'.
Proof.
  intros I Hx. unfold exec_worker in Hx. destruct (workers s !! i) as [[|la|la|t la|la|la now|]|] eqn:Hp; try discriminate; injection Hx as <-.
  - moved s i I Hp.
  - destruct (_ || _); [moved s i I Hp|exact (DInv_take i la _ s I Hp eq_refl)].
  - unfold woken. destruct (stop_ s && _) eqn:Es.
    + apply andb_true_iff in Es as [Es _]. apply (DInv_exit i _ s I Hp eq_refl). congruence.
    + destruct (_ && _ && _ && _) eqn:E2; [|exact (DInv_take i la _ s I Hp eq_refl)].
      rewrite !andb_true_iff, Z.ltb_lt in E2. apply (DInv_exit i _ s I Hp eq_refl). intros _. apply E2.
  - moved s i I Hp.
  - destruct (tryShrink_fast s); moved s i I Hp.
  - pose proof (DInv_shrink la now s I) as I'. refine (DInv_move i (WShrinkLock la now) (WTop la) _ I' _ eq_refl).
    unfold tryShrink_locked. repeat case_match; exact Hp.
Qed.

Lemma DInv_client c s s' : DInv s -> exec_client c s = Some s' -> DInv s'.
Proof.
  intros I Hx. unfold exec_client, exec_stop in Hx. destruct (clients s c) as [|t now| | |now| | |]; try discriminate; injection Hx as <-.
  - constructor; cbn; try apply I. rewrite (d_fifo _ I), map_app, app_assoc. reflexivity.
  - now apply (DInv_same s).
  - now apply (DInv_same s).
  - apply (DInv_same (tryExpand_locked now s)); auto. now apply DInv_expand.
  - apply (DInv_same s); auto. discriminate.
  - destruct (_ =? _); [now apply (DInv_same s)|exact I].
Qed.

Lemma DInv_step s s' : DInv s -> step s s' -> DInv s'.
Proof.
  intros I Hst. destruct Hst; [eauto using DInv_worker|eauto using DInv_client|apply (DInv_same s); auto..].
Qed.
Lemma spawn_iter n s : threads_ s = 0 -> workers s = [] -> Z.of_nat n < size_mod ->
  let s' := Nat.iter n spawnOne s in
  threads_ s' = Z.of_nat n /\ live (workers s') = Z.of_nat n /\ shrunk s' = shrunk s /\
  submitted s' = submitted s /\ taken s' = taken s /\ tasks_ s' = tasks_ s.
Proof.
  intros E1 E2. induction n as [|n IH]; [intros _; cbn; rewrite E2; split_and!; auto|]. intros Hn.
  destruct IH as (H1 & H2 & H3 & H4 & H5 & H6); [lia|].
  change (Nat.iter (S n) spawnOne s) with (spawnOne (Nat.iter n spawnOne s)).
  set (u := Nat.iter n spawnOne s) in *. cbn. rewrite live_app, H1, H2, H3, H4, H5, H6.
  rewrite wrap64_small by lia. cbn. split_and!; auto; lia.
Qed.

Lemma DInv_new now1 now2 s : new now1 now2 = Done s -> DInv s.
Proof.
  unfold new. destruct (_ && _); [discriminate|]. destruct (_ && _); [discriminate|]. intros [= <-].
  unfold resize; cbn. rewrite Z.sub_0_r.
  set (s0 := mkPool _ _ _ _ _ _ _ _ _ _ _).
  destruct (spawn_iter (Z.to_nat (initialThreads config_)) s0 eq_refl eq_refl) as (H1 & H2 & H3 & H4 & H5 & H6); [lia|].
  constructor.
  - rewrite H1, H2, H3. cbn. rewrite wrap64_small; lia.
  - rewrite H3. done.
  - rewrite H1. lia.
  - now rewrite H4, H5, H6.
Qed.

Lemma DInv_reachable s : reachable s -> DInv s.
Proof.
  intros (n1 & n2 & s0 & _ & E & H'). pose proof (DInv_new _ _ _ E) as I. clear E. induction H'; eauto using DInv_step.
Qed.

(** A worker leaves the loop only with no task pending. *)
Lemma exit_empty i s s' p : workers s !! i = Some p -> exec_worker i s = Some s' -> workers s' !! i = Some WExit ->
  tasks_ s = [] /\ tasks_ s' = [].
Proof.
  intros Hp Hx He. pose proof (lookup_lt_Some _ _ _ Hp) as Hlt. unfold exec_worker in Hx. rewrite Hp in Hx.
  assert (Hset : forall q s1, workers s1 = workers s -> workers (set_worker i q s1) !! i = Some q).
  { intros q s1 E1. cbn. rewrite E1. now apply list_lookup_insert_eq. }
  destruct p as [|la|la|t la|la|la now|]; try discriminate; injection Hx as <-.
  - rewrite Hset in He by done. discriminate.
  - destruct (_ || _); [rewrite Hset in He by done; discriminate|]. unfold take_task in He.
    destruct (tasks_ s); rewrite Hset in He by done; discriminate.
  - unfold woken in *. destruct (tasks_ s) eqn:Et; [split; [done|]; destruct (_ && _); [exact Et|]; destruct (_ && _ && _ && _); [exact Et|]|].
    + unfold take_task. rewrite Et. exact Et.
    + rewrite andb_false_r in He. cbn in He. unfold take_task in He. rewrite Et, Hset in He by done. discriminate.
  - rewrite Hset in He by done. discriminate.
  - rewrite Hset in He by done. destruct (tryShrink_fast s); discriminate.
  - rewrite Hset in He; [discriminate|]. unfold tryShrink_locked. repeat case_match; reflexivity.
Qed.

(** C34: in every reachable state the tasks submitted are, in order, those taken by
    workers followed by those pending (nothing is lost, duplicated or reordered),
    a worker exits only when none is pending, [threads_] stays between the
    configured bounds until the pool is stopped, and it counts the live workers
    less those that [tryShrink] has written off although they go on running. *)
Theorem dtp_accounting s : reachable s ->
  submitted s = taken s ++ map task (tasks_ s) /\
  (forall i s' p, workers s !! i = Some p -> exec_worker i s = Some s' -> workers s' !! i = Some WExit -> tasks_ s = []) /\
  (stop_ s = false -> minThreads config_ <= threads_ s <= maxThreads config_) /\
  0 <= shrunk s /\ threads_ s = wrap64 (live (workers s) - shrunk s).
Proof.
  intros Hr. pose proof (DInv_reachable s Hr) as I. split_and!; try apply I.
  intros i s' p Hp Hx He. exact (proj1 (exit_empty i s s' p Hp Hx He)).
Qed.

(** the destructor's wait ends exactly when the number of workers still
    running equals the number of times [tryShrink] decremented the counter: when
    none did it waits for all the workers, otherwise it returns while that many
    still use the pool, or, once they have exited, waits for ever. *)
Theorem dtp_stop s c : reachable s -> clients s c = CPoll -> live (workers s) < size_mod -> shrunk s < size_mod ->
  exists s', exec_client c s = Some s' /\
    (clients s' c = CStopped <-> live (workers s) = shrunk s) /\
    (live (workers s) = 0 -> 0 < shrunk s -> s' = s).
Proof.
  intros Hr Hc Hl Hs. pose proof (DInv_reachable s Hr) as I. pose proof (live_nonneg (workers s)) as Hn.
  pose proof (d_shrunk _ I) as Hk. pose proof (d_count _ I) as Hcount. unfold exec_client, exec_stop. rewrite Hc.
  eexists. split; [reflexivity|]. split.
  - destruct (Z.eqb_spec (threads_ s) 0) as [E|E].
    + cbn. rewrite decide_True by done. split; [intros _|done]. rewrite Hcount in E. zlia.
    + rewrite Hc. split; [discriminate|]. intros E2. destruct E. rewrite Hcount, E2. now rewrite Z.sub_diag.
  - intros E0 Hpos. destruct (Z.eqb_spec (threads_ s) 0) as [E|E]; [|reflexivity]. exfalso. rewrite Hcount, E0 in E. zlia.
Qed.
End DynamicThreadPool.

(** The wait is within the jitter of the idle time-out, for the default factors. *)
Lemma wait_ms_default rand RAND_MAX : 0 <= rand <= RAND_MAX -> 0 < RAND_MAX ->
  48000 <= wait_ms default_config rand RAND_MAX <= 72000.
Proof.
  intros Hr Hm. unfold wait_ms. cbn [default_config idleTimeout jitter]. change (scaled (60 * 1000) (1, 5)) with 12000.
  set (a := 12000 * (rand * 2 - RAND_MAX)).
  assert (Ha : -12000 * RAND_MAX <= a <= 12000 * RAND_MAX) by (unfold a; lia).
  pose proof (Z.quot_rem' a RAND_MAX) as Hq. pose proof (Z.rem_bound_abs a RAND_MAX ltac:(lia)) as Hb.
  assert (-12000 <= Z.quot a RAND_MAX <= 12000) by nia. lia.
Qed.

Module Demo.
Inductive act := Worker (i : nat) | Client (c : nat) | Submit (c : nat) (t : nat) | Stop (c : nat) | Tick (d : Z).
Definition cfg : Config := mkConfig 1 2 2 (2, 1) (1, 2) 50 60 2 10 (1, 5).

Definition idle (c : nat) (s : @pool nat) : bool := match clients s c with CIdle => true | _ => false end.
Definition do (a : act) (s : @pool nat) : option (@pool nat) :=
  match a with
  | Worker i => exec_worker cfg i s
  | Client c => exec_client cfg c s
  | Submit c t => if idle c s then Some (set_client c (CPush t (clock s)) s) else None
  | Stop c => if idle c s then Some (set_client c CStop s) else None
  | Tick d => if 0 <=? d then Some (tick d s) else None
  end.
Fixpoint play (l : list act) (s : @pool nat) : option (@pool nat) :=
  match l with [] => Some s | a :: l' => do a s ≫= play l' end.

Lemma dtp_play_rtc l s s' : play l s = Some s' -> rtc (step cfg) s s'.
Proof.
  revert s. induction l as [|a l IH]; cbn; intros s.
  - intros [= <-]. reflexivity.
  - destruct (do a s) as [q|] eqn:E; [|discriminate]. cbn. intros E2. apply rtc_l with q; [|auto].
    destruct a as [i|c|c t|c|d]; cbn in E.
    + exact (step_worker cfg i s q E).
    + exact (step_client cfg c s q E).
    + unfold idle in E. destruct (clients s c) eqn:Ec; simplify_eq. now apply step_submit.
    + unfold idle in E. destruct (clients s c) eqn:Ec; simplify_eq. now apply step_stop.
    + destruct (Z.leb_spec 0 d); simplify_eq. now apply step_tick.
Qed.

Definition start : @pool nat := match new (H := debug_build) cfg 0 0 with Done s => s | Fail _ => resize 0 (mkPool [] 0 false 0 0 0 [] (fun _ => CIdle) [] [] 0) end.

(** Worker 0 is just short of the idle time-out when it wakes up and just past it
    in [tryShrink]; then the pool is destroyed. *)
Definition shrink : list act :=
  [Submit 5 7; Client 5; Client 5; Client 5; Worker 0; Worker 0; Worker 0; Worker 0; Worker 0; Worker 0; Worker 1; Worker 1;
   Tick 59900000000; Worker 0; Tick 200000000; Worker 0; Worker 0; Stop 9; Client 9].
Definition shrunken : @pool nat := default start (play shrink start).
Definition early : @pool nat := default start (play (shrink ++ [Worker 0; Worker 0; Client 9]) start).
Definition late : @pool nat := default start (play (shrink ++ [Worker 0; Worker 0; Worker 1]) start).

Lemma config_ok_cfg : 0 <= minThreads cfg <= initialThreads cfg /\ initialThreads cfg <= maxThreads cfg < size_mod.
Proof. cbn. unfold size_mod. lia. Qed.

Lemma dtp_reach l s : play l start = Some s -> reachable (H := debug_build) cfg s.
Proof. intros E. exists 0, 0, start. split; [lia|]. split; [reflexivity|]. exact (dtp_play_rtc l start s E). Qed.

Lemma dtp_accounting_witness :
  (taken shrunken = [7%nat] /\ threads_ shrunken = 1 /\ live (workers shrunken) = 2) /\
  submitted shrunken = taken shrunken ++ map task (tasks_ shrunken).
Proof.
  split; [vm_compute; auto|].
  assert (Hr : reachable (H := debug_build) cfg shrunken) by (apply (dtp_reach shrink); vm_compute; reflexivity).
  exact (proj1 (dtp_accounting (H := debug_build) cfg config_ok_cfg shrunken Hr)).
Defined.

(** [stopAll] has returned although worker 1 still waits on the members; had it
    looked later, it would wait for ever. *)
Lemma dtp_stop_witness :
  (clients early 9 = CStopped /\ workers early = [WExit; WWait 0]) /\ 
  workers late = [WExit; WExit] /\ threads_ late = size_mod - 1 /\ exec_client cfg 9 late = Some late.
Proof.
  split; [vm_compute; auto|]. split; [vm_compute; reflexivity|]. split; [vm_compute; reflexivity|].
  assert (Hr : reachable (H := debug_build) cfg late) by (apply (dtp_reach (shrink ++ [Worker 0; Worker 0; Worker 1])); vm_compute; reflexivity).
  assert (Hc : clients late 9 = CPoll) by (vm_compute; reflexivity).
  assert (Hl : live (workers late) = 0) by (vm_compute; reflexivity).
  assert (Hk : shrunk late = 1) by (vm_compute; reflexivity).
  destruct (dtp_stop (H := debug_build) cfg config_ok_cfg late 9 Hr Hc) as (s' & Hx & _ & Hsame).
  - rewrite Hl. reflexivity.
  - rewrite Hk. reflexivity.
  - rewrite Hx. f_equal. apply Hsame; [exact Hl|]. rewrite Hk. reflexivity.
Defined.
End Demo.
