(* ===== verification/Generator.v ===== *)
(** Generator: [coro/Generator.h], lazy sequences as coroutines.

    A coroutine body is what it does from one suspension to the next ([body]).
    The frames are a heap; a [Generator] and its iterators hold the address of a
    frame, or null.  Operations that can throw return a sum. *)

From Stdlib Require Import ZArith Lia.
From S2P Require Import Prelude.
Local Open Scope Z_scope.

(** How the body of a generator goes on from a resume point. *)
Inductive act (P V E : Type) :=
  | co_yield (v : V) (next : P)
  | flow_off
  | raise (e : E).
Arguments co_yield {P V E}.
Arguments flow_off {P V E}.
Arguments raise {P V E}.

(** A frame: its promise and the resume point, [None] at the final suspension. *)
Record frame (P V E : Type) := {
  value_ : option V;
  eptr_ : option E;
  resume_point : option P
}.
Arguments value_ {P V E}.
Arguments eptr_ {P V E}.
Arguments resume_point {P V E}.
Arguments Build_frame {P V E}.

Section Generator.
Context {P V E : Type} (body : P -> act P V E).

Abbreviation heap := (gmap Z (frame P V E)).
Implicit Types (m : heap).

(** A [Generator], and a [handle_type]: the address of a frame or null. *)
Definition Generator := option Z.

Definition the_frame (h : Generator) : ST heap (Z * frame P V E) :=
  m ← get; p ← deref h; f ← deref (m !! p); mret (p, f).

(** [yield_value] *)
Definition yield_value (v : V) (next : P) (f : frame P V E) : frame P V E :=
  {| value_ := Some v; eptr_ := eptr_ f; resume_point := Some next |}.

(** [return_void], then the final suspension. *)
Definition return_void (f : frame P V E) : frame P V E :=
  {| value_ := value_ f; eptr_ := eptr_ f; resume_point := None |}.

(** [unhandled_exception], then the final suspension. *)
Definition unhandled_exception (e : E) (f : frame P V E) : frame P V E :=
  {| value_ := value_ f; eptr_ := Some e; resume_point := None |}.

(** [handle_.resume()] *)
Definition resume (h : Generator) : ST heap unit :=
  '(p, f) ← the_frame h;
  q ← deref (resume_point f);
  modify <[p := match body q with
                | co_yield v next => yield_value v next f
                | flow_off => return_void f
                | raise e => unhandled_exception e f
                end]>.

(** [handle_.done()] *)
Definition done (h : Generator) : ST heap bool :=
  '(_, f) ← the_frame h; mret (if resume_point f is None then true else false).

(** Calling the coroutine: the frame is made, [get_return_object] wraps its
    address and the body waits at [initial_suspend]. *)
Definition make (q : P) : ST heap Generator :=
  m ← get;
  let p := fresh (dom m) in
  _ ← modify <[p := {| value_ := None; eptr_ := None; resume_point := Some q |}]>;
  mret (Some p).

(** [if (handle_.promise().eptr_) std::rethrow_exception(...)] *)
Definition rethrow {A} (h : Generator) (a : A) : ST heap (E + A) :=
  '(_, f) ← the_frame h; mret (if eptr_ f is Some e then inl e else inr a).

Definition begin (g : Generator) : ST heap (E + Generator) :=
  if g is None then mret (inr g) else _ ← resume g; rethrow g g.

(** [iterator::operator++] *)
Definition increment (it : Generator) : ST heap (E + unit) :=
  _ ← resume it; rethrow it tt.

(** [iterator::operator!=] with [end()] *)
Definition not_at_end (it : Generator) : ST heap bool := d ← done it; mret (negb d).

(** [iterator::operator*]: the value last yielded. *)
Definition star (it : Generator) : ST heap (option V) := '(_, f) ← the_frame it; mret (value_ f).

(** [handle_.destroy()] *)
Definition destroy (h : Generator) : ST heap unit := '(p, _) ← the_frame h; modify (delete p).

(** [~Generator] *)
Definition destructor (g : Generator) : ST heap unit := if g is None then mret tt else destroy g.

(** The move constructor: the new object and what is left of [other]. *)
Definition move (other : Generator) : Generator * Generator := (other, None).

(** The move assignment [*this = std::move(other)]: the two objects after it.
    [same] says that they are one object. *)
Definition move_assign (same : bool) (this other : Generator) : ST heap (Generator * Generator) :=
  if same then mret (this, other) else _ ← destructor this; mret (move other).

(** [for (auto& v : g)]: the values the loop variable takes, at most [n] before
    the loop is left by a [break], and how it ends. *)
Inductive ending := Ended | Broke | Threw (e : E).

Fixpoint for_loop (n : nat) (it : Generator) : ST heap (list (option V) * ending) :=
  more ← not_at_end it;
  if (more : bool) then
    v ← star it;
    match n with
    | O => mret ([], Broke)
    | S n' =>
        r ← increment it;
        match r with
        | inl e => mret ([v], Threw e)
        | inr _ => '(vs, z) ← for_loop n' it; mret (v :: vs, z)
        end
    end
  else mret ([], Ended).

Definition range_for (n : nat) (g : Generator) : ST heap (list (option V) * ending) :=
  r ← begin g;
  match r with
  | inl e => mret ([], Threw e)
  | inr it => for_loop n it
  end.

(** ** Reference: the values a body yields *)

(** The values yielded from [q] on, at most [n], and what follows them. *)
Fixpoint yields (n : nat) (q : P) : list V * ending :=
  match body q with
  | flow_off => ([], Ended)
  | raise e => ([], Threw e)
  | co_yield v next =>
      match n with
      | O => ([], Broke)
      | S n' => let '(vs, z) := yields n' next in (v :: vs, z)
      end
  end.

(** The frame a loop leaves behind when it starts from [q]. *)
Fixpoint frame_after (n : nat) (q : P) (f : frame P V E) : frame P V E :=
  match body q with
  | flow_off => return_void f
  | raise e => unhandled_exception e f
  | co_yield v next =>
      match n with
      | O => yield_value v next f
      | S n' => frame_after n' next (yield_value v next f)
      end
  end.

(** One loop over a fresh generator, and two loops over the same one. *)
Definition one_loop (n : nat) (q : P) : ST heap (list (option V) * ending) :=
  g ← make q; r ← range_for n g; _ ← destructor g; mret r.

Definition two_loops (n1 n2 : nat) (q : P) : ST heap (list (option V) * ending * (list (option V) * ending)) :=
  g ← make q; r1 ← range_for n1 g; r2 ← range_for n2 g; _ ← destructor g; mret (r1, r2).

(** ** Lemmas *)

Definition some_values (r : list V * ending) : list (option V) * ending := (Some <$> r.1, r.2).

Lemma the_frame_at m p f : m !! p = Some f -> the_frame (Some p) m = Done ((p, f), m).
Proof. intros H. unfold the_frame. st_simpl. now rewrite H. Qed.

Lemma resume_at m p f q : m !! p = Some f -> resume_point f = Some q ->
  resume (Some p) m = Done (tt, <[p := match body q with
    | co_yield v next => yield_value v next f | flow_off => return_void f
    | raise e => unhandled_exception e f end]> m).
Proof. intros H Hq. unfold resume. st_step (the_frame_at _ _ _ H). now rewrite Hq. Qed.

Lemma rethrow_at {A} m p f (a : A) : m !! p = Some f ->
  rethrow (Some p) a m = Done (if eptr_ f is Some e then inl e else inr a, m).
Proof. intros H. unfold rethrow. now st_step (the_frame_at _ _ _ H). Qed.

Lemma not_at_end_at m p f : m !! p = Some f ->
  not_at_end (Some p) m = Done (if resume_point f is Some _ then true else false, m).
Proof.
  intros H. unfold not_at_end, done. rewrite bind_assoc. st_step (the_frame_at _ _ _ H).
  now destruct (resume_point f).
Qed.

Lemma star_at m p f : m !! p = Some f -> star (Some p) m = Done (value_ f, m).
Proof. intros H. unfold star. now st_step (the_frame_at _ _ _ H). Qed.

(** The loop from a value on: [v] has been yielded, [q] comes next. *)
Lemma for_loop_from n m p f v q :
  m !! p = Some f -> eptr_ f = None -> value_ f = Some v -> resume_point f = Some q ->
  for_loop n (Some p) m = match n with
    | O => Done (([], Broke), m)
    | S n' => let r := yields n' q in
        Done (some_values (v :: r.1, r.2), <[p := frame_after n' q f]> m)
    end.
Proof.
  revert m f v q. induction n as [|n IH]; intros m f v q Hm He Hv Hq;
    cbn [for_loop]; st_step (not_at_end_at _ _ _ Hm); rewrite Hq;
    st_step (star_at _ _ _ Hm); [reflexivity|].
  unfold increment. rewrite bind_assoc. st_step (resume_at _ _ _ _ Hm Hq).
  destruct (body q) as [v' q'| |e] eqn:Eb.
  - eassert (H1 : <[p := yield_value v' q' f]> m !! p = _) by apply lookup_insert_eq.
    st_step (rethrow_at (A := unit) _ _ _ tt H1). cbn [eptr_ yield_value]. rewrite He.
    specialize (IH _ _ v' q' H1 He eq_refl eq_refl).
    destruct n as [|n]; st_step IH; cbn [yields frame_after]; rewrite Eb, Hv; [reflexivity|].
    rewrite insert_insert_eq. now destruct (yields n q').
  - eassert (H1 : <[p := return_void f]> m !! p = _) by apply lookup_insert_eq.
    st_step (rethrow_at (A := unit) _ _ _ tt H1). cbn [eptr_ return_void]. rewrite He.
    destruct n as [|n]; cbn [for_loop yields frame_after]; rewrite Eb, Hv, bind_assoc;
      st_step (not_at_end_at _ _ _ H1); reflexivity.
  - eassert (H1 : <[p := unhandled_exception e f]> m !! p = _) by apply lookup_insert_eq.
    st_step (rethrow_at (A := unit) _ _ _ tt H1). cbn [eptr_ unhandled_exception].
    destruct n as [|n]; cbn [yields frame_after]; rewrite Eb, Hv; reflexivity.
Qed.

Lemma range_for_from n m p f q :
  m !! p = Some f -> eptr_ f = None -> resume_point f = Some q ->
  range_for n (Some p) m = Done (some_values (yields n q), <[p := frame_after n q f]> m).
Proof.
  intros Hm He Hq. unfold range_for, begin. rewrite bind_assoc. st_step (resume_at _ _ _ _ Hm Hq).
  destruct (body q) as [v' q'| |e] eqn:Eb.
  - eassert (H1 : <[p := yield_value v' q' f]> m !! p = _) by apply lookup_insert_eq.
    st_step (rethrow_at _ _ _ (Some p) H1). cbn [eptr_ yield_value]. rewrite He.
    rewrite (for_loop_from _ _ _ _ v' q' H1 He eq_refl eq_refl).
    destruct n as [|n]; cbn [yields frame_after]; rewrite Eb; [reflexivity|].
    rewrite insert_insert_eq. now destruct (yields n q').
  - eassert (H1 : <[p := return_void f]> m !! p = _) by apply lookup_insert_eq.
    st_step (rethrow_at _ _ _ (Some p) H1). cbn [eptr_ return_void]. rewrite He.
    destruct n as [|n]; cbn [for_loop yields frame_after]; rewrite Eb;
      st_step (not_at_end_at _ _ _ H1); reflexivity.
  - eassert (H1 : <[p := unhandled_exception e f]> m !! p = _) by apply lookup_insert_eq.
    st_step (rethrow_at _ _ _ (Some p) H1). cbn [eptr_ unhandled_exception].
    destruct n as [|n]; cbn [yields frame_after]; rewrite Eb; reflexivity.
Qed.

Lemma frame_after_ended n q f : snd (yields n q) <> Broke -> resume_point (frame_after n q f) = None.
Proof.
  revert q f. induction n as [|n IH]; intros q f; cbn [yields frame_after]; destruct (body q); try done.
  specialize (IH next (yield_value v next f)). destruct (yields n next). exact IH.
Qed.

(** A loop that was left by [break]: its frame waits after the value it was left
    at, and a later loop sees the values behind that one. *)
Lemma frame_after_broke n1 n2 q f : snd (yields n1 q) = Broke -> eptr_ f = None ->
  exists q', resume_point (frame_after n1 q f) = Some q' /\ eptr_ (frame_after n1 q f) = None /\
    yields n2 q' = (drop (S n1) (yields (S n1 + n2) q).1, (yields (S n1 + n2) q).2).
Proof.
  revert q f. induction n1 as [|n1 IH]; intros q f Hb He.
  - cbn [yields frame_after Nat.add] in *. destruct (body q) as [v q'| |]; try done.
    exists q'. split_and!; [done..|]. now destruct (yields n2 q').
  - change (yields (S (S n1) + n2) q) with (yields (S (S n1 + n2)) q).
    cbn [yields frame_after] in *. destruct (body q) as [v q'| |]; try done.
    specialize (IH q' (yield_value v q' f)).
    destruct (yields n1 q') as [vs z] eqn:E1. destruct (IH Hb He) as (q'' & H1 & H2 & H3).
    exists q''. split_and!; [done..|]. rewrite H3. now destruct (yields (S n1 + n2) q').
Qed.

Lemma range_for_done n m p f :
  m !! p = Some f -> resume_point f = None -> range_for n (Some p) m = Fail UndefinedBehaviour.
Proof.
  intros Hm Hq. unfold range_for, begin. rewrite bind_assoc. apply bind_fail.
  unfold resume. st_step (the_frame_at _ _ _ Hm). now rewrite Hq.
Qed.

Lemma destructor_at m p f : m !! p = Some f -> destructor (Some p) m = Done (tt, delete p m).
Proof. intros Hm. unfold destructor, destroy. now st_step (the_frame_at _ _ _ Hm). Qed.

(** ** Theorems *)

(** C31: [for (auto& v : g())] sees exactly the values the body of [g] yields, in
    order, also when the loop is left early; an exception of the body comes out
    of the loop after the values before it; the frame is gone afterwards and no
    other frame is touched.  A second loop over the same generator goes on after
    the value the first one was left at, but it is undefined behaviour when the
    first one reached the end or threw, and so is a loop over a moved-from
    generator, whose null handle is tested in [begin] and not in [operator!=]. *)
Theorem generator_loops n n2 q m :
  one_loop n q m = Done (some_values (yields n q), m) /\
  (two_loops n n2 q m = match (yields n q).2 with
     | Broke => Done ((some_values (yields n q),
         some_values (drop (S n) (yields (S n + n2) q).1, (yields (S n + n2) q).2)), m)
     | _ => Fail UndefinedBehaviour
     end) /\
  range_for n (move (Some (fresh (dom m)))).2 m = Fail UndefinedBehaviour.
Proof.
  pose proof (not_elem_of_dom_1 _ _ (is_fresh (dom m))) as Hfr.
  set (p := fresh (dom m)) in *.
  set (f0 := {| value_ := None; eptr_ := None; resume_point := Some q |} : frame P V E).
  assert (Hmk : make q m = Done (Some p, <[p := f0]> m)) by reflexivity.
  assert (H0 : <[p := f0]> m !! p = Some f0) by apply lookup_insert_eq.
  pose proof (range_for_from n _ _ _ _ H0 eq_refl eq_refl) as H1.
  rewrite insert_insert_eq in H1.
  eassert (H2 : <[p := frame_after n q f0]> m !! p = _) by apply lookup_insert_eq.
  split_and!.
  - unfold one_loop. st_step Hmk. st_step H1. st_step (destructor_at _ _ _ H2).
    now rewrite delete_insert_id.
  - unfold two_loops. st_step Hmk. st_step H1. destruct (yields n q).2 eqn:Ez.
    1, 3: apply bind_fail; apply (range_for_done _ _ _ _ H2); apply frame_after_ended; now rewrite Ez.
    destruct (frame_after_broke n n2 q f0 Ez eq_refl) as (q' & Hq' & He' & Hy).
    st_step (range_for_from n2 _ _ _ _ H2 He' Hq'). rewrite insert_insert_eq, Hy.
    eassert (H3 : <[p := frame_after n2 q' (frame_after n q f0)]> m !! p = _) by apply lookup_insert_eq.
    st_step (destructor_at _ _ _ H3).
    now rewrite delete_insert_id.
  - cbn [move snd]. unfold range_for, begin. rewrite bind_ret_l. destruct n; reflexivity.
Qed.

(** Move assignment frees the frame the target had, unless it is the same object. *)
Lemma move_assign_frees m p f o : m !! p = Some f -> o <> Some p ->
  move_assign false (Some p) o m = Done ((o, None), delete p m) /\
  move_assign true (Some p) (Some p) m = Done ((Some p, Some p), m).
Proof.
  intros Hm Ho. split; [|reflexivity]. unfold move_assign. now st_step (destructor_at _ _ _ Hm).
Qed.
End Generator.
