(* ===== verification/Task.v ===== *)
(** Task: [coro/Task.h], coroutines that await each other.

    The body of a coroutine is what it does from one suspension to the next, on a
    world of the program's own.  Frames are a heap; [step] is one transfer of
    control between them.  The theorems compare the machine with calls of ordinary
    functions that block where the coroutine suspends ([call]). *)

From Stdlib Require Import ZArith Lia.
From S2P Require Import Prelude.
Local Open Scope Z_scope.

(** How a body leaves a resume point.  [co_await_task void c k] is
    [co_await f(...)] for a coroutine [f] that starts at [c] and returns
    [Task<void>] or not; [k] gets what the await expression throws or yields.
    [co_await next] suspends on an awaitable from outside, which keeps the handle. *)
Inductive act (P V E : Type) :=
  | co_return (v : V)
  | flow_off
  | raise (e : E)
  | co_await_task (void : bool) (c : P) (k : E + option V -> P)
  | co_await (next : P).
Arguments co_return {P V E}.
Arguments flow_off {P V E}.
Arguments raise {P V E}.
Arguments co_await_task {P V E}.
Arguments co_await {P V E}.

(** Where the coroutine of a frame is. *)
Inductive place (P V E : Type) :=
  | At (p : P)                                    (* suspended, goes on at [p] *)
  | Awaiting (c : Z) (k : E + option V -> P)      (* holds the task with the frame [c] *)
  | Running
  | Final.
Arguments At {P V E}.
Arguments Awaiting {P V E}.
Arguments Running {P V E}.
Arguments Final {P V E}.

(** A frame with its [TaskPromise]; [continuation_] is [None] for
    [std::noop_coroutine()], [result_] is not used when [void_]. *)
Record frame (P V E : Type) := {
  continuation_ : option Z;
  eptr_ : option E;
  result_ : option V;
  void_ : bool;
  at_ : place P V E
}.
Arguments continuation_ {P V E}.
Arguments eptr_ {P V E}.
Arguments result_ {P V E}.
Arguments void_ {P V E}.
Arguments at_ {P V E}.
Arguments Build_frame {P V E}.

(** The frames of all live coroutines, and the rest of the program. *)
Record state (P V E W : Type) := { frames : gmap Z (frame P V E); world : W }.
Arguments frames {P V E W}.
Arguments world {P V E W}.
Arguments Build_state {P V E W}.

(** Who has control after a transfer: a coroutine, or the code that called
    [resume()], because the task with no awaiter ended or because [h] suspended. *)
Inductive control :=
  | Transfer (h : Z)
  | Ended
  | Suspended (h : Z).

Section Task.
Context {P V E W : Type} (body : P -> W -> act P V E * W).

Abbreviation State := (state P V E W).
Abbreviation Frame := (frame P V E).
Abbreviation heap := (gmap Z Frame).
Implicit Types (m : heap) (w : W).

Definition with_frames (f : heap -> heap) (s : State) : State := {| frames := f (frames s); world := world s |}.
Definition set_frame (h : Z) (f : Frame) : ST State unit := modify (with_frames <[h := f]>).

(** A handle is dereferenced. *)
Definition frame_at (h : Z) : ST State Frame := s ← get; deref (frames s !! h).

(** ** The promise *)

(** [TaskPromise]: the task waits at [initial_suspend] with no awaiter. *)
Definition new_frame (void : bool) (p : P) : Frame :=
  {| continuation_ := None; eptr_ := None; result_ := None; void_ := void; at_ := At p |}.

Definition place_at (a : place P V E) (f : Frame) : Frame :=
  {| continuation_ := continuation_ f; eptr_ := eptr_ f; result_ := result_ f; void_ := void_ f; at_ := a |}.
Definition set_continuation (c : Z) (f : Frame) : Frame :=
  {| continuation_ := Some c; eptr_ := eptr_ f; result_ := result_ f; void_ := void_ f; at_ := at_ f |}.

(** [return_value]; a [Task<void>] has [return_void] and keeps nothing. *)
Definition return_value (v : V) (f : Frame) : Frame :=
  {| continuation_ := continuation_ f; eptr_ := eptr_ f; result_ := if void_ f then None else Some v;
     void_ := void_ f; at_ := at_ f |}.

Definition unhandled_exception (e : E) (f : Frame) : Frame :=
  {| continuation_ := continuation_ f; eptr_ := Some e; result_ := result_ f; void_ := void_ f; at_ := at_ f |}.

(** [get_result] of both promises: rethrows, or asserts that there is a result;
    without the assertion an empty [optional] is dereferenced. *)
Definition get_result `{Build} (h : Z) : ST State (E + option V) :=
  f ← frame_at h;
  match eptr_ f with
  | Some e => mret (inl e)
  | None =>
      if void_ f then mret (inr None)
      else
        _ ← cassert (if result_ f is Some _ then true else false);
        v ← deref (result_ f);
        mret (inr (Some v))
  end.

Definition done (h : Z) : ST State bool :=
  f ← frame_at h; mret (if at_ f is Final then true else false).

(** ** [Task] objects: a handle or null *)

Definition Task := option Z.

(** Calling a coroutine: [get_return_object] and [initial_suspend]. *)
Definition make (void : bool) (p : P) : ST State Z :=
  s ← get;
  let h := fresh (dom (frames s)) in
  _ ← set_frame h (new_frame void p);
  mret h.

(** [handle_.destroy()]: the frame goes, and with it the task it awaits. *)
Fixpoint destroy_chain (n : nat) (h : Z) : ST State unit :=
  f ← frame_at h;
  match at_ f, n with
  | Running, _ => fail UndefinedBehaviour
  | Awaiting c _, S n' => _ ← destroy_chain n' c; modify (with_frames (delete h))
  | Awaiting _ _, O => fail UndefinedBehaviour
  | _, _ => modify (with_frames (delete h))
  end.

Definition destroy (t : Task) : ST State Task :=
  s ← get;
  match t with
  | None => mret None
  | Some h => _ ← destroy_chain (size (frames s)) h; mret None
  end.

(** The move constructor: the new object and what is left of [other]. *)
Definition move (other : Task) : Task * Task := (other, None).

(** [*this = std::move(other)]; [same] says that they are one object. *)
Definition move_assign (same : bool) (this other : Task) : ST State (Task * Task) :=
  if same then mret (this, other) else _ ← destroy this; mret (move other).

(** ** Transfers of control *)

(** [final_suspend]: [SymmetricTransfer] to the awaiter. *)
Definition final_suspend (h : Z) (f : Frame) : ST State control :=
  _ ← set_frame h (place_at Final f);
  mret (if continuation_ f is Some c then Transfer c else Ended).

(** [operator co_await] on the task of [c], by the coroutine [h]. *)
Definition await_suspend (c h : Z) : ST State control :=
  f ← frame_at c;
  _ ← set_frame c (set_continuation h f);
  mret (Transfer c).

(** What the body of [h] ended its run with. *)
Definition leave (h : Z) (f : Frame) (a : act P V E) : ST State control :=
  match a with
  | co_return v => final_suspend h (return_value v f)
  | flow_off => if void_ f then final_suspend h f else fail UndefinedBehaviour
  | raise e => final_suspend h (unhandled_exception e f)
  | co_await_task void q k =>
      c ← make void q;
      _ ← set_frame h (place_at (Awaiting c k) f);
      ready ← done c;
      if (ready : bool) then mret (Transfer h) else await_suspend c h
  | co_await next => _ ← set_frame h (place_at (At next) f); mret (Suspended h)
  end.

(** The body of [h] runs from [p] until it suspends. *)
Definition run_body (h : Z) (f : Frame) (p : P) : ST State control :=
  s ← get;
  let '(a, w) := body p (world s) in
  _ ← put {| frames := frames s; world := w |};
  leave h f a.

(** [h] gets control.  When it awaited a task, [await_resume] gives the outcome
    and the task is destroyed at the end of the await expression. *)
Definition step `{Build} (h : Z) : ST State control :=
  f ← frame_at h;
  match at_ f with
  | At p => _ ← set_frame h (place_at Running f); run_body h f p
  | Awaiting c k =>
      _ ← set_frame h (place_at Running f);
      r ← get_result c;
      _ ← destroy (Some c);
      run_body h f (k r)
  | Running | Final => fail UndefinedBehaviour
  end.

(** What a run ends with: the task of the first [resume] ended, with what is left
    of the environment, or [h] waits and the environment is used up. *)
Inductive stop :=
  | Finished (envs : list (W -> W))
  | Blocked (h : Z).

(** A run: [h] is resumed; whenever a coroutine suspends, the environment changes
    the world and resumes the handle that coroutine gave away.  [None] when the
    fuel does not suffice. *)
Fixpoint drive `{Build} (n : nat) (envs : list (W -> W)) (h : Z) : ST State (option stop) :=
  match n with
  | O => mret None
  | S n' =>
      c ← step h;
      match c with
      | Transfer h' => drive n' envs h'
      | Ended => mret (Some (Finished envs))
      | Suspended l =>
          match envs with
          | [] => mret (Some (Blocked l))
          | g :: envs' => _ ← modify (fun s => {| frames := frames s; world := g (world s) |}); drive n' envs' l
          end
      end
  end.

(** [syncWait]; [n] bounds the transfers of the one [resume()] it does. *)
Definition syncWait `{Build} (n : nat) (t : Task) : ST State (option (E + option V)) :=
  h ← deref t;
  d ← done h;
  if (d : bool) then r ← get_result h; mret (Some r)
  else
    z ← drive n [] h;
    match z with
    | None => mret None
    | Some _ => r ← get_result h; mret (Some r)
    end.

(** ** Reference: the same bodies as functions that call and block *)

Inductive called :=
  | Returns (r : E + option V) (envs : list (W -> W))
  | Blocks
  | Undefined.

Definition value_of (void : bool) (v : V) : option V := if void then None else Some v.

Fixpoint call (n : nat) (void : bool) (p : P) (envs : list (W -> W)) (w : W) : option (called * W) :=
  match n with
  | O => None
  | S n' =>
      let '(a, w) := body p w in
      match a with
      | co_return v => Some (Returns (inr (value_of void v)) envs, w)
      | flow_off => Some (if void then Returns (inr None) envs else Undefined, w)
      | raise e => Some (Returns (inl e) envs, w)
      | co_await_task vd q k =>
          match call n' vd q envs w with
          | Some (Returns r envs', w') => call n' void (k r) envs' w'
          | other => other
          end
      | co_await next =>
          match envs with
          | [] => Some (Blocks, w)
          | g :: envs' => call n' void next envs' (g w)
          end
      end
  end.

(** A task from its creation to its destruction, in the environment [envs]. *)
Definition run_task `{Build} (k : nat) (envs : list (W -> W)) (void : bool) (p : P) : ST State (option called) :=
  h ← make void p;
  z ← drive k envs h;
  match z with
  | None => mret None
  | Some (Finished envs') => r ← get_result h; _ ← destroy (Some h); mret (Some (Returns r envs'))
  | Some (Blocked _) => _ ← destroy (Some h); mret (Some Blocks)
  end.

Definition sync_task `{Build} (k : nat) (void : bool) (p : P) : ST State (option (E + option V)) :=
  h ← make void p; syncWait k (Some h).

(** ** Lemmas *)

Context `{Build}.

(** What happens to the control a step leaves behind. *)
Definition dispatch (n : nat) (envs : list (W -> W)) (c : control) : ST State (option stop) :=
  match c with
  | Transfer h' => drive n envs h'
  | Ended => mret (Some (Finished envs))
  | Suspended l =>
      match envs with
      | [] => mret (Some (Blocked l))
      | g :: envs' => _ ← modify (fun s => {| frames := frames s; world := g (world s) |}); drive n envs' l
      end
  end.

Lemma drive_S n envs h s : drive (S n) envs h s = (c ← step h; dispatch n envs c) s.
Proof. reflexivity. Qed.

(** The frame of a coroutine that has not ended, and of one that ended with [r]. *)
Definition live (c : option Z) (void : bool) (a : place P V E) : Frame :=
  {| continuation_ := c; eptr_ := None; result_ := None; void_ := void; at_ := a |}.

Definition ended (c : option Z) (void : bool) (r : E + option V) : Frame :=
  {| continuation_ := c; eptr_ := if r is inl e then Some e else None;
     result_ := if r is inr o then o else None; void_ := void; at_ := Final |}.

Definition result_ok (void : bool) (r : E + option V) : Prop :=
  match r with inl _ => True | inr None => void = true | inr (Some _) => void = false end.

Lemma frame_at_done h f m w : m !! h = Some f ->
  frame_at h {| frames := m; world := w |} = Done (f, {| frames := m; world := w |}).
Proof. intros E0. unfold frame_at. st_get. cbn [frames]. now rewrite E0. Qed.

Lemma set_frame_done h f m w :
  set_frame h f {| frames := m; world := w |} = Done (tt, {| frames := <[h := f]> m; world := w |}).
Proof. reflexivity. Qed.

Lemma get_result_ended c h void r m w : m !! h = Some (ended c void r) -> result_ok void r ->
  get_result h {| frames := m; world := w |} = Done (r, {| frames := m; world := w |}).
Proof.
  intros E0 Hr. unfold get_result. st_step (frame_at_done _ _ _ w E0). unfold ended; cbn.
  destruct r as [e|[v|]]; cbn in Hr |- *; [reflexivity| |]; subst void; [|reflexivity].
  rewrite (bind_done _ _ _ _ _ (cassert_true true _ eq_refl)). reflexivity.
Qed.

Lemma call_result_ok n void p envs w r envs' w' :
  call n void p envs w = Some (Returns r envs', w') -> result_ok void r.
Proof.
  revert void p envs w. induction n as [|n IH]; intros void p envs w; [done|].
  cbn [call]. destruct (body p w) as [[v| |e|vd q k|q] w1].
  - intros [= <- _ _]. now destruct void.
  - destruct void; now intros [= <- _ _].
  - now intros [= <- _ _].
  - destruct (call n vd q envs w1) as [[[r1 envs1| |] w2]|]; try done. apply IH.
  - destruct envs as [|g envs1]; [done|]. apply IH.
Qed.

Lemma destroy_chain_more n n' h s r : destroy_chain n h s = Done r -> (n <= n')%nat ->
  destroy_chain n' h s = Done r.
Proof.
  revert n' h s r. induction n as [|n IH]; intros n' h s r.
  - destruct n' as [|n']; [done|]. cbn [destroy_chain].
    intros (f & s1 & E1 & E2)%bind_inv _. rewrite (bind_done _ _ _ _ _ E1).
    now destruct (at_ f).
  - destruct n' as [|n']; [lia|]. cbn [destroy_chain].
    intros (f & s1 & E1 & E2)%bind_inv Hn. rewrite (bind_done _ _ _ _ _ E1).
    destruct (at_ f); try done. apply bind_inv in E2 as (u & s2 & E2 & E3).
    now rewrite (bind_done _ _ _ _ _ (IH n' _ _ _ E2 ltac:(lia))).
Qed.

Lemma destroy_chain_leaf n h f m w : m !! h = Some f ->
  match at_ f with At _ | Final => True | _ => False end ->
  destroy_chain n h {| frames := m; world := w |} = Done (tt, {| frames := delete h m; world := w |}).
Proof.
  intros E0 Hf. destruct n; cbn [destroy_chain]; st_step (frame_at_done _ _ _ w E0); now destruct (at_ f).
Qed.

Lemma destroy_ended c h void r m w : m !! h = Some (ended c void r) ->
  destroy (Some h) {| frames := m; world := w |} = Done (None, {| frames := delete h m; world := w |}).
Proof. intros E0. unfold destroy. st_get. now st_step (destroy_chain_leaf (size m) _ _ _ w E0 I). Qed.

(** Where control goes when the coroutine with the awaiter [c] ends. *)
Definition back_to (c : option Z) : control := if c is Some h then Transfer h else Ended.

Lemma final_suspend_done h f m w : final_suspend h f {| frames := m; world := w |} =
  Done (back_to (continuation_ f), {| frames := <[h := place_at Final f]> m; world := w |}).
Proof. reflexivity. Qed.

(** [frames] holds the chain of suspended coroutines below [h] on top of [m]:
    destroying [h] takes exactly that chain away. *)
Definition suspended_chain (h : Z) (m fr : heap) : Prop :=
  m ⊆ fr /\ exists d, (d + size m < size fr)%nat /\
    (forall w, destroy_chain d h {| frames := fr; world := w |} = Done (tt, {| frames := m; world := w |})).

Lemma suspended_chain_leaf h f m p : m !! h = None -> at_ f = At p -> suspended_chain h m (<[h := f]> m).
Proof.
  intros Hh Hf. split; [now apply insert_subseteq|]. exists O. split; [rewrite map_size_insert_None by done; lia|].
  intros w. rewrite (destroy_chain_leaf _ _ f); [now rewrite delete_insert_id|apply lookup_insert_eq|now rewrite Hf].
Qed.

Lemma suspended_chain_await h f c k m fr : m !! h = None -> at_ f = Awaiting c k ->
  suspended_chain c (<[h := f]> m) fr -> suspended_chain h m fr.
Proof.
  intros Hh Hf (Hsub & d & Hd & Hdel). split; [transitivity (<[h := f]> m); [now apply insert_subseteq|exact Hsub]|].
  exists (S d). rewrite map_size_insert_None in Hd by done. split; [lia|].
  intros w. cbn [destroy_chain].
  assert (E0 : fr !! h = Some f) by (eapply lookup_weaken; [apply lookup_insert_eq|exact Hsub]).
  st_step (frame_at_done _ _ _ w E0). rewrite Hf. st_step (Hdel w).
  unfold modify, with_frames. cbn [frames world]. now rewrite delete_insert_id.
Qed.

Lemma suspended_chain_destroy h m fr w : suspended_chain h m fr ->
  destroy (Some h) {| frames := fr; world := w |} = Done (None, {| frames := m; world := w |}).
Proof.
  intros (_ & d & Hd & Hdel). unfold destroy. st_get. cbn [frames].
  now st_step (destroy_chain_more _ (size fr) _ _ _ (Hdel w) ltac:(lia)).
Qed.

(** What a run does to the frames, according to the call it corresponds to:
    [n] transfers are left, the coroutine is [h] with the awaiter [c]. *)
Definition follows (res : called) (w' : W) (n : nat) (h : Z) (c : option Z) (void : bool) (m : heap)
    (o : outcome (option stop * State)) : Prop :=
  match res with
  | Returns r envs => o = dispatch n envs (back_to c) {| frames := <[h := ended c void r]> m; world := w' |}
  | Undefined => o = Fail UndefinedBehaviour
  | Blocks => exists l fr, o = Done (Some (Blocked l), {| frames := fr; world := w' |}) /\ suspended_chain h m fr /\
      exists a, fr !! h = Some (live c void a) /\ a <> Final
  end.

(** Giving control to a coroutine that waits at [q]. *)
Lemma step_at m w h c void q : m !! h = Some (live c void (At q)) ->
  step h {| frames := m; world := w |} =
  run_body h (live c void (At q)) q {| frames := <[h := live c void Running]> m; world := w |}.
Proof. intros E0. unfold step. st_step (frame_at_done _ _ _ w E0). cbn [at_ live]. now st_step (set_frame_done h (place_at Running (live c void (At q))) m w). Qed.

(** Giving control back to a coroutine whose task has ended with [r]. *)
Lemma step_awaiting m w h c void ch k ch' vd r : m !! h = None -> m !! ch = None -> h <> ch -> result_ok vd r ->
  step h {| frames := <[ch := ended ch' vd r]> (<[h := live c void (Awaiting ch k)]> m); world := w |} =
  run_body h (live c void (Awaiting ch k)) (k r) {| frames := <[h := live c void Running]> m; world := w |}.
Proof.
  intros Hh Hc Hne Hr. unfold step.
  assert (E0 : (<[ch := ended ch' vd r]> (<[h := live c void (Awaiting ch k)]> m)) !! h = Some (live c void (Awaiting ch k)))
    by now rewrite lookup_insert_ne, lookup_insert_eq.
  st_step (frame_at_done _ _ _ w E0). cbn [at_ live].
  change (place_at Running _) with (live c void Running).
  st_step (set_frame_done h (live c void Running) (<[ch := ended ch' vd r]> (<[h := live c void (Awaiting ch k)]> m)) w).
  rewrite (insert_insert_ne _ h ch), insert_insert_eq by done.
  eassert (E1 : (<[ch := ended ch' vd r]> (<[h := live c void Running]> m)) !! ch = _) by apply lookup_insert_eq.
  st_step (get_result_ended _ _ _ _ _ w E1 Hr). st_step (destroy_ended _ _ _ _ _ w E1).
  now rewrite delete_insert_id by now rewrite lookup_insert_ne.
Qed.

Lemma run_body_leave h f p a m w w1 : body p w = (a, w1) ->
  run_body h f p {| frames := m; world := w |} = leave h f a {| frames := m; world := w1 |}.
Proof. intros Eb. unfold run_body. st_get. cbn [frames world]. now rewrite Eb. Qed.

(** Awaiting a task: it starts with [h] as its awaiter. *)
Lemma leave_await h f x vd q k m w : m !! h = None ->
  exists c, m !! c = None /\ c <> h /\
  leave h f (co_await_task vd q k) {| frames := <[h := x]> m; world := w |} =
  Done (Transfer c, {| frames := <[c := live (Some h) vd (At q)]> (<[h := place_at (Awaiting c k) f]> m); world := w |}).
Proof.
  intros Hh. exists (fresh (dom (<[h := x]> m))).
  set (c := fresh _). assert (Hc : <[h := x]> m !! c = None) by apply not_elem_of_dom, is_fresh.
  apply lookup_insert_None in Hc as [Hc Hne]. split_and!; [done..|].
  unfold leave, make. cbn -[fresh]. fold c. unfold await_suspend, done, frame_at. st_simpl.
  rewrite (lookup_insert_ne _ h c) by done. rewrite lookup_insert_eq. cbn.
  rewrite (lookup_insert_ne _ h c) by done. rewrite lookup_insert_eq. cbn.
  do 2 f_equal. unfold with_frames. cbn [frames world]. fold c.
  now rewrite (insert_insert_ne _ h c), !insert_insert_eq by done.
Qed.

Lemma leave_wait h f x q m w : leave h f (co_await q) {| frames := <[h := x]> m; world := w |} =
  Done (Suspended h, {| frames := <[h := place_at (At q) f]> m; world := w |}).
Proof. unfold leave, set_frame, modify, with_frames. st_simpl. now rewrite insert_insert_eq. Qed.

(** Control goes to a coroutine waiting at [q] and from there on. *)
Lemma drive_at j envs m w h c void q :
  drive (S j) envs h {| frames := <[h := live c void (At q)]> m; world := w |} =
  (a ← run_body h (live c void (At q)) q; dispatch j envs a)
    {| frames := <[h := live c void Running]> m; world := w |}.
Proof.
  rewrite drive_S. unfold mbind, ST_bind. rewrite (step_at _ w h c void q) by apply lookup_insert_eq.
  now rewrite insert_insert_eq.
Qed.

(** Control goes back to a coroutine whose task has ended. *)
Lemma drive_awaiting j envs m w h c void ch k ch' vd r :
  m !! h = None -> m !! ch = None -> ch <> h -> result_ok vd r ->
  drive (S j) envs h {| frames := <[ch := ended ch' vd r]> (<[h := live c void (Awaiting ch k)]> m); world := w |} =
  (a ← run_body h (live c void (Awaiting ch k)) (k r); dispatch j envs a)
    {| frames := <[h := live c void Running]> m; world := w |}.
Proof.
  intros Hh Hc Hne Hr. rewrite drive_S. unfold mbind, ST_bind.
  now rewrite (step_awaiting m w h c void ch k ch' vd r Hh Hc) by done.
Qed.

(** The run of [h] from [p], when the body ends its run with [a]. *)
Definition run_on (j : nat) (envs : list (W -> W)) (h : Z) (f : Frame) (p : P) (m : heap) (w : W)
    : outcome (option stop * State) :=
  (a ← run_body h f p; dispatch j envs a) {| frames := m; world := w |}.

Lemma run_on_leave j envs h f p a m w w1 : body p w = (a, w1) ->
  run_on j envs h f p m w = (a' ← leave h f a; dispatch j envs a') {| frames := m; world := w1 |}.
Proof. intros Eb. unfold run_on, mbind, ST_bind. now rewrite (run_body_leave h f p a m w w1 Eb). Qed.

Lemma run_on_await p w w1 h c void pl x vd q k m :
  body p w = (co_await_task vd q k, w1) -> m !! h = None ->
  exists ch, m !! ch = None /\ ch <> h /\ forall j envs,
    run_on (S j) envs h (live c void pl) p (<[h := x]> m) w =
    run_on j envs ch (live (Some h) vd (At q)) q
      (<[ch := live (Some h) vd Running]> (<[h := live c void (Awaiting ch k)]> m)) w1.
Proof.
  intros Eb Hh. destruct (leave_await h (live c void pl) x vd q k m w1 Hh) as (ch & Hch & Hne & El).
  exists ch. split_and!; [done..|]. intros j envs. rewrite (run_on_leave _ _ _ _ _ _ _ _ _ Eb).
  st_step El. cbn [dispatch]. apply drive_at.
Qed.

Lemma run_on_ended h f a o : (forall m w, leave h f a {| frames := m; world := w |} =
    Done (back_to (continuation_ f), {| frames := <[h := o]> m; world := w |})) ->
  forall p w w1 m x j envs, body p w = (a, w1) ->
  run_on j envs h f p (<[h := x]> m) w =
    dispatch j envs (back_to (continuation_ f)) {| frames := <[h := o]> m; world := w1 |}.
Proof.
  intros Hl p w w1 m x j envs Eb. rewrite (run_on_leave _ _ _ _ _ _ _ _ _ Eb).
  st_step (Hl (<[h := x]> m) w1). now rewrite insert_insert_eq.
Qed.

(** [k0] transfers are enough to follow the call, any more are left. *)
Definition followed (k0 : nat) (void : bool) (p : P) (envs : list (W -> W)) (w : W) (res : called) (w' : W) : Prop :=
  forall k m h c pl x, m !! h = None ->
    follows res w' k h c void m (run_on (k0 + k) envs h (live c void pl) p (<[h := x]> m) w).

Lemma followed_await k0 k2 p void envs w w1 vd q k1 r envs1 w2 res w' :
  body p w = (co_await_task vd q k1, w1) -> result_ok vd r ->
  followed k0 vd q envs w1 (Returns r envs1) w2 -> followed k2 void (k1 r) envs1 w2 res w' ->
  followed (S (k0 + S k2)) void p envs w res w'.
Proof.
  intros Eb Hr H1 H2 k m h c pl x Hh.
  destruct (run_on_await _ _ _ h c void pl x _ _ _ m Eb Hh) as (ch & Hch & Hne & Hst).
  replace (S (k0 + S k2) + k)%nat with (S (k0 + S (k2 + k))) by lia. rewrite Hst.
  specialize (H1 (S (k2 + k)) (<[h := live c void (Awaiting ch k1)]> m) ch (Some h) (At q) (live (Some h) vd Running)).
  cbn [follows back_to dispatch] in H1. rewrite H1 by now rewrite lookup_insert_ne by done.
  rewrite (drive_awaiting _ _ m w2 h c void ch k1 (Some h) vd r Hh Hch) by done.
  now apply H2.
Qed.

Lemma followed_stuck k0 p void envs w w1 vd q k1 res w' :
  body p w = (co_await_task vd q k1, w1) -> (res = Blocks \/ res = Undefined) ->
  followed k0 vd q envs w1 res w' -> followed (S k0) void p envs w res w'.
Proof.
  intros Eb Hres H1 k m h c pl x Hh.
  destruct (run_on_await _ _ _ h c void pl x _ _ _ m Eb Hh) as (ch & Hch & Hne & Hst). cbn [Nat.add]. rewrite Hst.
  specialize (H1 k (<[h := live c void (Awaiting ch k1)]> m) ch (Some h) (At q) (live (Some h) vd Running)
    ltac:(now rewrite lookup_insert_ne by done)).
  destruct Hres as [->| ->]; [|exact H1]. destruct H1 as (l & fr & El & Hfr & _).
  exists l, fr. split_and!; [exact El| |].
  - exact (suspended_chain_await h (live c void (Awaiting ch k1)) ch k1 _ _ Hh eq_refl Hfr).
  - eexists. split; [exact (lookup_weaken _ _ _ _ (lookup_insert_eq _ _ _) (proj1 Hfr))|done].
Qed.

Lemma followed_wait k1 p void g envs w w1 q res w' :
  body p w = (co_await q, w1) -> followed k1 void q envs (g w1) res w' -> followed (S k1) void p (g :: envs) w res w'.
Proof.
  intros Eb H1 k m h c pl x Hh. rewrite (run_on_leave _ _ _ _ _ _ _ _ _ Eb).
  st_step (leave_wait h (live c void pl) x q m w1). cbn [dispatch Nat.add]. st_modify. cbn [frames world].
  change (place_at (At q) _) with (live c void (At q)). rewrite drive_at. now apply H1.
Qed.

Lemma call_more n n' void p envs w r : call n void p envs w = Some r -> (n <= n')%nat -> call n' void p envs w = Some r.
Proof.
  revert n' void p envs w r. induction n as [|n IH]; intros n' void p envs w r; [done|].
  destruct n' as [|n']; [lia|]. cbn [call]. intros E1 Hn. destruct (body p w) as [[v| |e|vd q k1|q] w1]; try done.
  - destruct (call n vd q envs w1) as [[res w2]|] eqn:E2; [|done].
    rewrite (IH n' _ _ _ _ _ E2) by lia. destruct res; try done. apply IH; [done|lia].
  - destruct envs; [done|]. apply IH; [done|lia].
Qed.

(** A body that ends or blocks at once needs no transfer. *)
Lemma followed_leaf void p envs w res w' : call 1 void p envs w = Some (res, w') -> followed 0 void p envs w res w'.
Proof.
  cbn [call]. intros Hcall k m h c pl x Hh. revert Hcall.
  destruct (body p w) as [[v| |e|vd q k1|q] w1] eqn:Eb; try done.
  - intros [= <- <-]. destruct void.
    + exact (run_on_ended h (live c true pl) (co_return v) (ended c true (inr None)) (fun _ _ => eq_refl) _ _ _ m x _ _ Eb).
    + exact (run_on_ended h (live c false pl) (co_return v) (ended c false (inr (Some v))) (fun _ _ => eq_refl) _ _ _ m x _ _ Eb).
  - intros [= <- <-]. destruct void; cbn [follows].
    + exact (run_on_ended h (live c true pl) flow_off (ended c true (inr None)) (fun _ _ => eq_refl) _ _ _ m x _ _ Eb).
    + now rewrite (run_on_leave _ _ _ _ _ _ _ _ _ Eb).
  - intros [= <- <-].
    exact (run_on_ended h (live c void pl) (raise e) (ended c void (inl e)) (fun _ _ => eq_refl) _ _ _ m x _ _ Eb).
  - destruct envs as [|g envs']; [|done]. intros [= <- <-]. rewrite (run_on_leave _ _ _ _ _ _ _ _ _ Eb).
    st_step (leave_wait h (live c void pl) x q m w1). eexists _, _. split_and!; [reflexivity| |].
    + now apply suspended_chain_leaf with q.
    + eexists. split; [apply lookup_insert_eq|done].
Qed.

Lemma run_follows n void p envs w res w' : call n void p envs w = Some (res, w') ->
  exists k0, followed k0 void p envs w res w'.
Proof.
  revert void p envs w res w'. induction n as [|n IH]; intros void p envs w res w' Hc; [done|].
  destruct (call 1 void p envs w) as [res1|] eqn:E1.
  { rewrite (call_more 1 (S n) _ _ _ _ _ E1 ltac:(lia)) in Hc. injection Hc as ->. eauto using followed_leaf. }
  cbn [call] in *. destruct (body p w) as [[v| |e|vd q k1|q] w1] eqn:Eb; try done.
  - destruct (call n vd q envs w1) as [[res1 w2]|] eqn:E2; [|done].
    destruct (IH _ _ _ _ _ _ E2) as [k0 H1]. destruct res1 as [r envs1| |].
    + destruct (IH _ _ _ _ _ _ Hc) as [k2 H2].
      eexists. exact (followed_await _ _ _ _ _ _ _ _ _ _ _ _ _ _ _ Eb (call_result_ok _ _ _ _ _ _ _ _ E2) H1 H2).
    + injection Hc as <- <-. eexists. eapply followed_stuck; eauto.
    + injection Hc as <- <-. eexists. eapply followed_stuck; eauto.
  - destruct envs as [|g envs']; [done|].
    destruct (IH _ _ _ _ _ _ Hc) as [k1 H1]. eexists. eapply followed_wait; eauto.
Qed.

Lemma make_done void p m w : make void p {| frames := m; world := w |} =
  Done (fresh (dom m), {| frames := <[fresh (dom m) := live None void (At p)]> m; world := w |}).
Proof. reflexivity. Qed.

Lemma fresh_frame (m : heap) : m !! fresh (dom m) = None.
Proof. apply not_elem_of_dom, is_fresh. Qed.

(** The task of a followed call, from its creation on. *)
Lemma drive_followed k0 k void p envs w res w' m : followed k0 void p envs w res w' -> (k0 <= k)%nat ->
  follows res w' (k - k0) (fresh (dom m)) None void m
    (drive (S k) envs (fresh (dom m)) {| frames := <[fresh (dom m) := live None void (At p)]> m; world := w |}).
Proof.
  intros Hf Hk. rewrite drive_at.
  pose proof (Hf (k - k0)%nat m (fresh (dom m)) None (At p) (live None void Running) (fresh_frame m)) as H1.
  now replace (k0 + (k - k0))%nat with k in H1 by lia.
Qed.

(** A machine that stops follows a call that stops. *)
Lemma run_on_followed j void p envs w h c pl x m : m !! h = None ->
  (forall s, run_on j envs h (live c void pl) p (<[h := x]> m) w <> Done (None, s)) ->
  exists n k0 res w', call n void p envs w = Some (res, w') /\ followed k0 void p envs w res w' /\ (k0 <= j)%nat.
Proof.
  revert void p envs w h c pl x m. induction j as [j IH] using lt_wf_ind. intros void p envs w h c pl x m Hh Hj.
  destruct (call 1 void p envs w) as [[res w']|] eqn:E1.
  { exists 1%nat, O, res, w'. split_and!; [done|now apply followed_leaf|lia]. }
  cbn [call] in E1. destruct (body p w) as [[v| |e|vd q k1|q] w1] eqn:Eb; try done.
  - destruct (run_on_await _ _ _ h c void pl x _ _ _ m Eb Hh) as (ch & Hch & Hne & Hst).
    destruct j as [|j].
    { exfalso. destruct (leave_await h (live c void pl) x vd q k1 m w1 Hh) as (? & _ & _ & El).
      rewrite (run_on_leave _ _ _ _ _ _ _ _ _ Eb) in Hj. rewrite (bind_done _ _ _ _ _ El) in Hj. now eapply Hj. }
    rewrite Hst in Hj.
    destruct (IH j ltac:(lia) _ _ _ _ _ _ _ _ (<[h := live c void (Awaiting ch k1)]> m)
      ltac:(now rewrite lookup_insert_ne by done) Hj) as (n1 & k0 & res1 & w2 & E2 & H1 & Hk0).
    destruct res1 as [r envs1| |].
    2, 3: exists (S n1), (S k0); do 2 eexists; split_and!; [cbn [call]; now rewrite Eb, E2|eapply followed_stuck; eauto|lia].
    pose proof (call_result_ok _ _ _ _ _ _ _ _ E2) as Hr.
    pose proof (H1 (j - k0)%nat (<[h := live c void (Awaiting ch k1)]> m) ch (Some h) (At q) (live (Some h) vd Running)
      ltac:(now rewrite lookup_insert_ne by done)) as Hf.
    replace (k0 + (j - k0))%nat with j in Hf by lia. cbn [follows back_to dispatch] in Hf. rewrite Hf in Hj.
    destruct (j - k0)%nat as [|i] eqn:Ei; [now edestruct Hj|].
    rewrite (drive_awaiting _ _ m w2 h c void ch k1 (Some h) vd r Hh Hch) in Hj by done.
    destruct (IH i ltac:(lia) _ _ _ _ _ _ _ _ m Hh Hj) as (n2 & k2 & res & w' & E3 & H2 & Hk2).
    exists (S (max n1 n2)), (S (k0 + S k2)), res, w'. split_and!; [|eapply followed_await; eauto|lia].
    cbn [call]. rewrite Eb, (call_more _ _ _ _ _ _ _ E2) by lia. eapply call_more; [exact E3|lia].
  - destruct envs as [|g envs']; [done|].
    rewrite (run_on_leave _ _ _ _ _ _ _ _ _ Eb) in Hj.
    rewrite (bind_done _ _ _ _ _ (leave_wait h (live c void pl) x q m w1)) in Hj.
    cbn [dispatch] in Hj. rewrite bind_modify in Hj. cbn [frames world] in Hj.
    change (place_at (At q) _) with (live c void (At q)) in Hj.
    destruct j as [|j]; [now edestruct Hj|]. rewrite drive_at in Hj.
    destruct (IH j ltac:(lia) _ _ _ _ _ _ _ _ m Hh Hj) as (n2 & k2 & res & w' & E3 & H2 & Hk2).
    exists (S n2), (S k2), res, w'. split_and!; [cbn [call]; now rewrite Eb|eapply followed_wait; eauto|lia].
Qed.

(** What a whole run of a task shows of the call it follows. *)
Lemma run_task_followed k0 k void p envs w res w' m : followed k0 void p envs w res w' -> (k0 <= k)%nat ->
  (forall r envs', res = Returns r envs' -> result_ok void r) ->
  run_task (S k) envs void p {| frames := m; world := w |} =
  if res is Undefined then Fail UndefinedBehaviour else Done (Some res, {| frames := m; world := w' |}).
Proof.
  intros Hf Hk Hr. pose proof (drive_followed _ _ _ _ _ _ _ _ m Hf Hk) as Hd.
  unfold run_task. st_step (make_done void p m w).
  pose proof (fresh_frame m) as Hh. set (h := fresh (dom m)) in *. clearbody h.
  destruct res as [r envs'| |]; cbn [follows back_to dispatch] in Hd.
  - st_step Hd. eassert (E1 : <[h := ended None void r]> m !! h = _) by apply lookup_insert_eq.
    st_step (get_result_ended _ _ _ _ _ w' E1 (Hr _ _ eq_refl)).
    st_step (destroy_ended _ _ _ _ _ w' E1). now rewrite delete_insert_id.
  - destruct Hd as (l & fr & El & Hc & _). st_step El. now st_step (suspended_chain_destroy _ _ _ w' Hc).
  - now apply bind_fail.
Qed.

Lemma get_result_live c h void a m w : m !! h = Some (live c void a) ->
  get_result h {| frames := m; world := w |} =
  if void then Done (inr None, {| frames := m; world := w |})
  else Fail (if asserts_enabled then AssertFailed else UndefinedBehaviour).
Proof.
  intros E0. unfold get_result. st_step (frame_at_done _ _ _ w E0). cbn. destruct void; [reflexivity|].
  unfold cassert. now destruct asserts_enabled.
Qed.

Lemma done_at h f m w : m !! h = Some f ->
  done h {| frames := m; world := w |} = Done (if at_ f is Final then true else false, {| frames := m; world := w |}).
Proof. intros E0. unfold done. now st_step (frame_at_done _ _ _ w E0). Qed.

(** ** Theorems *)

(** C20: Coroutines that [co_await] tasks are functions that call functions: when
    the calls come to an end - returning a value, throwing, blocking for ever
    where the environment gives no more, or running off the end of a function
    with a value - so does the run of the task, for any number of transfers
    above a bound, with the same result and the same effects; the frames of all
    coroutines involved are gone after the task was destroyed, also when it is
    destroyed while they are suspended, and no other frame is touched.  When the
    task stops, the calls do. *)
Theorem tasks_are_calls void p envs w m :
  (forall n res w', call n void p envs w = Some (res, w') -> exists k0, forall k, (k0 <= k)%nat ->
     run_task k envs void p {| frames := m; world := w |} =
     if res is Undefined then Fail UndefinedBehaviour else Done (Some res, {| frames := m; world := w' |})) /\
  (forall k, (forall s, run_task k envs void p {| frames := m; world := w |} <> Done (None, s)) ->
     exists n, call n void p envs w <> None).
Proof.
  split.
  - intros n res w' Hc. destruct (run_follows _ _ _ _ _ _ _ Hc) as [k0 Hf]. exists (S k0). intros [|k] Hk; [lia|].
    apply (run_task_followed _ _ _ _ _ _ _ _ m Hf); [lia|]. intros r envs' ->. eapply call_result_ok, Hc.
  - intros k Hk. unfold run_task in Hk. rewrite (bind_done _ _ _ _ _ (make_done void p m w)) in Hk.
    destruct k as [|k]; [now edestruct Hk|].
    destruct (run_on_followed k void p envs w (fresh (dom m)) None (At p) (live None void Running) m (fresh_frame m))
      as (n & k0 & res & w' & Hc & _); [|exists n; now rewrite Hc].
    intros s Es. apply (Hk s). apply bind_done with (a := None) (s' := s).
    rewrite drive_at. exact Es.
Qed.

(** [syncWait] returns or throws what the task does if the task ends without
    waiting for anything outside; if it waits, [syncWait] of a [Task<void>]
    returns as if it had ended and [syncWait] of another task fails its
    assertion or reads an empty [optional]; and it is undefined on an empty [Task]. *)
Theorem syncWait_cases n void p w res w' m :
  call n void p [] w = Some (res, w') -> exists k0, forall k, (k0 <= k)%nat ->
  (forall s, syncWait k None s = Fail UndefinedBehaviour) /\
  match res with
  | Returns r _ => exists s, sync_task k void p {| frames := m; world := w |} = Done (Some r, s) /\ world s = w'
  | Undefined => sync_task k void p {| frames := m; world := w |} = Fail UndefinedBehaviour
  | Blocks =>
      if void then exists h s, sync_task k void p {| frames := m; world := w |} = Done (Some (inr None), s) /\
        done h s = Done (false, s) /\ m !! h = None
      else sync_task k void p {| frames := m; world := w |} =
        Fail (if asserts_enabled then AssertFailed else UndefinedBehaviour)
  end.
Proof.
  intros Hc. destruct (run_follows _ _ _ _ _ _ _ Hc) as [k0 Hf]. exists (S k0). intros [|k] Hk; [lia|].
  split; [reflexivity|]. pose proof (drive_followed _ k _ _ _ _ _ _ m Hf ltac:(lia)) as Hd.
  pose proof (fresh_frame m) as Hh.
  assert (Es : sync_task (S k) void p {| frames := m; world := w |} =
    (z ← drive (S k) [] (fresh (dom m));
     match z with None => mret None | Some _ => r ← get_result (fresh (dom m)); mret (Some r) end)
    {| frames := <[fresh (dom m) := live None void (At p)]> m; world := w |}).
  { unfold sync_task. st_step (make_done void p m w). unfold syncWait. cbn [deref]. rewrite bind_ret_l.
    now st_step (done_at _ _ _ w (lookup_insert_eq m (fresh (dom m)) (live None void (At p)))). }
  rewrite Es. set (h := fresh (dom m)) in *. clearbody h. clear Es.
  destruct res as [r envs'| |]; cbn [follows back_to dispatch] in Hd.
  - st_step Hd. eassert (E1 : <[h := ended None void r]> m !! h = _) by apply lookup_insert_eq.
    st_step (get_result_ended _ _ _ _ _ w' E1 (call_result_ok _ _ _ _ _ _ _ _ Hc)). eexists. split; reflexivity.
  - destruct Hd as (l & fr & El & _ & a & Ea & Ha). st_step El.
    pose proof (get_result_live _ _ _ _ _ w' Ea) as Eg. destruct void.
    + st_step Eg. exists h. eexists. split_and!; [reflexivity| |done].
      rewrite (done_at _ _ _ _ Ea). now destruct a.
    + now apply bind_fail.
  - now apply bind_fail.
Qed.
End Task.

(** ** Examples *)
Module Demo.
#[local] Existing Instance debug_build.

(** [Task<int> sum(int n)]: [if (n == 0) co_return 0; int r = co_await sum(n - 1);
    co_await next_value; co_return n + r + value;]  and [Task<void> log(int n)],
    which awaits a sum; a negative [n] throws. *)
Inductive pt :=
  | Sum (n : Z)
  | Got (n : Z) (r : Z + option Z)
  | Add (n r : Z)
  | Log (n : Z)
  | Logged (r : Z + option Z).

Definition program (p : pt) (w : Z) : act pt Z Z * Z :=
  match p with
  | Sum n =>
      if n <? 0 then (raise n, w) else if n =? 0 then (co_return 0, w)
      else (co_await_task false (Sum (n - 1)) (Got n), w)
  | Got n (inr (Some r)) => (co_await (Add n r), w)
  | Got n (inr None) => (flow_off, w)
  | Got n (inl e) => (raise e, w)
  | Add n r => (co_return (n + r + w), w)
  | Log n => (co_await_task false (Sum n) Logged, w)
  | Logged (inl e) => (raise e, w)
  | Logged _ => (flow_off, w)
  end.

Definition start : state pt Z Z Z := {| frames := {[ 7 := new_frame true (Log 0) ]}; world := 0 |}.

Lemma sum_runs : run_task program 20 [Z.add 10; Z.add 10; Z.add 10] false (Sum 2) start =
  Done (Some (Returns (inr (Some 33)) [Z.add 10]), {| frames := frames start; world := 20 |}).
Proof. vm_compute. reflexivity. Qed.

(** The run above, and one that blocks, whose frames are freed all the same. *)
Lemma tasks_are_calls_witness :
  (exists k0, forall k, (k0 <= k)%nat ->
     run_task program k [Z.add 10; Z.add 10; Z.add 10] false (Sum 2) start =
     Done (Some (Returns (inr (Some 33)) [Z.add 10]), {| frames := frames start; world := 20 |})) /\
  (exists k0, forall k, (k0 <= k)%nat ->
     run_task program k [Z.add 10] true (Log 2) start =
     Done (Some Blocks, {| frames := frames start; world := 10 |})).
Proof.
  split.
  - exact (proj1 (tasks_are_calls program false (Sum 2) [Z.add 10; Z.add 10; Z.add 10] 0 (frames start)) 9%nat
      (Returns (inr (Some 33)) [Z.add 10]) 20 eq_refl).
  - exact (proj1 (tasks_are_calls program true (Log 2) [Z.add 10] 0 (frames start)) 9%nat Blocks 10 eq_refl).
Defined.

(** [syncWait] of a task that throws. *)
Lemma syncWait_cases_witness : exists k0, forall k, (k0 <= k)%nat ->
  (forall s, syncWait program k None s = Fail UndefinedBehaviour) /\
  exists s, sync_task program k true (Log (-1)) start = Done (Some (inl (-1)), s) /\ world s = 0.
Proof. exact (syncWait_cases program 9 true (Log (-1)) 0 (Returns (inl (-1)) []) 0 (frames start) eq_refl). Defined.

Lemma syncWait_too_early :
  match sync_task program 9 true (Log 2) start with Done (r, _) => r = Some (inr None) | Fail _ => False end /\
  sync_task program 9 false (Sum 2) start = Fail AssertFailed.
Proof. vm_compute. split; reflexivity. Qed.
End Demo.
