(* ===== verification/TaskTypes.v ===== *)
(** TaskTypes: a type system for the coroutines of Task.v, and that it is sound.

    The type of a resume point is that of the task whose body it belongs to:
    [Task<void>] ([true]) or a task with a value.  A body is well typed when only
    a [Task<void>] may run off its end, and every await continues at a point of its
    own type for every outcome that the awaited task can have. *)

From Stdlib Require Import ZArith Lia.
From S2P Require Import Prelude Task.
Local Open Scope Z_scope.

Section Types.
Context {P V E W : Type} (body : P -> W -> act P V E * W) (ty : P -> bool) `{HB : Build}.
Abbreviation State := (state P V E W).
Abbreviation Frame := (frame P V E).
Abbreviation heap := (gmap Z Frame).
Implicit Types (m : heap) (w : W) (f : Frame) (h : Z).

(** ** Types *)

(** The await expression of a task of type [vd] goes on, whatever the outcome, at
    points of type [void]. *)
Definition takes (vd : bool) (k : E + option V -> P) (void : bool) : Prop := forall r, result_ok vd r -> ty (k r) = void.

(** How a body of type [void] may leave a resume point. *)
Definition act_typed (void : bool) (a : act P V E) : Prop :=
  match a with
  | co_return _ | raise _ => True
  | flow_off => void = true
  | co_await_task vd q k => ty q = vd /\ takes vd k void
  | co_await q => ty q = void
  end.

Definition well_typed : Prop := forall p w, act_typed (ty p) (body p w).1.

(** A frame is that of a coroutine that has no result yet, or has ended with one of
    its type. *)
Definition frame_typed m h f : Prop :=
  match at_ f with
  | At p => f = live (continuation_ f) (ty p) (At p)
  | Awaiting c k => f = live (continuation_ f) (void_ f) (Awaiting c k) /\
      exists fc, m !! c = Some fc /\ continuation_ fc = Some h /\ takes (void_ fc) k (void_ f)
  | Running => False
  | Final => exists r, result_ok (void_ f) r /\ f = ended (continuation_ f) (void_ f) r
  end.

(** A continuation awaits the task it is stored in. *)
Definition awaited m h f : Prop :=
  forall p, continuation_ f = Some p -> exists fp k, m !! p = Some fp /\ at_ fp = Awaiting h k.

Definition heap_typed m : Prop := forall h f, m !! h = Some f -> frame_typed m h f /\ awaited m h f.

(** [h] can be resumed: it waits, and the task that it awaits has ended. *)
Definition ready m h : Prop := exists f, m !! h = Some f /\
  match at_ f with
  | At _ => True
  | Awaiting c _ => exists fc, m !! c = Some fc /\ at_ fc = Final
  | _ => False
  end.

(** Control is where it can go on; a coroutine that gave its handle away waits. *)
Definition control_typed m (ctl : control) : Prop :=
  match ctl with
  | Transfer h => ready m h
  | Ended => True
  | Suspended h => exists f p, m !! h = Some f /\ at_ f = At p
  end.

(** ** One transfer of control *)

Lemma waits_ready m h f p : m !! h = Some f -> at_ f = At p -> ready m h.
Proof. intros Hh Hf. exists f. split; [done|]. now rewrite Hf. Qed.

(** The frame of [h] changes but keeps its type and continuation. *)
Lemma heap_typed_update m h f f' : heap_typed m -> m !! h = Some f ->
  continuation_ f' = continuation_ f -> void_ f' = void_ f -> (forall c k, at_ f <> Awaiting c k) ->
  frame_typed (<[h := f']> m) h f' -> heap_typed (<[h := f']> m).
Proof.
  intros Ht Hh Hc Hv Hn Hf' h1 f1 H1. apply lookup_insert_Some in H1 as [[<- <-]|[Hne H1]].
  - split; [done|]. intros p Hp. rewrite Hc in Hp. destruct (Ht _ _ Hh) as [_ Ha].
    destruct (Ha p Hp) as (fp & k & Hp1 & Hp2). exists fp, k. split; [|done]. rewrite lookup_insert_ne; [done|].
    intros <-. rewrite Hh in Hp1. injection Hp1 as <-. exact (Hn _ _ Hp2).
  - destruct (Ht _ _ H1) as [Hf Ha]. split.
    + unfold frame_typed in *. destruct (at_ f1) as [p|c k| |]; try done. destruct Hf as (Ef & fc & Hfc & Hco & Hk).
      split; [exact Ef|]. destruct (decide (c = h)) as [->|Hch].
      * rewrite Hh in Hfc. injection Hfc as <-. exists f'. rewrite lookup_insert_eq, Hc, Hv. done.
      * exists fc. now rewrite lookup_insert_ne by done.
    + intros p Hp. destruct (Ha p Hp) as (fp & k & Hp1 & Hp2). exists fp, k. split; [|done]. rewrite lookup_insert_ne; [done|].
      intros <-. rewrite Hh in Hp1. injection Hp1 as <-. exact (Hn _ _ Hp2).
Qed.
(** A coroutine that ended hands control to the one that awaits it. *)
Lemma ended_ready m h f r void x : m !! h = Some f -> awaited m h f -> (forall c k, at_ f <> Awaiting c k) ->
  control_typed (<[h := ended x void r]> m) (back_to (continuation_ f)).
Proof.
  intros Hh Ha Hn. destruct (continuation_ f) as [p|] eqn:Ec; [|done]. destruct (Ha p Ec) as (fp & k & Hp & Hat).
  exists fp. split.
  - rewrite lookup_insert_ne; [done|]. intros <-. rewrite Hh in Hp. injection Hp as <-. exact (Hn _ _ Hat).
  - rewrite Hat. exists (ended x void r). now rewrite lookup_insert_eq.
Qed.

Lemma end_typed m h c p r : heap_typed m -> m !! h = Some (live c (ty p) (At p)) -> result_ok (ty p) r ->
  heap_typed (<[h := ended c (ty p) r]> m) /\ control_typed (<[h := ended c (ty p) r]> m) (back_to c).
Proof.
  intros Ht Hh Hr. split.
  - apply heap_typed_update with (live c (ty p) (At p)); try done. now exists r.
  - apply (ended_ready m h (live c (ty p) (At p))); [exact Hh|exact (proj2 (Ht _ _ Hh))|done].
Qed.

(** A frame joins the heap, that of a task which [h] starts to await. *)
Lemma await_typed m h c p ch q k : heap_typed m -> m !! h = Some (live c (ty p) (At p)) -> m !! ch = None ->
  takes (ty q) k (ty p) ->
  heap_typed (<[ch := live (Some h) (ty q) (At q)]> (<[h := live c (ty p) (Awaiting ch k)]> m)).
Proof.
  intros Ht Hh Hch Hk h1 f1 H1. assert (Hne : ch <> h) by congruence.
  assert (Hold : forall h2 f2, m !! h2 = Some f2 -> awaited m h2 f2 ->
    awaited (<[ch := live (Some h) (ty q) (At q)]> (<[h := live c (ty p) (Awaiting ch k)]> m)) h2 f2).
  { intros h2 f2 H2 Ha p' Hp. destruct (Ha p' Hp) as (fp & k' & Hp1 & Hp2). exists fp, k'. split; [|done].
    rewrite !lookup_insert_ne; [done|intros <-; rewrite Hh in Hp1; now injection Hp1 as <-|congruence]. }
  apply lookup_insert_Some in H1 as [[<- <-]|[Hc1 H1]]; [|apply lookup_insert_Some in H1 as [[<- <-]|[Hh1 H1]]].
  - split; [done|]. intros p' [= <-]. rewrite lookup_insert_ne, lookup_insert_eq by done. eauto.
  - split.
    + split; [done|]. rewrite lookup_insert_eq. eexists. split; [reflexivity|done].
    + exact (Hold h _ Hh (proj2 (Ht _ _ Hh))).
  - destruct (Ht _ _ H1) as [Hf Ha]. split; [|exact (Hold _ _ H1 Ha)].
    unfold frame_typed in *. destruct (at_ f1) as [p1|c1 k1| |]; try done. destruct Hf as (Ef & fc & Hfc & Hco & Hk1).
    split; [exact Ef|]. destruct (decide (c1 = h)) as [->|Hch1].
    + rewrite Hh in Hfc. injection Hfc as <-. rewrite lookup_insert_ne, lookup_insert_eq by done. eauto.
    + exists fc. now rewrite !lookup_insert_ne by congruence.
Qed.

(** A frame leaves the heap, that of the ended task which [h] awaited. *)
Lemma join_typed m h c void ch k cc vd r : heap_typed m -> m !! h = Some (live c void (Awaiting ch k)) ->
  m !! ch = Some (ended cc vd r) -> result_ok vd r ->
  ty (k r) = void /\ heap_typed (<[h := live c void (At (k r))]> (delete ch m)).
Proof.
  intros Ht Hh Hch Hr. destruct (Ht _ _ Hh) as [[_ (fc & Hfc & Hco & Hk)] Haw].
  cbn in Hfc. rewrite Hch in Hfc. injection Hfc as <-. cbn in Hco, Hk. subst cc. split; [exact (Hk r Hr)|].
  assert (Hne : ch <> h) by (intros ->; rewrite Hh in Hch; discriminate).
  assert (Hold : forall h2 f2, h2 <> ch -> awaited m h2 f2 -> awaited (<[h := live c void (At (k r))]> (delete ch m)) h2 f2).
  { intros h2 f2 H2 Ha p' Hp. destruct (Ha p' Hp) as (fp & k' & Hp1 & Hp2). exists fp, k'. split; [|done].
    rewrite lookup_insert_ne, lookup_delete_ne; [done|intros <-; rewrite Hch in Hp1; now injection Hp1 as <-|].
    intros <-. rewrite Hh in Hp1. injection Hp1 as <-. now injection Hp2 as -> _. }
  intros h1 f1 H1. apply lookup_insert_Some in H1 as [[<- <-]|[Hh1 H1]].
  - split; [|apply Hold; [done|exact Haw]]. unfold frame_typed. cbn. now rewrite (Hk r Hr).
  - apply lookup_delete_Some in H1 as [Hc1 H1]. destruct (Ht _ _ H1) as [Hf Ha]. split; [|now apply Hold].
    unfold frame_typed in *. destruct (at_ f1) as [p1|c1 k1| |]; try done. destruct Hf as (Ef & fc & Hfc & Hco & Hk1).
    split; [exact Ef|]. destruct (decide (c1 = h)) as [->|Hch1].
    + rewrite Hh in Hfc. injection Hfc as <-. rewrite lookup_insert_eq. eauto.
    + exists fc. rewrite lookup_insert_ne, lookup_delete_ne; [done| |done].
      intros <-. rewrite Hch in Hfc. injection Hfc as <-. cbn in Hco. congruence.
Qed.

Lemma leave_typed m h c p x pl a w : heap_typed m -> m !! h = Some (live c (ty p) (At p)) -> act_typed (ty p) a ->
  exists ctl m', leave h (live c (ty p) pl) a {| frames := <[h := x]> m; world := w |} =
    Done (ctl, {| frames := m'; world := w |}) /\ heap_typed m' /\ control_typed m' ctl.
Proof.
  intros Ht Hh Ha. destruct a as [v| |e|vd q k|q]; cbn in Ha.
  - exists (back_to c), (<[h := ended c (ty p) (inr (value_of (ty p) v))]> m).
    split; [|apply end_typed; [done..|now destruct (ty p)]].
    unfold leave. rewrite final_suspend_done. rewrite insert_insert_eq. now destruct (ty p).
  - exists (back_to c), (<[h := ended c (ty p) (inr None)]> m). split; [|now apply end_typed].
    cbn [leave void_ live]. rewrite Ha, final_suspend_done. now rewrite insert_insert_eq.
  - exists (back_to c), (<[h := ended c (ty p) (inl e)]> m). split; [|now apply end_typed].
    unfold leave. rewrite final_suspend_done. now rewrite insert_insert_eq.
  - destruct Ha as [<- Hk].
    destruct (leave_await h (live c (ty p) pl) x (ty q) q k (delete h m) w (lookup_delete_eq _ _)) as (ch & Hch & Hne & El).
    rewrite !insert_delete_eq in El. rewrite lookup_delete_ne in Hch by done.
    exists (Transfer ch), (<[ch := live (Some h) (ty q) (At q)]> (<[h := live c (ty p) (Awaiting ch k)]> m)).
    split_and!; [exact El|now apply await_typed|]. eapply waits_ready; [apply lookup_insert_eq|done].
  - exists (Suspended h), (<[h := live c (ty p) (At q)]> m). split_and!.
    + apply leave_wait.
    + apply heap_typed_update with (live c (ty p) (At p)); try done. unfold frame_typed. cbn. now rewrite Ha.
    + exists (live c (ty p) (At q)), q. now rewrite lookup_insert_eq.
Qed.

(** A ready coroutine of a well-typed heap runs to its next suspension, and leaves a
    well-typed heap with control where it can go on. *)
Lemma step_typed m h w : well_typed -> heap_typed m -> ready m h ->
  exists ctl m' w', step body h {| frames := m; world := w |} = Done (ctl, {| frames := m'; world := w' |}) /\
    heap_typed m' /\ control_typed m' ctl.
Proof.
  intros Hb Ht (f & Hh & Hf). destruct (Ht _ _ Hh) as [Hft _]. unfold frame_typed in Hft.
  destruct (at_ f) as [p|ch k| |] eqn:Eat; try done.
  - rewrite Hft in Hh. clear Hf. set (c := continuation_ f) in *. clearbody c. specialize (Hb p w).
    destruct (body p w) as [a w1] eqn:Eb. cbn in Hb.
    destruct (leave_typed m h c p (live c (ty p) Running) (At p) a w1 Ht Hh Hb) as (ctl & m' & El & Hm').
    exists ctl, m', w1. split; [|exact Hm']. rewrite (step_at body _ _ _ _ _ _ Hh). now rewrite (run_body_leave _ _ _ _ _ _ _ _ Eb).
  - destruct Hft as [Ef _]. destruct Hf as (fc & Hfc & Hfin). destruct (Ht _ _ Hfc) as [Hct _].
    unfold frame_typed in Hct. rewrite Hfin in Hct. destruct Hct as (r & Hr & Efc).
    rewrite Ef in Hh. rewrite Efc in Hfc. set (c := continuation_ f) in *. set (void := void_ f) in *. clearbody c void.
    destruct (join_typed m h c void ch k _ _ r Ht Hh Hfc Hr) as [Hty Ht'].
    assert (Hne : h <> ch) by (intros ->; rewrite Hh in Hfc; discriminate).
    specialize (Hb (k r) w). destruct (body (k r) w) as [a w1] eqn:Eb. cbn in Hb.
    destruct (leave_typed _ h c (k r) (live c void Running) (Awaiting ch k) a w1 Ht' ltac:(rewrite lookup_insert_eq, Hty; done) Hb)
      as (ctl & m' & El & Hm').
    exists ctl, m', w1. split; [|exact Hm']. rewrite insert_insert_eq, Hty in El.
    rewrite <-El, <-(run_body_leave body _ _ _ _ _ _ _ Eb).
    pose proof (step_awaiting body (delete h (delete ch m)) w h c void ch k (continuation_ fc) (void_ fc) r
      (lookup_delete_eq _ _) ltac:(now rewrite lookup_delete_ne, lookup_delete_eq by done) Hne Hr) as Es.
    rewrite !insert_delete_eq in Es. rewrite <-Es. do 2 f_equal. symmetry.
    rewrite insert_insert_ne, insert_delete_eq by done. rewrite (insert_id m ch) by done. now apply insert_id.
Qed.

Lemma drive_typed n envs m h w : well_typed -> heap_typed m -> ready m h ->
  exists z m' w', drive body n envs h {| frames := m; world := w |} = Done (z, {| frames := m'; world := w' |}) /\
    heap_typed m' /\ (if z is Some (Blocked l) then exists f p, m' !! l = Some f /\ at_ f = At p else True).
Proof.
  intros Hb. revert envs m h w. induction n as [|n IH]; intros envs m h w Ht Hr; [by exists None, m, w|].
  destruct (step_typed m h w Hb Ht Hr) as (ctl & m1 & w1 & E1 & Ht1 & Hc1).
  rewrite drive_S, (bind_done _ _ _ _ _ E1). destruct ctl as [h'| |l]; cbn in Hc1 |- *.
  - now apply IH.
  - by exists (Some (Finished envs)), m1, w1.
  - destruct envs as [|g envs]; [by exists (Some (Blocked l)), m1, w1|].
    rewrite bind_modify. cbn [frames world]. destruct Hc1 as (f & p & Hl & Hp). apply IH; [done|].
    exact (waits_ready _ _ _ _ Hl Hp).
Qed.

Lemma new_frame_typed m p : heap_typed m ->
  heap_typed (<[fresh (dom m) := live None (ty p) (At p)]> m) /\ ready (<[fresh (dom m) := live None (ty p) (At p)]> m) (fresh (dom m)).
Proof.
  intros Ht. pose proof (fresh_frame m) as Hn. set (h := fresh (dom m)) in *. clearbody h. split.
  - intros h1 f1 H1. apply lookup_insert_Some in H1 as [[<- <-]|[Hne H1]]; [done|].
    destruct (Ht _ _ H1) as [Hf Ha]. split.
    + unfold frame_typed in *. destruct (at_ f1); try done. destruct Hf as (Ef & fc & Hfc & Hrest).
      split; [done|]. exists fc. now rewrite lookup_insert_ne by congruence.
    + intros p' Hp. destruct (Ha p' Hp) as (fp & k & Hp1 & Hp2). exists fp, k. now rewrite lookup_insert_ne by congruence.
  - eapply waits_ready; [apply lookup_insert_eq|done].
Qed.

(** C21: well-typed coroutines do not go wrong, with assertions and without: calling
    one gives a task that can be resumed; resuming any coroutine that waits, or
    whose awaited task has ended, never fails - no handle to a frame that is gone,
    no resumption of a running or ended coroutine, no missing result - for any
    number of transfers and any environment; the types of all frames are kept; a
    run stops only where the coroutine that gave its handle away waits; and every
    task that has ended has a result of its type or an exception. *)
Theorem tasks_type_safe (s : State) : well_typed -> heap_typed (frames s) ->
  (forall p, exists h s', make (ty p) p s = Done (h, s') /\ heap_typed (frames s') /\ ready (frames s') h) /\
  (forall h n envs, ready (frames s) h -> exists z s', drive body n envs h s = Done (z, s') /\ heap_typed (frames s') /\
     (if z is Some (Blocked l) then exists f p, frames s' !! l = Some f /\ at_ f = At p else True)) /\
  (forall h f, frames s !! h = Some f -> at_ f = Final ->
     exists r, get_result h s = Done (r, s) /\ result_ok (void_ f) r).
Proof.
  destruct s as [m w]. cbn [frames]. intros Hb Ht. split_and!.
  - intros p. destruct (new_frame_typed m p Ht) as [Ht' Hr]. rewrite make_done. eauto.
  - intros h n envs Hr. destruct (drive_typed n envs m h w Hb Ht Hr) as (z & m' & w' & E1 & H1). eauto.
  - intros h f Hh Hf. destruct (Ht _ _ Hh) as [Hft _]. unfold frame_typed in Hft. rewrite Hf in Hft.
    destruct Hft as (r & Hr & Ef). exists r. split; [|exact Hr]. rewrite Ef in Hh. exact (get_result_ended _ _ _ _ _ w Hh Hr).
Qed.
End Types.

(** ** Examples *)
Module Demo.
#[local] Existing Instance release_build.
Import Task.Demo.

(** The types of the resume points of the example of Task.v. *)
Definition pt_ty (p : pt) : bool :=
  match p with Log _ | Logged _ | Got _ (inr None) => true | _ => false end.

Lemma program_typed : well_typed program pt_ty.
Proof.
  intros [n|n [e|[r|]]|n r|n|[e|r]] w; cbn; try done.
  - destruct (n <? 0); [done|]. destruct (n =? 0); [done|]. split; [done|]. now intros [e|[r|]].
Qed.

Lemma start_typed : heap_typed pt_ty (frames start).
Proof. intros h f H1. cbn [frames start] in H1. apply lookup_singleton_Some in H1 as [<- <-]. by split. Qed.

Lemma start_ready : ready (frames start) 7.
Proof. exists (new_frame true (Log 0)). by split. Qed.

(** The task of the example, and a new one beside it. *)
Lemma tasks_type_safe_witness :
  (exists z s', drive program 20 [Z.add 10] 7 start = Done (z, s') /\ heap_typed pt_ty (frames s')) /\
  (exists h s', make false (Sum 2) start = Done (h, s') /\ ready (frames s') h).
Proof.
  destruct (tasks_type_safe program pt_ty start program_typed start_typed) as (H1 & H2 & _). split.
  - destruct (H2 7 20%nat [Z.add 10] start_ready) as (z & s' & E1 & Ht & _). eauto.
  - destruct (H1 (Sum 2)) as (h & s' & E1 & _ & Hr). eauto.
Defined.
End Demo.
