(* ===== verification/CoroScheduler.v ===== *)
(** CoroScheduler and CoroEventLoop: [coro/CoroScheduler.h],
    [coro/CoroScheduler.cpp], [coro/CoroEventLoop.h], [coro/CoroEventLoop.cpp].

    The coroutines are parameters: what [done] answers for a handle ([None] when
    its frame is gone) and what resuming it does to the rest of the program and
    which handles it schedules. *)

From Stdlib Require Import ZArith Lia.
From S2P Require Import Prelude.
Local Open Scope Z_scope.

(** A [std::coroutine_handle<>]: the address of a frame, or null. *)
Definition handle := option Z.

Record scheduler (W : Type) := { pendingCoroutines_ : list handle; rest : W }.
Arguments Build_scheduler {W}.
Arguments pendingCoroutines_ {W}.
Arguments rest {W}.

Section Scheduler.
Context {W : Type} (done : Z -> W -> option bool) (resume : Z -> W -> list handle * W).
Implicit Types (q : list handle) (r : W).

Definition scheduleResume (h : handle) : ST (scheduler W) unit :=
  modify (fun s => {| pendingCoroutines_ := pendingCoroutines_ s ++ [h]; rest := rest s |}).

(** [if (h && !h.done()) h.resume();] *)
Definition resume_one (h : handle) : ST (scheduler W) unit :=
  s ← get;
  match h with
  | None => mret tt
  | Some p =>
      d ← deref (done p (rest s));
      if (d : bool) then mret tt
      else
        let '(more, r) := resume p (rest s) in
        _ ← put {| pendingCoroutines_ := pendingCoroutines_ s; rest := r |};
        for_each more scheduleResume
  end.

(** [processPendingResumes]: the handles it took from the queue, in order;
    [None] when the queue is not empty after [n] of them. *)
Fixpoint processPendingResumes (n : nat) : ST (scheduler W) (option (list handle)) :=
  s ← get;
  match pendingCoroutines_ s, n with
  | [], _ => mret (Some [])
  | h :: q, O => mret None
  | h :: q, S n' =>
      _ ← put {| pendingCoroutines_ := q; rest := rest s |};
      _ ← resume_one h;
      l ← processPendingResumes n';
      mret (cons h <$> l)
  end.

(** ** Reference: one handle after the other *)

(** The handles scheduled while those of [l] have their turns. *)
Fixpoint turns (l : list handle) (r : W) : option (list handle * W) :=
  match l with
  | [] => Some ([], r)
  | None :: l' => turns l' r
  | Some p :: l' =>
      match done p r with
      | None => None
      | Some true => turns l' r
      | Some false =>
          let '(more, r1) := resume p r in
          match turns l' r1 with Some (q, r2) => Some (more ++ q, r2) | None => None end
      end
  end.

(** ** Lemmas *)

Lemma schedule_all l q r :
  for_each l scheduleResume {| pendingCoroutines_ := q; rest := r |} =
  Done (tt, {| pendingCoroutines_ := q ++ l; rest := r |}).
Proof.
  revert q. induction l as [|h l IH]; intros q; [now rewrite app_nil_r|].
  rewrite (for_each_cons h l scheduleResume {| pendingCoroutines_ := q; rest := r |} {| pendingCoroutines_ := q ++ [h]; rest := r |} eq_refl), IH.
  now rewrite <-app_assoc.
Qed.

Lemma resume_one_turn h q r more r' : turns [h] r = Some (more, r') ->
  resume_one h {| pendingCoroutines_ := q; rest := r |} =
  Done (tt, {| pendingCoroutines_ := q ++ more; rest := r' |}).
Proof.
  unfold resume_one. st_get. destruct h as [p|]; cbn [turns rest].
  - destruct (done p r) as [[]|]; [| |discriminate].
    + intros [= <- <-]. now rewrite app_nil_r.
    + destruct (resume p r) as [l r1] eqn:E. intros [= <- <-]. rewrite app_nil_r.
      cbn [deref]. unfold mbind, ST_bind, mret, ST_ret, put. apply schedule_all.
  - intros [= <- <-]. now rewrite app_nil_r.
Qed.

Lemma turns_cons h l r q r' : turns (h :: l) r = Some (q, r') <->
  exists q1 r1 q2, turns [h] r = Some (q1, r1) /\ turns l r1 = Some (q2, r') /\ q = q1 ++ q2.
Proof.
  destruct h as [p|]; cbn [turns].
  - destruct (done p r) as [[]|].
    + split; [intros E; exists [], r, q; now split_and!|]. now intros (q1 & r1 & q2 & [= <- <-] & E & ->).
    + destruct (resume p r) as [m r1]. split.
      * destruct (turns l r1) as [[q2 r2]|] eqn:E2; [|done]. intros [= <- <-].
        exists (m ++ []), r1, q2. split_and!; [done|done|now rewrite app_nil_r].
      * intros (q1 & r1' & q2 & [= <- <-] & E & ->). now rewrite E, app_nil_r.
    + split; [done|]. now intros (q1 & r1 & q2 & E & _).
  - split; [intros E; exists [], r, q; now split_and!|]. now intros (q1 & r1 & q2 & [= <- <-] & E & ->).
Qed.

(** ** Theorems *)

(** [processPendingResumes] takes the queued handles and, behind them, those
    scheduled meanwhile, first in first out and each once: the handles [l] it took
    are what was queued followed by what was scheduled in the turns of [l]; null
    handles and finished coroutines are skipped; the queue is empty at the end. *)
Theorem resumes_fifo n q r l s :
  processPendingResumes n {| pendingCoroutines_ := q; rest := r |} = Done (Some l, s) ->
  exists q', turns l r = Some (q', rest s) /\ l = q ++ q' /\ pendingCoroutines_ s = [].
Proof.
  revert q r l. induction n as [|n IH]; intros q r l.
  - destruct q; [|discriminate]. intros [= <- <-]. exists []. now split_and!.
  - destruct q as [|h q]; [intros [= <- <-]; exists []; now split_and!|].
    cbn [processPendingResumes]. rewrite bind_get. cbn [pendingCoroutines_ rest].
    erewrite bind_done by reflexivity. intros (u & s1 & E1 & E2)%bind_inv. destruct u.
    assert (exists more r1, turns [h] r = Some (more, r1)) as (more & r1 & Et).
    { revert E1. unfold resume_one. rewrite bind_get. cbn [turns rest]. destruct h as [p|]; [|eauto].
      destruct (done p r) as [[]|]; [eauto| |discriminate]. destruct (resume p r). eauto. }
    rewrite (resume_one_turn _ q r _ _ Et) in E1. injection E1 as <-.
    apply bind_inv in E2 as (l1 & s2 & E2 & E3). destruct l1 as [l1|]; [|discriminate].
    injection E3 as <- <-. destruct (IH _ _ _ E2) as (q' & Ht & -> & He).
    exists (more ++ q'). split_and!; [|now rewrite <-app_assoc|exact He].
    apply turns_cons. exists more, r1, q'. now split_and!.
Qed.

(** the loop comes to an end when the coroutines schedule only finitely much:
    a bound [mu] on what they will still schedule gives the number of rounds. *)
Theorem resumes_end (mu : W -> nat) q r :
  (forall p r, done p r <> None) ->
  (forall p r, done p r = Some false -> (length (resume p r).1 + mu (resume p r).2 <= mu r)%nat) ->
  exists l s, processPendingResumes (length q + mu r) {| pendingCoroutines_ := q; rest := r |} = Done (Some l, s).
Proof.
  intros Hd Hmu. assert (Hn : (length q + mu r <= length q + mu r)%nat) by lia. revert Hn.
  generalize (length q + mu r)%nat at 2 3 as n. intros n. revert q r. induction n as [|n IH]; intros q r Hn.
  - destruct q; [|cbn in Hn; lia]. eexists _, _. reflexivity.
  - destruct q as [|h q]; [eexists _, _; reflexivity|]. cbn [length Nat.add] in Hn.
    cbn [processPendingResumes]. rewrite bind_get. cbn [pendingCoroutines_ rest].
    assert (exists more r1, turns [h] r = Some (more, r1) /\ (length more + mu r1 <= mu r)%nat) as (more & r1 & Et & Hm).
    { cbn [turns]. destruct h as [p|]; [|exists [], r; split; [done|cbn; lia]].
      specialize (Hd p r). specialize (Hmu p r). destruct (done p r) as [[]|]; [exists [], r; split; [done|cbn; lia]| |done].
      specialize (Hmu eq_refl). destruct (resume p r) as [m r1]. exists (m ++ []), r1. rewrite app_nil_r. now split. }
    destruct (IH (q ++ more) r1 ltac:(rewrite length_app; lia)) as (l & s & E).
    exists (h :: l), s. erewrite bind_done by reflexivity. st_step (resume_one_turn _ q r _ _ Et). now st_step E.
Qed.

(** a coroutine that schedules itself whenever it is resumed keeps the loop
    in [processPendingResumes] for ever: the event loop does not poll again. *)
Theorem resumes_livelock p r0 :
  (forall r, done p r = Some false /\ (resume p r).1 = [Some p]) ->
  forall n, exists s, processPendingResumes n {| pendingCoroutines_ := [Some p]; rest := r0 |} = Done (None, s).
Proof.
  intros Hp n. revert r0. induction n as [|n IH]; intros r0; [eexists; reflexivity|].
  destruct (Hp r0) as [Hd Hr]. destruct (resume p r0) as [m r1] eqn:Er. cbn in Hr. subst m.
  destruct (IH r1) as (s & E). exists s.
  cbn [processPendingResumes]. rewrite bind_get. cbn [pendingCoroutines_ rest].
  erewrite bind_done by reflexivity.
  assert (Et : turns [Some p] r0 = Some ([Some p], r1)) by (cbn [turns]; now rewrite Hd, Er).
  st_step (resume_one_turn _ [] r0 _ _ Et). now st_step E.
Qed.
End Scheduler.

(** ** CoroEventLoop *)

(** One thread: the object [t_coroEventLoopInThisThread] points to, the pointer
    its [EventLoop] has been given, and the schedulers that exist, by address. *)
Record thread (W : Type) := {
  t_coroEventLoopInThisThread : option Z;
  coroScheduler_ : option Z;
  schedulers : gmap Z (scheduler W)
}.
Arguments Build_thread {W}.
Arguments t_coroEventLoopInThisThread {W}.
Arguments coroScheduler_ {W}.
Arguments schedulers {W}.

Section CoroEventLoop.
Context {W : Type} `{Build}.

(** [CoroEventLoop::current] *)
Definition current (t : thread W) : option Z := t_coroEventLoopInThisThread t.

(** The constructor of the object at [this]: its scheduler is new. *)
Definition new_loop (this : Z) (r : W) : ST (thread W) Z :=
  t ← get;
  let sch := fresh (dom (schedulers t)) in
  _ ← cassert (bool_decide (current t = None));
  _ ← put {| t_coroEventLoopInThisThread := Some this; coroScheduler_ := Some sch;
             schedulers := <[sch := {| pendingCoroutines_ := []; rest := r |}]> (schedulers t) |};
  mret sch.

(** The destructor; the scheduler at [sch] is a member. *)
Definition destroy_loop (sch : Z) : ST (thread W) unit :=
  modify (fun t => {| t_coroEventLoopInThisThread := None; coroScheduler_ := coroScheduler_ t;
                      schedulers := delete sch (schedulers t) |}).

(** A member function of the scheduler at [sch]. *)
Definition on_scheduler {A} (sch : Z) (m : ST (scheduler W) A) : ST (thread W) A :=
  t ← get;
  s ← deref (schedulers t !! sch);
  match m s with
  | Done (a, s') =>
      _ ← put {| t_coroEventLoopInThisThread := current t; coroScheduler_ := coroScheduler_ t;
                 schedulers := <[sch := s']> (schedulers t) |};
      mret a
  | Fail f => fail f
  end.

Definition loop_scheduleResume (sch : Z) (h : handle) : ST (thread W) unit := on_scheduler sch (scheduleResume h).
Definition postTask (sch : Z) (h : handle) : ST (thread W) unit := loop_scheduleResume sch h.

(** What [EventLoop::loop] does between the handlers and the functors. *)
Definition resume_pending (done : Z -> W -> option bool) (resume : Z -> W -> list handle * W) (n : nat)
    : ST (thread W) (option (list handle)) :=
  t ← get;
  match coroScheduler_ t with
  | None => mret (Some [])
  | Some sch => on_scheduler sch (processPendingResumes done resume n)
  end.

Lemma on_scheduler_done {A} sch (m : ST (scheduler W) A) t s a s' :
  schedulers t !! sch = Some s -> m s = Done (a, s') ->
  on_scheduler sch m t = Done (a, {| t_coroEventLoopInThisThread := current t; coroScheduler_ := coroScheduler_ t;
                                     schedulers := <[sch := s']> (schedulers t) |}).
Proof. intros E Em. unfold on_scheduler. st_get. rewrite E. cbn [deref]. rewrite bind_ret_l. now rewrite Em. Qed.

(** One coroutine that schedules nothing. *)
Lemma process_one done resume n p (r : W) : done p r = Some false -> (resume p r).1 = [] -> (0 < n)%nat ->
  processPendingResumes done resume n {| pendingCoroutines_ := [Some p]; rest := r |} =
  Done (Some [Some p], {| pendingCoroutines_ := []; rest := (resume p r).2 |}).
Proof.
  intros Hd Hr Hn. destruct n as [|n]; [lia|]. destruct (resume p r) as [m r1] eqn:Er. cbn in Hr. subst m.
  assert (Et : turns done resume [Some p] r = Some ([], r1)) by (cbn [turns]; now rewrite Hd, Er).
  cbn [processPendingResumes]. rewrite bind_get. cbn [pendingCoroutines_ rest].
  erewrite bind_done by reflexivity. st_step (resume_one_turn done resume _ [] r _ _ Et). now destruct n.
Qed.

(** a posted coroutine is resumed by the next iteration of the loop.  There
    is one [CoroEventLoop] per thread: a second one fails the assertion in a
    debug build.  After its destruction the [EventLoop] keeps the pointer to the
    scheduler, so that running it again is undefined behaviour. *)
Theorem coro_loop_life this other p r done resume n t :
  current t = None -> done p r = Some false -> (resume p r).1 = [] -> (0 < n)%nat ->
  exists sch t1, new_loop this r t = Done (sch, t1) /\ current t1 = Some this /\
    (forall r', new_loop other r' t1 = if asserts_enabled then Fail AssertFailed else new_loop other r' t1) /\
    (exists t2, (_ ← postTask sch (Some p); resume_pending done resume n) t1 = Done (Some [Some p], t2) /\
       schedulers t2 !! sch = Some {| pendingCoroutines_ := []; rest := (resume p r).2 |}) /\
    (_ ← destroy_loop sch; resume_pending done resume n) t1 = Fail UndefinedBehaviour.
Proof.
  intros Hc Hd Hr Hn. unfold new_loop.
  set (sch := fresh (dom (schedulers t))).
  set (s0 := {| pendingCoroutines_ := []; rest := r |}).
  set (t1 := {| t_coroEventLoopInThisThread := Some this; coroScheduler_ := Some sch;
                schedulers := <[sch := s0]> (schedulers t) |}).
  exists sch, t1. split_and!; [|done| | |].
  - st_get. st_step (cassert_true (bool_decide (current t = None)) t ltac:(now apply bool_decide_true)). reflexivity.
  - intros r'. destruct asserts_enabled eqn:A; [|done]. st_get.
    apply bind_fail, cassert_false; [exact A|now apply bool_decide_false].
  - unfold postTask, loop_scheduleResume.
    st_step (on_scheduler_done sch (scheduleResume (Some p)) t1 _ _ _ (lookup_insert_eq _ _ _) eq_refl).
    unfold resume_pending. st_get. cbn [coroScheduler_ t1].
    rewrite (on_scheduler_done sch _ _ _ _ _ (lookup_insert_eq _ _ _) (process_one done resume n p r Hd Hr Hn)).
    eexists. split; [reflexivity|apply lookup_insert_eq].
  - unfold destroy_loop. st_modify. unfold resume_pending. st_get. cbn [coroScheduler_ t1].
    unfold on_scheduler. st_get. cbn [schedulers]. now rewrite lookup_delete_eq.
Qed.
End CoroEventLoop.

(** ** Examples *)
Module Demo.
#[local] Existing Instance debug_build.

(** Coroutine 1 schedules 2 and 3, 2 schedules 4, 4 is done; the world counts the
    resumptions. *)
Definition resume (p : Z) (r : nat) : list handle * nat :=
  (if (0 <? r)%nat then if p =? 1 then [Some 2; None; Some 3] else if p =? 2 then [Some 4] else [] else [], pred r).
Definition done (p : Z) (r : nat) : option bool := Some (p =? 4).

Lemma resumes_fifo_witness :
  turns done resume [Some 1; Some 2; None; Some 3; Some 4] 9%nat = Some ([Some 2; None; Some 3; Some 4], 6%nat).
Proof.
  assert (E : processPendingResumes done resume 9 {| pendingCoroutines_ := [Some 1]; rest := 9%nat |} =
    Done (Some [Some 1; Some 2; None; Some 3; Some 4], {| pendingCoroutines_ := []; rest := 6%nat |})) by reflexivity.
  destruct (resumes_fifo done resume _ _ _ _ _ E) as (q' & Ht & Hq & _). injection Hq as <-. exact Ht.
Defined.

Lemma resumes_end_witness : exists l s,
  processPendingResumes done resume (1 + 30) {| pendingCoroutines_ := [Some 1]; rest := 10%nat |} = Done (Some l, s).
Proof.
  apply (resumes_end done resume (fun r => 3 * r)%nat [Some 1] 10%nat); [done|].
  intros p r _. unfold resume. destruct r as [|r]; cbn; [lia|]. destruct (p =? 1), (p =? 2); cbn; lia.
Defined.

Lemma resumes_livelock_witness n : exists s,
  processPendingResumes (fun _ (_ : unit) => Some false) (fun p r => ([Some p], r)) n
    {| pendingCoroutines_ := [Some 7]; rest := tt |} = Done (None, s).
Proof. now apply resumes_livelock. Qed.

Definition bare : thread nat := {| t_coroEventLoopInThisThread := None; coroScheduler_ := None; schedulers := ∅ |}.

Lemma coro_loop_life_witness : exists sch t1, new_loop 50 5%nat bare = Done (sch, t1) /\
  new_loop 51 5%nat t1 = Fail AssertFailed.
Proof.
  destruct (coro_loop_life 50 51 3 5%nat done resume 1 bare eq_refl eq_refl eq_refl ltac:(lia))
    as (sch & t1 & E & _ & H2 & _).
  exists sch, t1. split; [exact E|exact (H2 5%nat)].
Defined.
End Demo.
