(* ===== verification/CoroChannel.v ===== *)
(** CoroChannel: [coro/CoroChannel.h], [coro/CoroChannel.cpp], the channel on
    which coroutines wait, over the Channel / EPollPoller of Poller.v and the
    queue of CoroScheduler.v.

    One CoroChannel and the raw loop it lives in; [ext] is the rest of the
    program, on which the callbacks given to the CoroChannel work. *)

From Stdlib Require Import ZArith Lia.
From S2P Require Import Prelude Poller ChannelApi.
Local Open Scope Z_scope.

(** The lambdas that a CoroChannel stores in its [neo::Channel]; they capture [this]. *)
Inductive lambda := call_handleRead | call_handleWrite | call_handleClose.

Record CoroChannel (UCB : Type) := {
  cfd_ : Z;
  on_read : option UCB;           (* readCallback_ *)
  on_write : option UCB;          (* writeCallback_ *)
  on_close : option UCB;          (* closeCallback_ *)
  reading_ : bool;
  writing_ : bool;
  attached_ : bool;
  readWaiter_ : option Z;
  writeWaiter_ : option Z;
  channel_ : option ptr
}.
Arguments Build_CoroChannel {UCB}.
Arguments cfd_ {UCB}. Arguments on_read {UCB}. Arguments on_write {UCB}. Arguments on_close {UCB}.
Arguments reading_ {UCB}. Arguments writing_ {UCB}. Arguments attached_ {UCB}.
Arguments readWaiter_ {UCB}. Arguments writeWaiter_ {UCB}. Arguments channel_ {UCB}.

(** The raw loop, the coroutines to be resumed, the CoroChannel and the rest. *)
Record world (K X UCB : Type) := {
  raw : loop_state K lambda;
  pending : list Z;
  cc : CoroChannel UCB;
  ext : X
}.
Arguments Build_world {K X UCB}.
Arguments raw {K X UCB}. Arguments pending {K X UCB}. Arguments cc {K X UCB}. Arguments ext {K X UCB}.

Section CoroChannel.
Context {K X UCB : Type} `{EpollKernel K} `{Build}.
(* the thread that executes the call *)
Context (tid : Z).
Abbreviation W := (world K X UCB).
Implicit Types (w : W) (c : CoroChannel UCB).

Definition set_raw (l : loop_state K lambda) w : W :=
  {| raw := l; pending := pending w; cc := cc w; ext := ext w |}.
Definition set_cc (c : CoroChannel UCB) w : W :=
  {| raw := raw w; pending := pending w; cc := c; ext := ext w |}.

(** An operation of the raw loop. *)
Definition lift {A} (m : ST (loop_state K lambda) A) : ST W A := fun w =>
  match m (raw w) with Done (a, l) => Done (a, set_raw l w) | Fail f => Fail f end.

(** [loop_->scheduleResume(h)] *)
Definition scheduleResume (h : Z) : ST W unit :=
  modify (fun w => {| raw := raw w; pending := pending w ++ [h]; cc := cc w; ext := ext w |}).

(** Assignments to members. *)
Definition set_reading (b : bool) c : CoroChannel UCB :=
  {| cfd_ := cfd_ c; on_read := on_read c; on_write := on_write c; on_close := on_close c; reading_ := b;
     writing_ := writing_ c; attached_ := attached_ c; readWaiter_ := readWaiter_ c;
     writeWaiter_ := writeWaiter_ c; channel_ := channel_ c |}.
Definition set_writing (b : bool) c : CoroChannel UCB :=
  {| cfd_ := cfd_ c; on_read := on_read c; on_write := on_write c; on_close := on_close c; reading_ := reading_ c;
     writing_ := b; attached_ := attached_ c; readWaiter_ := readWaiter_ c;
     writeWaiter_ := writeWaiter_ c; channel_ := channel_ c |}.
Definition set_channel (p : option ptr) c : CoroChannel UCB :=
  {| cfd_ := cfd_ c; on_read := on_read c; on_write := on_write c; on_close := on_close c; reading_ := reading_ c;
     writing_ := writing_ c; attached_ := if p is Some _ then true else false; readWaiter_ := readWaiter_ c;
     writeWaiter_ := writeWaiter_ c; channel_ := p |}.
Definition set_readWaiter (h : option Z) c : CoroChannel UCB :=
  {| cfd_ := cfd_ c; on_read := on_read c; on_write := on_write c; on_close := on_close c; reading_ := reading_ c;
     writing_ := writing_ c; attached_ := attached_ c; readWaiter_ := h;
     writeWaiter_ := writeWaiter_ c; channel_ := channel_ c |}.
Definition set_writeWaiter (h : option Z) c : CoroChannel UCB :=
  {| cfd_ := cfd_ c; on_read := on_read c; on_write := on_write c; on_close := on_close c; reading_ := reading_ c;
     writing_ := writing_ c; attached_ := attached_ c; readWaiter_ := readWaiter_ c;
     writeWaiter_ := h; channel_ := channel_ c |}.
(** [setReadCallback], [setWriteCallback], [setCloseCallback] *)
Definition set_callbacks (r w cl : option UCB) c : CoroChannel UCB :=
  {| cfd_ := cfd_ c; on_read := r; on_write := w; on_close := cl; reading_ := reading_ c;
     writing_ := writing_ c; attached_ := attached_ c; readWaiter_ := readWaiter_ c;
     writeWaiter_ := writeWaiter_ c; channel_ := channel_ c |}.

Definition upd_cc (f : CoroChannel UCB -> CoroChannel UCB) : ST W unit := modify (fun w => set_cc (f (cc w)) w).

(** [CoroChannel(loop, fd)] *)
Definition newCoroChannel (fd : Z) : CoroChannel UCB :=
  {| cfd_ := fd; on_read := None; on_write := None; on_close := None; reading_ := false; writing_ := false;
     attached_ := false; readWaiter_ := None; writeWaiter_ := None; channel_ := None |}.

(** The block of [enableReading] and [enableWriting] that makes the channel. *)
Definition attach : ST W unit :=
  w ← get;
  if attached_ (cc w) then mret tt
  else
    let p := fresh (dom (heap (raw w))) in
    let ch := Poller.set_callbacks (Some call_handleRead) (Some call_handleWrite) (Some call_handleClose) None
                (newChannel (self (raw w)) (cfd_ (cc w))) in
    _ ← lift (modify (fun l => set_heap (<[p := ch]> (heap l)) l));
    upd_cc (set_channel (Some p)).

(** [channel_->op()] *)
Definition on_channel (o : event_op) : ST W unit :=
  w ← get; p ← deref (channel_ (cc w)); lift (run_op tid o p).

(** [if (channel_) channel_->op()] *)
Definition if_channel (m : ptr -> ST W unit) : ST W unit :=
  w ← get; match channel_ (cc w) with None => mret tt | Some p => m p end.

Definition enableReading : ST W unit :=
  _ ← attach; _ ← upd_cc (set_reading true); on_channel OEnableReading.
Definition disableReading : ST W unit :=
  _ ← upd_cc (set_reading false); if_channel (fun p => lift (run_op tid ODisableReading p)).
Definition enableWriting : ST W unit :=
  _ ← attach; _ ← upd_cc (set_writing true); on_channel OEnableWriting.
Definition disableWriting : ST W unit :=
  _ ← upd_cc (set_writing false); if_channel (fun p => lift (run_op tid ODisableWriting p)).
Definition disableAll : ST W unit :=
  _ ← upd_cc (set_reading false); _ ← upd_cc (set_writing false);
  if_channel (fun p => lift (run_op tid ODisableAll p)).

(** [remove], which is also the destructor; [channel_.reset()] destroys the channel. *)
Definition remove : ST W unit :=
  _ ← disableAll;
  if_channel (fun p => _ ← lift (Poller.remove tid p); _ ← lift (destroyChannel p); upd_cc (set_channel None)).

Definition waitReadable (h : Z) : ST W unit := _ ← upd_cc (set_readWaiter (Some h)); enableReading.
Definition waitWritable (h : Z) : ST W unit := _ ← upd_cc (set_writeWaiter (Some h)); enableWriting.

(** ** Events *)

Context (run : UCB -> ST W unit).

Definition callback (f : option UCB) : ST W unit := match f with Some g => run g | None => mret tt end.

Definition handleRead : ST W unit :=
  w ← get;
  match readWaiter_ (cc w) with
  | Some h => _ ← upd_cc (set_readWaiter None); _ ← disableReading; scheduleResume h
  | None => callback (on_read (cc w))
  end.

Definition handleWrite : ST W unit :=
  w ← get;
  match writeWaiter_ (cc w) with
  | Some h => _ ← upd_cc (set_writeWaiter None); _ ← disableWriting; scheduleResume h
  | None => callback (on_write (cc w))
  end.

Definition handleClose : ST W unit :=
  w ← get;
  _ ← match readWaiter_ (cc w) with
      | Some h => _ ← upd_cc (set_readWaiter None); scheduleResume h
      | None => mret tt
      end;
  w ← get; callback (on_close (cc w)).

Definition run_lambda (f : option lambda) : ST W unit :=
  match f with
  | Some call_handleRead => handleRead
  | Some call_handleWrite => handleWrite
  | Some call_handleClose => handleClose
  | None => mret tt
  end.

(** [Channel::handleEvent] of the channel at [p], which is not tied. *)
Definition handleEvent (p : ptr) : ST W unit := dispatch_event (@lift) run_lambda p.
End CoroChannel.

(** ** The invariant *)

Section Inv.
Context {K X UCB : Type} `{HK : EpollKernel K} `{HL : !EpollLaws K} `{HB : Build}.
Context (tid : Z).
Abbreviation W := (world K X UCB).
Implicit Types (w : W) (c : CoroChannel UCB) (d : Channel lambda) (l : loop_state K lambda).

(** The channel object [d] at [p] that belongs to the CoroChannel [c]: its events
    are the two flags, and the kernel knows it whenever it wants an event. *)
Record attached_inv (p : ptr) d c l : Prop := {
  ai_inv : Inv l;
  ai_heap : heap l !! p = Some d;
  ai_thread : threadId_ l = tid;
  ai_owner : loop_ d = self l;
  ai_watch : watchable (epoll l) (fd_ d);
  ai_fd : fd_ d = cfd_ c;
  ai_small : small (events_ d);
  ai_read : isReading d = reading_ c;
  ai_write : isWriting d = writing_ c;
  ai_index : isNoneEvent d = true -> index_ d <> 2;
  ai_known : isNoneEvent d = false -> index_ d <> -1;
  ai_lambdas : readCallback_ d = Some call_handleRead /\ writeCallback_ d = Some call_handleWrite /\
    closeCallback_ d = Some call_handleClose /\ errorCallback_ d = None
}.

Record detached_inv c l : Prop := {
  de_inv : Inv l;
  de_thread : threadId_ l = tid;
  de_watch : watchable (epoll l) (cfd_ c);
  de_fresh : forall q d, heap l !! q = Some d -> fd_ d <> cfd_ c;
  de_flags : reading_ c = false /\ writing_ c = false
}.

(** [CInv]: what holds of a CoroChannel between any two calls. *)
Definition CInv w : Prop :=
  match channel_ (cc w) with
  | None => attached_ (cc w) = false /\ detached_inv (cc w) (raw w)
  | Some p => attached_ (cc w) = true /\ exists d, attached_inv p d (cc w) (raw w)
  end.

(** The channel and the flags after an event switch. *)
Definition switched (o : event_op) d : Channel lambda :=
  let d1 := set_addedToLoop true (set_events (op_mask o (events_ d)) d) in setIndex (next_index d1) d1.
Definition flags_after (o : event_op) c : CoroChannel UCB :=
  set_reading (op_reading o (reading_ c)) (set_writing (op_writing o (writing_ c)) c).

Lemma attached_can_switch p d c l : attached_inv p d c l ->
  (asserts_enabled = true -> index_ d = -1 -> channels_ l !! fd_ d = None) -> can_switch tid p d l.
Proof. intros A Hf. constructor; try apply A; exact Hf. Qed.

(** The members of a CoroChannel that the invariant does not look at. *)
Lemma attached_inv_ext p d c c' l : attached_inv p d c l -> cfd_ c' = cfd_ c -> reading_ c' = reading_ c ->
  writing_ c' = writing_ c -> attached_inv p d c' l.
Proof. intros A Hf Hr Hw. constructor; rewrite ?Hf, ?Hr, ?Hw; apply A. Qed.

Lemma attached_switch o p d c l : attached_inv p d c l ->
  (asserts_enabled = true -> index_ d = -1 -> channels_ l !! fd_ d = None) ->
  exists k', run_op tid o p l = Done (tt, updated p (set_addedToLoop true (set_events (op_mask o (events_ d)) d)) k' l) /\
    attached_inv p (switched o d) (flags_after o c)
      (updated p (set_addedToLoop true (set_events (op_mask o (events_ d)) d)) k' l).
Proof.
  intros A Hf. rewrite (run_op_switch tid o p).
  destruct (switch_run tid (op_mask o) p l d (ai_inv _ _ _ _ A) (attached_can_switch _ _ _ _ A Hf)) as (k' & E & Hk & Hm).
  exists k'. split; [exact E|]. set (d1 := set_addedToLoop true (set_events (op_mask o (events_ d)) d)) in *.
  assert (Hpos : index_ d = -1 \/ 0 <= index_ d).
  { destruct (inv_index _ _ (ai_inv _ _ _ _ A) _ _ (ai_heap _ _ _ _ A)) as [?|([?|?] & _)]; lia. }
  constructor.
  - exact (Inv_switched p l d _ k' (ai_inv _ _ _ _ A) (ai_heap _ _ _ _ A) Hk).
  - apply lookup_insert_eq.
  - apply A.
  - apply A.
  - apply Hm, A.
  - apply A.
  - apply small_mask, A.
  - unfold isReading. cbn. rewrite op_mask_reading. fold (isReading d). now rewrite (ai_read _ _ _ _ A).
  - unfold isWriting. cbn. rewrite op_mask_writing. fold (isWriting d). now rewrite (ai_write _ _ _ _ A).
  - change (isNoneEvent (switched o d)) with (isNoneEvent d1). cbn. fold d1. unfold next_index. intros ->.
    case_match; lia.
  - change (isNoneEvent (switched o d)) with (isNoneEvent d1). cbn. fold d1. unfold next_index. intros ->.
    case_match; lia.
  - apply A.
Qed.

(** The kernel has been asked for exactly the events the flags say. *)
Lemma attached_interest p d c l : attached_inv p d c l -> reading_ c || writing_ c = true ->
  exists e, interest (epoll l) !! cfd_ c = Some (mkEvent e p) /\
    flag e kReadEvent = reading_ c /\ flag e kWriteEvent = writing_ c.
Proof.
  intros A Hrw. assert (Hn : isNoneEvent d = false).
  { destruct (isNoneEvent d) eqn:E; [|done]. unfold isNoneEvent in E. apply Z.eqb_eq in E.
    rewrite <-(ai_read _ _ _ _ A), <-(ai_write _ _ _ _ A) in Hrw. unfold isReading, isWriting in Hrw. now rewrite E in Hrw. }
  destruct (inv_index _ _ (ai_inv _ _ _ _ A) _ _ (ai_heap _ _ _ _ A)) as [Hi|(_ & _ & [e q] & He & Hq & Hev)].
  - destruct (ai_known _ _ _ _ A Hn Hi).
  - cbn in Hq, Hev. subst q. exists e. rewrite <-(ai_fd _ _ _ _ A). split; [exact He|].
    rewrite Hev by discriminate. rewrite <-(ai_read _ _ _ _ A), <-(ai_write _ _ _ _ A).
    unfold isReading, isWriting, kernel_events. rewrite !flag_read, !flag_write.
    destruct (et_ d); [|done]. rewrite !Z.lor_spec. cbn. now rewrite !orb_false_r.
Qed.

Lemma lift_done {A} (m : ST (loop_state K lambda) A) w a l : m (raw w) = Done (a, l) ->
  lift m w = Done (a, set_raw l w).
Proof. intros E. unfold lift. now rewrite E. Qed.

(** The new channel keeps the raw loop consistent. *)
Lemma attach_run w : CInv w -> exists l p d,
  attach w = Done (tt, set_cc (set_channel (Some p) (cc w)) (set_raw l w)) /\
  attached_inv p d (cc w) l /\ (channel_ (cc w) = Some p \/ channel_ (cc w) = None) /\
  (channel_ (cc w) = Some p -> l = raw w) /\
  (channel_ (cc w) = None -> index_ d = -1 /\ channels_ l = channels_ (raw w)) /\
  (channel_ (cc w) = None -> channels_ l !! fd_ d = None).
Proof.
  unfold CInv, attach. intros C. destruct (channel_ (cc w)) as [p|] eqn:Ech.
  - destruct C as (Ha & d & A). exists (raw w), p, d. st_get. rewrite Ha. split_and!; try done; [|now left].
    unfold set_channel. rewrite <-Ech, <-Ha at 1. destruct w as [? ? [] ?]. cbn in *. now subst.
  - destruct C as (Ha & D). st_get. rewrite Ha.
    pose proof (not_elem_of_dom_1 _ _ (is_fresh (dom (heap (raw w))))) as Hp.
    set (p := fresh (dom (heap (raw w)))) in *.
    set (d := Poller.set_callbacks (Some call_handleRead) (Some call_handleWrite) (Some call_handleClose) None
                (newChannel (self (raw w)) (cfd_ (cc w)))) in *.
    exists (set_heap (<[p := d]> (heap (raw w))) (raw w)), p, d.
    pose proof (new_channel_unknown _ _ (de_inv _ _ D) (de_fresh _ _ D)) as Hch.
    split_and!; [reflexivity| |now right|done|done|done].
    destruct (de_flags _ _ D) as [Hr Hw]. constructor; cbn; try done; try apply D.
    + apply Inv_new_channel; [apply D|exact Hp|done|exact (de_fresh _ _ D)].
    + apply lookup_insert_eq.
    + now left.
Qed.
End Inv.

(** ** What a CoroChannel does for its owner *)

(** The members a coroutine sees, and the handles scheduled. *)
Record view := {
  v_reading : bool;
  v_writing : bool;
  v_readWaiter : option Z;
  v_writeWaiter : option Z;
  v_pending : list Z
}.

Inductive call :=
  | EnableReading | DisableReading | EnableWriting | DisableWriting | DisableAll
  | WaitReadable (h : Z) | WaitWritable (h : Z) | Remove
  | Readable | Writable | HangUp.      (* handleRead, handleWrite, handleClose *)

#[export] Instance call_eq_dec : EqDecision call.
Proof. solve_decision. Defined.

Definition view_of {K X UCB} (w : world K X UCB) : view :=
  {| v_reading := reading_ (cc w); v_writing := writing_ (cc w); v_readWaiter := readWaiter_ (cc w);
     v_writeWaiter := writeWaiter_ (cc w); v_pending := pending w |}.

Definition run_call {K X UCB} `{EpollKernel K} `{Build} (tid : Z) (run : UCB -> ST (world K X UCB) unit)
    (o : call) : ST (world K X UCB) unit :=
  match o with
  | EnableReading => enableReading tid
  | DisableReading => disableReading tid
  | EnableWriting => enableWriting tid
  | DisableWriting => disableWriting tid
  | DisableAll => disableAll tid
  | WaitReadable h => waitReadable tid h
  | WaitWritable h => waitWritable tid h
  | Remove => remove tid
  | Readable => handleRead tid run
  | Writable => handleWrite tid run
  | HangUp => handleClose run
  end.

(** The specification; [cb] is what the callbacks of the owner do. *)
Section Spec.
Context {K X UCB : Type} (cb : UCB -> view -> view).

Definition v_set (r w : bool) (v : view) : view :=
  {| v_reading := r; v_writing := w; v_readWaiter := v_readWaiter v; v_writeWaiter := v_writeWaiter v; v_pending := v_pending v |}.
Definition v_wait (r w : option Z) (v : view) : view :=
  {| v_reading := v_reading v; v_writing := v_writing v; v_readWaiter := r; v_writeWaiter := w; v_pending := v_pending v |}.
Definition v_resume (h : Z) (v : view) : view :=
  {| v_reading := v_reading v; v_writing := v_writing v; v_readWaiter := v_readWaiter v;
     v_writeWaiter := v_writeWaiter v; v_pending := v_pending v ++ [h] |}.
Definition v_call (f : option UCB) (v : view) : view := if f is Some g then cb g v else v.

Definition spec (c : CoroChannel UCB) (o : call) (v : view) : view :=
  match o with
  | EnableReading => v_set true (v_writing v) v
  | DisableReading => v_set false (v_writing v) v
  | EnableWriting => v_set (v_reading v) true v
  | DisableWriting => v_set (v_reading v) false v
  | DisableAll => v_set false false v
  | WaitReadable h => v_set true (v_writing v) (v_wait (Some h) (v_writeWaiter v) v)
  | WaitWritable h => v_set (v_reading v) true (v_wait (v_readWaiter v) (Some h) v)
  | Remove => v_set false false v
  | Readable =>
      match v_readWaiter v with
      | Some h => v_resume h (v_set false (v_writing v) (v_wait None (v_writeWaiter v) v))
      | None => v_call (on_read c) v
      end
  | Writable =>
      match v_writeWaiter v with
      | Some h => v_resume h (v_set (v_reading v) false (v_wait (v_readWaiter v) None v))
      | None => v_call (on_write c) v
      end
  | HangUp =>
      v_call (on_close c)
        match v_readWaiter v with
        | Some h => v_resume h (v_wait None (v_writeWaiter v) v)
        | None => v
        end
  end.
End Spec.

(** The kernel watches for what the flags say. *)
Definition watched {K X UCB} `{EpollKernel K} (w : world K X UCB) : Prop :=
  reading_ (cc w) || writing_ (cc w) = true ->
  exists e p, channel_ (cc w) = Some p /\ interest (epoll (raw w)) !! cfd_ (cc w) = Some (mkEvent e p) /\
    flag e kReadEvent = reading_ (cc w) /\ flag e kWriteEvent = writing_ (cc w).

(** A channel whose events have all been switched off: the kernel does not watch it
    any more, but the poller still has it in its table. *)
Definition stale {K X UCB} `{EpollKernel K} (w : world K X UCB) : bool :=
  match channel_ (cc w) with
  | Some p => match heap (raw w) !! p with Some d => index_ d =? -1 | None => false end
  | None => false
  end.

Section Release.
Context {K X UCB : Type} `{HK : EpollKernel K} `{HL : !EpollLaws K}.
Context (tid : Z).
#[local] Existing Instance release_build.
Abbreviation W := (world K X UCB).
Implicit Types (w : W) (c : CoroChannel UCB) (d : Channel lambda) (l : loop_state K lambda).
Abbreviation CI := (CInv (K := K) (X := X) (UCB := UCB) tid).

Lemma CInv_watched w : CI w -> watched w.
Proof.
  unfold CInv, watched. destruct (channel_ (cc w)) as [p|].
  - intros (_ & d & A) Hrw. destruct (attached_interest tid p d _ _ A Hrw) as (e & He). exists e, p. now split.
  - intros (_ & D). destruct (de_flags _ _ _ D) as [-> ->]. discriminate.
Qed.

(** Members that the invariant does not look at may change. *)
Lemma CInv_cc w c : CI w -> cfd_ c = cfd_ (cc w) -> reading_ c = reading_ (cc w) -> writing_ c = writing_ (cc w) ->
  attached_ c = attached_ (cc w) -> channel_ c = channel_ (cc w) -> CI (set_cc c w).
Proof.
  unfold CInv. cbn [cc raw set_cc]. intros C Hf Hr Hw Ha Hp. rewrite Hp, Ha. destruct (channel_ (cc w)).
  - destruct C as (? & d & A). split; [done|]. exists d. now apply (attached_inv_ext tid _ _ (cc w)).
  - destruct C as (? & D). split; [done|]. constructor; rewrite ?Hf, ?Hr, ?Hw; apply D.
Qed.

Lemma CInv_schedule w h : CI w -> exists w', scheduleResume h w = Done (tt, w') /\ CI w' /\
  view_of w' = v_resume h (view_of w) /\ cc w' = cc w.
Proof. intros C. eexists. split; [reflexivity|]. now split_and!. Qed.

(** A switch on the channel of an attached CoroChannel, whose flag has been set. *)
Lemma switch_ok o w p d : attached_inv tid p d (cc w) (raw w) -> channel_ (cc w) = Some p -> attached_ (cc w) = true ->
  let c := flags_after o (cc w) in
  exists w', lift (run_op tid o p) (set_cc c w) = Done (tt, w') /\ CI w' /\ cc w' = c /\ pending w' = pending w /\ ext w' = ext w.
Proof.
  intros A Hp Ha c. destruct (attached_switch (HB := release_build) tid o p d (cc w) (raw w) A (fun e => False_ind _ (Bool.diff_false_true e))) as (k' & E & A').
  eexists. split; [apply lift_done; exact E|]. split; [|done]. unfold CInv. cbn. rewrite Hp. split; [done|].
  eexists. exact A'.
Qed.

(** [if_channel], after the flags were set. *)
Lemma if_channel_ok o w : CI w -> (channel_ (cc w) = None -> flags_after o (cc w) = cc w) ->
  let c := flags_after o (cc w) in
  exists w', if_channel (fun p => lift (run_op tid o p)) (set_cc c w) = Done (tt, w') /\ CI w' /\ cc w' = c /\
    pending w' = pending w /\ ext w' = ext w.
Proof.
  intros C Hn c. unfold if_channel. st_get. cbn [cc set_cc].
  change (channel_ c) with (channel_ (cc w)). unfold CInv in C. destruct (channel_ (cc w)) as [p|] eqn:Ep.
  - destruct C as (Ha & d & A). destruct (switch_ok o w p d A Ep Ha) as (w' & E & Hw'). exists w'. split; [exact E|exact Hw'].
  - exists w. subst c. rewrite (Hn eq_refl). split_and!; try done; [now destruct w|]. unfold CInv. now rewrite Ep.
Qed.

(** [enableReading] and [enableWriting]. *)
Lemma enable_ok o w (f : CoroChannel UCB -> CoroChannel UCB) : CI w ->
  (forall c, f c = flags_after o c) ->
  exists w' p, (_ ← attach; _ ← upd_cc f; on_channel tid o) w = Done (tt, w') /\ CI w' /\
    cc w' = set_channel (Some p) (flags_after o (cc w)) /\ pending w' = pending w /\ ext w' = ext w.
Proof.
  intros C Hf. destruct (attach_run tid w C) as (l & p & d & E & A & _).
  st_step E. unfold upd_cc. st_modify. unfold on_channel. st_get. cbn [cc set_cc]. rewrite Hf.
  set (w1 := set_cc (set_channel (Some p) (cc w)) (set_raw l w)).
  assert (A1 : attached_inv tid p d (cc w1) (raw w1)) by (now apply (attached_inv_ext tid _ _ (cc w))).
  destruct (switch_ok o w1 p d A1 eq_refl eq_refl) as (w' & E' & C' & Hc & Hp & Hx).
  exists w', p. split_and!; [exact E'|exact C'|exact Hc|exact Hp|exact Hx].
Qed.

Lemma disable_ok o w (f : CoroChannel UCB -> CoroChannel UCB) : CI w -> (forall c, f c = flags_after o c) ->
  o <> OEnableReading -> o <> OEnableWriting ->
  exists w', (_ ← upd_cc f; if_channel (fun p => lift (run_op tid o p))) w = Done (tt, w') /\ CI w' /\
    cc w' = flags_after o (cc w) /\ pending w' = pending w /\ ext w' = ext w.
Proof.
  intros C Hf Hr Hw. unfold upd_cc. st_modify. rewrite Hf. apply if_channel_ok; [exact C|].
  unfold CInv in C. intros Hn. rewrite Hn in C. destruct C as (_ & D). destruct (de_flags _ _ _ D) as [Er Ew].
  unfold flags_after, set_reading, set_writing. cbn. rewrite Er, Ew. destruct (cc w), o; cbn in *; congruence.
Qed.

Lemma enableReading_ok w : CI w -> exists w', enableReading tid w = Done (tt, w') /\ CI w' /\
  view_of w' = v_set true (v_writing (view_of w)) (view_of w).
Proof.
  intros C. destruct (enable_ok OEnableReading w (set_reading true) C ltac:(now intros [])) as (w' & p & E & C' & Hc & Hp & Hx).
  exists w'. split_and!; [exact E|exact C'|]. unfold view_of. now rewrite Hc, Hp.
Qed.

Lemma enableWriting_ok w : CI w -> exists w', enableWriting tid w = Done (tt, w') /\ CI w' /\
  view_of w' = v_set (v_reading (view_of w)) true (view_of w).
Proof.
  intros C. destruct (enable_ok OEnableWriting w (set_writing true) C ltac:(now intros [])) as (w' & p & E & C' & Hc & Hp & Hx).
  exists w'. split_and!; [exact E|exact C'|]. unfold view_of. now rewrite Hc, Hp.
Qed.

Lemma disableReading_ok w : CI w -> exists w', disableReading tid w = Done (tt, w') /\ CI w' /\
  view_of w' = v_set false (v_writing (view_of w)) (view_of w) /\ cc w' = flags_after ODisableReading (cc w) /\ ext w' = ext w.
Proof.
  intros C. destruct (disable_ok ODisableReading w (set_reading false) C ltac:(now intros []) ltac:(done) ltac:(done))
    as (w' & E & C' & Hc & Hp & Hx).
  exists w'. split_and!; [exact E|exact C'| |exact Hc|exact Hx]. unfold view_of. now rewrite Hc, Hp.
Qed.

Lemma disableWriting_ok w : CI w -> exists w', disableWriting tid w = Done (tt, w') /\ CI w' /\
  view_of w' = v_set (v_reading (view_of w)) false (view_of w) /\ cc w' = flags_after ODisableWriting (cc w) /\ ext w' = ext w.
Proof.
  intros C. destruct (disable_ok ODisableWriting w (set_writing false) C ltac:(now intros []) ltac:(done) ltac:(done))
    as (w' & E & C' & Hc & Hp & Hx).
  exists w'. split_and!; [exact E|exact C'| |exact Hc|exact Hx]. unfold view_of. now rewrite Hc, Hp.
Qed.

Lemma disableAll_ok w : CI w -> exists w', disableAll tid w = Done (tt, w') /\ CI w' /\
  view_of w' = v_set false false (view_of w) /\ cc w' = flags_after ODisableAll (cc w) /\ ext w' = ext w.
Proof.
  intros C. destruct (disable_ok ODisableAll w (fun c => set_writing false (set_reading false c)) C
    ltac:(now intros []) ltac:(done) ltac:(done)) as (w' & E & C' & Hc & Hp & Hx).
  exists w'. split_and!; [exact E|exact C'| |exact Hc|exact Hx]. unfold view_of. now rewrite Hc, Hp.
Qed.

(** What the owner promises of its callbacks. *)
Context (run : UCB -> ST W unit) (cb : UCB -> view -> view).
Definition callbacks_ok : Prop := forall f w, CI w ->
  exists w', run f w = Done (tt, w') /\ CI w' /\ view_of w' = cb f (view_of w).

Lemma callback_ok f w : callbacks_ok -> CI w ->
  exists w', callback run f w = Done (tt, w') /\ CI w' /\ view_of w' = v_call cb f (view_of w).
Proof. intros Hcb C. destruct f as [g|]; [exact (Hcb g w C)|]. exists w. now split_and!. Qed.

Lemma ch_handleRead_ok w : callbacks_ok -> CI w -> exists w', handleRead tid run w = Done (tt, w') /\ CI w' /\
  view_of w' = spec cb (cc w) Readable (view_of w).
Proof.
  intros Hcb C. unfold handleRead. st_get. cbn [spec]. cbn [view_of v_readWaiter].
  destruct (readWaiter_ (cc w)) as [h|]; [|exact (callback_ok _ w Hcb C)].
  unfold upd_cc. st_modify.
  destruct (disableReading_ok (set_cc (set_readWaiter None (cc w)) w) ltac:(now apply CInv_cc)) as (w1 & E1 & C1 & V1 & _ & _).
  st_step E1. destruct (CInv_schedule w1 h C1) as (w2 & E2 & C2 & V2 & _).
  exists w2. split_and!; [exact E2|exact C2|]. now rewrite V2, V1.
Qed.

Lemma ch_handleWrite_ok w : callbacks_ok -> CI w -> exists w', handleWrite tid run w = Done (tt, w') /\ CI w' /\
  view_of w' = spec cb (cc w) Writable (view_of w).
Proof.
  intros Hcb C. unfold handleWrite. st_get. cbn [spec]. cbn [view_of v_writeWaiter].
  destruct (writeWaiter_ (cc w)) as [h|]; [|exact (callback_ok _ w Hcb C)].
  unfold upd_cc. st_modify.
  destruct (disableWriting_ok (set_cc (set_writeWaiter None (cc w)) w) ltac:(now apply CInv_cc)) as (w1 & E1 & C1 & V1 & _ & _).
  st_step E1. destruct (CInv_schedule w1 h C1) as (w2 & E2 & C2 & V2 & _).
  exists w2. split_and!; [exact E2|exact C2|]. now rewrite V2, V1.
Qed.

Lemma ch_handleClose_ok w : callbacks_ok -> CI w -> exists w', handleClose run w = Done (tt, w') /\ CI w' /\
  view_of w' = spec cb (cc w) HangUp (view_of w).
Proof.
  intros Hcb C. unfold handleClose. st_get. cbn [spec]. cbn [view_of v_readWaiter].
  destruct (readWaiter_ (cc w)) as [h|].
  - set (w0 := set_cc (set_readWaiter None (cc w)) w). assert (C0 : CI w0) by now apply CInv_cc.
    destruct (CInv_schedule w0 h C0) as (w1 & E1 & C1 & V1 & Hcc).
    rewrite bind_assoc. unfold upd_cc. st_modify. st_step E1. st_get. rewrite Hcc.
    destruct (callback_ok (on_close (cc w)) w1 Hcb C1) as (w2 & E2 & C2 & V2).
    exists w2. split_and!; [exact E2|exact C2|]. now rewrite V2, V1.
  - rewrite bind_ret_l. st_get. exact (callback_ok _ w Hcb C).
Qed.

End Release.

(** ** Where the channel underneath breaks *)

Section Broken.
Context {K X UCB : Type} `{HK : EpollKernel K} `{HL : !EpollLaws K} `{HB : Build}.
Context (tid : Z) (run : UCB -> ST (world K X UCB) unit).
Abbreviation W := (world K X UCB).
Implicit Types (w : W) (d : Channel lambda) (l : loop_state K lambda).

(** A channel that was switched off and is switched on again, in a debug build. *)
Lemma switch_stale o p d l q : asserts_enabled = true -> heap l !! p = Some d -> threadId_ l = tid ->
  loop_ d = self l -> index_ d = -1 -> channels_ l !! fd_ d = Some q ->
  run_op tid o p l = Fail AssertFailed.
Proof.
  intros A E Ht Ho Hi Hq. rewrite (run_op_switch tid o p). unfold switch.
  st_step (upd_ok p (fun c => set_events (op_mask o (events_ c)) c) l d E). unfold channel_update.
  set (l0 := set_heap _ l). set (d0 := set_events (op_mask o (events_ d)) d).
  assert (E0 : heap l0 !! p = Some d0) by apply lookup_insert_eq. st_step (upd_ok p (set_addedToLoop true) l0 d0 E0).
  set (l1 := set_heap _ l0). set (d1 := set_addedToLoop true d0).
  assert (E1 : heap l1 !! p = Some d1) by apply lookup_insert_eq.
  unfold updateChannel. st_step (chan_ok p l1 d1 E1). st_get.
  st_step (cassert_true (loop_ d1 =? self l1) l1 ltac:(cbn; lia)).
  st_step (assertInLoopThread_ok tid l1 Ht). unfold poller_updateChannel.
  st_step (assertInLoopThread_ok tid l1 Ht). st_step (chan_ok p l1 d1 E1). st_get.
  change (index_ d1) with (index_ d). rewrite Hi. cbn [Z.ltb Z.compare].
  apply bind_fail, cassert_false; [exact A|]. apply bool_decide_false. cbn. now rewrite Hq.
Qed.

Lemma if_channel_some w p (m : ptr -> ST W unit) : channel_ (cc w) = Some p -> if_channel m w = m p w.
Proof. intros E. unfold if_channel. st_get. now rewrite E. Qed.

Definition all_off (c : CoroChannel UCB) : CoroChannel UCB := set_writing false (set_reading false c).

(** [remove] of an attached CoroChannel, seen from the raw loop. *)
Lemma remove_lift w p l1 : channel_ (cc w) = Some p -> Poller.disableAll tid p (raw w) = Done (tt, l1) ->
  remove tid w = (_ ← lift (Poller.remove tid p); _ ← lift (destroyChannel p); upd_cc (set_channel None))
    (set_raw l1 (set_cc (all_off (cc w)) w)).
Proof.
  intros Hp E. unfold remove, disableAll, upd_cc. rewrite bind_assoc. st_modify. rewrite bind_assoc. st_modify.
  erewrite bind_done; [|rewrite (if_channel_some _ p) by exact Hp; cbn [run_op]; apply lift_done; exact E].
  now rewrite (if_channel_some _ p) by exact Hp.
Qed.

(** In a release build, the removal of a channel the kernel does not watch: its
    [disableAll] registers it and [remove] leaves it registered. *)
Lemma stale_remove_dangles p d l : asserts_enabled = false -> Inv l -> can_switch tid p d l -> index_ d = -1 ->
  exists l1 l2 l3, Poller.disableAll tid p l = Done (tt, l1) /\ Poller.remove tid p l1 = Done (tt, l2) /\
    destroyChannel p l2 = Done (tt, l3) /\ heap l3 !! p = None /\ dangling (fd_ d) p l3.
Proof.
  intros R I C Hi. destruct (disableAll_run tid p l d I C) as (k & E & Hk & _).
  set (d1 := set_addedToLoop true (set_events kNoneEvent d)) in *.
  set (l1 := updated p d1 k l) in *. set (d2 := setIndex (next_index d1) d1).
  assert (E1 : heap l1 !! p = Some d2) by apply lookup_insert_eq.
  assert (Hn : next_index d1 = 1) by (unfold next_index; change (index_ d1) with (index_ d); now rewrite Hi).
  pose proof (remove_release tid p l1 d2 R E1 (cs_thread _ _ _ _ C) ltac:(cbn; lia)) as E2.
  set (l2 := set_heap _ (set_channels _ l1)) in E2. set (d3 := setIndex (-1) (set_addedToLoop false d2)).
  assert (E3 : heap l2 !! p = Some d3) by apply lookup_insert_eq.
  exists l1, l2. eexists. split_and!; [exact E|exact E2| | |].
  - unfold destroyChannel. st_step (chan_ok p l2 d3 E3).
    do 2 rewrite (bind_done _ _ _ _ _ (cassert_release _ _ R)). reflexivity.
  - apply lookup_delete_eq.
  - split; [|apply lookup_delete_eq]. exists (kernel_events d1). cbn. rewrite Hk. unfold next_interest.
    change (index_ d1) with (index_ d). rewrite Hi. apply lookup_insert_eq.
Qed.

(** In a release build, the removal of a channel the kernel watches is clean. *)
Lemma clean_remove p d c l : asserts_enabled = false -> attached_inv tid p d c l -> index_ d <> -1 ->
  exists l1 l2 l3, Poller.disableAll tid p l = Done (tt, l1) /\ Poller.remove tid p l1 = Done (tt, l2) /\
    destroyChannel p l2 = Done (tt, l3) /\ detached_inv tid (set_channel None (all_off c)) l3.
Proof.
  intros R A Hi. pose proof (ai_inv _ _ _ _ _ A) as I. pose proof (ai_heap _ _ _ _ _ A) as Eh.
  pose proof (attached_can_switch (HB := HB) tid _ _ _ _ A ltac:(intros; congruence)) as C.
  destruct (disableAll_run tid p l d I C) as (k & E & Hk & Hm). set (d1 := set_addedToLoop true (set_events kNoneEvent d)) in *.
  pose proof (Inv_switched p l d kNoneEvent k I Eh Hk) as I1. fold d1 in I1.
  set (l1 := updated p d1 k l) in *. set (d2 := setIndex (next_index d1) d1).
  assert (Hn : next_index d1 = -1).
  { unfold next_index. change (index_ d1) with (index_ d). destruct (inv_index _ _ I _ _ Eh) as [?|([Hx|Hx] & _)]; [congruence| |]; now rewrite Hx. }
  assert (E1 : heap l1 !! p = Some d2) by apply lookup_insert_eq.
  pose proof (remove_release tid p l1 d2 R E1 (ai_thread _ _ _ _ _ A) ltac:(cbn; lia)) as E2.
  set (d3 := setIndex (-1) (set_addedToLoop false d2)) in E2. set (l2 := set_heap _ (set_channels _ l1)) in E2.
  pose proof (Inv_forget p d2 d3 l1 I1 E1 Hn eq_refl eq_refl) as I2. fold l2 in I2.
  assert (E3 : heap l2 !! p = Some d3) by apply lookup_insert_eq.
  eexists l1, l2, _. split_and!; [exact E|exact E2|exact (destroy_release p d3 l2 R E3)|]. constructor.
  - apply (Inv_delete p d3 l2 I2 E3); [done|apply lookup_delete_eq].
  - apply A.
  - cbn. apply Hm. rewrite <-(ai_fd _ _ _ _ _ A). apply A.
  - cbn [heap set_heap]. intros q e [Hne Hq]%lookup_delete_Some Hf. apply Hne. symmetry. apply (inv_fd _ _ I2 q p e d3 Hq E3).
    rewrite Hf. exact (eq_sym (ai_fd _ _ _ _ _ A)).
  - done.
Qed.

(** [CoroChannel::remove], which the destructor calls, does [disableAll] and
    then removes and destroys the channel.  For a channel the kernel watches it
    fails an assertion in a debug build and takes the registration away in a
    release build; for a channel whose events have all been switched off, as after
    the only waiter was resumed, it leaves in a release build a registration of the
    descriptor with the address of the destroyed channel. *)
Theorem coro_remove_cases w p d :
  channel_ (cc w) = Some p -> attached_inv tid p d (cc w) (raw w) ->
  (index_ d <> -1 -> asserts_enabled = true -> remove tid w = Fail AssertFailed) /\
  (index_ d <> -1 -> asserts_enabled = false -> exists w', remove tid w = Done (tt, w') /\
     channel_ (cc w') = None /\ heap (raw w') !! p = None /\
     interest (epoll (raw w')) = delete (cfd_ (cc w)) (interest (epoll (raw w)))) /\
  (index_ d = -1 -> asserts_enabled = false -> exists w', remove tid w = Done (tt, w') /\
     channel_ (cc w') = None /\ heap (raw w') !! p = None /\ dangling (cfd_ (cc w)) p (raw w')).
Proof.
  intros Hp A.
  pose proof (ai_inv _ _ _ _ _ A) as I. rewrite <-(ai_fd _ _ _ _ _ A). split_and!.
  - intros Hi Hb. pose proof (attached_can_switch (HB := HB) tid _ _ _ _ A ltac:(intros; congruence)) as C.
    destruct (disableAll_run tid p _ d I C) as (k & E & _).
    rewrite (remove_lift w p _ Hp E). apply bind_fail.
    pose proof (disableAll_remove_fails tid p _ d Hb I C Hi) as F. rewrite (bind_done _ _ _ _ _ E) in F.
    unfold lift. cbn [raw set_raw]. now rewrite F.
  - intros Hi Hb. pose proof (attached_can_switch (HB := HB) tid _ _ _ _ A ltac:(intros; congruence)) as C.
    destruct (disableAll_run tid p _ d I C) as (k & E & _).
    destruct (disableAll_remove_release tid p _ d Hb I C Hi) as (l2 & F & _ & _ & Hint & d2 & Hh & _).
    rewrite (bind_done _ _ _ _ _ E) in F. rewrite (remove_lift w p _ Hp E).
    erewrite bind_done by (apply lift_done; exact F).
    assert (E2 : heap l2 !! p = Some d2) by (rewrite Hh; apply lookup_insert_eq).
    erewrite bind_done by (apply lift_done; exact (destroy_release p d2 l2 Hb E2)).
    eexists. split; [reflexivity|]. split_and!; [done|apply lookup_delete_eq|exact Hint].
  - intros Hi Hb. pose proof (attached_can_switch (HB := HB) tid _ _ _ _ A ltac:(intros; congruence)) as C.
    destruct (stale_remove_dangles p d _ Hb I C Hi) as (l1 & l2 & l3 & E1 & E2 & E3 & Hh & Hd).
    rewrite (remove_lift w p _ Hp E1).
    erewrite bind_done by (apply lift_done; exact E2). erewrite bind_done by (apply lift_done; exact E3).
    eexists. split; [reflexivity|]. now split_and!.
Qed.
End Broken.

(** ** The interface *)

Section Interface.
Context {K X UCB : Type} `{HK : EpollKernel K} `{HL : !EpollLaws K}.
Context (tid : Z).
#[local] Existing Instance release_build.
Abbreviation W := (world K X UCB).
Implicit Types (w : W).
Abbreviation CI := (CInv (K := K) (X := X) (UCB := UCB) tid).
Context (run : UCB -> ST W unit) (cb : UCB -> view -> view).

(** [remove] of a channel that is not stale, or of none. *)
Lemma remove_clean w : CI w -> stale w = false -> exists w', remove tid w = Done (tt, w') /\ CI w' /\
  view_of w' = v_set false false (view_of w) /\ channel_ (cc w') = None.
Proof.
  unfold stale. intros C Hs. destruct (channel_ (cc w)) as [p|] eqn:Ep.
  - unfold CInv in C. rewrite Ep in C. destruct C as (Ha & d & A). rewrite (ai_heap _ _ _ _ _ A) in Hs. apply Z.eqb_neq in Hs.
    destruct (clean_remove (HB := release_build) tid p d _ _ eq_refl A Hs) as (l1 & l2 & l3 & E1 & E2 & E3 & D).
    rewrite (remove_lift (HB := release_build) tid w p l1 Ep E1). erewrite bind_done by (apply lift_done; exact E2).
    erewrite bind_done by (apply lift_done; exact E3). eexists. split; [reflexivity|]. split_and!; [|done|done].
    split; [done|exact D].
  - destruct (disableAll_ok tid w C) as (w' & E & C' & V & Hc & _). exists w'. assert (Hn : channel_ (cc w') = None) by (rewrite Hc; exact Ep).
    split_and!; [|exact C'|exact V|exact Hn]. unfold remove. st_step E. unfold if_channel. st_get. now rewrite Hn.
Qed.

(** [remove] of a stale channel. *)
Lemma remove_stale w : CI w -> stale w = true -> exists w' p, remove tid w = Done (tt, w') /\
  view_of w' = v_set false false (view_of w) /\ channel_ (cc w) = Some p /\ channel_ (cc w') = None /\
  heap (raw w') !! p = None /\ dangling (cfd_ (cc w)) p (raw w').
Proof.
  unfold stale, CInv. intros C Hs. destruct (channel_ (cc w)) as [p|] eqn:Ep; [|done]. destruct C as (Ha & d & A).
  rewrite (ai_heap _ _ _ _ _ A) in Hs. apply Z.eqb_eq in Hs.
  pose proof (attached_can_switch (HB := release_build) tid _ _ _ _ A (fun e => False_ind _ (Bool.diff_false_true e))) as C.
  destruct (stale_remove_dangles (HB := release_build) tid p d _ eq_refl (ai_inv _ _ _ _ _ A) C Hs) as (l1 & l2 & l3 & E1 & E2 & E3 & Hh & Hd).
  rewrite (ai_fd _ _ _ _ _ A) in Hd. rewrite (remove_lift (HB := release_build) tid w p l1 Ep E1).
  erewrite bind_done by (apply lift_done; exact E2). erewrite bind_done by (apply lift_done; exact E3).
  eexists _, p. split; [reflexivity|]. by split_and!.
Qed.

(** C32: in a release build a CoroChannel does for its owner what its interface
    says, whatever calls and events come: every call succeeds, keeps the channel
    and the poller consistent, and changes flags, waiters and scheduled handles as
    specified - in particular a waiting coroutine is scheduled once, by the first
    event of its kind (reading also by a hang-up), and that event is switched off
    again - and the kernel watches for exactly the events of the two flags.  With
    one exception: [remove], which the destructor calls too, of a channel that the
    kernel has stopped to watch, because its events were all switched off (as they
    are when the only waiter has been scheduled), succeeds as well, but it leaves
    the kernel with the address of the destroyed channel.  (With assertions enabled
    [remove] aborts, see [coro_remove_cases].) *)
Theorem coro_channel_refines o w : callbacks_ok tid run cb -> CI w ->
  exists w', run_call tid run o w = Done (tt, w') /\ view_of w' = spec cb (cc w) o (view_of w) /\
    (o = Remove -> channel_ (cc w') = None) /\
    (o <> Remove \/ stale w = false -> CI w' /\ watched w') /\
    (o = Remove -> stale w = true -> exists p, channel_ (cc w) = Some p /\ heap (raw w') !! p = None /\
       dangling (cfd_ (cc w)) p (raw w')).
Proof.
  intros Hcb C. cut (o <> Remove -> exists w', run_call tid run o w = Done (tt, w') /\ CI w' /\ view_of w' = spec cb (cc w) o (view_of w)).
  { intros Hx. destruct (decide (o = Remove)) as [->|Hne].
    - cbn [run_call spec]. destruct (stale w) eqn:Es.
      + destruct (remove_stale w C Es) as (w' & p & E & V & Hp & Hn & Hh & Hd). exists w'. split_and!; [exact E|exact V|done|intros [?|?]; done|eauto].
      + destruct (remove_clean w C Es) as (w' & E & C' & V & Hn). exists w'. split_and!; [exact E|exact V|done| |done].
        intros _. split; [exact C'|now apply (CInv_watched tid)].
    - destruct (Hx Hne) as (w' & E & C' & V). exists w'. split_and!; [exact E|exact V|done| |done].
      intros _. split; [exact C'|now apply (CInv_watched tid)]. }
  intros Hne.
  assert (Cr : forall h, CI (set_cc (set_readWaiter h (cc w)) w)) by (intros h; now apply CInv_cc).
  assert (Cw : forall h, CI (set_cc (set_writeWaiter h (cc w)) w)) by (intros h; now apply CInv_cc).
  destruct o; cbn [run_call spec].
  - exact (enableReading_ok tid w C).
  - destruct (disableReading_ok tid w C) as (w' & ? & ? & ? & _ & _). eauto.
  - exact (enableWriting_ok tid w C).
  - destruct (disableWriting_ok tid w C) as (w' & ? & ? & ? & _ & _). eauto.
  - destruct (disableAll_ok tid w C) as (w' & ? & ? & ? & _ & _). eauto.
  - exact (enableReading_ok tid _ (Cr (Some h))).
  - exact (enableWriting_ok tid _ (Cw (Some h))).
  - done.
  - now apply ch_handleRead_ok.
  - now apply ch_handleWrite_ok.
  - now apply ch_handleClose_ok.
Qed.
End Interface.

(** ** Waiting twice *)

Section Twice.
Context {K X UCB : Type} `{HK : EpollKernel K} `{HL : !EpollLaws K} `{HB : Build}.
Context (tid : Z) (run : UCB -> ST (world K X UCB) unit).
Abbreviation W := (world K X UCB).
Implicit Types (w : W) (d : Channel lambda).

(** The first wait makes the channel and registers it. *)
Lemma first_wait h w : CInv tid w -> channel_ (cc w) = None ->
  exists w1 p d, waitReadable tid h w = Done (tt, w1) /\ channel_ (cc w1) = Some p /\
    attached_inv tid p d (cc w1) (raw w1) /\ index_ d = 1 /\ events_ d = kReadEvent /\
    readWaiter_ (cc w1) = Some h /\ attached_ (cc w1) = true /\ channels_ (raw w1) !! fd_ d = Some p /\
    cfd_ (cc w1) = cfd_ (cc w).
Proof.
  intros C Hn. unfold waitReadable, upd_cc. st_modify.
  set (w0 := set_cc (set_readWaiter (Some h) (cc w)) w). assert (C0 : CInv tid w0).
  { unfold CInv in *. cbn. rewrite Hn in *. destruct C as (Ha & D). split; [done|]. constructor; apply D. }
  destruct (attach_run tid w0 C0) as (l & p & d & E & A & _ & _ & Hi & Hc).
  specialize (Hi Hn) as [Hi _]. specialize (Hc Hn).
  unfold enableReading. st_step E. unfold upd_cc. st_modify. unfold on_channel. st_get.
  destruct (attached_switch (HB := HB) tid OEnableReading p d _ l A (fun _ _ => Hc)) as (k & E2 & A2).
  set (d1 := set_addedToLoop true (set_events (op_mask OEnableReading (events_ d)) d)) in *.
  assert (H0 : events_ d = 0).
  { unfold CInv in C0. cbn [channel_ cc w0 set_cc set_readWaiter] in C0. rewrite Hn in C0. destruct C0 as (_ & D).
    destruct (de_flags _ _ _ D) as [Hr Hw]. apply small_none; [apply A| |].
    - exact (eq_trans (ai_read _ _ _ _ _ A) Hr).
    - exact (eq_trans (ai_write _ _ _ _ _ A) Hw). }
  assert (Hx : index_ (switched OEnableReading d) = 1).
  { unfold switched. cbn [index_ setIndex]. unfold next_index. cbn [index_ set_addedToLoop set_events]. now rewrite Hi. }
  eexists _, p, (switched OEnableReading d). split_and!.
  - exact (lift_done _ (set_cc (set_reading true (set_channel (Some p) (cc w0))) (set_raw l w0)) _ _ E2).
  - reflexivity.
  - now apply (attached_inv_ext tid _ _ _ _ _ A2).
  - exact Hx.
  - unfold switched. cbn [events_ setIndex set_addedToLoop set_events op_mask]. now rewrite H0.
  - reflexivity.
  - reflexivity.
  - cbn [raw set_raw]. pose proof (inv_index _ _ (ai_inv _ _ _ _ _ A2) _ _ (ai_heap _ _ _ _ _ A2)) as [Hy|(_ & Hch & _)];
      [congruence|exact Hch].
  - reflexivity.
Qed.

(** The event resumes the waiter and switches the channel off. *)
Lemma event_after_wait h w p d : channel_ (cc w) = Some p -> attached_inv tid p d (cc w) (raw w) ->
  index_ d = 1 -> events_ d = kReadEvent -> readWaiter_ (cc w) = Some h -> channels_ (raw w) !! fd_ d = Some p ->
  exists w2 d2, handleRead tid run w = Done (tt, w2) /\ channel_ (cc w2) = Some p /\ attached_ (cc w2) = attached_ (cc w) /\
    attached_inv tid p d2 (cc w2) (raw w2) /\ index_ d2 = -1 /\ channels_ (raw w2) !! fd_ d2 = Some p /\
    cfd_ (cc w2) = cfd_ (cc w).
Proof.
  intros Hp A Hi He Hw Hc. unfold handleRead. st_get. rewrite Hw. unfold upd_cc. st_modify.
  unfold disableReading, upd_cc. rewrite bind_assoc. st_modify.
  destruct (attached_switch (HB := HB) tid ODisableReading p d _ _ A ltac:(intros; congruence)) as (k & E & A2).
  assert (Hx : index_ (switched ODisableReading d) = -1).
  { unfold switched. cbn [index_ setIndex]. unfold next_index, isNoneEvent. cbn [index_ set_addedToLoop set_events events_ op_mask].
    now rewrite Hi, He. }
  eexists _, (switched ODisableReading d). split.
  { erewrite bind_done; [|rewrite (if_channel_some _ p) by exact Hp; apply lift_done; exact E]. reflexivity. }
  split_and!; [exact Hp|reflexivity|now apply (attached_inv_ext tid _ _ _ _ _ A2)|exact Hx| |reflexivity].
  cbn [raw set_raw set_cc]. unfold updated. cbn [channels_ set_heap set_epoll set_channels]. cbn. now rewrite Hi.
Qed.

(** a coroutine that waits for reading a second time, on a channel that wants
    nothing else, fails an assertion in a debug build: switching the channel off
    resets its index but leaves it in the poller's table.  In a release build that
    works, but removing the channel after the first wait leaves the kernel with
    the address of the destroyed channel. *)
Theorem coro_wait_twice h h' w : CInv tid w -> channel_ (cc w) = None ->
  (asserts_enabled = true ->
     (_ ← waitReadable tid h; _ ← handleRead tid run; waitReadable tid h') w = Fail AssertFailed) /\
  (asserts_enabled = false -> exists w' p,
     (_ ← waitReadable tid h; _ ← handleRead tid run; remove tid) w = Done (tt, w') /\
     heap (raw w') !! p = None /\ dangling (cfd_ (cc w)) p (raw w')).
Proof.
  intros C Hn. destruct (first_wait h w C Hn) as (w1 & p & d & E1 & Hp & A & Hi & He & Hw & Hat & Hc & Hfd1).
  destruct (event_after_wait h w1 p d Hp A Hi He Hw Hc) as (w2 & d2 & E2 & Hp2 & Ha2 & A2 & Hi2 & Hc2 & Hfd).
  split; intros Hb.
  - st_step E1. st_step E2. unfold waitReadable, upd_cc. st_modify. unfold enableReading.
    assert (Eat : attach (set_cc (set_readWaiter (Some h') (cc w2)) w2) = Done (tt, set_cc (set_readWaiter (Some h') (cc w2)) w2)).
    { unfold attach. st_get. cbn. now rewrite Ha2, Hat. }
    st_step Eat. unfold upd_cc. st_modify. unfold on_channel. st_get.
    cbn [channel_ cc set_cc set_reading set_readWaiter]. rewrite Hp2. cbn. unfold lift. cbn [raw set_cc].
    pose proof (switch_stale tid OEnableReading p d2 _ p Hb (ai_heap _ _ _ _ _ A2) (ai_thread _ _ _ _ _ A2)
      (ai_owner _ _ _ _ _ A2) Hi2 Hc2) as F. cbn [run_op] in F. unfold mbind, ST_bind, mret, ST_ret. cbn [raw set_cc]. now rewrite F.
  - pose proof (attached_can_switch (HB := HB) tid _ _ _ _ A2 ltac:(intros; congruence)) as Cs.
    destruct (stale_remove_dangles tid p d2 _ Hb (ai_inv _ _ _ _ _ A2) Cs Hi2) as (l1 & l2 & l3 & F1 & F2 & F3 & Hh & Hd).
    st_step E1. st_step E2. rewrite (remove_lift tid w2 p _ Hp2 F1).
    erewrite bind_done by (apply lift_done; exact F2). erewrite bind_done by (apply lift_done; exact F3).
    eexists _, p. split; [reflexivity|]. split; [exact Hh|]. rewrite <-Hfd1, <-Hfd, <-(ai_fd _ _ _ _ _ A2). exact Hd.
Qed.
End Twice.

(** ** Examples *)
Module Demo.
Abbreviation kernel := (gmap Z epoll_event).

Definition bare_loop : loop_state kernel lambda := mkLoop 77 1 ∅ ∅ ∅ 16 false None [] ∅.
Definition fresh_world : world kernel unit unit :=
  {| raw := bare_loop; pending := []; cc := newCoroChannel 5; ext := tt |}.

Lemma fresh_CInv : CInv 1 fresh_world.
Proof. split; [done|]. now constructor. Qed.

Definition ignore (f : unit) : ST (world kernel unit unit) unit := mret tt.

Lemma coro_channel_refines_witness : exists w,
  @run_call _ _ _ _ release_build 1 ignore (WaitReadable 42) fresh_world = Done (tt, w) /\
  view_of w = {| v_reading := true; v_writing := false; v_readWaiter := Some 42; v_writeWaiter := None; v_pending := [] |} /\
  watched w.
Proof.
  destruct (coro_channel_refines (K := kernel) 1 ignore (fun _ v => v) (WaitReadable 42) fresh_world) as (w & E & V & _ & Hw & _).
  - intros f w C. exists w. split_and!; [reflexivity|exact C|reflexivity].
  - exact fresh_CInv.
  - exists w. split_and!; [exact E|exact V|]. apply Hw. now left.
Defined.

Lemma coro_wait_twice_witness :
  (_ ← @waitReadable _ _ _ _ debug_build 1 42; _ ← @handleRead _ _ _ _ debug_build 1 ignore;
   @waitReadable _ _ _ _ debug_build 1 43) fresh_world = Fail AssertFailed /\
  exists w' p, (_ ← @waitReadable _ _ _ _ release_build 1 42; _ ← @handleRead _ _ _ _ release_build 1 ignore;
    @remove _ _ _ _ release_build 1) fresh_world = Done (tt, w') /\ dangling 5 p (raw w').
Proof.
  split.
  - exact (proj1 (coro_wait_twice (HB := debug_build) 1 ignore 42 43 fresh_world fresh_CInv eq_refl) eq_refl).
  - destruct (proj2 (coro_wait_twice (HB := release_build) 1 ignore 42 43 fresh_world fresh_CInv eq_refl) eq_refl)
      as (w' & p & E & _ & D). exists w', p. split; [exact E|exact D].
Defined.

Lemma coro_remove_cases_witness : exists w1 p w',
  @waitReadable _ _ _ _ release_build 1 42 fresh_world = Done (tt, w1) /\
  @remove _ _ _ _ release_build 1 w1 = Done (tt, w') /\ heap (raw w') !! p = None.
Proof.
  destruct (first_wait (HB := release_build) 1 42 fresh_world fresh_CInv eq_refl)
    as (w1 & p & d & E & Hp & A & Hi & _).
  destruct (proj1 (proj2 (coro_remove_cases (HB := release_build) 1 w1 p d Hp A)) ltac:(rewrite Hi; discriminate) eq_refl)
    as (w' & E' & _ & Hh & _).
  exists w1, p, w'. split_and!; [exact E|exact E'|exact Hh].
Defined.
End Demo.
