(* ===== verification/CoroTcpConnection.v ===== *)
(** CoroTcpConnection: [coro/CoroTcpConnection.h], [coro/CoroTcpConnection.cpp],
    with the echo callbacks of [examples/coro_echo_server.cpp].

    One connection over its CoroChannel (CoroChannel.v); the answers of [read] and
    [write] are lists in the state.  The coroutine [connectionLoop] runs on the
    machine of Task.v. *)

From Stdlib Require Import ZArith Lia.
From Stdlib Require Import Init.Byte.
From S2P Require Import Prelude Buffer Poller ChannelApi Task CoroChannel.
Local Open Scope Z_scope.

Definition EAGAIN : Z := 11.
Definition EPIPE : Z := 32.

(** What [read] and [write] answer: bytes, none of them at the end of the stream,
    or [errno]; the number of bytes taken, or [errno]. *)
Inductive read_answer := Bytes (d : list byte) | ReadError (err : Z).
Inductive write_answer := Took (n : nat) | WriteError (err : Z).

(** The lambdas given to the CoroChannel by [start]. *)
Inductive member := call_onReadable | call_onWritable | call_close.

(** The connection.  [reads] and [writes] are the answers of the kernel to come
    (it blocks when they are used up), [wire] what it took, [sent] what was given
    to [send] while connected, [received] what was read; [closed] counts the calls
    of [closeCallback_]. *)
Record conn := {
  connected_ : bool;
  sending_ : bool;                 (* writing_ *)
  inputBuffer_ : Buffer;
  outputBuffer_ : Buffer;
  handler_ : bool;
  dataCallback_ : bool;
  closeCallback_ : bool;
  reads : list read_answer;
  writes : list write_answer;
  shut : bool;
  wire : list byte;
  sent : list byte;
  received : list byte;
  closed : nat
}.

Definition set_connected (b : bool) (x : conn) : conn :=
  {| connected_ := b; sending_ := sending_ x; inputBuffer_ := inputBuffer_ x; outputBuffer_ := outputBuffer_ x;
     handler_ := handler_ x; dataCallback_ := dataCallback_ x; closeCallback_ := closeCallback_ x; reads := reads x;
     writes := writes x; shut := shut x; wire := wire x; sent := sent x; received := received x; closed := closed x |}.
Definition set_sending (b : bool) (x : conn) : conn :=
  {| connected_ := connected_ x; sending_ := b; inputBuffer_ := inputBuffer_ x; outputBuffer_ := outputBuffer_ x;
     handler_ := handler_ x; dataCallback_ := dataCallback_ x; closeCallback_ := closeCallback_ x; reads := reads x;
     writes := writes x; shut := shut x; wire := wire x; sent := sent x; received := received x; closed := closed x |}.
Definition set_buffers (i o : Buffer) (x : conn) : conn :=
  {| connected_ := connected_ x; sending_ := sending_ x; inputBuffer_ := i; outputBuffer_ := o;
     handler_ := handler_ x; dataCallback_ := dataCallback_ x; closeCallback_ := closeCallback_ x; reads := reads x;
     writes := writes x; shut := shut x; wire := wire x; sent := sent x; received := received x; closed := closed x |}.
Definition set_reads (l : list read_answer) (d : list byte) (x : conn) : conn :=
  {| connected_ := connected_ x; sending_ := sending_ x; inputBuffer_ := inputBuffer_ x; outputBuffer_ := outputBuffer_ x;
     handler_ := handler_ x; dataCallback_ := dataCallback_ x; closeCallback_ := closeCallback_ x; reads := l;
     writes := writes x; shut := shut x; wire := wire x; sent := sent x; received := received x ++ d; closed := closed x |}.
Definition set_writes (l : list write_answer) (d : list byte) (x : conn) : conn :=
  {| connected_ := connected_ x; sending_ := sending_ x; inputBuffer_ := inputBuffer_ x; outputBuffer_ := outputBuffer_ x;
     handler_ := handler_ x; dataCallback_ := dataCallback_ x; closeCallback_ := closeCallback_ x; reads := reads x;
     writes := l; shut := shut x; wire := wire x ++ d; sent := sent x; received := received x; closed := closed x |}.
Definition set_shut (x : conn) : conn :=
  {| connected_ := connected_ x; sending_ := sending_ x; inputBuffer_ := inputBuffer_ x; outputBuffer_ := outputBuffer_ x;
     handler_ := handler_ x; dataCallback_ := dataCallback_ x; closeCallback_ := closeCallback_ x; reads := reads x;
     writes := writes x; shut := true; wire := wire x; sent := sent x; received := received x; closed := closed x |}.
Definition add_sent (d : list byte) (x : conn) : conn :=
  {| connected_ := connected_ x; sending_ := sending_ x; inputBuffer_ := inputBuffer_ x; outputBuffer_ := outputBuffer_ x;
     handler_ := handler_ x; dataCallback_ := dataCallback_ x; closeCallback_ := closeCallback_ x; reads := reads x;
     writes := writes x; shut := shut x; wire := wire x; sent := sent x ++ d; received := received x; closed := closed x |}.
Definition add_closed (x : conn) : conn :=
  {| connected_ := connected_ x; sending_ := sending_ x; inputBuffer_ := inputBuffer_ x; outputBuffer_ := outputBuffer_ x;
     handler_ := handler_ x; dataCallback_ := dataCallback_ x; closeCallback_ := closeCallback_ x; reads := reads x;
     writes := writes x; shut := shut x; wire := wire x; sent := sent x; received := received x; closed := S (closed x) |}.

Section CoroTcpConnection.
Context {K : Type} `{EpollKernel K} `{Build}.
Context (tid : Z).
Abbreviation W := (world K conn member).
Implicit Types (w : W) (x : conn).

Definition upd_conn (f : conn -> conn) : ST W unit :=
  modify (fun w => {| raw := raw w; pending := pending w; cc := cc w; ext := f (ext w) |}).
Definition conn_of : ST W conn := gets ext.

(** An operation on a buffer of the connection. *)
Definition on_input {A} (m : ST Buffer A) : ST W A := fun w =>
  match m (inputBuffer_ (ext w)) with
  | Done (a, b) => (_ ← upd_conn (fun x => set_buffers b (outputBuffer_ x) x); mret a) w
  | Fail f => Fail f
  end.
Definition on_output {A} (m : ST Buffer A) : ST W A := fun w =>
  match m (outputBuffer_ (ext w)) with
  | Done (a, b) => (_ ← upd_conn (fun x => set_buffers (inputBuffer_ x) b x); mret a) w
  | Fail f => Fail f
  end.

(** [::read(sockfd_, buf, sizeof(buf))], with a [buf] of 65536 bytes. *)
Definition sys_read : ST W read_answer :=
  x ← conn_of;
  match reads x with
  | [] => mret (ReadError EAGAIN)
  | r :: l =>
      let r := match r with Bytes d => Bytes (take (Z.to_nat extrabuf_size) d) | e => e end in
      _ ← upd_conn (set_reads l (match r with Bytes d => d | ReadError _ => [] end)); mret r
  end.

(** [::write(sockfd_, data, len)]: EPIPE once the write side is shut down. *)
Definition sys_write (data : list byte) : ST W write_answer :=
  x ← conn_of;
  if shut x then mret (WriteError EPIPE)
  else
    match writes x with
    | [] => mret (WriteError EAGAIN)
    | r :: l =>
        let r := match r with Took n => Took (min n (length data)) | e => e end in
        _ ← upd_conn (set_writes l (match r with Took n => take n data | WriteError _ => [] end)); mret r
    end.

(** [closeCallback_(shared_from_this())] *)
Definition call_closeCallback : ST W unit := x ← conn_of; when (closeCallback_ x) (upd_conn add_closed).

Definition handleClose : ST W unit :=
  x ← conn_of;
  when (connected_ x)
    (_ ← upd_conn (set_connected false);
     _ ← CoroChannel.disableAll tid;
     _ ← CoroChannel.remove tid;
     call_closeCallback).

Definition send (data : list byte) : ST W unit :=
  x ← conn_of;
  if negb (connected_ x) then mret tt
  else
    _ ← upd_conn (add_sent data);
    _ ← on_output (append data);
    x ← conn_of;
    when (negb (sending_ x)) (_ ← upd_conn (set_sending true); CoroChannel.enableWriting tid).

Definition shutdown : ST W unit := _ ← upd_conn (set_connected false); upd_conn set_shut.

(* what the data callback does with the connection *)
Context (on_data : ST W unit).

Definition onReadable : ST W unit :=
  r ← sys_read;
  match r with
  | Bytes (b :: d) =>
      _ ← on_input (append (b :: d));
      x ← conn_of;
      when (dataCallback_ x) on_data
  | Bytes [] => handleClose
  | ReadError _ => mret tt
  end.

Definition onWritable : ST W unit :=
  x ← conn_of;
  let stop := _ ← CoroChannel.disableWriting tid; upd_conn (set_sending false) in
  if readableBytes (outputBuffer_ x) =? 0 then stop
  else
    data ← on_output (b ← get; read_range (peek b) (readableBytes b));
    r ← sys_write data;
    match r with
    | Took (S n) =>
        _ ← on_output (retrieve (Z.of_nat (S n)));
        x ← conn_of;
        when (readableBytes (outputBuffer_ x) =? 0) stop
    | Took O => mret tt
    | WriteError e => when (negb (e =? EAGAIN)) handleClose
    end.

Definition run_member (f : member) : ST W unit :=
  match f with
  | call_onReadable => onReadable
  | call_onWritable => onWritable
  | call_close => handleClose
  end.

(** [start] up to the coroutine. *)
Definition start_channel : ST W unit :=
  _ ← upd_conn (set_connected true);
  _ ← upd_cc (CoroChannel.set_callbacks (Some call_onReadable) (Some call_onWritable) (Some call_close));
  CoroChannel.enableReading tid.

(** The destructor. *)
Definition destructor : ST W unit := CoroChannel.remove tid.

(** An event of the poller for the channel of the connection. *)
Definition event (p : ptr) : ST W unit := CoroChannel.handleEvent tid run_member p.

(** ** [connectionLoop] *)

Section Loop.
(* the coroutine that [handler_] makes *)
Context {P V E : Type} (handler : P -> W -> act P V E * W) (first : P).

(** Resume points of [connectionLoop], and of the handler. *)
Inductive point := Loop | Resumed (r : E + option V) | Handler (p : P).

Definition handler_act (a : act P V E) : act point V E :=
  match a with
  | co_return v => co_return v
  | flow_off => flow_off
  | raise e => raise e
  | co_await_task vd c k => co_await_task vd (Handler c) (fun r => Handler (k r))
  | co_await next => co_await (Handler next)
  end.

(** After the handler: [connected_ = false] and [closeCallback_]. *)
Definition end_of_loop (w : W) : W :=
  let x := set_connected false (ext w) in
  {| raw := raw w; pending := pending w; cc := cc w; ext := if closeCallback_ x then add_closed x else x |}.

Definition connectionLoop (p : point) (w : W) : act point V E * W :=
  match p with
  | Loop => if handler_ (ext w) then (co_await_task true (Handler first) Resumed, w) else (flow_off, end_of_loop w)
  | Resumed (inl e) => (raise e, w)
  | Resumed (inr _) => (flow_off, end_of_loop w)
  | Handler q => let '(a, w') := handler q w in (handler_act a, w')
  end.

(** [start]: [connectionTask_] is the new task, and its handle is resumed. *)
Definition start (n : nat) : ST (state point V E W) (option (Z * stop)) := fun s =>
  match start_channel (Task.world s) with
  | Fail f => Fail f
  | Done (_, w) =>
      (h ← make true Loop; z ← drive connectionLoop n [] h;
       mret (match z with Some r => Some (h, r) | None => None end))
        {| Task.frames := frames s; Task.world := w |}
  end.
End Loop.
End CoroTcpConnection.

(** ** The stream *)

Section Stream.
Context {K : Type} `{HK : EpollKernel K} `{HL : !EpollLaws K}.
Context (tid : Z).
#[local] Existing Instance release_build.
Abbreviation W := (world K conn member).
Implicit Types (w : W) (x : conn).

Definition with_ext (x : conn) (w : W) : W := {| raw := raw w; pending := pending w; cc := cc w; ext := x |}.

(** What was sent is on the wire or in the output buffer, and the connection
    waits for the channel to be writable as long as there is something in it. *)
Record stream_ok x : Prop := {
  so_in : Wf (inputBuffer_ x);
  so_out : Wf (outputBuffer_ x);
  so_stream : wire x ++ content (outputBuffer_ x) = sent x;
  so_sending : content (outputBuffer_ x) <> [] -> sending_ x = true
}.

(** The CoroChannel of a started connection. *)
Record channel_ok (c : CoroChannel member) x : Prop := {
  co_writing : writing_ c = sending_ x;
  co_callbacks : on_read c = Some call_onReadable /\ on_write c = Some call_onWritable /\ on_close c = Some call_close;
  co_waiters : readWaiter_ c = None /\ writeWaiter_ c = None
}.

Definition Good w : Prop := CInv tid w /\ channel_ok (cc w) (ext w) /\ stream_ok (ext w).

(** The parts that sending and writing leave alone. *)
Record same_input w w' : Prop := {
  si_reading : reading_ (cc w') = reading_ (cc w);
  si_input : inputBuffer_ (ext w') = inputBuffer_ (ext w);
  si_connected : connected_ (ext w') = connected_ (ext w);
  si_received : received (ext w') = received (ext w);
  si_reads : reads (ext w') = reads (ext w);
  si_data : dataCallback_ (ext w') = dataCallback_ (ext w);
  si_closed : closed (ext w') = closed (ext w)
}.

Lemma on_output_done {A} (m : ST Buffer A) w a b : m (outputBuffer_ (ext w)) = Done (a, b) ->
  on_output m w = Done (a, with_ext (set_buffers (inputBuffer_ (ext w)) b (ext w)) w).
Proof. intros E. unfold on_output. now rewrite E. Qed.

Lemma on_input_done {A} (m : ST Buffer A) w a b : m (inputBuffer_ (ext w)) = Done (a, b) ->
  on_input m w = Done (a, with_ext (set_buffers b (outputBuffer_ (ext w)) (ext w)) w).
Proof. intros E. unfold on_input. now rewrite E. Qed.

Lemma conn_of_done w : conn_of w = Done (ext w, w).
Proof. reflexivity. Qed.

Lemma upd_conn_done f w : upd_conn f w = Done (tt, with_ext (f (ext w)) w).
Proof. reflexivity. Qed.

Lemma Good_ext w x : Good w -> sending_ x = sending_ (ext w) -> stream_ok x -> Good (with_ext x w).
Proof.
  intros (C & Ch & S) Hs Hx. split; [exact C|]. split; [|exact Hx].
  constructor; cbn; [rewrite Hs|..]; apply Ch.
Qed.

(** [writing_] and the channel are switched together. *)
Lemma switch_on w : Good w -> exists w',
  CoroChannel.enableWriting tid (with_ext (set_sending true (ext w)) w) = Done (tt, w') /\
  Good w' /\ ext w' = set_sending true (ext w) /\ reading_ (cc w') = reading_ (cc w).
Proof.
  intros (C & Ch & S).
  destruct (enable_ok tid OEnableWriting (with_ext (set_sending true (ext w)) w) (set_writing true) C ltac:(now intros []))
    as (w' & p & E & C' & Hc & _ & Hx).
  exists w'. split_and!; [exact E| |exact Hx|now rewrite Hc].
  split; [exact C'|]. rewrite Hx, Hc. split; [constructor; [reflexivity|apply Ch..]|].
  constructor; cbn; [apply S..|done].
Qed.

Lemma switch_off w : Good w -> content (outputBuffer_ (ext w)) = [] -> exists w',
  (_ ← CoroChannel.disableWriting tid; upd_conn (set_sending false)) w = Done (tt, w') /\
  Good w' /\ ext w' = set_sending false (ext w) /\ reading_ (cc w') = reading_ (cc w).
Proof.
  intros (C & Ch & S) Hn.
  destruct (disable_ok tid ODisableWriting w (set_writing false) C ltac:(now intros []) ltac:(done) ltac:(done))
    as (w1 & E & C' & Hc & _ & Hx).
  assert (E1 : CoroChannel.disableWriting tid w = Done (tt, w1)) by exact E. st_step E1.
  exists (with_ext (set_sending false (ext w1)) w1). rewrite Hx. split_and!; [now rewrite upd_conn_done, Hx| |done|now cbn; rewrite Hc].
  split; [exact C'|]. cbn [cc ext with_ext]. rewrite Hc. split; [constructor; [reflexivity|apply Ch..]|].
  constructor; cbn; [apply S..|now rewrite Hn].
Qed.

(** The answers of the kernel that do not end the connection. *)
Definition read_goes_on (r : read_answer) : Prop := r <> Bytes [].
Definition write_goes_on (r : write_answer) : Prop := forall e, r = WriteError e -> e = EAGAIN.
Definition goes_on x : Prop :=
  Forall read_goes_on (reads x) /\ Forall write_goes_on (writes x) /\ (connected_ x = true -> shut x = false).

(** [send] *)
Lemma send_runs d w : Good w -> Z.of_nat (length d) <= max_vector_size ->
  runs (send tid d) w (fun _ w' => Good w' /\ same_input w w' /\
    sent (ext w') = sent (ext w) ++ (if connected_ (ext w) then d else []) /\ (goes_on (ext w) -> goes_on (ext w'))).
Proof.
  intros G Hd. unfold send. r_step (conn_of_done w).
  destruct (connected_ (ext w)) eqn:Hc; cbn [negb].
  2: { apply runs_ret. rewrite app_nil_r. split_and!; [exact G|now split|done|done]. }
  r_step (upd_conn_done (add_sent d) w).
  pose proof G as (C & Ch & S). set (w1 := with_ext (add_sent d (ext w)) w).
  destruct (append_total d (outputBuffer_ (ext w)) (so_out _ S) Hd) as [(b & E & Wb & Cb)|E].
  2: { right. apply bind_fail. unfold on_output. cbn [ext w1 with_ext add_sent outputBuffer_]. now rewrite E. }
  r_step (on_output_done (append d) w1 tt b E).
  set (x2 := set_buffers (inputBuffer_ (ext w1)) b (ext w1)). change (with_ext x2 w1) with (with_ext x2 w).
  r_step (conn_of_done (with_ext x2 w)). cbn [ext with_ext].
  assert (Hst : forall s, (content b <> [] -> s = true) -> stream_ok (set_sending s x2)).
  { intros s Hs. constructor; cbn; [apply S|exact Wb| |exact Hs]. rewrite Cb, app_assoc. now rewrite (so_stream _ S). }
  change (sending_ x2) with (sending_ (ext w)). destruct (sending_ (ext w)) eqn:Hs; cbn [negb when].
  - apply runs_ret. split_and!; [|now split|done|done].
    apply Good_ext; [exact G|reflexivity|]. specialize (Hst true ltac:(done)). constructor; cbn; [apply Hst..|done].
  - r_step (upd_conn_done (set_sending true) (with_ext x2 w)).
    destruct (enable_ok tid OEnableWriting (with_ext (set_sending true x2) w) (set_writing true) C ltac:(now intros []))
      as (w' & p & E' & C' & Hcc & _ & Hx).
    eapply runs_done; [exact E'|]. cbn [ext with_ext] in Hx. split.
    + split; [exact C'|]. rewrite Hx, Hcc. split; [constructor; [reflexivity|apply Ch..]|]. now apply Hst.
    + split_and!; [split; rewrite ?Hx, ?Hcc; reflexivity|now rewrite Hx|rewrite Hx; exact (fun g => g)].
Qed.

(** A [write] that does not end the connection. *)
Definition write_fails x : Prop :=
  connected_ x = true /\ (shut x = true \/ exists e l, writes x = WriteError e :: l /\ e <> EAGAIN).

Lemma readable_content b : Wf b -> readableBytes b = Z.of_nat (length (content b)).
Proof. intros Wb. symmetry. now apply length_content. Qed.

Lemma handleClose_disconnected w : connected_ (ext w) = false -> handleClose tid w = Done (tt, w).
Proof. intros Hc. unfold handleClose. st_step (conn_of_done w). now rewrite Hc. Qed.

Lemma set_writes_nil x : set_writes (writes x) [] x = x.
Proof. destruct x. unfold set_writes. cbn. now rewrite app_nil_r. Qed.

Lemma goes_on_tail x r l d : writes x = r :: l -> goes_on x -> goes_on (set_writes l d x).
Proof. intros El (Hr & Hw & Hs). rewrite El in Hw. apply Forall_cons in Hw as [_ Hw]. now split_and!. Qed.

(** [write]: the state after it, and what it answers. *)
Lemma sys_write_done data w : exists r x, sys_write data w = Done (r, with_ext x w) /\
  x = set_writes (writes x) (match r with Took n => take n data | WriteError _ => [] end) (ext w) /\
  match r with
  | Took n => (n <= length data)%nat
  | WriteError e => write_fails (ext w) \/ connected_ (ext w) = false \/ e = EAGAIN
  end /\ (goes_on (ext w) -> goes_on x).
Proof.
  unfold sys_write. rewrite (bind_done _ _ _ _ _ (conn_of_done w)). destruct (shut (ext w)) eqn:Hs.
  { exists (WriteError EPIPE), (ext w). split_and!; [now destruct w|symmetry; apply set_writes_nil| |done].
    destruct (connected_ (ext w)) eqn:Hc; [left|right; now left]. split; [done|now left]. }
  destruct (writes (ext w)) as [|[n|e] l] eqn:El.
  - exists (WriteError EAGAIN), (ext w). split_and!; [now destruct w|symmetry; apply set_writes_nil| |done].
    right. now right.
  - eexists (Took (min n (length data))), _. split_and!; [reflexivity|reflexivity|lia|now apply goes_on_tail with (Took n)].
  - eexists (WriteError e), _. split_and!; [reflexivity|reflexivity| |now apply goes_on_tail with (WriteError e)].
    destruct (connected_ (ext w)) eqn:Hc; [|right; now left].
    destruct (decide (e = EAGAIN)); [right; now right|left]. split; [done|right; eauto].
Qed.

(** What the write handler keeps. *)
Definition kept w w' : Prop := Good w' /\ same_input w w' /\ sent (ext w') = sent (ext w) /\ (goes_on (ext w) -> goes_on (ext w')).

Lemma untaken_kept l w : Good w -> (goes_on (ext w) -> goes_on (set_writes l [] (ext w))) ->
  kept w (with_ext (set_writes l [] (ext w)) w).
Proof.
  intros G Hgo. pose proof G as (_ & _ & []). split_and!; [|done..].
  apply Good_ext; [exact G|done|]. constructor; cbn; rewrite ?app_nil_r; done.
Qed.

(** The kernel took the first [n] bytes of the output buffer. *)
Lemma taken_runs l n w : let data := content (outputBuffer_ (ext w)) in let x := set_writes l (take n data) (ext w) in
  Good w -> data <> [] -> (n <= length data)%nat -> (goes_on (ext w) -> goes_on x) ->
  runs (_ ← on_output (retrieve (Z.of_nat n)); x ← conn_of;
        when (readableBytes (outputBuffer_ x) =? 0) (_ ← CoroChannel.disableWriting tid; upd_conn (set_sending false)))
    (with_ext x w) (fun _ w' => kept w w').
Proof.
  intros data x G Hz Hn Hgo. pose proof G as (_ & _ & S). pose proof (so_out _ S) as Wb.
  destruct (retrieve_spec (Z.of_nat n) (outputBuffer_ (ext w)) Wb) as (b & Eb & Wb' & Cb & _);
    [lia|rewrite (readable_content _ Wb); fold data; lia|].
  r_step (on_output_done (retrieve (Z.of_nat n)) (with_ext x w) tt b Eb).
  set (x2 := set_buffers (inputBuffer_ (ext (with_ext x w))) b (ext (with_ext x w))).
  change (with_ext x2 (with_ext x w)) with (with_ext x2 w). r_step (conn_of_done (with_ext x2 w)).
  rewrite Nat2Z.id in Cb. fold data in Cb. cbn [ext with_ext].
  assert (G2 : Good (with_ext x2 w)).
  { apply Good_ext; [exact G|done|]. constructor; cbn; [apply S|exact Wb'| |].
    - rewrite Cb, <-app_assoc, take_drop. apply (so_stream _ S).
    - intros _. now apply (so_sending _ S). }
  change (outputBuffer_ x2) with b. rewrite (readable_content _ Wb').
  destruct (Z.eqb_spec (Z.of_nat (length (content b))) 0) as [Hb|Hb]; cbn [when].
  - destruct (switch_off (with_ext x2 w) G2) as (w' & E' & G' & Hx & Hrd); [now apply length_zero_iff_nil; cbn; lia|].
    eapply runs_done; [exact E'|]. cbn [ext with_ext cc] in *.
    split_and!; [exact G'| |now rewrite Hx|now rewrite Hx]. split; rewrite ?Hx, ?Hrd; done.
  - apply runs_ret. now split_and!.
Qed.

Lemma onWritable_runs w : Good w -> ~ write_fails (ext w) -> runs (onWritable tid) w (fun _ w' => kept w w').
Proof.
  intros G Hw. pose proof G as (_ & _ & S). pose proof (so_out _ S) as Wb.
  unfold onWritable. r_step (conn_of_done w). rewrite (readable_content _ Wb).
  destruct (Z.eqb_spec (Z.of_nat (length (content (outputBuffer_ (ext w))))) 0) as [Hz|Hz].
  { destruct (switch_off w G) as (w' & E & G' & Hx & Hr); [now apply length_zero_iff_nil; lia|].
    eapply runs_done; [exact E|]. split_and!; [exact G'|split; rewrite ?Hx, ?Hr; reflexivity|now rewrite Hx|now rewrite Hx]. }
  assert (Er : on_output (b ← get; read_range (peek b) (readableBytes b)) w = Done (content (outputBuffer_ (ext w)), w)).
  { erewrite on_output_done; [|rewrite bind_get; rewrite (readable_wf _ Wb); exact (read_content _ Wb)].
    do 2 f_equal. destruct w as [? ? ? []]. reflexivity. }
  r_step Er. set (data := content (outputBuffer_ (ext w))) in *.
  destruct (sys_write_done data w) as (r & x & E & Ex & Hr & Hgo). r_step E. revert Ex. generalize (writes x). intros l ->.
  destruct r as [[|n]|e].
  - apply runs_ret. now apply untaken_kept.
  - apply taken_runs; auto. fold data. intros Hd. now rewrite Hd in Hz.
  - pose proof (untaken_kept l w G Hgo) as Hk. apply runs_when; intros He; [|exact Hk].
    eapply runs_done; [|exact Hk]. apply handleClose_disconnected. cbn.
    destruct Hr as [Hr|[Hr| ->]]; [now destruct Hw|exact Hr|now rewrite Z.eqb_refl in He].
Qed.

(** *** Reading *)

Lemma goes_on_write x : goes_on x -> ~ write_fails x.
Proof.
  intros (_ & Hw & Hs) (Hc & [H1|(e & l & He & Hne)]); [now rewrite (Hs Hc) in H1|].
  rewrite He in Hw. apply Forall_cons in Hw as [Hw _]. exact (Hne (Hw e eq_refl)).
Qed.

(** What reading [d] into the input buffer does. *)
Definition read_into (b : Buffer) (l : list read_answer) (d : list byte) (x : conn) : conn :=
  set_buffers b (outputBuffer_ x) (set_reads l d x).

Context (on_data : ST W unit).

Lemma take_read_nil (d : list byte) : d <> [] -> take (Z.to_nat extrabuf_size) d <> [].
Proof.
  intros Hd Ht. apply Hd, length_zero_iff_nil. apply (f_equal length) in Ht. rewrite length_take in Ht.
  cbn [length] in Ht. unfold extrabuf_size in Ht. lia.
Qed.

Lemma goes_on_read x : goes_on x -> forall l, reads x <> Bytes [] :: l.
Proof. intros (Hr & _) l El. rewrite El in Hr. apply Forall_cons in Hr as [Hr _]. now apply Hr. Qed.

Definition cut (r : read_answer) : read_answer :=
  match r with Bytes d => Bytes (take (Z.to_nat extrabuf_size) d) | e => e end.
Definition bytes_of (r : read_answer) : list byte := match r with Bytes d => d | ReadError _ => [] end.

Lemma sys_read_nil w : reads (ext w) = [] -> sys_read w = Done (ReadError EAGAIN, w).
Proof. intros Er. unfold sys_read. rewrite (bind_done _ _ _ _ _ (conn_of_done w)). now rewrite Er. Qed.

Lemma sys_read_cons w r l : reads (ext w) = r :: l ->
  sys_read w = Done (cut r, with_ext (set_reads l (bytes_of (cut r)) (ext w)) w).
Proof. intros Er. unfold sys_read. rewrite (bind_done _ _ _ _ _ (conn_of_done w)), Er. reflexivity. Qed.

(** [onReadable]: either nothing new, or bytes for the data callback. *)
Lemma onReadable_rule w (Q : unit -> W -> Prop) : Good w -> (forall l, reads (ext w) <> Bytes [] :: l) ->
  (forall e l, reads (ext w) = ReadError e :: l -> Q tt (with_ext (set_reads l [] (ext w)) w)) ->
  (reads (ext w) = [] -> Q tt w) ->
  (forall b l d d', reads (ext w) = Bytes d' :: l -> d = take (Z.to_nat extrabuf_size) d' ->
     content b = content (inputBuffer_ (ext w)) ++ d ->
     let w1 := with_ext (read_into b l d (ext w)) w in
     Good w1 -> if dataCallback_ (ext w) then runs on_data w1 Q else Q tt w1) ->
  runs (onReadable tid on_data) w Q.
Proof.
  intros G Hr Qerr Qnil Qdata. unfold onReadable. pose proof G as (C & Ch & S).
  destruct (reads (ext w)) as [|r l] eqn:Er.
  { r_step (sys_read_nil w Er). apply runs_ret. now apply Qnil. }
  r_step (sys_read_cons w r l Er). destruct r as [d0|e].
  2: { apply runs_ret. now eapply Qerr. }
  cbn [cut bytes_of]. assert (Hd : take (Z.to_nat extrabuf_size) d0 <> []) by (apply take_read_nil; intros ->; now apply (Hr l)).
  set (d := take (Z.to_nat extrabuf_size) d0) in *.
  assert (Hlen : Z.of_nat (length d) <= max_vector_size).
  { unfold d. rewrite length_take. unfold extrabuf_size, max_vector_size. lia. }
  assert (Ematch : match d with [] => handleClose tid | b :: d1 => (_ ← on_input (append (b :: d1)); x ← conn_of; when (dataCallback_ x) on_data) end
    = (_ ← on_input (append d); x ← conn_of; when (dataCallback_ x) on_data)) by now destruct d.
  rewrite Ematch. set (w1 := with_ext (set_reads l d (ext w)) w).
  destruct (append_total d (inputBuffer_ (ext w)) (so_in _ S) Hlen) as [(b & Eb & Wb & Cb)|Eb].
  2: { right. apply bind_fail. unfold on_input. cbn [ext w1 with_ext set_reads inputBuffer_]. now rewrite Eb. }
  r_step (on_input_done (append d) w1 tt b Eb).
  specialize (Qdata b l d d0 eq_refl eq_refl Cb). cbn zeta in Qdata.
  assert (G1 : Good (with_ext (read_into b l d (ext w)) w)).
  { apply Good_ext; [exact G|reflexivity|]. constructor; cbn; [exact Wb|apply S..]. }
  specialize (Qdata G1).
  r_step (conn_of_done (with_ext (read_into b l d (ext w)) w)). cbn [ext with_ext dataCallback_ read_into set_buffers set_reads].
  destruct (dataCallback_ (ext w)); cbn [when]; [exact Qdata|now apply runs_ret].
Qed.

(** ** Theorems on the stream *)

(** A connection that goes on. *)
Definition Going w : Prop := Good w /\ goes_on (ext w).

Inductive happening :=
  | IsReadable          (* EPOLLIN *)
  | IsWritable          (* EPOLLOUT *)
  | DoSend (d : list byte)
  | DoShutdown.

Definition happen (e : happening) : ST W unit :=
  match e with
  | IsReadable => CoroChannel.handleRead tid (run_member tid on_data)
  | IsWritable => CoroChannel.handleWrite tid (run_member tid on_data)
  | DoSend d => send tid d
  | DoShutdown => shutdown
  end.

Lemma runs_same {A} (m n : ST W A) w (Q : A -> W -> Prop) : m w = n w -> runs n w Q -> runs m w Q.
Proof. unfold runs. now intros ->. Qed.

(** Without a waiting coroutine the channel calls the connection. *)
Lemma handleRead_calls w : Good w ->
  CoroChannel.handleRead tid (run_member tid on_data) w = onReadable tid on_data w.
Proof.
  intros (_ & Ch & _). unfold CoroChannel.handleRead. st_get.
  rewrite (proj1 (co_waiters _ _ Ch)), (proj1 (co_callbacks _ _ Ch)). reflexivity.
Qed.

Lemma handleWrite_calls w : Good w ->
  CoroChannel.handleWrite tid (run_member tid on_data) w = onWritable tid w.
Proof.
  intros (_ & Ch & _). unfold CoroChannel.handleWrite. st_get.
  rewrite (proj2 (co_waiters _ _ Ch)), (proj1 (proj2 (co_callbacks _ _ Ch))). reflexivity.
Qed.

Definition string_ok (e : happening) : Prop :=
  match e with DoSend d => Z.of_nat (length d) <= max_vector_size | _ => True end.

(** whatever events and calls come, in whatever order, as long as the peer
    neither closes nor breaks the connection: every one is served (or memory is
    exhausted), the bytes on the wire followed by those in the output buffer are
    the bytes given to [send] while connected, in order, and as long as there are
    any left the channel waits to be writable. *)
Theorem coro_stream_in_order (es : list happening) w :
  (forall w, Going w -> runs on_data w (fun _ w' => Going w')) ->
  Going w -> Forall string_ok es ->
  runs (for_each es happen) w (fun _ w' => Going w' /\
    wire (ext w') ++ content (outputBuffer_ (ext w')) = sent (ext w') /\
    (content (outputBuffer_ (ext w')) <> [] -> writing_ (cc w') = true /\ watched w')).
Proof.
  intros Hd G Hes. assert (Hrun : runs (for_each es happen) w (fun _ w' => Going w')).
  { revert w G. induction Hes as [|e es He Hes IH]; intros w G; [now apply runs_ret|].
    cbn [for_each]. apply (runs_bind _ _ _ (fun _ w' => Going w')); [|intros [] w' G'; now apply IH].
    destruct G as [G Go]. pose proof Go as (Hr & Hw & Hs). destruct e; cbn [happen].
    - apply (runs_same _ _ _ _ (handleRead_calls w G)).
      apply onReadable_rule; [exact G|now apply goes_on_read|..].
      + intros e l El. split; [apply Good_ext; [exact G|reflexivity|now destruct G as (_ & _ & [])]|].
        rewrite El in Hr. apply Forall_cons in Hr as [_ Hr]. now split_and!.
      + now split.
      + intros b l d d' El Ed Cb w1 G1. assert (G2 : Going w1).
        { split; [exact G1|]. rewrite El in Hr. apply Forall_cons in Hr as [_ Hr]. now split_and!. }
        destruct (dataCallback_ (ext w)); [now apply Hd|exact G2].
    - apply (runs_same _ _ _ _ (handleWrite_calls w G)).
      eapply runs_weaken; [apply onWritable_runs; [exact G|now apply goes_on_write]|].
      intros [] w' (G' & _ & _ & Hgo). split; [exact G'|now apply Hgo].
    - eapply runs_weaken; [now apply send_runs|]. intros [] w' (G' & _ & _ & Hgo). split; [exact G'|now apply Hgo].
    - unfold shutdown. r_step (upd_conn_done (set_connected false) w).
      eapply runs_done; [reflexivity|]. destruct G as (C & Ch & S). split; [|now split_and!].
      split; [exact C|]. split; [constructor; apply Ch|constructor; apply S]. }
  eapply runs_weaken; [exact Hrun|]. intros [] w' G'. split; [exact G'|]. destruct G' as [(C & Ch & S) _].
  split; [apply S|]. intros Hn. split; [rewrite (co_writing _ _ Ch); now apply S|].
  now apply (CInv_watched tid).
Qed.

(** *** After [shutdown] *)

Definition finished w : Prop := connected_ (ext w) = false /\ shut (ext w) = true.

(** Nothing more is written and the close callback is not called. *)
Definition silent w w' : Prop :=
  Good w' /\ finished w' /\ wire (ext w') = wire (ext w) /\ closed (ext w') = closed (ext w).

Lemma onWritable_finished w : Good w -> finished w -> runs (onWritable tid) w (fun _ w' => silent w w').
Proof.
  intros G [Hc Hs]. pose proof G as (C & Ch & S). pose proof (so_out _ S) as Wb.
  unfold onWritable. r_step (conn_of_done w). rewrite (readable_content _ Wb).
  destruct (Z.eqb_spec (Z.of_nat (length (content (outputBuffer_ (ext w))))) 0) as [Hz|Hz].
  { destruct (switch_off w G) as (w' & E & G' & Hx & Hr); [now apply length_zero_iff_nil; lia|].
    eapply runs_done; [exact E|]. unfold silent, finished. rewrite Hx. now split_and!. }
  assert (Er : on_output (b ← get; read_range (peek b) (readableBytes b)) w = Done (content (outputBuffer_ (ext w)), w)).
  { erewrite on_output_done; [|rewrite bind_get; rewrite (readable_wf _ Wb); exact (read_content _ Wb)].
    do 2 f_equal. destruct w as [? ? ? []]. reflexivity. }
  r_step Er. set (data := content (outputBuffer_ (ext w))) in *.
  assert (Ew : sys_write data w = Done (WriteError EPIPE, w)).
  { unfold sys_write. rewrite (bind_done _ _ _ _ _ (conn_of_done w)). now rewrite Hs. }
  r_step Ew. eapply runs_done; [exact (handleClose_disconnected w Hc)|]. now split_and!.
Qed.

Lemma onReadable_finished w : (forall w, Good w -> finished w -> runs on_data w (fun _ w' => silent w w')) ->
  Good w -> finished w -> runs (onReadable tid on_data) w (fun _ w' => silent w w').
Proof.
  intros Hd G [Hc Hs]. pose proof G as (C & Ch & S).
  assert (Gr : forall l d, Good (with_ext (set_reads l d (ext w)) w)).
  { intros l d. apply Good_ext; [exact G|reflexivity|constructor; apply S]. }
  assert (Hcase : (exists l, reads (ext w) = Bytes [] :: l) \/ forall l, reads (ext w) <> Bytes [] :: l)
    by (destruct (reads (ext w)) as [|[[|b0 d0]|e0] l0]; [now right|left; now exists l0|now right|now right]).
  destruct Hcase as [[l El]|Hne].
  { unfold onReadable. r_step (sys_read_cons w _ _ El). cbn [cut]. rewrite take_nil.
    eapply runs_done; [now apply handleClose_disconnected|]. now split_and!. }
  apply onReadable_rule; [exact G|exact Hne|..].
  - intros e l El. now split_and!.
  - intros El. now split_and!.
  - intros b l d d' El Ed Cb w1 G1. destruct (dataCallback_ (ext w)); [|now split_and!].
    eapply runs_weaken; [apply Hd; [exact G1|now split]|]. intros [] w' (G' & F' & Hw & Hcl).
    split_and!; [exact G'|exact F'|exact Hw|exact Hcl].
Qed.

Lemma happen_finished e w : (forall w, Good w -> finished w -> runs on_data w (fun _ w' => silent w w')) ->
  Good w -> finished w -> runs (happen e) w (fun _ w' => silent w w').
Proof.
  intros Hd G F. pose proof F as [Hc Hs]. destruct e; cbn [happen].
  - apply (runs_same _ _ _ _ (handleRead_calls w G)). now apply onReadable_finished.
  - apply (runs_same _ _ _ _ (handleWrite_calls w G)). now apply onWritable_finished.
  - unfold send. r_step (conn_of_done w). rewrite Hc. apply runs_ret. now split_and!.
  - unfold shutdown. r_step (upd_conn_done (set_connected false) w). eapply runs_done; [reflexivity|].
    split_and!; try done. destruct G as (C & Ch & S). split; [exact C|]. split; constructor; (apply Ch || apply S).
Qed.

(** [shutdown] is the last word of a connection.  It does not wait for the output
    buffer, as TcpConnection does: whatever the events, calls and answers of the
    kernel afterwards, also when the peer closes, nothing more is written even if
    the buffer is not empty, and the close callback is never called, so that the
    server keeps the connection. *)
Theorem coro_shutdown_is_final (es : list happening) w :
  (forall w, Good w -> finished w -> runs on_data w (fun _ w' => silent w w')) -> Good w -> Forall string_ok es ->
  runs (_ ← shutdown; for_each es happen) w (fun _ w' => silent (with_ext (set_shut (set_connected false (ext w))) w) w').
Proof.
  intros Hd G Hes.
  set (w0 := with_ext (set_shut (set_connected false (ext w))) w).
  r_step (eq_refl : shutdown w = Done (tt, w0)).
  assert (S0 : silent w0 w0).
  { split_and!; try done. apply Good_ext; [exact G|reflexivity|]. destruct G as (_ & _ & S). constructor; apply S. }
  revert S0. generalize w0 at 2 3 as w1. clearbody w0. clear w G. intros w1 S1.
  revert w1 S1. induction Hes as [|e es He Hes IH]; intros w1 S1; [now apply runs_ret|].
  cbn [for_each]. apply (runs_bind _ _ _ (fun _ w' => silent w0 w')); [|intros [] w' S'; now apply IH].
  eapply (runs_weaken _ _ (fun _ w' => silent w1 w')); [now apply happen_finished; try apply S1|].
  intros [] w' (G' & F' & Hw & Hcl). destruct S1 as (_ & _ & Hw1 & Hcl1). split_and!; congruence.
Qed.
End Stream.

(** ** The echo server of [examples/coro_echo_server.cpp] *)

Section Echo.
Context {K : Type} `{HK : EpollKernel K} `{HL : !EpollLaws K}.
Context (tid : Z).
#[local] Existing Instance release_build.
Abbreviation W := (world K conn member).
Implicit Types (w : W) (x : conn).

(** The data callback: [conn->send(buf->peek(), buf->readableBytes()); buf->retrieveAll();] *)
Definition echo : ST W unit :=
  data ← on_input (b ← get; read_range (peek b) (readableBytes b));
  _ ← send tid data;
  on_input retrieveAll.

(** A connected connection that has echoed everything. *)
Definition Echoing w : Prop :=
  Going tid w /\ connected_ (ext w) = true /\ dataCallback_ (ext w) = true /\
  content (inputBuffer_ (ext w)) = [] /\ sent (ext w) = received (ext w).

Lemma echo_runs w d : Good tid w -> goes_on (ext w) -> connected_ (ext w) = true -> dataCallback_ (ext w) = true ->
  content (inputBuffer_ (ext w)) = d -> received (ext w) = sent (ext w) ++ d ->
  runs echo w (fun _ w' => Echoing w').
Proof.
  intros G Go Hc Hd Hin Hre. pose proof G as (C & Ch & S). pose proof (so_in _ S) as Wb.
  unfold echo.
  assert (Er : on_input (b ← get; read_range (peek b) (readableBytes b)) w = Done (d, w)).
  { erewrite on_input_done; [|rewrite bind_get; rewrite (readable_wf _ Wb); exact (read_content _ Wb)].
    rewrite Hin. do 2 f_equal. destruct w as [? ? ? []]. reflexivity. }
  r_step Er. assert (Hlen : Z.of_nat (length d) <= max_vector_size).
  { rewrite <-Hin, (length_content _ Wb), (readable_wf _ Wb). destruct Wb. lia. }
  eapply runs_bind; [now apply send_runs|]. intros [] w1 (G1 & I1 & Es & Go1). cbv beta.
  pose proof G1 as (C1 & Ch1 & S1).
  destruct (retrieveAll_spec _ (so_in _ S1)) as (b & Eb & Wb' & Cb & _).
  eapply runs_done; [exact (on_input_done retrieveAll w1 tt b Eb)|].
  assert (Gn : Good tid (with_ext (set_buffers b (outputBuffer_ (ext w1)) (ext w1)) w1)).
  { apply Good_ext; [exact G1|reflexivity|]. constructor; cbn; [exact Wb'|apply S1..]. }
  split_and!; [split; [exact Gn|exact (Go1 Go)]| | |exact Cb|]; cbn.
  - now rewrite (si_connected _ _ I1).
  - now rewrite (si_data _ _ I1).
  - now rewrite Es, Hc, (si_received _ _ I1).
Qed.

(** C10: the echo server sends back what it gets: while the peer neither closes nor
    breaks the connection, after any sequence of readable and writable events the
    bytes on the wire and in the output buffer are the bytes received, in order,
    and the channel waits to be writable as long as some are left. *)
Theorem echo_server_echoes (es : list bool) w : Echoing w ->
  runs (for_each es (fun e => happen tid echo (if e then IsReadable else IsWritable))) w (fun _ w' =>
    Echoing w' /\ wire (ext w') ++ content (outputBuffer_ (ext w')) = received (ext w') /\
    (content (outputBuffer_ (ext w')) <> [] -> writing_ (cc w') = true /\ watched w')).
Proof.
  intros G. assert (Hrun : runs (for_each es (fun e => happen tid echo (if e then IsReadable else IsWritable))) w
    (fun _ w' => Echoing w')).
  { revert w G. induction es as [|e es IH]; intros w G; [now apply runs_ret|].
    cbn [for_each]. apply (runs_bind _ _ _ (fun _ w' => Echoing w')); [|intros [] w' G'; now apply IH].
    destruct G as ([G Go] & Hc & Hd & Hin & Hre). pose proof Go as (Hr & Hw & Hs). destruct e; cbn [happen].
    - apply (runs_same _ _ _ _ (handleRead_calls tid echo w G)).
      apply onReadable_rule; [exact G|now apply goes_on_read|..].
      + intros e l El. split_and!; try done; cbn; [|now rewrite app_nil_r].
        split; [apply Good_ext; [exact G|reflexivity|now destruct G as (_ & _ & [])]|].
        rewrite El in Hr. apply Forall_cons in Hr as [_ Hr]. now split_and!.
      + intros _. now split_and!.
      + intros b l d d' El Ed Cb w1 G1. rewrite Hd. apply echo_runs with d; try done.
        * rewrite El in Hr. apply Forall_cons in Hr as [_ Hr]. now split_and!.
        * cbn. now rewrite Cb, Hin.
        * cbn. now rewrite Hre.
    - apply (runs_same _ _ _ _ (handleWrite_calls tid echo w G)).
      eapply runs_weaken; [apply onWritable_runs; [exact G|now apply goes_on_write]|].
      intros [] w' (G' & I' & Es & Hgo).
      split_and!; [split; [exact G'|now apply Hgo]|now rewrite (si_connected _ _ I')|now rewrite (si_data _ _ I')| |].
      + now rewrite (si_input _ _ I').
      + now rewrite Es, (si_received _ _ I'). }
  eapply runs_weaken; [exact Hrun|]. intros [] w' G'. split; [exact G'|].
  destruct G' as ([(C & Ch & S) _] & _ & _ & _ & Hre). rewrite <-Hre.
  split; [apply S|]. intros Hn. split; [rewrite (co_writing _ _ Ch); now apply S|].
  now apply (CInv_watched tid).
Qed.
End Echo.

(** ** The end of a connection *)

Section Closing.
Context {K : Type} `{HK : EpollKernel K} `{HL : !EpollLaws K} `{HB : Build}.
Context (tid : Z) (on_data : ST (world K conn member) unit).
Abbreviation W := (world K conn member).
Implicit Types (w : W) (x : conn) (d : Channel lambda).

(** [disableAll] of a registered channel, in any build. *)
Lemma disableAll_registered w p d : channel_ (cc w) = Some p -> attached_inv tid p d (cc w) (raw w) -> index_ d <> -1 ->
  exists w1 d1, CoroChannel.disableAll tid w = Done (tt, w1) /\ channel_ (cc w1) = Some p /\ ext w1 = ext w /\
    cfd_ (cc w1) = cfd_ (cc w) /\ attached_inv tid p d1 (cc w1) (raw w1) /\ index_ d1 = -1 /\
    channels_ (raw w1) !! fd_ d1 = Some p /\ on_close (cc w1) = on_close (cc w).
Proof.
  intros Hp A Hi.
  destruct (attached_switch (HB := HB) tid ODisableAll p d _ _ A ltac:(intros; congruence)) as (k & E & A').
  assert (Hch : index_ d = 1 \/ index_ d = 2) by
    (destruct (inv_index _ _ (ai_inv _ _ _ _ _ A) _ _ (ai_heap _ _ _ _ _ A)) as [?|[? _]]; [done|assumption]).
  assert (Hreg : channels_ (raw w) !! fd_ d = Some p) by
    (destruct (inv_index _ _ (ai_inv _ _ _ _ _ A) _ _ (ai_heap _ _ _ _ _ A)) as [?|(_ & ? & _)]; [done|assumption]).
  eexists _, (switched ODisableAll d). split.
  { unfold CoroChannel.disableAll, upd_cc. st_modify. st_modify.
    rewrite (if_channel_some _ p) by exact Hp. apply lift_done. exact E. }
  split_and!; [exact Hp|reflexivity|reflexivity|now apply (attached_inv_ext tid _ _ _ _ _ A')| | |reflexivity].
  - unfold switched. cbn [index_ setIndex]. unfold next_index. cbn [index_ set_addedToLoop set_events].
    rewrite (proj2 (Z.ltb_ge _ _)) by lia. reflexivity.
  - cbn [raw set_raw set_cc channels_ updated set_heap set_epoll set_channels]. cbn.
    rewrite (proj2 (Z.ltb_ge _ _)) by lia. exact Hreg.
Qed.

(** A second [disableAll], in [CoroChannel::remove]. *)
Lemma remove_after_disableAll w p d : channel_ (cc w) = Some p -> attached_inv tid p d (cc w) (raw w) -> index_ d = -1 ->
  channels_ (raw w) !! fd_ d = Some p ->
  (asserts_enabled = true -> CoroChannel.remove tid w = Fail AssertFailed) /\
  (asserts_enabled = false -> exists w', CoroChannel.remove tid w = Done (tt, w') /\ ext w' = ext w /\
     heap (raw w') !! p = None /\ dangling (cfd_ (cc w)) p (raw w')).
Proof.
  intros Hp A Hi Hch. split; intros Hb.
  - unfold CoroChannel.remove. apply bind_fail. unfold CoroChannel.disableAll, upd_cc. st_modify. st_modify.
    rewrite (if_channel_some _ p) by exact Hp. unfold lift. cbn [raw set_cc].
    now rewrite (switch_stale tid ODisableAll p d _ p Hb (ai_heap _ _ _ _ _ A) (ai_thread _ _ _ _ _ A)
      (ai_owner _ _ _ _ _ A) Hi Hch).
  - pose proof (attached_can_switch (HB := HB) tid _ _ _ _ A ltac:(intros; congruence)) as C.
    destruct (stale_remove_dangles tid p d _ Hb (ai_inv _ _ _ _ _ A) C Hi) as (l1 & l2 & l3 & F1 & F2 & F3 & Hh & Hd).
    rewrite (remove_lift tid w p _ Hp F1).
    erewrite bind_done by (apply lift_done; exact F2). erewrite bind_done by (apply lift_done; exact F3).
    eexists. split; [reflexivity|]. split_and!; [reflexivity|exact Hh|]. rewrite <-(ai_fd _ _ _ _ _ A). exact Hd.
Qed.

(** [handleClose] of a connected connection whose channel is registered. *)
Lemma handleClose_cases w p d : channel_ (cc w) = Some p -> attached_inv tid p d (cc w) (raw w) -> index_ d <> -1 ->
  connected_ (ext w) = true ->
  (asserts_enabled = true -> handleClose tid w = Fail AssertFailed) /\
  (asserts_enabled = false -> exists w', handleClose tid w = Done (tt, w') /\ heap (raw w') !! p = None /\
     dangling (cfd_ (cc w)) p (raw w')).
Proof.
  intros Hp A Hi Hc. unfold handleClose.
  rewrite (bind_done _ _ _ _ _ (conn_of_done w)), Hc. cbn [when].
  rewrite (bind_done _ _ _ _ _ (upd_conn_done (set_connected false) w)).
  set (w0 := with_ext (set_connected false (ext w)) w).
  destruct (disableAll_registered w0 p d Hp A Hi) as (w1 & d1 & E1 & Hp1 & Hx1 & Hf1 & A1 & Hi1 & Hch1 & _).
  rewrite (bind_done _ _ _ _ _ E1).
  destruct (remove_after_disableAll w1 p d1 Hp1 A1 Hi1 Hch1) as [Ha Hr]. split; intros Hb.
  - apply bind_fail. exact (Ha Hb).
  - destruct (Hr Hb) as (w2 & E2 & Hx2 & Hh2 & Hd2). rewrite (bind_done _ _ _ _ _ E2).
    unfold call_closeCallback. rewrite (bind_done _ _ _ _ _ (conn_of_done w2)).
    rewrite Hf1 in Hd2. destruct (closeCallback_ (ext w2)); cbn [when]; eexists; (split; [reflexivity|]); now split.
Qed.

(** The events that end a connection: a hang-up, or data of a peer that has closed. *)
Definition ends (r : Z) x : Prop :=
  flag r EPOLLHUP = true /\ flag r EPOLLIN = false \/
  flag r EPOLLIN = true /\ exists l, reads x = Bytes [] :: l.

Lemma lift_upd_done f w p d : heap (raw w) !! p = Some d ->
  lift (upd p f) w = Done (tt, set_raw (set_heap (<[p := f d]> (heap (raw w))) (raw w)) w).
Proof. intros E. exact (lift_done _ _ _ _ (upd_ok p f _ d E)). Qed.

Lemma lift_chan_done w p d : heap (raw w) !! p = Some d -> lift (chan p) w = Done (d, w).
Proof. intros E. rewrite (lift_done _ _ _ _ (chan_ok p _ d E)). now destruct w. Qed.

Lemma lift_chan_gone w p : heap (raw w) !! p = None -> lift (chan p) w = Fail UndefinedBehaviour.
Proof. intros E. unfold lift, chan. st_simpl. now rewrite E. Qed.

(** What a handler that closes the connection makes of the event. *)
Lemma after_close (m : ST W unit) {A} (k : unit -> ST W A) w p :
  (asserts_enabled = true -> m w = Fail AssertFailed) ->
  (asserts_enabled = false -> exists w', m w = Done (tt, w') /\ heap (raw w') !! p = None) ->
  (forall w', heap (raw w') !! p = None -> k tt w' = Fail UndefinedBehaviour) ->
  (u ← m; k u) w = Fail (if asserts_enabled then AssertFailed else UndefinedBehaviour).
Proof.
  intros Ha Hr Hk. destruct asserts_enabled.
  - apply bind_fail. now apply Ha.
  - destruct (Hr eq_refl) as (w' & E & Hh). rewrite (bind_done _ _ _ _ _ E). now apply Hk.
Qed.

(** The flag that [handleEvent] sets. *)
Lemma attached_eventHandling p d (c : CoroChannel member) l b : attached_inv tid p d c l ->
  attached_inv tid p (set_eventHandling b d) c (set_heap (<[p := set_eventHandling b d]> (heap l)) l).
Proof.
  intros A. constructor; try apply A; [|apply lookup_insert_eq].
  now apply (Inv_same_registration p l d); try apply A.
Qed.

(** The events that the poller reports. *)
Lemma attached_revents p d (c : CoroChannel member) l r : attached_inv tid p d c l ->
  attached_inv tid p (setRevents r d) c (set_heap (<[p := setRevents r d]> (heap l)) l).
Proof.
  intros A. constructor; try apply A; [|apply lookup_insert_eq].
  now apply (Inv_same_registration p l d); try apply A.
Qed.

(** A connected connection that uses its channel as [start] left it. *)
Record up (p : ptr) d w : Prop := {
  up_channel : channel_ (cc w) = Some p;
  up_attached : attached_inv tid p d (cc w) (raw w);
  up_registered : index_ d <> -1;
  up_ok : channel_ok (cc w) (ext w);
  up_connected : connected_ (ext w) = true
}.

Lemma up_close p d w : up p d w ->
  (asserts_enabled = true -> handleClose tid w = Fail AssertFailed) /\
  (asserts_enabled = false -> exists w', handleClose tid w = Done (tt, w') /\ heap (raw w') !! p = None).
Proof.
  intros [Hp A Hi _ Hc]. destruct (handleClose_cases w p d Hp A Hi Hc) as [Ha Hr]. split; [exact Ha|].
  intros Hb. destruct (Hr Hb) as (w' & E & Hh & _). now exists w'.
Qed.

(** The two handlers through which a connection ends. *)
Lemma close_lambda w : channel_ok (cc w) (ext w) ->
  run_lambda tid (run_member tid on_data) (Some call_handleClose) w = handleClose tid w.
Proof.
  intros Ch. cbn [run_lambda]. unfold CoroChannel.handleClose. rewrite bind_get.
  rewrite (proj1 (co_waiters _ _ Ch)), bind_ret_l, bind_get, (proj2 (proj2 (co_callbacks _ _ Ch))). reflexivity.
Qed.

Lemma eof_lambda w l : channel_ok (cc w) (ext w) -> reads (ext w) = Bytes [] :: l ->
  run_lambda tid (run_member tid on_data) (Some call_handleRead) w =
  handleClose tid (with_ext (set_reads l [] (ext w)) w).
Proof.
  intros Ch Hr. cbn [run_lambda]. unfold CoroChannel.handleRead. rewrite bind_get.
  rewrite (proj1 (co_waiters _ _ Ch)), (proj1 (co_callbacks _ _ Ch)). cbn [callback run_member].
  unfold onReadable. rewrite (bind_done _ _ _ _ _ (sys_read_cons w _ _ Hr)). cbn [cut bytes_of].
  now rewrite take_nil.
Qed.

(** no connection survives its end.  When the peer closes - a hang-up, or an
    end of file on a readable event - the handler of a connected connection
    disables its channel, and [CoroChannel::remove] disables it once more: in a
    debug build that fails an assertion of the poller.  In a release build the
    channel is removed and destroyed inside its own [handleEvent], which then
    reads the events of the destroyed object. *)
Theorem coro_close_breaks p d w : up p d w -> ends (revents_ d) (ext w) ->
  event tid on_data p w = Fail (if asserts_enabled then AssertFailed else UndefinedBehaviour).
Proof.
  intros [Hp A Hi Ch Hc] Hend. unfold event, CoroChannel.handleEvent, dispatch_event.
  pose proof (ai_heap _ _ _ _ _ A) as Eh. rewrite (bind_done _ _ _ _ _ (lift_upd_done (set_eventHandling true) w p d Eh)).
  pose proof (attached_eventHandling p d _ _ true A) as A1. set (d1 := set_eventHandling true d) in *.
  set (w1 := set_raw (set_heap (<[p := d1]> (heap (raw w))) (raw w)) w).
  assert (U1 : up p d1 w1) by now constructor.
  pose proof (lift_chan_done w1 p d1 (ai_heap _ _ _ _ _ A1)) as Ec. rewrite (bind_done _ _ _ _ _ Ec). cbv beta.
  destruct (ai_lambdas _ _ _ _ _ A1) as (Lr & _ & Lc & Le). change (revents_ d1) with (revents_ d).
  destruct Hend as [[Hh Hin]|[Hin [l Hr]]]; rewrite Hin.
  - rewrite Hh. cbn [andb negb when]. rewrite Lc. destruct (up_close _ _ _ U1) as [Ha Hb].
    pose proof (close_lambda w1 Ch) as El.
    apply (after_close _ _ w1 p); [now rewrite El|now rewrite El|].
    intros w' Hgone. apply bind_fail. now apply lift_chan_gone.
  - rewrite andb_false_r. cbn [when]. rewrite bind_ret_l. rewrite (bind_done _ _ _ _ _ Ec). cbv beta.
    assert (Ew : when (flag (revents_ d1) EPOLLERR) (run_lambda tid (run_member tid on_data) (errorCallback_ d1)) w1 = Done (tt, w1)).
    { rewrite Le. destruct (flag (revents_ d1) EPOLLERR); reflexivity. }
    rewrite (bind_done _ _ _ _ _ Ew), (bind_done _ _ _ _ _ Ec). cbv beta.
    assert (Hf : flag (revents_ d1) (Z.lor (Z.lor EPOLLIN EPOLLPRI) EPOLLRDHUP) = true).
    { change (revents_ d1) with (revents_ d). rewrite !flag_lor, Hin. reflexivity. }
    rewrite Hf, Lr. cbn [when]. pose proof (eof_lambda w1 l Ch Hr) as El.
    assert (U2 : up p d1 (with_ext (set_reads l [] (ext w1)) w1)) by (destruct U1 as [? ? ? [? ? ?] ?]; constructor; [done..|now constructor|done]).
    destruct (up_close _ _ _ U2) as [Ha Hb].
    apply (after_close _ _ w1 p); [now rewrite El|now rewrite El|].
    intros w' Hgone. apply bind_fail. now apply lift_chan_gone.
Qed.

End Closing.

(** ** The coroutine of a connection *)

Section Coroutine.
Context {K : Type} `{HK : EpollKernel K} `{HB : Build}.
Context (tid : Z).
Context {P V E : Type} (handler : P -> world K conn member -> act P V E * world K conn member) (first : P).
Abbreviation W := (world K conn member).
Implicit Types (w : W).
Abbreviation loop := (connectionLoop handler first).

(** The handler runs in [connectionLoop] as it does alone. *)
Lemma call_handler n void q envs w : Task.call loop n void (Handler q) envs w = Task.call handler n void q envs w.
Proof.
  revert void q envs w. induction n as [|n IH]; intros void q envs w; [done|].
  cbn [Task.call connectionLoop]. destruct (handler q w) as [[v| |e|vd c k|next] w1]; cbn [handler_act]; try done.
  - rewrite IH. destruct (Task.call handler n vd c envs w1) as [[[r envs1| |] w2]|]; first [done|apply IH].
  - destruct envs; first [done|apply IH].
Qed.

Lemma call_no_envs n void p w r envs' w' : Task.call loop n void p [] w = Some (Returns r envs', w') -> envs' = [].
Proof.
  revert void p w r envs' w'. induction n as [|n IH]; intros void p w r envs' w'; [done|]. cbn [Task.call].
  destruct (loop p w) as [[v| |e|vd c k|next] w1]; try done.
  - now intros [= _ <- _].
  - destruct void; [now intros [= _ <- _]|done].
  - now intros [= _ <- _].
  - destruct (Task.call loop n vd c [] w1) as [[[r1 envs1| |] w2]|] eqn:E1; try done.
    apply IH in E1 as ->.
    apply IH.
Qed.

(** The call that [connectionLoop] is, by the outcome of the handler. *)
Lemma call_loop n envs w res w1 : handler_ (ext w) = true -> Task.call handler n true first envs w = Some (res, w1) ->
  Task.call loop (S (S n)) true Loop envs w =
  match res with
  | Returns (inr _) envs' => Some (Returns (inr None) envs', end_of_loop w1)
  | Returns (inl e) envs' => Some (Returns (inl e) envs', w1)
  | other => Some (other, w1)
  end.
Proof.
  intros Hh E0. assert (E1 : Task.call loop (S n) true (Handler first) envs w = Some (res, w1)).
  { apply (call_more loop n); [now rewrite call_handler|lia]. }
  assert (E2 : Task.call loop (S (S n)) true Loop envs w =
    match Task.call loop (S n) true (Handler first) envs w with
    | Some (Returns r envs', w') => Task.call loop (S n) true (Resumed r) envs' w'
    | other => other
    end) by (unfold Task.call at 1; fold (Task.call loop); cbn [connectionLoop]; now rewrite Hh).
  rewrite E2, E1. now destruct res as [[e|o] envs'| |].
Qed.

(** [start], once the coroutine's run is known. *)
Lemma start_run n w1 s z s' : start_channel tid (Task.world s) = Done (tt, w1) ->
  drive loop n [] (fresh (dom (frames s)))
    {| frames := <[fresh (dom (frames s)) := live None true (At Loop)]> (frames s); Task.world := w1 |} = Done (Some z, s') ->
  start tid handler first n s = Done (Some (fresh (dom (frames s)), z), s').
Proof.
  intros E1 E2. unfold start. rewrite E1. cbn zeta.
  rewrite (bind_done _ _ _ _ _ (make_done true Loop (frames s) w1)).
  now rewrite (bind_done _ _ _ _ _ E2).
Qed.

(** [start] makes the channel wait for data and runs the coroutine up to the
    handler's first wait.  If the handler returns, the connection is marked as
    closed and the close callback called, once; if it waits, so does
    [connectionLoop]; if it throws, the exception stays in [connectionTask_]: the
    connection stays open, its close callback is never called. *)
Theorem coro_start_runs_handler n s w1 res w2 :
  start_channel tid (Task.world s) = Done (tt, w1) -> handler_ (ext w1) = true ->
  Task.call handler n true first [] w1 = Some (res, w2) ->
  exists k0, forall k, (k0 <= k)%nat ->
  match res with
  | Returns (inr _) _ => exists h s', start tid handler first k s = Done (Some (h, Finished []), s') /\
      Task.world s' = end_of_loop w2 /\ connected_ (ext (Task.world s')) = false /\
      closed (ext (Task.world s')) = (closed (ext w2) + if closeCallback_ (ext w2) then 1 else 0)%nat
  | Returns (inl e) _ => exists h s', start tid handler first k s = Done (Some (h, Finished []), s') /\
      Task.world s' = w2 /\ get_result h s' = Done (inl e, s')
  | Blocks => exists h l s', start tid handler first k s = Done (Some (h, Blocked l), s') /\ Task.world s' = w2 /\
      Task.done h s' = Done (false, s')
  | Undefined => start tid handler first k s = Fail UndefinedBehaviour
  end.
Proof.
  intros E1 Hh E2. pose proof (call_loop n [] w1 res w2 Hh E2) as Ec.
  destruct res as [[e|o] envs'| |].
  - pose proof (call_no_envs _ _ _ _ _ _ _ Ec) as ->. destruct (run_follows loop _ _ _ _ _ _ _ Ec) as [k0 Hf].
    exists (S k0). intros [|k] Hk; [lia|].
    pose proof (drive_followed loop _ k _ _ _ _ _ _ (frames s) Hf ltac:(lia)) as Hd. cbn [follows back_to dispatch] in Hd.
    eexists _, _. split; [exact (start_run _ _ _ _ _ E1 Hd)|]. split; [reflexivity|].
    apply (get_result_ended None _ true (inl e)); [apply lookup_insert_eq|exact I].
  - pose proof (call_no_envs _ _ _ _ _ _ _ Ec) as ->. destruct (run_follows loop _ _ _ _ _ _ _ Ec) as [k0 Hf].
    exists (S k0). intros [|k] Hk; [lia|].
    pose proof (drive_followed loop _ k _ _ _ _ _ _ (frames s) Hf ltac:(lia)) as Hd. cbn [follows back_to dispatch] in Hd.
    eexists _, _. split; [exact (start_run _ _ _ _ _ E1 Hd)|]. split; [reflexivity|]. split.
    + cbn. now destruct (closeCallback_ (ext w2)).
    + cbn. destruct (closeCallback_ (ext w2)); cbn; lia.
  - destruct (run_follows loop _ _ _ _ _ _ _ Ec) as [k0 Hf]. exists (S k0). intros [|k] Hk; [lia|].
    destruct (drive_followed loop _ k _ _ _ _ _ _ (frames s) Hf ltac:(lia)) as (l & fr & Hd & _ & a & Ea & Ha).
    eexists _, l, _. split; [exact (start_run _ _ _ _ _ E1 Hd)|]. split; [reflexivity|].
    rewrite (done_at _ _ _ _ Ea). now destruct a.
  - destruct (run_follows loop _ _ _ _ _ _ _ Ec) as [k0 Hf]. exists (S k0). intros [|k] Hk; [lia|].
    pose proof (drive_followed loop _ k _ _ _ _ _ _ (frames s) Hf ltac:(lia)) as Hd. cbn [follows] in Hd.
    unfold start. rewrite E1. cbn zeta. rewrite (bind_done _ _ _ _ _ (make_done true Loop (frames s) w1)).
    now apply bind_fail.
Qed.
End Coroutine.

(** ** Examples *)
Module Demo.
#[local] Existing Instance release_build.
Abbreviation kernel := (gmap Z epoll_event).

(** A raw loop without channels, and a connection on descriptor 5 whose peer sends
    three bytes and closes, and whose socket takes two bytes at first. *)
Definition bare_loop : loop_state kernel lambda := mkLoop 77 1 ∅ ∅ ∅ 16 false None [] ∅.

Definition empty_buffer : Buffer := mkBuffer (replicate 24 x00) 8 8.

Definition fresh_conn (rs : list read_answer) (ws : list write_answer) : conn :=
  {| connected_ := false; sending_ := false; inputBuffer_ := empty_buffer; outputBuffer_ := empty_buffer;
     handler_ := true; dataCallback_ := true; closeCallback_ := true; reads := rs; writes := ws; shut := false;
     wire := []; sent := []; received := []; closed := 0 |}.

Definition fresh_world (rs : list read_answer) (ws : list write_answer) : world kernel conn member :=
  {| raw := bare_loop; pending := []; cc := newCoroChannel 5; ext := fresh_conn rs ws |}.

Lemma empty_wf : Wf empty_buffer.
Proof. constructor; vm_compute; discriminate. Qed.

(** The connection after [start], echoing. *)
Lemma started_good rs ws : exists w, start_channel 1 (fresh_world rs ws) = Done (tt, w) /\ Good 1 w /\
  reading_ (cc w) = true /\ ext w = set_connected true (fresh_conn rs ws).
Proof.
  set (w0 := set_cc (CoroChannel.set_callbacks (Some call_onReadable) (Some call_onWritable) (Some call_close) (newCoroChannel 5))
    (with_ext (set_connected true (fresh_conn rs ws)) (fresh_world rs ws))).
  assert (C : CInv 1 w0) by (split; [done|]; now constructor).
  destruct (enable_ok 1 OEnableReading w0 (set_reading true) C ltac:(now intros [])) as (w & p & E & C' & Hc & _ & Hx).
  exists w. split_and!; [exact E| |now rewrite Hc|exact Hx].
  split; [exact C'|]. split; [rewrite Hc, Hx; now constructor|rewrite Hx; constructor; try apply empty_wf; done].
Qed.

Lemma started rs ws : Forall read_goes_on rs -> Forall write_goes_on ws ->
  exists w, start_channel 1 (fresh_world rs ws) = Done (tt, w) /\ Echoing 1 w.
Proof.
  intros Hr Hw. destruct (started_good rs ws) as (w & E & G & _ & Hx). exists w. split; [exact E|].
  split_and!; rewrite ?Hx; try done. split; [exact G|now rewrite Hx].
Qed.

Definition rs3 : list read_answer := [Bytes [x61; x62; x63]; ReadError EAGAIN].
Definition ws2 : list write_answer := [Took 2; WriteError EAGAIN; Took 9].

Lemma rs3_on : Forall read_goes_on rs3 /\ Forall write_goes_on ws2.
Proof. split; repeat constructor; try done; now intros e [= <-]. Qed.

Lemma echo_server_echoes_witness : exists w, start_channel 1 (fresh_world rs3 ws2) = Done (tt, w) /\
  runs (for_each [true; false; true; false] (fun e => happen 1 (echo 1) (if e then IsReadable else IsWritable))) w
    (fun _ w' => wire (ext w') ++ content (outputBuffer_ (ext w')) = received (ext w')).
Proof.
  destruct (started rs3 ws2 (proj1 rs3_on) (proj2 rs3_on)) as (w & E & G). exists w. split; [exact E|].
  eapply runs_weaken; [exact (echo_server_echoes 1 [true; false; true; false] w G)|]. now intros [] w' (_ & H & _).
Defined.

Lemma coro_stream_in_order_witness : exists w, start_channel 1 (fresh_world rs3 ws2) = Done (tt, w) /\
  runs (for_each [DoSend [x64]; IsReadable; IsWritable; DoShutdown; IsWritable] (happen 1 (mret tt))) w
    (fun _ w' => wire (ext w') ++ content (outputBuffer_ (ext w')) = sent (ext w')).
Proof.
  destruct (started rs3 ws2 (proj1 rs3_on) (proj2 rs3_on)) as (w & E & (G & _)). exists w. split; [exact E|].
  eapply runs_weaken; [apply (coro_stream_in_order 1 (mret tt) _ w)|].
  - intros w' G'. now apply runs_ret.
  - exact G.
  - repeat constructor; cbn; done.
  - now intros [] w' (_ & H & _).
Defined.

Lemma coro_shutdown_is_final_witness : exists w, start_channel 1 (fresh_world rs3 ws2) = Done (tt, w) /\
  runs (_ ← shutdown; for_each [IsReadable; IsWritable; DoSend [x65]] (happen 1 (mret tt))) w
    (fun _ w' => wire (ext w') = [] /\ closed (ext w') = 0%nat).
Proof.
  destruct (started rs3 ws2 (proj1 rs3_on) (proj2 rs3_on)) as (w & E & G). exists w. split; [exact E|].
  assert (Hw : wire (ext w) = [] /\ closed (ext w) = 0%nat).
  { revert E. vm_compute. now intros [= <-]. }
  eapply runs_weaken; [apply (coro_shutdown_is_final 1 (mret tt) [IsReadable; IsWritable; DoSend [x65]] w)|].
  - intros w' G' F'. now apply runs_ret.
  - apply G.
  - repeat constructor; cbn; done.
  - intros [] w' (_ & _ & H1 & H2). cbn in H1, H2. destruct Hw as [<- <-]. now split.
Defined.

(** What the poller reports for the channel at [p]. *)
Definition report (p : ptr) (r : Z) (w : world kernel conn member) : world kernel conn member :=
  match heap (raw w) !! p with
  | Some d => set_raw (set_heap (<[p := setRevents r d]> (heap (raw w))) (raw w)) w
  | None => w
  end.

Lemma report_up rs ws r : exists w p d, start_channel 1 (fresh_world rs ws) = Done (tt, w) /\
  up 1 p d (report p r w) /\ revents_ d = r /\ reads (ext (report p r w)) = rs.
Proof.
  destruct (started_good rs ws) as (w & E & (C & Ch & _) & Hrd & Hx). exists w. unfold CInv in C.
  destruct (channel_ (cc w)) as [p|] eqn:Ep; [|destruct C as (_ & D); destruct (de_flags _ _ _ D); congruence].
  destruct C as (_ & d & A). exists p, (setRevents r d).
  assert (Er : report p r w = set_raw (set_heap (<[p := setRevents r d]> (heap (raw w))) (raw w)) w)
    by (unfold report; now rewrite (ai_heap _ _ _ _ _ A)).
  rewrite Er. split_and!; [exact E| |done|cbn; now rewrite Hx].
  constructor; [exact Ep|exact (attached_revents 1 p d _ _ r A)| |exact Ch|cbn; now rewrite Hx].
  apply (ai_known _ _ _ _ _ (attached_revents 1 p d _ _ r A)). apply Z.eqb_neq. cbn. intros H0.
  pose proof (ai_read _ _ _ _ _ A) as Hre. unfold isReading in Hre. rewrite H0, Hrd in Hre. discriminate Hre.
Qed.

Lemma coro_close_breaks_witness : exists w p,
  start_channel 1 (fresh_world [Bytes []] []) = Done (tt, w) /\
  event 1 (echo 1) p (report p EPOLLIN w) = Fail UndefinedBehaviour.
Proof.
  destruct (report_up [Bytes []] [] EPOLLIN) as (w & p & d & E & U & Hr & Hrs).
  exists w, p. split; [exact E|]. apply (coro_close_breaks (HB := release_build) 1 (echo 1) p d _ U).
  right. rewrite Hr. split; [reflexivity|]. now exists [].
Defined.

(** A handler that returns at once, and one that throws. *)
Definition quick (fails : bool) (w : world kernel conn member) : act bool Z Z * world kernel conn member :=
  (if fails then raise 1 else flow_off, w).

Lemma coro_start_runs_handler_witness :
  (exists k0, forall k, (k0 <= k)%nat -> exists h s',
     start 1 quick false k {| Task.frames := ∅; Task.world := fresh_world rs3 ws2 |} = Done (Some (h, Finished []), s') /\
     connected_ (ext (Task.world s')) = false /\ closed (ext (Task.world s')) = 1%nat) /\
  (exists k0, forall k, (k0 <= k)%nat -> exists h s',
     start 1 quick true k {| Task.frames := ∅; Task.world := fresh_world rs3 ws2 |} = Done (Some (h, Finished []), s') /\
     connected_ (ext (Task.world s')) = true /\ closed (ext (Task.world s')) = 0%nat).
Proof.
  destruct (started_good rs3 ws2) as (w & E & _ & _ & Hx).
  set (s := {| Task.frames := ∅; Task.world := fresh_world rs3 ws2 |} : state (point (P := bool) (V := Z) (E := Z)) Z Z _).
  split.
  - destruct (coro_start_runs_handler 1 quick false 1 s w _ w E ltac:(now rewrite Hx) eq_refl) as (k0 & H).
    exists k0. intros k Hk. destruct (H k Hk) as (h & s' & Es & _ & Hc & Hcl). exists h, s'. rewrite Hx in Hcl. now split_and!.
  - destruct (coro_start_runs_handler 1 quick true 1 s w _ w E ltac:(now rewrite Hx) eq_refl) as (k0 & H).
    exists k0. intros k Hk. destruct (H k Hk) as (h & s' & Es & Hw & _). exists h, s'. rewrite Hw, Hx. now split_and!.
Defined.
End Demo.
