(* ===== verification/CoroTcpServer.v ===== *)
(** CoroTcpServer: [coro/CoroTcpServer.h], [coro/CoroTcpServer.cpp], on the sockets of
    Socket.v and the channel interface of ChannelApi.v.

    What the server needs of a connection is the class [CoroConn]; the one of
    CoroTcpConnection.v is an instance.  Who owns a connection object is explicit:
    the map, the frame of its suspended handler, a local variable. *)

From Stdlib Require Import ZArith Lia.
From S2P Require Import Prelude Buffer Poller ChannelApi Socket Acceptor TcpServer Task CoroChannel CoroTcpConnection.
Local Open Scope Z_scope.

(** A [CoroTcpConnection] as its server sees it: its construction with the setters
    (descriptor, addresses, name, whether a handler and a data callback are set),
    [start], what else happens to it - an event of its channel, the resumption of
    its coroutine -, how often it has called [closeCallback_], whether the frame of
    its handler, which holds a pointer to it, is suspended, and its destructor. *)
Class CoroConn (C Ev : Type) := {
  cn_new : Z -> sockaddr_in -> sockaddr_in -> string -> bool -> bool -> C;
  cn_start : ST C unit;
  cn_event : Ev -> ST C unit;
  cn_closed : C -> nat;
  cn_held : C -> bool;
  cn_destroy : ST C unit
}.

(** A connection object, [None] once it is destroyed; [gone]: it has called
    [removeConnection]. *)
Record object (C : Type) := { o_name : string; o_conn : option C; gone : bool }.
Arguments Build_object {C}. Arguments o_name {C}. Arguments o_conn {C}. Arguments gone {C}.

Record cserver (K L C : Type) := {
  kern : K;
  listenAddr_ : sockaddr_in;
  name_ : string;
  acceptFd_ : Z;
  handler_set : bool;                    (* handler_ *)
  data_set : bool;                       (* dataCallback_ *)
  acceptChannel_ : option L;
  connections_ : gmap string nat;
  objects : list (object C);
  started_ : Z;
  nextConnId_ : Z
}.
Arguments Build_cserver {K L C}. Arguments kern {K L C}. Arguments listenAddr_ {K L C}. Arguments name_ {K L C}.
Arguments acceptFd_ {K L C}. Arguments handler_set {K L C}. Arguments data_set {K L C}. Arguments acceptChannel_ {K L C}.
Arguments connections_ {K L C}. Arguments objects {K L C}. Arguments started_ {K L C}. Arguments nextConnId_ {K L C}.

Section Server.
Context {K L C Ev : Type} `{SockKernel K} `{ChannelApi L} `{CoroConn C Ev}.
(* accept4 with SOCK_NONBLOCK | SOCK_CLOEXEC; the CoroChannel of a descriptor *)
Context (sys_accept4 : Z -> K -> accept_result * K) (channel_of : Z -> L).
Abbreviation server := (cserver K L C).
Implicit Types (s : server).

Definition set_kern (k : K) s : server :=
  {| kern := k; listenAddr_ := listenAddr_ s; name_ := name_ s; acceptFd_ := acceptFd_ s; handler_set := handler_set s; data_set := data_set s;
     acceptChannel_ := acceptChannel_ s; connections_ := connections_ s; objects := objects s; started_ := started_ s; nextConnId_ := nextConnId_ s |}.
Definition set_acceptFd (fd : Z) s : server :=
  {| kern := kern s; listenAddr_ := listenAddr_ s; name_ := name_ s; acceptFd_ := fd; handler_set := handler_set s; data_set := data_set s;
     acceptChannel_ := acceptChannel_ s; connections_ := connections_ s; objects := objects s; started_ := started_ s; nextConnId_ := nextConnId_ s |}.
Definition set_channel (l : option L) s : server :=
  {| kern := kern s; listenAddr_ := listenAddr_ s; name_ := name_ s; acceptFd_ := acceptFd_ s; handler_set := handler_set s; data_set := data_set s;
     acceptChannel_ := l; connections_ := connections_ s; objects := objects s; started_ := started_ s; nextConnId_ := nextConnId_ s |}.
Definition set_connections (m : gmap string nat) s : server :=
  {| kern := kern s; listenAddr_ := listenAddr_ s; name_ := name_ s; acceptFd_ := acceptFd_ s; handler_set := handler_set s; data_set := data_set s;
     acceptChannel_ := acceptChannel_ s; connections_ := m; objects := objects s; started_ := started_ s; nextConnId_ := nextConnId_ s |}.
Definition set_objects (l : list (object C)) s : server :=
  {| kern := kern s; listenAddr_ := listenAddr_ s; name_ := name_ s; acceptFd_ := acceptFd_ s; handler_set := handler_set s; data_set := data_set s;
     acceptChannel_ := acceptChannel_ s; connections_ := connections_ s; objects := l; started_ := started_ s; nextConnId_ := nextConnId_ s |}.
Definition set_started (n : Z) s : server :=
  {| kern := kern s; listenAddr_ := listenAddr_ s; name_ := name_ s; acceptFd_ := acceptFd_ s; handler_set := handler_set s; data_set := data_set s;
     acceptChannel_ := acceptChannel_ s; connections_ := connections_ s; objects := objects s; started_ := n; nextConnId_ := nextConnId_ s |}.
Definition set_nextId (n : Z) s : server :=
  {| kern := kern s; listenAddr_ := listenAddr_ s; name_ := name_ s; acceptFd_ := acceptFd_ s; handler_set := handler_set s; data_set := data_set s;
     acceptChannel_ := acceptChannel_ s; connections_ := connections_ s; objects := objects s; started_ := started_ s; nextConnId_ := n |}.

(** The constructor, and the two setters. *)
Definition newServer (k : K) (listenAddr : sockaddr_in) (name : string) (handler data : bool) : server :=
  {| kern := k; listenAddr_ := listenAddr; name_ := name; acceptFd_ := -1; handler_set := handler; data_set := data;
     acceptChannel_ := None; connections_ := ∅; objects := []; started_ := 0; nextConnId_ := 1 |}.

Definition on_kern {A} (m : ST K A) : ST server A := fun s =>
  match m (kern s) with Done (x, k) => Done (x, set_kern k s) | Fail f => Fail f end.
Definition on_channel (m : ST L unit) : ST server unit := fun s =>
  match acceptChannel_ s with
  | None => Fail UndefinedBehaviour
  | Some l => match m l with Done (_, l') => Done (tt, set_channel (Some l') s) | Fail f => Fail f end
  end.

(** A failed call logs at FATAL, which aborts. *)
Definition or_abort (r : Z) : ST server unit := if r <? 0 then fail Aborted else mret tt.

Definition start : ST server unit :=
  s ← get;
  _ ← modify (set_started (started_ s + 1));
  if 0 <? started_ s then mret tt
  else
    fd ← on_kern (Socket.call (sys_socket true true));
    _ ← modify (set_acceptFd fd);
    _ ← or_abort fd;
    _ ← on_kern (setReuseAddr fd true);
    r ← on_kern (Socket.call (sys_bind fd (listenAddr_ s)));
    _ ← or_abort r;
    r ← on_kern (Socket.call (sys_listen fd));
    _ ← or_abort r;
    _ ← modify (set_channel (Some (channel_of fd)));
    on_channel (ch_switch OEnableReading).

(** The object of a connection that is alive. *)
Definition object_at (c : nat) : ST server (object C) := s ← get; deref (objects s !! c).
Definition set_object (c : nat) (o : object C) : ST server unit := modify (fun s => set_objects (<[c := o]> (objects s)) s).

Definition removeConnection (c : nat) : ST server unit :=
  o ← object_at c;
  _ ← set_object c {| o_name := o_name o; o_conn := o_conn o; gone := true |};
  modify (fun s => set_connections (delete (o_name o) (connections_ s)) s).

(** A member function of the connection: it calls the server when it closes. *)
Definition on_conn (c : nat) (m : ST C unit) : ST server unit :=
  o ← object_at c;
  x ← deref (o_conn o);
  match m x with
  | Fail f => fail f
  | Done (_, x') =>
      _ ← set_object c {| o_name := o_name o; o_conn := Some x'; gone := gone o |};
      when (cn_closed x <? cn_closed x')%nat (removeConnection c)
  end.

(** Somebody owns the object besides local variables. *)
Definition owned s (c : nat) (o : object C) : bool :=
  bool_decide (connections_ s !! o_name o = Some c) || match o_conn o with Some x => cn_held x | None => false end.

(** The last local pointer to the connection goes. *)
Definition drop_local (c : nat) : ST server unit :=
  o ← object_at c; s ← get;
  if owned s c o then mret tt
  else
    x ← deref (o_conn o);
    match cn_destroy x with
    | Fail f => fail f
    | Done _ => set_object c {| o_name := o_name o; o_conn := None; gone := gone o |}
    end.

Definition onAccept : ST server unit :=
  s ← get;
  r ← on_kern (Socket.call (sys_accept4 (acceptFd_ s)));
  match r with
  | AcceptError _ => mret tt
  | Accepted connfd peer =>
      localAddr ← on_kern (getLocalAddr connfd);
      let name := connName (name_ s) (nextConnId_ s) in
      _ ← (if nextConnId_ s =? INT_MAX then fail UndefinedBehaviour else modify (set_nextId (nextConnId_ s + 1)));
      let c := length (objects s) in
      let x := cn_new connfd localAddr peer name (handler_set s) (data_set s) in
      _ ← modify (fun s => set_objects (objects s ++ [{| o_name := name; o_conn := Some x; gone := false |}]) s);
      _ ← modify (fun s => set_connections (<[name := c]> (connections_ s)) s);
      _ ← on_conn c cn_start;
      drop_local c
  end.

(** Something happens to a connection; its own code runs, so that nothing else than
    its owners keeps it alive. *)
Definition happens (c : nat) (e : Ev) : ST server unit :=
  _ ← on_conn c (cn_event e);
  o ← object_at c; s ← get;
  if owned s c o then mret tt else fail UndefinedBehaviour.

(** The destructor, with those of the map and the channel. *)
Definition destroyServer : ST server unit :=
  s ← get;
  _ ← when (0 <=? acceptFd_ s) (on_kern (closeSocket (acceptFd_ s)));
  _ ← for_each (map_to_list (connections_ s)) (fun e =>
        _ ← modify (fun s => set_connections (delete e.1 (connections_ s)) s); drop_local e.2);
  when (if acceptChannel_ s is Some _ then true else false)
    (_ ← on_channel (ch_switch ODisableAll); _ ← on_channel ch_remove; modify (set_channel None)).
End Server.

(** ** The invariant *)

Section Inv.
Context {K L C Ev : Type} `{HS : SockKernel K} `{HCh : ChannelApi L} `{HC : CoroConn C Ev}.
Context (sys_accept4 : Z -> K -> accept_result * K) (channel_of : Z -> L).
Abbreviation server := (cserver K L C).
Implicit Types (s : server) (o : object C) (x : C).

(** [h]: an object that a local variable may own. *)
Record SInv_but (h : option nat) s : Prop := {
  sv_id : nextConnId_ s = 1 + Z.of_nat (length (objects s));
  sv_name c o : objects s !! c = Some o -> o_name o = connName (name_ s) (1 + Z.of_nat c);
  sv_map n c : connections_ s !! n = Some c <-> exists o, objects s !! c = Some o /\ o_name o = n /\ gone o = false;
  sv_alive c o : objects s !! c = Some o -> gone o = false -> o_conn o <> None;
  sv_owned c o x : objects s !! c = Some o -> o_conn o = Some x -> h <> Some c -> gone o = true -> cn_held x = true
}.
Abbreviation SInv := (SInv_but None).

Definition after_conn (c : nat) o x x' s : server :=
  let closes := (cn_closed x <? cn_closed x')%nat in
  set_connections (if closes then delete (o_name o) (connections_ s) else connections_ s)
    (set_objects (<[c := {| o_name := o_name o; o_conn := Some x'; gone := gone o || closes |}]> (objects s)) s).

Lemma object_at_run c s o : objects s !! c = Some o -> object_at c s = Done (o, s).
Proof. intros Eo. unfold object_at. st_get. now rewrite Eo. Qed.

Lemma object_at_inv c s o s' : object_at c s = Done (o, s') -> objects s !! c = Some o /\ s' = s.
Proof. unfold object_at. st_get. destruct (objects s !! c); [now intros [= -> ->]|done]. Qed.

Lemma on_conn_run c (m : ST C unit) s o x x' : objects s !! c = Some o -> o_conn o = Some x -> m x = Done (tt, x') ->
  on_conn c m s = Done (tt, after_conn c o x x' s).
Proof.
  intros Eo Ex Em. unfold on_conn. rewrite (bind_done _ _ _ _ _ (object_at_run _ _ _ Eo)), Ex. cbn [deref]. rewrite bind_ret_l, Em.
  unfold set_object. st_modify. unfold after_conn. destruct (cn_closed x <? cn_closed x')%nat; cbn [when].
  - unfold removeConnection. erewrite bind_done by (apply object_at_run; apply list_lookup_insert_eq; now apply lookup_lt_Some in Eo).
    unfold set_object. st_modify. unfold modify. cbn. now rewrite list_insert_insert_eq, orb_true_r.
  - rewrite orb_false_r. now destruct s.
Qed.

Lemma on_conn_inv c (m : ST C unit) s s' : on_conn c m s = Done (tt, s') -> exists o x x',
  objects s !! c = Some o /\ o_conn o = Some x /\ m x = Done (tt, x') /\ s' = after_conn c o x x' s.
Proof.
  intros E. pose proof E as E0. unfold on_conn in E. apply bind_inv in E as (o & s1 & [Eo ->]%object_at_inv & E).
  destruct (o_conn o) as [x|] eqn:Ex; [|done]. cbn [deref] in E. rewrite bind_ret_l in E.
  destruct (m x) as [[[] x']|f] eqn:Em; [|done]. exists o, x, x'. split_and!; try done.
  rewrite (on_conn_run c m s o x x' Eo Ex Em) in E0. now injection E0.
Qed.

Lemma name_unique h s c d o o' : SInv_but h s -> objects s !! c = Some o -> objects s !! d = Some o' -> o_name o = o_name o' -> c = d.
Proof.
  intros I Ec Ed E. rewrite (sv_name _ _ I _ _ Ec), (sv_name _ _ I _ _ Ed) in E. apply (inj (connName (name_ s))) in E. lia.
Qed.

Lemma after_conn_inv h c o x x' s : SInv_but h s -> h = None \/ h = Some c -> objects s !! c = Some o -> o_conn o = Some x ->
  SInv_but (Some c) (after_conn c o x x' s).
Proof.
  intros I Hh Eo Ex.
  assert (Hl : (c < length (objects s))%nat) by now apply lookup_lt_Some in Eo.
  unfold after_conn. set (closes := (cn_closed x <? cn_closed x')%nat). clearbody closes.
  assert (Hlook : forall d o', <[c := {| o_name := o_name o; o_conn := Some x'; gone := gone o || closes |}]> (objects s) !! d = Some o' ->
    d = c /\ o' = {| o_name := o_name o; o_conn := Some x'; gone := gone o || closes |} \/ d <> c /\ objects s !! d = Some o').
  { intros d o' Hd. apply list_lookup_insert_Some in Hd as [(-> & <- & _)|[Hne Hd]]; [now left|right; now split]. }
  constructor; cbn.
  - rewrite length_insert. apply I.
  - intros d o' [[-> ->]|[_ Hd]]%Hlook; [exact (sv_name _ _ I _ _ Eo)|exact (sv_name _ _ I _ _ Hd)].
  - intros n d. assert (Hold : connections_ s !! n = Some d -> exists o', objects s !! d = Some o' /\ o_name o' = n /\ gone o' = false) by apply I.
    destruct (decide (d = c)) as [->|Hne].
    + rewrite list_lookup_insert_eq by done. split.
      * intros Hn. assert (Hc : closes = false /\ connections_ s !! n = Some c).
        { destruct closes; [|split; [done|exact Hn]]. apply lookup_delete_Some in Hn as [Hx Hn]. destruct (Hold Hn) as (o' & Ho' & <- & _). congruence. }
        destruct Hc as [Hc Hn']. destruct (Hold Hn') as (o' & Ho' & En & Hg). assert (o' = o) as -> by congruence.
        eexists. split; [reflexivity|]. cbn. now rewrite Hg, Hc.
      * intros (o' & [= <-] & <- & Hg). cbn in *. apply orb_false_iff in Hg as [Hg ->]. apply (sv_map _ _ I). eauto.
    + rewrite list_lookup_insert_ne by done. rewrite <-(sv_map _ _ I). destruct closes; [|done].
      rewrite lookup_delete_Some. split; [tauto|]. intros Hn. split; [|done]. intros En. subst n.
      destruct (Hold Hn) as (o' & Ho' & En & _). destruct Hne. exact (name_unique _ _ _ _ _ _ I Ho' Eo En).
  - intros d o' [[-> ->]|[_ Hd]]%Hlook; [done|exact (sv_alive _ _ I _ _ Hd)].
  - intros d o' y [[-> ->]|[Hne Hd]]%Hlook; [done|]. intros Ey _. apply (sv_owned _ _ I _ _ _ Hd Ey).
    destruct Hh as [->| ->]; congruence.
Qed.

(** The local pointer goes. *)
Lemma owned_inv c s o : SInv_but (Some c) s -> objects s !! c = Some o -> owned s c o = true -> SInv s.
Proof.
  intros I Eo Ho. constructor; try apply I. intros d o' x Ed Ex _ Hg.
  destruct (decide (d = c)) as [->|Hne]; [|exact (sv_owned _ _ I _ _ _ Ed Ex ltac:(congruence) Hg)].
  assert (o' = o) as -> by congruence. unfold owned in Ho. rewrite Ex in Ho. apply orb_true_iff in Ho as [Ho|Ho]; [|done].
  apply bool_decide_eq_true_1, (sv_map _ _ I) in Ho as (o' & Ho' & _ & Hg'). congruence.
Qed.

Lemma drop_local_inv c s s' : SInv_but (Some c) s -> drop_local c s = Done (tt, s') -> SInv s'.
Proof.
  intros I E. unfold drop_local in E. apply bind_inv in E as (o & s1 & [Eo ->]%object_at_inv & E). rewrite bind_get in E.
  destruct (owned s c o) eqn:Ho; [injection E as <-; exact (owned_inv c s o I Eo Ho)|].
  destruct (o_conn o) as [x|] eqn:Ex; [|done]. cbn [deref] in E. rewrite bind_ret_l in E.
  destruct (cn_destroy x) as [[]|]; [|done]. injection E as <-.
  assert (Hg : gone o = true).
  { apply orb_false_iff in Ho as [Ho _]. apply bool_decide_eq_false_1 in Ho. destruct (gone o) eqn:Hg; [done|].
    destruct Ho. apply (sv_map _ _ I). eauto. }
  assert (Hlook : forall d o', <[c := {| o_name := o_name o; o_conn := None; gone := gone o |}]> (objects s) !! d = Some o' ->
    d = c /\ o' = {| o_name := o_name o; o_conn := None; gone := gone o |} \/ d <> c /\ objects s !! d = Some o').
  { intros d o' Hd. apply list_lookup_insert_Some in Hd as [(-> & <- & _)|[Hne Hd]]; [now left|right; now split]. }
  constructor; cbn.
  - rewrite length_insert. apply I.
  - intros d o' [[-> ->]|[_ Hd]]%Hlook; [exact (sv_name _ _ I _ _ Eo)|exact (sv_name _ _ I _ _ Hd)].
  - intros n d. rewrite (sv_map _ _ I). destruct (decide (d = c)) as [->|Hne].
    + rewrite list_lookup_insert_eq by now apply lookup_lt_Some in Eo.
      split; intros (o' & Ho' & <- & Hg'); [congruence|]. injection Ho' as <-. cbn in Hg'. congruence.
    + now rewrite list_lookup_insert_ne by done.
  - intros d o' [[-> ->]|[_ Hd]]%Hlook; [cbn; congruence|exact (sv_alive _ _ I _ _ Hd)].
  - intros d o' y [[-> ->]|[Hne Hd]]%Hlook; [done|]. intros Ey _. apply (sv_owned _ _ I _ _ _ Hd Ey). congruence.
Qed.
Lemma happens_inv c e s s' : SInv s -> happens c e s = Done (tt, s') -> SInv s'.
Proof.
  intros I E. unfold happens in E. apply bind_inv in E as ([] & s1 & (o & x & x' & Eo & Ex & _ & ->)%on_conn_inv & E).
  pose proof (after_conn_inv None c o x x' s I (or_introl eq_refl) Eo Ex) as I1.
  apply bind_inv in E as (o1 & s2 & [Eo1 ->]%object_at_inv & E). rewrite bind_get in E.
  destruct (owned _ c o1) eqn:Ho; [|done]. injection E as <-. exact (owned_inv c _ o1 I1 Eo1 Ho).
Qed.

Lemma SInv_kern h k s : SInv_but h s -> SInv_but h (set_kern k s).
Proof. intros []. now constructor. Qed.

(** The new connection in the map. *)
Definition with_new (name : string) x s : server :=
  set_connections (<[name := length (objects s)]> (connections_ s))
    (set_objects (objects s ++ [{| o_name := name; o_conn := Some x; gone := false |}]) (set_nextId (nextConnId_ s + 1) s)).

Lemma with_new_inv x s : SInv s -> SInv_but (Some (length (objects s))) (with_new (connName (name_ s) (nextConnId_ s)) x s).
Proof.
  intros I. set (name := connName (name_ s) (nextConnId_ s)). set (o := {| o_name := name; o_conn := Some x; gone := false |}).
  assert (Hlook : forall d o', (objects s ++ [o]) !! d = Some o' -> d = length (objects s) /\ o' = o \/ objects s !! d = Some o').
  { intros d o' [Hd|[Hd Hx]]%lookup_app_Some; [now right|left]. apply list_lookup_singleton_Some in Hx as [Hd' <-]. split; [lia|done]. }
  assert (Hfresh : forall d o', objects s !! d = Some o' -> o_name o' <> name).
  { intros d o' Hd En. rewrite (sv_name _ _ I _ _ Hd) in En. apply (inj (connName (name_ s))) in En.
    rewrite (sv_id _ _ I) in En. apply lookup_lt_Some in Hd. lia. }
  constructor; cbn.
  - rewrite length_app, (sv_id _ _ I). cbn. lia.
  - intros d o' [[-> ->]|Hd]%Hlook; [|exact (sv_name _ _ I _ _ Hd)]. cbn. unfold name. now rewrite (sv_id _ _ I).
  - intros n d. rewrite lookup_insert_Some. split.
    + intros [[<- <-]|[Hn Hd]]; [exists o; split; [now rewrite list_lookup_middle|done]|].
      apply (sv_map _ _ I) in Hd as (o' & Ho' & En & Hg). exists o'. split; [|done]. now apply lookup_app_l_Some.
    + intros (o' & Hd & <- & Hg). apply Hlook in Hd as [[-> ->]|Hd]; [now left|right].
      split; [intros En; exact (Hfresh _ _ Hd (eq_sym En))|]. apply (sv_map _ _ I). eauto.
  - intros d o' [[-> ->]|Hd]%Hlook; [done|exact (sv_alive _ _ I _ _ Hd)].
  - intros d o' y [[-> ->]|Hd]%Hlook; [done|]. intros Ey _. exact (sv_owned _ _ I _ _ _ Hd Ey ltac:(done)).
Qed.

Lemma onAccept_inv s s' : SInv s -> onAccept sys_accept4 s = Done (tt, s') -> SInv s'.
Proof.
  intros I E. unfold onAccept in E. rewrite bind_get in E.
  apply bind_inv in E as (r & s1 & E1 & E). unfold on_kern, Socket.call in E1.
  destruct (sys_accept4 (acceptFd_ s) (kern s)) as [r0 k0]. injection E1 as <- <-.
  destruct r0 as [connfd peer|err]; [|injection E as <-; now apply SInv_kern].
  set (s1 := set_kern _ s) in *. assert (I1 : SInv s1) by now apply SInv_kern.
  apply bind_inv in E as (local & s2 & E2 & E). injection E2 as <- <-.
  set (s2 := set_kern _ s1) in *. assert (I2 : SInv s2) by now apply SInv_kern.
  destruct (Z.eqb_spec (nextConnId_ s) INT_MAX); [done|].
  rewrite !bind_modify in E.
  apply bind_inv in E as ([] & s3 & (o & y & y' & Eo & Ey & _ & ->)%on_conn_inv & E).
  pose proof (after_conn_inv (Some (length (objects s))) _ o y y' _ (with_new_inv _ s2 I2) (or_intror eq_refl) Eo Ey) as I3.
  exact (drop_local_inv _ _ _ I3 E).
Qed.
(** ** Theorems *)

Inductive step : server -> server -> Prop :=
  | step_accept s s' : onAccept sys_accept4 s = Done (tt, s') -> step s s'
  | step_happens c e s s' : happens c e s = Done (tt, s') -> step s s'.

(** A server that has not accepted anybody. *)
Definition unused s : Prop := connections_ s = ∅ /\ objects s = [] /\ nextConnId_ s = 1.

Definition reachable s : Prop := exists s0, unused s0 /\ rtc step s0 s.

Lemma coro_SInv_reachable s : reachable s -> SInv s.
Proof.
  intros (s0 & (Hm & Ho & Hn) & Hr). assert (I : SInv s0).
  { constructor; rewrite ?Hm, ?Ho, ?Hn; try done. intros n c. rewrite lookup_empty. split; [done|]. now intros (o & ? & _). }
  clear Hm Ho Hn. induction Hr as [s|s s1 s2 Hst _ IH]; [exact I|]. apply IH.
  destruct Hst; eauto using onAccept_inv, happens_inv.
Qed.

(** C29: whatever clients come and whatever happens to the connections: the map of
    the server holds, under names that all differ, exactly the connections that
    have not reported their end, and each of them is alive; and an object outside
    the map that is still alive is so for the frame of its suspended handler. *)
Theorem coro_server_tracks s : reachable s ->
  (forall n c, connections_ s !! n = Some c <-> exists o, objects s !! c = Some o /\ o_name o = n /\ gone o = false) /\
  (forall c o, objects s !! c = Some o -> gone o = false -> exists x, o_conn o = Some x) /\
  (forall c d o o', objects s !! c = Some o -> objects s !! d = Some o' -> o_name o = o_name o' -> c = d) /\
  (forall c o x, objects s !! c = Some o -> o_conn o = Some x -> gone o = true -> cn_held x = true).
Proof.
  intros I%coro_SInv_reachable. split_and!.
  - apply I.
  - intros c o Eo Hg. destruct (o_conn o) eqn:Ex; [eauto|]. destruct (sv_alive _ _ I _ _ Eo Hg Ex).
  - intros c d o o'. apply (name_unique _ _ _ _ _ _ I).
  - intros c o x Eo Ex Hg. exact (sv_owned _ _ I _ _ _ Eo Ex ltac:(done) Hg).
Qed.

(** The destructor leaves alone what is not in the map. *)
Lemma drop_others c d s s' : drop_local c s = Done (tt, s') -> c <> d -> objects s' !! d = objects s !! d.
Proof.
  intros E Hne. unfold drop_local in E. apply bind_inv in E as (o & s1 & [Eo ->]%object_at_inv & E). rewrite bind_get in E.
  destruct (owned s c o); [now injection E as <-|]. destruct (o_conn o) as [x|]; [|done]. cbn [deref] in E. rewrite bind_ret_l in E.
  destruct (cn_destroy x) as [[]|]; [|done]. injection E as <-. cbn. now rewrite list_lookup_insert_ne.
Qed.

Lemma drop_all_others (l : list (string * nat)) d s s' : d ∉ l.*2 ->
  for_each l (fun e => _ ← modify (fun s => set_connections (delete e.1 (connections_ s)) s); drop_local e.2) s = Done (tt, s') ->
  objects s' !! d = objects s !! d.
Proof.
  revert s. induction l as [|e l IH]; intros s Hd E; [now injection E as <-|].
  cbn [for_each] in E. apply not_elem_of_cons in Hd as [Hne Hd]. rewrite bind_assoc, bind_modify in E.
  apply bind_inv in E as ([] & s1 & E1 & E). rewrite (IH s1 Hd E). exact (drop_others _ _ _ _ E1 (fun H => Hne (eq_sym H))).
Qed.

Lemma on_channel_objects (m : ST L unit) s s' : on_channel m s = Done (tt, s') -> objects s' = objects s.
Proof. unfold on_channel. destruct (acceptChannel_ s); [|done]. destruct (m l) as [[]|]; [|done]. now intros [= <-]. Qed.

Lemma destroyServer_keeps c s s' : SInv s -> destroyServer s = Done (tt, s') -> (forall n, connections_ s !! n <> Some c) ->
  objects s' !! c = objects s !! c.
Proof.
  intros I E Hc. unfold destroyServer in E. rewrite bind_get in E. apply bind_inv in E as ([] & s1 & E1 & E).
  assert (H1 : objects s1 = objects s).
  { destruct (0 <=? acceptFd_ s); cbn [when] in E1; [|now injection E1 as <-]. unfold on_kern in E1.
    destruct (closeSocket _ _) as [[]|]; [|done]. now injection E1 as _ <-. }
  apply bind_inv in E as ([] & s2 & E2 & E). rewrite <-H1, <-(drop_all_others (map_to_list (connections_ s)) c s1 s2); [|clear E E1|exact E2].
  - destruct (acceptChannel_ s); cbn [when] in E; [|now injection E as <-].
    apply bind_inv in E as ([] & s3 & E3%on_channel_objects & E). apply bind_inv in E as ([] & s4 & E4%on_channel_objects & E).
    injection E as <-. cbn. congruence.
  - intros ([n c'] & -> & Hin)%list_elem_of_fmap. apply elem_of_map_to_list in Hin. now apply (Hc n).
Qed.

(** no end of a connection is handled well.  When a connection in the map
    reports its end while its own code runs on an event: if the frame of its
    handler is gone, the map was its last owner, and the object - with the
    coroutine that is running - is destroyed under its own code; if the frame is
    suspended, the connection leaves the map but is owned by a frame that it owns
    itself: not even the destructor of the server frees it. *)
Theorem coro_connection_ends c e x x' s : reachable s ->
  (exists o, objects s !! c = Some o /\ o_conn o = Some x /\ gone o = false) -> cn_event e x = Done (tt, x') ->
  (cn_closed x < cn_closed x')%nat ->
  (cn_held x' = false -> happens c e s = Fail UndefinedBehaviour) /\
  (cn_held x' = true -> exists s' o', happens c e s = Done (tt, s') /\
     (forall n, connections_ s' !! n <> Some c) /\ objects s' !! c = Some o' /\ o_conn o' = Some x' /\
     forall s'', destroyServer s' = Done (tt, s'') -> objects s'' !! c = Some o').
Proof.
  intros Hr (o & Eo & Ex & Hg) Ee Hlt. pose proof (coro_SInv_reachable s Hr) as I.
  pose proof (on_conn_run c (cn_event e) s o x x' Eo Ex Ee) as E1. set (s1 := after_conn c o x x' s) in *.
  set (o' := {| o_name := o_name o; o_conn := Some x'; gone := true |}).
  assert (Hcl : (cn_closed x <? cn_closed x')%nat = true) by now apply Nat.ltb_lt.
  assert (Eo1 : objects s1 !! c = Some o').
  { unfold s1, after_conn. rewrite Hcl, orb_true_r. apply list_lookup_insert_eq. now apply lookup_lt_Some in Eo. }
  assert (Hc1 : connections_ s1 = delete (o_name o) (connections_ s)) by (unfold s1, after_conn; now rewrite Hcl).
  assert (Hown : owned s1 c o' = cn_held x').
  { unfold owned. rewrite Hc1. cbn [o_name o_conn o']. rewrite lookup_delete_eq. now rewrite bool_decide_false by done. }
  unfold happens. split; intros Hh.
  - rewrite (bind_done _ _ _ _ _ E1), (bind_done _ _ _ _ _ (object_at_run _ _ _ Eo1)), bind_get. now rewrite Hown, Hh.
  - exists s1, o'. rewrite (bind_done _ _ _ _ _ E1), (bind_done _ _ _ _ _ (object_at_run _ _ _ Eo1)), bind_get, Hown, Hh.
    assert (Hn : forall n, connections_ s1 !! n <> Some c).
    { intros n. rewrite Hc1, lookup_delete_Some. intros [Hne Hx]. apply (sv_map _ _ I) in Hx as (o2 & Ho2 & En & _). congruence. }
    split_and!; [done|exact Hn|exact Eo1|done|]. intros s'' Ed. rewrite <-Eo1. apply (destroyServer_keeps c s1 s''); [|exact Ed|exact Hn].
    apply (happens_inv c e s); [exact I|]. unfold happens.
    rewrite (bind_done _ _ _ _ _ E1), (bind_done _ _ _ _ _ (object_at_run _ _ _ Eo1)), bind_get. now rewrite Hown, Hh.
Qed.
End Inv.

(** ** The connections of CoroTcpConnection.v *)

Section Instance.
Context {K P V E : Type} `{EpollKernel K} `{Build}.
(* the loop a connection finds; the handler, and a bound on its transfers of
   control; the data callback *)
Context (tid : Z) (base : loop_state K lambda) (first : P).
Context (handler : P -> world K conn member -> act P V E * world K conn member) (fuel : nat) (on_data : ST (world K conn member) unit).
Abbreviation machine := (Task.state (point (P := P) (V := V) (E := E)) V E (world K conn member)).

(** The connection, with the coroutines it runs, and [connectionTask_]. *)
Record cconn := { coros : machine; task : option Z }.

(** The poller reports events, and the kernel has these answers for [read] and
    [write]; a coroutine is resumed. *)
Inductive happening :=
  | Reported (revents : Z) (rs : list read_answer) (ws : list write_answer)
  | ResumedAt (h : Z).

Definition on_world (m : ST (world K conn member) unit) : ST cconn unit := fun x =>
  match m (Task.world (coros x)) with
  | Done (_, w) => Done (tt, {| coros := {| frames := frames (coros x); Task.world := w |}; task := task x |})
  | Fail f => Fail f
  end.

Definition report (r : Z) (rs : list read_answer) (ws : list write_answer) : ST (world K conn member) unit :=
  w ← get; p ← deref (channel_ (cc w));
  _ ← modify (fun w => with_ext {| connected_ := connected_ (ext w); sending_ := sending_ (ext w); inputBuffer_ := inputBuffer_ (ext w);
        outputBuffer_ := outputBuffer_ (ext w); handler_ := handler_ (ext w); dataCallback_ := dataCallback_ (ext w);
        closeCallback_ := closeCallback_ (ext w); reads := rs; writes := ws; shut := shut (ext w); wire := wire (ext w);
        sent := sent (ext w); received := received (ext w); closed := closed (ext w) |} w);
  _ ← lift (upd p (setRevents r));
  event tid on_data p.

(** A new connection; its buffers hold 1024 bytes behind the 8 reserved ones. *)
Definition new_conn (fd : Z) (localAddr peerAddr : sockaddr_in) (name : string) (h d : bool) : cconn :=
  let b := mkBuffer (replicate 1032 Byte.x00) 8 8 in
  {| coros := {| frames := ∅; Task.world := {| raw := base; pending := []; cc := newCoroChannel fd;
       ext := {| connected_ := false; sending_ := false; inputBuffer_ := b; outputBuffer_ := b; handler_ := h; dataCallback_ := d;
                 closeCallback_ := true; reads := []; writes := []; shut := false; wire := []; sent := []; received := []; closed := 0 |} |} |};
     task := None |}.

Definition start_conn : ST cconn unit := fun x =>
  match CoroTcpConnection.start tid handler first fuel (coros x) with
  | Done (r, s) => Done (tt, {| coros := s; task := fst <$> r |})
  | Fail f => Fail f
  end.

Definition event_conn (e : happening) : ST cconn unit :=
  match e with
  | Reported r rs ws => on_world (report r rs ws)
  | ResumedAt h => fun x =>
      match drive (connectionLoop handler first) fuel [] h (coros x) with
      | Done (_, s) => Done (tt, {| coros := s; task := task x |})
      | Fail f => Fail f
      end
  end.

(** [connectionLoop] awaits the task of the handler. *)
Definition held_conn (x : cconn) : bool :=
  match f ← task x; frames (coros x) !! f with Some f => if at_ f is Awaiting _ _ then true else false | None => false end.

Definition destroy_conn : ST cconn unit := fun x =>
  match on_world (CoroTcpConnection.destructor tid) x with
  | Done (_, x') => match Task.destroy (task x') (coros x') with
                    | Done (t, s) => Done (tt, {| coros := s; task := t |})
                    | Fail f => Fail f
                    end
  | Fail f => Fail f
  end.

#[local] Instance coro_conn : CoroConn cconn happening := {
  cn_new := new_conn;
  cn_start := start_conn;
  cn_event := event_conn;
  cn_closed x := closed (ext (Task.world (coros x)));
  cn_held := held_conn;
  cn_destroy := destroy_conn
}.
End Instance.

(** ** Examples *)
Module Demo.
#[local] Existing Instance release_build.
#[local] Existing Instance Acceptor.Demo.demo_kernel.
#[local] Existing Instance Acceptor.Demo.flag_channel.

(** A handler that waits once and returns. *)
Definition waits_once (p : bool) (w : world (gmap Z epoll_event) conn member) : act bool Z Z * world (gmap Z epoll_event) conn member :=
  (if p then flow_off else co_await true, w).

Definition bare_loop : loop_state (gmap Z epoll_event) lambda := mkLoop 77 1 ∅ ∅ ∅ 16 false None [] ∅.

#[local] Instance demo_conn : CoroConn cconn happening := coro_conn 1 bare_loop false waits_once 9 (echo 1).

Definition made : cserver Acceptor.Demo.kernel (bool * bool) (cconn (K := gmap Z epoll_event) (P := bool) (V := Z) (E := Z)) :=
  newServer (Acceptor.Demo.mkKernel ∅ [Acceptor.Demo.client 1; Acceptor.Demo.client 2] 5) (Acceptor.Demo.client 0) "coro" true true.

Definition accept4 : Z -> Acceptor.Demo.kernel -> accept_result * Acceptor.Demo.kernel := Acceptor.Demo.demo_kernel.(sys_accept).

Definition state_of {S} (s : S) (o : outcome (unit * S)) : S := match o with Done (_, s') => s' | Fail _ => s end.
Definition server0 := state_of made (start (fun _ => (false, false)) made).
Definition one_client := state_of server0 (onAccept accept4 server0).
Definition two_clients := state_of server0 (onAccept accept4 one_client).

Lemma two_clients_reachable : reachable accept4 two_clients.
Proof.
  exists server0. split; [done|].
  apply rtc_l with one_client; [apply step_accept; vm_compute; reflexivity|].
  apply rtc_l with two_clients; [apply step_accept; vm_compute; reflexivity|apply rtc_refl].
Qed.

Lemma coro_server_tracks_witness :
  connections_ two_clients !! "coro#2"%string = Some 1%nat /\
  exists o, objects two_clients !! 1%nat = Some o /\ o_name o = "coro#2"%string /\ gone o = false.
Proof.
  split; [vm_compute; reflexivity|].
  apply (proj1 (coro_server_tracks accept4 two_clients two_clients_reachable) "coro#2"%string 1%nat). vm_compute. reflexivity.
Defined.

Lemma one_client_reachable : reachable accept4 one_client.
Proof. exists server0. split; [done|]. apply rtc_l with one_client; [apply step_accept; vm_compute; reflexivity|apply rtc_refl]. Qed.

(** The connection of the first client, and what it becomes when its handler, whose
    frame is the second one, is resumed and returns. *)
Definition first_conn := match objects one_client !! 0%nat with Some o => o_conn o | None => None end.
Definition ended : option (cconn (K := gmap Z epoll_event) (P := bool) (V := Z) (E := Z)) :=
  match first_conn with Some x => Some (state_of x (cn_event (ResumedAt 1) x)) | None => None end.

(** The resumed coroutine ends, and with the last pointer to the connection, in the
    map, its own frame is destroyed. *)
Lemma coro_connection_ends_witness : happens 0 (ResumedAt 1) one_client = Fail UndefinedBehaviour.
Proof.
  assert (Hx : exists x x', first_conn = Some x /\ ended = Some x' /\ cn_event (ResumedAt 1) x = Done (tt, x') /\
    (cn_closed x < cn_closed x')%nat /\ cn_held x' = false).
  { unfold ended. destruct first_conn as [x|] eqn:Ex; [|vm_compute in Ex; discriminate]. eexists _, _. split_and!; [reflexivity..| | |];
      vm_compute in Ex; injection Ex as <-; vm_compute; [reflexivity|lia|reflexivity]. }
  destruct Hx as (x & x' & Ex & _ & Ee & Hlt & Hh).
  refine (proj1 (coro_connection_ends accept4 0 (ResumedAt 1) x x' one_client one_client_reachable _ Ee Hlt) Hh).
  unfold first_conn in Ex. destruct (objects one_client !! 0%nat) as [o|] eqn:Eo; [|discriminate]. exists o. split_and!; [reflexivity|exact Ex|].
  vm_compute in Eo. injection Eo as <-. reflexivity.
Defined.
End Demo.
