(* ===== verification/Awaitables.v ===== *)
(** Awaitables: [coro/Awaitables.h], [coro/Awaitables.cpp].

    [AsyncRead] and [AsyncWrite] over the Channel and the poller of Poller.v, with
    the answers of [read] and [write] as data; [AsyncSleep] over TimerQueue.v.  What
    a coroutine does after it was resumed is a parameter. *)

From Stdlib Require Import ZArith Lia.
From Stdlib Require Import Init.Byte.
From S2P Require Import Prelude Timestamp TimerQueue Poller ChannelApi.
Local Open Scope Z_scope.

Definition EAGAIN : Z := 11.

(** What [read] and [write] answer: the bytes there are, the room there is, or
    [errno]. *)
Inductive read_answer := Bytes (d : list byte) | ReadError (err : Z).
Inductive write_answer := Room (n : nat) | WriteError (err : Z).

(** The lambdas stored in the channel; they capture [this]. *)
Inductive member := call_onReadable | call_onWritable.

(** An [AsyncRead] or [AsyncWrite] object; [transferred_] stands for [bytesRead_] or
    [bytesWritten_]. *)
Record awaiter := {
  a_fd : Z;
  count_ : Z;
  transferred_ : Z;
  handle_ : Z;
  channel_ : option ptr
}.

(** The raw loop, the object ([None] once it is destroyed), the memory its [buf_]
    points to, the answers of the kernel to come (it blocks when they are used up), what it took, and the
    coroutines resumed with what [await_resume] gave them. *)
Record world (K : Type) := {
  raw : loop_state K member;
  op : option awaiter;
  memory : list byte;
  reads : list read_answer;
  writes : list write_answer;
  wire : list byte;
  resumed : list (Z * Z)
}.
Arguments Build_world {K}.
Arguments raw {K}. Arguments op {K}. Arguments memory {K}. Arguments reads {K}. Arguments writes {K}. Arguments wire {K}. Arguments resumed {K}.

Section Await.
Context {K : Type} `{EpollKernel K} `{Build}.
Context (tid : Z).
Abbreviation W := (world K).
Implicit Types (w : W) (a : awaiter).

Definition set_raw (l : loop_state K member) w : W :=
  {| raw := l; op := op w; memory := memory w; reads := reads w; writes := writes w; wire := wire w; resumed := resumed w |}.
Definition set_op (o : option awaiter) w : W :=
  {| raw := raw w; op := o; memory := memory w; reads := reads w; writes := writes w; wire := wire w; resumed := resumed w |}.
Definition set_reads (l : list read_answer) (m : list byte) w : W :=
  {| raw := raw w; op := op w; memory := m; reads := l; writes := writes w; wire := wire w; resumed := resumed w |}.
Definition set_writes (l : list write_answer) (d : list byte) w : W :=
  {| raw := raw w; op := op w; memory := memory w; reads := reads w; writes := l; wire := wire w ++ d; resumed := resumed w |}.
Definition add_resumed (h v : Z) w : W :=
  {| raw := raw w; op := op w; memory := memory w; reads := reads w; writes := writes w; wire := wire w; resumed := resumed w ++ [(h, v)] |}.

Definition set_handle (h : Z) a : awaiter :=
  {| a_fd := a_fd a; count_ := count_ a; transferred_ := transferred_ a; handle_ := h; channel_ := channel_ a |}.
Definition set_channel (p : ptr) a : awaiter :=
  {| a_fd := a_fd a; count_ := count_ a; transferred_ := transferred_ a; handle_ := handle_ a; channel_ := Some p |}.
Definition set_transferred (n : Z) a : awaiter :=
  {| a_fd := a_fd a; count_ := count_ a; transferred_ := n; handle_ := handle_ a; channel_ := channel_ a |}.

(** An operation of the raw loop; the object [*this]. *)
Definition lift {A} (m : ST (loop_state K member) A) : ST W A := fun w =>
  match m (raw w) with Done (x, l) => Done (x, set_raw l w) | Fail f => Fail f end.
Definition this : ST W awaiter := w ← get; deref (op w).
Definition upd_this (f : awaiter -> awaiter) : ST W unit := a ← this; modify (set_op (Some (f a))).

(** [channel_ = std::make_unique<Channel>(loop, fd_)], with the callbacks it gets;
    the old channel, if any, is destroyed. *)
Definition make_channel (loop : ptr) (r wr : option member) : ST W ptr :=
  a ← this; w ← get;
  let p := fresh (dom (heap (raw w))) in
  let ch := Poller.set_callbacks r wr None None (newChannel loop (a_fd a)) in
  _ ← lift (modify (fun l => set_heap (<[p := ch]> (heap l)) l));
  _ ← upd_this (set_channel p);
  _ ← match channel_ a with Some q => lift (destroyChannel q) | None => mret tt end;
  mret p.

(** [current]: what [CoroEventLoop::current()] gives, as the raw loop of the
    thread. *)
Definition AsyncRead_await_suspend (current : option ptr) (h : Z) : ST W unit :=
  _ ← upd_this (set_handle h);
  loop ← deref current;
  p ← make_channel loop (Some call_onReadable) None;
  lift (Poller.enableReading tid p).

Definition AsyncWrite_await_suspend (current : option ptr) (h : Z) : ST W unit :=
  _ ← upd_this (set_handle h);
  loop ← deref current;
  p ← make_channel loop None (Some call_onWritable);
  lift (Poller.enableWriting tid p).

Definition await_resume : ST W Z := a ← this; mret (transferred_ a).

(** [::read(fd_, buf_, count_)]: [inl errno] or the number of bytes. *)
Definition sys_read : ST W (Z + Z) :=
  a ← this; w ← get;
  match reads w with
  | [] => mret (inl EAGAIN)
  | ReadError e :: l => _ ← modify (set_reads l (memory w)); mret (inl e)
  | Bytes d :: l =>
      let d := take (Z.to_nat (count_ a)) d in
      _ ← modify (set_reads l (d ++ drop (length d) (memory w)));
      mret (inr (Z.of_nat (length d)))
  end.

(** [::write(fd_, buf_, count_)] *)
Definition sys_write : ST W (Z + Z) :=
  a ← this; w ← get;
  match writes w with
  | [] => mret (inl EAGAIN)
  | WriteError e :: l => _ ← modify (set_writes l []); mret (inl e)
  | Room n :: l =>
      let d := take n (take (Z.to_nat (count_ a)) (memory w)) in
      _ ← modify (set_writes l d);
      mret (inr (Z.of_nat (length d)))
  end.

(** Whether the object is a temporary of the await expression, which is destroyed
    when that ends, and what the coroutine does then until it suspends again. *)
Context (temporary : bool) (body : Z -> ST W unit).

(** [~AsyncRead]: [~unique_ptr] of the channel. *)
Definition destroy_this : ST W unit :=
  a ← this;
  _ ← match channel_ a with Some p => lift (destroyChannel p) | None => mret tt end;
  modify (set_op None).

(** [handle_.resume()] *)
Definition resume (h : Z) : ST W unit :=
  v ← await_resume;
  _ ← modify (add_resumed h v);
  _ ← when temporary destroy_this;
  body v.

(** What follows the system call in both handlers. *)
Definition answered (r : Z + Z) : ST W unit :=
  _ ← upd_this (set_transferred (match r with inl _ => -1 | inr n => n end));
  if match r with inl e => e =? EAGAIN | inr _ => false end then mret tt
  else
    a ← this; p ← deref (channel_ a);
    _ ← lift (Poller.disableAll tid p);
    _ ← lift (Poller.remove tid p);
    a ← this; resume (handle_ a).

Definition onReadable : ST W unit := r ← sys_read; answered r.
Definition onWritable : ST W unit := r ← sys_write; answered r.

Definition run_member (f : option member) : ST W unit :=
  match f with
  | Some call_onReadable => onReadable
  | Some call_onWritable => onWritable
  | None => mret tt
  end.

(** An event of the poller for the channel at [p]. *)
Definition event (p : ptr) : ST W unit := dispatch_event (@lift) run_member p.
End Await.

(** ** Both directions *)

Inductive way := Reading | Writing.

Definition value_of (r : Z + Z) : Z := match r with inl _ => -1 | inr n => n end.
Definition mask (b : way) : Z := match b with Reading => kReadEvent | Writing => kWriteEvent end.
(** The events for which the channel calls the object. *)
Definition bits (b : way) : Z := match b with Reading => Z.lor (Z.lor EPOLLIN EPOLLPRI) EPOLLRDHUP | Writing => EPOLLOUT end.
Definition callbacks (b : way) : option member * option member :=
  match b with Reading => (Some call_onReadable, None) | Writing => (None, Some call_onWritable) end.
Definition switch_of (b : way) : event_op := match b with Reading => OEnableReading | Writing => OEnableWriting end.

(** The answer of the next system call, and the bytes it moves. *)
Definition next_answer {K} (b : way) (a : awaiter) (w : world K) : Z + Z :=
  match b with
  | Reading => match reads w with [] => inl EAGAIN | ReadError e :: _ => inl e
               | Bytes d :: _ => inr (Z.of_nat (length (take (Z.to_nat (count_ a)) d))) end
  | Writing => match writes w with [] => inl EAGAIN | WriteError e :: _ => inl e
               | Room n :: _ => inr (Z.of_nat (length (take n (take (Z.to_nat (count_ a)) (memory w))))) end
  end.
Definition next_bytes {K} (b : way) (a : awaiter) (w : world K) : list byte :=
  match b with
  | Reading => match reads w with Bytes d :: _ => take (Z.to_nat (count_ a)) d | _ => [] end
  | Writing => match writes w with Room n :: _ => take n (take (Z.to_nat (count_ a)) (memory w)) | _ => [] end
  end.

Section Facts.
Context {K : Type} `{HK : EpollKernel K} `{HL : !EpollLaws K} `{HB : Build}.
Context (tid : Z) (temporary : bool) (body : Z -> ST (world K) unit).
Abbreviation W := (world K).
Implicit Types (w : W) (a : awaiter) (d : Channel member) (h : Z) (b : way).

Definition suspend b : option ptr -> Z -> ST W unit :=
  match b with Reading => AsyncRead_await_suspend tid | Writing => AsyncWrite_await_suspend tid end.
Definition handler b : ST W unit :=
  match b with Reading => onReadable tid temporary body | Writing => onWritable tid temporary body end.

(** The object waits with the coroutine [h] for the events of the channel [d] at [p]. *)
Record waiting b h (p : ptr) d a w : Prop := {
  wt_op : op w = Some a;
  wt_handle : handle_ a = h;
  wt_channel : channel_ a = Some p;
  wt_fd : fd_ d = a_fd a;
  wt_inv : Inv (raw w);
  wt_switch : can_switch tid p d (raw w);
  wt_index : index_ d = 1;
  wt_events : events_ d = mask b;
  wt_callbacks : (readCallback_ d, writeCallback_ d) = callbacks b /\ closeCallback_ d = None /\ errorCallback_ d = None
}.

(** A new object, whose descriptor no other channel has. *)
Record fresh_op a w : Prop := {
  fo_op : op w = Some a;
  fo_channel : channel_ a = None;
  fo_inv : Inv (raw w);
  fo_thread : threadId_ (raw w) = tid;
  fo_watch : watchable (epoll (raw w)) (a_fd a);
  fo_fd q d : heap (raw w) !! q = Some d -> fd_ d <> a_fd a
}.

Lemma lift_run {A} (m : ST (loop_state K member) A) w x l : m (raw w) = Done (x, l) -> lift m w = Done (x, set_raw l w).
Proof. intros E. unfold lift. now rewrite E. Qed.

Lemma lift_fails {A} (m : ST (loop_state K member) A) w f : m (raw w) = Fail f -> lift m w = Fail f.
Proof. intros E. unfold lift. now rewrite E. Qed.

Lemma this_run w a : op w = Some a -> this w = Done (a, w).
Proof. intros E. unfold this. st_get. now rewrite E. Qed.

Lemma upd_this_run f w a : op w = Some a -> upd_this f w = Done (tt, set_op (Some (f a)) w).
Proof. intros E. unfold upd_this. now st_step (this_run w a E). Qed.

Definition new_channel b a w : Channel member :=
  Poller.set_callbacks (callbacks b).1 (callbacks b).2 None None (newChannel (self (raw w)) (a_fd a)).

(** The new channel, before it is switched on. *)
Lemma make_channel_run b a w : op w = Some a -> channel_ a = None ->
  let p := fresh (dom (heap (raw w))) in
  make_channel (self (raw w)) (callbacks b).1 (callbacks b).2 w =
  Done (p, set_op (Some (set_channel p a)) (set_raw (set_heap (<[p := new_channel b a w]> (heap (raw w))) (raw w)) w)).
Proof.
  intros Ho Hc p. unfold make_channel. st_step (this_run w a Ho). st_get. fold p.
  erewrite bind_done by (apply lift_run; reflexivity). erewrite bind_done by (apply upd_this_run; exact Ho).
  rewrite Hc. reflexivity.
Qed.

Lemma suspend_some b l h w : suspend b (Some l) h w =
  (_ ← upd_this (set_handle h); p ← make_channel l (callbacks b).1 (callbacks b).2; lift (run_op tid (switch_of b) p)) w.
Proof. now destruct b. Qed.

(** suspending on an [AsyncRead] or [AsyncWrite] makes a channel, whose only
    callback is that of the object, and registers it with the kernel for the
    events of its direction, edge-triggered; the coroutine's handle is stored and
    nobody is resumed.  In a thread without a CoroEventLoop it dereferences null. *)
Theorem awaitable_suspends b h a w : fresh_op a w ->
  suspend b None h w = Fail UndefinedBehaviour /\
  exists w' p d a', suspend b (Some (self (raw w))) h w = Done (tt, w') /\ waiting b h p d a' w' /\
    eventHandling_ d = false /\ heap (raw w) !! p = None /\
    interest (epoll (raw w')) = <[a_fd a := mkEvent (Z.lor (mask b) EPOLLET) p]> (interest (epoll (raw w))) /\
    memory w' = memory w /\ count_ a' = count_ a /\ resumed w' = resumed w.
Proof.
  intros F. split.
  { destruct b; cbn [suspend]; unfold AsyncRead_await_suspend, AsyncWrite_await_suspend;
      erewrite bind_done by (apply upd_this_run; exact (fo_op _ _ F)); reflexivity. }
  rewrite suspend_some. erewrite bind_done by (apply upd_this_run; exact (fo_op _ _ F)).
  set (a1 := set_handle h a). set (w1 := set_op (Some a1) w).
  rewrite (bind_done _ _ _ _ _ (make_channel_run b a1 w1 eq_refl (fo_channel _ _ F))).
  set (p := fresh (dom (heap (raw w1)))). set (d := new_channel b a1 w1).
  assert (Hp : heap (raw w) !! p = None) by apply not_elem_of_dom, is_fresh.
  set (l := set_heap (<[p := d]> (heap (raw w1))) (raw w1)). set (a2 := set_channel p a1).
  assert (I : Inv l) by (apply Inv_new_channel; [apply F|exact Hp|done|exact (fo_fd _ _ F)]).
  assert (C : can_switch tid p d l).
  { constructor; [apply lookup_insert_eq|apply F|done|apply F|]. intros _ _. exact (new_channel_unknown _ _ (fo_inv _ _ F) (fo_fd _ _ F)). }
  destruct (switch_run tid (op_mask (switch_of b)) p l d I C) as (k & E & Hk & Hw).
  set (d1 := set_addedToLoop true (set_events (op_mask (switch_of b) (events_ d)) d)) in *.
  exists (set_raw (updated p d1 k l) (set_op (Some a2) w1)), p, (setIndex (next_index d1) d1), a2.
  assert (Hn : next_index d1 = 1) by reflexivity. split_and!; try done.
  - rewrite (run_op_switch tid (switch_of b) p). exact (lift_run _ (set_op (Some a2) (set_raw l w1)) _ _ E).
  - assert (I' : Inv (updated p d1 k l)) by exact (Inv_switched p l d _ k I (cs_heap _ _ _ _ C) Hk).
    constructor; try done; [|now destruct b|now destruct b].
    constructor; [apply lookup_insert_eq|apply F|done|apply Hw, F|]. rewrite Hn. discriminate.
  - cbn. rewrite Hk. unfold next_interest. now destruct b.
Qed.

(** ** Events *)

(** The world after the system call, and what it moved. *)
Definition moved b a w w1 : Prop :=
  match b with
  | Reading => memory w1 = next_bytes b a w ++ drop (length (next_bytes b a w)) (memory w) /\ wire w1 = wire w
  | Writing => memory w1 = memory w /\ wire w1 = wire w ++ next_bytes b a w
  end.

Lemma handler_run b a w : op w = Some a -> exists w1, handler b w = answered tid temporary body (next_answer b a w) w1 /\
  op w1 = Some a /\ raw w1 = raw w /\ resumed w1 = resumed w /\ moved b a w w1.
Proof.
  intros Ho. destruct b; cbn [handler next_answer moved next_bytes]; unfold onReadable, onWritable, sys_read, sys_write;
    rewrite bind_assoc; st_step (this_run w a Ho); rewrite bind_assoc; st_get.
  - destruct (reads w) as [|[d|e] l].
    + rewrite bind_ret_l. by exists w.
    + rewrite bind_assoc. st_modify. rewrite bind_ret_l. by eexists.
    + rewrite bind_assoc. st_modify. rewrite bind_ret_l. by eexists.
  - destruct (writes w) as [|[n|e] l].
    + rewrite bind_ret_l. exists w. split_and!; try done. now rewrite app_nil_r.
    + rewrite bind_assoc. st_modify. rewrite bind_ret_l. by eexists.
    + rewrite bind_assoc. st_modify. rewrite bind_ret_l. eexists. split_and!; try done.
Qed.

Definition goes_on (r : Z + Z) : bool := match r with inl e => e =? EAGAIN | inr _ => false end.

(** The wait goes on. *)
Lemma answered_again r a w : op w = Some a -> goes_on r = true ->
  answered tid temporary body r w = Done (tt, set_op (Some (set_transferred (value_of r) a)) w).
Proof.
  intros Ho Hr. unfold answered. erewrite bind_done by (apply upd_this_run; exact Ho).
  unfold goes_on in Hr. now rewrite Hr.
Qed.

(** The descriptor is gone from the poller and the kernel. *)
Record released (fd : Z) (l l' : loop_state K member) : Prop := {
  re_known : channels_ l' = delete fd (channels_ l);
  re_interest : interest (epoll l') = delete fd (interest (epoll l))
}.

(** The channel when the coroutine goes on: destroyed with a temporary object. *)
Definition left_over b (p : ptr) w : Prop :=
  if temporary then op w = None /\ heap (raw w) !! p = None
  else exists d', heap (raw w) !! p = Some d' /\ (readCallback_ d', writeCallback_ d') = callbacks b.

(** The operation is over: the coroutine is resumed, unless an assertion fails. *)
Lemma answered_over b h p d a r w : waiting b h p d a w -> goes_on r = false ->
  (asserts_enabled = true -> answered tid temporary body r w = Fail AssertFailed) /\
  (asserts_enabled = false -> exists w', answered tid temporary body r w = body (value_of r) w' /\
     resumed w' = resumed w ++ [(h, value_of r)] /\ memory w' = memory w /\ wire w' = wire w /\
     released (a_fd a) (raw w) (raw w') /\ left_over b p w').
Proof.
  intros Wt Hr. pose proof (wt_inv _ _ _ _ _ _ Wt) as I. pose proof (wt_switch _ _ _ _ _ _ Wt) as C.
  assert (Hi : index_ d <> -1) by (rewrite (wt_index _ _ _ _ _ _ Wt); lia).
  unfold answered. erewrite bind_done by (apply upd_this_run; exact (wt_op _ _ _ _ _ _ Wt)).
  set (a1 := set_transferred _ a). set (w1 := set_op (Some a1) w). unfold goes_on in Hr. rewrite Hr.
  rewrite (bind_done _ _ _ _ _ (this_run w1 a1 eq_refl)).
  assert (Hp : deref (channel_ a1) w1 = Done (p, w1)) by (cbn; now rewrite (wt_channel _ _ _ _ _ _ Wt)).
  rewrite (bind_done _ _ _ _ _ Hp). destruct (disableAll_run tid p (raw w) d I C) as (k & E & Hk & _).
  set (d1 := set_addedToLoop true (set_events kNoneEvent d)) in *. erewrite bind_done by (apply lift_run; exact E). split; intros Hb.
  - apply bind_fail, lift_fails. pose proof (disableAll_remove_fails tid p _ d Hb I C Hi) as F.
    rewrite (bind_done _ _ _ _ _ E) in F. exact F.
  - set (l1 := updated p d1 k (raw w)) in *. set (d2 := setIndex (next_index d1) d1).
    assert (Hn : next_index d1 = -1) by (unfold next_index; change (index_ d1) with (index_ d); now rewrite (wt_index _ _ _ _ _ _ Wt)).
    pose proof (remove_release tid p l1 d2 Hb (lookup_insert_eq _ _ _) (cs_thread _ _ _ _ C) ltac:(cbn; lia)) as E2.
    set (l2 := set_heap _ (set_channels _ l1)) in E2. set (d3 := setIndex (-1) (set_addedToLoop false d2)) in E2.
    assert (R2 : released (a_fd a) (raw w) l2).
    { rewrite <-(wt_fd _ _ _ _ _ _ Wt). constructor; cbn; [|rewrite Hk; unfold next_interest]; change (index_ d1) with (index_ d);
        now rewrite (wt_index _ _ _ _ _ _ Wt). }
    assert (E3 : heap l2 !! p = Some d3) by apply lookup_insert_eq.
    erewrite bind_done by (apply lift_run; exact E2).
    set (w2 := set_raw l2 (set_raw l1 w1)). rewrite (bind_done _ _ _ _ _ (this_run w2 a1 eq_refl)).
    unfold resume, await_resume. rewrite bind_assoc, (bind_done _ _ _ _ _ (this_run w2 a1 eq_refl)), bind_ret_l. st_modify.
    set (w3 := add_resumed (handle_ a1) (transferred_ a1) w2).
    assert (Hres : resumed w3 = resumed w ++ [(h, value_of r)]) by (cbn; now rewrite <-(wt_handle _ _ _ _ _ _ Wt)).
    unfold left_over. destruct temporary; cbn [when].
    + unfold destroy_this. rewrite bind_assoc, (bind_done _ _ _ _ _ (this_run w3 a1 eq_refl)).
      change (channel_ a1) with (channel_ a). rewrite (wt_channel _ _ _ _ _ _ Wt), bind_assoc.
      erewrite bind_done by (apply lift_run; exact (destroy_release p d3 l2 Hb E3)). st_modify. eexists. split; [reflexivity|].
      split_and!; try done; [constructor; apply R2|apply lookup_delete_eq].
    + rewrite bind_ret_l. exists w3. split; [reflexivity|]. split_and!; try done.
      exists d3. split; [done|]. apply (wt_callbacks _ _ _ _ _ _ Wt).
Qed.

(** [handleEvent] of a channel whose only callback is that of the object. *)
Definition rest_of_event b (p : ptr) : ST W unit :=
  match b with
  | Reading =>
      c ← lift (chan p);
      _ ← when (flag (revents_ c) EPOLLOUT) (run_member tid temporary body (writeCallback_ c));
      lift (upd p (set_eventHandling false))
  | Writing => lift (upd p (set_eventHandling false))
  end.

Definition with_chan p d w : W := set_raw (set_heap (<[p := d]> (heap (raw w))) (raw w)) w.

Lemma lift_chan_run w p d : heap (raw w) !! p = Some d -> lift (chan p) w = Done (d, w).
Proof. intros E. rewrite (lift_run _ _ _ _ (chan_ok p _ d E)). now destruct w. Qed.

Lemma lift_upd_run f w p d : heap (raw w) !! p = Some d -> lift (upd p f) w = Done (tt, with_chan p (f d) w).
Proof. intros E. exact (lift_run _ _ _ _ (upd_ok p f _ d E)). Qed.

Lemma lift_gone {A} (f : Channel member -> ST (loop_state K member) A) w p : heap (raw w) !! p = None ->
  lift (c ← chan p; f c) w = Fail UndefinedBehaviour.
Proof. intros E. apply lift_fails. unfold chan. rewrite bind_assoc. st_get. now rewrite E. Qed.

Lemma when_none (c : bool) w : when c (run_member tid temporary body None) w = Done (tt, w).
Proof. now destruct c. Qed.

Lemma event_calls b p d w : heap (raw w) !! p = Some d ->
  (readCallback_ d, writeCallback_ d) = callbacks b -> closeCallback_ d = None -> errorCallback_ d = None ->
  event tid temporary body p w =
  (_ ← when (flag (revents_ d) (bits b)) (handler b); rest_of_event b p) (with_chan p (set_eventHandling true d) w).
Proof.
  intros Hp Hcb Hc He. unfold event, dispatch_event. rewrite (bind_done _ _ _ _ _ (lift_upd_run _ w p d Hp)).
  set (d1 := set_eventHandling true d). set (w1 := with_chan p d1 w).
  assert (E1 : heap (raw w1) !! p = Some d1) by apply lookup_insert_eq.
  do 2 (rewrite (bind_done _ _ _ _ _ (lift_chan_run w1 p d1 E1)); change (closeCallback_ d1) with (closeCallback_ d);
    change (errorCallback_ d1) with (errorCallback_ d); rewrite ?Hc, ?He, (bind_done _ _ _ _ _ (when_none _ w1))).
  rewrite (bind_done _ _ _ _ _ (lift_chan_run w1 p d1 E1)). change (readCallback_ d1) with (readCallback_ d).
  destruct b; injection Hcb as Hr Hw; rewrite Hr; [reflexivity|].
  rewrite (bind_done _ _ _ _ _ (when_none _ w1)), (bind_done _ _ _ _ _ (lift_chan_run w1 p d1 E1)).
  change (writeCallback_ d1) with (writeCallback_ d). now rewrite Hw.
Qed.

Lemma rest_runs b p d w : heap (raw w) !! p = Some d -> (readCallback_ d, writeCallback_ d) = callbacks b ->
  rest_of_event b p w = Done (tt, with_chan p (set_eventHandling false d) w).
Proof.
  intros Hp Hcb. destruct b; cbn [rest_of_event]; [|now apply lift_upd_run].
  injection Hcb as Hr Hw. rewrite (bind_done _ _ _ _ _ (lift_chan_run w p d Hp)), Hw, (bind_done _ _ _ _ _ (when_none _ w)).
  now apply lift_upd_run.
Qed.

Lemma rest_fails b p w : heap (raw w) !! p = None -> rest_of_event b p w = Fail UndefinedBehaviour.
Proof.
  intros Hp. destruct b; cbn [rest_of_event]; [apply bind_fail|now apply lift_gone].
  pose proof (lift_gone mret w p Hp) as F. revert F. unfold lift, chan. st_simpl. now rewrite Hp.
Qed.

(** The flag that [handleEvent] sets changes nothing else. *)
Lemma waiting_handling b h p d a w : waiting b h p d a w ->
  waiting b h p (set_eventHandling true d) a (with_chan p (set_eventHandling true d) w).
Proof.
  intros [Ho Hh Hc Hf I C Hi He Hcb]. constructor; try done.
  - now apply (Inv_same_registration p (raw w) d); try apply C.
  - constructor; try apply C. apply lookup_insert_eq.
Qed.

Lemma with_chan_back p d w : heap (raw w) !! p = Some d -> eventHandling_ d = false ->
  with_chan p (set_eventHandling false (set_eventHandling true d)) (with_chan p (set_eventHandling true d) w) = w.
Proof.
  intros Hp Hd. unfold with_chan, set_raw. cbn [raw heap set_heap op memory reads writes wire resumed].
  rewrite insert_insert_eq.
  assert (E1 : set_eventHandling false (set_eventHandling true d) = d) by (destruct d; cbn in *; now subst).
  rewrite E1, insert_id by exact Hp. destruct w as [l ? ? ? ? ? ?]. now destruct l.
Qed.

(** The operation is over: the coroutine is resumed with the number of bytes or -1,
    the bytes are where they belong, and nothing waits any more. *)
Definition finished b h a w w' : Prop :=
  resumed w' = resumed w ++ [(h, value_of (next_answer b a w))] /\ moved b a w w' /\ released (a_fd a) (raw w) (raw w').

Lemma handler_over b h p d a w : waiting b h p d a w -> goes_on (next_answer b a w) = false ->
  (asserts_enabled = true -> handler b w = Fail AssertFailed) /\
  (asserts_enabled = false -> exists w', handler b w = body (value_of (next_answer b a w)) w' /\ finished b h a w w' /\ left_over b p w').
Proof.
  intros Wt Hr. destruct (handler_run b a w (wt_op _ _ _ _ _ _ Wt)) as (w1 & -> & Ho & Er & Es & Hm).
  assert (Wt1 : waiting b h p d a w1) by (destruct Wt; constructor; try done; now rewrite Er).
  destruct (answered_over b h p d a _ w1 Wt1 Hr) as [Ha Hb]. split; [exact Ha|]. intros Hn.
  destruct (Hb Hn) as (w' & E & Es' & Em & Ew & R & Hd). exists w'. split; [exact E|]. split; [|exact Hd].
  unfold finished. rewrite Es', Es, <-Er. split; [done|]. split; [|exact R].
  destruct b; cbn in Hm |- *; now rewrite Em, Ew.
Qed.

(** C28: what an event makes of a waiting [AsyncRead] or [AsyncWrite].  A hang-up or
    an error alone, without an event of its direction, wakes nobody.  When the
    system call would block it waits on, unchanged.  Otherwise the operation is
    over: with assertions enabled the removal of the channel always fails one, so
    that no coroutine is ever resumed.  Without them the bytes have been moved, the
    descriptor is gone from the poller and the kernel, and the coroutine is resumed
    once, with the number of bytes or -1; its [body], which may do anything,
    awaiting again included, then runs inside the event, and what is left of
    [handleEvent] comes after it.  That is undefined behaviour unless the body
    leaves a channel at the address of the one that is handling the event - and if
    the object was a temporary of the await expression, that channel is destroyed
    before the body begins. *)
Theorem awaitable_event b h p d a w : waiting b h p d a w -> eventHandling_ d = false ->
  let over := goes_on (next_answer b a w) = false in
  (flag (revents_ d) (bits b) = false -> event tid temporary body p w = Done (tt, w)) /\
  (flag (revents_ d) (bits b) = true -> ~ over -> exists w' a', event tid temporary body p w = Done (tt, w') /\
     waiting b h p d a' w' /\ raw w' = raw w /\ resumed w' = resumed w) /\
  (flag (revents_ d) (bits b) = true -> over -> asserts_enabled = true -> event tid temporary body p w = Fail AssertFailed) /\
  (flag (revents_ d) (bits b) = true -> over -> asserts_enabled = false ->
     let v := value_of (next_answer b a w) in
     exists w1, finished b h a w w1 /\ left_over b p w1 /\
       (forall f, body v w1 = Fail f -> event tid temporary body p w = Fail f) /\
       (forall w2, body v w1 = Done (tt, w2) ->
          (heap (raw w2) !! p = None -> event tid temporary body p w = Fail UndefinedBehaviour) /\
          (forall d', heap (raw w2) !! p = Some d' -> (readCallback_ d', writeCallback_ d') = callbacks b ->
             event tid temporary body p w = Done (tt, with_chan p (set_eventHandling false d') w2)))).
Proof.
  intros Wt Hd over. pose proof (cs_heap _ _ _ _ (wt_switch _ _ _ _ _ _ Wt)) as Hp.
  destruct (wt_callbacks _ _ _ _ _ _ Wt) as (Hcb & Hcl & Her).
  pose proof (event_calls b p d w Hp Hcb Hcl Her) as Ee. pose proof (waiting_handling b h p d a w Wt) as Wt1.
  pose proof (with_chan_back p d w Hp Hd) as Hback. set (d1 := set_eventHandling true d) in *. set (w1 := with_chan p d1 w) in *.
  assert (Hp1 : heap (raw w1) !! p = Some d1) by apply lookup_insert_eq.
  assert (Hn : next_answer b a w1 = next_answer b a w) by now destruct b. split_and!.
  - intros Hf. rewrite Ee, Hf. cbn [when]. rewrite bind_ret_l, (rest_runs b p d1 w1 Hp1 Hcb). now rewrite Hback.
  - intros Hf Ho. rewrite Ee, Hf. cbn [when]. destruct (handler_run b a w1 (wt_op _ _ _ _ _ _ Wt1)) as (w2 & E2 & Ho2 & Er2 & Es2 & Hm2).
    rewrite (answered_again _ a w2 Ho2) in E2 by (rewrite Hn; now apply not_false_is_true).
    rewrite (bind_done _ _ _ _ _ E2). set (a2 := set_transferred _ a). set (w3 := set_op (Some a2) w2).
    assert (E3 : raw w3 = raw w1) by exact Er2.
    rewrite (rest_runs b p d1 w3) by (rewrite ?E3; done). eexists _, a2. split; [reflexivity|].
    assert (E4 : raw (with_chan p (set_eventHandling false d1) w3) = raw w).
    { unfold with_chan. cbn [raw set_raw]. rewrite E3. exact (f_equal raw Hback). }
    split_and!; [|exact E4|exact Es2].
    destruct Wt. constructor; rewrite ?E4; done.
  - intros Hf Ho Hb. rewrite Ee, Hf. cbn [when]. apply bind_fail, (handler_over b h p d1 a w1 Wt1); [now rewrite Hn|done].
  - intros Hf Ho Hb v. destruct (proj2 (handler_over b h p d1 a w1 Wt1 ltac:(now rewrite Hn)) Hb) as (w2 & E & Hx & Hl).
    rewrite Hn in E. fold v in E. exists w2. split_and!; [|exact Hl| |].
    + destruct Hx as (H1 & H2 & H3). unfold finished. rewrite <-Hn. split_and!; [exact H1|now destruct b|].
      destruct H3. now constructor.
    + intros f Ef. rewrite Ee, Hf. cbn [when]. apply bind_fail. now rewrite E.
    + intros w3 E3. rewrite Ee, Hf. cbn [when]. rewrite (bind_done _ _ _ _ _ (eq_trans E E3)).
      split; [now apply rest_fails|]. intros d' Hd' Hcb'. now apply rest_runs.
Qed.
End Facts.

(** ** AsyncSleep *)

Section Sleep.
Context `{HA : Allocator Z} `{HAL : !AllocatorLaw Z}.
(* the n-th reading of the system clock *)
Context (clock : nat -> Z).
Implicit Types (s : tq_state Z).

(** [await_suspend]: [runAfter] with the lambda that resumes [h], for which the
    handle stands; [current] says whether the thread has a CoroEventLoop. *)
Definition AsyncSleep_await_suspend (current : option unit) (seconds : double) (h : Z) : ST (tq_state Z) unit :=
  _ ← deref current;
  t ← now clock;
  time ← match addTime t seconds with Some e => mret e | None => fail UndefinedBehaviour end;
  _ ← addTimer clock h time (double_of_Z 0);
  mret tt.

(** The first tick after the coroutine [h] has gone to sleep until [time], with the
    timer at [p]. *)
Definition first_tick (time : Z) (h p : Z) s s' : Prop :=
  if now_of clock s <? time then
    exists us, fired s' = fired s ++ map callback_ us /\ Forall (fun u => exists q, q <> p /\ theap s !! q = Some u) us
  else
    (exists l1 l2, fired s' = fired s ++ l1 ++ [h] ++ l2) /\ theap s' !! p = None /\ (forall w, (w, p) ∉ timers_ s').

Lemma zip_due (behaviour : Z -> tq_state Z -> list action) s :
  TInv s -> (forall q u, theap s !! q = Some u -> restartable u) -> forall s', TimerQueue.handleRead clock behaviour s = Done (tt, s') ->
  forall time h p i, (time, p) ∈ timers_ s -> theap s !! p = Some (mkTimer h time i false (s_numCreated_ s - 1)) ->
  first_tick time h p s s'.
Proof.
  intros I Hr s' E time h p i Ht Hp.
  destruct (handleRead_run clock behaviour s I Hr) as (s2 & us & E2 & I' & D & Hf & R & _); [congruence|].
  assert (s2 = s') by congruence. subst s2. unfold first_tick. destruct (Z.ltb_spec (now_of clock s) time) as [Hlt|Hge].
  - exists us. split; [exact Hf|]. apply Forall_lookup. intros k u Hk.
    destruct (Forall2_lookup_r _ _ _ _ _ D Hk) as ([w q] & Hq & Hh & Hw). cbn in Hh, Hw. exists q. split; [|exact Hh].
    intros ->. apply list_elem_of_lookup_2, due_spec in Hq as [_ Hle]. pose proof (eq_trans (eq_sym Hp) Hh) as [= <-]. cbn in Hw. lia.
  - assert (Hd : (time, p) ∈ due (now_of clock s) s) by (apply due_spec; split; [exact Ht|lia]).
    apply list_elem_of_lookup in Hd as [k Hk]. destruct (Forall2_lookup_l _ _ _ _ _ D Hk) as (u & Hu & Hh & _). cbn in Hh.
    pose proof (eq_trans (eq_sym Hp) Hh) as [= <-]. pose proof (Forall2_lookup_lr _ _ _ _ _ _ R Hk Hu) as Hres. cbn in Hres. split.
    + rewrite Hf. rewrite <-(take_drop_middle us k _ Hu), map_app. cbn [map callback_].
      exists (map callback_ (take k us)), (map callback_ (drop (S k) us)). reflexivity.
    + split; [exact Hres|]. intros w (v & Hv & _)%(ti_timers _ I'). unfold rescheduled in Hres. cbn in Hres. congruence.
Qed.

(** a coroutine that awaits [AsyncSleep] gets a timer for now plus the given
    seconds; a tick of the timer queue before that time does not resume it, the
    first one at or after it resumes it exactly once and frees the timer, whatever
    the other callbacks do.  Without a CoroEventLoop in the thread it dereferences
    null. *)
Theorem sleep_resumes_once seconds h time s :
  TInv s -> (forall p u, theap s !! p = Some u -> restartable u) -> addTime (now_of clock s) seconds = Some time ->
  AsyncSleep_await_suspend (Some tt) seconds h s <> Fail LengthError ->
  AsyncSleep_await_suspend None seconds h s = Fail UndefinedBehaviour /\
  exists s1 p, AsyncSleep_await_suspend (Some tt) seconds h s = Done (tt, s1) /\ TInv s1 /\
    (time, p) ∈ timers_ s1 /\ theap s !! p = None /\ fired s1 = fired s /\
    forall behaviour s', TimerQueue.handleRead clock behaviour s1 = Done (tt, s') -> first_tick time h p s1 s'.
Proof.
  intros I Hr Ht Hok. split; [reflexivity|]. unfold AsyncSleep_await_suspend in *. cbn [deref] in *. rewrite bind_ret_l in *.
  assert (En : now clock s = Done (now_of clock s, set_clock_reads (S (clock_reads s)) s)) by reflexivity.
  rewrite (bind_done _ _ _ _ _ En) in *. rewrite Ht, bind_ret_l in *. set (s0 := set_clock_reads _ s) in *.
  assert (I0 : TInv s0) by (destruct I; now constructor).
  destruct (addTimer_run clock h time (double_of_Z 0) s0 I0) as (p & s1 & E1 & I1 & Kp & Hfr & Hts & _ & Hh & _ & Hin & Hnum & _).
  { intros Ef. apply Hok. now apply bind_fail. }
  rewrite (bind_done _ _ _ _ _ E1). exists s1, p. split_and!; try done.
  - destruct Kp. done.
  - intros behaviour s' E. eapply zip_due; [exact I1| |exact E|exact Hin|].
    + intros q u Hq. rewrite Hh in Hq. apply lookup_insert_Some in Hq as [[<- <-]|[_ Hq]]; [done|exact (Hr q u Hq)].
    + rewrite Hh, lookup_insert_eq, Hnum. do 2 f_equal. lia.
Qed.
End Sleep.

(** ** Examples *)
Module Demo.
Abbreviation kernel := (gmap Z epoll_event).

Definition object (ch : option ptr) : awaiter := {| a_fd := 5; count_ := 4; transferred_ := 0; handle_ := 3; channel_ := ch |}.

(** An object before its await expression, in a loop without channels. *)
Definition before : world kernel :=
  {| raw := mkLoop 77 1 ∅ ∅ ∅ 16 false None [] ∅; op := Some (object None); memory := [x00; x00; x00; x00]; reads := []; writes := [];
     wire := []; resumed := [] |}.

Lemma before_fresh : fresh_op 1 (object None) before.
Proof.
  constructor; done.
Qed.

Lemma awaitable_suspends_witness :
  suspend (HB := debug_build) 1 Reading None 3 before = Fail UndefinedBehaviour /\
  exists w' p d a', suspend (HB := debug_build) 1 Reading (Some 77) 3 before = Done (tt, w') /\
    waiting (HB := debug_build) 1 Reading 3 p d a' w' /\ resumed w' = [].
Proof.
  destruct (awaitable_suspends (HB := debug_build) 1 Reading 3 (object None) before before_fresh)
    as (H1 & w' & p & d & a' & E & Wt & _ & _ & _ & _ & _ & Hr).
  split; [exact H1|]. exists w', p, d, a'. now split_and!.
Defined.

(** One that waits, when five bytes have come and the poller has reported them. *)
Definition ready_channel : Channel member :=
  mkChannel 77 5 kReadEvent EPOLLIN 1 true true false false true None (Some call_onReadable) None None None.
Definition readable : world kernel :=
  {| raw := mkLoop 77 1 {[10 := ready_channel]} {[5 := 10]} {[5 := mkEvent (kernel_events ready_channel) 10]} 16 false None [] ∅;
     op := Some (object (Some 10)); memory := [x00; x00; x00; x00]; reads := [Bytes [x61; x62; x63; x64; x65]]; writes := [];
     wire := []; resumed := [] |}.

Lemma readable_waiting `{HB : Build} : waiting 1 Reading 3 10 ready_channel (object (Some 10)) readable.
Proof.
  constructor; try done. constructor; cbn.
  - intros p q c d [<- <-]%lookup_singleton_Some [<- <-]%lookup_singleton_Some. auto.
  - intros p c [<- <-]%lookup_singleton_Some. right. split; [auto|]. split; [reflexivity|]. eexists. split; [reflexivity|auto].
  - intros fd p [<- <-]%lookup_singleton_Some. exists ready_channel. auto.
  - intros fd ev [<- <-]%lookup_singleton_Some. exists ready_channel. split_and!; auto; discriminate.
Qed.

(** A body that does nothing more. *)
Definition stops (v : Z) : ST (world kernel) unit := mret tt.

(** Four of the bytes are read; [co_await AsyncRead(...)] does not survive that. *)
Lemma awaitable_event_witness :
  event (H := map_kernel) (H0 := debug_build) 1 true stops 10 readable = Fail AssertFailed /\
  event (H := map_kernel) (H0 := release_build) 1 true stops 10 readable = Fail UndefinedBehaviour /\
  exists w', event (H := map_kernel) (H0 := release_build) 1 false stops 10 readable = Done (tt, w') /\ resumed w' = [(3, 4)] /\
    memory w' = [x61; x62; x63; x64].
Proof.
  pose proof (awaitable_event (HB := debug_build) 1 true stops Reading 3 10 _ _ _ readable_waiting eq_refl) as H1.
  pose proof (awaitable_event (HB := release_build) 1 true stops Reading 3 10 _ _ _ readable_waiting eq_refl) as H2.
  pose proof (awaitable_event (HB := release_build) 1 false stops Reading 3 10 _ _ _ readable_waiting eq_refl) as H3.
  split_and!.
  - exact (proj1 (proj2 (proj2 H1)) eq_refl eq_refl eq_refl).
  - destruct (proj2 (proj2 (proj2 H2)) eq_refl eq_refl eq_refl) as (w1 & _ & [_ Hp] & _ & H). exact (proj1 (H w1 eq_refl) Hp).
  - destruct (proj2 (proj2 (proj2 H3)) eq_refl eq_refl eq_refl) as (w1 & (Hr & [Hm _] & _) & (d' & Hd & Hcb) & _ & H).
    eexists. split; [exact (proj2 (H w1 eq_refl) d' Hd Hcb)|]. split; [exact Hr|exact Hm].
Defined.

(** A body that awaits the descriptor again, in a new object: the rest of the event
    still finds its channel gone. *)
Definition again (v : Z) : ST (world kernel) unit :=
  _ ← modify (set_op (Some (object None))); AsyncRead_await_suspend (H0 := release_build) 1 (Some 77) 3.

Example await_again :
  event (H := map_kernel) (H0 := release_build) 1 true again 10 readable = Fail UndefinedBehaviour.
Proof. vm_compute. reflexivity. Qed.

(** A sleep of a tenth of a second that begins at 200 and is over at 100200. *)
#[local] Instance arena : Allocator Z := fun h => head (base.filter (fun p => h !! p = None) [1; 2; 3; 4]).
#[local] Instance arena_law : AllocatorLaw Z.
Proof.
  intros h p Hp. unfold alloc, arena in Hp. apply head_Some_elem_of, list_elem_of_filter in Hp as [Hn Hp].
  split; [exact Hn|]. unfold UINTPTR_MAX. repeat (apply elem_of_cons in Hp as [->|Hp]; [lia|]).
  now apply not_elem_of_nil in Hp.
Qed.

Definition clock (n : nat) : Z := match n with 0%nat => 200 | 1%nat => 201 | _ => 100300 end.
Definition no_timers : tq_state Z := mkTQ ∅ [] ∅ false ∅ 0 None 0 [].
Definition tenth : double := fdiv (double_of_Z 1) (double_of_Z 10).

Lemma no_timers_inv : TInv no_timers.
Proof.
  constructor; cbn; [constructor| | |].
  - intros w p. split; [now intros Hx%not_elem_of_nil|]. now intros (t & Ht & _).
  - now intros p q Hx%not_elem_of_empty.
  - now intros p t Ht.
Qed.

Lemma sleep_resumes_once_witness : exists s1 s',
  AsyncSleep_await_suspend clock (Some tt) tenth 3 no_timers = Done (tt, s1) /\
  TimerQueue.handleRead clock (fun _ _ => []) s1 = Done (tt, s') /\ exists l1 l2, fired s' = l1 ++ [3] ++ l2.
Proof.
  destruct (AsyncSleep_await_suspend clock (Some tt) tenth 3 no_timers) as [[[] s1]|f] eqn:E1; [|vm_compute in E1; discriminate].
  destruct (TimerQueue.handleRead clock (fun _ _ => []) s1) as [[[] s']|f] eqn:E2; cycle 1.
  { vm_compute in E1. injection E1 as <-. vm_compute in E2. discriminate. }
  exists s1, s'. split_and!; [reflexivity|exact E2|].
  destruct (sleep_resumes_once clock tenth 3 100200 no_timers no_timers_inv ltac:(intros p u Hp; discriminate Hp)
    ltac:(vm_compute; reflexivity) ltac:(rewrite E1; discriminate)) as (_ & s1' & p & E & _ & _ & _ & Hf & Ht).
  rewrite E1 in E. injection E as <-. specialize (Ht _ _ E2). unfold first_tick in Ht.
  assert (Hlt : (now_of clock s1 <? 100200) = false) by (vm_compute in E1; injection E1 as <-; reflexivity).
  rewrite Hlt in Ht. destruct Ht as [(l1 & l2 & Ht) _]. exists l1, l2. rewrite Ht, Hf. reflexivity.
Defined.
End Demo.
