(* ===== verification/UringPoller.v ===== *)
(** UringPoller: [io_uring/uring_poller.h], [io_uring/uring_poller.cpp],
    [io_uring/awaiter.h], [io_uring/awaiter.cpp] and [io_uring/UringEventLoop.cpp].

    The rings of liburing are behind the class [Ring]; [RingLaws] is their
    documented behaviour.  A [UringContext] is an object of a heap: the kernel
    holds its address as user data while a request is on its way. *)

From Stdlib Require Import ZArith Lia.
From S2P Require Import Prelude.
Local Open Scope Z_scope.

(** A request as the [io_uring_prep_...] functions fill it in, and its user data:
    the address of a context, or null for the wake-up poll. *)
Inductive request :=
  | prep_read (fd : Z) (buf : Z) (count : Z)
  | prep_write (fd : Z) (buf : Z) (count : Z)
  | prep_accept (fd : Z)
  | prep_poll_add (fd : Z).

Record sqe := { req : request; data : option Z }.
Record cqe := { cqe_data : option Z; cqe_res : Z }.

Class Ring (R : Type) := {
  get_sqe : R -> bool * R;                       (* io_uring_get_sqe: a slot, or null *)
  fill : sqe -> R -> R;                          (* prep and set_data on the slot *)
  submit : R -> Z * R;                           (* io_uring_submit *)
  wait : option Z -> R -> Z * R;                 (* io_uring_wait_cqe, with a time-out in ms *)
  ready : R -> list Z;                           (* io_uring_for_each_cqe: addresses of slots *)
  cqe_at : R -> Z -> cqe;                        (* what is in a slot *)
  advance : nat -> R -> R                        (* io_uring_cq_advance: the first slots are given back *)
}.

(** [queued]: the requests filled in and not submitted; [submitted]: all those the
    kernel has been given. *)
Class RingLaws (R : Type) `{Ring R} := {
  queued : R -> list sqe;
  submitted : R -> list sqe;
  get_null r r' : get_sqe r = (false, r') -> r' = r;
  get_slot r r' x : get_sqe r = (true, r') ->
    queued (fill x r') = queued r ++ [x] /\ submitted (fill x r') = submitted r;
  submit_some r n r' : submit r = (n, r') -> 0 <= n ->
    n <= Z.of_nat (length (queued r)) /\ queued r' = drop (Z.to_nat n) (queued r) /\
    submitted r' = submitted r ++ take (Z.to_nat n) (queued r);
  submit_error r n r' : submit r = (n, r') -> n < 0 -> r' = r;
  wait_laws t r : queued (wait t r).2 = queued r /\ submitted (wait t r).2 = submitted r;
  advance_laws n r : queued (advance n r) = queued r /\ submitted (advance n r) = submitted r
}.

Definition ETIME : Z := 62.
Definition min_submit_sqes_ : Z := 4.

(** [UringContext] *)
Record context := { handle_ : Z; res : Z }.

(** The poller, the contexts, the functors queued for the loop's thread (each
    holds a context's address), the reads of the eventfd, and the rest of the
    program. *)
Record uring (R X : Type) := {
  ring : R;
  initialized_ : bool;
  wakeupPollArmed_ : bool;
  pending_sqes_ : Z;
  active_cqes_ : list Z;
  contexts : gmap Z context;
  others : list Z;
  drained : nat;
  ext : X
}.
Arguments Build_uring {R X}.
Arguments ring {R X}. Arguments initialized_ {R X}. Arguments wakeupPollArmed_ {R X}. Arguments pending_sqes_ {R X}.
Arguments active_cqes_ {R X}. Arguments contexts {R X}. Arguments others {R X}. Arguments drained {R X}. Arguments ext {R X}.

Section UringPoller.
Context {R X : Type} `{Ring R}.
Context (wakeupFd : Z).
Abbreviation U := (uring R X).
Implicit Types (u : U).

Definition set_ring (r : R) u : U :=
  {| ring := r; initialized_ := initialized_ u; wakeupPollArmed_ := wakeupPollArmed_ u; pending_sqes_ := pending_sqes_ u;
     active_cqes_ := active_cqes_ u; contexts := contexts u; others := others u; drained := drained u; ext := ext u |}.
Definition set_armed (b : bool) u : U :=
  {| ring := ring u; initialized_ := initialized_ u; wakeupPollArmed_ := b; pending_sqes_ := pending_sqes_ u;
     active_cqes_ := active_cqes_ u; contexts := contexts u; others := others u; drained := drained u; ext := ext u |}.
Definition set_pending (n : Z) u : U :=
  {| ring := ring u; initialized_ := initialized_ u; wakeupPollArmed_ := wakeupPollArmed_ u; pending_sqes_ := n;
     active_cqes_ := active_cqes_ u; contexts := contexts u; others := others u; drained := drained u; ext := ext u |}.
Definition set_active (l : list Z) u : U :=
  {| ring := ring u; initialized_ := initialized_ u; wakeupPollArmed_ := wakeupPollArmed_ u; pending_sqes_ := pending_sqes_ u;
     active_cqes_ := l; contexts := contexts u; others := others u; drained := drained u; ext := ext u |}.
Definition set_contexts (m : gmap Z context) u : U :=
  {| ring := ring u; initialized_ := initialized_ u; wakeupPollArmed_ := wakeupPollArmed_ u; pending_sqes_ := pending_sqes_ u;
     active_cqes_ := active_cqes_ u; contexts := m; others := others u; drained := drained u; ext := ext u |}.
Definition set_others (l : list Z) u : U :=
  {| ring := ring u; initialized_ := initialized_ u; wakeupPollArmed_ := wakeupPollArmed_ u; pending_sqes_ := pending_sqes_ u;
     active_cqes_ := active_cqes_ u; contexts := contexts u; others := l; drained := drained u; ext := ext u |}.
Definition add_drained u : U :=
  {| ring := ring u; initialized_ := initialized_ u; wakeupPollArmed_ := wakeupPollArmed_ u; pending_sqes_ := pending_sqes_ u;
     active_cqes_ := active_cqes_ u; contexts := contexts u; others := others u; drained := S (drained u); ext := ext u |}.

(** [io_uring_submit(&uring_)] *)
Definition sys_submit : ST U Z :=
  u ← get; let '(n, r) := submit (ring u) in _ ← put (set_ring r u); mret n.

Definition submitPendingSqes : ST U unit :=
  u ← get;
  when (0 <? pending_sqes_ u)
    (ret ← sys_submit;
     when (0 <=? ret) (modify (fun u => set_pending (pending_sqes_ u - ret) u))).

Definition submitIfNeeded : ST U unit :=
  u ← get; when (min_submit_sqes_ <=? pending_sqes_ u) submitPendingSqes.

Definition try_sqe : ST U bool :=
  u ← get; let '(ok, r) := get_sqe (ring u) in _ ← put (set_ring r u); mret ok.

(** [getSqe]: one more try after a submission when the queue is full. *)
Definition getSqe : ST U bool :=
  ok ← try_sqe;
  if (ok : bool) then mret true else _ ← submitPendingSqes; try_sqe.

(** The rest of the [submit...] functions. *)
Definition enqueue (x : sqe) : ST U bool :=
  _ ← modify (fun u => set_ring (fill x (ring u)) u);
  _ ← modify (fun u => set_pending (pending_sqes_ u + 1) u);
  mret true.

Definition submitRead (fd buf count ctx : Z) : ST U bool :=
  ok ← getSqe; if (ok : bool) then enqueue {| req := prep_read fd buf count; data := Some ctx |} else mret false.
Definition submitWrite (fd buf count ctx : Z) : ST U bool :=
  ok ← getSqe; if (ok : bool) then enqueue {| req := prep_write fd buf count; data := Some ctx |} else mret false.
Definition submitAccept (fd ctx : Z) : ST U bool :=
  ok ← getSqe; if (ok : bool) then enqueue {| req := prep_accept fd; data := Some ctx |} else mret false.

Definition registerWakeupPoll : ST U unit :=
  ok ← getSqe;
  if (ok : bool) then
    _ ← enqueue {| req := prep_poll_add wakeupFd; data := None |};
    _ ← modify (set_armed true);
    submitPendingSqes
  else mret tt.

(** [initUring]; [ret] is what [io_uring_queue_init] returned.  The constructor logs
    at FATAL when it failed. *)
Definition initUring (ret : Z) : ST U bool :=
  if ret <? 0 then mret false
  else
    _ ← modify (fun u => {| ring := ring u; initialized_ := true; wakeupPollArmed_ := wakeupPollArmed_ u;
       pending_sqes_ := pending_sqes_ u; active_cqes_ := active_cqes_ u; contexts := contexts u; others := others u;
       drained := drained u; ext := ext u |});
    _ ← registerWakeupPoll; mret true.

Definition new_poller (ret : Z) (r : R) (x : X) : outcome U :=
  match initUring ret {| ring := r; initialized_ := false; wakeupPollArmed_ := false; pending_sqes_ := 0;
      active_cqes_ := []; contexts := ∅; others := []; drained := 0; ext := x |} with
  | Done (ok, u) => if (ok : bool) then Done u else Fail Aborted
  | Fail f => Fail f
  end.

(** ** Completions *)

(* what resuming a coroutine does, and whether the caller is the loop's thread *)
Context (resume : Z -> ST U unit) (inLoop : bool).

Definition handleCompletion (slot : Z) : ST U unit :=
  u ← get;
  let c := cqe_at (ring u) slot in
  match cqe_data c with
  | None =>
      _ ← modify add_drained;
      _ ← modify (set_armed false);
      registerWakeupPoll
  | Some p =>
      u ← get;
      ctx ← deref (contexts u !! p);
      _ ← modify (fun u => set_contexts (<[p := {| handle_ := handle_ ctx; res := cqe_res c |}]> (contexts u)) u);
      if inLoop then resume (handle_ ctx)
      else modify (fun u => set_others (others u ++ [p]) u)
  end.

Definition handleCompletions : ST U unit := u ← get; for_each (active_cqes_ u) handleCompletion.

(** The first half of [poll]: the pending requests are submitted, then it waits. *)
Definition reap (timeoutMs : Z) : ST U Z :=
  u ← get;
  _ ← when (negb (pending_sqes_ u =? 0))
        (ret ← sys_submit; when (0 <? ret) (modify (fun u => set_pending (pending_sqes_ u - ret) u)));
  u ← get;
  let '(ret, r) := wait (if 0 <=? timeoutMs then Some timeoutMs else None) (ring u) in
  _ ← put (set_ring r u);
  mret ret.

(** The second half: the completions are collected, given back and handled. *)
Definition deliver : ST U unit :=
  u ← get;
  let count := length (ready (ring u)) in
  _ ← modify (set_active (active_cqes_ u ++ ready (ring u)));
  when (0 <? count)%nat
    (_ ← modify (fun u => set_ring (advance count (ring u)) u);
     _ ← handleCompletions;
     modify (set_active [])).

(** [poll]: the return value, a time stamp, is not modelled. *)
Definition poll (timeoutMs : Z) : ST U unit :=
  u ← get;
  if negb (initialized_ u) then mret tt
  else
    ret ← reap timeoutMs;
    if (ret <? 0) && negb (ret =? - ETIME) then mret tt else deliver.

(** ** The awaiters *)

(** [ctx_->handle_ = h] *)
Definition set_handle (ctx h : Z) : ST U unit :=
  u ← get;
  c ← deref (contexts u !! ctx);
  modify (fun u => set_contexts (<[ctx := {| handle_ := h; res := res c |}]> (contexts u)) u).

(** [wait_read], [wait_write], [wait_accept] of UringEventLoop ignore the result. *)
Definition read_await_suspend (fd buf len ctx h : Z) : ST U unit :=
  _ ← set_handle ctx h; _ ← submitRead fd buf len ctx; submitIfNeeded.
Definition write_await_suspend (fd buf len ctx h : Z) : ST U unit :=
  _ ← set_handle ctx h; _ ← submitWrite fd buf len ctx; submitIfNeeded.
Definition accept_await_suspend (fd ctx h : Z) : ST U unit :=
  _ ← set_handle ctx h; _ ← submitAccept fd ctx; submitIfNeeded.

(** [await_resume] *)
Definition await_resume (ctx : Z) : ST U Z := u ← get; c ← deref (contexts u !! ctx); mret (res c).
End UringPoller.

(** ** Accounting *)

Section Laws.
Context {R X : Type} `{HR : Ring R} `{HL : !RingLaws R}.
Context (wakeupFd : Z).
Abbreviation U := (uring R X).
Implicit Types (u : U).

(** The counter counts the requests that are filled in and not submitted. *)
Definition counted u : Prop := pending_sqes_ u = Z.of_nat (length (queued (ring u))).

(** All requests ever made, oldest first. *)
Definition requests u : list sqe := submitted (ring u) ++ queued (ring u).

(** From [u] to [u']: nothing but new requests [l]. *)
Definition adds (l : list sqe) u u' : Prop :=
  counted u' /\ requests u' = requests u ++ l /\ contexts u' = contexts u /\ others u' = others u /\ ext u' = ext u /\
  initialized_ u' = initialized_ u /\ drained u' = drained u /\ submitted (ring u) `prefix_of` submitted (ring u').

Lemma adds_refl u : counted u -> adds [] u u.
Proof. intros C. split_and!; try done. now rewrite app_nil_r. Qed.

Lemma adds_trans l1 l2 u1 u2 u3 : adds l1 u1 u2 -> adds l2 u2 u3 -> adds (l1 ++ l2) u1 u3.
Proof.
  intros (_ & R1 & C1 & O1 & X1 & I1 & D1 & S1) (K & R2 & C2 & O2 & X2 & I2 & D2 & S2). split_and!; try congruence.
  - now rewrite R2, R1, app_assoc.
  - now transitivity (submitted (ring u2)).
Qed.

Lemma submit_requests r n r' : submit r = (n, r') ->
  submitted r' ++ queued r' = submitted r ++ queued r /\
  (0 <= n -> Z.of_nat (length (queued r')) = Z.of_nat (length (queued r)) - n) /\ (n < 0 -> r' = r) /\
  submitted r `prefix_of` submitted r'.
Proof.
  intros E. destruct (Z.ltb_spec n 0) as [Hn|Hn].
  - rewrite (submit_error _ _ _ E Hn). split_and!; [done|lia|done..].
  - destruct (submit_some _ _ _ E Hn) as (Hl & Hq & Hs). rewrite Hq, Hs.
    split_and!; [now rewrite <-app_assoc, take_drop|intros _; rewrite length_drop; lia|lia|now apply prefix_app_r].
Qed.

Lemma submitPendingSqes_adds u : counted u -> exists u', submitPendingSqes u = Done (tt, u') /\ adds [] u u'.
Proof.
  intros C. unfold submitPendingSqes. st_get. destruct (Z.ltb_spec 0 (pending_sqes_ u)) as [_|_]; cbn [when].
  2: { exists u. split; [done|now apply adds_refl]. }
  unfold sys_submit. rewrite bind_assoc, bind_get. destruct (submit (ring u)) as [n r] eqn:E. rewrite bind_assoc.
  erewrite bind_done by reflexivity. rewrite bind_ret_l.
  destruct (submit_requests _ _ _ E) as (Hr & Hn & He & Hp). destruct (Z.leb_spec 0 n) as [H0|H0]; cbn [when].
  - eexists. split; [reflexivity|]. split_and!; try done; cbn; [unfold counted in *; cbn; rewrite (Hn H0); lia|unfold requests; cbn; now rewrite app_nil_r].
  - eexists. split; [reflexivity|]. rewrite (He H0). destruct u. now apply adds_refl.
Qed.

Lemma submitIfNeeded_adds u : counted u -> exists u', submitIfNeeded u = Done (tt, u') /\ adds [] u u'.
Proof.
  intros C. unfold submitIfNeeded. st_get. destruct (min_submit_sqes_ <=? pending_sqes_ u); cbn [when].
  - now apply submitPendingSqes_adds.
  - exists u. split; [done|now apply adds_refl].
Qed.

(** A slot, or none; [u1] is the state whose queue the slot extends. *)
Lemma getSqe_cases u : counted u -> exists ok u1 r,
  getSqe u = Done (ok, set_ring r u1) /\ adds [] u u1 /\ get_sqe (ring u1) = (ok, r).
Proof.
  intros C. unfold getSqe, try_sqe. rewrite bind_assoc, bind_get.
  destruct (get_sqe (ring u)) as [ok r] eqn:E. rewrite bind_assoc. erewrite bind_done by reflexivity.
  rewrite bind_ret_l. destruct ok.
  { exists true, u, r. split_and!; [done|now apply adds_refl|done]. }
  rewrite (get_null _ _ E). replace (set_ring (ring u) u) with u by now destruct u.
  destruct (submitPendingSqes_adds u C) as (u1 & E1 & A1). st_step E1. rewrite bind_get.
  destruct (get_sqe (ring u1)) as [ok2 r2] eqn:E2. erewrite bind_done by reflexivity.
  exists ok2, u1, r2. now split_and!.
Qed.

(** Whether [getSqe] finds a slot. *)
Definition has_slot u : bool := match getSqe u with Done (ok, _) => ok | Fail _ => false end.

Lemma has_slot_contexts m u : has_slot (set_contexts m u) = has_slot u.
Proof.
  unfold has_slot, getSqe, try_sqe, submitPendingSqes, sys_submit. destruct u as [r i a n l cs o d x].
  st_simpl. destruct (get_sqe r) as [[] r1]; cbn; [reflexivity|]. destruct (0 <? n); cbn.
  - destruct (submit r1) as [k r2]; cbn. destruct (0 <=? k); cbn; now destruct (get_sqe r2).
  - now destruct (get_sqe r1).
Qed.

(** The body of the [submit...] functions. *)
Lemma submit_request_adds (x : sqe) u : counted u ->
  exists u', (ok ← getSqe; if (ok : bool) then enqueue x else mret false) u = Done (has_slot u, u') /\
    adds (if has_slot u then [x] else []) u u'.
Proof.
  intros C. destruct (getSqe_cases u C) as (ok & u1 & r & E & A & Eg). st_step E.
  replace (has_slot u) with ok by (unfold has_slot; now rewrite E). destruct ok.
  - destruct (get_slot _ _ x Eg) as [Hq Hs]. eexists. split; [reflexivity|].
    change [x] with ([] ++ [x]). apply (adds_trans _ _ _ _ _ A). destruct A as (C1 & _).
    split_and!; try done; cbn.
    + unfold counted in *. cbn. rewrite Hq, length_app. cbn. lia.
    + unfold requests. cbn. now rewrite Hq, Hs, app_assoc.
    + now rewrite Hs.
  - rewrite (get_null _ _ Eg). exists u1. split; [|exact A]. now destruct u1.
Qed.

Lemma adds_armed b l u u' : adds l u u' -> adds l u (set_armed b u').
Proof. intros A. exact A. Qed.

Lemma registerWakeupPoll_adds u : counted u ->
  exists u', registerWakeupPoll wakeupFd u = Done (tt, u') /\
    adds (if has_slot u then [{| req := prep_poll_add wakeupFd; data := None |}] else []) u u'.
Proof.
  intros C. unfold registerWakeupPoll. destruct (getSqe_cases u C) as (ok & u1 & r & E & A & Eg). st_step E.
  replace (has_slot u) with ok by (unfold has_slot; now rewrite E). destruct ok.
  - set (x := {| req := prep_poll_add wakeupFd; data := None |}).
    destruct (get_slot _ _ x Eg) as [Hq Hs].
    assert (A1 : adds [x] u1 (set_armed true (set_pending (pending_sqes_ u1 + 1) (set_ring (fill x r) u1)))).
    { destruct A as (C1 & _). split_and!; try done; cbn.
      - unfold counted in *. cbn. rewrite Hq, length_app. cbn. lia.
      - unfold requests. cbn. now rewrite Hq, Hs, app_assoc.
      - now rewrite Hs. }
    unfold enqueue. rewrite !bind_assoc, !bind_modify. cbn [ring set_ring].
    rewrite bind_assoc, bind_modify, bind_ret_l, bind_modify. cbn [pending_sqes_ set_ring].
    destruct (submitPendingSqes_adds _ (proj1 A1)) as (u2 & E2 & A2). exists u2. split; [exact E2|].
    change [x] with ([] ++ [x]). apply (adds_trans _ _ _ _ _ A). rewrite <-(app_nil_r [x]). exact (adds_trans _ _ _ _ _ A1 A2).
  - rewrite (get_null _ _ Eg). exists u1. split; [|exact A]. now destruct u1.
Qed.

Lemma set_handle_done ctx h u c : contexts u !! ctx = Some c ->
  set_handle ctx h u = Done (tt, set_contexts (<[ctx := {| handle_ := h; res := res c |}]> (contexts u)) u).
Proof. intros E. unfold set_handle. st_get. rewrite E. reflexivity. Qed.

(** What an awaiter does: [x] is its request. *)
Lemma await_adds x ctx h u c : counted u -> contexts u !! ctx = Some c ->
  let u0 := set_contexts (<[ctx := {| handle_ := h; res := res c |}]> (contexts u)) u in
  exists u', (_ ← set_handle ctx h; _ ← (ok ← getSqe; if (ok : bool) then enqueue x else mret false); submitIfNeeded) u
    = Done (tt, u') /\ adds (if has_slot u then [x] else []) u0 u'.
Proof.
  intros C E u0. st_step (set_handle_done ctx h u c E). fold u0.
  assert (C0 : counted u0) by exact C. destruct (submit_request_adds x u0 C0) as (u1 & E1 & A1).
  st_step E1. destruct (submitIfNeeded_adds u1 (proj1 A1)) as (u2 & E2 & A2). unfold u0 in A1 at 1. rewrite has_slot_contexts in A1.
  exists u2. split; [exact E2|]. rewrite <-(app_nil_r (if has_slot u then [x] else [])). exact (adds_trans _ _ _ _ _ A1 A2).
Qed.

(** The requests made through the poller's interface. *)
Inductive call :=
  | AwaitRead (fd buf len : Z)
  | AwaitWrite (fd buf len : Z)
  | AwaitAccept (fd : Z).

Definition await_suspend (a : call) (ctx h : Z) : ST U unit :=
  match a with
  | AwaitRead fd buf len => read_await_suspend fd buf len ctx h
  | AwaitWrite fd buf len => write_await_suspend fd buf len ctx h
  | AwaitAccept fd => accept_await_suspend fd ctx h
  end.

Definition request_of (a : call) : request :=
  match a with
  | AwaitRead fd buf len => prep_read fd buf len
  | AwaitWrite fd buf len => prep_write fd buf len
  | AwaitAccept fd => prep_accept fd
  end.

(** a coroutine that awaits a read, write or accept is stored in its context, and
    its request, with the address of the context, is the newest of all requests,
    counted as pending or submitted already - if the submission queue has a slot
    for it, after it has been submitted once when it was full.  If it has none,
    the failure is ignored: no request carries the context, and the coroutine is
    suspended for good. *)
Theorem await_makes_request a ctx h u c : counted u -> contexts u !! ctx = Some c ->
  exists u', await_suspend a ctx h u = Done (tt, u') /\ counted u' /\
    contexts u' = <[ctx := {| handle_ := h; res := res c |}]> (contexts u) /\
    requests u' = requests u ++ (if has_slot u then [{| req := request_of a; data := Some ctx |}] else []).
Proof.
  intros C E. set (x := {| req := request_of a; data := Some ctx |}).
  destruct (await_adds x ctx h u c C E) as (u' & E' & C' & R' & X' & _).
  exists u'. split_and!; [destruct a; exact E'|exact C'|exact X'|exact R'].
Qed.
End Laws.

(** ** Delivery *)

(** The completion slots stay as they are while their completions are handled,
    although they have been given back: so it is as long as fewer completions come
    in meanwhile than the ring has slots. *)
Class QuietSlots (R : Type) `{Ring R} := {
  quiet_get r : cqe_at (get_sqe r).2 = cqe_at r;
  quiet_fill x r : cqe_at (fill x r) = cqe_at r;
  quiet_submit r : cqe_at (submit r).2 = cqe_at r;
  quiet_advance n r : cqe_at (advance n r) = cqe_at r
}.

Section Delivery.
(* the rest of the program is the record of the resumptions, each with the result
   the coroutine finds *)
Context {R : Type} `{HR : Ring R} `{HL : !RingLaws R} `{HQ : !QuietSlots R}.
Context (wakeupFd : Z).
Abbreviation U := (uring R (list (Z * Z))).
Implicit Types (u : U).
Context (resume : Z -> ST U unit) (context_of : Z -> Z).

(** A coroutine may make requests and new contexts while it runs, and frees the
    context it waited on. *)
Definition resume_ok : Prop := forall h u c, counted u -> contexts u !! context_of h = Some c ->
  exists u', resume h u = Done (tt, u') /\ counted u' /\ (exists l, requests u' = requests u ++ l) /\
    cqe_at (ring u') = cqe_at (ring u) /\ others u' = others u /\ ext u' = ext u ++ [(h, res c)] /\
    (forall p d, p <> context_of h -> contexts u !! p = Some d -> contexts u' !! p = Some d).

(** The contexts the completions refer to. *)
Definition waited (f : Z -> cqe) (slots : list Z) : list Z := omap (fun s => cqe_data (f s)) slots.

(** They are alive, and hold the coroutines that wait on them. *)
Definition slot_ok u (slot : Z) : Prop :=
  match cqe_data (cqe_at (ring u) slot) with
  | None => True
  | Some p => exists c, contexts u !! p = Some c /\ context_of (handle_ c) = p
  end.

(** What a completion gives to whom. *)
Definition result_of u (slot : Z) : list (Z * Z) :=
  match cqe_data (cqe_at (ring u) slot) with
  | None => []
  | Some p => if contexts u !! p is Some c then [(handle_ c, cqe_res (cqe_at (ring u) slot))] else []
  end.

(** From [u] to [u']: completions for the contexts [ps] are handled, with the
    results [l]. *)
Definition handled (ps : list Z) (l : list (Z * Z)) u u' : Prop :=
  counted u' /\ (exists l, requests u' = requests u ++ l) /\ cqe_at (ring u') = cqe_at (ring u) /\
  others u' = others u /\ ext u' = ext u ++ l /\
  (forall p c, p ∉ ps -> contexts u !! p = Some c -> contexts u' !! p = Some c).

Lemma try_sqe_quiet u ok u' : try_sqe u = Done (ok, u') -> cqe_at (ring u') = cqe_at (ring u).
Proof.
  unfold try_sqe. rewrite bind_get. pose proof (quiet_get (ring u)) as Hq. destruct (get_sqe (ring u)) as [k r].
  intros [= _ <-]. exact Hq.
Qed.

Lemma submitPendingSqes_quiet u t u' : submitPendingSqes u = Done (t, u') -> cqe_at (ring u') = cqe_at (ring u).
Proof.
  unfold submitPendingSqes, sys_submit. rewrite bind_get. destruct (0 <? pending_sqes_ u); cbn [when]; [|now intros [= _ <-]].
  rewrite bind_assoc, bind_get. pose proof (quiet_submit (ring u)) as Hq. destruct (submit (ring u)) as [k r].
  rewrite bind_assoc. erewrite bind_done by reflexivity. rewrite bind_ret_l.
  destruct (0 <=? k); cbn [when]; intros [= _ <-]; exact Hq.
Qed.

Lemma getSqe_quiet u ok u' : getSqe u = Done (ok, u') -> cqe_at (ring u') = cqe_at (ring u).
Proof.
  unfold getSqe. intros (k & u1 & E1 & E2)%bind_inv. apply try_sqe_quiet in E1 as H1. destruct k.
  - injection E2 as _ <-. exact H1.
  - apply bind_inv in E2 as (t & u2 & E2 & E3). apply submitPendingSqes_quiet in E2. apply try_sqe_quiet in E3. congruence.
Qed.

Lemma registerWakeupPoll_quiet u t u' : registerWakeupPoll wakeupFd u = Done (t, u') -> cqe_at (ring u') = cqe_at (ring u).
Proof.
  unfold registerWakeupPoll. intros (k & u1 & E1 & E2)%bind_inv. apply getSqe_quiet in E1. destruct k.
  - unfold enqueue in E2. rewrite !bind_assoc, !bind_modify in E2. cbn [ring set_ring] in E2.
    rewrite bind_assoc, bind_modify, bind_ret_l, bind_modify in E2.
    apply submitPendingSqes_quiet in E2. cbn [ring set_armed set_pending set_ring] in E2. rewrite quiet_fill in E2. congruence.
  - now injection E2 as _ <-.
Qed.

Lemma handle_one slot u : resume_ok -> counted u -> slot_ok u slot ->
  exists u', handleCompletion wakeupFd resume true slot u = Done (tt, u') /\
    handled (waited (cqe_at (ring u)) [slot]) (result_of u slot) u u'.
Proof.
  intros Hres C Hs. unfold handleCompletion, slot_ok, result_of, waited in *. st_get. cbn [omap list_omap].
  destruct (cqe_data (cqe_at (ring u) slot)) as [p|].
  - destruct Hs as (c & Ec & Hc). st_get. rewrite Ec. cbn [deref]. rewrite bind_ret_l, bind_modify.
    set (c1 := {| handle_ := handle_ c; res := cqe_res (cqe_at (ring u) slot) |}).
    set (u1 := set_contexts (<[p := c1]> (contexts u)) u).
    destruct (Hres (handle_ c) u1 c1 C ltac:(rewrite Hc; apply lookup_insert_eq)) as (u2 & E & C2 & R2 & Q2 & O2 & X2 & M2).
    exists u2. split; [exact E|]. split_and!; [exact C2|exact R2|exact Q2|exact O2|exact X2|].
    intros q d Hq Ed. apply M2; [set_solver|]. unfold u1. cbn. now rewrite lookup_insert_ne by set_solver.
  - do 2 st_modify. set (u1 := set_armed false (add_drained u)).
    destruct (registerWakeupPoll_adds wakeupFd u1 C) as (u2 & E & C2 & R2 & X2 & O2 & T2 & _).
    exists u2. split; [exact E|]. split_and!; [exact C2|eauto|exact (registerWakeupPoll_quiet _ _ _ E)|exact O2| |].
    + rewrite T2. symmetry. apply app_nil_r.
    + intros p c _ Ec. now rewrite X2.
Qed.

(** A completion that is still to be handled finds its context as it was. *)
Lemma slot_kept u u' ps l slot : handled ps l u u' -> (forall p, p ∈ waited (cqe_at (ring u)) [slot] -> p ∉ ps) ->
  slot_ok u slot -> slot_ok u' slot /\ result_of u' slot = result_of u slot.
Proof.
  intros (_ & _ & Q & _ & _ & M) Hp. unfold waited, slot_ok, result_of in *. rewrite Q. cbn [omap list_omap] in Hp.
  destruct (cqe_data _) as [p|]; [|done]. intros (c & Ec & Hc).
  rewrite (M p c (Hp p ltac:(set_solver)) Ec), Ec. eauto.
Qed.

Lemma handle_all slots u : resume_ok -> counted u -> NoDup (waited (cqe_at (ring u)) slots) -> Forall (slot_ok u) slots ->
  exists u', for_each slots (handleCompletion wakeupFd resume true) u = Done (tt, u') /\
    handled (waited (cqe_at (ring u)) slots) (slots ≫= result_of u) u u'.
Proof.
  intros Hres. revert u. induction slots as [|slot slots IH]; intros u C Hnd Hs.
  - exists u. split; [done|]. split_and!; try done; [exists []|]; now rewrite app_nil_r.
  - apply Forall_cons in Hs as [H1 Hs]. destruct (handle_one slot u Hres C H1) as (u1 & E1 & A1).
    assert (Hw : waited (cqe_at (ring u)) (slot :: slots) = waited (cqe_at (ring u)) [slot] ++ waited (cqe_at (ring u)) slots).
    { unfold waited. cbn [omap list_omap]. now destruct (cqe_data _). }
    rewrite Hw in *. apply NoDup_app in Hnd as (_ & Hd & Hnd).
    assert (K : Forall (fun s => slot_ok u1 s /\ result_of u1 s = result_of u s) slots).
    { rewrite Forall_forall in Hs |- *. intros s Hin. apply (slot_kept _ _ _ _ _ A1); [|now apply Hs].
      intros p Hp Hp'. apply (Hd p Hp'). unfold waited in *. apply list_elem_of_omap in Hp as (s' & Hs' & E).
      apply list_elem_of_omap. exists s'. set_solver. }
    pose proof A1 as (C1 & [l1 R1] & Q1 & O1 & X1 & M1).
    destruct (IH u1 C1) as (u2 & E2 & C2 & [l2 R2] & Q2 & O2 & X2 & M2).
    { now rewrite Q1. }
    { eapply Forall_impl; [exact K|]. now intros s []. }
    rewrite Q1 in M2. exists u2. rewrite (for_each_cons _ _ _ _ _ E1). split; [exact E2|].
    split_and!; [exact C2|exists (l1 ++ l2); now rewrite R2, R1, app_assoc|congruence|congruence| |].
    + rewrite X2, X1, <-app_assoc. do 2 f_equal. cbn [mbind list_bind]. f_equal.
      clear -K. induction K as [|s l [_ Hs] Hl IH]; cbn; [done|]. now rewrite Hs, IH.
    + intros p c Hp Ec. apply M2; [set_solver|]. apply M1; [set_solver|exact Ec].
Qed.

(** the second half of [poll], when the completions given back are not overwritten
    while they are handled, resumes every coroutine whose request has completed
    once, in the order of the completions, with the result of its request in its
    context; the requests the coroutines make meanwhile are counted, and the
    wake-up poll among the completions is armed again if there is a slot for it. *)
Theorem completions_are_delivered u : resume_ok -> counted u -> active_cqes_ u = [] ->
  NoDup (waited (cqe_at (ring u)) (ready (ring u))) -> Forall (slot_ok u) (ready (ring u)) ->
  exists u', deliver wakeupFd resume true u = Done (tt, u') /\ counted u' /\
    ext u' = ext u ++ (ready (ring u) ≫= result_of u) /\ (exists l, requests u' = requests u ++ l) /\
    active_cqes_ u' = [] /\ others u' = others u.
Proof.
  intros Hres C Ha Hnd Hs. unfold deliver. st_get. rewrite bind_modify, Ha. cbn [app].
  destruct (ready (ring u)) as [|slot slots] eqn:Er; cbn [length].
  { cbn [Nat.ltb Nat.leb when]. eexists. split; [reflexivity|]. split_and!; try done; [|exists []]; cbn; now rewrite app_nil_r. }
  cbn [Nat.ltb Nat.leb when]. rewrite bind_modify. cbn [ring set_active].
  set (n := S (length slots)). set (u1 := set_ring (advance n (ring u)) (set_active (slot :: slots) u)).
  destruct (advance_laws n (ring u)) as [Hq Hsub].
  assert (C1 : counted u1) by (unfold counted, u1; cbn; now rewrite Hq).
  assert (Hat : cqe_at (ring u1) = cqe_at (ring u)) by (cbn; apply quiet_advance).
  assert (Hs1 : Forall (slot_ok u1) (slot :: slots)).
  { eapply Forall_impl; [exact Hs|]. intros s. unfold slot_ok. now rewrite Hat. }
  destruct (handle_all (slot :: slots) u1 Hres C1 ltac:(now rewrite Hat) Hs1) as (u2 & E2 & C2 & [l R2] & _ & O2 & X2 & _).
  assert (E3 : handleCompletions wakeupFd resume true u1 = Done (tt, u2)) by (unfold handleCompletions; st_get; exact E2).
  st_step E3. eexists. split; [reflexivity|]. split_and!; [exact C2| |exists l|done|exact O2].
  - cbn [ext set_active]. rewrite X2. f_equal. unfold result_of. now rewrite Hat.
  - cbn. unfold requests in *. cbn in *. rewrite R2, Hq, Hsub. reflexivity.
Qed.
End Delivery.

(** ** A concrete ring *)

Module Demo.
(** A submission queue of two slots; the kernel completes what it is given at once,
    a request of [n] bytes with the result [n]; when it is busy it takes nothing. *)
Record toy := { queue : list sqe; given : list sqe; slots : list cqe; seen : nat; busy : bool }.

Definition complete (x : sqe) : cqe :=
  {| cqe_data := data x;
     cqe_res := match req x with prep_read _ _ n | prep_write _ _ n => n | prep_accept _ => 9 | prep_poll_add _ => 1 end |}.

#[local] Instance toy_ring : Ring toy := {
  get_sqe r := ((length (queue r) <? 2)%nat, r);
  fill x r := {| queue := queue r ++ [x]; given := given r; slots := slots r; seen := seen r; busy := busy r |};
  submit r := if busy r then (-16, r)
    else (Z.of_nat (length (queue r)),
          {| queue := []; given := given r ++ queue r; slots := slots r; seen := seen r; busy := busy r |});
  wait _ r := (0, {| queue := queue r; given := given r; slots := slots r ++ map complete (drop (length (slots r)) (given r));
                     seen := seen r; busy := busy r |});
  ready r := map Z.of_nat (seq (seen r) (length (slots r) - seen r));
  cqe_at r i := nth (Z.to_nat i) (slots r) {| cqe_data := None; cqe_res := 0 |};
  advance n r := {| queue := queue r; given := given r; slots := slots r; seen := (seen r + n)%nat; busy := busy r |}
}.

#[local] Program Instance toy_laws : RingLaws toy := {| queued := queue; submitted := given |}.
Next Obligation. cbn. congruence. Qed.
Next Obligation. cbn. intros r r' x [= _ <-]. done. Qed.
Next Obligation.
  cbn. intros r n r'. destruct (busy r); intros [= <- <-] Hn; [lia|]. cbn.
  rewrite Nat2Z.id, drop_all, take_ge by lia. split; [lia|done].
Qed.
Next Obligation. cbn. intros r n r'. destruct (busy r); intros [= <- <-] Hn; [done|lia]. Qed.
Next Obligation. done. Qed.
Next Obligation. done. Qed.

#[local] Program Instance toy_quiet : QuietSlots toy.
Next Obligation. done. Qed.
Next Obligation. done. Qed.
Next Obligation. intros r. cbn. now destruct (busy r). Qed.
Next Obligation. done. Qed.

Definition toy0 (b : bool) : toy := {| queue := []; given := []; slots := []; seen := 0; busy := b |}.

(** Contexts 1, 2 and 3, coroutine [h] waits on context [h]. *)
Definition start (b : bool) : uring toy (list (Z * Z)) :=
  {| ring := toy0 b; initialized_ := true; wakeupPollArmed_ := false; pending_sqes_ := 0; active_cqes_ := [];
     contexts := <[1 := {| handle_ := 0; res := -1 |}]> (<[2 := {| handle_ := 0; res := -1 |}]>
       (<[3 := {| handle_ := 0; res := -1 |}]> ∅)); others := []; drained := 0; ext := [] |}.

Definition after {S} (m : ST S unit) (s : S) : S := match m s with Done (_, s') => s' | Fail _ => s end.

(** Two coroutines wait; on a busy kernel the queue is full then. *)
Definition two_wait (b : bool) : uring toy (list (Z * Z)) :=
  after (_ ← await_suspend (AwaitRead 7 100 5) 1 1; await_suspend (AwaitWrite 7 200 6) 2 2) (start b).

(** The third coroutine's request is made, or lost. *)
Lemma await_makes_request_witness :
  (exists u', await_suspend (AwaitAccept 8) 3 3 (two_wait false) = Done (tt, u') /\ counted u' /\
    contexts u' = <[3 := {| handle_ := 3; res := -1 |}]> (contexts (two_wait false)) /\
    requests u' = requests (two_wait false) ++ [{| req := prep_accept 8; data := Some 3 |}]) /\
  (exists u', await_suspend (AwaitAccept 8) 3 3 (two_wait true) = Done (tt, u') /\ counted u' /\
    contexts u' = <[3 := {| handle_ := 3; res := -1 |}]> (contexts (two_wait true)) /\
    requests u' = requests (two_wait true) ++ []).
Proof.
  assert (Hf : has_slot (two_wait false) = true) by (vm_compute; reflexivity).
  assert (Ht : has_slot (two_wait true) = false) by (vm_compute; reflexivity).
  split.
  - pose proof (await_makes_request (AwaitAccept 8) 3 3 (two_wait false) {| handle_ := 0; res := -1 |}) as H.
    rewrite Hf in H. apply H; vm_compute; reflexivity.
  - pose proof (await_makes_request (AwaitAccept 8) 3 3 (two_wait true) {| handle_ := 0; res := -1 |}) as H.
    rewrite Ht in H. apply H; vm_compute; reflexivity.
Defined.

(** A coroutine takes its result and frees its context. *)
Definition take_result (h : Z) : ST (uring toy (list (Z * Z))) unit :=
  n ← await_resume h;
  u ← get;
  put {| ring := ring u; initialized_ := initialized_ u; wakeupPollArmed_ := wakeupPollArmed_ u;
         pending_sqes_ := pending_sqes_ u; active_cqes_ := active_cqes_ u; contexts := delete h (contexts u);
         others := others u; drained := drained u; ext := ext u ++ [(h, n)] |}.

Lemma take_result_ok : resume_ok take_result (fun h => h).
Proof.
  intros h u c C E. unfold take_result, await_resume. rewrite bind_assoc, bind_get, E. cbn [deref].
  rewrite bind_assoc, bind_ret_l, bind_ret_l, bind_get. eexists. split; [reflexivity|].
  split_and!; try done; [exists []; now rewrite app_nil_r|].
  intros p d Hp Ed. cbn. now rewrite lookup_delete_ne.
Qed.

Definition reaped : uring toy (list (Z * Z)) := after (_ ← submitPendingSqes; _ ← reap 1000; mret tt) (two_wait false).

Lemma completions_are_delivered_witness :
  exists u', deliver 5 take_result true reaped = Done (tt, u') /\ counted u' /\
    ext u' = [(1, 5); (2, 6)] /\ (exists l, requests u' = requests reaped ++ l) /\
    active_cqes_ u' = [] /\ others u' = others reaped.
Proof.
  assert (E0 : ext reaped ++ (ready (ring reaped) ≫= result_of reaped) = [(1, 5); (2, 6)]) by (vm_compute; reflexivity).
  assert (Ew : waited (cqe_at (ring reaped)) (ready (ring reaped)) = [1; 2]) by (vm_compute; reflexivity).
  assert (Er : ready (ring reaped) = [0; 1]) by (vm_compute; reflexivity).
  assert (Ec : contexts reaped !! 1 = Some {| handle_ := 1; res := -1 |}) by (vm_compute; reflexivity).
  assert (Ed : contexts reaped !! 2 = Some {| handle_ := 2; res := -1 |}) by (vm_compute; reflexivity).
  assert (E1 : cqe_data (cqe_at (ring reaped) 0) = Some 1) by (vm_compute; reflexivity).
  assert (E2 : cqe_data (cqe_at (ring reaped) 1) = Some 2) by (vm_compute; reflexivity).
  rewrite <-E0. apply (completions_are_delivered 5 take_result (fun h => h) reaped take_result_ok).
  - vm_compute. reflexivity.
  - vm_compute. reflexivity.
  - rewrite Ew. apply (bool_decide_eq_true_1 (NoDup [1; 2])). vm_compute. reflexivity.
  - rewrite Er. repeat constructor; unfold slot_ok; [rewrite E1|rewrite E2]; eauto.
Defined.
End Demo.
