(* ===== verification/UringEventLoop.v ===== *)
(** UringEventLoop: [io_uring/UringEventLoop.h] and [io_uring/UringEventLoop.cpp],
    with the wake-up of [io_uring/uring_poller.cpp].

    The class is an EventLoop with another [loop]: the state, [queueInLoop],
    [quit], [wakeup] and [doPendingFunctors] are those of EventLoop.v.  A one-shot
    poll on the eventfd takes the place of the channel; it completes when the
    counter is not zero, and has to be asked for again after every wake-up.  The
    requests of coroutines are in UringPoller.v; that the poller treats this one as
    it is here is UringWakeup.v. *)

From Stdlib Require Import ZArith Lia.
From S2P Require Import Prelude EventLoop.

Local Open Scope Z_scope.

(** The request for the wake-up: with the kernel, in the submission queue, or
    not made because the queue was full. *)
Inductive wakeup_poll := Armed | Filled | Off.

Section UringEventLoop.
Context {F : Type} (body : F -> list (cmd (F := F))).

(** [between]: the eventfd has been read and [registerWakeupPoll] is to run. *)
Record uloop := mkULoop { base : state (F := F); wakeupPoll : wakeup_poll; between : bool }.
Implicit Types (s : state (F := F)) (u : uloop).

(** What liburing and the kernel answer: whether there is a submission entry,
    whether a submission takes the entries, whether the wait ends early (after a
    second, or interrupted), the coroutines with a completion, and how many of
    them come before the wake-up. *)
Record answers := { slot : bool; taken : bool; early : bool; ready : list F; before : nat }.

Definition with_base s u : uloop := mkULoop s (wakeupPoll u) (between u).

(** The poll on the eventfd has completed. *)
Definition awake u : bool := match wakeupPoll u with Armed => 0 <? counter (base u) | _ => false end.

(** [poll] begins with a submission. *)
Definition submit (a : answers) (w : wakeup_poll) : wakeup_poll :=
  match w with Filled => if taken a then Armed else Filled | w => w end.

(** [registerWakeupPoll] *)
Definition registerWakeupPoll (a : answers) : wakeup_poll :=
  if slot a then if taken a then Armed else Filled else Off.

(** [poll] returns with the completions [l]. *)
Definition poll_return (l : list (option F)) u : uloop := with_base (set_pc (LRunning (Handling l) []) (base u)) u.

(** A step of the loop thread. *)
Definition loop_step (a : answers) u : option uloop :=
  let s := base u in
  match at_ s with
  | LInit => Some (with_base (set_pc LCheck (set_quit false (set_looping true s))) u)
  | LCheck =>
      Some (if quit_ s then with_base (set_pc LDone (set_looping false s)) u
            else mkULoop (set_pc LPoll s) (submit a (wakeupPoll u)) (between u))
  | LPoll =>
      if early a then Some (poll_return [] u)
      else if awake u then
        Some (mkULoop (set_pc (LRunning (Handling (map Some (take (before a) (ready a)) ++ None ::
                                                   map Some (drop (before a) (ready a)))) []) s) Off (between u))
      else match ready a with
           | [] => None
           | l => Some (poll_return (map Some l) u)
           end
  | LRunning (Handling []) [] | LRunning (Resuming _) [] => Some (with_base (set_pc LSwap s) u)
  | LRunning (Handling (Some f :: todo)) [] => Some (with_base (set_pc (LRunning (Handling todo) (body f)) s) u)
  | LRunning (Handling (None :: todo)) [] =>
      Some (if between u then mkULoop (set_pc (LRunning (Handling todo) []) s) (registerWakeupPoll a) false
            else mkULoop (EventLoop.handleRead s) (wakeupPoll u) true)
  | LRunning (Calling todo) [] => Some (with_base (next_in_phase body [] (Calling todo) s) u)
  | LRunning ph (c :: rest) =>
      let '(cmds, s') := run_cmd body c rest s in Some (with_base (set_pc (LRunning ph cmds) s') u)
  | LSwap => Some (with_base (set_pc (LRunning (Calling (pendingFunctors_ s)) []) (set_pending true [] s)) u)
  | LDone => None
  end.

(** Steps of the whole program, with answers in [P]; the other threads are those of
    EventLoop.v. *)
Inductive step (P : answers -> Prop) : uloop -> uloop -> Prop :=
  | step_loop a u u' : P a -> loop_step a u = Some u' -> step P u u'
  (* a coroutine that awaits submits what is in the queue *)
  | step_submit a u : P a -> step P u (mkULoop (base u) (submit a (wakeupPoll u)) (between u))
  | step_remote_queue t f u : threads (base u) t = Idle ->
      step P u (with_base (set_thread t NeedWakeup (push f (base u))) u)
  | step_remote_quit t u : threads (base u) t = Idle ->
      step P u (with_base (set_thread t NeedWakeup (set_quit true (base u))) u)
  | step_remote_wakeup t u : threads (base u) t = NeedWakeup ->
      step P u (with_base (set_thread t Idle (wakeup (base u))) u).

(** The constructor, whose poller registers the wake-up for the first time. *)
Definition uinit (a : answers) : uloop := mkULoop (init []) (registerWakeupPoll a) false.

Definition reachable (P : answers -> Prop) u : Prop := exists a, P a /\ rtc (step P) (uinit a) u.

(** ** The invariant *)

(** The counter of the eventfd is never forgotten: where EventLoop.v needs an
    edge, there is one. *)
Record RInv u : Prop := {
  u_inv : EventLoop.Inv (base u);
  u_edge : 0 < counter (base u) -> edge (base u) = true;
}.

Lemma edge_wakeup s : (0 < counter s -> edge s = true) -> edge (wakeup s) = true.
Proof.
  unfold wakeup. destruct (Z.ltb_spec (counter s) eventfd_max) as [|Hge]; cbn; [done|].
  intros He. apply He. unfold eventfd_max in Hge. lia.
Qed.

Lemma edge_cmd c rest s cmds s' : (0 < counter s -> edge s = true) -> run_cmd body c rest s = (cmds, s') ->
  0 < counter s' -> edge s' = true.
Proof.
  intros He. destruct c as [f|f| |]; cbn; intros [= <- <-]; try exact He.
  destruct (callingPendingFunctors_ s); [|exact He]. intros _. now apply edge_wakeup.
Qed.

(** The program counter moves on towards the swap. *)
Lemma Inv_before_swap p s : EventLoop.Inv s -> (0 < counter s -> edge s = true) ->
  match at_ s with LPoll | LRunning (Handling _) [] | LRunning (Resuming _) [] => True | _ => False end ->
  match p with LRunning (Handling _) [] | LSwap => True | _ => False end -> EventLoop.Inv (set_pc p s).
Proof.
  intros [] He Hs Hp. unfold batch, unread, before_swap, own_wakeup in *.
  destruct (at_ s) as [| | |[] []| |]; try done; destruct p as [| | |[] []| |]; try done; constructor; cbn; auto; try tauto; try discriminate.
Qed.

Lemma Inv_handleRead s todo : EventLoop.Inv s -> at_ s = LRunning (Handling (None :: todo)) [] ->
  EventLoop.Inv (EventLoop.handleRead s).
Proof.
  intros [] Epc. unfold EventLoop.handleRead. destruct (0 <? counter s); [|now constructor].
  constructor; unfold batch, unread, before_swap, own_wakeup in *; cbn; rewrite Epc in *; auto; try done; try lia.
Qed.

Lemma RInv_base u u' s : RInv u -> EventLoop.Inv s -> counter s = counter (base u) -> edge s = edge (base u) ->
  base u' = s -> RInv u'.
Proof. intros [] Is Hc He Hb. constructor; rewrite Hb; [exact Is|now rewrite Hc, He]. Qed.

(** Steps that the loop of EventLoop.v makes too. *)
Lemma RInv_same u u' io resumes s : RInv u -> EventLoop.loop_step body io resumes (base u) = Some s ->
  counter s = counter (base u) -> edge s = edge (base u) -> base u' = s -> RInv u'.
Proof. intros U E. apply RInv_base; [exact U|]. eapply Inv_loop_step; [apply U|exact E]. Qed.

Lemma RInv_handling a todo u u' : RInv u -> at_ (base u) = LRunning (Handling todo) [] -> loop_step a u = Some u' -> RInv u'.
Proof.
  intros U Epc. unfold loop_step. rewrite Epc. destruct todo as [|[f|] todo]; intros [= <-].
  - eapply RInv_base; [exact U|apply (Inv_before_swap LSwap); [apply U|apply U|now rewrite Epc|done]|done..].
  - eapply (RInv_same u _ ([], []) []); [exact U|unfold EventLoop.loop_step; now rewrite Epc|done..].
  - destruct (between u).
    + eapply RInv_base; [exact U|apply (Inv_before_swap (LRunning (Handling todo) [])); [apply U|apply U|now rewrite Epc|done]|done..].
    + constructor; cbn; [eapply Inv_handleRead; [apply U|exact Epc]|].
      unfold EventLoop.handleRead. destruct (0 <? counter (base u)) eqn:Ec; [cbn; lia|apply U].
Qed.

Lemma loop_step_cmd a u ph c rest cmds s' : at_ (base u) = LRunning ph (c :: rest) ->
  run_cmd body c rest (base u) = (cmds, s') -> loop_step a u = Some (with_base (set_pc (LRunning ph cmds) s') u).
Proof. intros Epc Ec. unfold loop_step. rewrite Epc, Ec. now destruct ph as [[|[]]| |]. Qed.

Lemma RInv_loop_step a u u' : RInv u -> loop_step a u = Some u' -> RInv u'.
Proof.
  intros U. destruct (at_ (base u)) as [| | |ph c| |] eqn:Epc.
  - unfold loop_step. rewrite Epc. intros [= <-].
    eapply (RInv_same u _ ([], []) []); [exact U|unfold EventLoop.loop_step; now rewrite Epc|done..].
  - unfold loop_step. rewrite Epc. intros [= <-].
    eapply (RInv_same u _ ([], []) []); [exact U|unfold EventLoop.loop_step; now rewrite Epc| | |]; now destruct (quit_ (base u)).
  - assert (Hp : forall l, EventLoop.Inv (set_pc (LRunning (Handling l) []) (base u)))
      by (intros l; apply Inv_before_swap; [apply U|apply U|now rewrite Epc|done]).
    unfold loop_step. rewrite Epc. repeat case_match; intros [= <-]; (eapply RInv_base; [exact U|apply Hp|done..]).
  - destruct c as [|c rest].
    + destruct ph as [todo|todo|todo]; [now apply (RInv_handling a todo)| |]; unfold loop_step; rewrite Epc; intros [= <-].
      * eapply RInv_base; [exact U|apply (Inv_before_swap LSwap); [apply U|apply U|now rewrite Epc|done]|done..].
      * eapply (RInv_same u _ ([], []) []); [exact U|unfold EventLoop.loop_step; now rewrite Epc| | |]; now destruct todo.
    + destruct (run_cmd body c rest (base u)) as [cmds s'] eqn:Ec. rewrite (loop_step_cmd a u _ _ _ _ _ Epc Ec).
      intros [= <-]. constructor; cbn; [eapply Inv_cmd; [apply U|exact Epc|exact Ec]|exact (edge_cmd _ _ _ _ _ (u_edge _ U) Ec)].
  - unfold loop_step. rewrite Epc. intros [= <-].
    eapply (RInv_same u _ ([], []) []); [exact U|unfold EventLoop.loop_step; now rewrite Epc|done..].
  - unfold loop_step. now rewrite Epc.
Qed.

Lemma RInv_step P u u' : RInv u -> step P u u' -> RInv u'.
Proof.
  intros U Hs. destruct Hs as [a u u' _ E|a u _|t f u Ht|t u Ht|t u Ht].
  - eapply RInv_loop_step; eauto.
  - destruct U. now constructor.
  - constructor; cbn; [apply Inv_remote_queue, U|apply U].
  - constructor; cbn; [apply Inv_remote_quit, U|apply U].
  - constructor; cbn; [apply Inv_remote_wakeup, U|intros _; apply edge_wakeup, U].
Qed.

Lemma RInv_reachable P u : reachable P u -> RInv u.
Proof.
  intros (a & _ & Hr). assert (U : RInv (uinit a)) by (constructor; [apply Inv_init|cbn; lia]).
  induction Hr; eauto using RInv_step.
Qed.

(** ** Is the wake-up asked for? *)

(** The wake-ups among the completions still to be handled. *)
Definition wakeups u : nat :=
  match at_ (base u) with LRunning (Handling todo) _ => length (base.filter (.= None) todo) | _ => 0 end.

Lemma no_wakeup (l : list F) : base.filter (.= None) (map Some l) = [].
Proof. apply filter_none. now induction l; constructor. Qed.

Lemma one_wakeup (l l' : list F) : length (base.filter (.= None) (map Some l ++ None :: map Some l')) = 1%nat.
Proof. now rewrite filter_app, filter_cons_True, !no_wakeup by done. Qed.

(** A step of the loop thread either carries out a [registerWakeupPoll], or reports
    the eventfd, or does neither. *)
Lemma wakeup_step a u u' : loop_step a u = Some u' ->
  (wakeups u = S (wakeups u') /\ wakeupPoll u' = registerWakeupPoll a) \/
  (awake u = true /\ wakeups u = 0%nat /\ wakeups u' = 1%nat /\ wakeupPoll u' = Off) \/
  (wakeups u' = wakeups u /\ (wakeupPoll u' = wakeupPoll u \/ wakeupPoll u' = submit a (wakeupPoll u))).
Proof.
  unfold wakeups. destruct (at_ (base u)) as [| | |ph [|c rest]| |] eqn:Epc.
  5: { destruct (run_cmd body c rest (base u)) as [cmds s'] eqn:Ec. rewrite (loop_step_cmd a u _ _ _ _ _ Epc Ec).
       intros [= <-]. right. right. cbn. auto. }
  all: unfold loop_step; rewrite Epc.
  - intros [= <-]. cbn. auto.
  - destruct (quit_ (base u)); intros [= <-]; cbn; auto.
  - destruct (early a); [intros [= <-]; cbn; auto|]. destruct (awake u) eqn:Ew.
    + intros [= <-]. right. left. split_and!; auto. apply one_wakeup.
    + destruct (ready a) as [|f l]; [done|]. intros [= <-]. right. right. split; [|now left].
      exact (f_equal length (no_wakeup (f :: l))).
  - destruct ph as [[|[f|] todo]|todo|[|f todo]]; cbn; intros [= <-]; cbn; rewrite ?Epc; auto.
    destruct (between u); cbn.
    + left. auto.
    + right. right. unfold EventLoop.handleRead. split; [|now left]. now destruct (0 <? _); cbn; rewrite Epc.
  - intros [= <-]. cbn. auto.
  - done.
Qed.

(** The submission queue has room and the kernel takes what is submitted. *)
Definition good (a : answers) : Prop := slot a = true /\ taken a = true.

(** The wake-up is with the kernel, or on its way to be asked for again. *)
Record heard u : Prop := {
  h_one : (wakeups u <= 1)%nat;
  h_armed : wakeups u = 0%nat -> wakeupPoll u = Armed
}.

(** It will never be. *)
Definition deaf u : Prop := wakeups u = 0%nat /\ wakeupPoll u = Off.

Lemma submit_armed a w : w = Armed -> submit a w = Armed.
Proof. now intros ->. Qed.

Lemma heard_step (P : answers -> Prop) u u' : (forall a, P a -> good a) -> heard u -> step P u u' -> heard u'.
Proof.
  intros HP [H1 H0] Hs. destruct Hs as [a u u' Pa E|a u Pa|t f u _|t u _|t u _].
  - destruct (HP a Pa) as [Hslot Htaken]. apply wakeup_step in E as [[Hn Hw]|[(_ & _ & Hn & Hw)|[Hn Hw]]].
    + constructor; [lia|]. intros _. rewrite Hw. unfold registerWakeupPoll. now rewrite Hslot, Htaken.
    + constructor; lia.
    + constructor; [lia|]. intros Hz. rewrite Hn in Hz. specialize (H0 Hz).
      destruct Hw as [-> | ->]; [done|now apply submit_armed].
  - constructor; [done|]. intros Hz. cbn. now apply submit_armed, H0.
  - now constructor.
  - now constructor.
  - unfold wakeups in *. destruct (wakeup_fields (base u)) as (Ha & _). constructor; unfold wakeups; cbn; now rewrite Ha.
Qed.

Lemma heard_reachable P u : (forall a, P a -> good a) -> reachable P u -> heard u.
Proof.
  intros HP (a & Pa & Hr). assert (H0 : heard (uinit a)).
  { destruct (HP a Pa) as [Hslot Htaken]. constructor; [cbn; lia|]. intros _. cbn. unfold registerWakeupPoll. now rewrite Hslot, Htaken. }
  induction Hr; eauto using heard_step.
Qed.

Lemma deaf_step P u u' : deaf u -> step P u u' -> deaf u'.
Proof.
  intros [H0 Hoff] Hs. destruct Hs as [a u u' Pa E|a u Pa|t f u _|t u _|t u _]; try done.
  - apply wakeup_step in E as [[Hn _]|[(Hw & _)|[Hn Hw]]]; [lia| |].
    + unfold awake in Hw. now rewrite Hoff in Hw.
    + split; [congruence|]. destruct Hw as [-> | ->]; now rewrite Hoff.
  - split; [done|]. cbn. now rewrite Hoff.
  - split; [|done]. unfold wakeups in *. cbn. now rewrite (proj1 (wakeup_fields (base u))).
Qed.

Lemma wakeups_reachable P u : reachable P u -> (wakeups u <= 1)%nat.
Proof.
  intros (a & _ & Hr). assert (H0 : (wakeups (uinit a) <= 1)%nat) by (cbn; lia).
  induction Hr as [|u u1 u' Hs _ IH]; [done|]. apply IH. destruct Hs as [b u u1 _ E|b u _|t f u _|t u _|t u _]; try done.
  - apply wakeup_step in E as [[Hn _]|[(_ & _ & Hn & _)|[Hn _]]]; lia.
  - unfold wakeups in *. cbn. now rewrite (proj1 (wakeup_fields (base u))).
Qed.

(** ** The loop thread on its own *)

(** [poll] returns within a second. *)
Context (env : nat -> answers).
Hypothesis in_time : forall n, early (env n) = true \/ ready (env n) <> [].
Hypothesis calls_wf : well_founded (calls body).

(** The loop with the number of its steps. *)
Definition ulstep (x : nat * uloop) : option (nat * uloop) :=
  match loop_step (env x.1) x.2 with Some u => Some (S x.1, u) | None => None end.
Definition ubase (x : nat * uloop) : state := base x.2.

Lemma uring_thread : LoopThread body ubase ulstep.
Proof.
  constructor.
  - intros [n u] ph c rest cmds s' Epc Ec. unfold ulstep. cbn in *. rewrite (loop_step_cmd _ _ _ _ _ _ _ Epc Ec). eauto.
  - intros [n u] todo Epc. unfold ulstep, loop_step. unfold ubase in Epc. cbn in *. rewrite Epc. eauto.
  - intros [n u] Epc. unfold ulstep, loop_step. unfold ubase in Epc. cbn in *. rewrite Epc. eauto.
Qed.
Abbreviation goes := (goes_to ubase ulstep).

Lemma goes_on l n u u' q : loop_step (env n) u = Some u' -> grows [] (base u) (base u') -> goes l (S n, u') q ->
  goes l (n, u) q.
Proof. intros E G. apply goes_step; [unfold ulstep; cbn; now rewrite E|exact G]. Qed.

Lemma uhandling_goes todo n u : at_ (base u) = LRunning (Handling todo) [] -> goes [] (n, u) LSwap.
Proof.
  revert n u; induction todo as [|[f|] todo IH]; intros n u Epc.
  - eapply goes_on; [unfold loop_step; now rewrite Epc|now apply grows_same|]. now apply goes_here.
  - eapply goes_on; [unfold loop_step; now rewrite Epc|now apply grows_same|].
    eapply (goes_trans _ _ [] []); [eapply (goes_cmds _ _ _ uring_thread calls_wf); reflexivity|].
    intros [m v] _ Hv _. now apply IH.
  - assert (Hre : forall m v, at_ (base v) = LRunning (Handling (None :: todo)) [] -> between v = true -> goes [] (m, v) LSwap).
    { intros m v Ev Hb. eapply goes_on; [unfold loop_step; now rewrite Ev, Hb|now apply grows_same|]. now apply IH. }
    destruct (between u) eqn:Eb; [now apply Hre|].
    assert (Er : at_ (EventLoop.handleRead (base u)) = at_ (base u)) by (unfold EventLoop.handleRead; now destruct (0 <? _)).
    eapply goes_on; [unfold loop_step; now rewrite Epc, Eb| |apply Hre; cbn; [now rewrite Er|done]].
    cbn. unfold EventLoop.handleRead. destruct (0 <? _); now apply grows_same.
Qed.

Lemma upoll_goes n u : at_ (base u) = LPoll -> goes [] (n, u) LSwap.
Proof.
  intros Epc.
  assert (Hret : forall u' l, loop_step (env n) u = Some u' -> base u' = set_pc (LRunning (Handling l) []) (base u) -> goes [] (n, u) LSwap).
  { intros u' l E Hb. eapply goes_on; [exact E|rewrite Hb; now apply grows_same|]. eapply uhandling_goes. now rewrite Hb. }
  destruct (loop_step (env n) u) as [u'|] eqn:E; pose proof E as E0; unfold loop_step in E0; rewrite Epc in E0.
  - repeat case_match; try discriminate; injection E0 as <-; (eapply Hret; [reflexivity|reflexivity]).
  - destruct (in_time n) as [Hi|Hi]; [now rewrite Hi in E0|]. now repeat case_match.
Qed.

(** Towards the swap from where nothing is swapped out. *)
Lemma ucheck_goes n u : at_ (base u) = LCheck ->
  (exists x', leads ulstep (n, u) x' /\ at_ (ubase x') = LDone) \/ goes [] (n, u) LSwap.
Proof.
  intros Epc. destruct (quit_ (base u)) eqn:Eq.
  - left. eexists. split; [apply rtc_once; unfold ulstep, loop_step; cbn; now rewrite Epc, Eq|reflexivity].
  - right. eapply goes_on; [unfold loop_step; now rewrite Epc, Eq|now apply grows_same|]. now apply upoll_goes.
Qed.

Lemma ucheck_serves n u q : at_ (base u) = LCheck -> q `prefix_of` executed (base u) ++ pendingFunctors_ (base u) ->
  exists x', leads ulstep (n, u) x' /\ served q (ubase x').
Proof.
  intros Epc Hq. destruct (ucheck_goes n u Epc) as [(x' & L & D)|G]; [exists x'; split; [exact L|now left]|].
  now apply (goes_swap_served _ _ _ uring_thread calls_wf).
Qed.

Lemma uring_serves n u : RInv u -> exists x', leads ulstep (n, u) x' /\ served (queued (base u)) (ubase x').
Proof.
  intros U. pose proof (inv_fifo _ (u_inv _ U)) as Hf.
  assert (Hswap : goes [] (n, u) LSwap -> batch (base u) = [] -> exists x', leads ulstep (n, u) x' /\ served (queued (base u)) (ubase x')).
  { intros Hg Hb. apply (goes_swap_served _ _ _ uring_thread calls_wf); [exact Hg|]. unfold ubase. cbn. now rewrite Hf, Hb. }
  destruct (at_ (base u)) as [| | |ph c| |] eqn:Epc; unfold batch in *; rewrite Epc in *.
  - set (u1 := with_base (set_pc LCheck (set_quit false (set_looping true (base u)))) u).
    destruct (ucheck_serves (S n) u1 (queued (base u))) as (x' & L & Hs); [done|cbn; now rewrite Hf|].
    exists x'. split; [|exact Hs]. eapply rtc_l; [|exact L]. unfold ulstep, loop_step. cbn. now rewrite Epc.
  - apply ucheck_serves; [exact Epc|now rewrite Hf].
  - apply Hswap; [now apply upoll_goes|done].
  - pose proof (goes_cmds _ _ _ uring_thread calls_wf (n, u) ph c Epc) as Hc. destruct ph as [todo|todo|todo].
    + apply Hswap; [|done]. eapply (goes_trans _ _ [] []); [exact Hc|]. intros [m v] _ Hv _. now apply (uhandling_goes todo).
    + apply Hswap; [|done]. eapply (goes_trans _ _ [] []); [exact Hc|]. intros [m v] _ Hv _. unfold ubase in Hv. cbn in Hv.
      eapply goes_on; [unfold loop_step; now rewrite Hv|now apply grows_same|now apply goes_here].
    + destruct (goes_trans _ _ [] todo (n, u) _ LCheck Hc) as ([m v] & L & P & E & [x Ex] & _);
        [intros; eapply (calling_goes _ _ _ uring_thread calls_wf); eauto|]. unfold ubase in *. cbn in *.
      destruct (ucheck_serves m v (queued (base u)) P) as (x' & L' & Hs).
      { rewrite Hf, E, Ex. exists x. now rewrite <-!app_assoc. }
      exists x'. split; [unfold leads in *; etransitivity; eauto|exact Hs].
  - apply Hswap; [now apply goes_here|done].
  - exists (n, u). split; [constructor|now left].
Qed.
End UringEventLoop.

(** ** Properties *)

(** the loop over io_uring does not lose a wake-up either.  Whenever its thread
    waits in [poll] with functors queued, or told to quit, the eventfd is not zero
    or another thread is about to write it; and if the submission queue never
    failed, the poll on the eventfd is with the kernel, so that the wait ends. *)
Theorem uring_no_lost_wakeup {F} (body : F -> list cmd) (P : answers (F := F) -> Prop) (u : uloop (F := F)) :
  reachable body P u -> at_ (base u) = LPoll -> pendingFunctors_ (base u) <> [] \/ quit_ (base u) = true ->
  (0 < counter (base u) \/ wakeup_coming (base u)) /\
  ((forall a, P a -> good a) -> awake u = true \/ wakeup_coming (base u)).
Proof.
  intros Hr Epc Hw. pose proof (u_inv _ (RInv_reachable body P u Hr)) as I.
  assert (H : 0 < counter (base u) \/ wakeup_coming (base u)).
  { destruct Hw as [Hp|Hq]; [|destruct (inv_quit _ I Hq Epc) as [Ha|?]; [left; now apply awake_spec in Ha|auto]].
    destruct (inv_pending _ I Hp) as [Hb|[Ha|[?|Ho]]]; auto.
    - unfold before_swap in Hb. now rewrite Epc in Hb.
    - left. now apply awake_spec in Ha.
    - unfold own_wakeup in Ho. now rewrite Epc in Ho. }
  split; [exact H|]. intros HP. destruct H as [Hc|?]; [left|auto].
  pose proof (heard_reachable body P u HP Hr) as Hh. unfold awake. rewrite (h_armed _ Hh).
  - now apply Z.ltb_lt.
  - unfold wakeups. now rewrite Epc.
Qed.

(** [registerWakeupPoll] gives up when the submission queue has no entry: from
    then on the eventfd is never reported again, whatever happens. *)
Theorem uring_rearm_failure {F} (body : F -> list cmd) (P Q : answers (F := F) -> Prop) (u u' v : uloop (F := F)) a todo :
  reachable body P u -> at_ (base u) = LRunning (Handling (None :: todo)) [] -> between u = true ->
  slot a = false -> loop_step body a u = Some u' -> rtc (step body Q) u' v -> wakeupPoll v = Off /\ awake v = false.
Proof.
  intros Hr Epc Hb Ha E Hv.
  assert (Hd : deaf u').
  { pose proof (wakeups_reachable body P u Hr) as H1. unfold loop_step in E. rewrite Epc, Hb in E. injection E as <-.
    unfold wakeups in H1. rewrite Epc, filter_cons_True in H1 by done. cbn [length] in H1.
    split; [unfold wakeups; cbn [base at_ set_pc]; lia|]. cbn. unfold registerWakeupPoll. now rewrite Ha. }
  assert (Hdv : deaf v) by (clear -Hd Hv; induction Hv; eauto using deaf_step).
  split; [apply Hdv|]. unfold awake. now rewrite (proj2 Hdv).
Qed.

(** C24: even so every functor runs: with the other threads at rest the loop thread
    calls all that were queued, or leaves the loop, since [poll] returns after a
    second at the latest. *)
Theorem uring_functors_run {F} (body : F -> list cmd) (P : answers (F := F) -> Prop) (env : nat -> answers) (u : uloop (F := F)) :
  well_founded (calls body) -> (forall n, early (env n) = true \/ ready (env n) <> []) -> reachable body P u ->
  exists n, served (queued (base u)) (base (run_loop (ulstep body env) n (O, u)).2).
Proof.
  intros Hwf He Hr. destruct (uring_serves body env He Hwf 0 u (RInv_reachable body P u Hr)) as (x & L & Hs).
  destruct (leads_run _ _ _ L) as [n <-]. now exists n.
Qed.

(** ** Concrete inputs *)

Module Demo.
Definition body : nat -> list (cmd (F := nat)) := EventLoop.Demo.body.
Definition any (_ : answers (F := nat)) : Prop := True.

(** The kernel answers that everything went well, or that there is no entry, or
    that the second has passed. *)
Definition fine : answers (F := nat) := {| slot := true; taken := true; early := false; ready := []; before := 0 |}.
Definition full : answers (F := nat) := {| slot := false; taken := true; early := false; ready := []; before := 0 |}.
Definition second : answers (F := nat) := {| slot := true; taken := true; early := true; ready := []; before := 0 |}.

(** [n] steps of the loop. *)
Fixpoint loops (a : answers) (n : nat) (u : uloop) : uloop :=
  match n with O => u | S n => match loop_step body a u with Some u' => loops a n u' | None => u end end.

(** Thread 7 queues functor [f] and wakes the loop up. *)
Definition queue (f : nat) (u : uloop (F := nat)) : uloop := with_base (set_thread 7 NeedWakeup (push f (base u))) u.
Definition wake (u : uloop (F := nat)) : uloop := with_base (set_thread 7 Idle (wakeup (base u))) u.

Lemma loops_steps (P : answers -> Prop) a n u : P a -> rtc (step body P) u (loops a n u).
Proof.
  intros Pa. revert u; induction n as [|n IH]; intros u; [constructor|]. cbn. destruct (loop_step body a u) as [u'|] eqn:E; [|constructor].
  eapply rtc_l; [exact (step_loop body P a u u' Pa E)|apply IH].
Qed.

Lemma queue_wake_steps (P : answers -> Prop) f u : threads (base u) 7 = Idle -> rtc (step body P) u (wake (queue f u)).
Proof.
  intros Hi. eapply rtc_l; [now apply (step_remote_queue body P 7 f)|]. apply rtc_once. apply (step_remote_wakeup body P 7). done.
Qed.

(** The loop waits; functor 1 is queued; the loop has read the eventfd. *)
Definition waiting : uloop := loops fine 2 (uinit fine).
Definition woken : uloop := wake (queue 1%nat waiting).
Definition drained : uloop := loops fine 2 woken.

Lemma waiting_reachable P : P fine -> reachable body P waiting.
Proof. intros Pf. exists fine. split; [exact Pf|now apply loops_steps]. Qed.

Lemma ring_woken_reachable P : P fine -> reachable body P woken.
Proof.
  intros Pf. destruct (waiting_reachable P Pf) as (a & Pa & Hr). exists a. split; [exact Pa|].
  etransitivity; [exact Hr|]. now apply queue_wake_steps.
Qed.

Lemma ring_drained_reachable : reachable body any drained.
Proof.
  destruct (ring_woken_reachable any I) as (a & Pa & Hr). exists a. split; [exact Pa|].
  etransitivity; [exact Hr|]. now apply loops_steps.
Qed.

Lemma fine_is_good a : a = fine -> good a.
Proof. now intros ->. Qed.

Lemma uring_no_lost_wakeup_witness : at_ (base woken) = LPoll /\ pendingFunctors_ (base woken) = [1%nat] /\
  (awake woken = true \/ wakeup_coming (base woken)).
Proof.
  split_and!; [vm_compute; reflexivity..|].
  refine (proj2 (uring_no_lost_wakeup body (.= fine) woken _ _ _) fine_is_good).
  - now apply ring_woken_reachable.
  - vm_compute. reflexivity.
  - left. vm_compute. discriminate.
Defined.

(** The loop could not ask for the wake-up again, and functor 2 is queued. *)
Definition deaf_loop : uloop := wake (queue 5%nat (loops fine 7 (loops full 1 drained))).

Lemma uring_rearm_failure_witness :
  at_ (base deaf_loop) = LPoll /\ pendingFunctors_ (base deaf_loop) = [2%nat; 5%nat] /\ 0 < counter (base deaf_loop) /\
  awake deaf_loop = false.
Proof.
  split_and!; [vm_compute; reflexivity..|].
  refine (proj2 (uring_rearm_failure body any any drained (loops full 1 drained) deaf_loop full [] ring_drained_reachable _ _ _ _ _));
    [vm_compute; reflexivity..|].
  etransitivity; [now apply (loops_steps any fine 7)|]. apply queue_wake_steps. vm_compute. reflexivity.
Defined.

Lemma deaf_reachable : reachable body any deaf_loop.
Proof.
  destruct ring_drained_reachable as (a & Pa & Hr). exists a. split; [exact Pa|]. etransitivity; [exact Hr|].
  etransitivity; [now apply (loops_steps any full 1)|]. etransitivity; [now apply (loops_steps any fine 7)|].
  apply queue_wake_steps. vm_compute. reflexivity.
Qed.

Lemma uring_functors_run_witness : queued (base deaf_loop) = [1%nat; 2%nat; 5%nat] /\
  exists n, served (queued (base deaf_loop)) (base (run_loop (ulstep body (fun _ => second)) n (O, deaf_loop)).2).
Proof.
  split; [vm_compute; reflexivity|].
  apply (uring_functors_run body any (fun _ => second) deaf_loop EventLoop.Demo.calls_wf (fun _ => or_introl eq_refl) deaf_reachable).
Defined.
End Demo.
