(* ===== verification/UringWakeup.v ===== *)
(** UringWakeup: the wake-up request of UringPoller.v is the one of UringEventLoop.v.

    UringEventLoop.v follows one request, the poll on the eventfd, and leaves the
    others out.  In UringPoller.v it is one of many in the rings of liburing.  Here
    the state of the rings is mapped to the state of that request, and every
    operation of the poller is shown to do to it what UringEventLoop.v says. *)

From Stdlib Require Import ZArith Lia.
From S2P Require Import Prelude UringEventLoop UringPoller.
Local Open Scope Z_scope.

Section Wakeup.
Context {R X F : Type} `{HR : Ring R} `{HL : !RingLaws R}.
Context (wakeupFd : Z) (resume : Z -> ST (uring R X) unit).
Abbreviation U := (uring R X).
Implicit Types (u : U).

(** The polls of the eventfd among some requests: no other has null as user data. *)
Definition wakes (l : list sqe) : nat := length (base.filter (fun x => data x = None) l).

(** [drained] counts the completions of such polls that have been handled. *)
Definition view u : wakeup_poll :=
  if (wakes (requests u) =? drained u)%nat then Off
  else if (wakes (queued (ring u)) =? 0)%nat then Armed else Filled.

(** Only what the kernel has been given completes, and one poll at most is on its way. *)
Record wakeup_ok u : Prop := {
  w_counted : counted u;
  w_past : (drained u <= wakes (submitted (ring u)))%nat;
  w_one : (wakes (requests u) <= S (drained u))%nat;
}.

(** What the poller does: for a coroutine that awaits, at the beginning of [poll],
    and for a completion whose user data is null. *)
Inductive operation :=
  | Await (a : call) (ctx h : Z)
  | Reap (timeoutMs : Z)
  | WakeupDone (slot : Z).

Definition run_operation (o : operation) : ST U unit :=
  match o with
  | Await a ctx h => await_suspend a ctx h
  | Reap t => _ ← reap t; mret tt
  | WakeupDone slot => handleCompletion wakeupFd resume true slot
  end.

Definition possible (o : operation) u : Prop :=
  match o with
  | Await _ ctx _ => is_Some (contexts u !! ctx)
  | Reap _ => True
  | WakeupDone slot => cqe_data (cqe_at (ring u) slot) = None /\ (drained u < wakes (submitted (ring u)))%nat
  end.

(** What liburing and the kernel have answered, as UringEventLoop.v sees it. *)
Definition answered u u' : answers (F := F) := {|
  slot := has_slot u;
  taken := (wakes (queued (ring u')) =? 0)%nat;
  early := false; UringEventLoop.ready := []; before := 0
|}.

(** The eventfd has been read. *)
Definition after_read u : U := set_armed false (add_drained u).

Definition seen_as (o : operation) u u' : Prop :=
  match o with
  | WakeupDone _ => view u = Armed /\ view (after_read u) = Off /\
      view u' = UringEventLoop.registerWakeupPoll (answered (after_read u) u')
  | _ => view u' = UringEventLoop.submit (answered u u') (view u)
  end.

Lemma wakes_app l l' : wakes (l ++ l') = (wakes l + wakes l')%nat.
Proof. unfold wakes. now rewrite filter_app, length_app. Qed.

Lemma wakes_requests u : wakes (requests u) = (wakes (submitted (ring u)) + wakes (queued (ring u)))%nat.
Proof. apply wakes_app. Qed.

Lemma wakes_prefix l l' : l `prefix_of` l' -> (wakes l <= wakes l')%nat.
Proof. intros [k ->]. rewrite wakes_app. lia. Qed.

(** New requests [l], counted by kind. *)
Lemma adds_wakes l u u' : adds l u u' -> counted u' /\ drained u' = drained u /\
  wakes (requests u') = (wakes (requests u) + wakes l)%nat /\
  (wakes (submitted (ring u)) <= wakes (submitted (ring u')))%nat.
Proof.
  intros (C & Hr & _ & _ & _ & _ & Hd & Hp). split_and!; [exact C|exact Hd|now rewrite Hr, wakes_app|now apply wakes_prefix].
Qed.

(** Requests of coroutines leave the wake-up alone; it may be submitted with them. *)
Lemma others_view l u u' : wakeup_ok u -> adds l u u' -> wakes l = 0%nat ->
  wakeup_ok u' /\ view u' = UringEventLoop.submit (answered u u') (view u).
Proof.
  intros [C Hp H1] (C' & Hd & Hr & Hs)%adds_wakes Hl. pose proof (wakes_requests u) as W. pose proof (wakes_requests u') as W'.
  split; [constructor; [exact C'|lia|lia]|]. unfold view, UringEventLoop.submit, answered. cbn [taken].
  rewrite Hd, Hr, Hl, Nat.add_0_r. destruct (Nat.eqb_spec (wakes (requests u)) (drained u)) as [|Hne]; [reflexivity|].
  destruct (Nat.eqb_spec (wakes (queued (ring u))) 0) as [H0|H0]; [|reflexivity].
  assert (wakes (queued (ring u')) = 0%nat) as -> by lia. reflexivity.
Qed.

(** A poll that is asked for when none is on its way. *)
Lemma register_view u : wakeup_ok u -> wakes (requests u) = drained u ->
  exists u', registerWakeupPoll wakeupFd u = Done (tt, u') /\ wakeup_ok u' /\ drained u' = drained u /\
    view u' = UringEventLoop.registerWakeupPoll (answered u u').
Proof.
  intros [C Hp H1] Hw. destruct (registerWakeupPoll_adds wakeupFd u C) as (u' & E & A). exists u'. split; [exact E|].
  apply adds_wakes in A as (C' & Hd & Hr & Hs). pose proof (wakes_requests u') as W'.
  assert (Hl : wakes (if has_slot u then [{| req := prep_poll_add wakeupFd; data := None |}] else []) = if has_slot u then 1%nat else 0%nat)
    by now destruct (has_slot u).
  rewrite Hl in Hr. split_and!; [constructor; [exact C'|lia|destruct (has_slot u); lia]|exact Hd|].
  unfold view, UringEventLoop.registerWakeupPoll, answered. cbn [slot taken]. rewrite Hr, Hd, Hw.
  destruct (has_slot u).
  - rewrite (proj2 (Nat.eqb_neq _ _)) by lia. reflexivity.
  - now rewrite Nat.add_0_r, Nat.eqb_refl.
Qed.

Lemma reap_adds t u : counted u -> exists r u', reap t u = Done (r, u') /\ adds [] u u'.
Proof.
  intros C. unfold reap. st_get.
  assert (Hsub : exists u1, when (negb (pending_sqes_ u =? 0))
    (ret ← sys_submit; when (0 <? ret) (modify (fun u => set_pending (pending_sqes_ u - ret) u))) u = Done (tt, u1) /\ adds [] u u1).
  { destruct (pending_sqes_ u =? 0); cbn [negb when]; [exists u; split; [done|now apply adds_refl]|].
    unfold sys_submit. rewrite bind_assoc, bind_get. destruct (UringPoller.submit (ring u)) as [n r] eqn:E. rewrite bind_assoc.
    erewrite bind_done by reflexivity. rewrite bind_ret_l. destruct (submit_requests _ _ _ E) as (Hr & Hn & He & Hp).
    destruct (Z.ltb_spec 0 n) as [H0|H0]; cbn [when]; (eexists; split; [reflexivity|]).
    - split_and!; try done; cbn; [|unfold requests; cbn; now rewrite app_nil_r].
      unfold counted in *. cbn. rewrite Hn; lia.
    - destruct (Z.eq_dec n 0) as [->|]; [|rewrite He by lia; destruct u; now apply adds_refl].
      split_and!; try done; cbn; [|unfold requests; cbn; now rewrite app_nil_r].
      unfold counted in *. cbn. rewrite Hn; lia. }
  destruct Hsub as (u1 & E1 & A1). st_step E1. st_get.
  pose proof (wait_laws (if 0 <=? t then Some t else None) (ring u1)) as [Hq Hs]. destruct (wait _ (ring u1)) as [ret r].
  cbn in Hq, Hs. eexists ret, _. split; [reflexivity|]. rewrite <-(app_nil_r []). apply (adds_trans _ _ _ _ _ A1). destruct A1 as (C1 & _).
  split_and!; try done; cbn.
  - unfold counted in *. cbn. now rewrite Hq.
  - unfold requests. cbn. now rewrite Hq, Hs, app_nil_r.
  - now rewrite Hs.
Qed.

(** ** Properties *)

(** C25: the poller does to its wake-up request what UringEventLoop.v says.  A
    coroutine that awaits and the start of [poll] submit it when it waits in the
    queue, and change nothing about it otherwise, so a request that could not be
    made is never made by them; the completion of the poll finds it with the
    kernel, and it is asked for again, which fails when there is no slot; and at
    no time are two on their way. *)
Theorem uring_wakeup_refines (o : operation) u : wakeup_ok u -> possible o u ->
  exists u', run_operation o u = Done (tt, u') /\ wakeup_ok u' /\ seen_as o u u'.
Proof.
  intros W Hp. destruct o as [a ctx h|t|slot]; cbn [possible run_operation seen_as] in *.
  - destruct Hp as [c Ec]. set (x := {| req := request_of a; data := Some ctx |}).
    destruct (await_adds x ctx h u c (w_counted _ W) Ec) as (u' & E & A). exists u'.
    split; [destruct a; exact E|]. set (u0 := set_contexts _ u) in A.
    assert (W0 : wakeup_ok u0) by (destruct W; now constructor).
    destruct (others_view _ u0 u' W0 A) as [W' V]; [now destruct (has_slot u)|]. split; [exact W'|].
    change (view u) with (view u0). rewrite V. now destruct (view u0).
  - destruct (reap_adds t u (w_counted _ W)) as (r & u' & E & A). exists u'. st_step E. split; [reflexivity|].
    now apply (others_view []).
  - destruct Hp as [Hn Hlt]. unfold handleCompletion. st_get. rewrite Hn. do 2 st_modify. fold (after_read u).
    destruct W as [C Hpast H1]. pose proof (wakes_requests u) as Wr.
    assert (Hr : wakes (requests (after_read u)) = drained (after_read u)) by (change (wakes (requests u) = S (drained u)); lia).
    assert (W1 : wakeup_ok (after_read u)) by (constructor; [exact C|exact Hlt|lia]).
    destruct (register_view (after_read u) W1 Hr) as (u' & E & W' & _ & V). exists u'. split_and!; [exact E|exact W'| | |exact V].
    + unfold view. rewrite (proj2 (Nat.eqb_neq _ _)) by lia. now rewrite (proj2 (Nat.eqb_eq _ _)) by lia.
    + unfold view. now rewrite Hr, Nat.eqb_refl.
Qed.

(** the constructor of the poller, on new rings, asks for the wake-up for the first
    time, as [uinit] of UringEventLoop.v has it; it aborts when the rings cannot be
    made. *)
Theorem uring_wakeup_starts ret (r : R) (x : X) : queued r = [] -> submitted r = [] ->
  if ret <? 0 then new_poller wakeupFd ret r x = Fail Aborted
  else exists u0 u, ring u0 = r /\ new_poller wakeupFd ret r x = Done u /\ wakeup_ok u /\
    view u = UringEventLoop.registerWakeupPoll (answered u0 u).
Proof.
  intros Hq Hs. unfold new_poller, initUring. destruct (ret <? 0); [reflexivity|]. rewrite bind_modify.
  set (u0 := Build_uring _ _ _ _ _ _ _ _ _).
  assert (W0 : wakeup_ok u0) by (constructor; unfold counted, requests; cbn; rewrite ?Hq, ?Hs; cbn; lia).
  destruct (register_view u0 W0) as (u & E & W & _ & V); [unfold requests; cbn; now rewrite Hq, Hs|].
  exists u0, u. split; [reflexivity|]. rewrite (bind_done _ _ _ _ _ E). now split_and!.
Qed.
End Wakeup.

(** ** Concrete inputs *)

Module Demo.
Import UringPoller.Demo.
#[local] Existing Instance toy_ring.
#[local] Existing Instance toy_laws.

(** The poller of a new loop; the kernel is busy, or takes what it is given. *)
Definition started (b : bool) : uring toy unit :=
  match new_poller 5 0 (toy0 b) tt with Done u => u | Fail _ => Build_uring (toy0 b) false false 0 [] ∅ [] 0 tt end.

(** [poll] has waited, and the eventfd was readable. *)
Definition waited_once : uring toy unit := after (_ ← reap 1000; mret tt) (started false).

Lemma waited_once_ok : wakeup_ok waited_once.
Proof. constructor; vm_compute; repeat constructor. Qed.

Lemma uring_wakeup_refines_witness :
  exists u', handleCompletion 5 (fun _ => mret tt) true 0 waited_once = Done (tt, u') /\ wakeup_ok u' /\
    view waited_once = Armed /\ view u' = Armed.
Proof.
  destruct (uring_wakeup_refines (F := unit) 5 (fun _ => mret tt) (WakeupDone 0) waited_once waited_once_ok) as (u' & E & W & V).
  { split; vm_compute; [reflexivity|repeat constructor]. }
  exists u'. split_and!; [exact E|exact W|exact (proj1 V)|]. destruct V as (_ & _ & ->). cbn in E.
  vm_compute in E. injection E as <-. vm_compute. reflexivity.
Defined.

(** On a busy kernel the first request stays in the submission queue. *)
Lemma uring_wakeup_starts_witness : view (started true) = Filled /\ view (started false) = Armed /\
  exists u0 u, ring u0 = toy0 true /\ new_poller 5 0 (toy0 true) tt = Done u /\ wakeup_ok u /\
    view u = UringEventLoop.registerWakeupPoll (answered (F := unit) u0 u).
Proof.
  split_and!; [vm_compute; reflexivity..|].
  exact (uring_wakeup_starts (F := unit) 5 0 (toy0 true) tt eq_refl eq_refl).
Defined.
End Demo.
