(* ===== verification/UringTcpConnection.v ===== *)
(** UringTcpConnection: [io_uring/UringCoroTcpConnection.h] and
    [io_uring/UringCoroTcpConnection.cpp].

    [read], [send] and [connectionLoop] are bodies of coroutines for the machine
    of Task.v: the environment completes the request a coroutine waits for and
    resumes it, as UringPoller.v says the poller does. *)

From Stdlib Require Import ZArith Lia.
From Stdlib Require Import Init.Byte.
From S2P Require Import Prelude Task.
Local Open Scope Z_scope.

Definition EINTR : Z := 4.
Definition EAGAIN : Z := 11.

Inductive State := KConnecting | KConnected | KDisconnecting | KDisconnected.
#[export] Instance State_eq_dec : EqDecision State.
Proof. solve_decision. Defined.

(** The functors the connection queues on its loop. *)
Inductive functor := call_shutdownInLoop | call_forcecloseInLoop | hold_guard.

#[export] Instance functor_eq_dec : EqDecision functor.
Proof. solve_decision. Defined.

(** [::shutdown(fd_, ...)] *)
Inductive how := SHUT_WR | SHUT_RDWR.

(** The requests made, with their place in the caller's memory. *)
Inductive asked_for := AskRead (offset len : Z) | AskWrite (offset len : Z).

(** The connection and its surroundings: [memory] is the buffer or the message of
    the caller, [incoming] what the peer sent and was not read, [wire] what the
    kernel took to be sent; [res] is that of the context of the operation. *)
Record uconn := {
  state_ : State;
  handle_ : bool;
  closeCallback_ : bool;
  functors : list functor;
  closed : nat;
  shuts : list how;
  res : Z;
  errno : Z;
  asked : list asked_for;
  memory : list byte;
  incoming : list byte;
  wire : list byte
}.

Definition set_state (st : State) (w : uconn) : uconn :=
  {| state_ := st; handle_ := handle_ w; closeCallback_ := closeCallback_ w; functors := functors w; closed := closed w;
     shuts := shuts w; res := res w; errno := errno w; asked := asked w; memory := memory w; incoming := incoming w; wire := wire w |}.
Definition queueInLoop (f : functor) (w : uconn) : uconn :=
  {| state_ := state_ w; handle_ := handle_ w; closeCallback_ := closeCallback_ w; functors := functors w ++ [f]; closed := closed w;
     shuts := shuts w; res := res w; errno := errno w; asked := asked w; memory := memory w; incoming := incoming w; wire := wire w |}.
Definition set_functors (l : list functor) (w : uconn) : uconn :=
  {| state_ := state_ w; handle_ := handle_ w; closeCallback_ := closeCallback_ w; functors := l; closed := closed w;
     shuts := shuts w; res := res w; errno := errno w; asked := asked w; memory := memory w; incoming := incoming w; wire := wire w |}.
Definition add_closed (w : uconn) : uconn :=
  {| state_ := state_ w; handle_ := handle_ w; closeCallback_ := closeCallback_ w; functors := functors w; closed := S (closed w);
     shuts := shuts w; res := res w; errno := errno w; asked := asked w; memory := memory w; incoming := incoming w; wire := wire w |}.
Definition add_shut (h : how) (w : uconn) : uconn :=
  {| state_ := state_ w; handle_ := handle_ w; closeCallback_ := closeCallback_ w; functors := functors w; closed := closed w;
     shuts := shuts w ++ [h]; res := res w; errno := errno w; asked := asked w; memory := memory w; incoming := incoming w; wire := wire w |}.
Definition ask (a : asked_for) (w : uconn) : uconn :=
  {| state_ := state_ w; handle_ := handle_ w; closeCallback_ := closeCallback_ w; functors := functors w; closed := closed w;
     shuts := shuts w; res := res w; errno := errno w; asked := asked w ++ [a]; memory := memory w; incoming := incoming w; wire := wire w |}.
(** A completion: the result, [errno] as it happens to be, and the bytes moved. *)
Definition completed (r en : Z) (m i o : list byte) (w : uconn) : uconn :=
  {| state_ := state_ w; handle_ := handle_ w; closeCallback_ := closeCallback_ w; functors := functors w; closed := closed w;
     shuts := shuts w; res := r; errno := en; asked := asked w; memory := m; incoming := i; wire := o |}.

Implicit Types (w : uconn).

(** ** Closing *)

(** [handleClose]; [true] when [closeCallback_] is empty and the call throws. *)
Definition handleClose w : bool * uconn :=
  if decide (state_ w = KDisconnected) then (false, w)
  else if closeCallback_ w then (false, queueInLoop hold_guard (set_state KDisconnected (add_closed w)))
  else (true, w).

(** After its first test the state can only be KConnected or KConnecting, as the
    assertion says. *)
Definition forceclose w : uconn :=
  match state_ w with
  | KDisconnected | KDisconnecting => w
  | _ => queueInLoop call_forcecloseInLoop (set_state KDisconnecting w)
  end.

Definition shutdown `{Build} : ST uconn unit :=
  w ← get;
  _ ← cassert (bool_decide (state_ w = KConnected));
  modify (fun w => queueInLoop call_shutdownInLoop (set_state KDisconnecting w)).

Definition forcecloseInLoop w : bool * uconn := handleClose (add_shut SHUT_RDWR w).
Definition shutdownInLoop w : uconn := add_shut SHUT_WR w.

(** A functor on the loop. *)
Definition run_functor (f : functor) : ST uconn unit := fun w =>
  match f with
  | call_shutdownInLoop => Done (tt, shutdownInLoop w)
  | call_forcecloseInLoop => let '(threw, w') := forcecloseInLoop w in if (threw : bool) then Fail BadFunctionCall else Done (tt, w')
  | hold_guard => Done (tt, w)
  end.

(** The loop takes the queued functors and runs them. *)
Definition doPendingFunctors : ST uconn unit :=
  w ← get; _ ← put (set_functors [] w); for_each (functors w) run_functor.

(** ** The coroutines *)

(** [errno == EAGAIN || errno == EWOULDBLOCK || errno == EINTR] *)
Definition again (e : Z) : bool := (e =? EAGAIN) || (e =? EINTR).

Section Body.
Context {P E : Type}.

(** Resume points: [read] and [send] at their start and after [co_await], with
    their local variables; [connectionLoop] at its start and after the handler;
    the points of the handler. *)
Inductive point :=
  | Read (len : Z)
  | ReadGot (read_ remain_write len total : Z)
  | Send (len : Z)
  | SendGot (write_ remain_write len total : Z)
  | Loop
  | Resumed (r : E + option Z)
  | Handler (p : P).

Context (bad_function_call : E) (handler : P -> uconn -> act point Z E * uconn) (first : P).

Definition close_and_return (v : Z) w : act point Z E * uconn :=
  let '(threw, w') := handleClose w in (if (threw : bool) then raise bad_function_call else co_return v, w').

(** The test of the loop in [read], and the next request. *)
Definition read_loop (read_ remain_write len total : Z) w : act point Z E * uconn :=
  if 0 <? remain_write then (co_await (ReadGot read_ remain_write len total), ask (AskRead read_ (len mod 4294967296)) w)
  else (flow_off, w).

Definition read_got (read_ remain_write len total : Z) w : act point Z E * uconn :=
  if 0 <? res w then
    let remain_write := remain_write - res w in
    if remain_write =? 0 then (co_return total, w)
    else read_loop (read_ + res w) remain_write (len - res w) total w
  else if res w =? 0 then close_and_return 0 w
  else if again (errno w) then read_loop read_ remain_write len total w
  else close_and_return (res w) w.

(** The same in [send], where [remain_write] and [total] are of type [size_t]. *)
Definition send_loop (write_ remain_write len total : Z) w : act point Z E * uconn :=
  if 0 <? remain_write then (co_await (SendGot write_ remain_write len total), ask (AskWrite write_ (len mod 4294967296)) w)
  else (flow_off, w).

Definition send_got (write_ remain_write len total : Z) w : act point Z E * uconn :=
  if 0 <? res w then
    let remain_write := wrap64 (remain_write - res w) in
    if remain_write =? 0 then (co_return (int64_of total), w)
    else send_loop (write_ + res w) remain_write (len - res w) total w
  else if res w =? 0 then send_loop write_ remain_write len total w
  else if again (errno w) then send_loop write_ remain_write len total w
  else close_and_return (res w) w.

Definition connectionLoop (p : point) w : act point Z E * uconn :=
  match p with
  | Read len => read_loop 0 len len len w
  | ReadGot read_ remain_write len total => read_got read_ remain_write len total w
  | Send len => send_loop 0 (wrap64 len) len (wrap64 len) w
  | SendGot write_ remain_write len total => send_got write_ remain_write len total w
  | Loop => (co_await_task true (Handler first) Resumed, set_state KConnected w)
  | Resumed (inl e) => (raise e, w)
  | Resumed (inr _) => (flow_off, if decide (state_ w = KDisconnected) then w else forceclose w)
  | Handler q => handler q w
  end.

(** [start], and what the completions [envs] make of the connection from then on:
    the handle of [connectionTask_], if there is one, and where it stops. *)
Definition start `{Build} (n : nat) (envs : list (uconn -> uconn)) :
    ST (state point Z E uconn) (option (option (Z * stop))) := fun s =>
  let w := set_state KConnecting (world s) in
  if handle_ w then
    (h ← make true Loop; z ← drive connectionLoop n envs h; mret ((fun r => Some (h, r)) <$> z))
      {| frames := frames s; world := w |}
  else Done (Some None, {| frames := frames s; world := forceclose w |}).
End Body.

(** ** Completions *)

(** The answer to a request: the bytes it may move, or an error; and what is in
    [errno], which liburing does not set. *)
Inductive answer := Moves (n : nat) | Errs (e : Z).

(** [d] written into the memory [m] at [off]. *)
Definition splice (off : nat) (d m : list byte) : list byte := take off m ++ d ++ drop (off + length d) m.

Definition complete (a : answer * Z) w : uconn :=
  match last (asked w), a with
  | Some (AskRead off len), (Moves n, en) =>
      let d := take (min n (Z.to_nat len)) (incoming w) in
      completed (Z.of_nat (length d)) en
        (splice (Z.to_nat off) d (memory w)) (drop (length d) (incoming w)) (wire w) w
  | Some (AskWrite off len), (Moves n, en) =>
      let d := take (min n (Z.to_nat len)) (drop (Z.to_nat off) (memory w)) in
      completed (Z.of_nat (length d)) en (memory w) (incoming w) (wire w ++ d) w
  | Some _, (Errs e, en) => completed (- e) en (memory w) (incoming w) (wire w) w
  | None, _ => w
  end.

Definition answer_ok (a : answer * Z) : Prop := match a.1 with Moves _ => True | Errs e => 0 < e end.

(** ** Reference: moving [want] bytes of [s] in pieces *)

Inductive verdict :=
  | AllMoved (rest : list (answer * Z))
  | AtEnd (rest : list (answer * Z))
  | Broke (e : Z) (rest : list (answer * Z))
  | Waits.

(** The bytes moved, and how it ends; [ends] says that an answer of no bytes is the
    end of the stream. *)
Fixpoint moves (ends : bool) (want : nat) (l : list (answer * Z)) (s : list byte) : list byte * verdict :=
  match l with
  | [] => ([], Waits)
  | (Errs e, en) :: l' => if again en then moves ends want l' s else ([], Broke e l')
  | (Moves n, _) :: l' =>
      let d := take (min n want) s in
      if (length d =? 0)%nat then if ends then ([], AtEnd l') else moves ends want l' s
      else if (length d =? want)%nat then (d, AllMoved l')
      else let '(d', v) := moves ends (want - length d) l' (drop (length d) s) in (d ++ d', v)
  end.

(** What the operation returns for [total] bytes. *)
Definition answered {E} (total : Z) (v : verdict) : called (V := Z) (E := E) (W := uconn) :=
  match v with
  | AllMoved l => Returns (inr (Some total)) (complete <$> l)
  | AtEnd l => Returns (inr (Some 0)) (complete <$> l)
  | Broke e l => Returns (inr (Some (- e))) (complete <$> l)
  | Waits => Blocks
  end.

(** What the operation leaves of the connection. *)
Definition after_io (v : verdict) w w' : Prop :=
  handle_ w' = handle_ w /\ closeCallback_ w' = closeCallback_ w /\ shuts w' = shuts w /\
  match v with
  | AtEnd _ | Broke _ _ => state_ w' = KDisconnected /\
      closed w' = (closed w + if decide (state_ w = KDisconnected) then 0 else 1)%nat
  | _ => state_ w' = state_ w /\ closed w' = closed w /\ functors w' = functors w
  end.

Lemma take_drop_length {A} k (s : list A) : take k s ++ drop (length (take k s)) s = s.
Proof.
  destruct (decide (k <= length s)%nat) as [Hk|Hk].
  - now rewrite length_take_le, take_drop.
  - rewrite take_ge by lia. now rewrite drop_all, app_nil_r.
Qed.

Lemma splice_nil off m : splice off [] m = m.
Proof. unfold splice. cbn. now rewrite Nat.add_0_r, take_drop. Qed.

Lemma splice_splice off d d' m : (off <= length m)%nat -> splice (off + length d) d' (splice off d m) = splice off (d ++ d') m.
Proof.
  intros Hm. unfold splice. rewrite !(app_assoc (take off m) d).
  assert (Hl : length (take off m ++ d) = (off + length d)%nat) by (rewrite length_app, length_take_le; lia).
  rewrite <-Hl at 1. rewrite take_app_length, <-Hl, drop_app_add, Hl, drop_drop, length_app, <-!app_assoc.
  do 4 f_equal. lia.
Qed.

Lemma length_splice off d m : (off + length d <= length m)%nat -> length (splice off d m) = length m.
Proof. intros Hm. unfold splice. rewrite !length_app, length_take_le, length_drop; lia. Qed.

Lemma moves_prefix ends want l s : let '(d, v) := moves ends want l s in
  (exists s', s = d ++ s') /\ (length d <= want)%nat /\ (if v is AllMoved _ then length d = want else True).
Proof.
  revert want s. induction l as [|[[n|e] en] l IH]; intros want s; cbn [moves].
  - split_and!; [now exists s|cbn; lia|done].
  - set (d := take (min n want) s). assert (Hd : (length d <= want)%nat) by (unfold d; rewrite length_take; lia).
    assert (Hs : s = d ++ drop (length d) s).
    { symmetry. apply take_drop_length. }
    destruct (Nat.eqb_spec (length d) 0).
    { destruct ends; [|apply IH]. split_and!; [now exists s|cbn; lia|done]. }
    destruct (Nat.eqb_spec (length d) want); [split_and!; [eauto|lia|done]|].
    specialize (IH (want - length d)%nat (drop (length d) s)). destruct (moves _ _ l _) as [d' v].
    destruct IH as ([s' Es] & Hl & Hv). rewrite length_app. split_and!; [|lia|destruct v; try done; lia].
    exists s'. now rewrite <-app_assoc, <-Es.
  - destruct (again en); [apply IH|]. split_and!; [now exists s|cbn; lia|done].
Qed.

Section IO.
Context {P E : Type} (bad_function_call : E) (handler : P -> uconn -> act (@point P E) Z E * uconn) (first : P).
Abbreviation body := (connectionLoop bad_function_call handler first).

Lemma close_and_return_ok v w : closeCallback_ w = true ->
  exists w', close_and_return (P := P) bad_function_call v w = (co_return v, w') /\
    memory w' = memory w /\ incoming w' = incoming w /\ wire w' = wire w /\ asked w' = asked w /\
    forall l, after_io (AtEnd l) w w'.
Proof.
  intros Hc. unfold close_and_return, handleClose. destruct (decide (state_ w = KDisconnected)) as [Hs|Hs].
  - exists w. split_and!; try done. intros l. unfold after_io. rewrite decide_True by done. split_and!; try done.
  - rewrite Hc. eexists. split; [reflexivity|]. split_and!; try done. intros l. unfold after_io.
    rewrite decide_False by done. split_and!; try done. cbn. lia.
Qed.

(** A coroutine that waits, in the environment [envs]. *)
Definition resumed (n : nat) (p : point) (envs : list (uconn -> uconn)) w : option (called * uconn) :=
  match envs with [] => Some (Blocks, w) | g :: envs' => Task.call body n false p envs' (g w) end.

(** Every request is for the rest of the caller's memory. *)
Definition requests_in (mk : Z -> Z -> asked_for) (from len : Z) w w' : Prop :=
  exists l, asked w' = asked w ++ l /\ Forall (fun a => exists off n, a = mk off n /\ from <= off /\ 0 < n /\ off + n = len) l.

Lemma requests_none mk from len w w' : asked w' = asked w -> requests_in mk from len w w'.
Proof. intros E0. exists []. rewrite app_nil_r. now split. Qed.

Lemma requests_one mk from len off n w1 w w' : asked w1 = asked w ++ [mk off n] -> requests_in mk off len w1 w' ->
  from <= off -> 0 < n -> off + n = len -> requests_in mk from len w w'.
Proof.
  intros E1 (l & E2 & Hl) Hf Hn Ho. exists (mk off n :: l). rewrite E2, E1, <-app_assoc. split; [done|].
  constructor; [now exists off, n|]. eapply Forall_impl; [exact Hl|]. intros a (o & k & -> & ? & ? & ?). exists o, k. split_and!; try done. lia.
Qed.

Lemma resumed_wait n p q g envs w w2 : body p (g w) = (co_await q, w2) -> resumed (S n) p (g :: envs) w = resumed n q envs w2.
Proof. intros Eb. cbn [resumed Task.call]. now rewrite Eb. Qed.

Lemma resumed_return n p v g envs w w2 : body p (g w) = (co_return v, w2) ->
  resumed (S n) p (g :: envs) w = Some (Returns (inr (Some v)) envs, w2).
Proof. intros Eb. cbn [resumed Task.call]. now rewrite Eb. Qed.

(** ** [read] and [send], by direction *)

Inductive direction := Reading | Writing.
Implicit Types (dir : direction).

Definition got dir (total off want : Z) : @point P E :=
  match dir with Reading => ReadGot off want want total | Writing => SendGot off want want total end.
Definition request_to dir : Z -> Z -> asked_for := match dir with Reading => AskRead | Writing => AskWrite end.
Definition ends_on_none dir : bool := match dir with Reading => true | Writing => false end.

(** The bytes there are to move, and moving [d] of them. *)
Definition source dir (off : Z) w : list byte :=
  match dir with Reading => incoming w | Writing => drop (Z.to_nat off) (memory w) end.
Definition moved dir (off : Z) (d : list byte) (en : Z) w : uconn :=
  match dir with
  | Reading => completed (Z.of_nat (length d)) en (splice (Z.to_nat off) d (memory w)) (drop (length d) (incoming w)) (wire w) w
  | Writing => completed (Z.of_nat (length d)) en (memory w) (incoming w) (wire w ++ d) w
  end.
Definition failed (e en : Z) w : uconn := completed (- e) en (memory w) (incoming w) (wire w) w.

(** From [w] to [w']: the bytes [d] have been moved. *)
Definition transferred dir (off : Z) (d : list byte) w w' : Prop :=
  match dir with
  | Reading => incoming w = d ++ incoming w' /\ memory w' = splice (Z.to_nat off) d (memory w) /\ wire w' = wire w
  | Writing => wire w' = wire w ++ d /\ memory w' = memory w /\ incoming w' = incoming w
  end.

Lemma complete_moves dir n en off want w : last (asked w) = Some (request_to dir off want) ->
  complete (Moves n, en) w = moved dir off (take (min n (Z.to_nat want)) (source dir off w)) en w.
Proof. unfold complete. intros ->. now destruct dir. Qed.

Lemma complete_errs dir e en off want w : last (asked w) = Some (request_to dir off want) ->
  complete (Errs e, en) w = failed e en w.
Proof. unfold complete. intros ->. now destruct dir. Qed.

Lemma got_more dir total off want k w : 0 < want < 2147483648 -> res w = k -> 0 < k < want ->
  body (got dir total off want) w = (co_await (got dir total (off + k) (want - k)), ask (request_to dir (off + k) (want - k)) w).
Proof.
  intros Hw Hk Hb. destruct dir; cbn [got connectionLoop]; [unfold read_got, read_loop|unfold send_got, send_loop];
    rewrite Hk, ?wrap64_small by (unfold size_mod; lia); destruct (Z.ltb_spec 0 k); try lia; cbn zeta;
    destruct (Z.eqb_spec (want - k) 0); try lia; destruct (Z.ltb_spec 0 (want - k)); try lia; now rewrite Z.mod_small by lia.
Qed.

Lemma got_all dir total off want w : 0 < want -> 0 < total < 2147483648 -> res w = want ->
  body (got dir total off want) w = (co_return total, w).
Proof.
  intros Hw Ht Hk. destruct dir; cbn [got connectionLoop]; [unfold read_got|unfold send_got]; rewrite Hk, Z.sub_diag;
    destruct (Z.ltb_spec 0 want); try lia; cbn; [done|]. now rewrite int64_of_small by (unfold max_vector_size; lia).
Qed.

Lemma got_none dir total off want w : 0 < want < 2147483648 -> res w = 0 ->
  body (got dir total off want) w = if ends_on_none dir then close_and_return bad_function_call 0 w
    else (co_await (got dir total off want), ask (request_to dir off want) w).
Proof.
  intros Hw Hk. destruct dir; cbn [got connectionLoop]; [unfold read_got|unfold send_got, send_loop]; rewrite Hk; cbn; [done|].
  destruct (Z.ltb_spec 0 want); try lia. now rewrite Z.mod_small by lia.
Qed.

Lemma got_error dir total off want e w : 0 < want < 2147483648 -> res w = - e -> 0 < e ->
  body (got dir total off want) w = if again (errno w) then (co_await (got dir total off want), ask (request_to dir off want) w)
    else close_and_return bad_function_call (- e) w.
Proof.
  intros Hw Hk He. destruct dir; cbn [got connectionLoop];
    [unfold read_got, read_loop|unfold send_got, send_loop]; rewrite Hk;
    destruct (Z.ltb_spec 0 (- e)); try lia; destruct (Z.eqb_spec (- e) 0); try lia;
    destruct (again (errno w)); try done; destruct (Z.ltb_spec 0 want); try lia; now rewrite Z.mod_small by lia.
Qed.

Lemma transferred_nil dir off w w' : memory w' = memory w -> incoming w' = incoming w -> wire w' = wire w ->
  transferred dir off [] w w'.
Proof. intros Em Ei Ew. destruct dir; cbn; rewrite ?splice_nil, ?app_nil_r; auto. Qed.

Lemma transferred_moved dir off n en w : let d := take n (source dir off w) in transferred dir off d w (moved dir off d en w).
Proof. destruct dir; cbn; [|done]. split_and!; try done. symmetry. apply take_drop_length. Qed.

Lemma transferred_app dir off d d' w1 w2 w3 : (Z.to_nat off <= length (memory w1))%nat -> 0 <= off ->
  transferred dir off d w1 w2 -> transferred dir (off + Z.of_nat (length d)) d' w2 w3 -> transferred dir off (d ++ d') w1 w3.
Proof.
  intros Hm Ho. destruct dir; cbn.
  - intros (I1 & M1 & W1) (I2 & M2 & W2). rewrite I1, I2, M2, M1, W2, W1, <-app_assoc. split_and!; try done.
    replace (Z.to_nat (off + Z.of_nat (length d))) with (Z.to_nat off + length d)%nat by lia. now apply splice_splice.
  - intros (W1 & M1 & I1) (W2 & M2 & I2). rewrite W2, W1, M2, I2, <-app_assoc. now split_and!.
Qed.

(** The operation from its next completion on; its request is for [want] bytes at
    [off]. *)
Definition io_result dir total off want l w : Prop :=
  let '(d, v) := moves (ends_on_none dir) (Z.to_nat want) l (source dir off w) in
  exists w', resumed (length l) (got dir total off want) (complete <$> l) w = Some (answered total v, w') /\
    transferred dir off d w w' /\ requests_in (request_to dir) off (off + want) w w' /\ after_io v w w'.

(** It asks again for the same. *)
Lemma io_again dir total off want a l w w1 : 0 < want -> 0 <= off -> complete a w = w1 ->
  body (got dir total off want) w1 = (co_await (got dir total off want), ask (request_to dir off want) w1) ->
  memory w1 = memory w /\ incoming w1 = incoming w /\ wire w1 = wire w /\ asked w1 = asked w /\ (forall v w', after_io v w1 w' -> after_io v w w') ->
  moves (ends_on_none dir) (Z.to_nat want) (a :: l) (source dir off w) = moves (ends_on_none dir) (Z.to_nat want) l (source dir off w) ->
  io_result dir total off want l (ask (request_to dir off want) w1) -> io_result dir total off want (a :: l) w.
Proof.
  intros Hw Ho Ec Eb (Hm & Hi & Hwi & Ha & Haf) Emv. unfold io_result. rewrite Emv.
  replace (source dir off (ask _ w1)) with (source dir off w) by (destruct dir; cbn; congruence).
  destruct (moves _ _ l _) as [d v]. intros (w' & E' & Tr & Rq & Af). exists w'.
  rewrite <-Ec in Eb. cbn [length fmap list_fmap]. rewrite (resumed_wait _ _ _ _ _ _ _ Eb). rewrite Ec. split_and!; [exact E'| | |].
  - destruct dir; cbn in Tr |- *; rewrite <-?Hm, <-?Hi, <-?Hwi; exact Tr.
  - eapply requests_one with (off := off) (n := want); [|exact Rq|lia..]. cbn. now rewrite Ha.
  - apply Haf. exact Af.
Qed.

(** It ends with a [co_return]. *)
Lemma io_closes dir total off want a l v w w1 x : complete a w = w1 ->
  body (got dir total off want) w1 = close_and_return bad_function_call x w1 -> closeCallback_ w = true ->
  memory w1 = memory w /\ incoming w1 = incoming w /\ wire w1 = wire w /\ asked w1 = asked w /\ (forall v w', after_io v w1 w' -> after_io v w w') ->
  moves (ends_on_none dir) (Z.to_nat want) (a :: l) (source dir off w) = ([], v) ->
  answered (E := E) total v = Returns (inr (Some x)) (complete <$> l) -> (forall w', after_io (AtEnd l) w w' -> after_io v w w') ->
  closeCallback_ w1 = true -> io_result dir total off want (a :: l) w.
Proof.
  intros Ec Eb Hc (Hm & Hi & Hwi & Ha & Haf) Emv Hv Hav Hc1. unfold io_result. rewrite Emv.
  destruct (close_and_return_ok x w1 Hc1) as (w' & Er & Em & Ei & Ew & Ea & Af). rewrite Er, <-Ec in Eb. exists w'.
  cbn [length fmap list_fmap]. rewrite (resumed_return _ _ _ _ _ _ _ Eb), Hv. split_and!; [done| | |].
  - apply transferred_nil; congruence.
  - apply requests_none. congruence.
  - apply Hav, Haf, Af.
Qed.

(** The last request made is for the part of the memory that is left. *)
Record io_ready dir (off want : Z) w : Prop := {
  r_callback : closeCallback_ w = true;
  r_off : 0 <= off;
  r_want : 0 < want < 2147483648;
  r_fits : off + want <= Z.of_nat (length (memory w));
  r_asked : last (asked w) = Some (request_to dir off want)
}.

(** The answers [l] are treated as they should from any part of the transfer. *)
Definition io_good dir total l : Prop := forall off want w, io_ready dir off want w -> io_result dir total off want l w.

Lemma io_ready_again dir off want w w1 : io_ready dir off want w -> memory w1 = memory w -> closeCallback_ w1 = true ->
  io_ready dir off want (ask (request_to dir off want) w1).
Proof. intros [] Em Ec. constructor; try done; cbn; [now rewrite Em|apply last_snoc]. Qed.

Lemma io_error dir total e en l off want w : 0 < total < 2147483648 -> 0 < e -> io_good dir total l ->
  io_ready dir off want w -> io_result dir total off want ((Errs e, en) :: l) w.
Proof.
  intros Ht Ha IH R. pose proof R as [Hc Ho Hw Hm Hlast]. pose proof (complete_errs dir e en off want w Hlast) as Ec.
  pose proof (got_error dir total off want e (failed e en w) Hw eq_refl Ha) as Eb. cbn [errno failed completed] in Eb.
  destruct (again en) eqn:Ea.
  - eapply io_again; [lia|lia|exact Ec|exact Eb|now split_and!|cbn [moves]; now rewrite Ea|now apply IH, (io_ready_again _ _ _ w)].
  - eapply io_closes with (v := Broke e l); [exact Ec|exact Eb|done|now split_and!|cbn [moves]; now rewrite Ea|done..].
Qed.

Lemma io_nothing dir total n en l off want w : 0 < total < 2147483648 -> io_good dir total l -> io_ready dir off want w ->
  take (min n (Z.to_nat want)) (source dir off w) = [] -> io_result dir total off want ((Moves n, en) :: l) w.
Proof.
  intros Ht IH R H0. pose proof R as [Hc Ho Hw Hm Hlast]. pose proof (complete_moves dir n en off want w Hlast) as Ec.
  assert (Emv : moves (ends_on_none dir) (Z.to_nat want) ((Moves n, en) :: l) (source dir off w) =
    if ends_on_none dir then ([], AtEnd l) else moves (ends_on_none dir) (Z.to_nat want) l (source dir off w))
    by (cbn [moves]; now rewrite H0).
  rewrite H0 in Ec. pose proof (got_none dir total off want (moved dir off [] en w) Hw ltac:(now destruct dir)) as Eb.
  assert (Hsame : memory (moved dir off [] en w) = memory w /\ incoming (moved dir off [] en w) = incoming w /\
    wire (moved dir off [] en w) = wire w /\ asked (moved dir off [] en w) = asked w /\
    (forall v w', after_io v (moved dir off [] en w) w' -> after_io v w w'))
    by (destruct dir; cbn; rewrite ?splice_nil, ?app_nil_r; now split_and!).
  destruct (ends_on_none dir) eqn:Ed.
  - eapply io_closes with (v := AtEnd l); [exact Ec|exact Eb|done|exact Hsame|now rewrite Ed|done|done|now destruct dir].
  - eapply io_again; [lia|lia|exact Ec|exact Eb|exact Hsame|now rewrite Ed|].
    apply IH, (io_ready_again _ _ _ w); [exact R|apply Hsame|now destruct dir].
Qed.

Lemma io_some dir total n en l off want w : 0 < total < 2147483648 -> io_good dir total l -> io_ready dir off want w ->
  take (min n (Z.to_nat want)) (source dir off w) <> [] -> io_result dir total off want ((Moves n, en) :: l) w.
Proof.
  intros Ht IH [Hc Ho Hw Hm Hlast] H0. pose proof (complete_moves dir n en off want w Hlast) as Ec.
  pose proof (transferred_moved dir off (min n (Z.to_nat want)) en w) as Tr. cbn zeta in Tr.
  set (d := take (min n (Z.to_nat want)) (source dir off w)) in *.
  assert (Hd : (length d <= Z.to_nat want)%nat) by (unfold d; rewrite length_take; lia).
  assert (Hd0 : length d <> 0%nat) by (now intros ?%nil_length_inv).
  assert (Hres : res (moved dir off d en w) = Z.of_nat (length d)) by now destruct dir.
  unfold io_result. cbn [moves]. fold d. destruct (Nat.eqb_spec (length d) 0); [done|].
  destruct (Nat.eqb_spec (length d) (Z.to_nat want)) as [H1|H1].
  - exists (moved dir off d en w). cbn [length fmap list_fmap]. split_and!; [|exact Tr| |now destruct dir].
    + erewrite resumed_return; [reflexivity|]. rewrite Ec. apply got_all; [lia|lia|rewrite Hres; lia].
    + apply requests_none. now destruct dir.
  - set (k := Z.of_nat (length d)) in *. set (w2 := ask (request_to dir (off + k) (want - k)) (moved dir off d en w)).
    assert (Eb : body (got dir total off want) (complete (Moves n, en) w) = (co_await (got dir total (off + k) (want - k)), w2)).
    { rewrite Ec. apply got_more; [lia|done|lia]. }
    assert (R2 : io_ready dir (off + k) (want - k) w2).
    { constructor; [now destruct dir|lia|lia| |apply last_snoc]. destruct dir; cbn; [rewrite length_splice|]; lia. }
    specialize (IH (off + k) (want - k) w2 R2). unfold io_result in IH.
    replace (Z.to_nat (want - k)) with (Z.to_nat want - length d)%nat in IH by lia.
    assert (Es : source dir (off + k) w2 = drop (length d) (source dir off w)).
    { destruct dir; cbn; [done|]. rewrite drop_drop. f_equal. lia. }
    rewrite Es in IH. destruct (moves _ _ l _) as [d' v]. destruct IH as (w' & E' & Tr' & Rq & Af).
    exists w'. cbn [length fmap list_fmap]. rewrite (resumed_wait _ _ _ _ _ _ _ Eb). split_and!; [exact E'| | |].
    + eapply transferred_app; [lia|done|exact Tr|]. fold k. destruct dir; exact Tr'.
    + eapply requests_one with (w1 := w2) (off := off + k) (n := want - k); [now destruct dir| |lia..].
      now replace (off + want) with (off + k + (want - k)) by lia.
    + destruct dir; exact Af.
Qed.

Lemma io_runs dir total l : 0 < total < 2147483648 -> Forall answer_ok l -> io_good dir total l.
Proof.
  intros Ht. induction 1 as [|[[n|e] en] l Ha _ IH]; intros off want w R.
  - exists w. split_and!; [done|now apply transferred_nil|now apply requests_none|done].
  - destruct (decide (take (min n (Z.to_nat want)) (source dir off w) = [])); [now apply io_nothing|now apply io_some].
  - now apply io_error.
Qed.
End IO.

Section Theorems.
Context {P E : Type} `{HB : Build} (bad_function_call : E) (handler : P -> uconn -> act (@point P E) Z E * uconn) (first : P).
Abbreviation body := (connectionLoop bad_function_call handler first).

(** The start of [read] or [send]. *)
Definition io (dir : direction) (len : Z) : @point P E := match dir with Reading => Read len | Writing => Send len end.

(** The task of an operation follows its call. *)
Lemma task_follows n void p envs w res w' m : Task.call body n void p envs w = Some (res, w') ->
  exists k0, forall k, (k0 <= k)%nat -> run_task body k envs void p {| frames := m; world := w |} =
    if res is Undefined then Fail UndefinedBehaviour else Done (Some res, {| frames := m; world := w' |}).
Proof.
  intros Hc. destruct (run_follows _ _ _ _ _ _ _ _ Hc) as [k0 Hf]. exists (S k0). intros [|k] Hk; [lia|].
  eapply run_task_followed; [exact Hf|lia|]. intros r envs' ->. eapply call_result_ok, Hc.
Qed.

Lemma io_start dir len n envs w : 0 < len < 2147483648 ->
  Task.call body (S n) false (io dir len) envs w =
  resumed bad_function_call handler first n (got dir len 0 len) envs (ask (request_to dir 0 len) w).
Proof.
  intros Hl. assert (Eb : body (io dir len) w = (co_await (got dir len 0 len), ask (request_to dir 0 len) w)).
  { destruct dir; cbn [io connectionLoop]; [unfold read_loop|unfold send_loop; rewrite wrap64_small by (unfold size_mod; lia)];
      destruct (Z.ltb_spec 0 len); try lia; now rewrite Z.mod_small by lia. }
  cbn [Task.call]. now rewrite Eb.
Qed.

(** An operation on [len] bytes, from its call to the end of its task. *)
Lemma io_task dir len l w m : 0 < len < 2147483648 -> len <= Z.of_nat (length (memory w)) -> Forall answer_ok l ->
  closeCallback_ w = true ->
  let '(d, v) := moves (ends_on_none dir) (Z.to_nat len) l (source dir 0 w) in
  exists w', (exists k0, forall k, (k0 <= k)%nat ->
      run_task body k (complete <$> l) false (io dir len) {| frames := m; world := w |} =
      Done (Some (answered len v), {| frames := m; world := w' |})) /\
    transferred dir 0 d w w' /\ requests_in (request_to dir) 0 len w w' /\ after_io v w w'.
Proof.
  intros Hl Hm Ha Hc. set (w0 := ask (request_to dir 0 len) w).
  pose proof (io_runs bad_function_call handler first dir len l Hl Ha 0 len w0
    ltac:(constructor; [exact Hc|lia|exact Hl|exact Hm|apply last_snoc])) as Hio.
  unfold io_result in Hio. replace (source dir 0 w0) with (source dir 0 w) in Hio by now destruct dir.
  destruct (moves _ _ l _) as [d v]. destruct Hio as (w' & E1 & Tr & Rq & Af). exists w'.
  pose proof (eq_trans (io_start dir len (length l) (complete <$> l) w Hl) E1) as E2.
  destruct (task_follows _ _ _ _ _ _ _ m E2) as [k0 Hk]. split_and!.
  - exists k0. intros k Hk0. rewrite (Hk k Hk0). now destruct v.
  - destruct dir; exact Tr.
  - apply requests_one with (off := 0) (n := len) (w1 := w0); [reflexivity|exact Rq|lia..].
  - exact Af.
Qed.

(** C12: [read(buf, len)] puts the next bytes of the peer at the start of [buf], in
    order and never behind [len], and asks the kernel only for the part of [buf]
    that is left.  It returns [len] when [buf] is full, waits while bytes are
    missing, and closes the connection with the result 0 at the end of the
    stream - also when it has read bytes before, whose number is lost - or with the
    error when [errno], not the result, says anything but EAGAIN or EINTR.
    Without a positive [len] it runs off its end, which is undefined. *)
Theorem uring_read_fills len l w m : Forall answer_ok l -> closeCallback_ w = true ->
  (len <= 0 -> exists k0, forall k, (k0 <= k)%nat ->
     run_task body k (complete <$> l) false (Read len) {| frames := m; world := w |} = Fail UndefinedBehaviour) /\
  (0 < len < 2147483648 -> len <= Z.of_nat (length (memory w)) ->
   let '(d, v) := moves true (Z.to_nat len) l (incoming w) in
   exists w', (exists k0, forall k, (k0 <= k)%nat ->
      run_task body k (complete <$> l) false (Read len) {| frames := m; world := w |} =
      Done (Some (answered len v), {| frames := m; world := w' |})) /\
    incoming w = d ++ incoming w' /\ memory w' = d ++ drop (length d) (memory w) /\ wire w' = wire w /\
    Z.of_nat (length d) <= len /\ (if v is AllMoved _ then Z.of_nat (length d) = len else True) /\
    requests_in AskRead 0 len w w' /\ after_io v w w').
Proof.
  intros Ha Hc. split.
  - intros Hl. assert (E1 : Task.call body 1 false (Read len) (complete <$> l) w = Some (Undefined, w)).
    { cbn. unfold read_loop. destruct (Z.ltb_spec 0 len); [lia|done]. }
    exact (task_follows _ _ _ _ _ _ _ m E1).
  - intros Hl Hm. pose proof (io_task Reading len l w m Hl Hm Ha Hc) as Hio.
    pose proof (moves_prefix true (Z.to_nat len) l (incoming w)) as Hp. cbn [ends_on_none source] in Hio.
    destruct (moves _ _ l _) as [d v]. destruct Hp as (_ & Hd & Hv).
    destruct Hio as (w' & Hrun & (Ei & Em & Ew) & Rq & Af). exists w'. split_and!; try done; [lia|]. destruct v; lia.
Qed.

(** C13: [send(data, len)] puts the bytes of the message on the wire, in order and
    each once, until all are there - then it returns their number - or an error
    breaks the connection; an answer of no bytes is no end.  An empty message is
    undefined behaviour, and a negative [len] is sent as 2^32 more. *)
Theorem uring_send_delivers len l w m : Forall answer_ok l -> closeCallback_ w = true ->
  (exists k0, forall k, (k0 <= k)%nat ->
     run_task body k (complete <$> l) false (Send 0) {| frames := m; world := w |} = Fail UndefinedBehaviour) /\
  (-2147483648 <= len < 0 -> exists k0, forall k, (k0 <= k)%nat ->
     run_task body k [] false (Send len) {| frames := m; world := w |} =
     Done (Some Blocks, {| frames := m; world := ask (AskWrite 0 (len + 4294967296)) w |})) /\
  (0 < len < 2147483648 -> len = Z.of_nat (length (memory w)) ->
   let '(d, v) := moves false (Z.to_nat len) l (memory w) in
   exists w', (exists k0, forall k, (k0 <= k)%nat ->
      run_task body k (complete <$> l) false (Send len) {| frames := m; world := w |} =
      Done (Some (answered len v), {| frames := m; world := w' |})) /\
    wire w' = wire w ++ d /\ (exists rest, memory w = d ++ rest /\ (if v is AllMoved _ then rest = [] else True)) /\
    memory w' = memory w /\ incoming w' = incoming w /\ requests_in AskWrite 0 len w w' /\ after_io v w w').
Proof.
  intros Ha Hc. split_and!.
  - assert (E1 : Task.call body 1 false (Send 0) (complete <$> l) w = Some (Undefined, w)) by done.
    exact (task_follows _ _ _ _ _ _ _ m E1).
  - intros Hl. assert (E1 : Task.call body 1 false (Send len) [] w = Some (Blocks, ask (AskWrite 0 (len + 4294967296)) w)).
    { cbn [Task.call connectionLoop]. unfold send_loop.
      replace (wrap64 len) with (len + size_mod) by (unfold size_mod; zlia).
      replace (len mod 4294967296) with (len + 4294967296) by (Z.div_mod_to_equations; lia).
      destruct (Z.ltb_spec 0 (len + size_mod)); [done|unfold size_mod in *; lia]. }
    exact (task_follows _ _ _ _ _ _ _ m E1).
  - intros Hl Hm. pose proof (io_task Writing len l w m Hl ltac:(lia) Ha Hc) as Hio.
    pose proof (moves_prefix false (Z.to_nat len) l (memory w)) as Hp. cbn [ends_on_none source] in Hio. rewrite drop_0 in Hio.
    destruct (moves _ _ l _) as [d v]. destruct Hp as ([s' Es] & Hd & Hv).
    destruct Hio as (w' & Hrun & (Ew & Em & Ei) & Rq & Af). exists w'. split_and!; try done.
    exists s'. split; [done|]. destruct v; try done. apply nil_length_inv. rewrite Es, length_app in Hm. lia.
Qed.
End Theorems.

(** ** The life of a connection *)

Section Life.
Context `{HB : Build}.

(** What happens to a started connection: its user shuts it down or closes it, its
    loop runs the oldest functor, an operation finds the end or an error. *)
Inductive happening := DoShutdown | DoForceclose | RunFunctor | OperationFails.

Definition happen (e : happening) : ST uconn unit :=
  match e with
  | DoShutdown => shutdown
  | DoForceclose => modify forceclose
  | RunFunctor => w ← get; match functors w with [] => mret tt | f :: l => _ ← put (set_functors l w); run_functor f end
  | OperationFails => fun w => let '(threw, w') := handleClose w in if (threw : bool) then Fail BadFunctionCall else Done (tt, w')
  end.

(** The server has been told exactly when the connection is disconnected. *)
Definition Once w : Prop :=
  closeCallback_ w = true /\ closed w = (if decide (state_ w = KDisconnected) then 1 else 0)%nat.

Lemma handleClose_once w : Once w -> exists w', handleClose w = (false, w') /\ Once w' /\ state_ w' = KDisconnected /\ closed w' = 1%nat.
Proof.
  intros [Hc Hn]. unfold handleClose, Once. destruct (decide (state_ w = KDisconnected)) as [Hs|Hs].
  - exists w. now rewrite decide_True.
  - rewrite Hc. eexists. split; [reflexivity|]. cbn. now rewrite Hn.
Qed.

Lemma forceclose_once w : Once w -> Once (forceclose w).
Proof. unfold Once, forceclose. intros [Hc Hn]. destruct (state_ w) eqn:Es; cbn; now rewrite ?Es. Qed.

Lemma run_functor_once f w : Once w -> exists w', run_functor f w = Done (tt, w') /\ Once w'.
Proof.
  intros H0. destruct f; cbn [run_functor].
  - eexists. split; [reflexivity|exact H0].
  - destruct (handleClose_once (add_shut SHUT_RDWR w) H0) as (w' & E & H1 & _). unfold forcecloseInLoop. rewrite E. eauto.
  - eauto.
Qed.

Lemma happen_once e w w' : asserts_enabled = true -> Once w -> happen e w = Done (tt, w') -> Once w'.
Proof.
  intros Hb H0. destruct e; cbn [happen].
  - unfold shutdown. rewrite bind_get. unfold cassert. rewrite Hb. cbn [andb].
    destruct (bool_decide_reflect (state_ w = KConnected)) as [Hs|]; [|discriminate]. cbn [negb].
    intros [= <-]. unfold Once in *. rewrite Hs in H0. exact H0.
  - intros [= <-]. now apply forceclose_once.
  - rewrite bind_get. destruct (functors w) as [|f l]; [now intros [= <-]|]. intros (u & w1 & [= <- <-] & E1)%bind_inv.
    destruct (run_functor_once f (set_functors l w) H0) as (w2 & E2 & H2). rewrite E2 in E1. now injection E1 as <-.
  - destruct (handleClose_once w H0) as (w2 & E2 & H2 & _). rewrite E2. now intros [= <-].
Qed.

Lemma run_forceclose w : closeCallback_ w = true -> run_functor call_forcecloseInLoop w = Done (tt,
  if decide (state_ w = KDisconnected) then add_shut SHUT_RDWR w
  else queueInLoop hold_guard (set_state KDisconnected (add_closed (add_shut SHUT_RDWR w)))).
Proof.
  intros Hc. cbn [run_functor]. unfold forcecloseInLoop, handleClose. cbn [state_ add_shut closeCallback_]. rewrite Hc.
  now destruct (decide (state_ w = KDisconnected)).
Qed.

(** What the queued functors do. *)
Lemma functors_done l w : closeCallback_ w = true -> exists w', for_each l run_functor w = Done (tt, w') /\
  closeCallback_ w' = true /\
  if bool_decide (state_ w <> KDisconnected /\ call_forcecloseInLoop ∈ l)
  then state_ w' = KDisconnected /\ closed w' = S (closed w)
  else state_ w' = state_ w /\ closed w' = closed w.
Proof.
  revert w. induction l as [|f l IH]; intros w Hc.
  { exists w. rewrite bool_decide_false by (intros [_ H0]; set_solver). now split_and!. }
  destruct f; cbn [for_each].
  - destruct (IH (shutdownInLoop w) Hc) as (w' & E & Hw). exists w'. erewrite bind_done by reflexivity. split; [exact E|].
    cbn in Hw. erewrite bool_decide_ext; [exact Hw|]. set_solver.
  - destruct (decide (state_ w = KDisconnected)) as [Hs|Hs].
    + destruct (IH (add_shut SHUT_RDWR w) Hc) as (w' & E & Hw). exists w'.
      rewrite (bind_done _ _ _ _ _ (run_forceclose w Hc)), decide_True by done. split; [exact E|].
      rewrite bool_decide_false in Hw |- * by (now intros [? _]). exact Hw.
    + destruct (IH (queueInLoop hold_guard (set_state KDisconnected (add_closed (add_shut SHUT_RDWR w)))) Hc) as (w' & E & Hw).
      exists w'. rewrite (bind_done _ _ _ _ _ (run_forceclose w Hc)), decide_False by done. split; [exact E|].
      rewrite bool_decide_false in Hw by (now intros [? _]). cbn in Hw. rewrite bool_decide_true by (split; [done|set_solver]).
      exact Hw.
  - destruct (IH w Hc) as (w' & E & Hw). exists w'. erewrite bind_done by reflexivity. split; [exact E|].
    erewrite bool_decide_ext; [exact Hw|]. set_solver.
Qed.

(** with assertions a connection tells its server at most once that it is
    closed, and it has done so exactly when it is disconnected, whatever its user,
    its loop and its operations do in whatever order, up to a failed assertion.
    Without them [shutdown] brings a closed connection back, and the next failure
    tells the server again. *)
Theorem uring_closes_once (es : list happening) w : Once w ->
  (asserts_enabled = true -> forall w', for_each es happen w = Done (tt, w') ->
     Once w' /\ (closed w' <= 1)%nat /\ (closed w' = 1%nat <-> state_ w' = KDisconnected)) /\
  (asserts_enabled = false -> exists w', for_each [OperationFails; DoShutdown; OperationFails] happen w = Done (tt, w') /\ closed w' = 2%nat).
Proof.
  intros H0. split; intros Hb.
  - intros w' E. assert (H1 : Once w').
    { revert w H0 E. induction es as [|e es IH]; intros w H0 E; [now injection E as <-|].
      apply bind_inv in E as ([] & w1 & E1 & E2). exact (IH w1 (happen_once e w w1 Hb H0 E1) E2). }
    destruct H1 as [Hc Hn]. split; [now split|]. rewrite Hn. destruct (decide (state_ w' = KDisconnected)); split; try lia; split; done || lia.
  - destruct (handleClose_once w H0) as (w1 & E1 & [Hc1 _] & Hs1 & Hn1).
    set (w2 := queueInLoop call_shutdownInLoop (set_state KDisconnecting w1)).
    set (w3 := queueInLoop hold_guard (set_state KDisconnected (add_closed w2))).
    assert (F1 : happen OperationFails w = Done (tt, w1)) by (cbn [happen]; now rewrite E1).
    assert (F2 : happen DoShutdown w1 = Done (tt, w2)).
    { cbn [happen]. unfold shutdown. rewrite bind_get. unfold cassert. now rewrite Hb. }
    assert (F3 : happen OperationFails w2 = Done (tt, w3)).
    { cbn [happen]. unfold handleClose. replace (closeCallback_ w2) with true by (symmetry; exact Hc1). reflexivity. }
    exists w3. rewrite (for_each_cons _ _ _ _ _ F1), (for_each_cons _ _ _ _ _ F2), (for_each_cons _ _ _ _ _ F3).
    split; [done|]. cbn. now rewrite Hn1.
Qed.
End Life.

(** ** The handler of a connection *)

Section Handled.
Context {P E : Type} `{HB : Build} (bad_function_call : E) (handler : P -> uconn -> act (@point P E) Z E * uconn) (first : P).
Abbreviation body := (connectionLoop bad_function_call handler first).

(** The call that [connectionLoop] is, by the outcome of the handler. *)
Lemma uring_call_loop n envs w res w1 : Task.call body n true (Handler first) envs (set_state KConnected w) = Some (res, w1) ->
  Task.call body (S (S n)) true Loop envs w =
  match res with
  | Returns (inr _) envs' => Some (Returns (inr None) envs', if decide (state_ w1 = KDisconnected) then w1 else forceclose w1)
  | Returns (inl e) envs' => Some (Returns (inl e) envs', w1)
  | other => Some (other, w1)
  end.
Proof.
  intros E0. pose proof (call_more body n (S n) _ _ _ _ _ E0 ltac:(lia)) as E1.
  assert (E2 : Task.call body (S (S n)) true Loop envs w =
    match Task.call body (S n) true (Handler first) envs (set_state KConnected w) with
    | Some (Returns r envs', w') => Task.call body (S n) true (Resumed r) envs' w'
    | other => other
    end) by reflexivity.
  rewrite E2, E1. now destruct res as [[e|o] envs'| |].
Qed.

(** What the loop makes of a connection whose handler has returned. *)
Lemma loop_after_handler w : closeCallback_ w = true ->
  exists w', doPendingFunctors (if decide (state_ w = KDisconnected) then w else forceclose w) = Done (tt, w') /\
    match state_ w with
    | KDisconnected => closed w' = closed w
    | KDisconnecting => call_forcecloseInLoop ∉ functors w -> state_ w' = KDisconnecting /\ closed w' = closed w
    | _ => state_ w' = KDisconnected /\ closed w' = S (closed w)
    end.
Proof.
  intros Hc. set (w0 := if decide _ then _ else _).
  assert (Hc0 : closeCallback_ w0 = true) by (unfold w0, forceclose; destruct (decide _); [done|now destruct (state_ w)]).
  destruct (functors_done (functors w0) (set_functors [] w0) Hc0) as (w' & Er & _ & Hw). exists w'.
  split; [unfold doPendingFunctors; rewrite bind_get; erewrite bind_done by reflexivity; exact Er|].
  assert (E0 : w0 = match state_ w with KDisconnected | KDisconnecting => w
      | _ => queueInLoop call_forcecloseInLoop (set_state KDisconnecting w) end)
    by (unfold w0, forceclose; destruct (state_ w); reflexivity).
  rewrite E0 in Hw. destruct (state_ w) eqn:Es; cbn in Hw; rewrite ?Es in Hw.
  1, 2: rewrite bool_decide_true in Hw by (split; [done|set_solver]); exact Hw.
  - intros Hn. rewrite bool_decide_false in Hw by (now intros []). exact Hw.
  - rewrite bool_decide_false in Hw by (now intros []). apply Hw.
Qed.

(** [start] runs the handler, and the completions [envs] drive it.  When it
    returns, a connection that is still connected is closed by the loop, once; one
    that an operation closed stays closed; but one that the handler has shut down
    stays half closed for ever, its server never told.  When the handler throws
    the exception stays in [connectionTask_] and nothing is closed; when it waits
    for ever so does the connection. *)
Theorem uring_handler_ends n envs s res w2 : handle_ (world s) = true ->
  Task.call body n true (Handler first) envs (set_state KConnected (set_state KConnecting (world s))) = Some (res, w2) ->
  exists k0, forall k, (k0 <= k)%nat ->
  match res with
  | Returns (inr _) envs' => exists h s', start bad_function_call handler first k envs s = Done (Some (Some (h, Finished envs')), s') /\
      (closeCallback_ w2 = true -> exists w3, doPendingFunctors (world s') = Done (tt, w3) /\
         match state_ w2 with
         | KDisconnected => closed w3 = closed w2
         | KDisconnecting => call_forcecloseInLoop ∉ functors w2 -> state_ w3 = KDisconnecting /\ closed w3 = closed w2
         | _ => state_ w3 = KDisconnected /\ closed w3 = S (closed w2)
         end)
  | Returns (inl e) envs' => exists h s', start bad_function_call handler first k envs s = Done (Some (Some (h, Finished envs')), s') /\
      world s' = w2 /\ get_result h s' = Done (inl e, s')
  | Blocks => exists h l s', start bad_function_call handler first k envs s = Done (Some (Some (h, Blocked l)), s') /\
      world s' = w2 /\ Task.done h s' = Done (false, s')
  | Undefined => start bad_function_call handler first k envs s = Fail UndefinedBehaviour
  end.
Proof.
  intros Hh E2. pose proof (uring_call_loop n envs _ res w2 E2) as Ec.
  assert (Est : forall k, start bad_function_call handler first k envs s =
    (z ← drive body k envs (fresh (dom (frames s))); mret ((fun r => Some (fresh (dom (frames s)), r)) <$> z))
      {| frames := <[fresh (dom (frames s)) := live None true (At Loop)]> (frames s); world := set_state KConnecting (world s) |}).
  { intros k. unfold start. cbn [handle_ set_state]. rewrite Hh.
    now rewrite (bind_done _ _ _ _ _ (make_done true Loop (frames s) (set_state KConnecting (world s)))). }
  destruct res as [[e|o] envs'| |]; destruct (run_follows body _ _ _ _ _ _ _ Ec) as [k0 Hf];
    exists (S k0); intros [|k] Hk; try lia; rewrite Est;
    pose proof (drive_followed body _ k _ _ _ _ _ _ (frames s) Hf ltac:(lia)) as Hd; cbn [follows back_to dispatch] in Hd.
  - st_step Hd. eexists _, _. split; [reflexivity|]. split; [reflexivity|].
    apply (get_result_ended None _ true (inl e)); [apply lookup_insert_eq|exact I].
  - st_step Hd. eexists _, _. split; [reflexivity|]. intros Hc. exact (loop_after_handler w2 Hc).
  - destruct Hd as (l & fr & Hd & _ & a & Ea & Ha). st_step Hd. eexists _, l, _. split; [reflexivity|]. split; [reflexivity|].
    rewrite (done_at _ _ _ _ Ea). now destruct a.
  - now apply bind_fail.
Qed.
End Handled.

(** ** Examples *)
Module Demo.
#[local] Existing Instance debug_build.

(** Handlers: an echo of four bytes at a time until the connection ends, one that
    returns at once, one that shuts the connection down first, one that throws. *)
Inductive pt := Echo | AfterRead (r : Z + option Z) | AfterSend (r : Z + option Z) | Quick | ShutDown | Throw.

Definition read_four : @act (@point pt Z) Z Z := co_await_task false (Read 4) (fun r => Handler (AfterRead r)).

Definition handlers (p : pt) w : act (@point pt Z) Z Z * uconn :=
  match p with
  | Echo => (read_four, w)
  | AfterRead (inr (Some n)) =>
      (if 0 <? n then co_await_task false (Send n) (fun r => Handler (AfterSend r)) else flow_off, w)
  | AfterSend (inr (Some n)) => (if 0 <? n then read_four else flow_off, w)
  | AfterRead _ | AfterSend _ | Quick => (flow_off, w)
  | ShutDown => (flow_off, queueInLoop call_shutdownInLoop (set_state KDisconnecting w))
  | Throw => (raise 5, w)
  end.

Definition conn0 (st : State) (m i : list byte) : uconn :=
  {| state_ := st; handle_ := true; closeCallback_ := true; functors := []; closed := 0; shuts := []; res := -1; errno := 0;
     asked := []; memory := m; incoming := i; wire := [] |}.

Definition pieces : list (answer * Z) := [(Errs 11, 11); (Moves 3, 0); (Moves 9, 0)].

(** Five bytes come in three pieces, after an EAGAIN; four are wanted. *)
Lemma uring_read_fills_witness : exists w', (exists k0, forall k, (k0 <= k)%nat ->
    run_task (connectionLoop 9 handlers Echo) k (complete <$> pieces) false (Read 4)
      {| frames := ∅; world := conn0 KConnected [x00; x00; x00; x00] [x61; x62; x63; x64; x65] |} =
    Done (Some (Returns (inr (Some 4)) []), {| frames := ∅; world := w' |})) /\
  [x61; x62; x63; x64; x65] = [x61; x62; x63; x64] ++ incoming w' /\ memory w' = [x61; x62; x63; x64].
Proof.
  pose proof (proj2 (uring_read_fills 9 handlers Echo 4 pieces (conn0 KConnected [x00; x00; x00; x00] [x61; x62; x63; x64; x65]) ∅
    ltac:(repeat constructor) eq_refl) ltac:(lia) ltac:(cbn; lia)) as H.
  cbn in H. destruct H as (w' & Hrun & Hi & Hm & _). exists w'. split_and!; [exact Hrun|exact Hi|exact Hm].
Defined.

(** The message is sent in two pieces. *)
Lemma uring_send_delivers_witness : exists w', (exists k0, forall k, (k0 <= k)%nat ->
    run_task (connectionLoop 9 handlers Echo) k (complete <$> pieces) false (Send 4)
      {| frames := ∅; world := conn0 KConnected [x61; x62; x63; x64] [] |} =
    Done (Some (Returns (inr (Some 4)) []), {| frames := ∅; world := w' |})) /\
  wire w' = [x61; x62; x63; x64].
Proof.
  pose proof (proj2 (proj2 (uring_send_delivers 9 handlers Echo 4 pieces (conn0 KConnected [x61; x62; x63; x64] []) ∅
    ltac:(repeat constructor) eq_refl)) ltac:(lia) eq_refl) as H.
  cbn in H. destruct H as (w' & Hrun & Hw & _). exists w'. split; [exact Hrun|exact Hw].
Defined.

(** The user closes, the loop runs the functor, an operation fails. *)
Lemma uring_closes_once_witness : exists w',
  for_each [DoForceclose; RunFunctor; OperationFails] happen (conn0 KConnected [] []) = Done (tt, w') /\
  Once w' /\ (closed w' <= 1)%nat /\ (closed w' = 1%nat <-> state_ w' = KDisconnected).
Proof.
  eexists. split; [reflexivity|].
  exact (proj1 (uring_closes_once [DoForceclose; RunFunctor; OperationFails] (conn0 KConnected [] []) (conj eq_refl eq_refl)) eq_refl _ eq_refl).
Defined.

Definition start_state (i : list byte) : state (@point pt Z) Z Z uconn :=
  {| frames := ∅; world := conn0 KDisconnected [x00; x00; x00; x00] i |}.

(** A connection when its handler has returned. *)
Definition handled (first : pt) (l : list (answer * Z)) (i : list byte) : option (called * uconn) :=
  Task.call (connectionLoop 9 handlers first) 20 true (Handler first) (complete <$> l)
    (set_state KConnected (set_state KConnecting (world (start_state i)))).
Definition world_after (o : option (called (V := Z) (E := Z) (W := uconn) * uconn)) : uconn :=
  match o with Some (_, w) => w | None => conn0 KDisconnected [] [] end.

Definition three : list (answer * Z) := [(Moves 4, 0); (Moves 4, 0); (Moves 4, 0)].

(** The echo of four bytes and the end of the stream; the handler that only shuts
    the connection down, whose server is never told. *)
Lemma uring_handler_ends_witness :
  (exists k0, forall k, (k0 <= k)%nat -> exists h s',
     start 9 handlers Echo k (complete <$> three) (start_state [x61; x62; x63; x64]) =
       Done (Some (Some (h, Finished [])), s') /\
     exists w3, doPendingFunctors (world s') = Done (tt, w3) /\ closed w3 = 1%nat) /\
  (exists k0, forall k, (k0 <= k)%nat -> exists h s',
     start 9 handlers ShutDown k [] (start_state []) = Done (Some (Some (h, Finished [])), s') /\
     exists w3, doPendingFunctors (world s') = Done (tt, w3) /\ state_ w3 = KDisconnecting /\ closed w3 = 0%nat).
Proof.
  split.
  - set (w2 := world_after (handled Echo three [x61; x62; x63; x64])).
    assert (E1 : handled Echo three [x61; x62; x63; x64] = Some (Returns (inr None) [], w2)) by (vm_compute; reflexivity).
    destruct (uring_handler_ends 9 handlers Echo 20 _ (start_state [x61; x62; x63; x64]) _ _ eq_refl E1) as [k0 Hk].
    exists k0. intros k Hle. destruct (Hk k Hle) as (h & s' & E & Hf). exists h, s'. split; [exact E|].
    destruct (Hf eq_refl) as (w3 & E3 & Hc). exists w3. split; [exact E3|].
    change (state_ w2) with KDisconnected in Hc. exact Hc.
  - set (w2 := world_after (handled ShutDown [] [])).
    assert (E1 : handled ShutDown [] [] = Some (Returns (inr None) [], w2)) by (vm_compute; reflexivity).
    destruct (uring_handler_ends 9 handlers ShutDown 20 _ (start_state []) _ _ eq_refl E1) as [k0 Hk].
    exists k0. intros k Hle. destruct (Hk k Hle) as (h & s' & E & Hf). exists h, s'. split; [exact E|].
    destruct (Hf eq_refl) as (w3 & E3 & Hc). exists w3. split; [exact E3|].
    change (state_ w2) with KDisconnecting in Hc. apply Hc. change (functors w2) with [call_shutdownInLoop]. set_solver.
Defined.
End Demo.
