(* ===== verification/UringTcpServer.v ===== *)
(** UringTcpServer: [io_uring/UringCoroTcpServer.h] and
    [io_uring/UringCoroTcpServer.cpp], with the connections of
    UringTcpConnection.v and the thread pool of TcpServer.v (the one of
    [io_uring/UringEventLoopThreadPool.h] is a copy).

    Connections are named by the order of their creation.  Who owns a connection is
    explicit: the server's map, functors that hold a pointer, the frame of its
    handler.  Using one that nobody owns is undefined.  The coroutine of a handler
    is represented by what it does to its connection. *)

From Stdlib Require Import ZArith Lia.
From S2P Require Import Prelude TcpServer Task UringTcpConnection.
Local Open Scope Z_scope.

(** The functors of the loops: [conn_->start()], those a connection queues on its
    loop - its raw address, or a pointer that keeps it alive - and
    [removeConnectionInLoop(con)] on the base loop. *)
Inductive ufunctor :=
  | FStart (c : nat)
  | FConn (f : functor) (c : nat)
  | FRemove (c : nat).

#[export] Instance ufunctor_eq_dec : EqDecision ufunctor.
Proof. solve_decision. Defined.

(** A connection with its place; [began]: [start] has run; [running]: the
    coroutine of the handler has not ended, its frame holds a pointer. *)
Record uinfo := { c_name : string; c_loop : loop_id; c_fd : Z; c_conn : uconn; began : bool; running : bool }.

Record userver := {
  threadPool_ : pool;
  name_ : string;
  started_ : Z;
  handle_set : bool;
  nextConnId_ : Z;
  connections_ : gmap string nat;
  conns : list uinfo;
  queues : loop_id -> list ufunctor;
  server_alive : bool
}.

Definition set_pool (p : pool) (s : userver) : userver :=
  {| threadPool_ := p; name_ := name_ s; started_ := started_ s; handle_set := handle_set s; nextConnId_ := nextConnId_ s;
     connections_ := connections_ s; conns := conns s; queues := queues s; server_alive := server_alive s |}.
Definition set_started (s : userver) : userver :=
  {| threadPool_ := threadPool_ s; name_ := name_ s; started_ := 1; handle_set := handle_set s; nextConnId_ := nextConnId_ s;
     connections_ := connections_ s; conns := conns s; queues := queues s; server_alive := server_alive s |}.
Definition set_nextId (n : Z) (s : userver) : userver :=
  {| threadPool_ := threadPool_ s; name_ := name_ s; started_ := started_ s; handle_set := handle_set s; nextConnId_ := n;
     connections_ := connections_ s; conns := conns s; queues := queues s; server_alive := server_alive s |}.
Definition set_connections (m : gmap string nat) (s : userver) : userver :=
  {| threadPool_ := threadPool_ s; name_ := name_ s; started_ := started_ s; handle_set := handle_set s; nextConnId_ := nextConnId_ s;
     connections_ := m; conns := conns s; queues := queues s; server_alive := server_alive s |}.
Definition set_conns (l : list uinfo) (s : userver) : userver :=
  {| threadPool_ := threadPool_ s; name_ := name_ s; started_ := started_ s; handle_set := handle_set s; nextConnId_ := nextConnId_ s;
     connections_ := connections_ s; conns := l; queues := queues s; server_alive := server_alive s |}.
Definition set_queue (l : loop_id) (q : list ufunctor) (s : userver) : userver :=
  {| threadPool_ := threadPool_ s; name_ := name_ s; started_ := started_ s; handle_set := handle_set s; nextConnId_ := nextConnId_ s;
     connections_ := connections_ s; conns := conns s; queues := fun l' => if decide (l' = l) then q else queues s l';
     server_alive := server_alive s |}.
Definition set_dead (s : userver) : userver :=
  {| threadPool_ := threadPool_ s; name_ := name_ s; started_ := started_ s; handle_set := handle_set s; nextConnId_ := nextConnId_ s;
     connections_ := connections_ s; conns := conns s; queues := queues s; server_alive := false |}.

Definition loop_ (s : userver) : loop_id := baseLoop_ (threadPool_ s).

(** The constructor. *)
Definition newServer (loop : loop_id) (name : string) (handle : bool) : userver :=
  {| threadPool_ := newPool loop; name_ := name; started_ := 0; handle_set := handle; nextConnId_ := 1; connections_ := ∅;
     conns := []; queues := fun _ => []; server_alive := true |}.

(** A new connection, with its callbacks. *)
Definition newConn (handle : bool) : uconn :=
  {| state_ := KDisconnected; handle_ := handle; closeCallback_ := true; functors := []; closed := 0; shuts := []; res := -1; errno := 0;
     asked := []; memory := []; incoming := []; wire := [] |}.

Section Server.
Context `{Build} (startLoop : nat -> loop_id) (threadInitCallback_ : bool).
Implicit Types (s : userver).

Definition on_pool {A} (m : ST pool A) : ST userver A := fun s =>
  match m (threadPool_ s) with Done (a, p) => Done (a, set_pool p s) | Fail f => Fail f end.

Definition setThreadNums (n : Z) : ST userver unit := _ ← cassert (0 <=? n); on_pool (modify (setThreadNum_pool n)).

(** [start], up to the loop; the results of [bind] and [listen] are only asserted. *)
Definition start (bind listen : Z) : ST userver unit :=
  _ ← cassert (bind =? 0);
  _ ← cassert (listen =? 0);
  _ ← modify set_started;
  on_pool (start_pool startLoop threadInitCallback_).

Definition info (c : nat) : ST userver uinfo := s ← get; deref (conns s !! c).
Definition queueInLoop (l : loop_id) (f : ufunctor) : ST userver unit :=
  modify (fun s => set_queue l (queues s l ++ [f]) s).
Definition set_info (c : nat) (i : uinfo) : ST userver unit := modify (fun s => set_conns (<[c := i]> (conns s)) s).

(** Somebody owns the connection. *)
Definition owned s (c : nat) (i : uinfo) : bool :=
  bool_decide (connections_ s !! c_name i = Some c) || running i || bool_decide (FStart c ∈ queues s (c_loop i)) ||
  bool_decide (FConn hold_guard c ∈ queues s (c_loop i)) || bool_decide (FRemove c ∈ queues s (loop_ s)).
Definition use (c : nat) : ST userver unit :=
  i ← info c; s ← get; if owned s c i then mret tt else fail UndefinedBehaviour.

Definition removeConnectionInLoop (c : nat) : ST userver unit :=
  s ← get; _ ← (if server_alive s then mret tt else fail UndefinedBehaviour);
  i ← info c; modify (fun s => set_connections (delete (c_name i) (connections_ s)) s).

(** [removeConnection], on the connection's loop. *)
Definition removeConnection (c : nat) : ST userver unit :=
  s ← get; _ ← (if server_alive s then mret tt else fail UndefinedBehaviour);
  i ← info c;
  if decide (c_loop i = loop_ s) then removeConnectionInLoop c else queueInLoop (loop_ s) (FRemove c).

(** A member function of the connection: it calls the server when it closes, and
    queues functors. *)
Definition on_conn (c : nat) (m : ST uconn unit) : ST userver unit :=
  i ← info c;
  match m (c_conn i) with
  | Fail f => fail f
  | Done (_, w) =>
      _ ← when (closed (c_conn i) <? closed w)%nat (removeConnection c);
      _ ← set_info c {| c_name := c_name i; c_loop := c_loop i; c_fd := c_fd i; c_conn := set_functors [] w; began := began i; running := running i |};
      for_each (functors w) (fun f => queueInLoop (c_loop i) (FConn f c))
  end.

Definition set_running (c : nat) (b : bool) : ST userver unit :=
  i ← info c; set_info c {| c_name := c_name i; c_loop := c_loop i; c_fd := c_fd i; c_conn := c_conn i; began := true; running := b |}.

(** [UringTcpConnection::start]: without a handler the connection closes itself. *)
Definition start_conn (c : nat) : ST userver unit :=
  i ← info c;
  _ ← set_running c (handle_ (c_conn i));
  on_conn c (modify (fun w => if handle_ w then set_state KConnected (set_state KConnecting w) else forceclose (set_state KConnecting w))).

(** [if (state_ != KDisconnected) forceclose();] *)
Definition close_if_open (w : uconn) : uconn := if decide (state_ w = KDisconnected) then w else forceclose w.

(** The rest of [connectionLoop] when the handler has ended and its frame is gone. *)
Definition end_conn (c : nat) (threw : bool) : ST userver unit :=
  _ ← set_running c false;
  if threw then mret tt
  else _ ← use c; on_conn c (modify close_if_open).

(** A functor, taken from the queue of its loop. *)
Definition run_ufunctor (f : ufunctor) : ST userver unit :=
  match f with
  | FStart c => start_conn c
  | FConn hold_guard c => mret tt
  | FConn f c => _ ← use c; on_conn c (run_functor f)
  | FRemove c => removeConnectionInLoop c
  end.

Definition onNewConnection (loop : loop_id) (conn_fd : Z) : ST userver unit :=
  s ← get;
  let name := connName (name_ s) (nextConnId_ s) in
  _ ← (if nextConnId_ s =? INT_MAX then fail UndefinedBehaviour else modify (set_nextId (nextConnId_ s + 1)));
  let c := length (conns s) in
  _ ← modify (fun s => set_conns (conns s ++ [{| c_name := name; c_loop := loop; c_fd := conn_fd; c_conn := newConn (handle_set s);
                                                 began := false; running := false |}]) s);
  _ ← modify (fun s => set_connections (<[name := c]> (connections_ s)) s);
  if decide (loop = loop_ s) then start_conn c else queueInLoop loop (FStart c).

(** One round of the loop in [start]: the result of an accept. *)
Definition accepted (conn_fd : Z) : ST userver unit :=
  if conn_fd <? 0 then mret tt else ioLoop ← on_pool getNextLoop; onNewConnection ioLoop conn_fd.

(** The destructor. *)
Definition destroyServer : ST userver unit :=
  s ← get;
  _ ← for_each (map_to_list (connections_ s)) (fun e => i ← info e.2; queueInLoop (c_loop i) (FConn hold_guard e.2));
  _ ← modify (set_connections ∅);
  modify set_dead.

(** ** Steps *)

(** [HandlerOp c e]: the coroutine of the handler of [c] calls [shutdown] or
    [forceclose], or an operation it waits for fails. *)
Inductive label :=
  | Accepted (conn_fd : Z)
  | Functor (l : loop_id)
  | HandlerOp (c : nat) (e : happening)
  | HandlerEnds (c : nat) (threw : bool).

Definition run_label (lb : label) : ST userver unit :=
  match lb with
  | Accepted fd => accepted fd
  | Functor l => s ← get; match queues s l with [] => mret tt | f :: q => _ ← modify (set_queue l q); run_ufunctor f end
  | HandlerOp c e => on_conn c (happen e)
  | HandlerEnds c threw => end_conn c threw
  end.

Definition handler_op (e : happening) : Prop := e <> RunFunctor.

Definition enabled (lb : label) s : Prop :=
  match lb with
  | Accepted _ => nextConnId_ s < INT_MAX
  | Functor _ => True
  | HandlerOp c e => handler_op e /\ exists i, conns s !! c = Some i /\ running i = true
  | HandlerEnds c _ => exists i, conns s !! c = Some i /\ running i = true
  end.

Definition step s s' : Prop := exists lb, enabled lb s /\ run_label lb s = Done (tt, s').

(** A server that has been started. *)
Definition ready s : Prop :=
  server_alive s = true /\ connections_ s = ∅ /\ conns s = [] /\ nextConnId_ s = 1 /\ (forall l, queues s l = []) /\
  0 <= next_ (threadPool_ s) /\ (next_ (threadPool_ s) < Z.of_nat (length (loops_ (threadPool_ s))) \/ loops_ (threadPool_ s) = []).

Definition reachable s : Prop := exists s0, ready s0 /\ rtc step s0 s.
End Server.

(** ** The invariant *)

Definition starts (q : list ufunctor) : list nat := omap (fun f => match f with FStart c => Some c | _ => None end) q.

(** A functor in the queue of [l]. *)
Definition fits (s : userver) (l : loop_id) (f : ufunctor) : Prop :=
  match f with
  | FStart c => exists i, conns s !! c = Some i /\ l = c_loop i /\ began i = false
  | FConn _ c => exists i, conns s !! c = Some i /\ l = c_loop i /\ began i = true
  | FRemove c => l = loop_ s /\ exists i, conns s !! c = Some i /\ closed (c_conn i) = 1%nat
  end.

(** A raw address in a queue is that of a connection that the server knows, or it
    has a pointer behind it. *)
Definition guarded (q : list ufunctor) (c : nat) : Prop :=
  forall q1 f q2, q = q1 ++ FConn f c :: q2 -> f <> hold_guard -> FConn hold_guard c ∈ q2.

Record conn_ok (s : userver) (c : nat) (i : uinfo) : Prop := {
  co_clean : functors (c_conn i) = [];
  co_callback : closeCallback_ (c_conn i) = true;
  co_once : if began i then Once (c_conn i) else closed (c_conn i) = 0%nat /\ running i = false;
  co_known : closed (c_conn i) = 0%nat -> connections_ s !! c_name i = Some c;
  co_guarded : closed (c_conn i) <> 0%nat -> guarded (queues s (c_loop i)) c
}.

(** [h]: the connection whose removal is in hand. *)
Record UInv_but (h : option nat) (s : userver) : Prop := {
  ui_alive : server_alive s = true;
  ui_next : 0 <= next_ (threadPool_ s) /\
    (next_ (threadPool_ s) < Z.of_nat (length (loops_ (threadPool_ s))) \/ loops_ (threadPool_ s) = []);
  ui_id : nextConnId_ s = 1 + Z.of_nat (length (conns s));
  ui_name c i : conns s !! c = Some i -> c_name i = connName (name_ s) (1 + Z.of_nat c);
  ui_conn c i : conns s !! c = Some i -> conn_ok s c i;
  ui_fits l f : f ∈ queues s l -> fits s l f;
  ui_starts l : NoDup (starts (queues s l));
  ui_map n c : connections_ s !! n = Some c -> exists i, conns s !! c = Some i /\ c_name i = n /\
    (closed (c_conn i) = 0%nat \/ FRemove c ∈ queues s (loop_ s) \/ h = Some c)
}.
Definition UInv (s : userver) : Prop := UInv_but None s.

Section Lemmas.
Context `{HB : Build}.
Implicit Types (s : userver) (h : option nat).

Lemma starts_app q q' : starts (q ++ q') = starts q ++ starts q'.
Proof. apply omap_app. Qed.

Lemma guarded_nil c : guarded [] c.
Proof. intros q1 f q2 E. now destruct q1. Qed.

Lemma guarded_push q f c : guarded q c -> (forall g, f = FConn g c -> g = hold_guard) -> guarded (q ++ [f]) c.
Proof.
  intros Hq Hf q1 g q2 E Hg. destruct q2 as [|x q2 _] using rev_ind.
  - apply app_inj_tail in E as [_ ->]. now destruct Hg; apply Hf.
  - rewrite app_comm_cons, app_assoc in E. apply app_inj_tail in E as [E ->].
    apply elem_of_app. left. now apply (Hq q1 g q2).
Qed.

(** A pointer at the end guards all. *)
Lemma guarded_guard q c : guarded (q ++ [FConn hold_guard c]) c.
Proof.
  intros q1 g q2 E Hg. destruct q2 as [|x q2 _] using rev_ind.
  - now apply app_inj_tail in E as [_ [= <-]].
  - rewrite app_comm_cons, app_assoc in E. apply app_inj_tail in E as [_ ->]. set_solver.
Qed.

Lemma guarded_tail f q c : guarded (f :: q) c -> guarded q c.
Proof. intros Hq q1 g q2 ->. apply (Hq (f :: q1) g q2). reflexivity. Qed.

Lemma UInv_ext h s s' : UInv_but h s -> threadPool_ s' = threadPool_ s -> name_ s' = name_ s -> nextConnId_ s' = nextConnId_ s ->
  connections_ s' = connections_ s -> conns s' = conns s -> server_alive s' = server_alive s -> (forall l, queues s' l = queues s l) ->
  UInv_but h s'.
Proof.
  intros I Ep En Ei Em Ec Ea Eq. assert (El : loop_ s' = loop_ s) by (unfold loop_; congruence).
  constructor.
  - rewrite Ea. apply I.
  - rewrite Ep. apply I.
  - rewrite Ei, Ec. apply I.
  - intros c i. rewrite Ec, En. apply I.
  - intros c i Hc. rewrite Ec in Hc. destruct (ui_conn _ _ I _ _ Hc). constructor; rewrite ?Em, ?Eq; done.
  - intros l f Hf. rewrite Eq in Hf. apply (ui_fits _ _ I) in Hf. destruct f; cbn in *; now rewrite ?Ec, ?El.
  - intros l. rewrite Eq. apply I.
  - intros n c Hn. rewrite Em in Hn. rewrite Ec, El, Eq. now apply (ui_map _ _ I).
Qed.

Definition push (l : loop_id) (f : ufunctor) s : userver := set_queue l (queues s l ++ [f]) s.

(** A functor joins a queue. *)
Lemma UInv_push h l f s : UInv_but h s -> fits s l f ->
  match f with
  | FStart c => c ∉ starts (queues s l)
  | FConn hold_guard _ => True
  | FConn _ c => forall i, conns s !! c = Some i -> closed (c_conn i) = 0%nat
  | FRemove _ => True
  end -> UInv_but (if f is FRemove c then if decide (h = Some c) then None else h else h) (push l f s).
Proof.
  intros I Hf Hs. constructor; try apply I.
  - intros c i Hi. destruct (ui_conn _ _ I _ _ Hi). constructor; try done. intros Hc. cbn. case_decide as El; [|auto].
    subst l. apply guarded_push; [auto|]. intros g ->. destruct g; [..|done]; now specialize (Hs i Hi).
  - intros l' g. cbn. case_decide as El; [subst l'|intros Hg; now apply (ui_fits _ _ I)].
    intros [Hg| ->%list_elem_of_singleton]%elem_of_app; [exact (ui_fits _ _ I _ _ Hg)|exact Hf].
  - intros l'. cbn. case_decide as El; [subst l'|apply I]. rewrite starts_app. apply NoDup_app.
    split_and!; [apply I| |destruct f; cbn; constructor; set_solver || constructor].
    intros x Hx. destruct f; cbn; [|set_solver..]. rewrite list_elem_of_singleton. now intros ->.
  - intros n c Hn. destruct (ui_map _ _ I n c Hn) as (i & Hi & En & Hc). exists i. split_and!; [done|done|].
    assert (Hin : forall x, x ∈ queues s (loop_ s) -> x ∈ queues (push l f s) (loop_ s)).
    { intros x Hx. cbn. case_decide; [subst l|]; set_solver. }
    destruct Hc as [Hc|[Hc|Hc]]; [by left|right; left; apply Hin, Hc|].
    destruct f as [| |d]; [by right; right..|]. case_decide as Hd; [|by right; right].
    right. left. destruct Hf as [-> _]. cbn. rewrite decide_True by done. rewrite Hc in Hd. injection Hd as ->. set_solver.
Qed.

(** The oldest functor leaves its queue. *)
Lemma UInv_pop l f q s : queues s l = f :: q -> UInv s -> UInv_but (if f is FRemove c then Some c else None) (set_queue l q s).
Proof.
  intros Eq I. constructor; try apply I.
  - intros c i Hi. destruct (ui_conn _ _ I _ _ Hi). constructor; try done. intros Hc. cbn. case_decide as El; [|auto].
    subst l. specialize (co_guarded0 Hc). rewrite Eq in co_guarded0. exact (guarded_tail _ _ _ co_guarded0).
  - intros l' g Hg. apply (ui_fits _ _ I). cbn in Hg. case_decide; [subst l'; rewrite Eq; set_solver|done].
  - intros l'. cbn. case_decide as El; [subst l'|apply I]. pose proof (ui_starts _ _ I l) as Hn. rewrite Eq in Hn.
    destruct f; cbn in Hn; [now apply NoDup_cons in Hn as [_ Hn]|done..].
  - intros n c Hn. destruct (ui_map _ _ I n c Hn) as (i & Hi & En & Hc). exists i. split_and!; [done|done|].
    destruct Hc as [Hc|[Hc|Hc]]; [by left| |discriminate].
    change (loop_ (set_queue l q s)) with (loop_ s). cbn. case_decide as El; [|by right; left].
    rewrite El, Eq in Hc. apply elem_of_cons in Hc as [<-|Hc]; [by right; right|by right; left].
Qed.

Definition with_info (c : nat) (i : uinfo) s : userver := set_conns (<[c := i]> (conns s)) s.

Lemma with_info_lookup c i i' s d j : conns s !! c = Some i ->
  conns (with_info c i' s) !! d = Some j <-> (d = c /\ j = i') \/ (d <> c /\ conns s !! d = Some j).
Proof.
  intros Hi. cbn. rewrite list_lookup_insert_Some. apply lookup_lt_Some in Hi.
  split; [intros [(-> & <- & _)|[? ?]]; auto|intros [[-> ->]|[? ?]]; auto].
Qed.

Lemma elem_of_starts c q : c ∈ starts q <-> FStart c ∈ q.
Proof.
  unfold starts. rewrite list_elem_of_omap. split; [|intros H; now exists (FStart c)].
  intros (f & Hf & E). destruct f; try discriminate. now injection E as ->.
Qed.

(** A connection changes; when it closes, its removal is in hand. *)
Lemma UInv_update h h' c i i' s : UInv_but h s -> conns s !! c = Some i -> c_name i' = c_name i -> c_loop i' = c_loop i ->
  conn_ok s c i' -> (began i' = false \/ c ∉ starts (queues s (c_loop i))) -> (began i = true -> began i' = true) ->
  (closed (c_conn i') = closed (c_conn i) /\ h' = h \/ closed (c_conn i) = 0%nat /\ closed (c_conn i') = 1%nat /\ h = None /\ h' = Some c) ->
  UInv_but h' (with_info c i' s).
Proof.
  intros I Hi En El Hok Hst Hbg Hcl. constructor; try apply I.
  - cbn. rewrite length_insert. apply I.
  - intros d j [[-> ->]|[_ Hj]]%(with_info_lookup c i _ _ _ _ Hi); [rewrite En|]; now apply (ui_name _ _ I).
  - intros d j [[-> ->]|[_ Hj]]%(with_info_lookup c i _ _ _ _ Hi).
    + now destruct Hok.
    + now destruct (ui_conn _ _ I _ _ Hj).
  - intros l f Hf. pose proof (ui_fits _ _ I l f Hf) as Hfit.
    destruct f as [d|g d|d]; cbn in Hfit |- *.
    + destruct Hfit as (j & Hj & -> & Hb). destruct (decide (d = c)) as [->|Hd].
      * assert (j = i) as -> by congruence. exists i'. rewrite list_lookup_insert_eq by now apply lookup_lt_Some in Hi.
        split_and!; [done|done|]. destruct Hst as [?|Hst]; [done|]. now destruct Hst; apply elem_of_starts.
      * exists j. now rewrite list_lookup_insert_ne by done.
    + destruct Hfit as (j & Hj & -> & Hb). destruct (decide (d = c)) as [->|Hd].
      * assert (j = i) as -> by congruence. exists i'. rewrite list_lookup_insert_eq by now apply lookup_lt_Some in Hi.
        split_and!; auto.
      * exists j. now rewrite list_lookup_insert_ne by done.
    + destruct Hfit as (-> & j & Hj & Hc). split; [done|]. destruct (decide (d = c)) as [->|Hd].
      * assert (j = i) as -> by congruence. exists i'. rewrite list_lookup_insert_eq by now apply lookup_lt_Some in Hi.
        split; [done|]. lia.
      * exists j. now rewrite list_lookup_insert_ne by done.
  - intros n d Hn. destruct (ui_map _ _ I n d Hn) as (j & Hj & Ej & Hd). destruct (decide (d = c)) as [->|Hdc].
    + assert (j = i) as -> by congruence. exists i'. cbn. rewrite list_lookup_insert_eq by now apply lookup_lt_Some in Hi.
      split_and!; [done|congruence|]. destruct Hcl as [[-> ->]|(_ & _ & _ & ->)]; [exact Hd|by right; right].
    + exists j. cbn. rewrite list_lookup_insert_ne by done. split_and!; [done|done|].
      destruct Hd as [?|[?|Hd]]; [by left|by right; left|]. destruct Hcl as [[_ ->]|(_ & _ & -> & _)]; [by right; right|done].
Qed.

(** The server forgets the connection whose removal is in hand. *)
Lemma UInv_remove c i s : UInv_but (Some c) s -> conns s !! c = Some i -> closed (c_conn i) = 1%nat ->
  UInv (set_connections (delete (c_name i) (connections_ s)) s).
Proof.
  intros I Hi Hc. constructor; try apply I.
  - intros d j Hj. cbn in Hj. destruct (ui_conn _ _ I _ _ Hj). constructor; try done. intros H0. cbn.
    rewrite lookup_delete_ne; [auto|]. intros En. rewrite (ui_name _ _ I _ _ Hi), (ui_name _ _ I _ _ Hj) in En.
    apply (inj (connName (name_ s))) in En. assert (d = c) as -> by lia. assert (j = i) as -> by congruence. lia.
  - intros n d Hn. cbn in Hn. apply lookup_delete_Some in Hn as [Hne Hn]. destruct (ui_map _ _ I n d Hn) as (j & Hj & Ej & Hd).
    exists j. split_and!; [done|done|]. destruct Hd as [?|[?|[= <-]]]; [by left|by right; left|]. congruence.
Qed.

(** ** Member functions of a connection *)

(** What a member function does, with assertions: it closes and takes a pointer, or
    it queues at most one functor, and only while the connection is not closed. *)
Definition quiet (w w' : uconn) : Prop :=
  closed w' = closed w /\ (functors w' = [] \/ closed w = 0%nat /\ exists f, f <> hold_guard /\ functors w' = [f]).
Definition closing (w w' : uconn) : Prop := closed w = 0%nat /\ closed w' = 1%nat /\ functors w' = [hold_guard].

Lemma handleClose_effect w b w' : functors w = [] -> Once w -> handleClose w = (b, w') ->
  b = false /\ Once w' /\ (quiet w w' \/ closing w w').
Proof.
  intros Hf H0. destruct (handleClose_once w H0) as (w1 & E & H1 & _ & Hn). rewrite E. intros [= <- <-].
  split_and!; [done|done|]. revert E. unfold handleClose. destruct H0 as [Hc H0]. rewrite Hc.
  destruct (decide (state_ w = KDisconnected)); intros [= <-].
  - left. split; [done|]. by left.
  - right. split_and!; cbn; [done|by rewrite H0|by rewrite Hf].
Qed.

Lemma forceclose_effect w : functors w = [] -> Once w -> Once (forceclose w) /\ quiet w (forceclose w).
Proof.
  intros Hf H0. split; [now apply forceclose_once|]. destruct H0 as [_ H0]. unfold forceclose, quiet.
  destruct (state_ w) eqn:Es; cbn; rewrite ?Hf.
  1, 2: split; [done|]; right; split; [by rewrite H0|]; by exists call_forcecloseInLoop.
  all: split; [done|by left].
Qed.

Lemma happen_effect e w w' : asserts_enabled = true -> handler_op e -> functors w = [] -> Once w ->
  happen e w = Done (tt, w') -> Once w' /\ (quiet w w' \/ closing w w').
Proof.
  intros Hb He Hf H0 E. split; [exact (happen_once e w w' Hb H0 E)|]. revert E. destruct e; cbn [happen].
  - unfold shutdown. rewrite bind_get. unfold cassert. rewrite Hb. cbn [andb].
    destruct (bool_decide_reflect (state_ w = KConnected)) as [Hs|]; [|discriminate]. cbn [negb].
    intros [= <-]. left. split; [done|]. right. destruct H0 as [_ H0]. rewrite Hs in H0. cbn. rewrite Hf. split; [done|]. by exists call_shutdownInLoop.
  - intros [= <-]. left. now apply forceclose_effect.
  - done.
  - destruct (handleClose w) as [b w1] eqn:E1. destruct (handleClose_effect w b w1 Hf H0 E1) as (-> & _ & Hq). now intros [= <-].
Qed.

Lemma functor_effect f w : functors w = [] -> Once w ->
  exists w', run_functor f w = Done (tt, w') /\ Once w' /\ (quiet w w' \/ closing w w').
Proof.
  intros Hf H0. destruct f; cbn [run_functor].
  - eexists. split_and!; [reflexivity|exact H0|]. left. split; [done|]. by left.
  - unfold forcecloseInLoop. destruct (handleClose (add_shut SHUT_RDWR w)) as [b w1] eqn:E1.
    destruct (handleClose_effect (add_shut SHUT_RDWR w) b w1 Hf H0 E1) as (-> & H1 & Hq). eauto.
  - exists w. split_and!; [done|done|]. left. split; [done|]. by left.
Qed.

Definition with_conn (w : uconn) (i : uinfo) : uinfo :=
  {| c_name := c_name i; c_loop := c_loop i; c_fd := c_fd i; c_conn := set_functors [] w; began := began i; running := running i |}.

Lemma info_run c i s : conns s !! c = Some i -> info c s = Done (i, s).
Proof. intros Hi. unfold info. st_get. now rewrite Hi. Qed.

(** The state of a connection after a member function. *)
Lemma with_conn_ok c i w s s' : conns s !! c = Some i -> conn_ok s c i -> began i = true -> Once w ->
  (closed w = 0%nat -> closed (c_conn i) = 0%nat /\ connections_ s' = connections_ s) ->
  (closed w <> 0%nat -> guarded (queues s' (c_loop i)) c) -> conn_ok s' c (with_conn w i).
Proof.
  intros Hi Hok Hb H0 Hk Hg. constructor; cbn; [done|apply H0| | |exact Hg].
  - rewrite Hb. exact H0.
  - intros Hc. destruct (Hk Hc) as [Hc0 ->]. now apply (co_known _ _ _ Hok).
Qed.

Lemma on_conn_quiet c i m w s : UInv s -> conns s !! c = Some i -> began i = true -> m (c_conn i) = Done (tt, w) ->
  Once w -> quiet (c_conn i) w -> exists s', on_conn c m s = Done (tt, s') /\ UInv s'.
Proof.
  intros I Hi Hb Em H0 [Hcl Hf]. pose proof (ui_conn _ _ I _ _ Hi) as Hok.
  assert (I1 : UInv (with_info c (with_conn w i) s)).
  { apply (UInv_update None None c i); try done; [|right|left; done].
    - apply (with_conn_ok c i w s s); try done; [intros Hc; split; congruence|].
      rewrite Hcl. apply (co_guarded _ _ _ Hok).
    - rewrite elem_of_starts. intros Hin. destruct (ui_fits _ _ I _ _ Hin) as (j & Hj & _ & Hbj). congruence. }
  assert (Er : on_conn c m s = for_each (functors w) (fun f => queueInLoop (c_loop i) (FConn f c)) (with_info c (with_conn w i) s)).
  { unfold on_conn. st_step (info_run c i s Hi). rewrite Em. destruct (Nat.ltb_spec (closed (c_conn i)) (closed w)); [lia|].
    cbn [when]. now rewrite bind_ret_l. }
  rewrite Er. destruct Hf as [->|(Hc0 & f & Hf & ->)]; [eauto|].
  eexists. split; [reflexivity|]. apply (UInv_push None _ (FConn f c) _ I1).
  - eexists. split_and!; [apply with_info_lookup with i; [exact Hi|by left]|done|exact Hb].
  - intros. destruct f; [..|done]; intros j [[_ ->]|[? _]]%(with_info_lookup c i _ _ _ _ Hi); cbn; congruence.
Qed.

Lemma on_conn_closing c i m w s : UInv s -> conns s !! c = Some i -> began i = true -> m (c_conn i) = Done (tt, w) ->
  Once w -> closing (c_conn i) w -> exists s', on_conn c m s = Done (tt, s') /\ UInv s'.
Proof.
  intros I Hi Hb Em H0 (Hc0 & Hc1 & Hf). pose proof (ui_conn _ _ I _ _ Hi) as Hok.
  set (g := FConn hold_guard c). set (i' := with_conn w i).
  assert (I1 : UInv (push (c_loop i) g s)) by (apply (UInv_push None (c_loop i) g s I); [by exists i|done]).
  assert (Hi1 : conns (push (c_loop i) g s) !! c = Some i) by exact Hi.
  assert (I2 : UInv_but (Some c) (with_info c i' (push (c_loop i) g s))).
  { apply (UInv_update None (Some c) c i); try done; [|right|right; done].
    - apply (with_conn_ok c i w s); try done; try lia. intros _. cbn. rewrite decide_True by done. apply guarded_guard.
    - rewrite elem_of_starts. intros Hin. destruct (ui_fits _ _ I1 _ _ Hin) as (j & Hj & _ & Hbj).
      assert (j = i) as -> by congruence. congruence. }
  assert (Hi2 : conns (with_info c i' (push (c_loop i) g s)) !! c = Some i') by (apply with_info_lookup with i; [exact Hi|by left]).
  assert (Er : on_conn c m s = (_ ← removeConnection c; _ ← set_info c i'; queueInLoop (c_loop i) g) s).
  { unfold on_conn. st_step (info_run c i s Hi). rewrite Em, Hc0, Hc1, Hf. reflexivity. }
  rewrite Er. unfold removeConnection. rewrite bind_assoc, bind_get, (ui_alive _ _ I), bind_assoc, bind_ret_l, bind_assoc.
  rewrite (bind_done _ _ _ _ _ (info_run c i s Hi)). destruct (decide (c_loop i = loop_ s)) as [El|El].
  - unfold removeConnectionInLoop. rewrite bind_assoc, bind_get, (ui_alive _ _ I), bind_assoc, bind_ret_l, bind_assoc.
    rewrite (bind_done _ _ _ _ _ (info_run c i s Hi)). eexists. split; [reflexivity|]. exact (UInv_remove c i' _ I2 Hi2 Hc1).
  - eexists. split; [reflexivity|].
    assert (I3 : UInv (push (loop_ s) (FRemove c) (with_info c i' (push (c_loop i) g s)))).
    { assert (I3 : UInv_but (if decide (Some c = Some c) then None else Some c)
        (push (loop_ s) (FRemove c) (with_info c i' (push (c_loop i) g s)))); [|by rewrite decide_True in I3].
      apply (UInv_push (Some c) (loop_ s) (FRemove c) _ I2); [|done]. split; [done|]. by exists i'. }
    apply (UInv_ext _ _ _ I3); try done. intros l. cbn. repeat case_decide; congruence.
Qed.

(** A member function on a server that keeps its invariant. *)
Lemma on_conn_ok c i m w s : UInv s -> conns s !! c = Some i -> began i = true -> m (c_conn i) = Done (tt, w) ->
  Once w -> quiet (c_conn i) w \/ closing (c_conn i) w -> exists s', on_conn c m s = Done (tt, s') /\ UInv s'.
Proof. intros I Hi Hb Em H0 [Hq|Hc]; [eapply on_conn_quiet|eapply on_conn_closing]; eauto. Qed.
(** ** Steps keep the invariant *)

Lemma insert_twice {A} (c : nat) (x y : A) (l : list A) : <[c := x]> (<[c := y]> l) = <[c := x]> l.
Proof. apply list_insert_insert_eq. Qed.

Lemma start_conn_ok c i s : UInv s -> conns s !! c = Some i -> began i = false -> c ∉ starts (queues s (c_loop i)) ->
  exists s', start_conn c s = Done (tt, s') /\ UInv s'.
Proof.
  intros I Hi Hb Hst. pose proof (ui_conn _ _ I _ _ Hi) as Hok. pose proof (co_once _ _ _ Hok) as H0. rewrite Hb in H0.
  destruct H0 as [Hc0 Hr]. set (b := handle_ (c_conn i)).
  set (w := if b then set_state KConnected (set_state KConnecting (c_conn i)) else set_state KDisconnecting (set_state KConnecting (c_conn i))).
  set (i' := {| c_name := c_name i; c_loop := c_loop i; c_fd := c_fd i; c_conn := set_functors [] w; began := true; running := b |}).
  assert (Hw : closed w = 0%nat /\ Once w /\ closeCallback_ w = true).
  { unfold Once, w. destruct b; cbn; rewrite Hc0, (co_callback _ _ _ Hok); split_and!; done. }
  destruct Hw as (Hcw & H1 & Hcb).
  assert (I1 : UInv (with_info c i' s)).
  { apply (UInv_update None None c i); try done; [|by right|left; split; [cbn; congruence|done]].
    constructor; try done. intros _. exact (co_known _ _ _ Hok Hc0). }
  assert (Er : start_conn c s = (if b then mret tt else queueInLoop (c_loop i) (FConn call_forcecloseInLoop c)) (with_info c i' s)).
  { unfold start_conn. st_step (info_run c i s Hi). unfold set_running. rewrite bind_assoc. st_step (info_run c i s Hi).
    unfold set_info. rewrite bind_modify. unfold on_conn.
    erewrite bind_done by (apply info_run; cbn; apply list_lookup_insert_eq; by apply lookup_lt_Some in Hi).
    cbn [c_conn handle_]. fold b. unfold modify at 1. cbn [c_name c_loop c_fd c_conn began running].
    assert (Ef : (if handle_ (c_conn i) then set_state KConnected (set_state KConnecting (c_conn i)) else forceclose (set_state KConnecting (c_conn i)))
      = if b then w else UringTcpConnection.queueInLoop call_forcecloseInLoop w) by (unfold w, b; destruct (handle_ (c_conn i)); reflexivity).
    rewrite Ef. destruct b; cbn; rewrite Hc0; cbn; rewrite (co_clean _ _ _ Hok); cbn; rewrite bind_ret_l; unfold set_info;
      rewrite bind_modify; unfold with_info, set_conns; cbn; now rewrite insert_twice. }
  rewrite Er. destruct b; [eauto|]. eexists. split; [reflexivity|].
  apply (UInv_push None (c_loop i) (FConn call_forcecloseInLoop c) _ I1).
  - exists i'. split_and!; [|done|done]. apply with_info_lookup with i; [exact Hi|by left].
  - intros j [[_ ->]|[? _]]%(with_info_lookup c i _ _ _ _ Hi); [exact Hcw|done].
Qed.

(** Everything [use] can say. *)
Lemma use_cases c i s : conns s !! c = Some i -> use c s = if owned s c i then Done (tt, s) else Fail UndefinedBehaviour.
Proof. intros Hi. unfold use. st_step (info_run c i s Hi). rewrite bind_get. now destruct (owned s c i). Qed.

Lemma end_conn_ok c threw i s s' : UInv s -> conns s !! c = Some i -> running i = true -> end_conn c threw s = Done (tt, s') -> UInv s'.
Proof.
  intros I Hi Hr. pose proof (ui_conn _ _ I _ _ Hi) as Hok. pose proof (co_once _ _ _ Hok) as H0.
  destruct (began i) eqn:Hb; [|destruct H0; congruence].
  set (i' := {| c_name := c_name i; c_loop := c_loop i; c_fd := c_fd i; c_conn := c_conn i; began := true; running := false |}).
  assert (I1 : UInv (with_info c i' s)).
  { apply (UInv_update None None c i); try done; [|right|by left].
    - constructor; try apply Hok. exact H0.
    - rewrite elem_of_starts. intros Hin. destruct (ui_fits _ _ I _ _ Hin) as (j & Hj & _ & Hbj). congruence. }
  assert (Hi1 : conns (with_info c i' s) !! c = Some i') by (apply with_info_lookup with i; [exact Hi|by left]).
  unfold end_conn, set_running. rewrite bind_assoc. rewrite (bind_done _ _ _ _ _ (info_run c i s Hi)).
  unfold set_info. rewrite bind_modify. fold i'. fold (with_info c i' s). destruct threw; [by intros [= <-]|].
  intros (u & s1 & E1 & E2)%bind_inv. rewrite (use_cases c i' _ Hi1) in E1.
  destruct (owned _ c i'); [|discriminate]. injection E1 as _ <-.
  assert (Hq : Once (close_if_open (c_conn i)) /\ quiet (c_conn i) (close_if_open (c_conn i))).
  { unfold close_if_open. destruct (decide _); [|apply forceclose_effect; [apply Hok|exact H0]].
    split; [exact H0|]. split; [done|]. left. apply Hok. }
  destruct (on_conn_ok c i' (modify close_if_open) _ _ I1 Hi1 eq_refl eq_refl (proj1 Hq) (or_introl (proj2 Hq))) as (s2 & E & I2).
  rewrite E in E2. now injection E2 as <-.
Qed.

(** Running a functor that has been taken from its queue. *)
Lemma run_ufunctor_ok l f q s : UInv s -> queues s l = f :: q -> exists s', run_ufunctor f (set_queue l q s) = Done (tt, s') /\ UInv s'.
Proof.
  intros I Eq. pose proof (UInv_pop l f q s Eq I) as I1. pose proof (ui_fits _ _ I l f ltac:(rewrite Eq; set_solver)) as Hf.
  destruct f as [c|g c|c]; cbn in Hf.
  - destruct Hf as (i & Hi & -> & Hb). apply (start_conn_ok c i); try done. cbn. rewrite decide_True by done.
    pose proof (ui_starts _ _ I (c_loop i)) as Hn. rewrite Eq in Hn. cbn in Hn. now apply NoDup_cons in Hn as [Hn _].
  - destruct Hf as (i & Hi & -> & Hb). pose proof (ui_conn _ _ I1 _ _ Hi) as Hok. pose proof (co_once _ _ _ Hok) as H0. rewrite Hb in H0.
    destruct (functor_effect g (c_conn i) (co_clean _ _ _ Hok) H0) as (w & Em & Hw & Hq).
    assert (Hown : g <> hold_guard -> owned (set_queue (c_loop i) q s) c i = true).
    { intros Hg. unfold owned. rewrite !orb_true_iff. destruct (decide (closed (c_conn i) = 0%nat)) as [Hc|Hc].
      - do 4 left. apply bool_decide_true. exact (co_known _ _ _ Hok Hc).
      - left. right. apply bool_decide_true. cbn. rewrite decide_True by done.
        exact (co_guarded _ _ _ (ui_conn _ _ I _ _ Hi) Hc [] g q Eq Hg). }
    destruct g; [| |eexists; split; [reflexivity|exact I1]];
      cbn [run_ufunctor]; rewrite (bind_done (use c) _ _ tt (set_queue (c_loop i) q s))
        by (rewrite (use_cases c i); [by rewrite Hown|exact Hi]); exact (on_conn_ok c i _ w _ I1 Hi Hb Em Hw Hq).
  - destruct Hf as (_ & i & Hi & Hc). cbn [run_ufunctor]. unfold removeConnectionInLoop.
    rewrite bind_get, (ui_alive _ _ I1), bind_ret_l. rewrite (bind_done (info c) _ _ i (set_queue l q s)) by (by apply info_run).
    eexists. split; [reflexivity|]. exact (UInv_remove c i _ I1 Hi Hc).
Qed.

(** A new connection. *)
Definition new_info (name : string) (l : loop_id) (fd : Z) (handle : bool) : uinfo :=
  {| c_name := name; c_loop := l; c_fd := fd; c_conn := newConn handle; began := false; running := false |}.

Definition with_new (l : loop_id) (fd : Z) s : userver :=
  let name := connName (name_ s) (nextConnId_ s) in
  set_connections (<[name := length (conns s)]> (connections_ s))
    (set_conns (conns s ++ [new_info name l fd (handle_set s)]) (set_nextId (nextConnId_ s + 1) s)).

Lemma new_name_fresh s : UInv s -> connections_ s !! connName (name_ s) (nextConnId_ s) = None.
Proof.
  intros I. destruct (connections_ s !! _) as [c|] eqn:E; [|done]. destruct (ui_map _ _ I _ _ E) as (i & Hi & En & _).
  rewrite (ui_name _ _ I _ _ Hi) in En. apply (inj (connName (name_ s))) in En. apply lookup_lt_Some in Hi.
  rewrite (ui_id _ _ I) in En. lia.
Qed.

Lemma UInv_new l fd s : UInv s -> UInv (with_new l fd s).
Proof.
  intros I. pose proof (new_name_fresh s I) as Hfr. constructor; try apply I.
  - cbn. rewrite length_app. cbn. rewrite (ui_id _ _ I). lia.
  - intros c i. cbn. intros [Hi|(-> & <-)]%lookup_snoc_Some; [exact (ui_name _ _ I _ _ (proj2 Hi))|]. cbn. now rewrite (ui_id _ _ I).
  - intros c i. cbn. intros [[Hl Hi]|(-> & <-)]%lookup_snoc_Some.
    + destruct (ui_conn _ _ I _ _ Hi). constructor; try done. intros Hc. cbn. rewrite lookup_insert_ne; [auto|].
      intros En. specialize (co_known0 Hc). rewrite <-En in co_known0. congruence.
    + constructor; try done. intros _. apply lookup_insert_eq.
  - intros l' f Hf. pose proof (ui_fits _ _ I l' f Hf) as Hfit. destruct f; cbn in Hfit |- *.
    1, 2: destruct Hfit as (i & Hi & Hr); exists i; (split; [now apply lookup_app_l_Some|done]).
    destruct Hfit as (-> & i & Hi & Hc). split; [done|]. exists i. split; [now apply lookup_app_l_Some|done].
  - intros n c. cbn. intros [[<- <-]|[_ Hn]]%lookup_insert_Some.
    + exists (new_info (connName (name_ s) (nextConnId_ s)) l fd (handle_set s)). split_and!; [|done|by left].
      apply list_lookup_middle. done.
    + destruct (ui_map _ _ I _ _ Hn) as (i & Hi & En & Hc). exists i. split_and!; [now apply lookup_app_l_Some|done|done].
Qed.

Lemma accepted_ok fd s : UInv s -> nextConnId_ s < INT_MAX -> exists s', accepted fd s = Done (tt, s') /\ UInv s'.
Proof.
  intros I Hid. unfold accepted. destruct (fd <? 0); [eauto|]. destruct (ui_next _ _ I) as [Hn0 Hn1].
  destruct (getNextLoop_run (threadPool_ s) Hn0 Hn1) as (l & El & _).
  set (n' := if bool_decide (loops_ (threadPool_ s) = []) then _ else _) in El.
  set (s1 := set_pool (set_next n' (threadPool_ s)) s).
  assert (I1 : UInv s1).
  { constructor; try apply I; [|intros c i Hi; now destruct (ui_conn _ _ I _ _ Hi)]. cbn. unfold n'. case_bool_decide as Hl; [split; [done|by right]|]. destruct Hn1 as [Hn1|]; [|done].
    assert (0 < Z.of_nat (length (loops_ (threadPool_ s)))) by (destruct (loops_ (threadPool_ s)); [done|cbn; lia]).
    pose proof (Z.mod_pos_bound (next_ (threadPool_ s) + 1) _ H). split; [lia|left; lia]. }
  rewrite (bind_done (on_pool getNextLoop) _ s l s1) by (unfold on_pool; now rewrite El).
  unfold onNewConnection. rewrite bind_get. destruct (Z.eqb_spec (nextConnId_ s1) INT_MAX) as [E|_]; [cbn in E; lia|].
  do 3 rewrite bind_modify. pose proof (UInv_new l fd s1 I1) as I2.
  set (c := length (conns s1)). fold (with_new l fd s1).
  assert (Hi : conns (with_new l fd s1) !! c = Some (new_info (connName (name_ s1) (nextConnId_ s1)) l fd (handle_set s1)))
    by now apply list_lookup_middle.
  assert (Hst : c ∉ starts (queues s1 l)).
  { rewrite elem_of_starts. intros Hin. destruct (ui_fits _ _ I1 _ _ Hin) as (j & Hj & _). apply lookup_lt_Some in Hj. lia. }
  change (loop_ (set_connections _ _)) with (loop_ s1).
  destruct (decide (l = _)) as [Hl|Hl].
  - now apply (start_conn_ok c _ _ I2 Hi).
  - eexists. split; [reflexivity|]. apply (UInv_push None l (FStart c) _ I2); [|exact Hst]. by exists (new_info (connName (name_ s1) (nextConnId_ s1)) l fd (handle_set s1)).
Qed.
Lemma UInv_ready s : ready s -> UInv s.
Proof.
  intros (Ha & Hm & Hc & Hi & Hq & Hn0 & Hn1). constructor; try done.
  - rewrite Hi, Hc. done.
  - intros c i. now rewrite Hc.
  - intros c i. now rewrite Hc.
  - intros l f. rewrite Hq. set_solver.
  - intros l. rewrite Hq. constructor.
  - intros n c. now rewrite Hm.
Qed.

Lemma UInv_step s s' : asserts_enabled = true -> UInv s -> step s s' -> UInv s'.
Proof.
  intros Hb I (lb & He & E). destruct lb as [fd|l|c e|c threw]; cbn [enabled run_label] in *.
  - destruct (accepted_ok fd s I He) as (s1 & E1 & I1). rewrite E1 in E. now injection E as <-.
  - rewrite bind_get in E. destruct (queues s l) as [|f q] eqn:Eq; [now injection E as <-|]. rewrite bind_modify in E.
    destruct (run_ufunctor_ok l f q s I Eq) as (s1 & E1 & I1). rewrite E1 in E. now injection E as <-.
  - destruct He as (He & i & Hi & Hr). pose proof (ui_conn _ _ I _ _ Hi) as Hok. pose proof (co_once _ _ _ Hok) as H0.
    destruct (began i) eqn:Hbg; [|destruct H0; congruence]. destruct (happen e (c_conn i)) as [[[] w]|f] eqn:Ew.
    + destruct (happen_effect e _ _ Hb He (co_clean _ _ _ Hok) H0 Ew) as [Hw Hq].
      destruct (on_conn_ok c i _ w s I Hi Hbg Ew Hw Hq) as (s1 & E1 & I1). rewrite E1 in E. now injection E as <-.
    + exfalso. unfold on_conn in E. rewrite (bind_done _ _ _ _ _ (info_run c i s Hi)), Ew in E. discriminate.
  - destruct He as (i & Hi & Hr). exact (end_conn_ok c threw i s s' I Hi Hr E).
Qed.

Lemma UInv_reachable s : asserts_enabled = true -> reachable s -> UInv s.
Proof.
  intros Hb (s0 & H0 & Hr). apply UInv_ready in H0. induction Hr as [|s1 s2 s3 H12 _ IH]; [done|].
  apply IH. exact (UInv_step _ _ Hb H0 H12).
Qed.

(** C14: with assertions, whatever clients come, whatever the handlers do to their
    connections and in whatever order the loops go on: every functor finds its
    connection alive - also [shutdownInLoop] and [forcecloseInLoop], which hold
    only its address - and succeeds; a connection closes at most once; the server
    knows every connection that is not closed, under its name, and of the closed
    ones only those whose removal is still queued on the base loop. *)
Theorem uring_server_keeps_connections s : asserts_enabled = true -> reachable s ->
  (forall l, exists s', run_label (Functor l) s = Done (tt, s')) /\
  (forall c i, conns s !! c = Some i -> (closed (c_conn i) <= 1)%nat /\
     (closed (c_conn i) = 0%nat -> connections_ s !! c_name i = Some c)) /\
  (forall n c, connections_ s !! n = Some c -> exists i, conns s !! c = Some i /\ c_name i = n /\
     (closed (c_conn i) = 0%nat \/ FRemove c ∈ queues s (loop_ s))).
Proof.
  intros Hb Hr. pose proof (UInv_reachable s Hb Hr) as I. split_and!.
  - intros l. cbn [run_label]. rewrite bind_get. destruct (queues s l) as [|f q] eqn:Eq; [eauto|]. rewrite bind_modify.
    destruct (run_ufunctor_ok l f q s I Eq) as (s1 & E1 & _). eauto.
  - intros c i Hi. pose proof (ui_conn _ _ I _ _ Hi) as Hok. split; [|apply Hok].
    pose proof (co_once _ _ _ Hok) as H0. destruct (began i); [|destruct H0; lia].
    destruct H0 as [_ ->]. destruct (decide _); lia.
  - intros n c Hn. destruct (ui_map _ _ I n c Hn) as (i & Hi & En & Hc). exists i. split_and!; [done|done|].
    destruct Hc as [?|[?|?]]; [by left|by right|done].
Qed.
End Lemmas.

(** ** Runs *)

Section Play.
Context `{HB : Build}.

Definition enabledb (lb : label) (s : userver) : bool :=
  match lb with
  | Accepted _ => nextConnId_ s <? INT_MAX
  | Functor _ => true
  | HandlerOp c e => match e with RunFunctor => false | _ => if conns s !! c is Some i then running i else false end
  | HandlerEnds c _ => if conns s !! c is Some i then running i else false
  end.

Lemma enabledb_ok lb s : enabledb lb s = true -> enabled lb s.
Proof.
  destruct lb as [fd|l|c e|c threw]; cbn; [lia|done| |].
  - destruct (conns s !! c) as [i|] eqn:Hi; [|now destruct e]. intros Hr. unfold handler_op. split; [now destruct e|].
    exists i. split; [done|]. now destruct e.
  - destruct (conns s !! c) as [i|]; [|done]. eauto.
Qed.

Fixpoint play (ls : list label) (s : userver) : option userver :=
  match ls with
  | [] => Some s
  | lb :: ls' =>
      if enabledb lb s then match run_label lb s with Done (_, s') => play ls' s' | Fail _ => None end else None
  end.

Lemma play_steps ls s s' : play ls s = Some s' -> rtc step s s'.
Proof.
  revert s. induction ls as [|lb ls IH]; intros s; cbn [play]; [intros [= ->]; apply rtc_refl|].
  destruct (enabledb lb s) eqn:He; [|done]. destruct (run_label lb s) as [[[] s1]|f] eqn:E; [|done].
  intros Hp. apply rtc_l with s1; [|now apply IH]. exists lb. split; [now apply enabledb_ok|exact E].
Qed.

(** A server with a handler whose threads run the given loops. *)
Definition started (loops : list loop_id) : userver :=
  set_pool (mkPool 0%nat true (Z.of_nat (length loops)) 0 loops []) (newServer 0%nat "uring" true).

Lemma uring_started_ready loops : ready (started loops).
Proof. unfold ready, started. cbn. split_and!; try done. destruct loops; [by right|left; cbn; lia]. Qed.

Lemma play_reachable ls loops s : play ls (started loops) = Some s -> reachable s.
Proof. intros Hp. exists (started loops). split; [apply uring_started_ready|exact (play_steps _ _ _ Hp)]. Qed.
End Play.

Definition fails {S} (o : outcome (unit * S)) : bool := match o with Fail UndefinedBehaviour => true | _ => false end.

Lemma fails_inv {S} (o : outcome (unit * S)) : fails o = true -> o = Fail UndefinedBehaviour.
Proof. now destruct o as [|[]]. Qed.

(** two ways to use a connection that is gone.  When an operation has failed
    and the handler waits for something else before it ends, the connection is
    owned by the frame of its handler alone; that frame goes first, and
    [connectionLoop] continues in an object that is destroyed.  Without assertions
    a handler that shuts down a closed connection queues its bare address, behind
    the pointer that kept it alive. *)
Theorem uring_connection_dangles :
  (forall `{Build}, exists s, reachable s /\ enabled (HandlerEnds 0 false) s /\ run_label (HandlerEnds 0 false) s = Fail UndefinedBehaviour) /\
  (exists s, reachable (H := release_build) s /\ run_label (H := release_build) (Functor 0%nat) s = Fail UndefinedBehaviour).
Proof.
  split.
  - intros HB. destruct (play [Accepted 7; HandlerOp 0%nat OperationFails; Functor 0%nat] (started [])) as [s|] eqn:E; [|discriminate].
    exists s. split; [exact (play_reachable _ _ _ E)|]. vm_compute in E. injection E as <-.
    split; [|reflexivity]. eexists. split; reflexivity.
  - destruct (play (HB := release_build) [Accepted 7; HandlerOp 0%nat OperationFails; HandlerOp 0%nat DoShutdown; HandlerEnds 0%nat false; Functor 0%nat]
      (started [])) as [s|] eqn:E; [|discriminate].
    exists s. split; [exact (play_reachable _ _ _ E)|]. vm_compute in E. injection E as <-. reflexivity.
Qed.

(** ** Examples *)
Module Demo.
#[local] Existing Instance debug_build.

(** A client on the loop of a thread, whose handler closes it. *)
Definition closing_soon : userver :=
  match play [Accepted 7; Functor 1%nat; HandlerOp 0%nat DoForceclose] (started [1%nat]) with Some s => s | None => started [] end.

Lemma closing_soon_reachable : reachable closing_soon.
Proof. apply (play_reachable [Accepted 7; Functor 1%nat; HandlerOp 0%nat DoForceclose] [1%nat]). vm_compute. reflexivity. Qed.

Lemma uring_server_keeps_connections_witness :
  queues closing_soon 1%nat = [FConn call_forcecloseInLoop 0%nat] /\
  (exists s', run_label (Functor 1%nat) closing_soon = Done (tt, s')) /\
  connections_ closing_soon !! "uring#1"%string = Some 0%nat.
Proof.
  destruct (uring_server_keeps_connections (HB := debug_build) closing_soon eq_refl closing_soon_reachable) as (H1 & H2 & _).
  assert (Hi : exists i, conns closing_soon !! 0%nat = Some i /\ closed (c_conn i) = 0%nat /\ c_name i = "uring#1"%string)
    by (eexists; vm_compute; split_and!; reflexivity).
  destruct Hi as (i & Hi & Hc & En). split_and!; [vm_compute; reflexivity|exact (H1 1%nat)|].
  rewrite <-En. exact (proj2 (H2 0%nat i Hi) Hc).
Defined.
End Demo.
